(* ===== verification/_CoqProject ===== *)
-Q . S2P
Prelude.v
Model.v
Framing.v
Concrete.v
Refs.v
RefsTheory.v
Retention.v
RetentionTheory.v
Tree.v
Bundle.v
Objects.v
TreeTheory.v
Merge.v
MergeTheory.v
Claims.v
ClaimsTheory.v
Crypto.v
Ledger.v
Frame.v
FrameTheory.v
BundleTheory.v
Exchange.v
ExchangeTheory.v
Catalog.v
CatalogTheory.v
Pack.v
PackTheory.v
Chunker.v
ChunkerTheory.v
Gc.v
GcTheory.v
GcSafety.v
GcCollect.v
Paths.v
Disk.v
Policy.v
PolicyTheory.v
Files.v
Rewind.v
DiskTheory.v
PlanTheory.v
RewindTheory.v
RewindRestores.v
RefStore.v
PathIndex.v
Capture.v
CaptureLog.v
PathIndexTheory.v
CaptureSpec.v
CaptureTheory.v
CaptureWalk.v
CaptureFull.v
DeltaPaths.v
CaptureDelta.v
CaptureReload.v
Seal.v
SealTheory.v
VerifyTheory.v
RewindVerb.v
RewindVerbTheory.v
RewindRuns.v
Compact.v
CaptureExample.v
RewindVerbExample.v
