(* ===== verification/Prelude.v ===== *)
(** * furrow: a verification development (root file)

    furrow keeps the history of a working directory: it captures the tree into
    content-addressed objects, publishes snapshots on a timeline, brings any of
    them back, plans merges, lets agents claim paths, moves snapshots between
    stores and collects what nothing retains. This library translates the code
    that carries this out, from [furrow-core/src/], into definitions that compute,
    and proves what makes each part correct. File names below are relative to
    [furrow-core/src/].

    ** How the definitions read

    Byte strings ([Vec<u8>], files, keys) are lists of bytes. Machine integers are
    [Z] with their wrap-around or saturation written where the code's operation
    has one. [anyhow::Result] is [Res]; a method with [&mut self] that may fail is
    [M S A], a function of the state that gives a result and the state it leaves,
    also after a failure. A [BTreeMap], a SQL table and a directory of files are
    finite maps; a transaction that fails restores the tables. Third-party code is
    a class with its documented laws: [Blake3], [Hex], [Json] (serde_json), an
    AEAD, a keyed hash, SHA-256. Concrete.v gives each class an instance that
    computes, so that every theorem is also applied to concrete data.

    ** Parts, files and code

    - Prelude.v: bytes, results, the state monad, the order on byte strings and
      the lemmas and tactics all files share.
    - Model.v: [model.rs], [content_class.rs]. Framing.v: the checksummed frame
      that [refs.rs] and [retention.rs] share, read once and for all.
    - Refs.v, RefsTheory.v: [refs.rs], the reference log of a workspace and its
      advisory index, as the bytes of two files. Retention.v, RetentionTheory.v:
      [retention.rs], which snapshots of that log are kept; composed with Refs.v.
    - Tree.v, TreeTheory.v: [tree.rs], a directory as pages of sorted entries.
      Objects.v: a content-addressed store with the contract Tree.v asks for.
    - Merge.v, MergeTheory.v: [merge.rs]. Claims.v, ClaimsTheory.v: [claims.rs].
    - Bundle.v, BundleTheory.v: [bundle.rs]. Crypto.v: [remote_crypto.rs],
      [sealer.rs]. Ledger.v, Frame.v, FrameTheory.v, Exchange.v,
      ExchangeTheory.v: [exchange/], a snapshot moved between stores.
    - Catalog.v, CatalogTheory.v: [catalog.rs], the SQL tables and the rows a
      session retains in memory. Pack.v, PackTheory.v: [store.rs], pack files,
      crash recovery and the object store over the catalog.
    - Chunker.v, ChunkerTheory.v: [chunker.rs].
    - Gc.v, GcTheory.v, GcSafety.v, GcCollect.v: [gc.rs], over the catalog, the
      packs, the reference logs and the retention logs of all workspaces.
    - Paths.v: the path helpers of [repository.rs] over [std::path]. Disk.v,
      DiskTheory.v: what the file-system calls do to a POSIX directory tree.
      Policy.v, PolicyTheory.v: [policy.rs]. Files.v: one file into the store and
      back ([repository.rs], [system_attrs.rs], [sqlite_adapter.rs]).
    - Rewind.v, PlanTheory.v, RewindTheory.v, RewindRestores.v: the planning,
      checking and carrying out of a rewind ([repository.rs], [hardlink.rs]).
    - PathIndex.v, PathIndexTheory.v: [path_index.rs], the tables that remember
      what an inode was recorded as. RefStore.v: what a session asks of the
      reference log, as an interface, and its implementation by Refs.v.
    - Capture.v: a walk of the disk into the store, guided by the index, and the
      incremental capture of reported paths ([repository.rs]). CaptureSpec.v: the
      reference, the tree of a disk without index, cache or order. CaptureTheory.v,
      CaptureWalk.v, CaptureFull.v, DeltaPaths.v, CaptureDelta.v, CaptureReload.v
      and CaptureLog.v prove that captures follow it; Seal.v, SealTheory.v: a
      capture becomes a snapshot of the timeline, and the life of a workspace.
    - RewindVerb.v: the verb [rewind] over all of that: what a target lacks, the
      plan, the seal before, the note, carrying out and checking, rollback, the
      backups of databases, and the recovery of an interrupted rewind
      ([repository.rs]). VerifyTheory.v: the check of a plan says yes exactly when
      the disk shows it. RewindVerbTheory.v, RewindRuns.v: the runs of the verb.
    - Compact.v, CaptureExample.v, RewindVerbExample.v: a codec and disks on which
      captures and rewinds compute.

    The files with Theory in their name, the Capture files after CaptureSpec.v,
    GcSafety.v, GcCollect.v, RewindRestores.v and RewindRuns.v hold the theorems; Ledger.v and
    Crypto.v hold their own.

    ** What is shown

    - The log: whatever a crash left, [append], [recent], [records] and
      [repair_suffix] act as on the abstract list of records.
    - Retention: what a plan keeps, in terms of ages and clock periods, that pins
      survive, that the chain of states reads back; when a dangling pin stops it.
    - Directories: what is written reads back through every reader, differences
      are exact, the level loop ends when references are small and never when
      they are not.
    - The store: an open recovers exactly the whole records and keeps what was
      durable; a store in order is a content store for puts and reads.
    - Collection: which snapshots it starts from, and with which classes of
      content; it ends, keeps exactly what the roots reach, and loses nothing
      wherever the process dies.
    - Chunks: independent of the sizes the reads return, bounded, and the file.
    - Merging: the flat plan is the three-way merge and agrees with the planner
      over trees while no directory disappears. Claims: of two holders' active
      claims none overlap; globs match what they mean.
    - Transport: what is sealed, framed, bundled or exported opens, decodes and
      imports again, in every mode; what is accepted is complete and names what it
      holds.
    - Captures: a full capture stores the reference tree of the disk and indexes it;
      the next one answers the same through the cached states of inodes; an
      incremental one answers what a full one would when every changed place was
      reported; a process started later goes on from the files. By induction over
      the steps of a workspace's life, its last snapshot is always of the folder
      as it was sealed. A directory that became a file is where this breaks.
    - Rewind: the plan is the exact difference; carrying it out leaves a disk that
      shows the snapshot; what a policy is, and what it does not protect. The verb
      seals the folder first and removes its note in the end; cut short anywhere
      after the note, or failed, it is undone, by the next process or by itself.

    Where the code does not do what it means to, the theorem says what it does.

    ** Fuel

    Recursion that follows data is bounded by a number, and running out is a
    result of its own ([None] or an error no code has). Readers of a tree need
    more than its height and entries; the level loop [length] rounds; the index
    of a log the length of the file; a glob its pattern and path together; an
    import, a scan and a chunk stream the length of their input; a mark traversal
    seventeen turns an object, one more than there are mask bits to add; a walk
    over stored objects one turn an object; the recursion into directories their
    nesting, and a capture one more than they nest; its retries are the code's;
    what a snapshot lacks is found in one turn a directory. The theorems
    ask for that much or show that it is enough.

    ** Not modelled

    I/O errors other than the end of a file and those of Disk.v; locks, [fsync],
    retained file handles, and fault points, which change no value a sequential
    run sees; SQLite itself (its log, busy handlers, statement caches); Windows
    branches. Clocks, random bytes and temporary names are arguments. Where the
    code relies on a hash naming one object, that is a hypothesis and says so.
    Identities are 32 bytes by type, so the checks of their length are gone.
    In Disk.v a symbolic link on the way to a place is not followed: the callers
    look for one first. Reading a file or listing a directory asks for search
    permission on the way there, not for read permission of the file or directory
    itself. Extended attributes of directories are captured and
    healed, but a rewind does not set them before the check, nor do the theorems
    ask it to; hard links are put back by [restore_links], of which no theorem
    speaks; the theorems on the verb are of rewinds of the whole folder without
    link groups and databases. The context that [rewind] adds to an error is left
    out, and so is making its writes durable. Composed directories ([overlay.rs])
    are left out.

    A capture runs without plans and scopes ([capture_plan.rs]), change tracking
    ([change_tracking.rs]), byte budgets, deferred durability and timing; the stat
    cache has one name space, where the code has that of the folder and an older
    one of the workspace behind it; the backup of a database file,
    the active claims, the discovery of Git rules and their matcher are arguments.
    The path index is its tables: no pragma, no checkpoint, no file of its own.

    Of the rest of the repository nothing is modelled: the commands and output of
    furrow-cli, the furrow-daemon server and its wire format, the verbs of
    [repository.rs] besides seals and rewinds, [sync.rs], [remote.rs],
    [s3_remote.rs] (network protocols and ssh), [mcp.rs], [ui.rs], [radar.rs], [coord.rs],
    [fork.rs], [archive.rs], [shrink.rs], [estimate.rs], [watcher.rs],
    [universe.rs], [gitignore.rs] (an interface of Policy.v), [platform.rs] beyond
    Disk.v, and the key files of [exchange/]. *)

From Stdlib Require Export ZArith Lia String List Sorted.
From coqutil Require Export Byte Word.LittleEndianList.
From stdpp Require Export prelude gmap strings sorting.

#[global] Set Default Proof Using "Type*".
#[global] Set Default Goal Selector "!".
#[global] Open Scope Z_scope.

(** ** Bytes *)

(** A byte string ([Vec<u8>], [&[u8]], the content of a file). *)
Abbreviation bytes := (list Corelib.Init.Byte.byte).

#[export] Instance byte_eq_dec : EqDecision Corelib.Init.Byte.byte := Byte.byte_eq_dec.

#[export] Instance byte_countable : Countable Corelib.Init.Byte.byte :=
  inj_countable Byte.to_N Byte.of_N Byte.of_to_N.

(** The literal [b"..."]. *)
Definition b_ (s : string) : bytes := list_byte_of_string s.

(** Length of a byte string as the unsigned integer the code computes with. *)
Definition blen (l : bytes) : Z := Z.of_nat (length l).

(** [l[off..off+n]], for offsets the caller has checked. *)
Definition slice (off n : Z) (l : bytes) : bytes :=
  take (Z.to_nat n) (drop (Z.to_nat off) l).

(** [Read::read_exact] of [n] bytes at position [pos] of a file holding [f]:
    [None] is [ErrorKind::UnexpectedEof]. *)
Definition read_exact (f : bytes) (pos n : Z) : option bytes :=
  if pos + n <=? blen f then Some (slice pos n f) else None.

(** [to_le_bytes] of a [k]-byte unsigned integer, and [from_le_bytes]. *)
Definition to_le (k : nat) (z : Z) : bytes := le_split k z.
Definition from_le (l : bytes) : Z := le_combine l.

(** Rust's unsigned [saturating_sub] and [saturating_add] at 64 bits, and the
    signed 64-bit casts and saturating subtraction. *)
Definition u64_max : Z := 2 ^ 64 - 1.
Definition i64_max : Z := 2 ^ 63 - 1.
Definition i64_min : Z := - 2 ^ 63.
Definition sat_sub (a b : Z) : Z := Z.max 0 (a - b).
Definition sat_add (a b : Z) : Z := Z.min u64_max (a + b).
Definition i64_sat_sub (a b : Z) : Z := Z.max i64_min (Z.min i64_max (a - b)).
Definition i64_sat_add (a b : Z) : Z := Z.max i64_min (Z.min i64_max (a + b)).

(** [x as i64] of a [u64], and [x as u64] of an [i64]. *)
Definition as_i64 (x : Z) : Z := if x mod 2 ^ 64 <? 2 ^ 63 then x mod 2 ^ 64 else x mod 2 ^ 64 - 2 ^ 64.
Definition as_u64 (x : Z) : Z := x mod 2 ^ 64.

(** ** Errors: [anyhow::Result] *)

Inductive Res (A : Type) : Type :=
| Ok (a : A)
| Err (e : string).
Arguments Ok {A} a.
Arguments Err {A} e.

#[export] Instance Res_ret : MRet Res := λ A a, Ok a.
#[export] Instance Res_bind : MBind Res := λ A B f r,
  match r with Ok a => f a | Err e => Err e end.
#[export] Instance Res_fmap : FMap Res := λ A B f r,
  match r with Ok a => Ok (f a) | Err e => Err e end.

(** [anyhow::ensure!]. *)
Definition ensure (b : bool) (msg : string) : Res unit :=
  if b then Ok () else Err msg.

(** [Option::context]. *)
Definition with_context {A} (o : option A) (msg : string) : Res A :=
  match o with Some a => Ok a | None => Err msg end.

Definition is_ok {A} (r : Res A) : bool := match r with Ok _ => true | Err _ => false end.

(** [iter().map(f).collect::<Result<Vec<_>>>()]. *)
Fixpoint res_map {A B} (f : A → Res B) (l : list A) : Res (list B) :=
  match l with
  | [] => Ok []
  | x :: l => y ← f x; ys ← res_map f l; Ok (y :: ys)
  end.

(** ** State: a method that takes [&mut self] and may fail

    The effects made before a failure stay, as they do in the code. *)
Definition M (S A : Type) : Type := S → Res A * S.

#[export] Instance M_ret {S} : MRet (M S) := λ A a s, (Ok a, s).
#[export] Instance M_bind {S} : MBind (M S) := λ A B f m s,
  match m s with
  | (Ok a, s') => f a s'
  | (Err e, s') => (Err e, s')
  end.

Definition lift {S A} (r : Res A) : M S A := λ s, (r, s).
Definition get {S} : M S S := λ s, (Ok s, s).
Definition gets {S A} (f : S → A) : M S A := λ s, (Ok (f s), s).
Definition put {S} (s : S) : M S () := λ _, (Ok (), s).
Definition modify {S} (f : S → S) : M S () := λ s, (Ok (), f s).
Definition fail {S A} (e : string) : M S A := λ s, (Err e, s).
Definition mensure {S} (b : bool) (msg : string) : M S () := lift (ensure b msg).

(** The result of a fallible call as a value, for code that matches on it. *)
Definition try_ {S A} (m : M S A) : M S (Res A) := λ s, let '(r, s) := m s in (Ok r, s).

(** A loop over a list in a state. *)
Fixpoint mfor {S A} (l : list A) (f : A → M S ()) : M S () :=
  match l with
  | [] => mret ()
  | x :: l => _ ← f x; mfor l f
  end.

(** ** Lexicographic order on byte strings ([Ord for [u8]]) *)

Fixpoint bytes_cmp (a b : bytes) : comparison :=
  match a, b with
  | [], [] => Eq
  | [], _ => Lt
  | _, [] => Gt
  | x :: a, y :: b =>
    match byte.compare x y with Eq => bytes_cmp a b | c => c end
  end.

Definition blt (a b : bytes) : Prop := bytes_cmp a b = Lt.
Definition ble (a b : bytes) : Prop := bytes_cmp a b ≠ Gt.
Definition bltb (a b : bytes) : bool := match bytes_cmp a b with Lt => true | _ => false end.
Definition bleb (a b : bytes) : bool := match bytes_cmp a b with Gt => false | _ => true end.

#[export] Instance blt_dec : RelDecision blt.
Proof. intros a b. unfold blt. destruct (bytes_cmp a b); first [left; done | right; done]. Defined.
#[export] Instance ble_dec : RelDecision ble.
Proof. intros a b. unfold ble. destruct (bytes_cmp a b); first [left; done | right; tauto]. Defined.

Lemma byte_compare_eq x y : byte.compare x y = Eq ↔ x = y.
Proof.
  unfold byte.compare. rewrite Z.compare_eq_iff. split; [apply byte.unsigned_inj | by intros ->].
Qed.

Lemma byte_compare_antisym x y : byte.compare y x = CompOpp (byte.compare x y).
Proof. apply Z.compare_antisym. Qed.

Lemma byte_compare_lt_trans x y z :
  byte.compare x y = Lt → byte.compare y z = Lt → byte.compare x z = Lt.
Proof. unfold byte.compare. rewrite !Z.compare_lt_iff. lia. Qed.

Lemma bytes_cmp_eq a b : bytes_cmp a b = Eq ↔ a = b.
Proof.
  revert b. induction a as [|x a IH]; intros [|y b]; simpl; try done.
  destruct (byte.compare x y) eqn:E.
  - apply byte_compare_eq in E as ->. rewrite IH. naive_solver.
  - split; [done |]. intros [= -> ->].
    assert (byte.compare y y = Eq) as E' by by apply byte_compare_eq. congruence.
  - split; [done |]. intros [= -> ->].
    assert (byte.compare y y = Eq) as E' by by apply byte_compare_eq. congruence.
Qed.

Lemma bytes_cmp_refl a : bytes_cmp a a = Eq.
Proof. by apply bytes_cmp_eq. Qed.

Lemma bytes_cmp_antisym a b : bytes_cmp b a = CompOpp (bytes_cmp a b).
Proof.
  revert b. induction a as [|x a IH]; intros [|y b]; simpl; try done.
  rewrite (byte_compare_antisym x y). destruct (byte.compare x y); simpl; auto.
Qed.

Lemma blt_trans a b c : blt a b → blt b c → blt a c.
Proof.
  unfold blt. revert b c. induction a as [|x a IH]; intros [|y b] [|z c]; simpl; try done.
  destruct (byte.compare x y) eqn:E1; destruct (byte.compare y z) eqn:E2; try done.
  - apply byte_compare_eq in E1 as ->. rewrite E2. apply IH.
  - apply byte_compare_eq in E1 as ->. by rewrite E2.
  - apply byte_compare_eq in E2 as ->. by rewrite E1.
  - by rewrite (byte_compare_lt_trans _ _ _ E1 E2).
Qed.

Lemma blt_irrefl a : ¬ blt a a.
Proof. unfold blt. rewrite bytes_cmp_refl. done. Qed.

Lemma blt_gt a b : bytes_cmp a b = Gt ↔ blt b a.
Proof. unfold blt. rewrite (bytes_cmp_antisym a b). destruct (bytes_cmp a b); done. Qed.

Lemma ble_lteq a b : ble a b ↔ blt a b ∨ a = b.
Proof.
  unfold ble, blt. rewrite <- bytes_cmp_eq. destruct (bytes_cmp a b); naive_solver.
Qed.

Lemma not_blt a b : ¬ blt a b ↔ ble b a.
Proof.
  unfold blt, ble. rewrite (bytes_cmp_antisym a b). destruct (bytes_cmp a b); naive_solver.
Qed.

Lemma bltb_spec a b : bltb a b = true ↔ blt a b.
Proof. unfold bltb, blt. destruct (bytes_cmp a b); naive_solver. Qed.
Lemma bltb_false a b : bltb a b = false ↔ ble b a.
Proof. rewrite <- not_blt, <- bltb_spec. destruct (bltb a b); naive_solver. Qed.
Lemma bleb_spec a b : bleb a b = true ↔ ble a b.
Proof. unfold bleb, ble. destruct (bytes_cmp a b); naive_solver. Qed.

Lemma blt_total a b : blt a b ∨ a = b ∨ blt b a.
Proof.
  destruct (bytes_cmp a b) eqn:E; [right; left | left | right; right].
  - by apply bytes_cmp_eq.
  - done.
  - by apply blt_gt.
Qed.

Lemma blt_ble_trans a b c : blt a b → ble b c → blt a c.
Proof. rewrite ble_lteq. intros H [H' | ->]; [eapply blt_trans |]; eauto. Qed.
Lemma ble_blt_trans a b c : ble a b → blt b c → blt a c.
Proof. rewrite ble_lteq. intros [H' | ->]; [eapply blt_trans |]; eauto. Qed.
Lemma blt_ble a b : blt a b → ble a b.
Proof. rewrite ble_lteq. by left. Qed.
Lemma ble_refl a : ble a a.
Proof. rewrite ble_lteq. by right. Qed.
Lemma blt_not_eq a b : blt a b → a ≠ b.
Proof. intros H ->. by apply blt_irrefl in H. Qed.
Lemma blt_asym a b : blt a b → ¬ blt b a.
Proof. intros H H'. eapply blt_irrefl, blt_trans; eauto. Qed.

#[export] Instance blt_trans' : Transitive blt := blt_trans.
#[export] Instance blt_irrefl' : Irreflexive blt := blt_irrefl.
#[export] Instance ble_preorder : PreOrder ble.
Proof.
  split; [exact ble_refl |]. intros a b c. rewrite !ble_lteq.
  intros [?| ->] [?| ->]; eauto using blt_trans.
Qed.
#[export] Instance ble_antisym : AntiSymm (=) ble.
Proof. intros a b [H| ->]%ble_lteq [H'|H']%ble_lteq; try done. by destruct (blt_asym _ _ H). Qed.
#[export] Instance ble_total : Total ble.
Proof. intros a b. destruct (blt_total a b) as [?|[->|?]]; eauto using blt_ble, ble_refl. Qed.

(** ** Library lemmas: byte strings *)

Lemma blen_app l k : blen (l ++ k) = blen l + blen k.
Proof. unfold blen. rewrite length_app. lia. Qed.
Lemma blen_nil : blen [] = 0.
Proof. done. Qed.
Lemma blen_cons x l : blen (x :: l) = 1 + blen l.
Proof. unfold blen. simpl length. lia. Qed.
Lemma blen_nonneg l : 0 ≤ blen l.
Proof. unfold blen. lia. Qed.
Lemma blen_to_le k z : blen (to_le k z) = Z.of_nat k.
Proof. unfold blen, to_le. by rewrite length_le_split. Qed.
Lemma blen_take n (l : bytes) : 0 ≤ n → n ≤ blen l → blen (take (Z.to_nat n) l) = n.
Proof. unfold blen. rewrite length_take. lia. Qed.

Create Rewrite HintDb blen.
#[export] Hint Rewrite blen_app blen_nil blen_cons blen_to_le : blen.

(** Arithmetic on lengths: normalise [blen] of appends, then [lia]. *)
Ltac blen_fact l :=
  lazymatch goal with
  | _ : 0 ≤ blen l |- _ => fail
  | _ => pose proof (blen_nonneg l)
  end.
Ltac blia :=
  autorewrite with blen in *;
  repeat match goal with
  | |- context [blen ?l] => blen_fact l
  | _ : context [blen ?l] |- _ => blen_fact l
  end; lia.

Lemma from_to_le k z : 0 ≤ z < 2 ^ (Z.of_nat k * 8) → from_le (to_le k z) = z.
Proof. intros H. unfold from_le, to_le. rewrite le_combine_split. by apply Z.mod_small. Qed.

Lemma from_le_mod k z : from_le (to_le k z) = z mod 2 ^ (Z.of_nat k * 8).
Proof. apply le_combine_split. Qed.

(** Casts between [i64] and [u64], and the eight-byte encoding of either. *)
Lemma as_u64_small x : 0 ≤ x < 2 ^ 64 → as_u64 x = x.
Proof. apply Z.mod_small. Qed.
Lemma as_i64_range x : - 2 ^ 63 ≤ as_i64 x < 2 ^ 63.
Proof.
  unfold as_i64. pose proof (Z.mod_pos_bound x (2 ^ 64) ltac:(lia)).
  case_match; lia.
Qed.
Lemma as_i64_mod x : as_i64 (x mod 2 ^ 64) = as_i64 x.
Proof. unfold as_i64. by rewrite Zmod_mod. Qed.
Lemma as_i64_small x : - 2 ^ 63 ≤ x < 2 ^ 63 → as_i64 x = x.
Proof.
  intros Hx. unfold as_i64. destruct (decide (0 ≤ x)).
  - rewrite Z.mod_small by lia. case_match; lia.
  - rewrite <- (Z.mod_add x 1 (2 ^ 64)) by lia. rewrite Z.mod_small by lia. case_match; lia.
Qed.
Lemma as_u64_as_i64 x : as_u64 (as_i64 x) = x mod 2 ^ 64.
Proof.
  unfold as_u64, as_i64. case_match; [apply Zmod_mod |].
  rewrite <- (Z.mod_add _ 1 (2 ^ 64)) by lia.
  replace (x mod 2 ^ 64 - 2 ^ 64 + 1 * 2 ^ 64) with (x mod 2 ^ 64) by lia. apply Zmod_mod.
Qed.
Lemma from_to_i64 x : - 2 ^ 63 ≤ x < 2 ^ 63 → as_i64 (from_le (to_le 8 x)) = x.
Proof. intros Hx. rewrite from_le_mod. simpl. rewrite as_i64_mod. by apply as_i64_small. Qed.
Lemma from_to_i64_u64 x : 0 ≤ x < 2 ^ 64 → as_u64 (as_i64 (from_le (to_le 8 (as_i64 x)))) = x.
Proof.
  intros Hx. rewrite from_to_i64 by apply as_i64_range.
  rewrite as_u64_as_i64. by apply Z.mod_small.
Qed.

Lemma from_le_bound l : 0 ≤ from_le l < 2 ^ (8 * blen l).
Proof. apply le_combine_bound. Qed.

Lemma to_from_le l : to_le (length l) (from_le l) = l.
Proof. apply split_le_combine. Qed.

Lemma slice_app_mid pre mid post :
  slice (blen pre) (blen mid) (pre ++ mid ++ post) = mid.
Proof.
  unfold slice, blen. rewrite !Nat2Z.id, drop_app_length, take_app_length. done.
Qed.

(** Fields of a concrete layout: skip what lies before, take what is here. *)
Lemma slice_skip off n a r : blen a ≤ off → slice off n (a ++ r) = slice (off - blen a) n r.
Proof.
  intros Hle. unfold slice, blen in *. rewrite drop_app_ge by lia. do 2 f_equal. lia.
Qed.
Lemma slice_head off n a r : off = 0 → n = blen a → slice off n (a ++ r) = a.
Proof. intros -> ->. apply (slice_app_mid []). Qed.
Lemma slice_all off n a : off = 0 → n = blen a → slice off n a = a.
Proof. intros. rewrite <- (app_nil_r a) at 1. by apply slice_head. Qed.

Ltac slice_fields :=
  repeat first [ rewrite slice_head by blia | rewrite slice_all by blia
               | rewrite slice_skip by blia ].

Lemma read_exact_app pre mid post :
  read_exact (pre ++ mid ++ post) (blen pre) (blen mid) = Some mid.
Proof.
  unfold read_exact. rewrite slice_app_mid.
  rewrite (proj2 (Z.leb_le _ _)); [done |]. blia.
Qed.

(** The form used on concrete layouts: the position and the length are known
    only up to an equation. *)
Lemma read_exact_at f pre mid post pos n :
  f = pre ++ mid ++ post → pos = blen pre → n = blen mid → read_exact f pos n = Some mid.
Proof. intros -> -> ->. apply read_exact_app. Qed.

Lemma read_exact_eof f pos n : blen f < pos + n → read_exact f pos n = None.
Proof. intros H. unfold read_exact. destruct (_ <=? _) eqn:E; [lia | done]. Qed.

Lemma read_exact_Some f pos n b :
  0 ≤ pos → 0 ≤ n → read_exact f pos n = Some b →
  blen b = n ∧ pos + n ≤ blen f ∧ b = slice pos n f.
Proof.
  unfold read_exact. intros Hp Hn. destruct (_ <=? _) eqn:E; [| done].
  intros [= <-]. apply Z.leb_le in E. split; [| done].
  unfold slice, blen in *. rewrite length_take, length_drop. lia.
Qed.

Lemma slice_split s a b f :
  0 ≤ s → 0 ≤ a → 0 ≤ b → slice s (a + b) f = slice s a f ++ slice (s + a) b f.
Proof.
  intros Hs Ha Hb. unfold slice. rewrite !Z2Nat.inj_add by lia.
  by rewrite <- take_take_drop, drop_drop.
Qed.

(** A read inside a prefix of the file sees the prefix only. *)
Lemma read_exact_prefix f g pos n :
  0 ≤ pos → 0 ≤ n → pos + n ≤ blen f → read_exact (f ++ g) pos n = read_exact f pos n.
Proof.
  intros Hp Hn Hle. unfold read_exact. autorewrite with blen.
  pose proof (blen_nonneg g).
  rewrite !(proj2 (Z.leb_le _ _)) by lia. unfold slice. f_equal.
  unfold blen in *. rewrite drop_app_le by lia. rewrite take_app_le; [done |].
  rewrite length_drop. lia.
Qed.

(** ** Library lemmas: the monads *)

Lemma Ok_bind {A B} (a : A) (f : A → Res B) : (Ok a ≫= f) = f a.
Proof. done. Qed.
Lemma M_bind_run {S A B} (m : M S A) (f : A → M S B) s a s' :
  m s = (Ok a, s') → (m ≫= f) s = f a s'.
Proof. intros H. unfold mbind, M_bind. by rewrite H. Qed.
Lemma lift_ok_bind {S A B} (a : A) (f : A → M S B) s : (lift (Ok a) ≫= f) s = f a s.
Proof. done. Qed.
Lemma mret_bind {S A B} (a : A) (f : A → M S B) s : ((mret a : M S A) ≫= f) s = f a s.
Proof. done. Qed.
Lemma get_bind {S B} (f : S → M S B) s : (get ≫= f) s = f s s.
Proof. done. Qed.
Lemma gets_bind {S A B} (g : S → A) (f : A → M S B) s : (gets g ≫= f) s = f (g s) s.
Proof. done. Qed.
Lemma put_bind {S B} s' (f : unit → M S B) s : (put s' ≫= f) s = f tt s'.
Proof. done. Qed.
Lemma modify_bind {S B} g (f : unit → M S B) (s : S) : (modify g ≫= f) s = f tt (g s).
Proof. done. Qed.
Lemma mensure_bind {S B} b msg (f : unit → M S B) (s : S) :
  b = true → (mensure b msg ≫= f) s = f tt s.
Proof. by intros ->. Qed.
Lemma try_bind {S A B} (m : M S A) (f : Res A → M S B) s r s' :
  m s = (r, s') → (try_ m ≫= f) s = f r s'.
Proof. unfold mbind, M_bind, try_. by intros ->. Qed.

(** Step a run over its first action: one whose run is known, or a pure one. *)
Ltac mrun H := rewrite (M_bind_run _ _ _ _ _ H); cbn beta iota.
Ltac mpure :=
  repeat first [ rewrite lift_ok_bind | rewrite mret_bind | rewrite get_bind | rewrite gets_bind
               | rewrite put_bind | rewrite modify_bind ]; cbn beta iota.

Lemma M_bind_err {S A B} (m : M S A) (f : A → M S B) s e s' :
  m s = (Err e, s') → (m ≫= f) s = (Err e, s').
Proof. intros H. unfold mbind, M_bind. by rewrite H. Qed.
Lemma M_bind_assoc {S A B C} (m : M S A) (f : A → M S B) (g : B → M S C) s :
  ((m ≫= f) ≫= g) s = (m ≫= λ a, f a ≫= g) s.
Proof. unfold mbind, M_bind. by destruct (m s) as [[a|e] s']. Qed.
Lemma M_bind_ext {S A B} (m : M S A) (f g : A → M S B) s :
  (∀ a s', f a s' = g a s') → (m ≫= f) s = (m ≫= g) s.
Proof. intros Hfg. unfold mbind, M_bind. destruct (m s) as [[a|e] s']; [apply Hfg | done]. Qed.
Lemma M_bind_ok {S A B} (m : M S A) (f : A → M S B) s b s'' :
  (m ≫= f) s = (Ok b, s'') → ∃ a s', m s = (Ok a, s') ∧ f a s' = (Ok b, s'').
Proof.
  unfold mbind, M_bind. destruct (m s) as [[a|e] s'] eqn:E; [| done]. eauto.
Qed.
Lemma Res_bind_ok {A B} (r : Res A) (f : A → Res B) b :
  (r ≫= f) = Ok b → ∃ a, r = Ok a ∧ f a = Ok b.
Proof. destruct r; [| done]. intros H. eauto. Qed.
Lemma ensure_ok b msg u : ensure b msg = Ok u → b = true.
Proof. by destruct b. Qed.
Lemma with_context_ok {A} (o : option A) msg a : with_context o msg = Ok a → o = Some a.
Proof. destruct o; simpl; congruence. Qed.

(** Take a successful run apart into the runs of its parts. *)
Ltac res_inv :=
  repeat match goal with
  | H : mbind _ _ = Ok _ |- _ => apply Res_bind_ok in H as (? & ? & H)
  | H : mbind _ _ _ = (Ok _, _) |- _ => apply M_bind_ok in H as (? & ? & ? & H)
  | H : ensure _ _ = Ok _ |- _ => apply ensure_ok in H
  | H : with_context _ _ = Ok _ |- _ => apply with_context_ok in H
  | H : lift _ _ = (_, _) |- _ => unfold lift in H; simplify_eq
  | H : mensure _ _ _ = (Ok _, _) |- _ => unfold mensure, lift in H
  | H : (Ok _, _) = (Ok _, _) |- _ => simplify_eq
  | H : (ensure _ _, _) = (Ok _, _) |- _ => injection H as H ?; subst
  | H : Ok _ = Ok _ |- _ => simplify_eq
  | H : mret _ = Ok _ |- _ => unfold mret, Res_ret in H; simplify_eq
  | H : mret _ _ = (_, _) |- _ => unfold mret, M_ret in H; simplify_eq
  end.

Lemma res_map_ok {A B} (f : A → Res B) l k :
  res_map f l = Ok k ↔ Forall2 (λ x y, f x = Ok y) l k.
Proof.
  revert k. induction l as [|x l IH]; intros k; simpl.
  - split; [intros [= <-]; constructor | by intros ->%Forall2_nil_inv_l].
  - split.
    + intros H. res_inv. constructor; [done |]. by apply IH.
    + intros (y & k' & Hy & Hk & ->)%Forall2_cons_inv_l. rewrite Hy. simpl.
      apply IH in Hk. by rewrite Hk.
Qed.

(** A loop over the indices of a list. *)
Lemma res_map_seq {A} (f : nat → Res A) n l :
  length l = n → (∀ k x, l !! k = Some x → f k = Ok x) → res_map f (seq 0 n) = Ok l.
Proof.
  intros <- Hl. apply res_map_ok, Forall2_same_length_lookup_2; [by rewrite length_seq |].
  intros k j x [-> _]%lookup_seq Hx. by apply Hl.
Qed.

Lemma take_reverse {A} n (l : list A) : take n (reverse l) = reverse (drop (length l - n) l).
Proof. unfold reverse. rewrite <- !rev_alt. apply firstn_rev. Qed.

(** ** Sorted byte-string keys: [BTreeMap<Vec<u8>, V>] and [BTreeSet<Vec<u8>>] *)

(** Iteration of a [BTreeSet] is in ascending bytewise order. *)
Definition sorted_keys (s : gset bytes) : list bytes := merge_sort ble (elements s).

(** Iteration of a [BTreeMap]: its entries in ascending key order. *)
Definition btree_iter {V} (m : gmap bytes V) : list (bytes * V) :=
  omap (λ k, pair k <$> m !! k) (sorted_keys (dom m)).

Lemma elem_of_sorted_keys k s : k ∈ sorted_keys s ↔ k ∈ s.
Proof.
  unfold sorted_keys. rewrite (merge_sort_Permutation ble). apply elem_of_elements.
Qed.

Lemma sorted_keys_sorted s : StronglySorted ble (sorted_keys s).
Proof. apply (StronglySorted_merge_sort ble). Qed.

Lemma sorted_keys_NoDup s : NoDup (sorted_keys s).
Proof. unfold sorted_keys. rewrite (merge_sort_Permutation ble). apply NoDup_elements. Qed.

Lemma StronglySorted_strict l : StronglySorted ble l → NoDup l → StronglySorted blt l.
Proof.
  induction 1 as [|x l Hs IH Hx]; intros Hnd; [constructor |].
  apply NoDup_cons in Hnd as [Hni Hnd]. constructor; [auto |].
  rewrite Forall_forall in Hx |- *. intros y Hy.
  pose proof (Hx y Hy) as [H| ->]%ble_lteq; [done |]. by destruct Hni.
Qed.

Lemma sorted_keys_strict s : StronglySorted blt (sorted_keys s).
Proof. apply StronglySorted_strict; [apply sorted_keys_sorted | apply sorted_keys_NoDup]. Qed.

Lemma StronglySorted_lookup_lt {A} (R : A → A → Prop) l i j x y :
  StronglySorted R l → l !! i = Some x → l !! j = Some y → (i < j)%nat → R x y.
Proof.
  intros Hs. revert i j. induction Hs as [|z l Hs IH Hz]; intros i j Hi Hj Hij; [done |].
  destruct j as [|j]; [lia |]. destruct i as [|i].
  - injection Hi as <-. rewrite Forall_forall in Hz. apply Hz. by eapply list_elem_of_lookup_2.
  - apply (IH i j); [done | done | lia].
Qed.

Lemma elem_of_btree_iter {V} (m : gmap bytes V) k v : (k, v) ∈ btree_iter m ↔ m !! k = Some v.
Proof.
  unfold btree_iter. rewrite list_elem_of_omap. setoid_rewrite elem_of_sorted_keys.
  split.
  - intros (k' & Hk' & H). destruct (m !! k') eqn:E; simpl in H; naive_solver.
  - intros H. exists k. rewrite H. split; [| done]. apply elem_of_dom. eauto.
Qed.

Lemma btree_iter_keys {V} (m : gmap bytes V) : (btree_iter m).*1 = sorted_keys (dom m).
Proof.
  unfold btree_iter.
  assert (∀ k, k ∈ sorted_keys (dom m) → is_Some (m !! k)) as H.
  { intros k Hk%elem_of_sorted_keys. by apply elem_of_dom. }
  induction (sorted_keys (dom m)) as [|k l IH]; [done |]. simpl.
  destruct (H k) as [v Hv]; [left |]. rewrite Hv. simpl. f_equal.
  apply IH. intros k' Hk'. apply H. by right.
Qed.

(** ** Slices: [starts_with], [ends_with], [strip_prefix], [split] *)

Definition slash : Corelib.Init.Byte.byte := Byte.x2f.

Fixpoint strip_prefix (p l : bytes) : option bytes :=
  match p, l with
  | [], _ => Some l
  | x :: p, y :: l => if decide (x = y) then strip_prefix p l else None
  | _ :: _, [] => None
  end.
Definition starts_with (l p : bytes) : bool :=
  match strip_prefix p l with Some _ => true | None => false end.
Definition ends_with (l p : bytes) : bool := starts_with (reverse l) (reverse p).

(** [l.split(|b| *b == sep)]: the pieces between separators, at least one. *)
Fixpoint split_on (sep : Corelib.Init.Byte.byte) (l : bytes) : list bytes :=
  match l with
  | [] => [[]]
  | x :: l =>
    if decide (x = sep) then [] :: split_on sep l
    else match split_on sep l with
         | [] => [[x]]
         | p :: ps => (x :: p) :: ps
         end
  end.

(** The inverse: the pieces with separators between them. *)
Fixpoint join_with (sep : Corelib.Init.Byte.byte) (ps : list bytes) : bytes :=
  match ps with
  | [] => []
  | [p] => p
  | p :: ps => p ++ sep :: join_with sep ps
  end.

Lemma strip_prefix_Some p l r : strip_prefix p l = Some r ↔ l = p ++ r.
Proof.
  revert l. induction p as [|x p IH]; intros l; simpl; [naive_solver |].
  destruct l as [|y l]; [naive_solver |]. case_decide as H.
  - subst. rewrite IH. naive_solver.
  - naive_solver.
Qed.

Lemma starts_with_spec l p : starts_with l p = true ↔ ∃ r, l = p ++ r.
Proof.
  unfold starts_with. destruct (strip_prefix p l) as [r|] eqn:E.
  - apply strip_prefix_Some in E. naive_solver.
  - split; [done |]. intros [r Hr%strip_prefix_Some]. congruence.
Qed.

Lemma split_on_not_nil sep l : split_on sep l ≠ [].
Proof. destruct l as [|x l]; simpl; [done |]. repeat case_match; done. Qed.

Lemma join_split sep l : join_with sep (split_on sep l) = l.
Proof.
  induction l as [|x l IH]; [done |]. simpl.
  pose proof (split_on_not_nil sep l). case_decide as Hx.
  - subst. destruct (split_on sep l) eqn:E; [done |]. rewrite <- IH. done.
  - destruct (split_on sep l) as [|p ps] eqn:E; [done |].
    rewrite <- IH. destruct ps; done.
Qed.

Lemma split_on_piece sep p : sep ∉ p → split_on sep p = [p].
Proof.
  induction p as [|x p IH]; intros Hni; [done |]. simpl.
  apply not_elem_of_cons in Hni as [Hx Hp]. rewrite decide_False by done.
  by rewrite (IH Hp).
Qed.

Lemma split_on_app sep p l : sep ∉ p → split_on sep (p ++ sep :: l) = p :: split_on sep l.
Proof.
  induction p as [|x p IH]; intros Hni; simpl.
  - by rewrite decide_True.
  - apply not_elem_of_cons in Hni as [Hx Hp]. rewrite decide_False by done.
    by rewrite (IH Hp).
Qed.

Lemma split_on_no_sep sep l p : p ∈ split_on sep l → sep ∉ p.
Proof.
  revert p. induction l as [|x l IH]; simpl; intros p.
  - intros ->%list_elem_of_singleton. apply not_elem_of_nil.
  - case_decide as Hx.
    + intros [->|Hp]%elem_of_cons; [apply not_elem_of_nil | by apply IH].
    + destruct (split_on sep l) as [|q qs] eqn:E.
      * by destruct (split_on_not_nil sep l).
      * intros [->|Hp]%elem_of_cons.
        -- apply not_elem_of_cons. split; [congruence |]. apply IH. left.
        -- apply IH. by right.
Qed.

(** ** [slice::binary_search_by]

    The comparator says how an element lies to the target; the window [lo, hi)
    halves until the target is found or the window is empty. *)
Fixpoint binary_search_loop {A} (f : A → comparison) (l : list A) (fuel lo hi : nat) : option nat :=
  match fuel with
  | O => None
  | S fuel =>
    if (lo <? hi)%nat then
      let mid := (lo + (hi - lo) / 2)%nat in
      match l !! mid with
      | None => None
      | Some x =>
        match f x with
        | Eq => Some mid
        | Lt => binary_search_loop f l fuel (S mid) hi
        | Gt => binary_search_loop f l fuel lo mid
        end
      end
    else None
  end.
Definition binary_search_by {A} (f : A → comparison) (l : list A) : option nat :=
  binary_search_loop f l (S (length l)) 0 (length l).

(** The slice is sorted for the comparator: below the target, at it, above it. *)
Definition sorted_for {A} (f : A → comparison) (l : list A) : Prop :=
  ∀ i j x y, (i < j)%nat → l !! i = Some x → l !! j = Some y →
    (f x = Gt → f y = Gt) ∧ (f y = Lt → f x = Lt).

Lemma binary_search_loop_sound {A} (f : A → comparison) l fuel lo hi k :
  binary_search_loop f l fuel lo hi = Some k → ∃ x, l !! k = Some x ∧ f x = Eq.
Proof.
  revert lo hi. induction fuel as [|fuel IH]; intros lo hi; [done |]. cbn [binary_search_loop].
  destruct (lo <? hi)%nat; [| done].
  destruct (l !! (lo + (hi - lo) / 2)%nat) as [x|] eqn:E; [| done].
  destruct (f x) eqn:Ef; [intros [= <-]; eauto | apply IH..].
Qed.
Lemma binary_search_sound {A} (f : A → comparison) l k :
  binary_search_by f l = Some k → ∃ x, l !! k = Some x ∧ f x = Eq.
Proof. apply binary_search_loop_sound. Qed.

Lemma binary_search_loop_complete {A} (f : A → comparison) l fuel lo hi k x :
  sorted_for f l → (hi ≤ length l)%nat → (hi - lo < fuel)%nat →
  (lo ≤ k < hi)%nat → l !! k = Some x → f x = Eq →
  binary_search_loop f l fuel lo hi ≠ None.
Proof.
  intros Hs. revert lo hi. induction fuel as [|fuel IH]; intros lo hi Hhi Hfuel Hk Hx Hf; [lia |].
  cbn [binary_search_loop]. rewrite (proj2 (Nat.ltb_lt _ _)) by lia.
  set (mid := (lo + (hi - lo) / 2)%nat).
  assert (lo ≤ mid < hi)%nat as Hmid.
  { pose proof (Nat.div_lt (hi - lo) 2). subst mid. lia. }
  destruct (lookup_lt_is_Some_2 l mid) as [y Hy]; [lia |]. rewrite Hy.
  destruct (f y) eqn:Ef; [done | |].
  - apply IH; try done; [lia |]. destruct (decide (k = mid)) as [->|]; [congruence |].
    destruct (decide (k < mid)%nat); [| lia].
    destruct (Hs k mid x y) as [_ H]; [lia | done | done |]. rewrite H in Hf; done.
  - apply IH; try done; [lia | lia |]. destruct (decide (k = mid)) as [->|]; [congruence |].
    destruct (decide (mid < k)%nat); [| lia].
    destruct (Hs mid k y x) as [H _]; [lia | done | done |]. rewrite H in Hf; done.
Qed.

(** On a sorted slice the search succeeds exactly when an element compares equal. *)
Lemma binary_search_spec {A} (f : A → comparison) l :
  sorted_for f l → binary_search_by f l ≠ None ↔ ∃ x, x ∈ l ∧ f x = Eq.
Proof.
  intros Hs. split.
  - destruct (binary_search_by f l) as [k|] eqn:E; [| done]. intros _.
    apply binary_search_sound in E as (x & Hx & Hf). exists x.
    split; [by eapply list_elem_of_lookup_2 | done].
  - intros (x & [k Hk]%list_elem_of_lookup & Hf). pose proof (lookup_lt_Some _ _ _ Hk).
    eapply binary_search_loop_complete; try done; lia.
Qed.
