(* ===== verification/Model.v ===== *)
(** * Model: the data every component shares

    [furrow-core/src/model.rs] (objects, trees, snapshots, claims) and
    [furrow-core/src/content_class.rs] (the retention class of a path), with the
    interfaces to the third-party code the rest of the development is
    parameterised by: the BLAKE3 hash, serde_json and the hex crate. *)

From S2P Require Import Prelude.
#[local] Open Scope Z_scope.

(** ** Third-party interfaces *)

(** [blake3::hash]; the digest is 32 bytes. *)
Class Blake3 := blake3 : bytes → bytes.
Class Blake3Ok `{Blake3} := blake3_len : ∀ b, blen (blake3 b) = 32.

(** [serde_json::to_vec] and [serde_json::from_slice] at a type of the program;
    what was written reads back. *)
Class Json (A : Type) := { to_vec : A → bytes; from_slice : bytes → option A }.
Class JsonOk (A : Type) `{Json A} := from_to : ∀ a : A, from_slice (to_vec a) = Some a.

(** [hex::encode] and [hex::decode]: two lower-case characters a byte. *)
Class Hex := { hex_encode : bytes → bytes; hex_decode : bytes → option bytes }.

(** ** Objects *)

(** [[u8; 32]] *)
Abbreviation ObjectId := bytes.
Definition zero_id : ObjectId := replicate 32 Byte.x00.

Inductive ObjectKind := Chunk | BlobKind | TreeKind | SnapshotKind | XattrsKind.

#[export] Instance ObjectKind_eq_dec : EqDecision ObjectKind.
Proof. solve_decision. Defined.

Definition kind_to_u8 (k : ObjectKind) : Corelib.Init.Byte.byte :=
  match k with
  | Chunk => Byte.x01 | BlobKind => Byte.x02 | TreeKind => Byte.x03
  | SnapshotKind => Byte.x04 | XattrsKind => Byte.x05
  end.

Definition kind_from_u8 (v : Corelib.Init.Byte.byte) : option ObjectKind :=
  match v with
  | Byte.x01 => Some Chunk
  | Byte.x02 => Some BlobKind
  | Byte.x03 => Some TreeKind
  | Byte.x04 => Some SnapshotKind
  | Byte.x05 => Some XattrsKind
  | _ => None
  end.

(** The hash domain: the object's kind is hashed before its bytes. *)
Definition domain (k : ObjectKind) : bytes :=
  match k with
  | Chunk => b_ "furrow:chunk:v1" ++ [Byte.x00]
  | BlobKind => b_ "furrow:blob:v1" ++ [Byte.x00]
  | TreeKind => b_ "furrow:tree:v1" ++ [Byte.x00]
  | SnapshotKind => b_ "furrow:snapshot:v1" ++ [Byte.x00]
  | XattrsKind => b_ "furrow:xattrs:v1" ++ [Byte.x00]
  end.

(** [store.rs], [object_id]: the content address. *)
Definition object_id `{Blake3} (kind : ObjectKind) (b : bytes) : ObjectId :=
  blake3 (domain kind ++ b).

(** ** Content classes *)

Inductive ContentClass :=
  Source | VcsMeta | ConfigSecret | Dependency | BuildOutput | Database | Lockfile | Scratch.

#[export] Instance ContentClass_eq_dec : EqDecision ContentClass.
Proof. solve_decision. Defined.

Definition ALL : list ContentClass :=
  [Source; VcsMeta; ConfigSecret; Dependency; BuildOutput; Database; Lockfile; Scratch].

Definition class_index (c : ContentClass) : Z :=
  match c with
  | Source => 0 | VcsMeta => 1 | ConfigSecret => 2 | Dependency => 3
  | BuildOutput => 4 | Database => 5 | Lockfile => 6 | Scratch => 7
  end.
Definition bit (c : ContentClass) : Z := Z.shiftl 1 (class_index c).

Definition has_component (components candidates : list bytes) : bool :=
  existsb (λ c, bool_decide (c ∈ candidates)) components.
Definition has_component_suffix (components : list bytes) (suffix : bytes) : bool :=
  existsb (λ c, ends_with c suffix) components.
Definition has_suffix (name : bytes) (suffixes : list bytes) : bool :=
  existsb (ends_with name) suffixes.

Definition is_secret (components : list bytes) (name : bytes) : bool :=
  has_component components [b_ ".ssh"; b_ ".gnupg"]
  || bool_decide (name = b_ ".env")
  || starts_with name (b_ ".env.")
  || bool_decide (name ∈ [b_ "id_rsa"; b_ "id_ed25519"; b_ "id_ecdsa"])
  || has_suffix name [b_ ".pem"; b_ ".key"; b_ ".p12"; b_ ".pfx"].

Definition is_lockfile (name : bytes) : bool :=
  bool_decide (name ∈
    [b_ "Cargo.lock"; b_ "package-lock.json"; b_ "pnpm-lock.yaml"; b_ "yarn.lock";
     b_ "bun.lock"; b_ "bun.lockb"; b_ "poetry.lock"; b_ "Pipfile.lock"; b_ "go.sum";
     b_ "composer.lock"; b_ "Gemfile.lock"]).

Definition is_database (name : bytes) : bool :=
  has_suffix name [b_ ".sqlite"; b_ ".sqlite3"; b_ ".db"]
  || has_suffix name [b_ ".sqlite-wal"; b_ ".sqlite-shm"; b_ ".sqlite3-wal";
                      b_ ".sqlite3-shm"; b_ ".db-wal"; b_ ".db-shm"].

Definition classify (relative : bytes) : ContentClass :=
  let components := List.filter (λ c : bytes, negb (bool_decide (c = []))) (split_on slash relative) in
  match last components with
  | None => Source
  | Some name =>
    if has_component components [b_ ".git"; b_ ".jj"] then VcsMeta
    else if is_secret components name then ConfigSecret
    else if is_lockfile name then Lockfile
    else if is_database name then Database
    else if has_component components
              [b_ "node_modules"; b_ ".venv"; b_ "venv"; b_ "vendor"; b_ ".pnpm"]
            || has_component_suffix components (b_ "site-packages") then Dependency
    else if has_component components
              [b_ "target"; b_ "dist"; b_ "build"; b_ ".next"; b_ ".nuxt"; b_ ".turbo";
               b_ ".parcel-cache"; b_ "coverage"; b_ "out"]
            || has_suffix name [b_ ".o"; b_ ".obj"; b_ ".class"; b_ ".pyc"] then BuildOutput
    else if has_component components
              [b_ "tmp"; b_ "temp"; b_ "logs"; b_ "log"; b_ ".cache"; b_ "__pycache__"]
            || starts_with name (b_ ".#")
            || ends_with name (b_ "~")
            || has_suffix name [b_ ".log"; b_ ".tmp"; b_ ".swp"; b_ ".swo"] then Scratch
    else Source
  end.

(** ** Blobs, trees and snapshots *)

Record ChunkRef := mkChunkRef { cr_id : ObjectId; cr_len : Z }.
Record Blob := mkBlob { chunks : list ChunkRef; total_len : Z }.

Inductive EntryKind := File | Directory | Symlink | Fifo | SocketMarker.

#[export] Instance EntryKind_eq_dec : EqDecision EntryKind.
Proof. solve_decision. Defined.

Record TreeEntry := mkTreeEntry {
  name : bytes;
  kind : EntryKind;
  target : option ObjectId;
  link_target : bytes;
  mode : Z;
  size : Z;
  mtime_secs : Z;
  mtime_nanos : Z;
  xattrs : option ObjectId;
  class : ContentClass;
}.

#[export] Instance TreeEntry_eq_dec : EqDecision TreeEntry.
Proof. solve_decision. Defined.

Record TreePage := mkTreePage {
  first_name : bytes;
  last_name : bytes;
  entry_count : Z;
  page_target : ObjectId;
}.

#[export] Instance TreePage_eq_dec : EqDecision TreePage.
Proof. solve_decision. Defined.

Record Tree := mkTree { entries : list TreeEntry; pages : list TreePage }.

#[export] Instance Tree_eq_dec : EqDecision Tree.
Proof. solve_decision. Defined.

Inductive SealQuality := Quiescent | Turbulent.

Inductive SnapshotTrigger :=
| Initial | Manual | Watcher | PreRewind | ForkBase | AgentRun | MergeSource | PreMerge
| Merge | SyncLocal | SyncPush | SyncPull | Inspection | Claim | Release | Coord.

#[export] Instance SnapshotTrigger_eq_dec : EqDecision SnapshotTrigger.
Proof. solve_decision. Defined.

Record ClaimRecord := mkClaim {
  claim_id : bytes;
  pattern : bytes;
  owner : bytes;
  workspace_id : bytes;
  created_at : Z;
  expires_at : Z;
}.

#[export] Instance ClaimRecord_eq_dec : EqDecision ClaimRecord.
Proof. solve_decision. Defined.

Record SqliteBackup := mkBackup { backup_path : bytes; backup_blob : ObjectId; integrity_ok : bool }.

Record LinkGroup := mkLinkGroup { link_paths : list bytes }.

(** [policy.rs], [IgnoredSummary]. *)
Record IgnoredSummary := mkIgnored { ignored_paths : list bytes; ignored_more : Z }.

Record Snapshot := mkSnapshot {
  root_tree : ObjectId;
  parent : option ObjectId;
  merge_parents : list ObjectId;
  sealed_at_secs : Z;
  sealed_at_nanos : Z;
  quality : SealQuality;
  snap_trigger : SnapshotTrigger;
  snap_label : option bytes;
  sqlite_backups : list SqliteBackup;
  claims : list ClaimRecord;
  excluded_paths : list bytes;
  hardlinks : list LinkGroup;
  ignored : option IgnoredSummary;
}.

Record XattrEntry := mkXattr { xattr_name : bytes; xattr_value : bytes }.
Record Xattrs := mkXattrs { xattr_entries : list XattrEntry }.

Definition id_hex `{Hex} (id : ObjectId) : bytes := hex_encode id.

Definition parse_id `{Hex} (value : bytes) : Res ObjectId :=
  b ← with_context (hex_decode value) "invalid hex";
  _ ← ensure (blen b =? 32) "snapshot ID must contain 64 hexadecimal characters";
  Ok b.

(** ** Lemmas *)

Lemma kind_from_to k : kind_from_u8 (kind_to_u8 k) = Some k.
Proof. by destruct k. Qed.

Lemma kind_to_from v k : kind_from_u8 v = Some k → kind_to_u8 k = v.
Proof. destruct v; simpl; intros [= <-]; done. Qed.

Lemma kind_to_u8_inj k k' : kind_to_u8 k = kind_to_u8 k' → k = k'.
Proof. by destruct k, k'. Qed.

Lemma object_id_len `{Blake3Ok} k b : blen (object_id k b) = 32.
Proof. apply blake3_len. Qed.

(** The bit of a class tests only that class: a mask built from [bit]s says
    exactly which classes it keeps. *)
Lemma bit_test c c' : Z.land (bit c) (bit c') ≠ 0 ↔ c = c'.
Proof. destruct c, c'; vm_compute; naive_solver. Qed.

Lemma classify_samples :
  classify (b_ "src/main.rs") = Source ∧ classify (b_ ".env") = ConfigSecret ∧
  classify (b_ "node_modules/a/Cargo.lock") = Lockfile ∧
  classify (b_ "target/debug/x.o") = BuildOutput ∧ classify (b_ ".git/index") = VcsMeta ∧
  classify (b_ "data/app.db-wal") = Database ∧ classify (b_ "") = Source ∧
  classify (b_ "lib/site-packages/x.py") = Dependency ∧ classify (b_ "a~") = Scratch.
Proof. vm_compute. done. Qed.
