(* ===== verification/Framing.v ===== *)
(** * Framing: the checksummed frame of the append-only logs

    The reference log ([refs.rs]) and the retention log ([retention.rs]) share
    one frame layout,

      magic (4) ‖ payload length, u32 little endian (4) ‖ BLAKE3 checksum (32) ‖ payload

    and one rule for a read: running out of bytes anywhere in a frame is a torn
    tail ([Ok None]), a wrong magic, an oversized length or a wrong checksum is
    corruption ([Err]). This file states that reader once, with the lemmas both
    logs use: a whole frame reads back, every strict prefix of a frame is torn,
    and a successful read found exactly the bytes of a frame. *)

From S2P Require Import Prelude Model.
#[local] Open Scope Z_scope.

Section Framing.
Context `{Blake3} (magic : bytes) (max_record : Z) (e_magic e_size e_sum : string).

Definition header_len : Z := 40.

(** The reader: [read_frame_at] / [read_frame] up to the checksum test. The
    result holds the length bytes, the checksum, the payload and the position
    after the frame. *)
Definition read_payload (file : bytes) (start : Z)
    : Res (option (bytes * bytes * bytes * Z)) :=
  match read_exact file start 4 with
  | None => Ok None
  | Some m =>
    _ ← ensure (bool_decide (m = magic)) e_magic;
    match read_exact file (start + 4) 4 with
    | None => Ok None
    | Some len_bytes =>
      let len := from_le len_bytes in
      _ ← ensure (len <=? max_record) e_size;
      match read_exact file (start + 8) 32 with
      | None => Ok None
      | Some checksum =>
        match read_exact file (start + 40) len with
        | None => Ok None
        | Some payload =>
          _ ← ensure (bool_decide (blake3 payload = checksum)) e_sum;
          Ok (Some (len_bytes, checksum, payload, start + 40 + len))
        end
      end
    end
  end.

(** What a writer appends. *)
Definition frame (payload : bytes) : bytes :=
  magic ++ to_le 4 (blen payload) ++ blake3 payload ++ payload.

(** A tail a crash can leave: some strict prefix of a frame, perhaps empty. *)
Definition torn (tail : bytes) : Prop :=
  ∃ payload k, blen payload ≤ max_record ∧ Z.of_nat k < blen (frame payload) ∧
               tail = take k (frame payload).

Hypothesis Hmagic : blen magic = 4.
Hypothesis Hmax : 0 ≤ max_record < 2 ^ 32.
Context {B : Blake3Ok}.

Lemma blen_frame p : blen (frame p) = 40 + blen p.
Proof using Hmagic B. unfold frame. autorewrite with blen. rewrite Hmagic, blake3_len. lia. Qed.

Lemma from_le_len p : blen p ≤ max_record → from_le (to_le 4 (blen p)) = blen p.
Proof using Hmax. intros Hp. apply from_to_le. pose proof (blen_nonneg p). lia. Qed.

Lemma read_payload_frame pre p post :
  blen p ≤ max_record →
  read_payload (pre ++ frame p ++ post) (blen pre) =
  Ok (Some (to_le 4 (blen p), blake3 p, p, blen pre + blen (frame p))).
Proof using Hmagic Hmax B.
  intros Hp. pose proof (blake3_len p) as Hh. unfold read_payload.
  rewrite (read_exact_at _ pre magic (to_le 4 (blen p) ++ blake3 p ++ p ++ post));
    [| unfold frame; by rewrite <- !app_assoc | done | done].
  rewrite bool_decide_true by done. simpl.
  rewrite (read_exact_at _ (pre ++ magic) (to_le 4 (blen p)) (blake3 p ++ p ++ post));
    [| unfold frame; by rewrite <- !app_assoc | blia | by rewrite blen_to_le].
  rewrite from_le_len by done. rewrite (proj2 (Z.leb_le _ _)) by done. simpl.
  rewrite (read_exact_at _ (pre ++ magic ++ to_le 4 (blen p)) (blake3 p) (p ++ post));
    [| unfold frame; by rewrite <- !app_assoc | blia | done].
  rewrite (read_exact_at _ (pre ++ magic ++ to_le 4 (blen p) ++ blake3 p) p post);
    [| unfold frame; by rewrite <- !app_assoc | blia | done].
  rewrite bool_decide_true by done. simpl. rewrite blen_frame. do 3 f_equal. lia.
Qed.

Lemma read_payload_eof file start :
  blen file < start + 4 → read_payload file start = Ok None.
Proof. intros Hlt. unfold read_payload. by rewrite read_exact_eof. Qed.

(** The part of [pre ++ take k (frame p)] a field of the frame occupies reads
    back when the cut is after it. *)
Lemma read_cut pre p k off a n b pos :
  frame p = a ++ n ++ b → off = blen a → pos = blen pre + off →
  off + blen n ≤ Z.of_nat k →
  read_exact (pre ++ take k (frame p)) pos (blen n) = Some n.
Proof.
  intros -> -> -> Hk.
  apply (read_exact_at _ (pre ++ a) n (take (k - length a - length n)%nat b)).
  - rewrite <- app_assoc. f_equal. unfold blen in Hk.
    rewrite take_app_ge by lia. rewrite take_app_ge by lia. done.
  - by rewrite blen_app.
  - done.
Qed.

Lemma read_payload_torn pre p k :
  blen p ≤ max_record → Z.of_nat k < blen (frame p) →
  read_payload (pre ++ take k (frame p)) (blen pre) = Ok None.
Proof using Hmagic Hmax B.
  intros Hp Hk. pose proof (blake3_len p) as Hh.
  assert (blen (take k (frame p)) = Z.of_nat k) as Hlen.
  { unfold blen in *. rewrite length_take. lia. }
  unfold read_payload.
  destruct (decide (Z.of_nat k < 4)) as [H4|H4].
  { rewrite read_exact_eof; [done |]. rewrite blen_app. lia. }
  replace 4 with (blen magic) at 1 by done.
  rewrite (read_cut pre p k 0 [] magic (to_le 4 (blen p) ++ blake3 p ++ p));
    [| done | done | lia | lia].
  rewrite bool_decide_true by done. simpl.
  destruct (decide (Z.of_nat k < 8)) as [H8|H8].
  { rewrite read_exact_eof; [done |]. rewrite blen_app. lia. }
  replace 4 with (blen (to_le 4 (blen p))) at 2 by by rewrite blen_to_le.
  rewrite (read_cut pre p k 4 magic (to_le 4 (blen p)) (blake3 p ++ p));
    [| done | done | lia | blia].
  rewrite from_le_len by done. rewrite (proj2 (Z.leb_le _ _)) by done. simpl.
  destruct (decide (Z.of_nat k < 40)) as [H40|H40].
  { rewrite read_exact_eof; [done |]. rewrite blen_app. lia. }
  rewrite <- Hh at 1.
  rewrite (read_cut pre p k 8 (magic ++ to_le 4 (blen p)) (blake3 p) p);
    [| unfold frame; by rewrite <- !app_assoc | blia | lia | lia].
  rewrite read_exact_eof; [done |]. rewrite blen_app, Hlen.
  rewrite blen_frame in Hk. lia.
Qed.

(** A torn tail reads as torn wherever it starts. *)
Lemma read_payload_torn_tail pre tail :
  torn tail → read_payload (pre ++ tail) (blen pre) = Ok None.
Proof using Hmagic Hmax B. intros (p & k & ? & ? & ->). by apply read_payload_torn. Qed.

(** A successful read found a frame there. *)
Lemma read_payload_inv file start lb cs p e :
  0 ≤ start → read_payload file start = Ok (Some (lb, cs, p, e)) →
  e = start + blen (frame p) ∧ e ≤ blen file ∧ lb = to_le 4 (blen p) ∧ cs = blake3 p ∧
  blen p ≤ max_record ∧ slice start (blen (frame p)) file = frame p.
Proof using Hmagic Hmax B.
  intros Hs. unfold read_payload.
  destruct (read_exact file start 4) as [m|] eqn:E1; [| done].
  destruct (bool_decide_reflect (m = magic)) as [->|]; [| done]. simpl.
  destruct (read_exact file (start + 4) 4) as [lb'|] eqn:E2; [| done].
  destruct (from_le lb' <=? max_record) eqn:Em; [| done]. simpl.
  destruct (read_exact file (start + 8) 32) as [cs'|] eqn:E3; [| done].
  destruct (read_exact file (start + 40) (from_le lb')) as [p'|] eqn:E4; [| done].
  destruct (bool_decide_reflect (blake3 p' = cs')) as [<-|]; [| done]. simpl.
  intros [= <- <- <- <-]. pose proof (from_le_bound lb') as Hb.
  apply read_exact_Some in E1 as (L1 & _ & S1); [| lia..].
  apply read_exact_Some in E2 as (L2 & _ & S2); [| lia..].
  apply read_exact_Some in E3 as (L3 & _ & S3); [| lia..].
  apply read_exact_Some in E4 as (L4 & B4 & S4); [| lia..].
  assert (lb' = to_le 4 (blen p')) as Hlb.
  { rewrite L4. replace 4%nat with (length lb') by (unfold blen in L2; lia).
    symmetry. apply to_from_le. }
  rewrite blen_frame. split_and!; [lia | lia | done | done | lia |].
  rewrite L4. unfold frame. rewrite <- Hlb.
  replace (40 + from_le lb') with (4 + (4 + (32 + from_le lb'))) by lia.
  rewrite !slice_split by lia. rewrite <- S1. f_equal. rewrite <- S2. f_equal.
  replace (start + 4 + 4) with (start + 8) by lia. rewrite <- S3. f_equal.
  replace (start + 8 + 32) with (start + 40) by lia. by rewrite <- S4.
Qed.

(** The empty tail is a torn tail, and a torn tail is shorter than a frame. *)
Lemma torn_nil : torn [].
Proof using Hmagic Hmax B.
  exists [], 0%nat. rewrite blen_frame. split_and!; [rewrite blen_nil; lia | blia | done].
Qed.
End Framing.
