(* ===== verification/Concrete.v ===== *)
(** * Concrete: instances of the third-party interfaces

    The development is parameterised by BLAKE3, serde_json and hex. This file
    gives each interface one concrete, computable instance that satisfies its
    laws, so that every theorem with such a parameter is shown to apply: a
    32-byte polynomial digest, a byte encoding of any countable type, and
    lower-case hexadecimal. Nothing here claims to be the real library. *)

From S2P Require Import Prelude Model.
#[local] Open Scope Z_scope.

(** ** A digest of 32 bytes *)

Definition toy_digest (b : bytes) : bytes :=
  to_le 32 (foldl (λ h x, (h * 1000003 + byte.unsigned x + 7) mod 2305843009213693951) 5381 b).

Lemma toy_digest_len b : blen (toy_digest b) = 32.
Proof. unfold toy_digest. by rewrite blen_to_le. Qed.

(** ** A codec for any countable type *)

Definition toy_to_vec {A} `{Countable A} (a : A) : bytes :=
  let p := encode a in to_le (S (Z.to_nat (Z.log2 (Zpos p) / 8))) (Zpos p).
Definition toy_from_slice {A} `{Countable A} (b : bytes) : option A :=
  match from_le b with Zpos p => decode p | _ => None end.

Lemma toy_codec {A} `{Countable A} (a : A) : toy_from_slice (toy_to_vec a) = Some a.
Proof.
  unfold toy_from_slice, toy_to_vec. rewrite from_to_le.
  - apply decode_encode.
  - split; [done |]. set (p := encode a).
    pose proof (Z.log2_spec (Zpos p) ltac:(done)) as [_ Hlt].
    pose proof (Z.log2_nonneg (Zpos p)).
    pose proof (Z.div_mod (Z.log2 (Zpos p)) 8 ltac:(lia)).
    pose proof (Z.mod_pos_bound (Z.log2 (Zpos p)) 8 ltac:(lia)).
    pose proof (Z.div_pos (Z.log2 (Zpos p)) 8 ltac:(lia) ltac:(lia)).
    eapply Z.lt_le_trans; [exact Hlt |]. apply Z.pow_le_mono_r; lia.
Qed.

(** ** Hexadecimal *)

Definition nibble (n : Z) : Corelib.Init.Byte.byte :=
  byte.of_Z (if n <? 10 then 48 + n else 87 + n).
Definition unnibble (b : Corelib.Init.Byte.byte) : option Z :=
  let z := byte.unsigned b in
  if (48 <=? z) && (z <=? 57) then Some (z - 48)
  else if (97 <=? z) && (z <=? 102) then Some (z - 87)
  else if (65 <=? z) && (z <=? 70) then Some (z - 55)
  else None.

Fixpoint toy_hex_encode (b : bytes) : bytes :=
  match b with
  | [] => []
  | x :: b => nibble (byte.unsigned x / 16) :: nibble (byte.unsigned x mod 16) :: toy_hex_encode b
  end.
Fixpoint toy_hex_decode (b : bytes) : option bytes :=
  match b with
  | [] => Some []
  | x :: y :: b =>
    hi ← unnibble x; lo ← unnibble y; r ← toy_hex_decode b; Some (byte.of_Z (hi * 16 + lo) :: r)
  | [_] => None
  end.

(** ** Instances

    Definitions, not instances: a file that computes with them declares them
    locally. *)
Definition toy_blake3 : Blake3 := toy_digest.
Definition toy_blake3_ok : @Blake3Ok toy_blake3 := toy_digest_len.
Definition toy_json (A : Type) `{Countable A} : Json A :=
  {| to_vec := toy_to_vec; from_slice := toy_from_slice |}.
Definition toy_json_ok (A : Type) `{Countable A} : @JsonOk A (toy_json A) := toy_codec.
Definition toy_hex : Hex := {| hex_encode := toy_hex_encode; hex_decode := toy_hex_decode |}.

(** ** Countable instances of the model's data *)

#[export] Instance ObjectKind_countable : Countable ObjectKind.
Proof.
  refine (inj_countable (λ k, Byte.to_N (kind_to_u8 k))
            (λ n, b ← Byte.of_N n; kind_from_u8 b) _). by intros [].
Defined.

Definition trigger_index (t : SnapshotTrigger) : nat :=
  match t with
  | Initial => 0 | Manual => 1 | Watcher => 2 | PreRewind => 3 | ForkBase => 4 | AgentRun => 5
  | MergeSource => 6 | PreMerge => 7 | Merge => 8 | SyncLocal => 9 | SyncPush => 10
  | SyncPull => 11 | Inspection => 12 | Claim => 13 | Release => 14 | Coord => 15
  end%nat.
Definition trigger_list : list SnapshotTrigger :=
  [Initial; Manual; Watcher; PreRewind; ForkBase; AgentRun; MergeSource; PreMerge; Merge;
   SyncLocal; SyncPush; SyncPull; Inspection; Claim; Release; Coord].
#[export] Instance SnapshotTrigger_countable : Countable SnapshotTrigger.
Proof.
  refine (inj_countable trigger_index (λ n, trigger_list !! n) _). by intros [].
Defined.

#[export] Instance EntryKind_countable : Countable EntryKind.
Proof.
  refine (inj_countable
    (λ k, match k with File => 0 | Directory => 1 | Symlink => 2 | Fifo => 3 | SocketMarker => 4 end%nat)
    (λ n, [File; Directory; Symlink; Fifo; SocketMarker] !! n) _). by intros [].
Defined.

#[export] Instance ContentClass_countable : Countable ContentClass.
Proof.
  refine (inj_countable (λ c, Z.to_nat (class_index c)) (λ n, ALL !! n) _). by intros [].
Defined.

#[export] Instance TreeEntry_countable : Countable TreeEntry.
Proof.
  refine (inj_countable'
    (λ e, (name e, kind e, target e, link_target e, (mode e, size e, mtime_secs e, mtime_nanos e),
           xattrs e, class e))
    (λ '(n, k, t, l, (m, s, ms, mn), x, c), mkTreeEntry n k t l m s ms mn x c) _). by intros [].
Defined.

#[export] Instance TreePage_countable : Countable TreePage.
Proof.
  refine (inj_countable' (λ p, (first_name p, last_name p, entry_count p, page_target p))
    (λ '(f, l, c, t), mkTreePage f l c t) _). by intros [].
Defined.

#[export] Instance Tree_countable : Countable Tree.
Proof.
  refine (inj_countable' (λ t, (entries t, pages t)) (λ '(e, p), mkTree e p) _). by intros [].
Defined.

#[export] Instance ChunkRef_eq_dec : EqDecision ChunkRef.
Proof. solve_decision. Defined.
#[export] Instance ChunkRef_countable : Countable ChunkRef.
Proof. refine (inj_countable' (λ c, (cr_id c, cr_len c)) (λ '(i, l), mkChunkRef i l) _). by intros []. Defined.
#[export] Instance Blob_eq_dec : EqDecision Blob.
Proof. solve_decision. Defined.
#[export] Instance Blob_countable : Countable Blob.
Proof. refine (inj_countable' (λ b, (chunks b, total_len b)) (λ '(c, l), mkBlob c l) _). by intros []. Defined.
#[export] Instance XattrEntry_eq_dec : EqDecision XattrEntry.
Proof. solve_decision. Defined.
#[export] Instance XattrEntry_countable : Countable XattrEntry.
Proof. refine (inj_countable' (λ x, (xattr_name x, xattr_value x)) (λ '(n, v), mkXattr n v) _). by intros []. Defined.
#[export] Instance Xattrs_eq_dec : EqDecision Xattrs.
Proof. solve_decision. Defined.
#[export] Instance Xattrs_countable : Countable Xattrs.
Proof. refine (inj_countable' xattr_entries mkXattrs _). by intros []. Defined.
