(* ===== verification/Refs.v ===== *)
(** * Refs: the reference log and its reverse index ([furrow-core/src/refs.rs])

    A timeline is an append-only log of checksummed frames, each holding a
    reference record and the hash of the frame before it. Beside it lies an
    advisory index of fixed-size records ([start], [end], frame hash and the
    log's metadata). The model keeps both files as byte strings, so a crash is a
    prefix of what was being written. *)

From S2P Require Import Prelude Model Framing.
#[local] Open Scope Z_scope.

Definition MAGIC : bytes := b_ "AGRF".
Definition INDEX_MAGIC : bytes := b_ "AGRI" ++ [Byte.x01; Byte.x00; Byte.x00; Byte.x00].
Definition MAX_RECORD : Z := 1024 * 1024.
Definition INDEX_FIELDS_LEN : Z := 8 * 8 + 32.
Definition INDEX_RECORD_LEN : Z := INDEX_FIELDS_LEN + 32.
Definition INDEX_MAGIC_LEN : Z := 8.

Record RefRecord := mkRefRecord {
  sequence : Z;
  snapshot_id : ObjectId;
  sealed_at : Z;
  label : option bytes;
  trigger : SnapshotTrigger;
  previous_frame : ObjectId;
}.

Record DecodedRecord := mkDecoded {
  record : RefRecord;
  frame_hash : ObjectId;
  start : Z;
  end_ : Z;
}.

Record IndexRecord := mkIndex {
  ix_start : Z;
  ix_end : Z;
  ix_frame_hash : ObjectId;
  device : Z;
  inode : Z;
  mtime_secs : Z;
  mtime_nanos : Z;
  ctime_secs : Z;
  ctime_nanos : Z;
}.

(** [fs::Metadata], as far as the index looks at it. *)
Record Metadata := mkMeta {
  md_len : Z;
  md_dev : Z;
  md_ino : Z;
  md_mtime : Z * Z;
  md_ctime : Z * Z;
}.

(** A file on disk: its bytes and its identity and times. *)
Record DiskFile := mkFile { f_data : bytes; f_dev : Z; f_ino : Z; f_mtime : Z * Z; f_ctime : Z * Z }.

(** The directory of one workspace as far as [RefLog] uses it. [now] is the
    clock the file system stamps writes with and [fresh] the identity it gives
    the next file it creates: neither is under the program's control. *)
Record RefLog := mkRefLog {
  log : option DiskFile;
  index : option bytes;
  now : Z * Z;
  fresh : Z * Z;
}.

Definition set_log (f : option DiskFile) (l : RefLog) : RefLog :=
  {| log := f; index := index l; now := now l; fresh := fresh l |}.
Definition set_index (i : option bytes) (l : RefLog) : RefLog :=
  {| log := log l; index := i; now := now l; fresh := fresh l |}.

Definition metadata (f : DiskFile) : Metadata :=
  {| md_len := blen (f_data f); md_dev := f_dev f; md_ino := f_ino f;
     md_mtime := f_mtime f; md_ctime := f_ctime f |}.

(** A write replaces the bytes and stamps both times. *)
Definition write_data (b : bytes) (l : RefLog) (f : DiskFile) : DiskFile :=
  {| f_data := b; f_dev := f_dev f; f_ino := f_ino f; f_mtime := now l; f_ctime := now l |}.

(** [open_log]: creates an empty log where there is none. *)
Definition open_log : M RefLog DiskFile := λ l,
  match log l with
  | Some f => (Ok f, l)
  | None =>
    let f := {| f_data := []; f_dev := (fresh l).1; f_ino := (fresh l).2;
                f_mtime := now l; f_ctime := now l |} in
    (Ok f, set_log (Some f) l)
  end.

(** The bytes and the metadata of the open log. *)
Definition log_file : M RefLog DiskFile := λ l,
  (with_context (log l) "log is not open", l).
(** [file.set_len]: truncates (the code never extends with it). *)
Definition set_len (n : Z) : M RefLog () :=
  f ← log_file; modify (λ l, set_log (Some (write_data (take (Z.to_nat n) (f_data f)) l f)) l).
Definition append_bytes (b : bytes) : M RefLog () :=
  f ← log_file; modify (λ l, set_log (Some (write_data (f_data f ++ b) l f)) l).

Section Refs.
Context `{Blake3, Json RefRecord}.

(** ** Frames *)

Definition hash_frame (len checksum payload : bytes) : ObjectId :=
  blake3 (MAGIC ++ len ++ checksum ++ payload).

Definition read_frame_at (file : bytes) (start : Z) : Res (option DecodedRecord) :=
  o ← read_payload MAGIC MAX_RECORD "reference log corruption"
        "reference record exceeds size limit" "reference checksum mismatch" file start;
  match o with
  | None => Ok None
  | Some (len_bytes, checksum, payload, e) =>
    record ← with_context (from_slice payload) "decode reference record";
    Ok (Some {| record := record; frame_hash := hash_frame len_bytes checksum payload;
                start := start; end_ := e |})
  end.

(** [read_records]: the loop, with fuel for the number of frames. *)
Fixpoint read_records_loop (fuel : nat) (file : bytes) (offset : Z)
    (expected_previous : ObjectId) (expected_sequence : Z) (records : list DecodedRecord)
    : Res (list DecodedRecord * Z * bool) :=
  match fuel with
  | O => Err "fuel"
  | S fuel =>
    if offset <? blen file then
      o ← read_frame_at file offset;
      match o with
      | None => Ok (records, offset, true)
      | Some decoded =>
        _ ← ensure (bool_decide (previous_frame (record decoded) = expected_previous))
              "broken reference hash chain";
        _ ← ensure (sequence (record decoded) =? expected_sequence)
              "broken reference sequence";
        read_records_loop fuel file (end_ decoded) (frame_hash decoded)
          (expected_sequence + 1) (records ++ [decoded])
      end
    else Ok (records, offset, false)
  end.
Definition read_records (file : bytes) (start : Z) (expected_previous : ObjectId)
    (expected_sequence : Z) : Res (list DecodedRecord * Z * bool) :=
  read_records_loop (S (length file)) file start expected_previous expected_sequence [].

(** ** Index records *)

Definition IndexRecord_new (start e : Z) (hash : ObjectId) (m : Metadata) : IndexRecord :=
  {| ix_start := start; ix_end := e; ix_frame_hash := hash;
     device := md_dev m; inode := md_ino m;
     mtime_secs := (md_mtime m).1; mtime_nanos := (md_mtime m).2;
     ctime_secs := (md_ctime m).1; ctime_nanos := (md_ctime m).2 |}.

Definition matches_metadata (r : IndexRecord) (m : Metadata) : bool :=
  (ix_end r =? md_len m) && (device r =? md_dev m) && (inode r =? md_ino m)
  && (mtime_secs r =? (md_mtime m).1) && (mtime_nanos r =? (md_mtime m).2)
  && (ctime_secs r =? (md_ctime m).1) && (ctime_nanos r =? (md_ctime m).2).

(** Two's complement: [to_le] of a negative number is its [i64] encoding. *)
Definition encode_index_fields (r : IndexRecord) : bytes :=
  to_le 8 (ix_start r) ++ to_le 8 (ix_end r) ++ ix_frame_hash r
  ++ to_le 8 (as_i64 (device r)) ++ to_le 8 (as_i64 (inode r))
  ++ to_le 8 (mtime_secs r) ++ to_le 8 (mtime_nanos r)
  ++ to_le 8 (ctime_secs r) ++ to_le 8 (ctime_nanos r).

Definition decode_index_fields (b : bytes) : Res IndexRecord :=
  let read_i64 (s : Z) := as_i64 (from_le (slice s 8 b)) in
  let hash := slice 16 32 b in
  let start := read_i64 0 in
  let e := read_i64 8 in
  _ ← ensure ((0 <=? start) && (start <=? e)) "invalid reference index offsets";
  Ok {| ix_start := as_u64 start; ix_end := as_u64 e; ix_frame_hash := hash;
        device := as_u64 (read_i64 48); inode := as_u64 (read_i64 56);
        mtime_secs := read_i64 64; mtime_nanos := read_i64 72;
        ctime_secs := read_i64 80; ctime_nanos := read_i64 88 |}.

(** The bytes [write_index_record] appends. *)
Definition index_record_bytes (r : IndexRecord) : bytes :=
  encode_index_fields r ++ blake3 (encode_index_fields r).

Definition read_index_record (file : bytes) (pos : Z) : Res IndexRecord :=
  fields ← with_context (read_exact file pos INDEX_FIELDS_LEN) "failed to fill whole buffer";
  checksum ← with_context (read_exact file (pos + INDEX_FIELDS_LEN) 32)
               "failed to fill whole buffer";
  _ ← ensure (bool_decide (blake3 fields = checksum)) "reference index checksum mismatch";
  decode_index_fields fields.

(** ** The index file *)

Definition rewrite_index (records : list DecodedRecord) : M RefLog () :=
  f ← log_file;
  modify (set_index (Some (INDEX_MAGIC ++
    concat (map (λ r, index_record_bytes
      (IndexRecord_new (start r) (end_ r) (frame_hash r) (metadata f))) records)))).

Definition write_empty_index : M RefLog () := rewrite_index [].

Definition append_index (r : IndexRecord) : M RefLog () :=
  modify (λ l,
    let i := default [] (index l) in
    let i := if blen i =? 0 then INDEX_MAGIC else i in
    set_index (Some (i ++ index_record_bytes r)) l).

Definition append_index_records (records : list DecodedRecord) : M RefLog () :=
  f ← log_file;
  mfor records (λ r,
    append_index (IndexRecord_new (start r) (end_ r) (frame_hash r) (metadata f))).

Definition refresh_index_tail (r : IndexRecord) : M RefLog () :=
  l ← get;
  i ← lift (with_context (index l) "No such file");
  let len := blen i in
  _ ← mensure (INDEX_MAGIC_LEN + INDEX_RECORD_LEN <=? len) "reference index has no tail";
  put (set_index (Some (take (Z.to_nat (len - INDEX_RECORD_LEN)) i ++ index_record_bytes r)) l).

Definition rebuild_index : M RefLog () :=
  f ← log_file;
  '(records, valid_len, incomplete_tail) ← lift (read_records (f_data f) 0 zero_id 1);
  _ ← (if (incomplete_tail : bool) then set_len valid_len else mret ());
  rewrite_index records.

Definition prepare_index : M RefLog (option IndexRecord) :=
  l ← get;
  i ← lift (with_context (index l) "reference index is missing");
  header ← lift (with_context (read_exact i 0 INDEX_MAGIC_LEN) "failed to fill whole buffer");
  _ ← mensure (bool_decide (header = INDEX_MAGIC)) "invalid reference index header";
  let data_len := blen i - INDEX_MAGIC_LEN in
  let complete_len := data_len / INDEX_RECORD_LEN * INDEX_RECORD_LEN in
  let i := if complete_len =? data_len then i
           else take (Z.to_nat (INDEX_MAGIC_LEN + complete_len)) i in
  _ ← put (set_index (Some i) l);
  if complete_len =? 0 then mret None
  else r ← lift (read_index_record i (INDEX_MAGIC_LEN + complete_len - INDEX_RECORD_LEN));
       mret (Some r).

Definition read_index_tail (limit : Z) : M RefLog (list IndexRecord) :=
  l ← get;
  i ← lift (with_context (index l) "No such file");
  let count := as_u64 (blen i - INDEX_MAGIC_LEN) / INDEX_RECORD_LEN in
  let take := Z.min count limit in
  let base := INDEX_MAGIC_LEN + (count - take) * INDEX_RECORD_LEN in
  lift (res_map (λ k, read_index_record i (base + Z.of_nat k * INDEX_RECORD_LEN))
          (seq 0 (Z.to_nat take))).

Definition ensure_index : M RefLog () :=
  f ← log_file;
  let md := metadata f in
  prepared ← try_ prepare_index;
  match prepared with
  | Err _ => rebuild_index
  | Ok None => if md_len md =? 0 then write_empty_index else rebuild_index
  | Ok (Some last) =>
    if (md_len md <? ix_end last) || negb (device last =? md_dev md)
       || negb (inode last =? md_ino md)
    then rebuild_index
    else
      o ← lift (read_frame_at (f_data f) (ix_start last));
      match o with
      | None => rebuild_index
      | Some frame =>
        if negb (end_ frame =? ix_end last)
           || negb (bool_decide (frame_hash frame = ix_frame_hash last))
        then rebuild_index
        else if md_len md =? ix_end last then
          (if matches_metadata last md then mret () else rebuild_index)
        else
          '(suffix, valid_len, incomplete_tail) ←
            lift (read_records (f_data f) (ix_end last) (ix_frame_hash last)
                    (sequence (record frame) + 1));
          _ ← (if (incomplete_tail : bool) then set_len valid_len else mret ());
          match suffix with
          | [] =>
            f ← log_file;
            refresh_index_tail (IndexRecord_new (ix_start last) (ix_end last)
                                  (ix_frame_hash last) (metadata f))
          | _ => append_index_records suffix
          end
      end
  end.

(** ** The operations of [RefLog] *)

(** [records]: the authoritative log, verified from its first byte. *)
Definition records : M RefLog (list RefRecord) :=
  f ← open_log;
  '(rs, valid_len, incomplete_tail) ← lift (read_records (f_data f) 0 zero_id 1);
  _ ← (if (incomplete_tail : bool) then set_len valid_len else mret ());
  _ ← rewrite_index rs;
  mret (map record rs).

(** The chain test over [decoded.windows(2)]. *)
Fixpoint windows_chain (ds : list DecodedRecord) : bool :=
  match ds with
  | a :: ((b :: _) as rest) =>
    bool_decide (previous_frame (record b) = frame_hash a) && windows_chain rest
  | _ => true
  end.

Definition read_recent_indexed (limit : Z) : M RefLog (list RefRecord) :=
  entries ← read_index_tail (sat_add limit 1);
  f ← log_file;
  let skip := if limit <? Z.of_nat (length entries) then 1%nat else 0%nat in
  decoded ← lift (res_map (λ e : IndexRecord,
    o ← read_frame_at (f_data f) (ix_start e);
    frame ← with_context o "reference index points beyond the log";
    _ ← ensure ((end_ frame =? ix_end e) && bool_decide (frame_hash frame = ix_frame_hash e))
          "reference index does not match the authoritative log";
    Ok frame) (drop skip entries));
  _ ← match head decoded with
      | Some first =>
        let expected := match skip, entries with
                        | 1%nat, e0 :: _ => ix_frame_hash e0
                        | _, _ => zero_id
                        end in
        mensure (bool_decide (previous_frame (record first) = expected))
          "broken reference hash chain"
      | None => mret ()
      end;
  _ ← mensure (windows_chain decoded) "broken reference hash chain";
  mret (map record (reverse decoded)).

(** [self.path.exists()] *)
Definition path_exists : M RefLog bool := gets (λ l, bool_decide (log l ≠ None)).

Definition recent (limit : Z) : M RefLog (list RefRecord) :=
  ex ← path_exists;
  if (limit =? 0) || negb ex then mret []
  else
    _ ← open_log;
    _ ← ensure_index;
    r ← try_ (read_recent_indexed limit);
    match r with
    | Ok rs => mret rs
    | Err _ => _ ← rebuild_index; read_recent_indexed limit
    end.

(** [self.recent(1)?.pop()] *)
Definition head_ : M RefLog (option RefRecord) :=
  rs ← recent 1; mret (last rs).

(** [for_each_record]: the visitor folds over an accumulator. *)
Fixpoint for_each_loop {A} (visit : RefRecord → A → Res A) (fuel : nat) (file : bytes)
    (offset : Z) (previous : ObjectId) (seq : Z) (a : A) : Res A :=
  match fuel with
  | O => Err "fuel"
  | S fuel =>
    if offset <? blen file then
      o ← read_frame_at file offset;
      frame ← with_context o "reference log ended before its indexed boundary";
      _ ← ensure (sequence (record frame) =? seq) "non-monotonic reference sequence";
      _ ← ensure (bool_decide (previous_frame (record frame) = previous))
            "broken reference hash chain";
      a ← visit (record frame) a;
      for_each_loop visit fuel file (end_ frame) (frame_hash frame) (seq + 1) a
    else Ok a
  end.
Definition for_each_record {A} (visit : RefRecord → A → Res A) (a : A) : M RefLog A :=
  ex ← path_exists;
  if negb ex then mret a
  else
    _ ← open_log;
    _ ← ensure_index;
    f ← log_file;
    lift (for_each_loop visit (S (length (f_data f))) (f_data f) 0 zero_id 1 a).

Definition find (id : ObjectId) : M RefLog (option RefRecord) :=
  for_each_record (λ r found, Ok (if decide (snapshot_id r = id) then Some r else found)) None.

Definition records_at_sequences (sequences : list Z) : M RefLog (list RefRecord) :=
  ex ← path_exists;
  if bool_decide (sequences = []) || negb ex then mret []
  else
    _ ← open_log;
    _ ← ensure_index;
    f ← log_file;
    l ← get;
    i ← lift (with_context (index l) "No such file");
    let count := as_u64 (blen i - INDEX_MAGIC_LEN) / INDEX_RECORD_LEN in
    lift (res_map (λ s,
      _ ← ensure ((0 <? s) && (s <=? count)) "reference sequence is outside the indexed log";
      indexed ← read_index_record i (INDEX_MAGIC_LEN + (s - 1) * INDEX_RECORD_LEN);
      o ← read_frame_at (f_data f) (ix_start indexed);
      frame ← with_context o "reference index points beyond the log";
      _ ← ensure ((sequence (record frame) =? s) && (end_ frame =? ix_end indexed)
                  && bool_decide (frame_hash frame = ix_frame_hash indexed))
            "reference index does not match the authoritative log";
      Ok (record frame)) sequences).

(** [append_ordered]: a no-op when the snapshot is already the head. *)
Definition append (id : ObjectId) (at_ : Z) (lab : option bytes) (trg : SnapshotTrigger)
    : M RefLog RefRecord :=
  _ ← open_log;
  _ ← ensure_index;
  tail ← read_index_tail 1;
  f ← log_file;
  last_frame ← match last tail with
               | Some entry => lift (read_frame_at (f_data f) (ix_start entry))
               | None => mret None
               end;
  let fresh_record :=
    {| sequence := match last_frame with Some d => sequence (record d) + 1 | None => 1 end;
       snapshot_id := id; sealed_at := at_; label := lab; trigger := trg;
       previous_frame := match last_frame with Some d => frame_hash d | None => zero_id end |} in
  let write : M RefLog RefRecord :=
    let payload := to_vec fresh_record in
    _ ← mensure (blen payload <=? MAX_RECORD) "reference record is too large";
    let checksum := blake3 payload in
    let len_bytes := to_le 4 (blen payload) in
    let s := blen (f_data f) in
    _ ← append_bytes (MAGIC ++ len_bytes ++ checksum ++ payload);
    f ← log_file;
    _ ← append_index (IndexRecord_new s (blen (f_data f))
                        (hash_frame len_bytes checksum payload) (metadata f));
    mret fresh_record in
  match last_frame with
  | Some existing =>
    if decide (snapshot_id (record existing) = id) then mret (record existing) else write
  | None => write
  end.

Definition complete_len : M RefLog Z := f ← open_log; mret (blen (f_data f)).

(** [repair_suffix]: only what lies after the durable boundary may go. *)
Fixpoint repair_loop (present : ObjectId → Res bool) (durable_len : Z) (fuel : nat)
    (offset : Z) (previous : ObjectId) (seq : Z) (rs : list DecodedRecord)
    : M RefLog bool :=
  match fuel with
  | O => fail "fuel"
  | S fuel =>
    f ← log_file;
    if offset <? blen (f_data f) then
      let frame := read_frame_at (f_data f) offset in
      valid ← match frame with
              | Ok (Some d) =>
                if (sequence (record d) =? seq)
                   && bool_decide (previous_frame (record d) = previous)
                then if offset <? durable_len then mret true
                     else lift (present (snapshot_id (record d)))
                else mret false
              | _ => mret false
              end;
      if negb (valid : bool) then
        _ ← mensure (durable_len <=? offset) "durable reference prefix is corrupt";
        _ ← set_len offset;
        _ ← rewrite_index rs;
        mret true
      else
        o ← lift frame;
        d ← lift (with_context o "reference frame missing");
        repair_loop present durable_len fuel (end_ d) (frame_hash d) (seq + 1) (rs ++ [d])
    else mret false
  end.
Definition repair_suffix (durable_len : Z) (present : ObjectId → Res bool) : M RefLog bool :=
  f ← open_log;
  let len := blen (f_data f) in
  _ ← mensure (durable_len <=? len) "durable reference prefix was lost";
  repair_loop present durable_len (S (length (f_data f))) 0 zero_id 1 [].
End Refs.
