(* ===== verification/RefsTheory.v ===== *)
(** * RefsTheory: what the reference log promises

    The abstract log is a list of records; [log_bytes] is its encoding,
    [chain] its hash and sequence chain. The operations of [Refs] are shown to
    implement reads and appends of that list, whatever state a crash left the
    advisory index and the tail of the log in. *)

From S2P Require Import Prelude Model Framing Concrete Refs.
#[local] Open Scope Z_scope.

Section RefsSpec.
Context `{Blake3Ok, JsonOk RefRecord}.

(** ** The abstract log and its encoding *)

Definition frame_of (r : RefRecord) : bytes := frame MAGIC (to_vec r).
Definition frame_id (r : RefRecord) : ObjectId :=
  hash_frame (to_le 4 (blen (to_vec r))) (blake3 (to_vec r)) (to_vec r).
Definition log_bytes (rs : list RefRecord) : bytes := concat (map frame_of rs).

Definition decoded_at (s : Z) (r : RefRecord) : DecodedRecord :=
  mkDecoded r (frame_id r) s (s + blen (frame_of r)).
Fixpoint decoded (s : Z) (rs : list RefRecord) : list DecodedRecord :=
  match rs with
  | [] => []
  | r :: rs => decoded_at s r :: decoded (s + blen (frame_of r)) rs
  end.

(** Each record names the frame before it and has the next sequence number. *)
Fixpoint chain (prev : ObjectId) (seq : Z) (rs : list RefRecord) : Prop :=
  match rs with
  | [] => True
  | r :: rs => previous_frame r = prev ∧ sequence r = seq ∧ chain (frame_id r) (seq + 1) rs
  end.

Definition fits (r : RefRecord) : Prop := blen (to_vec r) ≤ MAX_RECORD.

(** A log the program can have written: chained from the first frame, every
    payload within the limit. *)
Definition well_chained (rs : list RefRecord) : Prop := chain zero_id 1 rs ∧ Forall fits rs.

(** What an interrupted append leaves after the last whole frame. *)
Definition torn_tail : bytes → Prop := torn MAGIC MAX_RECORD.

Definition last_id (prev : ObjectId) (rs : list RefRecord) : ObjectId :=
  match last rs with Some r => frame_id r | None => prev end.

#[local] Arguments frame_of : simpl never.
#[local] Arguments frame_id : simpl never.
#[local] Arguments blen : simpl never.

(** ** Reading frames *)

Lemma magic_len : blen MAGIC = 4.
Proof. done. Qed.
Lemma max_record_bound : 0 ≤ MAX_RECORD < 2 ^ 32.
Proof. done. Qed.
Local Hint Resolve magic_len max_record_bound : core.

Lemma blen_frame_of r : blen (frame_of r) = 40 + blen (to_vec r).
Proof. by apply blen_frame. Qed.

Lemma frame_of_pos r : 40 ≤ blen (frame_of r).
Proof. rewrite blen_frame_of. pose proof (blen_nonneg (to_vec r)). lia. Qed.

Lemma frame_id_len r : blen (frame_id r) = 32.
Proof. apply blake3_len. Qed.

Lemma read_frame_at_app pre r post :
  fits r →
  read_frame_at (pre ++ frame_of r ++ post) (blen pre) = Ok (Some (decoded_at (blen pre) r)).
Proof.
  intros Hr. unfold read_frame_at, frame_of. rewrite read_payload_frame by done.
  simpl. rewrite from_to. done.
Qed.

Lemma read_frame_at_torn pre tail :
  torn_tail tail → read_frame_at (pre ++ tail) (blen pre) = Ok None.
Proof. intros Ht. unfold read_frame_at. by rewrite read_payload_torn_tail. Qed.

(** A frame that reads occupies its extent of the file. *)
Lemma read_frame_at_inv file s d :
  0 ≤ s → read_frame_at file s = Ok (Some d) →
  start d = s ∧ s + 40 ≤ end_ d ≤ blen file.
Proof.
  intros Hs. unfold read_frame_at. intros Hd. res_inv.
  destruct x as [[[[lb cs] p] e]|]; [| done].
  apply read_payload_inv in H3 as (-> & Hle & _ & _ & _ & _); [| done..].
  res_inv. simpl. rewrite blen_frame in Hle |- * by done.
  pose proof (blen_nonneg p). lia.
Qed.

Lemma log_bytes_app rs rs' : log_bytes (rs ++ rs') = log_bytes rs ++ log_bytes rs'.
Proof. unfold log_bytes. by rewrite map_app, concat_app. Qed.
Lemma log_bytes_cons r rs : log_bytes (r :: rs) = frame_of r ++ log_bytes rs.
Proof. done. Qed.

Lemma decoded_app s rs rs' :
  decoded s (rs ++ rs') = decoded s rs ++ decoded (s + blen (log_bytes rs)) rs'.
Proof.
  revert s. induction rs as [|r rs IH]; intros s; simpl.
  - change (blen (log_bytes [])) with 0. by rewrite Z.add_0_r.
  - rewrite IH, log_bytes_cons, blen_app. by rewrite Z.add_assoc.
Qed.

Lemma map_record_decoded s rs : map record (decoded s rs) = rs.
Proof. revert s. induction rs as [|r rs IH]; intros s; simpl; [done | by rewrite IH]. Qed.

Lemma length_decoded s rs : length (decoded s rs) = length rs.
Proof. revert s. induction rs as [|r rs IH]; intros s; simpl; [done | by rewrite IH]. Qed.

Lemma length_log_bytes rs : (40 * length rs ≤ length (log_bytes rs))%nat.
Proof.
  induction rs as [|r rs IH]; [simpl; lia |].
  rewrite log_bytes_cons, length_app. pose proof (frame_of_pos r) as Hp.
  unfold blen in Hp. cbn [length]. lia.
Qed.

Lemma chain_app prev seq rs rs' :
  chain prev seq (rs ++ rs') ↔
  chain prev seq rs ∧ chain (last_id prev rs) (seq + Z.of_nat (length rs)) rs'.
Proof.
  revert prev seq. induction rs as [|r rs IH]; intros prev seq.
  - simpl. rewrite Z.add_0_r. tauto.
  - cbn [app chain length]. rewrite IH.
    replace (last_id prev (r :: rs)) with (last_id (frame_id r) rs).
    2: { unfold last_id. rewrite last_cons. by destruct (last rs). }
    replace (seq + Z.of_nat (S (length rs))) with (seq + 1 + Z.of_nat (length rs)) by lia.
    tauto.
Qed.

(** The verifying reader returns exactly the records of the log, and reports
    where the whole frames end. *)
Lemma read_records_loop_log fuel pre rs tail prev seq acc :
  chain prev seq rs → Forall fits rs → torn_tail tail → (length rs < fuel)%nat →
  read_records_loop fuel (pre ++ log_bytes rs ++ tail) (blen pre) prev seq acc =
  Ok (acc ++ decoded (blen pre) rs, blen pre + blen (log_bytes rs), bool_decide (tail ≠ [])).
Proof.
  intros Hc Hf Ht. revert fuel pre prev seq acc Hc Hf.
  induction rs as [|r rs IH]; intros [|fuel] pre prev seq acc Hc Hf Hfuel; try (simpl in *; lia).
  - cbn [read_records_loop decoded]. change (log_bytes []) with (@nil Byte.byte).
    rewrite blen_app, blen_nil, app_nil_r, Z.add_0_r. cbn [app].
    destruct (decide (tail = [])) as [-> | Hne].
    + rewrite blen_nil, Z.add_0_r, Z.ltb_irrefl. by rewrite bool_decide_false by tauto.
    + assert (0 < blen tail) by (destruct tail; [done | blia]).
      rewrite (proj2 (Z.ltb_lt _ _)) by lia. rewrite read_frame_at_torn by done.
      simpl. by rewrite bool_decide_true.
  - apply Forall_cons in Hf as [Hr Hf]. destruct Hc as (Hp & Hs & Hc).
    cbn [read_records_loop]. rewrite log_bytes_cons.
    rewrite (proj2 (Z.ltb_lt _ _)).
    2: { pose proof (frame_of_pos r). blia. }
    rewrite <- app_assoc, read_frame_at_app by done. cbn [mbind Res_bind record decoded_at].
    rewrite bool_decide_true, (proj2 (Z.eqb_eq _ _)) by done. cbn.
    rewrite <- blen_app, (app_assoc pre). rewrite IH; [| done..| simpl in Hfuel; lia].
    rewrite <- app_assoc, !blen_app. cbn [app decoded]. by rewrite Z.add_assoc.
Qed.

Lemma read_records_log pre rs tail prev seq :
  chain prev seq rs → Forall fits rs → torn_tail tail →
  read_records (pre ++ log_bytes rs ++ tail) (blen pre) prev seq =
  Ok (decoded (blen pre) rs, blen pre + blen (log_bytes rs), bool_decide (tail ≠ [])).
Proof.
  intros. unfold read_records. rewrite read_records_loop_log; [done..|].
  pose proof (length_log_bytes rs). rewrite !length_app. lia.
Qed.

(** ** Index records *)

Definition index_wf (e : IndexRecord) : Prop :=
  0 ≤ ix_start e ≤ ix_end e ∧ ix_end e < 2 ^ 63 ∧ blen (ix_frame_hash e) = 32 ∧
  0 ≤ device e < 2 ^ 64 ∧ 0 ≤ inode e < 2 ^ 64 ∧
  - 2 ^ 63 ≤ mtime_secs e < 2 ^ 63 ∧ - 2 ^ 63 ≤ mtime_nanos e < 2 ^ 63 ∧
  - 2 ^ 63 ≤ ctime_secs e < 2 ^ 63 ∧ - 2 ^ 63 ≤ ctime_nanos e < 2 ^ 63.

Lemma blen_index_fields e : index_wf e → blen (encode_index_fields e) = INDEX_FIELDS_LEN.
Proof.
  intros (_ & _ & Hh & _). unfold encode_index_fields. autorewrite with blen.
  rewrite Hh. reflexivity.
Qed.

Lemma blen_index_record e : index_wf e → blen (index_record_bytes e) = INDEX_RECORD_LEN.
Proof.
  intros He. unfold index_record_bytes.
  rewrite blen_app, blen_index_fields, blake3_len by done. reflexivity.
Qed.

Lemma decode_encode_index e : index_wf e → decode_index_fields (encode_index_fields e) = Ok e.
Proof.
  intros (Hse & He & Hh & Hd & Hi & Hm & Hmn & Hc & Hcn). unfold decode_index_fields.
  unfold encode_index_fields. slice_fields.
  rewrite !from_to_i64_u64, !from_to_i64 by lia.
  rewrite !as_u64_small by lia. rewrite !(proj2 (Z.leb_le _ _)) by lia.
  by destruct e.
Qed.

(** ** The index file *)

Definition index_bytes (es : list IndexRecord) : bytes :=
  INDEX_MAGIC ++ concat (map index_record_bytes es).

Lemma read_index_record_at pre e post :
  index_wf e → read_index_record (pre ++ index_record_bytes e ++ post) (blen pre) = Ok e.
Proof.
  intros He. pose proof (blen_index_fields e He) as Hl. unfold read_index_record, index_record_bytes.
  rewrite (read_exact_at _ pre (encode_index_fields e) (blake3 (encode_index_fields e) ++ post)
             (blen pre) INDEX_FIELDS_LEN);
    [| by rewrite <- app_assoc | done | by rewrite Hl].
  rewrite (read_exact_at _ (pre ++ encode_index_fields e) (blake3 (encode_index_fields e)) post);
    [| by rewrite <- !app_assoc | by rewrite blen_app, Hl | by rewrite blake3_len].
  cbn [with_context mbind Res_bind]. rewrite bool_decide_true by done. cbn.
  by apply decode_encode_index.
Qed.

Lemma blen_index_concat es :
  Forall index_wf es →
  blen (concat (map index_record_bytes es)) = Z.of_nat (length es) * INDEX_RECORD_LEN.
Proof.
  induction 1 as [|e es He _ IH]; [done |]. cbn [map concat length].
  rewrite blen_app, IH, blen_index_record by done. lia.
Qed.

Lemma blen_index_bytes es :
  Forall index_wf es →
  blen (index_bytes es) = INDEX_MAGIC_LEN + Z.of_nat (length es) * INDEX_RECORD_LEN.
Proof.
  intros Hes. unfold index_bytes. rewrite blen_app, blen_index_concat by done. reflexivity.
Qed.

Lemma index_bytes_snoc es e : index_bytes (es ++ [e]) = index_bytes es ++ index_record_bytes e.
Proof.
  unfold index_bytes. rewrite map_app, concat_app. cbn [map concat].
  by rewrite app_nil_r, app_assoc.
Qed.

(** Entry [k] of an index is where the readers look for it. *)
Lemma read_index_entry es junk k e :
  Forall index_wf es → es !! k = Some e →
  read_index_record (index_bytes es ++ junk) (INDEX_MAGIC_LEN + Z.of_nat k * INDEX_RECORD_LEN)
  = Ok e.
Proof.
  intros Hes Hk. rewrite <- (take_drop_middle es k e Hk).
  rewrite Forall_lookup in Hes. pose proof (Hes k e Hk) as He.
  assert (Forall index_wf (take k es)) as Ht.
  { apply Forall_take. by apply Forall_lookup. }
  replace (index_bytes (take k es ++ e :: drop (S k) es) ++ junk)
    with (index_bytes (take k es)
          ++ index_record_bytes e ++ concat (map index_record_bytes (drop (S k) es)) ++ junk).
  - rewrite <- (read_index_record_at (index_bytes (take k es)) e
                 (concat (map index_record_bytes (drop (S k) es)) ++ junk) He).
    f_equal. rewrite blen_index_bytes by done. rewrite length_take.
    apply lookup_lt_Some in Hk. rewrite Nat.min_l by lia. done.
  - unfold index_bytes. rewrite map_app, concat_app. cbn [map concat].
    by rewrite <- !app_assoc.
Qed.

(** ** States of the two files *)

(** The identity and the times the file system hands out are in range. *)
Definition meta_wf (m : Metadata) : Prop :=
  0 ≤ md_dev m < 2 ^ 64 ∧ 0 ≤ md_ino m < 2 ^ 64 ∧
  - 2 ^ 63 ≤ (md_mtime m).1 < 2 ^ 63 ∧ - 2 ^ 63 ≤ (md_mtime m).2 < 2 ^ 63 ∧
  - 2 ^ 63 ≤ (md_ctime m).1 < 2 ^ 63 ∧ - 2 ^ 63 ≤ (md_ctime m).2 < 2 ^ 63.
Definition env_wf (l : RefLog) : Prop :=
  - 2 ^ 63 ≤ (now l).1 < 2 ^ 63 ∧ - 2 ^ 63 ≤ (now l).2 < 2 ^ 63 ∧
  0 ≤ (fresh l).1 < 2 ^ 64 ∧ 0 ≤ (fresh l).2 < 2 ^ 64.

(** An index entry that locates the frame [d]. *)
Definition entry_for (d : DecodedRecord) (e : IndexRecord) : Prop :=
  ix_start e = start d ∧ ix_end e = end_ d ∧ ix_frame_hash e = frame_hash d ∧ index_wf e.

(** The log holds exactly [rs], followed by [tail]. *)
Definition log_is (l : RefLog) (rs : list RefRecord) (tail : bytes) : Prop :=
  ∃ f, log l = Some f ∧ f_data f = log_bytes rs ++ tail ∧ meta_wf (metadata f) ∧
       blen (f_data f) < 2 ^ 62.

(** The index names every frame of the log, and its last entry carries the
    log's current metadata, which is what the fast path tests. *)
Definition index_is (l : RefLog) (rs : list RefRecord) : Prop :=
  ∃ f es, log l = Some f ∧ index l = Some (index_bytes es) ∧
          Forall2 entry_for (decoded 0 rs) es ∧
          (∀ e, last es = Some e → matches_metadata e (metadata f) = true).

(** The settled state: no torn tail, a current index. *)
Definition coherent (l : RefLog) (rs : list RefRecord) : Prop :=
  env_wf l ∧ log_is l rs [] ∧ index_is l rs.

(** The states a crash or a lost index leaves: any torn tail, and an index
    that is unreadable (missing, short, foreign header, damaged last entry) or
    is that of an earlier log, possibly cut inside an entry. *)
Definition advisory (l : RefLog) (rs : list RefRecord) : Prop :=
  is_ok (prepare_index l).1 = false ∨
  ∃ done rest es junk, rs = done ++ rest ∧ index l = Some (index_bytes es ++ junk) ∧
    Forall2 entry_for (decoded 0 done) es ∧ blen junk < INDEX_RECORD_LEN.
Definition recoverable (l : RefLog) (rs : list RefRecord) : Prop :=
  env_wf l ∧ (∃ tail, torn_tail tail ∧ log_is l rs tail) ∧ advisory l rs.

Lemma coherent_recoverable l rs : coherent l rs → recoverable l rs.
Proof.
  intros (He & Hl & f & es & Hf & Hi & Hes & _). split; [done |]. split.
  - exists []. split; [by apply torn_nil | done].
  - right. exists rs, [], es, []. rewrite !app_nil_r. done.
Qed.

(** ** Index entries of a log *)

Lemma decoded_bounds s rs d :
  d ∈ decoded s rs →
  s ≤ start d ∧ start d + 40 ≤ end_ d ≤ s + blen (log_bytes rs) ∧ blen (frame_hash d) = 32.
Proof.
  revert s. induction rs as [|r rs IH]; intros s; [by intros ?%not_elem_of_nil |].
  cbn [decoded]. rewrite log_bytes_cons. pose proof (frame_of_pos r).
  intros [-> | Hd]%elem_of_cons.
  - cbn. rewrite frame_id_len. blia.
  - apply IH in Hd. blia.
Qed.

Lemma entry_new_for s rs d m :
  0 ≤ s → s + blen (log_bytes rs) < 2 ^ 62 → meta_wf m → d ∈ decoded s rs →
  entry_for d (IndexRecord_new (start d) (end_ d) (frame_hash d) m).
Proof.
  intros Hs Hb (?&?&?&?&?&?) Hd%decoded_bounds. unfold entry_for, index_wf. cbn. split_and!; first [done | lia].
Qed.

Lemma entries_new_for s rs m :
  0 ≤ s → s + blen (log_bytes rs) < 2 ^ 62 → meta_wf m →
  Forall2 entry_for (decoded s rs)
    (map (λ d, IndexRecord_new (start d) (end_ d) (frame_hash d) m) (decoded s rs)).
Proof.
  intros Hs Hb Hm. apply Forall2_fmap_r, Forall_Forall2_diag, Forall_forall.
  intros d Hd. by eapply entry_new_for.
Qed.

Lemma entries_wf ds es : Forall2 entry_for ds es → Forall index_wf es.
Proof. induction 1 as [|d e ds es He _ IH]; constructor; [apply He | done]. Qed.

Lemma last_decoded s rs d : last (decoded s rs) = Some d → end_ d = s + blen (log_bytes rs).
Proof.
  intros Hd. destruct rs as [|r rs _] using rev_ind; [done |].
  rewrite decoded_app, last_app in Hd. injection Hd as <-.
  rewrite log_bytes_app, log_bytes_cons. cbn. blia.
Qed.

Lemma new_matches s e h m : e = md_len m → matches_metadata (IndexRecord_new s e h m) m = true.
Proof. intros ->. unfold matches_metadata. cbn. by rewrite !Z.eqb_refl. Qed.

(** Entries freshly made for a log cover it and match its metadata. *)
Lemma last_new_matches rs m e :
  md_len m = blen (log_bytes rs) →
  last (map (λ d, IndexRecord_new (start d) (end_ d) (frame_hash d) m) (decoded 0 rs)) = Some e →
  matches_metadata e m = true.
Proof.
  intros Hm. rewrite fmap_last. destruct (last (decoded 0 rs)) as [d|] eqn:E; [| done].
  intros [= <-]. apply new_matches. apply last_decoded in E. lia.
Qed.

(** ** The index operations *)

Lemma prepare_index_run l es junk :
  index l = Some (index_bytes es ++ junk) → Forall index_wf es → blen junk < INDEX_RECORD_LEN →
  prepare_index l = (Ok (last es), set_index (Some (index_bytes es)) l).
Proof.
  intros Hi Hes Hj. pose proof (blen_index_bytes es Hes) as Hb. pose proof (blen_nonneg junk).
  unfold prepare_index, mbind, M_bind, get, lift, mensure, lift, put. rewrite Hi.
  cbn [with_context]. rewrite (read_exact_at _ [] INDEX_MAGIC (concat (map index_record_bytes es) ++ junk));
    [| unfold index_bytes; by rewrite <- app_assoc | done | done].
  cbn [with_context]. rewrite bool_decide_true by done. cbn [ensure].
  rewrite blen_app, Hb. set (n := Z.of_nat (length es)) in *.
  replace (INDEX_MAGIC_LEN + n * INDEX_RECORD_LEN + blen junk - INDEX_MAGIC_LEN)
    with (blen junk + n * INDEX_RECORD_LEN) by lia.
  rewrite Z.div_add, Z.div_small, Z.add_0_l by (unfold INDEX_RECORD_LEN, INDEX_FIELDS_LEN in *; lia).
  assert ((if n * INDEX_RECORD_LEN =? blen junk + n * INDEX_RECORD_LEN
           then index_bytes es ++ junk
           else take (Z.to_nat (INDEX_MAGIC_LEN + n * INDEX_RECORD_LEN)) (index_bytes es ++ junk))
          = index_bytes es) as ->.
  { destruct (_ =? _) eqn:E.
    - assert (length junk = 0%nat) as Hz by (unfold blen in *; lia).
      apply nil_length_inv in Hz as ->. apply app_nil_r.
    - rewrite <- Hb. apply take_app_length'. unfold blen. lia. }
  destruct es as [|e es _] using rev_ind.
  - by subst n.
  - rewrite (proj2 (Z.eqb_neq _ _)).
    2: { subst n. rewrite length_app. cbn [length].
         unfold INDEX_RECORD_LEN, INDEX_FIELDS_LEN. lia. }
    rewrite last_snoc, <- (app_nil_r (index_bytes (es ++ [e]))) at 1.
    replace (INDEX_MAGIC_LEN + n * INDEX_RECORD_LEN - INDEX_RECORD_LEN)
      with (INDEX_MAGIC_LEN + Z.of_nat (length es) * INDEX_RECORD_LEN).
    2: { subst n. rewrite length_app. cbn [length]. lia. }
    rewrite (read_index_entry _ [] (length es) e); [done | done |].
    by rewrite list_lookup_middle.
Qed.

Lemma set_len_run l f n :
  log l = Some f →
  set_len n l = (Ok tt, set_log (Some (write_data (take (Z.to_nat n) (f_data f)) l f)) l).
Proof. intros Hf. unfold set_len, mbind, M_bind, log_file. by rewrite Hf. Qed.

Lemma rewrite_index_run l f ds :
  log l = Some f →
  rewrite_index ds l =
  (Ok tt, set_index (Some (index_bytes (map (λ d,
     IndexRecord_new (start d) (end_ d) (frame_hash d) (metadata f)) ds))) l).
Proof.
  intros Hf. unfold rewrite_index, mbind, M_bind, log_file. rewrite Hf. cbn.
  unfold modify, index_bytes. by rewrite map_map.
Qed.

(** A written index makes the log's state coherent. *)
Lemma rewrite_index_coherent l rs :
  env_wf l → log_is l rs [] →
  ∃ l', rewrite_index (decoded 0 rs) l = (Ok tt, l') ∧ coherent l' rs ∧ log l' = log l.
Proof.
  intros He (f & Hf & Hd & Hm & Hb). eexists. split; [by apply rewrite_index_run |].
  split; [| done]. split; [done |]. split; [by exists f |].
  rewrite app_nil_r in Hd. rewrite Hd in Hb.
  exists f. eexists. split; [done |]. split; [done |]. split.
  - apply entries_new_for; [lia | lia | done].
  - intros e He'. eapply last_new_matches; [| exact He']. cbn. by rewrite Hd.
Qed.

(** Cutting the torn tail off. *)
Lemma truncate_tail l rs tail :
  env_wf l → log_is l rs tail →
  ∃ l', (if bool_decide (tail ≠ []) then set_len (blen (log_bytes rs)) else mret ()) l = (Ok tt, l') ∧
        env_wf l' ∧ log_is l' rs [] ∧ index l' = index l ∧
        (tail = [] → l' = l).
Proof.
  intros He (f & Hf & Hd & Hm & Hb). case_bool_decide as Ht.
  - eexists. split; [by apply set_len_run |]. rewrite Hd.
    assert (take (Z.to_nat (blen (log_bytes rs))) (log_bytes rs ++ tail) = log_bytes rs) as Hk.
    { apply take_app_length'. unfold blen. lia. }
    rewrite Hk. split; [done |]. split; [| done].
    eexists. split; [done |]. split; [by rewrite app_nil_r |].
    destruct He as (?&?&_). destruct Hm as (?&?&_). split; [done |].
    cbn. rewrite Hd in Hb. blia.
  - subst tail. exists l. split_and!; try done. by exists f.
Qed.

Lemma read_whole_log rs tail :
  well_chained rs → torn_tail tail →
  read_records (log_bytes rs ++ tail) 0 zero_id 1 =
  Ok (decoded 0 rs, blen (log_bytes rs), bool_decide (tail ≠ [])).
Proof. intros [Hc Hf] Ht. by apply (read_records_log []). Qed.

Lemma log_file_run l f : log l = Some f → log_file l = (Ok f, l).
Proof. unfold log_file. by intros ->. Qed.

Lemma rebuild_index_run l rs tail :
  env_wf l → log_is l rs tail → well_chained rs → torn_tail tail →
  ∃ l', rebuild_index l = (Ok tt, l') ∧ coherent l' rs.
Proof.
  intros He Hl Hc Ht. destruct (truncate_tail l rs tail He Hl) as (l1 & Ht1 & He1 & Hl1 & _).
  destruct (rewrite_index_coherent l1 rs He1 Hl1) as (l2 & Hr & Hco & _).
  exists l2. split; [| done]. destruct Hl as (f & Hf & Hd & _).
  unfold rebuild_index. mrun (log_file_run _ _ Hf).
  rewrite Hd, read_whole_log by done. mpure. by mrun Ht1.
Qed.

(** [prepare_index] touches nothing but the index. *)
Lemma prepare_index_frame l : ∃ i, (prepare_index l).2 = set_index i l.
Proof.
  destruct l as [lg ix nw fr].
  unfold prepare_index, mbind, M_bind, get, lift, mensure, lift, put, ensure. cbn.
  repeat case_match; simplify_eq; eexists; done.
Qed.

Lemma append_index_run l es e :
  index l = Some (index_bytes es) →
  append_index e l = (Ok tt, set_index (Some (index_bytes (es ++ [e]))) l).
Proof.
  intros Hi. unfold append_index, modify. rewrite Hi.
  assert (blen (index_bytes es) =? 0 = false) as Hne.
  { apply Z.eqb_neq. unfold index_bytes. rewrite blen_app.
    change (blen INDEX_MAGIC) with 8. blia. }
  cbn [from_option id]. by rewrite Hne, index_bytes_snoc.
Qed.

Lemma append_index_records_run l f es ds :
  log l = Some f → index l = Some (index_bytes es) →
  append_index_records ds l =
  (Ok tt, set_index (Some (index_bytes (es ++ map (λ d,
     IndexRecord_new (start d) (end_ d) (frame_hash d) (metadata f)) ds))) l).
Proof.
  intros Hf. unfold append_index_records. mrun (log_file_run _ _ Hf). clear Hf.
  revert l es. induction ds as [|d ds IH]; intros l es Hi; cbn [mfor map].
  - rewrite app_nil_r, <- Hi. by destruct l.
  - mrun (append_index_run _ _ (IndexRecord_new (start d) (end_ d) (frame_hash d) (metadata f)) Hi).
    erewrite IH by reflexivity. by rewrite <- app_assoc.
Qed.

Lemma refresh_index_tail_run l es e e' :
  index l = Some (index_bytes (es ++ [e])) → Forall index_wf (es ++ [e]) →
  refresh_index_tail e' l = (Ok tt, set_index (Some (index_bytes (es ++ [e']))) l).
Proof.
  intros Hi [Hes He]%Forall_app. rewrite Forall_singleton in He.
  unfold refresh_index_tail. mpure. rewrite Hi. cbn [with_context]. mpure.
  assert (blen (index_bytes (es ++ [e])) = blen (index_bytes es) + INDEX_RECORD_LEN) as Hb.
  { by rewrite index_bytes_snoc, blen_app, blen_index_record. }
  rewrite mensure_bind.
  2: { apply Z.leb_le. rewrite Hb, blen_index_bytes by done.
       unfold INDEX_RECORD_LEN, INDEX_FIELDS_LEN. lia. }
  unfold put. rewrite Hb, Z.add_simpl_r, !index_bytes_snoc.
  rewrite take_app_length' by (unfold blen; lia). done.
Qed.

Lemma entry_decoded_last done r es' :
  Forall2 entry_for (decoded 0 (done ++ [r])) es' →
  ∃ es e, es' = es ++ [e] ∧ Forall2 entry_for (decoded 0 done) es ∧
          entry_for (decoded_at (blen (log_bytes done)) r) e.
Proof.
  rewrite decoded_app. cbn [decoded]. intros (es & es2 & Hes & Hes2 & ->)%Forall2_app_inv_l.
  apply Forall2_cons_inv_l in Hes2 as (e & ? & He & ->%Forall2_nil_inv_l & ->).
  by exists es, e.
Qed.

(** The frame an entry of a known record points at. *)
Lemma read_indexed ps r qs tail e :
  fits r → entry_for (decoded_at (blen (log_bytes ps)) r) e →
  read_frame_at (log_bytes (ps ++ r :: qs) ++ tail) (ix_start e) =
  Ok (Some (decoded_at (blen (log_bytes ps)) r)).
Proof.
  intros Hr (-> & _). rewrite log_bytes_app, log_bytes_cons, <- !app_assoc.
  by apply read_frame_at_app.
Qed.

Lemma log_is_set_index l rs tail i : log_is l rs tail → log_is (set_index i l) rs tail.
Proof. done. Qed.

Lemma well_chained_app rs rs' :
  well_chained (rs ++ rs') →
  well_chained rs ∧ Forall fits rs' ∧
  chain (last_id zero_id rs) (1 + Z.of_nat (length rs)) rs'.
Proof. intros [[Hc Hc']%chain_app [Hf Hf']%Forall_app]. done. Qed.

Lemma last_id_snoc prev rs r : last_id prev (rs ++ [r]) = frame_id r.
Proof. unfold last_id. by rewrite last_snoc. Qed.

(** An index that covers the first part of a log, extended with new entries
    for the rest of it, is current. *)
Lemma coherent_extend l f done rest es :
  env_wf l → log l = Some f → log_is l (done ++ rest) [] →
  Forall2 entry_for (decoded 0 done) es → rest ≠ [] →
  coherent (set_index (Some (index_bytes (es ++ map (λ d,
     IndexRecord_new (start d) (end_ d) (frame_hash d) (metadata f))
     (decoded (blen (log_bytes done)) rest)))) l) (done ++ rest).
Proof.
  intros He Hf Hl Hes Hne. split; [done |]. split; [done |].
  destruct Hl as (f' & Hf' & Hd & Hm & Hb). assert (f' = f) as -> by congruence.
  rewrite app_nil_r in Hd. rewrite Hd, log_bytes_app, blen_app in Hb.
  exists f. eexists. split; [done |]. split; [done |]. split.
  - rewrite decoded_app. apply Forall2_app; [done |].
    apply entries_new_for; [apply blen_nonneg | lia | done].
  - intros e. rewrite last_app, fmap_last.
    destruct (last (decoded (blen (log_bytes done)) rest)) as [d|] eqn:E; cbn [fmap option_fmap option_map].
    + intros [= <-]. apply new_matches. apply last_decoded in E. cbn [metadata md_len].
      rewrite E, Hd, log_bytes_app, blen_app. done.
    + apply last_None in E. apply (f_equal length) in E. rewrite length_decoded in E.
      by destruct rest.
Qed.

(** The index of a shorter log is brought up to date by reading only what
    lies after its last entry. *)
Lemma extend_index_run l f ps r rest tail es e :
  let done := ps ++ [r] in
  well_chained (done ++ rest) → torn_tail tail → env_wf l →
  log l = Some f → log_is l (done ++ rest) tail →
  index l = Some (index_bytes (es ++ [e])) →
  Forall2 entry_for (decoded 0 done) (es ++ [e]) →
  ∃ l', ('(suffix, valid_len, incomplete_tail) ←
            lift (read_records (f_data f) (ix_end e) (ix_frame_hash e) (sequence r + 1));
          _ ← (if (incomplete_tail : bool) then set_len valid_len else mret ());
          match suffix with
          | [] =>
            f ← log_file;
            refresh_index_tail (IndexRecord_new (ix_start e) (ix_end e)
                                  (ix_frame_hash e) (metadata f))
          | _ => append_index_records suffix
          end) l = (Ok tt, l') ∧ coherent l' (done ++ rest).
Proof.
  intros done Hc Ht He Hf Hl Hi Hes. subst done.
  destruct Hl as (f' & Hf' & Hd & Hmb). assert (f' = f) as -> by congruence.
  assert (log_is l ((ps ++ [r]) ++ rest) tail) as Hl by (by exists f).
  pose proof Hc as [[Hc0 _] [Hfr Hcr]]%well_chained_app.
  apply chain_app in Hc0 as [_ (_ & Hs & _)].
  rewrite last_id_snoc in Hcr.
  pose proof (entries_wf _ _ Hes) as Hwf.
  destruct (entry_decoded_last _ _ _ Hes) as (es0 & e0 & Heq & Hes0 & Hee).
  apply app_inj_2 in Heq as [<- [= <-]]; [| done].
  destruct Hee as (Hes1 & Hee & Heh & Hewf). cbn in Hes1, Hee, Heh.
  assert (blen (log_bytes (ps ++ [r])) = ix_end e) as Hend.
  { rewrite log_bytes_app, log_bytes_cons, !blen_app. change (log_bytes []) with (@nil Byte.byte).
    rewrite blen_nil. lia. }
  rewrite Hd, log_bytes_app, <- app_assoc, <- Hend, Heh.
  replace (sequence r + 1) with (1 + Z.of_nat (length (ps ++ [r]))).
  2: { rewrite length_app. cbn [length]. lia. }
  rewrite read_records_log by done. mpure.
  rewrite <- blen_app, <- log_bytes_app.
  destruct (truncate_tail l _ tail He Hl) as (l1 & Ht1 & He1 & Hl1 & Hi1 & _).
  mrun Ht1. rewrite Hi in Hi1. pose proof Hl1 as (f1 & Hf1 & _).
  destruct rest as [|r' rest]; cbn [decoded].
  - mrun (log_file_run _ _ Hf1). rewrite app_nil_r in *.
    rewrite (refresh_index_tail_run _ _ _ _ Hi1 Hwf). eexists. split; [done |].
    pose proof (coherent_extend l1 f1 ps [r] es He1 Hf1 Hl1 Hes0 ltac:(done)) as Hco.
    cbn in Hco. by rewrite Hes1, Hend, Hee.
  - rewrite (append_index_records_run _ _ _ _ Hf1 Hi1). eexists. split; [done |].
    by apply coherent_extend.
Qed.

Lemma index_wf_new_prefix done rest :
  blen (log_bytes done) ≤ blen (log_bytes (done ++ rest)).
Proof. rewrite log_bytes_app. blia. Qed.

(** Whatever recoverable state the files are in, the index check settles them:
    the torn tail is gone and the index is current. *)
Lemma ensure_index_run l rs :
  well_chained rs → recoverable l rs →
  ∃ l', ensure_index l = (Ok tt, l') ∧ coherent l' rs.
Proof.
  intros Hc (He & (tail & Ht & Hl) & Hadv).
  pose proof Hl as (f & Hf & Hd & Hm & Hb).
  unfold ensure_index. mrun (log_file_run _ _ Hf).
  destruct Hadv as [Hbad | (done & rest & es & junk & -> & Hi & Hes & Hj)].
  - destruct (prepare_index_frame l) as [i Hi].
    destruct (prepare_index l) as [[o|msg] l1] eqn:E; [done |]. cbn in Hi. subst l1.
    rewrite (try_bind _ _ _ _ _ E). cbn beta iota.
    by eapply rebuild_index_run.
  - pose proof (entries_wf _ _ Hes) as Hwf.
    rewrite (try_bind _ _ _ _ _ (prepare_index_run l es junk Hi Hwf Hj)).
    set (l1 := set_index (Some (index_bytes es)) l).
    destruct done as [|r ps _] using rev_ind.
    + apply Forall2_nil_inv_l in Hes as ->. cbn [last app].
      destruct (md_len (metadata f) =? 0) eqn:Hz.
      * assert (log_bytes rest ++ tail = []) as [Hr ->]%app_nil.
        { cbn [app] in Hd; rewrite <- Hd. apply Z.eqb_eq in Hz. cbn in Hz. unfold blen in Hz.
          apply nil_length_inv. lia. }
        assert (rest = []) as ->.
        { apply nil_length_inv. pose proof (length_log_bytes rest). rewrite Hr in *.
          cbn [length] in *. lia. }
        destruct (rewrite_index_coherent l1 []) as (l' & ? & ? & _); [done | done |]. by exists l'.
      * by apply (rebuild_index_run l1 rest tail).
    + destruct (entry_decoded_last _ _ _ Hes) as (es' & e & -> & Hes' & Hee).
      rewrite last_snoc. cbn beta iota.
      destruct ((_ <? _) || _ || _); [by apply (rebuild_index_run l1 _ tail) |].
      assert (fits r) as Hr.
      { destruct Hc as [_ Hfits]. rewrite <- app_assoc in Hfits.
        by apply Forall_app in Hfits as [_ [? _]%Forall_cons]. }
      rewrite Hd, <- (app_assoc ps [r] rest), (read_indexed ps r rest tail e Hr Hee : read_frame_at (log_bytes (ps ++ [r] ++ rest) ++ tail) _ = _). mpure.
      destruct Hee as (Hes1 & Hee & Heh & Hewf). cbn in Hes1, Hee, Heh.
      rewrite Hee, Heh. cbn [end_ frame_hash decoded_at record].
      rewrite Z.eqb_refl, bool_decide_true by done. cbn [negb orb].
      destruct (_ =? _) eqn:Hend.
      * destruct (matches_metadata e (metadata f)) eqn:Hmm;
          [| rewrite app_assoc; by apply (rebuild_index_run l1 _ tail)].
        assert (rest = [] ∧ tail = []) as [-> ->].
        { apply Z.eqb_eq in Hend. cbn in Hend. rewrite Hd in Hend.
          rewrite <- app_assoc, !log_bytes_app, log_bytes_cons, !blen_app in Hend.
          change (log_bytes []) with (@nil Byte.byte) in Hend.
          assert (length (log_bytes rest) = 0%nat ∧ length tail = 0%nat) as [H3 H4].
          { unfold blen in Hend. cbn [length] in Hend. lia. }
          pose proof (length_log_bytes rest).
          split; apply nil_length_inv; lia. }
        exists l1. rewrite (app_assoc ps [r] []). split; [done |]. split; [done |]. split; [exact Hl |].
        exists f, (es' ++ [e]). split; [done |]. split; [done |]. rewrite app_nil_r.
        split; [done |]. rewrite last_snoc. by intros ? [= <-].
      * rewrite <- Hee, <- Heh, app_assoc, <- Hd.
        by apply (extend_index_run l1 f ps r rest tail es' e).
Qed.

(** ** Reading through the index *)

Lemma read_decoded rs pre post d :
  Forall fits rs → d ∈ decoded (blen pre) rs →
  read_frame_at (pre ++ log_bytes rs ++ post) (start d) = Ok (Some d).
Proof.
  revert pre. induction rs as [|r rs IH]; intros pre; [by intros _ ?%not_elem_of_nil |].
  intros [Hr Hf]%Forall_cons [-> | Hd]%elem_of_cons; rewrite log_bytes_cons, <- app_assoc.
  - by apply read_frame_at_app.
  - rewrite app_assoc. apply IH; [done |]. by rewrite blen_app.
Qed.

Lemma index_count es :
  Forall index_wf es → blen (index_bytes es) < 2 ^ 64 →
  as_u64 (blen (index_bytes es) - INDEX_MAGIC_LEN) / INDEX_RECORD_LEN = Z.of_nat (length es).
Proof.
  intros Hes Hb. rewrite blen_index_bytes in * by done. rewrite Z.add_simpl_l.
  change INDEX_MAGIC_LEN with 8 in *. change INDEX_RECORD_LEN with 128 in *.
  rewrite as_u64_small by lia. apply Z.div_mul. lia.
Qed.

(** The index is smaller than four times the log. *)
Lemma index_small rs es :
  Forall2 entry_for (decoded 0 rs) es → blen (log_bytes rs) < 2 ^ 62 →
  blen (index_bytes es) < 2 ^ 64 ∧ Z.of_nat (length es) < 2 ^ 62.
Proof.
  intros Hes Hb. rewrite blen_index_bytes by (by eapply entries_wf).
  apply Forall2_length in Hes. rewrite length_decoded in Hes. rewrite <- Hes.
  pose proof (length_log_bytes rs). unfold blen in Hb.
  change INDEX_MAGIC_LEN with 8. change INDEX_RECORD_LEN with 128. lia.
Qed.

Lemma read_index_tail_run l es limit :
  index l = Some (index_bytes es) → Forall index_wf es → blen (index_bytes es) < 2 ^ 64 →
  0 ≤ limit →
  read_index_tail limit l = (Ok (drop (length es - Z.to_nat limit) es), l).
Proof.
  intros Hi Hes Hb Hlim. unfold read_index_tail. mpure. rewrite Hi. cbn [with_context]. mpure.
  rewrite index_count by done. unfold lift. f_equal.
  apply res_map_seq; [rewrite length_drop; lia |].
  intros k e He. rewrite lookup_drop in He.
  rewrite <- (read_index_entry es [] _ e Hes He). rewrite app_nil_r. f_equal.
  apply lookup_lt_Some in He. change INDEX_RECORD_LEN with 128. lia.
Qed.

Lemma windows_chain_decoded s rs prev seq : chain prev seq rs → windows_chain (decoded s rs) = true.
Proof.
  revert s prev seq. induction rs as [|r [|r' rs] IH]; intros s prev seq; [done.. |].
  intros (_ & _ & Hc). pose proof Hc as (Hp & _). cbn [decoded windows_chain] in *.
  rewrite (IH _ _ _ Hc). cbn. by rewrite bool_decide_true.
Qed.

(** The frames a run of entries names are the run of frames. *)
Lemma read_entries f ps qs es :
  f_data f = log_bytes (ps ++ qs) → Forall fits qs →
  Forall2 entry_for (decoded (blen (log_bytes ps)) qs) es →
  res_map (λ e : IndexRecord,
    o ← read_frame_at (f_data f) (ix_start e);
    frame ← with_context o "reference index points beyond the log";
    _ ← ensure ((end_ frame =? ix_end e) && bool_decide (frame_hash frame = ix_frame_hash e))
          "reference index does not match the authoritative log";
    Ok frame) es = Ok (decoded (blen (log_bytes ps)) qs).
Proof.
  intros Hd Hf Hes. apply res_map_ok, Forall2_flip.
  apply Forall2_same_length_lookup_2; [by eapply Forall2_length |].
  intros k d e Hkd Hke. pose proof (Forall2_lookup_lr _ _ _ _ _ _ Hes Hkd Hke) as (Hs & He & Hh & _).
  rewrite Hd, Hs, log_bytes_app, <- (app_nil_r (log_bytes qs)).
  rewrite read_decoded by (first [done | by eapply list_elem_of_lookup_2]).
  cbn [mbind Res_bind with_context]. rewrite He, Hh, Z.eqb_refl, bool_decide_true by done. done.
Qed.

Lemma read_recent_run l rs limit :
  coherent l rs → well_chained rs → 0 < limit →
  read_recent_indexed limit l = (Ok (take (Z.to_nat limit) (reverse rs)), l).
Proof.
  intros (_ & (f & Hf & Hd & _ & Hb) & (f' & es & Hf' & Hi & Hes & _)) [Hc Hfits] Hlim.
  assert (f' = f) as -> by congruence. rewrite app_nil_r in Hd. rewrite Hd in Hb.
  pose proof (index_small _ _ Hes Hb) as [Hib Hn].
  unfold read_recent_indexed.
  mrun (read_index_tail_run l es (sat_add limit 1) Hi (entries_wf _ _ Hes) Hib ltac:(unfold sat_add, u64_max; lia)).
  mrun (log_file_run _ _ Hf).
  replace (length es - Z.to_nat (sat_add limit 1))%nat with (length es - S (Z.to_nat limit))%nat
    by (unfold sat_add, u64_max; lia).
  rewrite take_reverse. pose proof (Forall2_length _ _ _ Hes) as Hl. rewrite length_decoded in Hl.
  set (m := (length rs - Z.to_nat limit)%nat).
  rewrite <- (take_drop m rs), decoded_app in Hes.
  apply Forall2_app_inv_l in Hes as (es1 & es2 & Hes1 & Hes2 & ->).
  pose proof (Forall2_length _ _ _ Hes1) as Hl1. rewrite length_decoded, length_take in Hl1.
  pose proof (Forall2_length _ _ _ Hes2) as Hl2. rewrite length_decoded, length_drop in Hl2.
  assert (f_data f = log_bytes (take m rs ++ drop m rs)) as Hd' by by rewrite take_drop.
  pose proof (Forall_drop _ m _ Hfits) as Hfd.
  pose proof Hc as Hc'. rewrite <- (take_drop m rs) in Hc'. apply chain_app in Hc' as [_ Hcd].
  set (entries := drop _ (es1 ++ es2)).
  set (skip := if limit <? _ then 1%nat else 0%nat).
  assert (drop skip entries = es2 ∧
          match skip, entries with
          | 1%nat, e0 :: _ => ix_frame_hash e0
          | _, _ => zero_id
          end = last_id zero_id (take m rs)) as [Hdrop Hexp].
  { subst skip entries. rewrite length_drop, length_app in *.
    destruct (Z.ltb_spec limit (Z.of_nat (length es1 + length es2 -
      (length es1 + length es2 - S (Z.to_nat limit))))) as [Hlt|Hge].
    - destruct (take m rs) as [|r ps _] eqn:Hps using rev_ind.
      { apply (f_equal length) in Hps. rewrite length_take in Hps. cbn [length] in Hps. lia. }
      destruct (entry_decoded_last _ _ _ Hes1) as (es1' & e & -> & _ & (_ & _ & Hh & _)).
      rewrite length_app in *. cbn [length] in *.
      rewrite <- app_assoc, drop_app_length' by lia. cbn [app drop].
      by rewrite Hh, last_id_snoc.
    - assert (m = 0%nat) as Hm by lia. rewrite Hm in *. cbn [take length] in *.
      destruct es1; [| cbn [length] in *; lia]. cbn [app length].
      rewrite drop_0. replace (0 + length es2 - S (Z.to_nat limit))%nat with 0%nat by lia.
      by rewrite drop_0. }
  rewrite Hdrop, Hexp.
  rewrite (read_entries f (take m rs) (drop m rs) es2) by done. mpure.
  destruct (drop m rs) as [|q qs]; [done |]. cbn [decoded head record decoded_at].
  destruct Hcd as (Hp & Hsq & Hcd). rewrite mensure_bind by by apply bool_decide_eq_true.
  rewrite mensure_bind.
  2: { by apply (windows_chain_decoded _ (q :: qs) _ _ (conj Hp (conj Hsq Hcd))). }
  change (decoded_at (blen (log_bytes (take m rs))) q :: _)
    with (decoded (blen (log_bytes (take m rs))) (q :: qs)).
  unfold mret, M_ret. do 2 f_equal.
  rewrite <- (map_record_decoded (blen (log_bytes (take m rs))) (q :: qs)) at 2.
  unfold reverse. by rewrite <- !rev_alt, map_rev.
Qed.

(** ** Appending *)

(** The record an append makes from the abstract log. *)
Definition next_record (rs : list RefRecord) (id : ObjectId) (at_ : Z) (lab : option bytes)
    (trg : SnapshotTrigger) : RefRecord :=
  mkRefRecord (Z.of_nat (length rs) + 1) id at_ lab trg (last_id zero_id rs).

(** The abstract append: nothing when the head already is that snapshot. *)
Definition head_is (rs : list RefRecord) (id : ObjectId) : option RefRecord :=
  match last rs with
  | Some r => if decide (snapshot_id r = id) then Some r else None
  | None => None
  end.

Lemma chain_sequence rs r : chain zero_id 1 (rs ++ [r]) → sequence r = Z.of_nat (length rs) + 1.
Proof. intros [_ (_ & Hs & _)]%chain_app. lia. Qed.

Lemma well_chained_snoc rs id at_ lab trg :
  well_chained rs → fits (next_record rs id at_ lab trg) →
  well_chained (rs ++ [next_record rs id at_ lab trg]).
Proof.
  intros [Hc Hf] Hn. split; [| by apply Forall_app; split; [| constructor]].
  apply chain_app. split; [done |]. cbn. split; [done |]. split; [lia | done].
Qed.

(** The last frame of a coherent state, as [append] finds it. *)
Lemma last_frame_run l rs f :
  coherent l rs → well_chained rs → log l = Some f →
  ∃ es, read_index_tail 1 l = (Ok (drop (length es - 1) es), l) ∧
    (match last (drop (length es - 1) es) with
     | Some entry => lift (read_frame_at (f_data f) (ix_start entry))
     | None => mret None
     end) l = (match last rs with
               | Some r => (Ok (last (decoded 0 rs)), l)
               | None => (Ok None, l)
               end).
Proof.
  intros (_ & (f' & Hf' & Hd & _ & Hb) & (f'' & es & Hf'' & Hi & Hes & _)) [Hc Hfits] Hf.
  assert (f' = f) as -> by congruence. clear f'' Hf'' Hf'. rewrite app_nil_r in Hd.
  rewrite Hd in Hb. pose proof (index_small _ _ Hes Hb) as [Hib _].
  exists es. split; [by apply read_index_tail_run; [| eapply entries_wf | |] |].
  destruct rs as [|r rs _] using rev_ind.
  - by apply Forall2_nil_inv_l in Hes as ->.
  - destruct (entry_decoded_last _ _ _ Hes) as (es' & e & -> & _ & Hee).
    rewrite length_app. cbn [length]. rewrite Nat.add_sub, drop_app_length. cbn [last].
    rewrite last_snoc, Hd, <- (app_nil_r (log_bytes _)).
    apply Forall_app in Hfits as [_ [Hr _]%Forall_cons].
    rewrite (read_indexed rs r [] [] e Hr Hee).
    rewrite decoded_app. cbn [decoded]. by rewrite last_snoc.
Qed.

(** What the write part of [append] does to a coherent state. *)
Lemma append_write_run l rs f r :
  coherent l rs → log l = Some f → fits r → blen (log_bytes (rs ++ [r])) < 2 ^ 62 →
  ∃ l', (_ ← append_bytes (frame_of r);
         f' ← log_file;
         _ ← append_index (IndexRecord_new (blen (f_data f)) (blen (f_data f')) (frame_id r)
                             (metadata f'));
         mret r) l = (Ok r, l') ∧ coherent l' (rs ++ [r]).
Proof.
  intros (He & (f' & Hf' & Hd & Hm & Hb) & (f'' & es & Hf'' & Hi & Hes & _)) Hf Hr Hbig.
  assert (f' = f) as -> by congruence. clear f'' Hf'' Hf'. rewrite app_nil_r in Hd.
  set (f1 := write_data (f_data f ++ frame_of r) l f).
  set (l1 := set_log (Some f1) l).
  assert (append_bytes (frame_of r) l = (Ok tt, l1)) as Happ.
  { unfold append_bytes. by mrun (log_file_run _ _ Hf). }
  assert (log_is l1 (rs ++ [r]) []) as Hl1.
  { exists f1. split; [done |]. rewrite app_nil_r. cbn. rewrite Hd.
    rewrite log_bytes_app, log_bytes_cons in *. change (log_bytes []) with (@nil Byte.byte) in *.
    rewrite app_nil_r in *. destruct He as (?&?&_). destruct Hm as (?&?&_). done. }
  mrun Happ. mrun (log_file_run l1 f1 eq_refl). mrun (append_index_run l1 es
    (IndexRecord_new (blen (f_data f)) (blen (f_data f1)) (frame_id r) (metadata f1)) Hi).
  eexists. split; [done |].
  pose proof (coherent_extend l1 f1 rs [r] es He eq_refl Hl1 Hes ltac:(done)) as Hco.
  cbn [decoded map decoded_at start end_ frame_hash] in Hco.
  cbn [f_data write_data f1] in *. by rewrite Hd, blen_app.
Qed.

Lemma head_is_Some rs id r : head_is rs id = Some r → last rs = Some r ∧ snapshot_id r = id.
Proof. unfold head_is. destruct (last rs); [| done]. case_decide; naive_solver. Qed.

(** [open_log] finds the log of a recoverable state as it is. *)
Lemma open_log_run l f : log l = Some f → open_log l = (Ok f, l).
Proof. unfold open_log. by intros ->. Qed.

(** The part of an operation that precedes its own work: open the log and
    check the index. *)
Lemma open_ensure_run l rs :
  well_chained rs → recoverable l rs →
  ∃ l1 f, (∀ A (k : M RefLog A), (_ ← open_log; _ ← ensure_index; k) l = k l1) ∧
          coherent l1 rs ∧ log l1 = Some f ∧ f_data f = log_bytes rs.
Proof.
  intros Hc Hre. destruct (ensure_index_run l rs Hc Hre) as (l1 & Hen & Hco).
  destruct Hre as (_ & (tail & _ & f & Hf & _) & _).
  pose proof Hco as (_ & (f1 & Hf1 & Hd1 & _) & _). rewrite app_nil_r in Hd1.
  exists l1, f1. split; [| done]. intros A k. mrun (open_log_run _ _ Hf). by mrun Hen.
Qed.

(** [append] of the abstract log. *)
Lemma log_append_run l rs id at_ lab trg :
  recoverable l rs → well_chained rs →
  let r := next_record rs id at_ lab trg in
  blen (log_bytes (rs ++ [r])) < 2 ^ 62 →
  ∃ l', match head_is rs id with
        | Some r0 => append id at_ lab trg l = (Ok r0, l') ∧ coherent l' rs
        | None =>
          if decide (blen (to_vec r) ≤ MAX_RECORD)
          then append id at_ lab trg l = (Ok r, l') ∧ coherent l' (rs ++ [r])
          else append id at_ lab trg l = (Err "reference record is too large", l') ∧ coherent l' rs
        end.
Proof.
  intros Hre Hc r Hbig. unfold append.
  destruct (open_ensure_run l rs Hc Hre) as (l1 & f & Hk & Hco & Hf & Hd). rewrite Hk. clear Hk.
  destruct (last_frame_run l1 rs f Hco Hc Hf) as (es & Htail & Hlast).
  mrun Htail. mrun (log_file_run _ _ Hf).
  assert (∃ o, (match last (drop (length es - 1) es) with
     | Some entry => lift (read_frame_at (f_data f) (ix_start entry))
     | None => mret None
     end) l1 = (Ok o, l1) ∧ record <$> o = last rs ∧ frame_hash <$> o = frame_id <$> last rs) as (o & Ho & Hrec & Hfh).
  { rewrite Hlast. destruct (last rs) as [r0|] eqn:Hl; eexists; (split; [done |]); [| done].
    split; [by rewrite <- fmap_last; change (fmap record) with (map record); rewrite map_record_decoded |].
    destruct rs as [|r1 rs _] using rev_ind; [done |]. rewrite last_snoc in Hl.
    injection Hl as ->. rewrite decoded_app. cbn [decoded]. by rewrite last_snoc. }
  mrun Ho. clear Hlast Ho.
  assert (mkRefRecord (match o with Some d => sequence (record d) + 1 | None => 1 end) id at_ lab trg
            (match o with Some d => frame_hash d | None => zero_id end) = r) as Hr.
  { subst r. unfold next_record, last_id.
    destruct o as [d|]; cbn in Hrec, Hfh.
    - rewrite <- Hrec in *. cbn in Hfh. injection Hfh as ->. f_equal.
      destruct rs as [|r1 rs _] using rev_ind; [done |]. rewrite last_snoc in Hrec.
      injection Hrec as ->. destruct Hc as [Hc _]. rewrite (chain_sequence _ _ Hc), length_app.
      cbn [length]. lia.
    - rewrite <- Hrec. symmetry in Hrec. apply last_None in Hrec as ->. done. }
  rewrite Hr. clear Hr.
  assert (∀ msg, ∃ l', (if decide (blen (to_vec r) ≤ MAX_RECORD)
     then (_ ← mensure (blen (to_vec r) <=? MAX_RECORD) msg;
           _ ← append_bytes (frame_of r);
           f' ← log_file;
           _ ← append_index (IndexRecord_new (blen (f_data f)) (blen (f_data f')) (frame_id r)
                               (metadata f'));
           mret r) l1 = (Ok r, l') ∧ coherent l' (rs ++ [r])
     else (_ ← mensure (blen (to_vec r) <=? MAX_RECORD) msg;
           _ ← append_bytes (frame_of r);
           f' ← log_file;
           _ ← append_index (IndexRecord_new (blen (f_data f)) (blen (f_data f')) (frame_id r)
                               (metadata f'));
           mret r) l1 = (Err msg, l') ∧ coherent l' rs)) as Hw.
  { intros msg. case_decide as Hfit.
    - rewrite mensure_bind by by apply Z.leb_le. by apply append_write_run.
    - exists l1. split; [| done]. unfold mensure. rewrite (proj2 (Z.leb_gt _ _)) by lia. done. }
  specialize (Hw "reference record is too large"%string).
  unfold head_is. rewrite <- Hrec. destruct o as [d|]; cbn [fmap option_fmap option_map]; [| done].
  destruct (decide (snapshot_id (record d) = id)); [by exists l1 | done].
Qed.

(** C11 [append] in any recoverable state is the append of the abstract log:
    nothing when the head already names the snapshot, otherwise one record with
    the next sequence number and the hash of the frame before it; an oversized
    record is refused and the log keeps its contents. The index is current
    afterwards in every case. *)
Theorem append_spec l rs id at_ lab trg :
  recoverable l rs → well_chained rs →
  let r := next_record rs id at_ lab trg in
  blen (log_bytes (rs ++ [r])) < 2 ^ 62 →
  ∃ l', match head_is rs id with
        | Some r0 => append id at_ lab trg l = (Ok r0, l') ∧ coherent l' rs
        | None =>
          if decide (blen (to_vec r) ≤ MAX_RECORD)
          then append id at_ lab trg l = (Ok r, l') ∧ coherent l' (rs ++ [r])
          else append id at_ lab trg l = (Err "reference record is too large", l') ∧ coherent l' rs
        end.
Proof. apply log_append_run. Qed.

(** ** Reading the whole log in order *)

Fixpoint res_foldl {A} (visit : RefRecord → A → Res A) (rs : list RefRecord) (a : A) : Res A :=
  match rs with
  | [] => Ok a
  | r :: rs => a ← visit r a; res_foldl visit rs a
  end.

Lemma for_each_loop_run {A} (visit : RefRecord → A → Res A) fuel pre rs prev seq a :
  chain prev seq rs → Forall fits rs → (length rs < fuel)%nat →
  for_each_loop visit fuel (pre ++ log_bytes rs) (blen pre) prev seq a = res_foldl visit rs a.
Proof.
  revert fuel pre prev seq a.
  induction rs as [|r rs IH]; intros [|fuel] pre prev seq a Hc Hf Hfuel; try (simpl in *; lia).
  - cbn [for_each_loop]. change (log_bytes []) with (@nil Byte.byte).
    by rewrite app_nil_r, Z.ltb_irrefl.
  - apply Forall_cons in Hf as [Hr Hf]. destruct Hc as (Hp & Hs & Hc).
    cbn [for_each_loop res_foldl]. rewrite log_bytes_cons, (proj2 (Z.ltb_lt _ _)).
    2: { pose proof (frame_of_pos r). blia. }
    rewrite read_frame_at_app by done. cbn [mbind Res_bind with_context record decoded_at].
    rewrite (proj2 (Z.eqb_eq _ _)), bool_decide_true by done. cbn [ensure mbind Res_bind].
    destruct (visit r a) as [a'|]; [| done]. cbn.
    rewrite <- blen_app, app_assoc. apply IH; [done | done | simpl in Hfuel; lia].
Qed.

Lemma for_each_record_run {A} (visit : RefRecord → A → Res A) a l rs :
  well_chained rs → recoverable l rs →
  ∃ l', for_each_record visit a l = (res_foldl visit rs a, l') ∧ coherent l' rs.
Proof.
  intros Hc Hre. unfold for_each_record, path_exists. mpure.
  pose proof Hre as (_ & (tail & _ & f0 & Hf0 & _) & _).
  rewrite bool_decide_true by by rewrite Hf0. cbn [negb].
  destruct (open_ensure_run l rs Hc Hre) as (l1 & f & Hk & Hco & Hf & Hd). rewrite Hk.
  exists l1. split; [| done]. mrun (log_file_run _ _ Hf). unfold lift. f_equal.
  rewrite Hd. destruct Hc as [Hch Hfits]. pose proof (length_log_bytes rs).
  apply (for_each_loop_run visit _ []); [done | done | lia].
Qed.

(** The result of [find]: the last record with that snapshot. *)
Fixpoint last_with (id : ObjectId) (rs : list RefRecord) (found : option RefRecord)
    : option RefRecord :=
  match rs with
  | [] => found
  | r :: rs => last_with id rs (if decide (snapshot_id r = id) then Some r else found)
  end.

Lemma last_with_spec id rs found :
  last_with id rs found =
  match last (base.filter (λ r, snapshot_id r = id) rs) with Some r => Some r | None => found end.
Proof.
  revert found. induction rs as [|r rs IH]; intros found; cbn [last_with]; [done |].
  rewrite IH. destruct (decide (snapshot_id r = id)) as [Hr|Hr].
  - rewrite filter_cons_True by done. rewrite last_cons. by destruct (last _).
  - by rewrite filter_cons_False.
Qed.

Lemma res_foldl_find id rs found :
  res_foldl (λ r found, Ok (if decide (snapshot_id r = id) then Some r else found)) rs found
  = Ok (last_with id rs found).
Proof. revert found. induction rs as [|r rs IH]; intros found; cbn; [done | by rewrite IH]. Qed.

(** ** Reads by sequence number *)

Lemma sequence_lookup prev seq rs k r :
  chain prev seq rs → rs !! k = Some r → sequence r = seq + Z.of_nat k.
Proof.
  intros Hc Hk. rewrite <- (take_drop_middle rs k r Hk) in Hc.
  apply chain_app in Hc as [_ (_ & Hs & _)].
  apply lookup_lt_Some in Hk. rewrite length_take in Hs. lia.
Qed.

Lemma decoded_lookup s rs k r :
  rs !! k = Some r → decoded s rs !! k = Some (decoded_at (s + blen (log_bytes (take k rs))) r).
Proof.
  intros Hk. rewrite <- (take_drop_middle rs k r Hk) at 1. rewrite decoded_app. cbn [decoded].
  rewrite lookup_app_r; rewrite length_decoded, length_take;
    pose proof (lookup_lt_Some _ _ _ Hk); [| lia].
  replace (k - k `min` length rs)%nat with 0%nat by lia. done.
Qed.

(** ** Frames of an arbitrary file *)

(** [frames f off prev seq ds off']: from [off], whole and chained frames [ds]
    up to [off']. *)
Inductive frames (file : bytes) : Z → ObjectId → Z → list DecodedRecord → Z → Prop :=
| frames_nil off prev seq : frames file off prev seq [] off
| frames_cons off prev seq d ds off' :
    read_frame_at file off = Ok (Some d) → previous_frame (record d) = prev →
    sequence (record d) = seq → frames file (end_ d) (frame_hash d) (seq + 1) ds off' →
    frames file off prev seq (d :: ds) off'.

(** The next frame of the chain, if the file has one. *)
Definition next_frame (file : bytes) (off : Z) (prev : ObjectId) (seq : Z) (d : DecodedRecord) : Prop :=
  read_frame_at file off = Ok (Some d) ∧ previous_frame (record d) = prev ∧ sequence (record d) = seq.

Definition end_state (ds : list DecodedRecord) : ObjectId * Z :=
  (match last ds with Some d => frame_hash d | None => zero_id end, 1 + Z.of_nat (length ds)).

Lemma frames_snoc file off prev seq ds off' d :
  frames file off prev seq ds off' →
  next_frame file off' (match last ds with Some d => frame_hash d | None => prev end)
    (seq + Z.of_nat (length ds)) d →
  frames file off prev seq (ds ++ [d]) (end_ d).
Proof.
  induction 1 as [off prev seq|off prev seq d' ds off' Hr Hp Hs Hfr IH]; intros (Hr' & Hp' & Hs').
  - cbn in *. econstructor; [done | done | lia | constructor].
  - cbn [app]. econstructor; [done | done | done |]. apply IH. split; [done |].
    rewrite last_cons in Hp'. split; [by destruct (last ds) |].
    cbn [length] in Hs'. lia.
Qed.

Lemma end_state_snoc ds d : end_state (ds ++ [d]) = (frame_hash d, (end_state ds).2 + 1).
Proof. unfold end_state. rewrite last_snoc, length_app. cbn. f_equal. lia. Qed.

(** The decision [repair_suffix] takes at one offset. *)
Lemma repair_valid_spec present durable file off prev seq l (b : bool) l' :
  (match read_frame_at file off with
   | Ok (Some d) =>
     if (sequence (record d) =? seq) && bool_decide (previous_frame (record d) = prev)
     then if off <? durable then mret true else lift (present (snapshot_id (record d)))
     else mret false
   | _ => mret false
   end : M RefLog bool) l = (Ok b, l') →
  l' = l ∧
  if b then ∃ d, next_frame file off prev seq d ∧ (durable ≤ off → present (snapshot_id (record d)) = Ok true)
  else ∀ d, next_frame file off prev seq d → durable ≤ off ∧ present (snapshot_id (record d)) = Ok false.
Proof.
  unfold next_frame. destruct (read_frame_at file off) as [[d|]|] eqn:E;
    [| intros [= <- <-]; split; [done |]; intros d (? & _); congruence ..].
  destruct (sequence (record d) =? seq) eqn:Es; cbn [andb].
  2: { intros [= <- <-]. split; [done |]. intros d' ([= <-] & _ & ?). lia. }
  case_bool_decide as Hp.
  2: { intros [= <- <-]. split; [done |]. intros d' ([= <-] & ? & ?). done. }
  apply Z.eqb_eq in Es. destruct (off <? durable) eqn:Eo.
  - intros [= <- <-]. split; [done |]. exists d. split; [done |]. lia.
  - unfold lift. intros [= Hb <-]. split; [done |].
    destruct b; [by exists d |]. intros d' ([= <-] & _). split; [lia | done].
Qed.

(** Where [repair_suffix] ends, from any point of its loop. *)
Definition repaired (present : ObjectId → Res bool) (durable : Z) (l : RefLog) (f : DiskFile)
    (ch : bool) (l' : RefLog) : Prop :=
  ∃ ds off, frames (f_data f) 0 zero_id 1 ds off ∧
    (∀ d, d ∈ ds → durable ≤ start d → present (snapshot_id (record d)) = Ok true) ∧
    if ch then
      durable ≤ off < blen (f_data f) ∧
      (∀ d, next_frame (f_data f) off (end_state ds).1 (end_state ds).2 d →
            present (snapshot_id (record d)) = Ok false) ∧
      let f' := write_data (take (Z.to_nat off) (f_data f)) l f in
      l' = set_index (Some (index_bytes (map (λ d,
             IndexRecord_new (start d) (end_ d) (frame_hash d) (metadata f')) ds)))
             (set_log (Some f') l)
    else off = blen (f_data f) ∧ l' = l.

Lemma repair_loop_inv present durable fuel f l off acc ch l' :
  log l = Some f → 0 ≤ off ≤ blen (f_data f) → frames (f_data f) 0 zero_id 1 acc off →
  (∀ d, d ∈ acc → durable ≤ start d → present (snapshot_id (record d)) = Ok true) →
  repair_loop present durable fuel off (end_state acc).1 (end_state acc).2 acc l = (Ok ch, l') →
  repaired present durable l f ch l'.
Proof.
  intros Hf. revert off acc. induction fuel as [|fuel IH]; intros off acc Hoff Hfr Hacc; [done |].
  cbn [repair_loop]. mrun (log_file_run _ _ Hf).
  destruct (off <? blen (f_data f)) eqn:Elt.
  2: { intros [= <- <-]. exists acc, off. split_and!; [done | done | lia | done]. }
  intros (b & l1 & Hb & Hrun)%M_bind_ok.
  apply repair_valid_spec in Hb as [-> Hb]. destruct b; cbn [negb] in Hrun.
  - destruct Hb as (d & (Hd & Hp & Hs) & Hpr). rewrite Hd in Hrun.
    revert Hrun. mpure. cbn [with_context]. mpure. intros Hrun.
    apply read_frame_at_inv in Hd as Hd'; [| lia]. destruct Hd' as [Hst Hen].
    apply (IH (end_ d) (acc ++ [d])).
    + lia.
    + by eapply frames_snoc.
    + intros d' [Hd'|Hd']%elem_of_app; [by apply Hacc |].
      apply list_elem_of_singleton in Hd' as ->. rewrite Hst. apply Hpr.
    + by rewrite end_state_snoc.
  - apply M_bind_ok in Hrun as ([] & l2 & Hen & Hrun).
    unfold mensure, lift in Hen. injection Hen as Hen <-. apply ensure_ok in Hen.
    revert Hrun. mrun (set_len_run l f off Hf).
    mrun (rewrite_index_run (set_log (Some (write_data (take (Z.to_nat off) (f_data f)) l f)) l)
            _ acc eq_refl).
    intros [= <- <-]. exists acc, off. split; [done |]. split; [done |].
    split; [lia |]. split; [| done]. intros d Hd. by apply Hb.
Qed.

Lemma repair_loop_total present durable fuel f l off acc :
  log l = Some f → 0 ≤ off ≤ blen (f_data f) → frames (f_data f) 0 zero_id 1 acc off →
  (∀ id, is_ok (present id) = true) →
  (∀ ds o, frames (f_data f) 0 zero_id 1 ds o → o < durable →
     ∃ d, next_frame (f_data f) o (end_state ds).1 (end_state ds).2 d) →
  blen (f_data f) - off < Z.of_nat fuel →
  ∃ ch l', repair_loop present durable fuel off (end_state acc).1 (end_state acc).2 acc l = (Ok ch, l').
Proof.
  intros Hf. revert off acc.
  induction fuel as [|fuel IH]; intros off acc Hoff Hfr Hpr Hdur Hfuel; [lia |].
  cbn [repair_loop]. mrun (log_file_run _ _ Hf).
  destruct (off <? blen (f_data f)) eqn:Elt; [| by eexists _, _].
  match goal with |- context [mbind _ ?m l] => destruct (m l) as [[b|e] l1] eqn:Hb end.
  2: { exfalso. revert Hb. clear -Hpr.
       destruct (read_frame_at _ _) as [[d|]|]; [| done..].
       destruct (_ && _); [| done]. destruct (off <? durable); [done |].
       pose proof (Hpr (snapshot_id (record d))) as Hd. unfold lift.
       destruct (present _); done. }
  mrun Hb. apply repair_valid_spec in Hb as [-> Hb]. destruct b; cbn [negb].
  - destruct Hb as (d & (Hd & Hp & Hs) & _). rewrite Hd. mpure. cbn [with_context]. mpure.
    apply read_frame_at_inv in Hd as Hd'; [| lia]. destruct Hd' as [Hst Hen].
    destruct (IH (end_ d) (acc ++ [d])) as (ch & l' & Hrun); try done.
    + lia.
    + by eapply frames_snoc.
    + lia.
    + exists ch, l'. by rewrite end_state_snoc in Hrun.
  - rewrite mensure_bind.
    2: { apply Z.leb_le. destruct (decide (durable ≤ off)); [done |].
         destruct (Hdur acc off Hfr) as [d Hd]; [lia |]. apply Hb in Hd. lia. }
    mrun (set_len_run l f off Hf).
    mrun (rewrite_index_run (set_log (Some (write_data (take (Z.to_nat off) (f_data f)) l f)) l)
            _ acc eq_refl).
    by eexists _, _.
Qed.

(** ** Properties *)

Lemma recent_run l rs limit :
  well_chained rs → recoverable l rs → 0 < limit →
  ∃ l', recent limit l = (Ok (take (Z.to_nat limit) (reverse rs)), l') ∧ coherent l' rs.
Proof.
  intros Hc Hre Hlim. unfold recent, path_exists. mpure.
  pose proof Hre as (_ & (tail & _ & f0 & Hf0 & _) & _).
  rewrite bool_decide_true by by rewrite Hf0.
  rewrite (proj2 (Z.eqb_neq _ _)) by lia. cbn [negb orb].
  destruct (open_ensure_run l rs Hc Hre) as (l1 & f & Hk & Hco & Hf & Hd). rewrite Hk.
  exists l1. split; [| done].
  by rewrite (try_bind _ _ _ _ _ (read_recent_run l1 rs limit Hco Hc Hlim)).
Qed.

Lemma head_run l rs : well_chained rs → recoverable l rs →
  ∃ l', head_ l = (Ok (last rs), l') ∧ coherent l' rs.
Proof.
  intros Hc Hre. unfold head_. destruct (recent_run l rs 1 Hc Hre ltac:(done)) as (l' & Hrun & Hco). exists l'. split; [| done].
  mrun Hrun. unfold mret, M_ret. do 2 f_equal. change (Z.to_nat 1) with 1%nat.
  destruct (rs) as [|r rs'] using rev_ind; [done |]. by rewrite reverse_snoc, last_snoc.
Qed.

(** C12 [recent] of a log in any recoverable state (torn tail, missing, stale
    or damaged index) returns the newest [limit] records, newest first, and
    leaves the log whole and its index current. *)
Theorem recent_spec l rs limit :
  well_chained rs → recoverable l rs → 0 < limit →
  ∃ l', recent limit l = (Ok (take (Z.to_nat limit) (reverse rs)), l') ∧ coherent l' rs.
Proof. apply recent_run. Qed.

(** [records] reads the authoritative log alone: whatever the index
    holds, it returns every record, drops a torn tail and rewrites the index. *)
Theorem records_spec l rs tail :
  well_chained rs → torn_tail tail → env_wf l → log_is l rs tail →
  ∃ l', records l = (Ok rs, l') ∧ coherent l' rs.
Proof.
  intros Hc Ht He Hl. unfold records. pose proof Hl as (f & Hf & Hd & _).
  mrun (open_log_run _ _ Hf). rewrite Hd, read_whole_log by done. mpure.
  destruct (truncate_tail l rs tail He Hl) as (l1 & Ht1 & He1 & Hl1 & _). mrun Ht1.
  destruct (rewrite_index_coherent l1 rs He1 Hl1) as (l2 & Hr & Hco & _). mrun Hr.
  rewrite map_record_decoded. by exists l2.
Qed.

(** [find] returns the last record of the log that names the snapshot. *)
Theorem find_spec l rs id :
  well_chained rs → recoverable l rs →
  ∃ l', find id l = (Ok (last (base.filter (λ r, snapshot_id r = id) rs)), l') ∧ coherent l' rs.
Proof.
  intros Hc Hre. unfold find.
  destruct (for_each_record_run (λ r found, Ok (if decide (snapshot_id r = id) then Some r else found))
              None l rs Hc Hre) as (l' & -> & Hco).
  exists l'. split; [| done]. rewrite res_foldl_find, last_with_spec. by destruct (last _).
Qed.

(** [records_at_sequences] is lookup in the log by position, and an error
    for a sequence number outside it. *)
Theorem records_at_sequences_spec l rs ss :
  well_chained rs → recoverable l rs → ss ≠ [] →
  ∃ l', records_at_sequences ss l =
          (match mapM (λ s, if 0 <? s then rs !! Z.to_nat (s - 1) else None) ss with
           | Some out => Ok out
           | None => Err "reference sequence is outside the indexed log"
           end, l') ∧ coherent l' rs.
Proof.
  intros Hc Hre Hss. unfold records_at_sequences, path_exists. mpure.
  pose proof Hre as (_ & (tail & _ & f0 & Hf0 & _) & _).
  rewrite bool_decide_false, bool_decide_true by (first [done | by rewrite Hf0]). cbn [negb orb].
  destruct (open_ensure_run l rs Hc Hre) as (l1 & f & Hk & Hco & Hf & Hd). rewrite Hk.
  exists l1. split; [| done]. mrun (log_file_run _ _ Hf). mpure. clear Hre Hf0 f0 tail Hk Hss l.
  destruct Hco as (_ & (f' & Hf' & _ & _ & Hb) & (f'' & es & _ & Hi & Hes & _)).
  assert (f' = f) as -> by congruence. rewrite Hd in Hb.
  pose proof (index_small _ _ Hes Hb) as [Hib _]. pose proof (entries_wf _ _ Hes) as Hwf.
  rewrite Hi. cbn [with_context]. mpure. rewrite index_count by done. unfold lift. f_equal.
  destruct Hc as [Hch Hfits]. pose proof (Forall2_length _ _ _ Hes) as Hlen.
  rewrite length_decoded in Hlen. rewrite <- Hlen.
  induction ss as [|s ss IH]; [done |]. cbn [res_map mapM].
  destruct (0 <? s) eqn:Es; cbn [andb]; [| done].
  destruct (s <=? Z.of_nat (length rs)) eqn:El; cbn [ensure mbind Res_bind].
  2: { rewrite lookup_ge_None_2 by lia. done. }
  destruct (lookup_lt_is_Some_2 rs (Z.to_nat (s - 1))) as [r Hr]; [lia |]. rewrite Hr.
  pose proof (decoded_lookup 0 rs _ r Hr) as Hdr.
  destruct (Forall2_lookup_l _ _ _ _ _ Hes Hdr) as (e & He & Hs & Hee & Hh & _).
  replace (INDEX_MAGIC_LEN + (s - 1) * INDEX_RECORD_LEN)
    with (INDEX_MAGIC_LEN + Z.of_nat (Z.to_nat (s - 1)) * INDEX_RECORD_LEN)
    by (change INDEX_RECORD_LEN with 128; lia).
  rewrite <- (app_nil_r (index_bytes es)), (read_index_entry es [] _ e Hwf He), app_nil_r.
  cbn [mbind Res_bind]. rewrite Hs, Hd.
  pose proof (read_decoded rs [] [] _ Hfits ltac:(by eapply list_elem_of_lookup_2)) as Hread.
  rewrite app_nil_r in Hread. cbn [app] in Hread. rewrite Hread.
  cbn [mbind Res_bind with_context decoded_at record end_ frame_hash]. rewrite Hee, Hh.
  rewrite (sequence_lookup _ _ _ _ _ Hch Hr). cbn [decoded_at end_ frame_hash].
  rewrite (proj2 (Z.eqb_eq _ s)), Z.eqb_refl, bool_decide_true by (first [done | lia]).
  cbn [andb ensure mbind Res_bind]. rewrite <- Hd, IH.
  cbn [option_bind mbind]. by destruct (mapM _ ss).
Qed.

(** C13 [repair_suffix] of any file returns, when the durable prefix is whole
    and the presence test does not fail, and it keeps exactly the frames up to
    the first that is broken or, past the durable boundary, names an absent
    object: nothing below the boundary is ever cut, and the index is rebuilt
    for what is kept. *)
Theorem repair_suffix_spec present durable l f :
  log l = Some f → durable ≤ blen (f_data f) →
  (∀ id, is_ok (present id) = true) →
  (∀ ds o, frames (f_data f) 0 zero_id 1 ds o → o < durable →
     ∃ d, next_frame (f_data f) o (end_state ds).1 (end_state ds).2 d) →
  ∃ ch l', repair_suffix durable present l = (Ok ch, l') ∧ repaired present durable l f ch l'.
Proof.
  intros Hf Hlen Hpr Hdur. unfold repair_suffix. mrun (open_log_run _ _ Hf).
  rewrite mensure_bind by by apply Z.leb_le. change zero_id with (end_state []).1.
  change 1 with (end_state []).2 at 1.
  pose proof (blen_nonneg (f_data f)).
  destruct (repair_loop_total present durable (S (length (f_data f))) f l 0 [] Hf
              ltac:(lia) ltac:(constructor) Hpr Hdur ltac:(unfold blen; lia)) as (ch & l' & Hrun).
  exists ch, l'. split; [exact Hrun |]. eapply repair_loop_inv; [done | | | | exact Hrun].
  - lia.
  - constructor.
  - by intros d ?%not_elem_of_nil.
Qed.
End RefsSpec.

(** ** Witnesses: a log of two records after a crash *)

#[export] Instance RefRecord_eq_dec : EqDecision RefRecord.
Proof. solve_decision. Defined.

#[export] Instance RefRecord_countable : Countable RefRecord.
Proof.
  refine (inj_countable'
    (λ r, (sequence r, snapshot_id r, sealed_at r, label r, trigger r, previous_frame r))
    (λ '(a, b, c, d, e, f), mkRefRecord a b c d e f) _).
  by intros [].
Defined.

Module RefsExample.
#[local] Existing Instance toy_blake3.
#[local] Existing Instance toy_blake3_ok.
#[local] Existing Instance toy_json.
#[local] Existing Instance toy_json_ok.

Definition id1 : ObjectId := replicate 32 Byte.x01.
Definition id2 : ObjectId := replicate 32 Byte.x02.
Definition r1 : RefRecord := next_record [] id1 10 None Manual.
Definition r2 : RefRecord := next_record [r1] id2 11 (Some (b_ "x")) Watcher.
Definition log12 : list RefRecord := [r1; r2].

(** An append was cut after 30 bytes and the index was lost. *)
Definition crash_tail : bytes := take 30 (frame_of r1).
Definition crash_file : DiskFile := mkFile (log_bytes log12 ++ crash_tail) 1 2 (5, 6) (5, 6).
Definition crashed : RefLog := mkRefLog (Some crash_file) None (7, 8) (1, 3).

Lemma crash_torn : torn_tail crash_tail.
Proof. exists (to_vec r1), 30%nat. vm_compute. done. Qed.
Lemma log12_chained : well_chained log12.
Proof.
  split; [by vm_compute |].
  constructor; [by vm_compute | constructor; [by vm_compute | done]].
Qed.
Lemma crashed_log : log_is crashed log12 crash_tail.
Proof. exists crash_file. split_and!; by vm_compute. Qed.
Lemma crashed_env : env_wf crashed.
Proof. by vm_compute. Qed.
Lemma crashed_recoverable : recoverable crashed log12.
Proof.
  split; [exact crashed_env |]. split; [exists crash_tail; split; [exact crash_torn | exact crashed_log] |].
  by left.
Qed.

Lemma recent_spec_witness :
  ∃ l', recent 5 crashed = (Ok [r2; r1], l') ∧ coherent l' log12.
Proof.
  exact (recent_spec crashed log12 5 log12_chained crashed_recoverable ltac:(done)).
Defined.

Lemma records_spec_witness : ∃ l', records crashed = (Ok log12, l') ∧ coherent l' log12.
Proof.
  exact (records_spec crashed log12 crash_tail log12_chained crash_torn crashed_env crashed_log).
Defined.

Lemma find_spec_witness : ∃ l', find id1 crashed = (Ok (Some r1), l') ∧ coherent l' log12.
Proof. exact (find_spec crashed log12 id1 log12_chained crashed_recoverable). Defined.

Lemma records_at_sequences_spec_witness :
  ∃ l', records_at_sequences [2; 1] crashed = (Ok [r2; r1], l') ∧ coherent l' log12.
Proof.
  exact (records_at_sequences_spec crashed log12 [2; 1] log12_chained crashed_recoverable ltac:(done)).
Defined.

Lemma head_is_id1 : head_is log12 id1 = None.
Proof. by vm_compute. Qed.
Lemma fits_r3 : blen (to_vec (next_record log12 id1 12 None Manual)) ≤ MAX_RECORD.
Proof. by vm_compute. Qed.

Lemma append_spec_witness :
  ∃ l', append id1 12 None Manual crashed = (Ok (next_record log12 id1 12 None Manual), l') ∧
        coherent l' (log12 ++ [next_record log12 id1 12 None Manual]).
Proof.
  destruct (append_spec crashed log12 id1 12 None Manual crashed_recoverable log12_chained
              ltac:(by vm_compute)) as [l' Hl'].
  exists l'. rewrite head_is_id1, (decide_True _ _ fits_r3) in Hl'. exact Hl'.
Defined.

(** Nothing is durable yet and the second snapshot was lost. *)
Definition present1 (id : ObjectId) : Res bool := Ok (bool_decide (id = id1)).
Lemma repair_suffix_spec_witness :
  ∃ ch l', repair_suffix 0 present1 crashed = (Ok ch, l') ∧ repaired present1 0 crashed crash_file ch l'.
Proof.
  apply (repair_suffix_spec present1 0 crashed crash_file); [done | by vm_compute | done |].
  intros ds o Hfr Ho. exfalso. revert Ho. apply Z.le_ngt.
  assert (∀ off prev seq ds o, frames (f_data crash_file) off prev seq ds o → 0 ≤ off → 0 ≤ o) as Hge.
  { clear. induction 1 as [|off prev seq d ds off' Hd _ _ _ IH]; [done |]. intros Hoff.
    apply IH. apply read_frame_at_inv in Hd; lia. }
  by apply (Hge _ _ _ _ _ Hfr).
Defined.
End RefsExample.
