(* ===== verification/Retention.v ===== *)
(** * Retention: which snapshots a timeline keeps ([furrow-core/src/retention.rs])

    The retention log of a workspace is a chain of checksummed states, the same
    frame as the reference log. A state lists the retained ranges of the
    evaluated history and the pins. The file's model is its bytes; the reference
    log it plans from is the [Refs] model, and the two are threaded together. *)

From S2P Require Import Prelude Model Framing Refs.
#[local] Open Scope Z_scope.

Definition MAGIC : bytes := b_ "AGRT".
Definition MAX_RECORD : Z := 4 * 1024 * 1024.
Definition HOUR : Z := 60 * 60.
Definition DAY : Z := 24 * HOUR.
Definition WEEK : Z := 7 * DAY.
Definition ALL_SNAPSHOTS_WINDOW : Z := DAY.
Definition HOURLY_WINDOW : Z := 7 * DAY.
Definition DAILY_WINDOW : Z := 90 * DAY.

Record SequenceRange := mkRange { first : Z; last_ : Z }.
Record Pin := mkPin { pin_sequence : Z; pin_snapshot : ObjectId }.

Record RetentionState := mkState {
  event_sequence : Z;
  evaluated_through : Z;
  evaluated_at : Z;
  retained : list SequenceRange;
  pins : list Pin;
  prev_frame : ObjectId;
}.

Inductive Tier := Hour | Day | Week.
Record Candidate := mkCandidate { cand_sealed_at : Z; cand_sequence : Z }.

#[export] Instance SequenceRange_eq_dec : EqDecision SequenceRange.
Proof. solve_decision. Defined.
#[export] Instance Pin_eq_dec : EqDecision Pin.
Proof. solve_decision. Defined.
#[export] Instance RetentionState_eq_dec : EqDecision RetentionState.
Proof. solve_decision. Defined.
#[export] Instance Tier_eq_dec : EqDecision Tier.
Proof. solve_decision. Defined.
#[export] Instance Tier_countable : Countable Tier.
Proof.
  refine (inj_countable (λ t, match t with Hour => 0 | Day => 1 | Week => 2 end%nat)
            (λ n, [Hour; Day; Week] !! n) _).
  by intros [].
Defined.

Definition initial : RetentionState := mkState 0 0 0 [] [] zero_id.

(** ** Queries of a state *)

Definition range_order (sequence : Z) (range : SequenceRange) : comparison :=
  if sequence <? first range then Gt
  else if last_ range <? sequence then Lt
  else Eq.

Definition retains_in_ranges (st : RetentionState) (sequence : Z) : bool :=
  bool_decide (binary_search_by (range_order sequence) (retained st) ≠ None).

Definition is_pinned (st : RetentionState) (id : ObjectId) : bool :=
  existsb (λ pin, bool_decide (pin_snapshot pin = id)) (pins st).

Definition retains (st : RetentionState) (sequence : Z) (id : ObjectId) : bool :=
  (evaluated_through st <? sequence)
  || retains_in_ranges st sequence
  || bool_decide (binary_search_by (λ pin, Z.compare (pin_sequence pin) sequence) (pins st) ≠ None)
  || existsb (λ pin, bool_decide (pin_snapshot pin = id)) (pins st).

(** The sums are on [u64]. *)
Definition retained_count_through (st : RetentionState) : Z :=
  foldl (λ n range, as_u64 (n + as_u64 (last_ range - first range + 1))) 0 (retained st).

Definition retained_count (st : RetentionState) (head : Z) : Z :=
  let count := retained_count_through st in
  let count := if evaluated_through st <? head
               then sat_add count (head - evaluated_through st) else count in
  foldl (λ count pin,
    if (pin_sequence pin <=? evaluated_through st) && negb (retains_in_ranges st (pin_sequence pin))
    then sat_add count 1 else count) count (pins st).

(** [BinaryHeap<(u64, u64)>]: [pop] removes the greatest pair. *)
Definition pair_le (a b : Z * Z) : bool := (a.1 <? b.1) || ((a.1 =? b.1) && (a.2 <=? b.2)).
Fixpoint heap_pop (h : list (Z * Z)) : option ((Z * Z) * list (Z * Z)) :=
  match h with
  | [] => None
  | x :: h =>
    match heap_pop h with
    | None => Some (x, [])
    | Some (y, rest) => if pair_le y x then Some (x, y :: rest) else Some (y, x :: rest)
    end
  end.

Fixpoint recent_loop (fuel : nat) (limit : nat) (intervals : list (Z * Z)) (result : list Z)
    (previous : option Z) : list Z :=
  match fuel with
  | O => result
  | S fuel =>
    if (length result <? limit)%nat then
      match heap_pop intervals with
      | None => result
      | Some ((sequence, first), intervals) =>
        if first <=? sequence then
          let '(result, previous) :=
            if decide (previous = Some sequence) then (result, previous)
            else (result ++ [sequence], Some sequence) in
          let intervals :=
            if first <? sequence then (sequence - 1, first) :: intervals else intervals in
          recent_loop fuel limit intervals result previous
        else recent_loop fuel limit intervals result previous
      end
    else result
  end.

Definition recent_intervals (st : RetentionState) (head : Z) : list (Z * Z) :=
  (if evaluated_through st <? head then [(head, evaluated_through st + 1)] else [])
  ++ map (λ range, (Z.min (last_ range) head, first range)) (retained st)
  ++ omap (λ pin, if pin_sequence pin <=? head then Some (pin_sequence pin, pin_sequence pin) else None)
       (pins st).

(** Fuel: every pop yields a new result, repeats the last one (at most once for
    each interval) or discards an interval. *)
Definition recent_sequences (st : RetentionState) (head : Z) (limit : nat) : list Z :=
  if (limit =? 0)%nat || (head =? 0) then []
  else
    let intervals := recent_intervals st head in
    let n := length intervals in
    recent_loop (S (limit * S n + n)) limit intervals [] None.

(** ** Planning *)

(** A [BTreeSet<u64>] in iteration order. *)
Definition ascending (s : gset Z) : list Z := merge_sort Z.le (elements s).

Definition compress_step (ranges : list SequenceRange) (sequence : Z) : list SequenceRange :=
  match last ranges with
  | Some l =>
    if (last_ l + 1 =? sequence) && (last_ l <? u64_max)
    then take (length ranges - 1) ranges ++ [mkRange (first l) sequence]
    else ranges ++ [mkRange sequence sequence]
  | None => [mkRange sequence sequence]
  end.
Definition compress_sequences (sequences : gset Z) : list SequenceRange :=
  foldl compress_step [] (ascending sequences).

(** The closure [plan_state] passes to [for_each_record]. *)
Record Planning := mkPlanning {
  plan_retained : gset Z;
  plan_buckets : gmap (Tier * Z) Candidate;
  plan_through : Z;
}.

Definition tier_of (age : Z) : Tier * Z :=
  if age <=? HOURLY_WINDOW then (Hour, HOUR)
  else if age <=? DAILY_WINDOW then (Day, DAY)
  else (Week, WEEK).

Definition newer (candidate existing : Candidate) : bool :=
  (cand_sealed_at existing <? cand_sealed_at candidate)
  || ((cand_sealed_at existing =? cand_sealed_at candidate)
      && (cand_sequence existing <? cand_sequence candidate)).

Definition plan_visit (now : Z) (pinned : gset Z) (record : RefRecord) (p : Planning) : Res Planning :=
  let age := i64_sat_sub now (sealed_at record) in
  if (age <=? ALL_SNAPSHOTS_WINDOW) || (age <? 0) || bool_decide (sequence record ∈ pinned) then
    Ok (mkPlanning ({[sequence record]} ∪ plan_retained p) (plan_buckets p) (sequence record))
  else
    let '(tier, width) := tier_of age in
    let key := (tier, sealed_at record / width) in
    let candidate := mkCandidate (sealed_at record) (sequence record) in
    let kept := match plan_buckets p !! key with
                | Some existing => if newer candidate existing then candidate else existing
                | None => candidate
                end in
    Ok (mkPlanning (plan_retained p) (<[key := kept]> (plan_buckets p)) (sequence record)).

(** What follows the visit. *)
Definition plan_finish (now : Z) (pins : list Pin) (p : Planning) : RetentionState :=
  let pinned : gset Z := list_to_set (map pin_sequence pins) in
  let retained := plan_retained p ∪ list_to_set (cand_sequence <$> (map_to_list (plan_buckets p)).*2)
                  ∪ pinned in
  let retained := if 0 <? plan_through p then {[plan_through p]} ∪ retained else retained in
  mkState 0 (plan_through p) now (compress_sequences retained) pins zero_id.

Definition same_policy_state (left right : RetentionState) : bool :=
  (evaluated_through left =? evaluated_through right)
  && bool_decide (retained left = retained right)
  && bool_decide (pins left = pins right).

Fixpoint validate_ranges (through previous : Z) (ranges : list SequenceRange) : Res () :=
  match ranges with
  | [] => Ok ()
  | range :: ranges =>
    _ ← ensure ((0 <? first range) && (first range <=? last_ range)) "invalid retained sequence range";
    _ ← ensure (previous <? first range) "overlapping retained ranges";
    _ ← ensure (last_ range <=? through) "retained range exceeds evaluated history";
    validate_ranges through (last_ range) ranges
  end.
Fixpoint validate_pins (previous_pin : Z) (pins : list Pin) : Res () :=
  match pins with
  | [] => Ok ()
  | pin :: pins =>
    _ ← ensure (previous_pin <? pin_sequence pin) "pins are not ordered";
    validate_pins (pin_sequence pin) pins
  end.
Definition validate_state (st : RetentionState) : Res () :=
  _ ← validate_ranges (evaluated_through st) 0 (retained st);
  validate_pins 0 (pins st).

(** ** The log *)

(** One workspace: the retention log and the reference log. *)
Record Timeline := mkTimeline { ret_file : option bytes; ref_log : RefLog }.

Definition set_ret (f : option bytes) (t : Timeline) : Timeline := mkTimeline f (ref_log t).
Definition on_refs {A} (m : M RefLog A) : M Timeline A := λ t,
  let '(r, l) := m (ref_log t) in (r, mkTimeline (ret_file t) l).

Section RetentionLog.
Context `{Blake3, Json RefRecord, Json RetentionState}.

Definition read_frame (file : bytes) (start : Z) : Res (option (RetentionState * ObjectId * Z)) :=
  o ← read_payload MAGIC MAX_RECORD "retention log corruption"
        "retention record exceeds size limit" "retention checksum mismatch" file start;
  match o with
  | None => Ok None
  | Some (len_bytes, checksum, payload, e) =>
    state ← with_context (from_slice payload) "decode retention record";
    Ok (Some (state, blake3 (MAGIC ++ len_bytes ++ checksum ++ payload), e))
  end.

(** [read_latest]: the loop, and the truncation of a torn tail. *)
Fixpoint read_latest_loop (fuel : nat) (file : bytes) (offset : Z) (state : RetentionState)
    (previous : ObjectId) : Res (RetentionState * option Z) :=
  match fuel with
  | O => Err "fuel"
  | S fuel =>
    if offset <? blen file then
      o ← read_frame file offset;
      match o with
      | None => Ok (state, Some offset)
      | Some (next, frame_hash, e) =>
        _ ← ensure (event_sequence next =? event_sequence state + 1) "broken retention sequence";
        _ ← ensure (bool_decide (prev_frame next = previous)) "broken retention hash chain";
        _ ← validate_state next;
        read_latest_loop fuel file e next frame_hash
      end
    else Ok (state, None)
  end.

Definition ret_open : M Timeline bytes := λ t,
  let f := default [] (ret_file t) in (Ok f, set_ret (Some f) t).
Definition ret_data : M Timeline bytes := gets (λ t, default [] (ret_file t)).

Definition read_latest : M Timeline RetentionState :=
  file ← ret_data;
  '(state, cut) ← lift (read_latest_loop (S (length file)) file 0 initial zero_id);
  _ ← match (cut : option Z) with
      | Some start => modify (set_ret (Some (take (Z.to_nat start) file)))
      | None => mret ()
      end;
  mret state.

Fixpoint frame_hash_loop (fuel : nat) (file : bytes) (offset : Z) (latest : option ObjectId)
    : Res (option ObjectId) :=
  match fuel with
  | O => Err "fuel"
  | S fuel =>
    if offset <? blen file then
      o ← read_frame file offset;
      match o with
      | None => Ok latest
      | Some (_, frame_hash, e) => frame_hash_loop fuel file e (Some frame_hash)
      end
    else Ok latest
  end.
Definition current_frame_hash : M Timeline (option ObjectId) :=
  file ← ret_data; lift (frame_hash_loop (S (length file)) file 0 None).

Definition append_state (state : RetentionState) : M Timeline () :=
  let payload := to_vec state in
  _ ← mensure (blen payload <=? MAX_RECORD) "retention record is too large";
  modify (λ t, set_ret (Some (default [] (ret_file t) ++ MAGIC ++ to_le 4 (blen payload)
                              ++ blake3 payload ++ payload)) t).

Definition state : M Timeline RetentionState :=
  t ← get;
  match ret_file t with
  | None => mret initial
  | Some _ => _ ← ret_open; read_latest
  end.

Definition plan_state (now : Z) (pins : list Pin) : M Timeline RetentionState :=
  let pinned : gset Z := list_to_set (map pin_sequence pins) in
  p ← on_refs (for_each_record (plan_visit now pinned) (mkPlanning ∅ ∅ 0));
  mret (plan_finish now pins p).

Definition plan (now : Z) : M Timeline RetentionState :=
  current ← state; plan_state now (pins current).

Definition with_event (n : Z) (prev : ObjectId) (st : RetentionState) : RetentionState :=
  mkState n (evaluated_through st) (evaluated_at st) (retained st) (pins st) prev.
Definition with_pins (ps : list Pin) (st : RetentionState) : RetentionState :=
  mkState (event_sequence st) (evaluated_through st) (evaluated_at st) (retained st) ps (prev_frame st).

Definition apply (now : Z) : M Timeline RetentionState :=
  _ ← ret_open;
  current ← read_latest;
  planned ← plan_state now (pins current);
  if same_policy_state current planned then mret current
  else
    hash ← current_frame_hash;
    let planned := with_event (event_sequence current + 1) (default zero_id hash) planned in
    _ ← append_state planned;
    mret planned.

(** [sort_by_key]: a stable sort. *)
Definition pin_le (a b : Pin) : Prop := pin_sequence a ≤ pin_sequence b.
#[global] Instance pin_le_dec : RelDecision pin_le.
Proof. intros a b. unfold pin_le. apply _. Defined.
Fixpoint insert_pin (p : Pin) (ps : list Pin) : list Pin :=
  match ps with
  | [] => [p]
  | q :: ps => if decide (pin_sequence p < pin_sequence q) then p :: q :: ps else q :: insert_pin p ps
  end.
Definition sort_pins (ps : list Pin) : list Pin := foldl (λ acc p, insert_pin p acc) [] ps.

Definition pin (id : ObjectId) : M Timeline bool :=
  found ← on_refs (find id);
  record ← lift (with_context found "snapshot does not belong to this workspace timeline");
  _ ← ret_open;
  st ← read_latest;
  if is_pinned st id then mret false
  else
    let st := with_pins (sort_pins (pins st ++ [mkPin (sequence record) id])) st in
    hash ← current_frame_hash;
    _ ← append_state (with_event (event_sequence st + 1) (default zero_id hash) st);
    mret true.

Definition unpin (id : ObjectId) : M Timeline bool :=
  _ ← ret_open;
  st ← read_latest;
  let kept := base.filter (λ p, pin_snapshot p ≠ id) (pins st) in
  if (length kept =? length (pins st))%nat then mret false
  else
    let st := with_pins kept st in
    hash ← current_frame_hash;
    _ ← append_state (with_event (event_sequence st + 1) (default zero_id hash) st);
    mret true.
End RetentionLog.
