(* ===== verification/RetentionTheory.v ===== *)
(** * RetentionTheory: what the retention policy keeps

    Ranges as sets of sequence numbers, the exact set a plan retains, the newest
    retained sequences, and the chain of states in the retention log. *)

From S2P Require Import Prelude Model Framing Concrete Refs RefsTheory Retention.
#[local] Open Scope Z_scope.

(** ** Ranges *)

Definition in_range (s : Z) (r : SequenceRange) : Prop := first r ≤ s ≤ last_ r.
Definition covered (rs : list SequenceRange) (s : Z) : Prop := ∃ r, r ∈ rs ∧ in_range s r.

(** Ascending, disjoint, non-empty, above [prev]. *)
Fixpoint ranges_from (prev : Z) (rs : list SequenceRange) : Prop :=
  match rs with
  | [] => True
  | r :: rs => prev < first r ∧ first r ≤ last_ r ∧ ranges_from (last_ r) rs
  end.
Definition end_of (prev : Z) (rs : list SequenceRange) : Z :=
  match last rs with Some r => last_ r | None => prev end.

Lemma end_of_cons prev r rs : end_of prev (r :: rs) = end_of (last_ r) rs.
Proof. unfold end_of. rewrite last_cons. by destruct (last rs). Qed.

Lemma ranges_from_app prev rs rs' :
  ranges_from prev (rs ++ rs') ↔ ranges_from prev rs ∧ ranges_from (end_of prev rs) rs'.
Proof.
  revert prev. induction rs as [|r rs IH]; intros prev; cbn [app ranges_from].
  - unfold end_of. cbn. tauto.
  - rewrite IH, end_of_cons. tauto.
Qed.

Lemma end_of_ge prev rs : ranges_from prev rs → prev ≤ end_of prev rs.
Proof.
  revert prev. induction rs as [|r rs IH]; intros prev; cbn; [done |].
  intros (? & ? & Hrs). rewrite end_of_cons. apply IH in Hrs. lia.
Qed.

Lemma ranges_from_bounds prev rs r :
  ranges_from prev rs → r ∈ rs → prev < first r ∧ first r ≤ last_ r ≤ end_of prev rs.
Proof.
  revert prev. induction rs as [|r' rs IH]; intros prev; [by intros _ ?%not_elem_of_nil |].
  cbn. intros (Hp & Hl & Hrs). rewrite end_of_cons. intros [->|Hr]%elem_of_cons.
  - pose proof (end_of_ge _ _ Hrs). lia.
  - destruct (IH _ Hrs Hr). lia.
Qed.

Lemma ranges_from_pair prev rs i j x y :
  ranges_from prev rs → (i < j)%nat → rs !! i = Some x → rs !! j = Some y → last_ x < first y.
Proof.
  intros Hrs Hij Hx Hy. rewrite <- (take_drop_middle rs i x Hx) in Hrs.
  apply ranges_from_app in Hrs as [_ (_ & _ & Hrs)].
  eapply ranges_from_bounds; [exact Hrs |].
  apply list_elem_of_lookup. exists (j - S i)%nat. rewrite lookup_drop. rewrite <- Hy. f_equal. lia.
Qed.

Lemma ranges_sorted_for prev rs s : ranges_from prev rs → sorted_for (range_order s) rs.
Proof.
  intros Hrs i j x y Hij Hx Hy. pose proof (ranges_from_pair _ _ _ _ _ _ Hrs Hij Hx Hy).
  pose proof (ranges_from_bounds _ _ x Hrs ltac:(by eapply list_elem_of_lookup_2)).
  pose proof (ranges_from_bounds _ _ y Hrs ltac:(by eapply list_elem_of_lookup_2)).
  unfold range_order. split; repeat case_match; try done; lia.
Qed.

(** The binary search over the ranges is membership. *)
Lemma retains_in_ranges_spec prev st s :
  ranges_from prev (retained st) → retains_in_ranges st s = true ↔ covered (retained st) s.
Proof.
  intros Hrs. unfold retains_in_ranges. rewrite bool_decide_eq_true.
  rewrite binary_search_spec by by eapply ranges_sorted_for.
  unfold covered, in_range. split; intros (r & Hr & Hs); exists r; (split; [done |]).
  - unfold range_order in Hs. repeat case_match; try done; lia.
  - unfold range_order. repeat case_match; try done; lia.
Qed.

Lemma covered_app rs rs' s : covered (rs ++ rs') s ↔ covered rs s ∨ covered rs' s.
Proof. unfold covered. setoid_rewrite elem_of_app. naive_solver. Qed.
Lemma covered_singleton r s : covered [r] s ↔ in_range s r.
Proof. unfold covered. setoid_rewrite list_elem_of_singleton. naive_solver. Qed.

(** ** [compress_sequences] *)

Lemma elem_of_ascending (s : gset Z) x : x ∈ ascending s ↔ x ∈ s.
Proof. unfold ascending. rewrite (merge_sort_Permutation Z.le). apply elem_of_elements. Qed.

Lemma ascending_sorted (s : gset Z) : StronglySorted Z.lt (ascending s).
Proof.
  assert (StronglySorted Z.le (ascending s)) as Hs by apply (StronglySorted_merge_sort Z.le).
  assert (NoDup (ascending s)) as Hnd.
  { unfold ascending. rewrite (merge_sort_Permutation Z.le). apply NoDup_elements. }
  induction Hs as [|x l Hl IH Hx]; [constructor |].
  apply NoDup_cons in Hnd as [Hni Hnd]. constructor; [auto |].
  rewrite Forall_forall in Hx |- *. intros y Hy. specialize (Hx y Hy).
  destruct (decide (x = y)) as [-> |]; [done | lia].
Qed.

(** One step keeps the ranges exact. *)
Lemma compress_step_ok prev ranges s :
  prev < s → s ≤ u64_max → ranges_from prev ranges → end_of prev ranges < s →
  ranges_from prev (compress_step ranges s) ∧ end_of prev (compress_step ranges s) = s ∧
  (∀ x, covered (compress_step ranges s) x ↔ covered ranges x ∨ x = s).
Proof.
  intros Hp Hmax Hr He. unfold compress_step.
  destruct ranges as [|l ranges _] using rev_ind.
  { cbn. split; [lia |]. split; [done |]. intros x. rewrite covered_singleton.
    unfold covered, in_range. cbn. setoid_rewrite elem_of_nil. split; [intros; right; lia |].
    intros [(? & [] & _)|]; lia. }
  rewrite last_snoc. apply ranges_from_app in Hr as [Hr (Hl1 & Hl2 & _)].
  unfold end_of in He. rewrite last_snoc in He. cbn in Hl1.
  destruct (_ && _) eqn:E.
  - rewrite length_app. cbn [length]. rewrite Nat.add_sub, take_app_length.
    split; [apply ranges_from_app; cbn; split; [done |]; split; [done | lia] |].
    split; [by unfold end_of; rewrite last_snoc |].
    intros x. rewrite !covered_app, !covered_singleton. unfold in_range. cbn.
    assert (first l ≤ x ≤ s ↔ first l ≤ x ≤ last_ l ∨ x = s) by lia. tauto.
  - split.
    { apply ranges_from_app. split; [apply ranges_from_app; cbn; tauto |].
      unfold end_of. rewrite last_snoc. cbn. lia. }
    split; [by unfold end_of; rewrite last_snoc |].
    intros x. rewrite (covered_app _ [mkRange s s]), covered_singleton. unfold in_range. cbn.
    split; (intros [?|?]; [by left | right; lia]).
Qed.

Lemma compress_fold prev acc l :
  StronglySorted Z.lt l → Forall (λ s, prev < s ≤ u64_max) l →
  ranges_from prev acc → Forall (λ s, end_of prev acc < s) l →
  ranges_from prev (foldl compress_step acc l) ∧
  (∀ x, covered (foldl compress_step acc l) x ↔ covered acc x ∨ x ∈ l).
Proof.
  intros Hs. revert acc. induction Hs as [|s l Hs IH Hlt]; intros acc Hb Hr He.
  { cbn. split; [done |]. intros x. rewrite elem_of_nil. tauto. }
  apply Forall_cons in Hb as [[Hps Hmax] Hb]. apply Forall_cons in He as [He _].
  destruct (compress_step_ok prev acc s Hps Hmax Hr He) as (Hr' & He' & Hc).
  destruct (IH (compress_step acc s) Hb Hr') as [Hr'' Hc'].
  { rewrite He'. done. }
  cbn [foldl]. split; [done |]. intros x. rewrite Hc', Hc, elem_of_cons. tauto.
Qed.

Lemma compress_sequences_ok prev (s : gset Z) :
  prev < 2 ^ 64 → (∀ x, x ∈ s → prev < x ≤ u64_max) →
  ranges_from prev (compress_sequences s) ∧ (∀ x, covered (compress_sequences s) x ↔ x ∈ s).
Proof.
  intros Hp Hs. destruct (compress_fold prev [] (ascending s)) as [Hr Hc].
  - apply ascending_sorted.
  - apply Forall_forall. intros x Hx%elem_of_ascending. by apply Hs.
  - done.
  - apply Forall_forall. intros x Hx%elem_of_ascending. by apply Hs.
  - split; [done |]. intros x. unfold compress_sequences. rewrite Hc, elem_of_ascending.
    unfold covered. setoid_rewrite elem_of_nil. naive_solver.
Qed.

(** ** [recent_sequences] *)

Lemma heap_pop_None h : heap_pop h = None → h = [].
Proof. destruct h as [|x h]; [done |]. cbn. repeat case_match; done. Qed.

Lemma heap_pop_Some h x rest :
  heap_pop h = Some (x, rest) → h ≡ₚ x :: rest ∧ ∀ y, y ∈ h → y.1 ≤ x.1.
Proof.
  revert x rest. induction h as [|z h IH]; intros x rest; [done |]. cbn [heap_pop].
  destruct (heap_pop h) as [[y rest']|] eqn:E.
  2: { apply heap_pop_None in E as ->. intros [= <- <-]. split; [done |].
       by intros y ->%list_elem_of_singleton. }
  destruct (IH _ _ eq_refl) as [Hp Hmax].
  unfold pair_le. destruct (_ || _) eqn:Ele; intros [= <- <-].
  - split; [by rewrite Hp |]. intros y' [->|Hy']%elem_of_cons; [done |].
    specialize (Hmax y' Hy'). lia.
  - split; [rewrite Hp; apply Permutation_swap |].
    intros y' [->|Hy']%elem_of_cons; [lia | by apply Hmax].
Qed.

Definition in_heap (h : list (Z * Z)) (s : Z) : Prop := ∃ i, i ∈ h ∧ i.2 ≤ s ≤ i.1.

Lemma in_heap_perm h h' s : h ≡ₚ h' → in_heap h s ↔ in_heap h' s.
Proof. intros Hp. unfold in_heap. by setoid_rewrite Hp. Qed.
Lemma in_heap_cons i h s : in_heap (i :: h) s ↔ i.2 ≤ s ≤ i.1 ∨ in_heap h s.
Proof. unfold in_heap. setoid_rewrite elem_of_cons. naive_solver. Qed.

(** How many intervals would repeat the last result. *)
Definition repeats (previous : option Z) (h : list (Z * Z)) : nat :=
  length (base.filter (λ i : Z * Z, Some i.1 = previous) h).

Lemma repeats_le p h : (repeats p h ≤ length h)%nat.
Proof. apply length_filter. Qed.
Lemma repeats_perm p h h' : h ≡ₚ h' → repeats p h = repeats p h'.
Proof. intros Hp. unfold repeats. by rewrite Hp. Qed.
Lemma repeats_hit p h q f : p = Some q → repeats p ((q, f) :: h) = S (repeats p h).
Proof. intros ->. unfold repeats. by rewrite filter_cons_True. Qed.
Lemma repeats_miss p h i : p ≠ Some i.1 → repeats p (i :: h) = repeats p h.
Proof. intros Hp. unfold repeats. rewrite filter_cons_False; [done |]. intros H. by rewrite H in Hp. Qed.

(** The loop's invariant: the results so far descend through the members, and
    the heap holds every member that is still to come and nothing else. *)
Record recent_inv (mem : Z → Prop) (h : list (Z * Z)) (res : list Z) (prev : option Z) : Prop := {
  ri_prev : prev = last res;
  ri_sorted : StronglySorted Z.gt res;
  ri_mem : ∀ s, s ∈ res → mem s;
  ri_below : ∀ i p, i ∈ h → prev = Some p → i.1 ≤ p;
  ri_cover : ∀ s, mem s → s ∈ res ∨ in_heap h s;
  ri_heap : ∀ s, in_heap h s → mem s;
}.

(** What the list of recent sequences is: descending, of members only, and
    complete down to its last element, or altogether when it is short. *)
Definition newest (mem : Z → Prop) (limit : nat) (res : list Z) : Prop :=
  StronglySorted Z.gt res ∧ (∀ s, s ∈ res → mem s) ∧ (length res ≤ limit)%nat ∧
  (∀ s, mem s → s ∈ res ∨ (length res = limit ∧ ∀ x, x ∈ res → s < x)).

Lemma sorted_gt_snoc res x :
  StronglySorted Z.gt res → (∀ y, y ∈ res → x < y) → StronglySorted Z.gt (res ++ [x]).
Proof.
  induction 1 as [|y res Hs IH Hy]; intros Hx; cbn; [repeat constructor |].
  constructor; [apply IH; intros z Hz; apply Hx; by right |].
  apply Forall_app. split; [done |]. constructor; [| done].
  apply Z.lt_gt, Hx. by left.
Qed.

Lemma sorted_gt_last res p x : StronglySorted Z.gt res → last res = Some p → x ∈ res → p ≤ x.
Proof.
  destruct res as [|y res _] using rev_ind; [done |]. rewrite last_snoc. intros Hs [= <-].
  intros [Hx|Hx]%elem_of_app.
  - induction res as [|z res IH]; [by apply not_elem_of_nil in Hx |]. cbn in Hs.
    apply StronglySorted_inv in Hs as [Hs Hz]. apply elem_of_cons in Hx as [->|Hx]; [| by apply IH].
    apply Forall_app in Hz as [_ Hz]. apply Forall_cons in Hz as [Hz _]. lia.
  - apply list_elem_of_singleton in Hx. lia.
Qed.

Lemma recent_inv_newest mem h res prev limit :
  recent_inv mem h res prev → (length res ≤ limit)%nat →
  h = [] ∨ length res = limit → newest mem limit res.
Proof.
  intros [Hp Hs Hm Hb Hc Hh] Hlen Hdone. split_and!; try done.
  intros s [Hs'|Hs']%Hc; [by left |].
  destruct (decide (s ∈ res)) as [|Hni]; [by left |]. right.
  destruct Hdone as [->|Hl]; [by destruct Hs' as (i & ?%not_elem_of_nil & _) |].
  split; [done |]. intros x Hx. destruct Hs' as (i & Hi & Hsi).
  destruct (last res) as [p|] eqn:El.
  - pose proof (Hb i p Hi Hp). pose proof (sorted_gt_last _ _ _ Hs El Hx).
    assert (s ≠ x) by (intros ->; done). lia.
  - apply last_None in El as ->. by apply not_elem_of_nil in Hx.
Qed.

Lemma recent_loop_newest mem limit fuel h res prev :
  recent_inv mem h res prev → (length res ≤ limit)%nat →
  ((limit - length res) * S (length h) + repeats prev h < fuel)%nat →
  newest mem limit (recent_loop fuel limit h res prev).
Proof.
  revert h res prev. induction fuel as [|fuel IH]; intros h res prev Hinv Hlen Hfuel;
    [by apply Nat.nlt_0_r in Hfuel |].
  cbn [recent_loop]. destruct (Nat.ltb_spec (length res) limit) as [Hlt|Hge].
  2: { eapply recent_inv_newest; [done | done | right; lia]. }
  destruct (heap_pop h) as [[[q f] rest]|] eqn:Epop.
  2: { apply heap_pop_None in Epop as ->. eapply recent_inv_newest; [done | done | by left]. }
  apply heap_pop_Some in Epop as [Hperm Hmax].
  rewrite (repeats_perm _ _ _ Hperm), (Permutation_length Hperm) in Hfuel. cbn [length] in Hfuel.
  destruct Hinv as [Hp Hs Hm Hb Hc Hh].
  assert (∀ i, i ∈ rest → i ∈ h) as Hrest by (intros i Hi; rewrite Hperm; by right).
  assert ((q, f) ∈ h) as Hqf by (rewrite Hperm; by left).
  setoid_rewrite (in_heap_perm _ _ _ Hperm) in Hc. setoid_rewrite (in_heap_perm _ _ _ Hperm) in Hh.
  setoid_rewrite in_heap_cons in Hc. setoid_rewrite in_heap_cons in Hh. cbn [fst snd] in *.
  destruct (Z.leb_spec f q) as [Hfq|Hfq].
  2: { (* an empty interval is discarded *)
    assert (repeats prev rest ≤ repeats prev ((q, f) :: rest))%nat.
    { unfold repeats. rewrite filter_cons. case_decide; cbn; lia. }
    apply IH; [| done | nia]. split; try done.
    - intros i p Hi. apply Hb. by apply Hrest.
    - intros s Hs'. destruct (Hc s Hs') as [?|[?|?]]; [by left | lia | by right].
    - intros s Hs'. apply Hh. by right. }
  set (h' := if f <? q then (q - 1, f) :: rest else rest).
  assert (∀ s, in_heap h' s ↔ f ≤ s ≤ q - 1 ∨ in_heap rest s) as Hh'.
  { intros s. subst h'. destruct (Z.ltb_spec f q); [by rewrite in_heap_cons |].
    split; [by right |]. intros [?|?]; [lia | done]. }
  assert (length h' ≤ S (length rest))%nat as Hlen' by (subst h'; destruct (f <? q); cbn; lia).
  assert (∀ i, i ∈ h' → i.1 ≤ q) as Hle.
  { subst h'. intros i Hi. destruct (f <? q).
    - apply elem_of_cons in Hi as [->|Hi]; [cbn; lia | by apply Hmax, Hrest].
    - by apply Hmax, Hrest. }
  assert (repeats (Some q) h' = repeats (Some q) rest) as Hrep.
  { subst h'. destruct (f <? q); [| done]. apply repeats_miss. cbn. intros [=]. lia. }
  destruct (decide (prev = Some q)) as [Hpq|Hpq].
  - (* the last result again *)
    rewrite (repeats_hit prev _ q f Hpq) in Hfuel.
    apply IH; [| done | rewrite Hpq, Hrep; rewrite Hpq in Hfuel; nia]. split; try done.
    + intros i p Hi Hpp. rewrite Hpq in Hpp. injection Hpp as <-. by apply Hle.
    + intros s Hs'. setoid_rewrite Hh'. destruct (Hc s Hs') as [?|[Hsq|?]]; [by left | | by right; right].
      destruct (decide (s = q)) as [->|]; [left | right; left; lia].
      rewrite Hp in Hpq. apply list_elem_of_lookup. rewrite last_lookup in Hpq. eauto.
    + intros s Hs'%Hh'. apply Hh. destruct Hs'; [left; lia | by right].
  - (* a new result *)
    assert (∀ y, y ∈ res → q < y) as Hgt.
    { intros y Hy. destruct (last res) as [p|] eqn:El.
      - rewrite Hp in Hb. pose proof (Hb _ p Hqf eq_refl) as Hqp. cbn in Hqp.
        pose proof (sorted_gt_last _ _ _ Hs El Hy). assert (p ≠ q) by congruence. lia.
      - apply last_None in El as ->. by apply not_elem_of_nil in Hy. }
    pose proof (repeats_le (Some q) rest).
    apply IH; [| rewrite length_app; cbn; lia | rewrite Hrep, length_app; cbn [length]; nia].
    split.
    + by rewrite last_snoc.
    + by apply sorted_gt_snoc.
    + intros s [?|Hsq%list_elem_of_singleton]%elem_of_app; [by apply Hm | apply Hh; left; lia].
    + intros i p Hi [= <-]. by apply Hle.
    + intros s Hs'. setoid_rewrite Hh'. rewrite elem_of_app, list_elem_of_singleton.
      destruct (Hc s Hs') as [?|[Hsq|?]]; [tauto | | tauto].
      destruct (decide (s = q)); [tauto | right; left; lia].
    + intros s Hs'%Hh'. apply Hh. destruct Hs'; [left; lia | by right].
Qed.

(** What a state says is retained among the first [head] sequence numbers. *)
Definition retained_at (st : RetentionState) (head s : Z) : Prop :=
  s ≤ head ∧ (evaluated_through st < s ∨ covered (retained st) s ∨
              ∃ p, p ∈ pins st ∧ pin_sequence p = s).

Lemma recent_intervals_spec st head s : in_heap (recent_intervals st head) s ↔ retained_at st head s.
Proof.
  unfold in_heap, recent_intervals, retained_at, covered, in_range.
  setoid_rewrite elem_of_app. setoid_rewrite elem_of_app.
  setoid_rewrite list_elem_of_fmap. setoid_rewrite list_elem_of_omap. split.
  - intros (i & [Hi|[(r & -> & Hr)|(p & Hp & Hi)]] & Hs).
    + destruct (_ <? _) eqn:E; [| by apply not_elem_of_nil in Hi].
      apply list_elem_of_singleton in Hi as ->. cbn in Hs. lia.
    + cbn in Hs. split; [lia |]. right. left. exists r. split; [done | lia].
    + case_match; [| done]. injection Hi as <-. cbn in Hs. split; [lia |]. right. right.
      exists p. split; [done | lia].
  - intros (Hs & [He|[(r & Hr & Hin)|(p & Hp & <-)]]).
    + exists (head, evaluated_through st + 1). rewrite (proj2 (Z.ltb_lt _ _)) by lia.
      split; [left; by left | cbn; lia].
    + exists (Z.min (last_ r) head, first r). split; [right; left; by exists r | cbn; lia].
    + exists (pin_sequence p, pin_sequence p). split; [| cbn; lia]. right. right. exists p.
      split; [done |]. by rewrite (proj2 (Z.leb_le _ _)).
Qed.

(** ** The plan *)

Definition pinned_set (ps : list Pin) : gset Z := list_to_set (map pin_sequence ps).

(** A record kept whatever its bucket holds: of the last day, from the future of
    the clock, or pinned. *)
Definition always (now : Z) (ps : list Pin) (r : RefRecord) : bool :=
  let age := i64_sat_sub now (sealed_at r) in
  (age <=? ALL_SNAPSHOTS_WINDOW) || (age <? 0) || bool_decide (sequence r ∈ pinned_set ps).
Definition bucket_of (now : Z) (r : RefRecord) : Tier * Z :=
  let '(tier, width) := tier_of (i64_sat_sub now (sealed_at r)) in (tier, sealed_at r / width).
Definition cand_of (r : RefRecord) : Candidate := mkCandidate (sealed_at r) (sequence r).

(** The newest record of a bucket. *)
Definition winner (now : Z) (ps : list Pin) (rs : list RefRecord) (key : Tier * Z) (c : Candidate) : Prop :=
  (∃ r, r ∈ rs ∧ always now ps r = false ∧ bucket_of now r = key ∧ cand_of r = c) ∧
  (∀ r, r ∈ rs → always now ps r = false → bucket_of now r = key → newer (cand_of r) c = false).

(** The set a plan retains, as its visits build it. *)
Definition planned_by (now : Z) (ps : list Pin) (rs : list RefRecord) (s : Z) : Prop :=
  (rs ≠ [] ∧ s = Z.of_nat (length rs)) ∨ s ∈ pinned_set ps ∨
  ∃ r, r ∈ rs ∧ sequence r = s ∧
       (always now ps r = true ∨ winner now ps rs (bucket_of now r) (cand_of r)).

(** How wide the periods are of which one snapshot is kept: hours for those sealed
    more than a day ago, days after a week, weeks after ninety days. *)
Definition thinned_to (now : Z) (r : RefRecord) (width : Z) : Prop :=
  let age := now - sealed_at r in let day := 24 * 60 * 60 in
  (1 * day < age ≤ 7 * day ∧ width = 60 * 60) ∨ (7 * day < age ≤ 90 * day ∧ width = day) ∨ (90 * day < age ∧ width = 7 * day).
(** Two times of one period, periods counted from the epoch. *)
Definition same_period (width t t' : Z) : Prop := ∃ n, n * width ≤ t < (n + 1) * width ∧ n * width ≤ t' < (n + 1) * width.
(** The policy: the head, the pins, everything sealed in the last day or later than
    now, and of each older period the snapshot no other of it, pins aside, is newer
    than. *)
Definition kept_by (now : Z) (ps : list Pin) (rs : list RefRecord) (s : Z) : Prop :=
  (rs ≠ [] ∧ s = Z.of_nat (length rs)) ∨ (∃ p, p ∈ ps ∧ pin_sequence p = s) ∨
  ∃ r, r ∈ rs ∧ sequence r = s ∧
    (now - sealed_at r ≤ 24 * 60 * 60 ∨
     ∃ width, thinned_to now r width ∧
       ∀ r', r' ∈ rs → (∀ p, p ∈ ps → pin_sequence p ≠ sequence r') → thinned_to now r' width → same_period width (sealed_at r) (sealed_at r') →
         sealed_at r' < sealed_at r ∨ sealed_at r' = sealed_at r ∧ sequence r' ≤ sequence r).

Lemma same_period_div width t t' : 0 < width → same_period width t t' ↔ t / width = t' / width.
Proof.
  intros Hw. split.
  - intros (n & H1 & H2). assert (n = t / width) as <- by (apply (Z.div_unique _ _ _ (t - n * width)); lia).
    apply (Z.div_unique _ _ _ (t' - n * width)); lia.
  - intros E. exists (t / width). pose proof (Z.div_mod t width ltac:(lia)) as H1. pose proof (Z.mod_pos_bound t width Hw).
    pose proof (Z.div_mod t' width ltac:(lia)) as H2. pose proof (Z.mod_pos_bound t' width Hw). rewrite <- E in H2.
    set (q := t / width) in *. set (t mod width) in *. set (t' mod width) in *. clearbody q z z0. nia.
Qed.
Lemma elem_of_pinned ps s : s ∈ pinned_set ps ↔ ∃ p, p ∈ ps ∧ pin_sequence p = s.
Proof. unfold pinned_set. rewrite elem_of_list_to_set. change (map pin_sequence ps) with (pin_sequence <$> ps). rewrite list_elem_of_fmap. naive_solver. Qed.
Lemma always_spec now ps r : always now ps r = true ↔ now - sealed_at r ≤ 24 * 60 * 60 ∨ sequence r ∈ pinned_set ps.
Proof.
  unfold always, ALL_SNAPSHOTS_WINDOW, DAY, HOUR, i64_sat_sub. rewrite !orb_true_iff, bool_decide_eq_true, Z.leb_le, Z.ltb_lt.
  unfold i64_min, i64_max. assert (∀ P Q R : Prop, (P ↔ Q) → (P ∨ R ↔ Q ∨ R)) as Hor by tauto. apply Hor. lia.
Qed.

(** The bucket of a record, as its tier's width and the period counted in it. *)
Lemma bucket_thinned now r : 24 * 60 * 60 < now - sealed_at r →
  ∃ tier width, bucket_of now r = (tier, sealed_at r / width) ∧ thinned_to now r width ∧ 0 < width ∧
    (tier, width) ∈ [(Hour, 60 * 60); (Day, 24 * 60 * 60); (Week, 7 * (24 * 60 * 60))].
Proof.
  intros Hage. unfold bucket_of, tier_of, thinned_to, HOURLY_WINDOW, DAILY_WINDOW, WEEK, DAY, HOUR, i64_sat_sub, i64_min, i64_max.
  destruct (Z.leb_spec (Z.max (-2 ^ 63) (Z.min (2 ^ 63 - 1) (now - sealed_at r))) (7 * (24 * (60 * 60)))).
  { eexists _, _. split; [done |]. split; [lia |]. split; [done |]. left. }
  destruct (Z.leb_spec (Z.max (-2 ^ 63) (Z.min (2 ^ 63 - 1) (now - sealed_at r))) (90 * (24 * (60 * 60)))).
  all: eexists _, _; split; [done |]; split; [lia |]; split; [done |]; set_solver.
Qed.
Lemma thinned_to_unique now r w w' : thinned_to now r w → thinned_to now r w' → w = w'.
Proof. unfold thinned_to. lia. Qed.
Lemma bucket_period now r r' width : thinned_to now r width → 24 * 60 * 60 < now - sealed_at r' →
  bucket_of now r' = bucket_of now r ↔ thinned_to now r' width ∧ same_period width (sealed_at r) (sealed_at r').
Proof.
  intros Ht Hage. destruct (bucket_thinned now r) as (tier & w & Hb & Hw & Hpos & Hin); [unfold thinned_to in Ht; lia |].
  rewrite (thinned_to_unique _ _ _ _ Hw Ht) in *. destruct (bucket_thinned now r' Hage) as (tier' & w' & -> & Hw' & Hpos' & Hin').
  rewrite Hb, same_period_div by done. split.
  - intros [= -> Hq]. assert (w' = width) as -> by (clear -Hin Hin'; set_solver). done.
  - intros [Hw2 Hq]. rewrite (thinned_to_unique _ _ _ _ Hw' Hw2) in *. rewrite Hq.
    assert (tier' = tier) as -> by (clear -Hin Hin'; set_solver). done.
Qed.

(** What the visits build is the policy. *)
Lemma planned_kept now ps rs s : planned_by now ps rs s ↔ kept_by now ps rs s.
Proof.
  unfold planned_by, kept_by. rewrite elem_of_pinned. setoid_rewrite always_spec.
  assert (∀ r, r ∈ rs → ¬ (∃ p, p ∈ ps ∧ pin_sequence p = sequence r) → 24 * 60 * 60 < now - sealed_at r →
    winner now ps rs (bucket_of now r) (cand_of r) ↔ ∃ width, thinned_to now r width ∧
      ∀ r', r' ∈ rs → (∀ p, p ∈ ps → pin_sequence p ≠ sequence r') → thinned_to now r' width → same_period width (sealed_at r) (sealed_at r') →
        sealed_at r' < sealed_at r ∨ sealed_at r' = sealed_at r ∧ sequence r' ≤ sequence r) as Hw.
  { intros r Hr Hp Hage. assert (∀ r', always now ps r' = false ↔ ¬ (now - sealed_at r' ≤ 24 * 60 * 60 ∨ ∃ p, p ∈ ps ∧ pin_sequence p = sequence r')) as Hal.
    { intros r'. rewrite <- elem_of_pinned, <- always_spec. by destruct (always now ps r'). }
    assert (∀ r', newer (cand_of r') (cand_of r) = false ↔ sealed_at r' < sealed_at r ∨ sealed_at r' = sealed_at r ∧ sequence r' ≤ sequence r) as Hnew.
    { intros r'. unfold newer, cand_of. cbn. lia. }
    unfold winner. setoid_rewrite Hal. setoid_rewrite Hnew. split.
    - intros [_ Hm]. destruct (bucket_thinned now r Hage) as (_ & width & _ & Ht & _). exists width. split; [done |].
      intros r' Hr' Hp' Ht' Hs. assert (24 * 60 * 60 < now - sealed_at r') as Hage' by (unfold thinned_to in Ht'; lia).
      apply Hm; [done | intros [?|(p & Hq & He)]; [lia | by apply (Hp' p)] |]. by eapply bucket_period.
    - intros (width & Ht & Hm). split; [exists r; split_and!; [done | intros [?|?]; [lia | done] | done | done] |].
      intros r' Hr' Ha Hb. assert (24 * 60 * 60 < now - sealed_at r') as Hage' by (destruct (decide (24 * 60 * 60 < now - sealed_at r')); [done | exfalso; apply Ha; left; lia]).
      apply (bucket_period _ _ _ width) in Hb as [Ht' Hs]; [| done | done]. apply Hm; [done | | done | done]. intros p Hq He. apply Ha. right. by exists p. }
  split; intros [?|[?|(r & Hr & Hs & Hor)]]; [by left | right; by left | | by left | right; by left |].
  all: destruct (decide (sequence r ∈ pinned_set ps)) as [Hp%elem_of_pinned | Hp]; [right; left; by subst s |]; rewrite elem_of_pinned in Hp.
  all: right; right; exists r; split_and!; [done | done |].
  all: destruct (decide (now - sealed_at r ≤ 24 * 60 * 60)) as [|Hage]; [by (left; try left) |]; destruct Hor as [Hor|Hor].
  - destruct Hor as [?|?%elem_of_pinned]; [lia | done].
  - right. apply Hw; [done | done | lia | done].
  - lia.
  - right. apply Hw in Hor; [done | done | done | lia].
Qed.

Record plan_inv (now : Z) (ps : list Pin) (rs : list RefRecord) (p : Planning) : Prop := {
  pi_through : plan_through p = match last rs with Some r => sequence r | None => 0 end;
  pi_retained : ∀ s, s ∈ plan_retained p ↔ ∃ r, r ∈ rs ∧ always now ps r = true ∧ sequence r = s;
  pi_winner : ∀ key c, plan_buckets p !! key = Some c → winner now ps rs key c;
  pi_none : ∀ key, plan_buckets p !! key = None →
            ∀ r, r ∈ rs → always now ps r = false → bucket_of now r ≠ key;
}.

Lemma newer_irrefl c : newer c c = false.
Proof. unfold newer. rewrite !Z.ltb_irrefl. by rewrite andb_false_r. Qed.
Lemma newer_trans_false a b c : newer a b = false → newer b c = false → newer a c = false.
Proof. unfold newer. lia. Qed.
Lemma newer_asym a b : newer a b = true → newer b a = false.
Proof. unfold newer. lia. Qed.

Lemma plan_visit_ok now ps rs r p :
  plan_inv now ps rs p →
  ∃ p', plan_visit now (pinned_set ps) r p = Ok p' ∧ plan_inv now ps (rs ++ [r]) p'.
Proof.
  intros [Ht Hr Hw Hn]. unfold plan_visit.
  change ((_ || _) || _) with (always now ps r). destruct (always now ps r) eqn:Ea.
  - eexists. split; [done |]. split; cbn.
    + by rewrite last_snoc.
    + intros s. rewrite elem_of_union, elem_of_singleton, Hr. setoid_rewrite elem_of_app.
      setoid_rewrite list_elem_of_singleton. split.
      * intros [->|(r' & ? & ?)]; [exists r; tauto | exists r'; tauto].
      * intros (r' & [?| ->] & ? & ?); [right; by exists r' | by left].
    + intros key c Hc. destruct (Hw key c Hc) as [(r' & ? & ?) Hmax]. split.
      * exists r'. split; [apply elem_of_app; by left | done].
      * intros r'' [?|H'%list_elem_of_singleton]%elem_of_app; [by apply Hmax | congruence].
    + intros key Hk r' [?|H'%list_elem_of_singleton]%elem_of_app; [by apply Hn | congruence].
  - assert (∀ A (f : Tier → Z → A),
      (let '(tier, width) := tier_of (i64_sat_sub now (sealed_at r)) in
       f tier (sealed_at r / width)) = f (bucket_of now r).1 (bucket_of now r).2) as Hb.
    { intros A f. unfold bucket_of. by destruct (tier_of _). }
    rewrite (Hb _ (λ tier q,
      let key := (tier, q) in
      let candidate := mkCandidate (sealed_at r) (sequence r) in
      let kept := match plan_buckets p !! key with
                  | Some existing => if newer candidate existing then candidate else existing
                  | None => candidate
                  end in
      Ok (mkPlanning (plan_retained p) (<[key := kept]> (plan_buckets p)) (sequence r)))).
    rewrite <- surjective_pairing. cbv zeta.
    change (mkCandidate (sealed_at r) (sequence r)) with (cand_of r).
    set (key := bucket_of now r). set (kept := match _ with Some _ => _ | None => _ end).
    eexists. split; [done |]. split; cbn.
    + by rewrite last_snoc.
    + intros s. rewrite Hr. setoid_rewrite elem_of_app. setoid_rewrite list_elem_of_singleton.
      split; intros (r' & Hr' & ? & ?); exists r'; (split; [| done]); [by left |].
      destruct Hr' as [| ->]; [done | congruence].
    + intros key' c. destruct (decide (key' = key)) as [-> | Hne].
      * rewrite lookup_insert, decide_True by done. intros [= <-]. subst kept.
        destruct (plan_buckets p !! key) as [e|] eqn:Ek.
        -- destruct (Hw key e Ek) as [(r' & ? & ?) Hmax].
           destruct (newer (cand_of r) e) eqn:Enew; split.
           ++ exists r. split; [apply elem_of_app; right; by left | done].
           ++ intros r'' [?|H'%list_elem_of_singleton]%elem_of_app Ha Hkey.
              ** eapply newer_trans_false; [by apply Hmax | by apply newer_asym].
              ** subst r''. apply newer_irrefl.
           ++ exists r'. split; [apply elem_of_app; by left | done].
           ++ intros r'' [?|H'%list_elem_of_singleton]%elem_of_app Ha Hkey; [by apply Hmax | by subst].
        -- split; [exists r; split; [apply elem_of_app; right; by left | done] |].
           intros r'' [?|H'%list_elem_of_singleton]%elem_of_app Ha Hkey.
           ++ by destruct (Hn key Ek r'').
           ++ subst r''. apply newer_irrefl.
      * rewrite lookup_insert_ne by done. intros Hc. destruct (Hw key' c Hc) as [(r' & ? & ?) Hmax]. split.
        -- exists r'. split; [apply elem_of_app; by left | done].
        -- intros r'' [?|H'%list_elem_of_singleton]%elem_of_app Ha Hkey; [by apply Hmax | by subst r''].
    + intros key' Hk r' [?|H'%list_elem_of_singleton]%elem_of_app Ha.
      * apply Hn; try done. destruct (decide (key' = key)) as [-> | Hne]; [| by rewrite lookup_insert_ne in Hk].
        by rewrite lookup_insert, decide_True in Hk.
      * subst r'. intros <-. by rewrite lookup_insert, decide_True in Hk.
Qed.

Lemma plan_fold_ok now ps rs : ∀ pre p,
  plan_inv now ps pre p →
  ∃ p', res_foldl (plan_visit now (pinned_set ps)) rs p = Ok p' ∧ plan_inv now ps (pre ++ rs) p'.
Proof.
  induction rs as [|r rs IH]; intros pre p Hp; cbn [res_foldl].
  - exists p. by rewrite app_nil_r.
  - destruct (plan_visit_ok now ps pre r p Hp) as (p1 & -> & Hp1). cbn.
    destruct (IH _ _ Hp1) as (p2 & -> & Hp2). exists p2. by rewrite <- app_assoc in Hp2.
Qed.

Lemma plan_inv_nil now ps : plan_inv now ps [] (mkPlanning ∅ ∅ 0).
Proof.
  split; cbn; [done | | by intros key c; rewrite lookup_empty |].
  - intros s. split; [by intros ?%elem_of_empty | by intros (r & ?%not_elem_of_nil & _)].
  - by intros key _ r ?%not_elem_of_nil.
Qed.

(** Everything the plan keeps is a sequence number of the log or a pin. *)
Definition seqs_of (rs : list RefRecord) (n : Z) : Prop :=
  ∀ r, r ∈ rs → 1 ≤ sequence r ≤ n.

Lemma plan_finish_ok now ps rs p :
  plan_inv now ps rs p → (∀ r, last rs = Some r → sequence r = Z.of_nat (length rs)) →
  seqs_of rs (Z.of_nat (length rs)) → Z.of_nat (length rs) ≤ u64_max →
  (∀ q, q ∈ ps → 0 < pin_sequence q ≤ u64_max) →
  let st := plan_finish now ps p in
  evaluated_through st = Z.of_nat (length rs) ∧ pins st = ps ∧ ranges_from 0 (retained st) ∧
  (∀ s, covered (retained st) s ↔ kept_by now ps rs s).
Proof.
  intros [Ht Hr Hw Hn] Hlast Hseqs Hmax Hps st.
  assert (plan_through p = Z.of_nat (length rs)) as Hth.
  { rewrite Ht. destruct (last rs) as [r|] eqn:E; [by apply Hlast |].
    by apply last_None in E as ->. }
  set (S := (if 0 <? plan_through p then {[plan_through p]} ∪ (plan_retained p
     ∪ list_to_set (cand_sequence <$> (map_to_list (plan_buckets p)).*2) ∪ pinned_set ps)
     else plan_retained p ∪ list_to_set (cand_sequence <$> (map_to_list (plan_buckets p)).*2)
     ∪ pinned_set ps) : gset Z).
  assert (∀ s, s ∈ S ↔ planned_by now ps rs s) as HS.
  { intros s. assert (s ∈ plan_retained p
       ∪ list_to_set (cand_sequence <$> (map_to_list (plan_buckets p)).*2) ∪ pinned_set ps ↔
       s ∈ pinned_set ps ∨ ∃ r, r ∈ rs ∧ sequence r = s ∧
       (always now ps r = true ∨ winner now ps rs (bucket_of now r) (cand_of r))) as Hin.
    { rewrite !elem_of_union, Hr, elem_of_list_to_set. rewrite list_elem_of_fmap.
      setoid_rewrite list_elem_of_fmap. split.
      - intros [[(r & ? & ? & ?)|(c & -> & (kc & -> & Hkc))]|?]; [right; exists r; tauto | | by left].
        right. destruct kc as [key c]. cbn. apply elem_of_map_to_list, Hw in Hkc as Hwin.
        destruct Hwin as [(r & Hrs & Ha & Hk & Hc) Hm]. exists r. subst. split_and!; [done.. |].
        right. split; [by exists r | done].
      - intros [?|(r & Hrs & <- & [Ha|[(r' & Hr' & Ha & Hk & Hc) Hm]])]; [by right | left; left; by exists r |].
        left. right. destruct (plan_buckets p !! bucket_of now r) as [c|] eqn:Eb.
        2: { by destruct (Hn _ Eb r'). }
        destruct (Hw _ _ Eb) as [(r2 & Hr2 & Ha2 & Hk2 & Hc2) Hm2].
        exists c. split.
        + specialize (Hm r2 Hr2 Ha2 Hk2). specialize (Hm2 r' Hr' Ha Hk).
          rewrite Hc in Hm2. subst c. unfold newer, cand_of in *. cbn in *. lia.
        + exists (bucket_of now r, c). split; [done |]. by apply elem_of_map_to_list. }
    unfold planned_by, S. destruct (Z.ltb_spec 0 (plan_through p)) as [Hp|Hp].
    - rewrite (elem_of_union {[plan_through p]}), elem_of_singleton, Hin, Hth.
      assert (rs ≠ []) by (intros ->; cbn in Hth; lia). tauto.
    - rewrite Hin. assert (rs = []) as -> by (destruct rs; [done | cbn in Hth; lia]).
      split; [tauto |]. intros [[? _]|?]; [done | tauto]. }
  assert (∀ x, x ∈ S → 0 < x ≤ u64_max) as Hb.
  { intros x Hx%HS. destruct Hx as [[Hne ->]|[Hx|(r & Hx & <- & _)]].
    - destruct rs; [done | cbn [length] in *; lia].
    - unfold pinned_set in Hx. apply elem_of_list_to_set, list_elem_of_fmap in Hx as (q & -> & Hq).
      by apply Hps.
    - specialize (Hseqs r Hx). lia. }
  destruct (compress_sequences_ok 0 S) as [Hrf Hcov]; [lia | done |].
  split; [done |]. split; [done |]. split; [exact Hrf |]. intros s. rewrite <- planned_kept, <- HS. apply Hcov.
Qed.

(** ** The chain of states in the log *)

Lemma ret_max_bound : 0 ≤ Retention.MAX_RECORD < 2 ^ 32.
Proof. done. Qed.

Section RetentionSpec.
Context `{Blake3Ok, JsonOk RefRecord, JsonOk RetentionState}.

Definition state_frame (st : RetentionState) : bytes := frame MAGIC (to_vec st).
Definition state_id (st : RetentionState) : ObjectId :=
  blake3 (MAGIC ++ to_le 4 (blen (to_vec st)) ++ blake3 (to_vec st) ++ to_vec st).
Definition state_bytes (sts : list RetentionState) : bytes := concat (map state_frame sts).
Definition state_fits (st : RetentionState) : Prop := blen (to_vec st) ≤ MAX_RECORD.

(** A state the reader accepts. *)
Definition valid (st : RetentionState) : Prop := validate_state st = Ok ().

(** The states of a log: numbered from one, each naming the frame before it,
    each valid. *)
Fixpoint state_chain (n : Z) (prev : ObjectId) (sts : list RetentionState) : Prop :=
  match sts with
  | [] => True
  | st :: sts => event_sequence st = n + 1 ∧ prev_frame st = prev ∧ valid st ∧ state_fits st ∧
                 state_chain (n + 1) (state_id st) sts
  end.
Definition latest (sts : list RetentionState) : RetentionState := default initial (last sts).
Definition latest_id (prev : ObjectId) (sts : list RetentionState) : ObjectId :=
  match last sts with Some st => state_id st | None => prev end.
Definition ret_torn : bytes → Prop := torn MAGIC MAX_RECORD.

(** The retention log holds the states [sts], then a torn tail. *)
Definition ret_is (t : Timeline) (sts : list RetentionState) : Prop :=
  state_chain 0 zero_id sts ∧
  ∃ tail, ret_torn tail ∧ default [] (ret_file t) = state_bytes sts ++ tail.

#[local] Arguments blen : simpl never.
#[local] Arguments state_frame : simpl never.
#[local] Arguments state_id : simpl never.

Lemma ret_magic_len : blen MAGIC = 4.
Proof. done. Qed.
Local Hint Resolve ret_magic_len ret_max_bound : core.

Lemma blen_state_frame st : 40 ≤ blen (state_frame st).
Proof. unfold state_frame. rewrite blen_frame by done. pose proof (blen_nonneg (to_vec st)). lia. Qed.

Lemma state_bytes_cons st sts : state_bytes (st :: sts) = state_frame st ++ state_bytes sts.
Proof. done. Qed.
Lemma state_bytes_app sts sts' : state_bytes (sts ++ sts') = state_bytes sts ++ state_bytes sts'.
Proof. unfold state_bytes. by rewrite map_app, concat_app. Qed.
Lemma length_state_bytes sts : (length sts ≤ length (state_bytes sts))%nat.
Proof.
  induction sts as [|st sts IH]; [cbn; lia |].
  rewrite state_bytes_cons, length_app. pose proof (blen_state_frame st) as Hp.
  unfold blen in Hp. cbn [length]. lia.
Qed.

Lemma read_frame_app pre st post :
  state_fits st →
  read_frame (pre ++ state_frame st ++ post) (blen pre) =
  Ok (Some (st, state_id st, blen pre + blen (state_frame st))).
Proof.
  intros Hst. unfold read_frame, state_frame. rewrite read_payload_frame by done.
  cbn [mbind Res_bind]. rewrite from_to. done.
Qed.
Lemma read_frame_torn pre tail : ret_torn tail → read_frame (pre ++ tail) (blen pre) = Ok None.
Proof. intros Ht. unfold read_frame. by rewrite read_payload_torn_tail. Qed.

Lemma latest_cons_run st sts prev st0 :
  default st (last sts) = default st0 (last (st :: sts)) ∧
  latest_id (state_id st) sts = latest_id prev (st :: sts).
Proof. unfold latest_id. rewrite last_cons. by destruct (last sts). Qed.

Lemma read_latest_loop_run fuel pre sts tail n prev st0 :
  state_chain n prev sts → event_sequence st0 = n → ret_torn tail → (length sts < fuel)%nat →
  read_latest_loop fuel (pre ++ state_bytes sts ++ tail) (blen pre) st0 prev =
  Ok (default st0 (last sts),
      if decide (tail = []) then None else Some (blen pre + blen (state_bytes sts))).
Proof.
  intros Hc Hn Ht. revert fuel pre n prev st0 Hc Hn.
  induction sts as [|st sts IH]; intros [|fuel] pre n prev st0 Hc Hn Hfuel; try (cbn in *; lia).
  - cbn [read_latest_loop]. change (state_bytes []) with (@nil Byte.byte). cbn [app].
    rewrite blen_app, blen_nil, Z.add_0_r. case_decide as Hd.
    + subst tail. by rewrite blen_nil, Z.add_0_r, Z.ltb_irrefl.
    + assert (0 < blen tail) by (destruct tail; [done | blia]).
      rewrite (proj2 (Z.ltb_lt _ _)) by lia. by rewrite read_frame_torn.
  - destruct Hc as (He & Hp & Hv & Hf & Hc). cbn [read_latest_loop].
    rewrite state_bytes_cons, (proj2 (Z.ltb_lt _ _)).
    2: { pose proof (blen_state_frame st). blia. }
    rewrite <- app_assoc, read_frame_app by done. cbn [mbind Res_bind].
    rewrite (proj2 (Z.eqb_eq _ _)), bool_decide_true, Hv by (first [done | lia]). cbn.
    rewrite <- blen_app, app_assoc. rewrite (IH _ _ (n + 1)); [| done | lia | cbn in Hfuel; lia].
    rewrite !blen_app, Z.add_assoc. do 2 f_equal.
    apply (proj1 (latest_cons_run st sts prev st0)).
Qed.

Lemma frame_hash_loop_run fuel pre sts tail prev n latest :
  state_chain n prev sts → ret_torn tail → (length sts < fuel)%nat →
  frame_hash_loop fuel (pre ++ state_bytes sts ++ tail) (blen pre) latest =
  Ok (match last sts with Some st => Some (state_id st) | None => latest end).
Proof.
  intros Hc Ht. revert fuel pre n prev latest Hc.
  induction sts as [|st sts IH]; intros [|fuel] pre n prev latest Hc Hfuel; try (cbn in *; lia).
  - cbn [frame_hash_loop]. change (state_bytes []) with (@nil Byte.byte). cbn [app].
    destruct (_ <? _); [| done]. by rewrite read_frame_torn.
  - destruct Hc as (_ & _ & _ & Hf & Hc). cbn [frame_hash_loop].
    rewrite state_bytes_cons, (proj2 (Z.ltb_lt _ _)).
    2: { pose proof (blen_state_frame st). blia. }
    rewrite <- app_assoc, read_frame_app by done. cbn [mbind Res_bind].
    rewrite <- blen_app, app_assoc. rewrite (IH _ _ (n + 1) (state_id st)); [| done | cbn in Hfuel; lia].
    rewrite last_cons. by destruct (last sts).
Qed.

(** ** Validation *)

Fixpoint pins_from (prev : Z) (ps : list Pin) : Prop :=
  match ps with
  | [] => True
  | p :: ps => prev < pin_sequence p ∧ pins_from (pin_sequence p) ps
  end.

Lemma validate_pins_spec prev ps : validate_pins prev ps = Ok () ↔ pins_from prev ps.
Proof.
  revert prev. induction ps as [|p ps IH]; intros prev; cbn; [done |].
  destruct (Z.ltb_spec prev (pin_sequence p)); cbn; rewrite ?IH; [tauto |].
  split; [done | lia].
Qed.

Lemma validate_ranges_ok through prev rs :
  0 ≤ prev → validate_ranges through prev rs = Ok () ↔
  ranges_from prev rs ∧ ∀ r, r ∈ rs → last_ r ≤ through.
Proof.
  revert prev. induction rs as [|r rs IH]; intros prev Hp; cbn [validate_ranges ranges_from].
  { split; [| done]. intros _. split; [done |]. by intros r ?%not_elem_of_nil. }
  destruct (Z.ltb_spec 0 (first r)); cbn [andb ensure mbind Res_bind]; [| split; [done | lia]].
  destruct (Z.leb_spec (first r) (last_ r)); cbn [ensure mbind Res_bind]; [| split; [done | lia]].
  destruct (Z.ltb_spec prev (first r)); cbn [ensure mbind Res_bind]; [| split; [done | lia]].
  destruct (Z.leb_spec (last_ r) through); cbn [ensure mbind Res_bind].
  - rewrite IH by lia. split.
    + intros [? Hl]. split; [done |]. intros r' [->|?]%elem_of_cons; auto.
    + intros [(? & ? & ?) Hl]. split; [done |]. intros r' ?. apply Hl. by right.
  - split; [done |]. intros [_ Hl]. specialize (Hl r ltac:(by left)). lia.
Qed.

Lemma validate_ranges_exceeds through prev rs r :
  0 ≤ prev → ranges_from prev rs → r ∈ rs → through < last_ r →
  validate_ranges through prev rs = Err "retained range exceeds evaluated history".
Proof.
  revert prev. induction rs as [|r' rs IH]; intros prev Hp; [by intros _ ?%not_elem_of_nil |].
  cbn. intros (H1' & H2' & Hrs) Hr Hlt.
  rewrite (proj2 (Z.ltb_lt 0 _)), (proj2 (Z.leb_le (first r') _)), (proj2 (Z.ltb_lt prev _)) by lia. cbn.
  destruct (Z.leb_spec (last_ r') through); cbn; [| done].
  apply IH; [lia | done | | done]. apply elem_of_cons in Hr as [->|]; [lia | done].
Qed.

Lemma valid_spec st :
  valid st ↔ ranges_from 0 (retained st) ∧
             (∀ r, r ∈ retained st → last_ r ≤ evaluated_through st) ∧ pins_from 0 (pins st).
Proof.
  unfold valid, validate_state.
  pose proof (validate_ranges_ok (evaluated_through st) 0 (retained st) ltac:(lia)) as Hr.
  pose proof (validate_pins_spec 0 (pins st)) as Hp.
  destruct (validate_ranges _ _ _) as [[]|e]; cbn [mbind Res_bind].
  - rewrite Hp. tauto.
  - split; [done |]. intros (? & ? & ?). apply Hr. tauto.
Qed.

Lemma state_chain_app n prev sts st :
  state_chain n prev sts → event_sequence st = n + Z.of_nat (length sts) + 1 →
  prev_frame st = latest_id prev sts → valid st → state_fits st →
  state_chain n prev (sts ++ [st]).
Proof.
  revert n prev. induction sts as [|st' sts IH]; intros n prev; cbn [app state_chain length].
  - intros _ He Hp Hv Hf. split_and!; [lia | done..].
  - intros (H1' & H2' & H3' & H4' & Hc) He Hp Hv Hf. split_and!; try done.
    apply IH; [done | lia | | done | done].
    by rewrite (proj2 (latest_cons_run st' sts prev st')).
Qed.

Lemma state_chain_latest n prev sts :
  state_chain n prev sts → ∀ st, last sts = Some st → valid st ∧ event_sequence st = n + Z.of_nat (length sts).
Proof.
  revert n prev. induction sts as [|st' sts IH]; intros n prev; [done |].
  intros (He & _ & Hv & _ & Hc) st. rewrite last_cons. destruct (last sts) as [st2|] eqn:El.
  - intros [= <-]. destruct (IH _ _ Hc st2 eq_refl). cbn [length]. split; [done | lia].
  - intros [= <-]. apply last_None in El as ->. cbn. split; [done | lia].
Qed.

Lemma latest_valid sts : state_chain 0 zero_id sts →
  valid (latest sts) ∧ event_sequence (latest sts) = Z.of_nat (length sts).
Proof.
  intros Hc. unfold latest. destruct (last sts) as [st|] eqn:E; cbn.
  - by apply (state_chain_latest _ _ _ Hc) in E.
  - by apply last_None in E as ->.
Qed.

(** ** The operations of the log *)

Definition settled (t : Timeline) (sts : list RetentionState) : Prop :=
  state_chain 0 zero_id sts ∧ ret_file t = Some (state_bytes sts).

Lemma ret_torn_nil : ret_torn [].
Proof. by apply torn_nil. Qed.

Lemma settled_is t sts : settled t sts → ret_is t sts.
Proof.
  intros [Hc Hf]. split; [done |]. exists []. split; [exact ret_torn_nil |].
  by rewrite Hf, app_nil_r.
Qed.

(** Opening and reading the log: the latest state, and the torn tail is gone. *)
Lemma open_latest_run {A} (k : RetentionState → M Timeline A) t sts :
  ret_is t sts →
  (_ ← ret_open; st ← read_latest; k st) t = k (latest sts) (set_ret (Some (state_bytes sts)) t).
Proof.
  intros (Hc & tail & Ht & Hf). unfold ret_open, read_latest, ret_data.
  unfold mbind at 1, M_bind at 1. rewrite Hf.
  unfold mbind at 1, M_bind at 1. unfold mbind at 1, M_bind at 1. unfold gets. cbn [ret_file set_ret from_option].
  unfold id. pose proof (length_state_bytes sts).
  pose proof (read_latest_loop_run (S (length (state_bytes sts ++ tail))) [] sts tail 0 zero_id initial
    Hc eq_refl Ht ltac:(rewrite length_app; lia)) as Hrun.
  cbn [app] in Hrun. change (blen []) with 0 in Hrun. rewrite Hrun.
  unfold mbind at 1, M_bind at 1, lift. cbn [ret_file set_ret].
  case_decide as Hd.
  - subst tail. rewrite app_nil_r. cbn. done.
  - cbn. rewrite Z.add_0_l, take_app_length' by (unfold blen; lia). done.
Qed.

Lemma state_run t sts :
  ret_is t sts → ∃ t', state t = (Ok (latest sts), t') ∧ ret_is t' sts ∧ ref_log t' = ref_log t.
Proof.
  intros Hr. unfold state. mpure. destruct (ret_file t) as [f|] eqn:Ef.
  - pose proof (open_latest_run (λ st, mret st) t sts Hr) as Hrun.
    exists (set_ret (Some (state_bytes sts)) t). split; [| split; [| done]].
    + transitivity ((_ ← ret_open; st ← read_latest; mret st) t); [| exact Hrun].
      unfold mbind, M_bind. destruct (ret_open t) as [[?|?] ?]; [| done].
      by destruct (read_latest _) as [[?|?] ?].
    + apply settled_is. split; [apply Hr | done].
  - exists t. split; [| done]. destruct Hr as (Hc & tail & _ & Hf). rewrite Ef in Hf. cbn in Hf.
    symmetry in Hf. apply app_nil in Hf as [Hs _]. destruct sts as [|st sts]; [done |].
    rewrite state_bytes_cons in Hs. apply (f_equal length) in Hs. rewrite length_app in Hs.
    pose proof (blen_state_frame st). unfold blen in *. cbn [length] in Hs. lia.
Qed.

Lemma current_frame_hash_run t sts :
  settled t sts → current_frame_hash t = (Ok (state_id <$> last sts), t).
Proof.
  intros [Hc Hf]. unfold current_frame_hash, ret_data. mpure. rewrite Hf. cbn [from_option]. unfold id, lift.
  f_equal. pose proof (length_state_bytes sts).
  pose proof (frame_hash_loop_run (S (length (state_bytes sts))) [] sts [] zero_id 0 None Hc
    ret_torn_nil ltac:(lia)) as Hrun.
  rewrite app_nil_r in Hrun. cbn [app] in Hrun. change (blen []) with 0 in Hrun. rewrite Hrun.
  by destruct (last sts).
Qed.

Lemma append_state_run t sts st :
  settled t sts → state_fits st →
  append_state st t = (Ok tt, set_ret (Some (state_bytes (sts ++ [st]))) t).
Proof.
  intros [_ Hf] Hst. unfold append_state. rewrite mensure_bind by by apply Z.leb_le.
  unfold modify. rewrite Hf. cbn [from_option]. unfold id.
  rewrite state_bytes_app, state_bytes_cons. change (state_bytes []) with (@nil Byte.byte).
  by rewrite app_nil_r.
Qed.

(** The record an event writes for a new state. *)
Definition event (sts : list RetentionState) (st : RetentionState) : RetentionState :=
  with_event (event_sequence (latest sts) + 1) (latest_id zero_id sts) st.

(** The tail every mutating operation ends with: hash, append, answer. *)
Lemma write_event_run {A} t sts st (a : A) :
  settled t sts →
  ∃ t', (if decide (state_fits (event sts st))
         then (hash ← current_frame_hash;
               _ ← append_state (with_event (event_sequence (latest sts) + 1) (default zero_id hash) st);
               mret a) t = (Ok a, t') ∧ ret_file t' = Some (state_bytes (sts ++ [event sts st]))
         else (hash ← current_frame_hash;
               _ ← append_state (with_event (event_sequence (latest sts) + 1) (default zero_id hash) st);
               mret a) t = (Err "retention record is too large", t') ∧ ret_file t' = Some (state_bytes sts)) ∧
        ref_log t' = ref_log t.
Proof.
  intros Hs.
  assert (default zero_id (state_id <$> last sts) = latest_id zero_id sts) as Hid.
  { unfold latest_id. by destruct (last sts). }
  case_decide as Hfit.
  - exists (set_ret (Some (state_bytes (sts ++ [event sts st]))) t).
    split; [| done]. split; [| done]. mrun (current_frame_hash_run t sts Hs). rewrite Hid.
    by mrun (append_state_run t sts (event sts st) Hs Hfit).
  - exists t. split; [| done]. split; [| apply Hs]. mrun (current_frame_hash_run t sts Hs). rewrite Hid.
    change (with_event _ _ st) with (event sts st). unfold append_state.
    rewrite (proj2 (Z.leb_gt _ _)) by (unfold state_fits in Hfit; lia). done.
Qed.

Lemma event_valid sts st :
  state_chain 0 zero_id sts → valid st → state_fits (event sts st) →
  state_chain 0 zero_id (sts ++ [event sts st]).
Proof.
  intros Hc Hv Hf. destruct (latest_valid sts Hc) as [_ He].
  apply state_chain_app; [done | cbn; lia | done | exact Hv | done].
Qed.

(** ** Planning from the reference log *)

(** The state a plan computes from the log's records and the current pins. *)
Definition planned (now : Z) (ps : list Pin) (rs : list RefRecord) : RetentionState :=
  match res_foldl (plan_visit now (pinned_set ps)) rs (mkPlanning ∅ ∅ 0) with
  | Ok p => plan_finish now ps p
  | Err _ => initial
  end.

Definition pins_within (ps : list Pin) (n : Z) : Prop := ∀ p, p ∈ ps → 0 < pin_sequence p ≤ n.

Lemma well_chained_seqs rs : well_chained rs →
  seqs_of rs (Z.of_nat (length rs)) ∧ ∀ r, last rs = Some r → sequence r = Z.of_nat (length rs).
Proof.
  intros [Hc _]. split.
  - intros r [k Hk]%list_elem_of_lookup. rewrite (sequence_lookup _ _ _ _ _ Hc Hk).
    apply lookup_lt_Some in Hk. lia.
  - intros r Hr. rewrite last_lookup in Hr. rewrite (sequence_lookup _ _ _ _ _ Hc Hr).
    apply lookup_lt_Some in Hr. lia.
Qed.

Lemma recoverable_length l rs : recoverable l rs → Z.of_nat (length rs) < 2 ^ 62.
Proof.
  intros (_ & (tail & _ & f & _ & Hd & _ & Hb) & _). rewrite Hd in Hb.
  pose proof (length_log_bytes rs). unfold blen in Hb. rewrite length_app in Hb. lia.
Qed.

Lemma planned_spec now ps rs :
  well_chained rs → Z.of_nat (length rs) < 2 ^ 62 → pins_within ps u64_max →
  let st := planned now ps rs in
  evaluated_through st = Z.of_nat (length rs) ∧ pins st = ps ∧ ranges_from 0 (retained st) ∧
  (∀ s, covered (retained st) s ↔ kept_by now ps rs s).
Proof.
  intros Hwc Hlen Hps. destruct (well_chained_seqs rs Hwc) as [Hs Hl].
  destruct (plan_fold_ok now ps rs [] _ (plan_inv_nil now ps)) as (p & Hp & Hinv).
  unfold planned. rewrite Hp. apply plan_finish_ok; try done. unfold u64_max. lia.
Qed.

Lemma plan_state_run now t rs ps :
  well_chained rs → recoverable (ref_log t) rs →
  ∃ l', plan_state now ps t = (Ok (planned now ps rs), mkTimeline (ret_file t) l') ∧ coherent l' rs.
Proof.
  intros Hwc Hre. unfold plan_state.
  destruct (for_each_record_run (plan_visit now (pinned_set ps)) (mkPlanning ∅ ∅ 0) (ref_log t) rs Hwc Hre)
    as (l' & Hrun & Hco).
  destruct (plan_fold_ok now ps rs [] _ (plan_inv_nil now ps)) as (p & Hp & _).
  exists l'. split; [| done]. unfold planned. rewrite Hp in *.
  unfold mbind, M_bind, on_refs. change (list_to_set (map pin_sequence ps)) with (pinned_set ps).
  by rewrite Hrun.
Qed.

(** Pins of the log keep a planned state valid. *)
Lemma planned_valid now ps rs :
  well_chained rs → Z.of_nat (length rs) < 2 ^ 62 → pins_from 0 ps →
  pins_within ps (Z.of_nat (length rs)) → valid (planned now ps rs).
Proof.
  intros Hwc Hlen Hpf Hps. destruct (well_chained_seqs rs Hwc) as [Hs _].
  destruct (planned_spec now ps rs Hwc Hlen) as (He & Hp & Hrf & Hc).
  { intros p Hp. specialize (Hps p Hp). unfold u64_max. lia. }
  apply valid_spec. rewrite He, Hp. split_and!; [done | | done].
  intros r Hr. pose proof (ranges_from_bounds _ _ r Hrf Hr).
  assert (covered (retained (planned now ps rs)) (last_ r)) as [[? ->]|[Hx|(q & Hq & <- & _)]]%Hc.
  - exists r. split; [done |]. unfold in_range. lia.
  - done.
  - destruct Hx as (q & Hq & <-). apply Hps, Hq.
  - by apply Hs.
Qed.

(** [apply] from any log, up to what it does with the planned state. *)
Lemma apply_run now t sts rs :
  ret_is t sts → well_chained rs → recoverable (ref_log t) rs →
  let p := planned now (pins (latest sts)) rs in
  ∃ t', coherent (ref_log t') rs ∧
    if same_policy_state (latest sts) p
    then apply now t = (Ok (latest sts), t') ∧ ret_file t' = Some (state_bytes sts)
    else if decide (state_fits (event sts p))
    then apply now t = (Ok (event sts p), t') ∧ ret_file t' = Some (state_bytes (sts ++ [event sts p]))
    else apply now t = (Err "retention record is too large", t') ∧ ret_file t' = Some (state_bytes sts).
Proof.
  intros Hr Hwc Hre p. unfold apply. rewrite (open_latest_run _ t sts Hr).
  destruct (plan_state_run now (set_ret (Some (state_bytes sts)) t) rs (pins (latest sts)) Hwc Hre)
    as (l' & Hplan & Hco).
  mrun Hplan. set (t1 := mkTimeline _ l'). change (planned _ _ _) with p.
  destruct (same_policy_state (latest sts) p); [by exists t1 |].
  assert (settled t1 sts) as Hs by (split; [apply Hr | done]).
  destruct (write_event_run t1 sts p (event sts p) Hs) as (t2 & Hw & Hl).
  exists t2. split; [by rewrite Hl |].
  match goal with |- context [mbind ?f current_frame_hash t1] =>
    assert (mbind f current_frame_hash t1 = (hash ← current_frame_hash;
      _ ← append_state (with_event (event_sequence (latest sts) + 1) (default zero_id hash) p);
      mret (event sts p)) t1) as -> end; [| done].
  mrun (current_frame_hash_run t1 sts Hs). mrun (current_frame_hash_run t1 sts Hs).
  assert (default zero_id (state_id <$> last sts) = latest_id zero_id sts) as ->.
  { unfold latest_id. by destruct (last sts). }
  done.
Qed.

Lemma apply_effect now t sts rs :
  ret_is t sts → well_chained rs → recoverable (ref_log t) rs →
  pins_within (pins (latest sts)) (Z.of_nat (length rs)) →
  let planned_state := planned now (pins (latest sts)) rs in
  ∃ t' sts', coherent (ref_log t') rs ∧ ret_is t' sts' ∧
    (sts' = sts ∨ sts' = sts ++ [event sts planned_state]) ∧
    (state_fits (event sts planned_state) →
     apply now t = (Ok (latest sts'), t') ∧
     evaluated_through (latest sts') = Z.of_nat (length rs) ∧
     pins (latest sts') = pins (latest sts) ∧
     (∀ s, retains_in_ranges (latest sts') s = true ↔ kept_by now (pins (latest sts)) rs s)) ∧
    (¬ state_fits (event sts planned_state) → sts' = sts).
Proof.
  intros Hr Hwc Hre Hpins. pose proof (recoverable_length _ _ Hre) as Hlen.
  destruct (apply_run now t sts rs Hr Hwc Hre) as (t' & Hco & Hrun).
  destruct (latest_valid sts (proj1 Hr)) as [Hv _]. pose proof Hv as (Hvr & _ & Hpf)%valid_spec.
  pose proof (planned_valid now _ _ Hwc Hlen Hpf Hpins) as Hpv.
  destruct (planned_spec now (pins (latest sts)) rs Hwc Hlen) as (He & Hp & Hrf & Hc).
  { intros q Hq. specialize (Hpins q Hq). unfold u64_max. lia. }
  set (pl := planned now (pins (latest sts)) rs) in *. cbv zeta.
  assert (∀ f, ret_file f = Some (state_bytes sts) → ret_is f sts) as Hsame.
  { intros f Hf. apply settled_is. split; [apply Hr | done]. }
  destruct (same_policy_state (latest sts) pl) eqn:Esame.
  - destruct Hrun as [Hrun Hf]. exists t', sts. split; [done |].
    split; [by apply Hsame |]. split; [by left |]. split; [| done]. intros _.
    unfold same_policy_state in Esame. apply andb_true_iff in Esame as [[Ee Er]%andb_true_iff Ep].
    apply bool_decide_eq_true in Er, Ep. split; [done |]. split; [lia |]. split; [done |].
    intros s. rewrite (retains_in_ranges_spec 0 _ _ Hvr). rewrite Er. apply Hc.
  - case_decide as Hfit.
    + destruct Hrun as [Hrun Hf]. exists t', (sts ++ [event sts pl]).
      assert (latest (sts ++ [event sts pl]) = event sts pl) as -> by (unfold latest; by rewrite last_snoc).
      split; [done |].
      split; [apply settled_is; split; [by apply event_valid; [apply Hr | |] | done] |].
      split; [by right |]. split; [| done]. intros _. split; [done |]. split; [done |]. split; [done |].
      intros s. rewrite (retains_in_ranges_spec 0 (event sts pl) s Hrf). apply Hc.
    + destruct Hrun as [Hrun Hf]. exists t', sts. split; [done |].
      split; [by apply Hsame |]. split; [by left | done].
Qed.

(** C18 Thinning: [apply] leaves a valid log whose latest state retains
    exactly the head, the pins, everything sealed in the last day and the
    newest snapshot of each older hour, day or week; it writes only when that
    set changed, and a state too large to record leaves the log as it was. *)
Theorem apply_spec now t sts rs :
  ret_is t sts → well_chained rs → recoverable (ref_log t) rs →
  pins_within (pins (latest sts)) (Z.of_nat (length rs)) →
  let planned_state := planned now (pins (latest sts)) rs in
  ∃ t' sts', coherent (ref_log t') rs ∧ ret_is t' sts' ∧
    (sts' = sts ∨ sts' = sts ++ [event sts planned_state]) ∧
    (state_fits (event sts planned_state) →
     apply now t = (Ok (latest sts'), t') ∧
     evaluated_through (latest sts') = Z.of_nat (length rs) ∧
     pins (latest sts') = pins (latest sts) ∧
     (∀ s, retains_in_ranges (latest sts') s = true ↔ kept_by now (pins (latest sts)) rs s)) ∧
    (¬ state_fits (event sts planned_state) → sts' = sts).
Proof. apply apply_effect. Qed.

Lemma same_policy_refl n id st : same_policy_state (with_event n id st) st = true.
Proof. unfold same_policy_state. cbn. by rewrite Z.eqb_refl, !bool_decide_true. Qed.

(** Thinning twice with the same clock and the same history changes
    nothing the second time: the log keeps its bytes and the answer is the
    state the first run left. *)
Theorem apply_idempotent now t sts rs st t1 :
  ret_is t sts → well_chained rs → recoverable (ref_log t) rs →
  pins_within (pins (latest sts)) (Z.of_nat (length rs)) →
  apply now t = (Ok st, t1) →
  ∃ t2, apply now t1 = (Ok st, t2) ∧ ret_file t2 = ret_file t1.
Proof.
  intros Hr Hwc Hre Hpins Hap. pose proof (recoverable_length _ _ Hre) as Hlen.
  destruct (apply_run now t sts rs Hr Hwc Hre) as (t' & Hco & Hrun).
  destruct (latest_valid sts (proj1 Hr)) as [(_ & _ & Hpf)%valid_spec _].
  pose proof (planned_valid now _ _ Hwc Hlen Hpf Hpins) as Hpv.
  assert (pins (planned now (pins (latest sts)) rs) = pins (latest sts)) as Hp.
  { apply planned_spec; [done | done |]. intros q Hq. specialize (Hpins q Hq). unfold u64_max. lia. }
  set (pl := planned now (pins (latest sts)) rs) in *.
  assert (∃ sts', ret_is t1 sts' ∧ ret_file t1 = Some (state_bytes sts') ∧ latest sts' = st ∧
            coherent (ref_log t1) rs ∧ pins (latest sts') = pins (latest sts) ∧
            same_policy_state (latest sts') pl = true) as (sts' & Hr1 & Hf1 & Hst & Hco1 & Hp1 & Hsame).
  { destruct (same_policy_state (latest sts) pl) eqn:Esame.
    - destruct Hrun as [Hrun Hf]. rewrite Hap in Hrun. injection Hrun as -> ->.
      exists sts. split; [apply settled_is; split; [apply Hr | done] |]. done.
    - case_decide as Hfit; destruct Hrun as [Hrun Hf]; rewrite Hap in Hrun; [| done].
      injection Hrun as -> ->. exists (sts ++ [event sts pl]).
      assert (latest (sts ++ [event sts pl]) = event sts pl) as -> by (unfold latest; by rewrite last_snoc).
      split; [apply settled_is; split; [by apply event_valid; [apply Hr | |] | done] |].
      split; [done |]. split; [done |]. split; [done |]. split; [done |]. apply same_policy_refl. }
  destruct (apply_run now t1 sts' rs Hr1 Hwc (coherent_recoverable _ _ Hco1)) as (t2 & _ & Hrun2).
  rewrite Hp1 in Hrun2. change (planned _ _ _) with pl in Hrun2. rewrite Hsame in Hrun2.
  destruct Hrun2 as [Hrun2 Hf2]. exists t2. rewrite Hrun2, Hst, Hf2, Hf1. done.
Qed.

(** ** Pins *)

Lemma insert_pin_elem p ps q : q ∈ insert_pin p ps ↔ q = p ∨ q ∈ ps.
Proof.
  induction ps as [|p' ps IH]; cbn.
  - rewrite list_elem_of_singleton, elem_of_nil. tauto.
  - case_decide; rewrite !elem_of_cons, ?IH; tauto.
Qed.

Lemma insert_pin_from prev p ps :
  pins_from prev ps → prev < pin_sequence p → (∀ q, q ∈ ps → pin_sequence q ≠ pin_sequence p) →
  pins_from prev (insert_pin p ps).
Proof.
  revert prev. induction ps as [|q ps IH]; intros prev; cbn; [tauto |].
  intros [Hq Hps] Hp Hne. case_decide; cbn; [tauto |]. split; [done |].
  pose proof (Hne q ltac:(by left)). apply IH; [done | lia |]. intros q' ?. apply Hne. by right.
Qed.

Lemma pins_from_lt prev ps p : pins_from prev ps → p ∈ ps → prev < pin_sequence p.
Proof.
  revert prev. induction ps as [|q ps IH]; intros prev; cbn; [by intros _ ?%not_elem_of_nil |].
  intros [Hq Hps] [->|Hp]%elem_of_cons; [done |]. specialize (IH _ Hps Hp). lia.
Qed.

Lemma insert_pin_end prev ps p :
  pins_from prev ps → (∀ q, q ∈ ps → pin_sequence q ≤ pin_sequence p) → insert_pin p ps = ps ++ [p].
Proof.
  revert prev. induction ps as [|q ps IH]; intros prev; cbn; [done |]. intros [Hq Hps] Hle.
  rewrite decide_False by (pose proof (Hle q ltac:(by left)); lia).
  f_equal. eapply IH; [done |]. intros q' ?. apply Hle. by right.
Qed.

(** Pins already in order stay as they are. *)
Lemma pins_from_app prev ps qs :
  pins_from prev (ps ++ qs) ↔ pins_from prev ps ∧
    pins_from (match last ps with Some p => pin_sequence p | None => prev end) qs.
Proof.
  revert prev. induction ps as [|p ps IH]; intros prev; cbn [app pins_from]; [cbn; tauto |].
  rewrite IH, last_cons. destruct (last ps); tauto.
Qed.

Lemma sort_pins_sorted ps : pins_from 0 ps → sort_pins ps = ps.
Proof.
  unfold sort_pins. induction ps as [|p ps IH] using rev_ind; [done |].
  intros [Hps Hp]%pins_from_app. rewrite foldl_app, (IH Hps). cbn.
  apply (insert_pin_end 0); [done |]. intros q Hq. destruct Hp as [Hp _].
  destruct ps as [|p' ps _] using rev_ind; [by apply not_elem_of_nil in Hq |].
  rewrite last_snoc in Hp. apply pins_from_app in Hps as [Hps [Hlast _]].
  apply elem_of_app in Hq as [Hq|Hq%list_elem_of_singleton]; [| subst; lia].
  destruct ps as [|p2 ps _] using rev_ind; [by apply not_elem_of_nil in Hq |].
  clear IH. rewrite last_snoc in Hlast.
  assert (∀ prev ps p2 q, pins_from prev (ps ++ [p2]) → q ∈ ps ++ [p2] → pin_sequence q ≤ pin_sequence p2) as Hmax.
  { clear. intros prev ps. revert prev. induction ps as [|p ps IH]; intros prev p2 q; cbn.
    - by intros _ ->%list_elem_of_singleton.
    - intros [_ H] [->|Hq]%elem_of_cons; [| by eapply IH].
      assert (pin_sequence p < pin_sequence p2); [| lia].
      eapply pins_from_lt; [exact H |]. apply elem_of_app. right. by left. }
  specialize (Hmax _ _ _ q Hps Hq). lia.
Qed.

Lemma sort_pins_snoc ps p : pins_from 0 ps → sort_pins (ps ++ [p]) = insert_pin p ps.
Proof.
  intros Hps. unfold sort_pins. rewrite foldl_app. cbn. f_equal. by apply sort_pins_sorted.
Qed.

(** Every pin names a record of the log. *)
Definition pins_agree (ps : list Pin) (rs : list RefRecord) : Prop :=
  ∀ p, p ∈ ps → ∃ r, r ∈ rs ∧ sequence r = pin_sequence p ∧ snapshot_id r = pin_snapshot p.

Lemma is_pinned_spec st id : is_pinned st id = true ↔ ∃ p, p ∈ pins st ∧ pin_snapshot p = id.
Proof.
  unfold is_pinned. rewrite existsb_exists. split.
  - intros (p & Hp & Hid%bool_decide_eq_true). exists p. by rewrite list_elem_of_In.
  - intros (p & Hp & Hid). exists p. rewrite <- list_elem_of_In, bool_decide_eq_true. done.
Qed.

Lemma find_run t rs id :
  well_chained rs → recoverable (ref_log t) rs →
  ∃ l', on_refs (find id) t =
          (Ok (last_with id rs None), mkTimeline (ret_file t) l') ∧ coherent l' rs.
Proof.
  intros Hwc Hre. unfold find.
  destruct (for_each_record_run (λ r found, Ok (if decide (snapshot_id r = id) then Some r else found))
              None (ref_log t) rs Hwc Hre) as (l' & Hrun & Hco).
  exists l'. split; [| done]. unfold on_refs. by rewrite Hrun, res_foldl_find.
Qed.

Lemma last_with_in id rs r : last_with id rs None = Some r → r ∈ rs ∧ snapshot_id r = id.
Proof.
  rewrite last_with_spec. destruct (last _) as [r'|] eqn:E; [| done]. intros [= <-].
  rewrite last_lookup in E. apply list_elem_of_lookup_2, list_elem_of_filter in E. tauto.
Qed.

(** C19 Pinning: an unknown snapshot is refused before the log is touched, a
    pinned one is a no-op, and otherwise the pin of its last record is added,
    in order, so that the state stays valid and still names records of the
    timeline. *)
Theorem pin_spec id t sts rs :
  ret_is t sts → well_chained rs → recoverable (ref_log t) rs →
  pins_agree (pins (latest sts)) rs →
  match last_with id rs None with
  | None => ∃ t', pin id t = (Err "snapshot does not belong to this workspace timeline", t') ∧
                  ret_file t' = ret_file t
  | Some r =>
    let st := with_pins (insert_pin (mkPin (sequence r) id) (pins (latest sts))) (latest sts) in
    if is_pinned (latest sts) id
    then ∃ t', pin id t = (Ok false, t') ∧ ret_is t' sts ∧ coherent (ref_log t') rs
    else state_fits (event sts st) →
         ∃ t', pin id t = (Ok true, t') ∧ ret_is t' (sts ++ [event sts st]) ∧
               coherent (ref_log t') rs ∧ pins_agree (pins st) rs
  end.
Proof.
  intros Hr Hwc Hre Hag. destruct (find_run t rs id Hwc Hre) as (l' & Hfind & Hco).
  destruct (latest_valid sts (proj1 Hr)) as [(Hvr & Hve & Hpf)%valid_spec _].
  unfold pin. destruct (last_with id rs None) as [r|] eqn:El; mrun Hfind; cbn [with_context]; [| by eexists].
  mpure. set (t1 := mkTimeline (ret_file t) l'). apply last_with_in in El as [Hrs Hid].
  rewrite (open_latest_run _ t1 sts Hr). set (t2 := set_ret _ t1).
  assert (settled t2 sts) as Hs by (split; [apply Hr | done]).
  destruct (is_pinned (latest sts) id) eqn:Ep; [exists t2; by split; [| split; [apply settled_is |]] |].
  rewrite sort_pins_snoc by done. set (st := with_pins _ (latest sts)). intros Hfit.
  destruct (write_event_run t2 sts st true Hs) as (t3 & Hw & Hl).
  rewrite decide_True in Hw by done. destruct Hw as [Hw Hf].
  assert (∀ q, q ∈ pins (latest sts) → pin_sequence q ≠ sequence r) as Hne.
  { intros q Hq Heq. destruct (Hag q Hq) as (r' & Hr' & Hsq & Hsn).
    assert (r' = r) as ->.
    { apply list_elem_of_lookup in Hr' as [k Hk]. apply list_elem_of_lookup in Hrs as [k' Hk'].
      pose proof (sequence_lookup _ _ _ _ _ (proj1 Hwc) Hk).
      pose proof (sequence_lookup _ _ _ _ _ (proj1 Hwc) Hk').
      assert (k = k') as -> by lia. congruence. }
    assert (is_pinned (latest sts) id = true); [| congruence].
    apply is_pinned_spec. exists q. split; [done | congruence]. }
  assert (valid st) as Hv.
  { apply valid_spec. split; [done |]. split; [done |]. cbn. apply insert_pin_from; [done | | done].
    destruct (well_chained_seqs rs Hwc) as [Hs' _]. cbn. specialize (Hs' r Hrs). lia. }
  exists t3. split; [exact Hw |]. split; [apply settled_is; split; [apply event_valid; [apply Hr | done | done] | done] |].
  split; [by rewrite Hl |]. intros q Hq. cbn in Hq. apply insert_pin_elem in Hq as [->|Hq]; [| by apply Hag].
  by exists r.
Qed.

(** A log whose last state is not valid is refused for that reason. *)
Lemma read_latest_loop_bad fuel pre sts bad n prev st0 :
  state_chain n prev sts → event_sequence st0 = n → (length sts < fuel)%nat →
  state_fits bad → event_sequence bad = n + Z.of_nat (length sts) + 1 →
  prev_frame bad = latest_id prev sts →
  validate_state bad = Err "retained range exceeds evaluated history"%string →
  read_latest_loop fuel (pre ++ state_bytes (sts ++ [bad])) (blen pre) st0 prev =
  Err "retained range exceeds evaluated history"%string.
Proof.
  revert fuel pre n prev st0.
  induction sts as [|st sts IH]; intros [|fuel] pre n prev st0 Hc Hn Hfuel Hbf Hbe Hbp Hbv;
    try (cbn in *; lia); cbn [read_latest_loop app].
  - rewrite state_bytes_cons, (proj2 (Z.ltb_lt _ _)).
    2: { pose proof (blen_state_frame bad). blia. }
    rewrite read_frame_app by done. cbn [mbind Res_bind].
    rewrite (proj2 (Z.eqb_eq _ _)), bool_decide_true, Hbv by (first [done | cbn in Hbe; lia]). done.
  - destruct Hc as (He & Hp & Hv & Hf & Hc).
    rewrite state_bytes_cons, (proj2 (Z.ltb_lt _ _)).
    2: { pose proof (blen_state_frame st). blia. }
    rewrite read_frame_app by done. cbn [mbind Res_bind].
    rewrite (proj2 (Z.eqb_eq _ _)), bool_decide_true, Hv by (first [done | lia]). cbn.
    rewrite <- blen_app, app_assoc. apply (IH _ _ (n + 1)); try done.
    + cbn in Hfuel. lia.
    + cbn [length] in Hbe. lia.
    + by rewrite (proj2 (latest_cons_run st sts prev st)).
Qed.

(** A pin past the end of the reference log, as a power loss leaves it
    when the snapshot was pinned before it was durable, makes [apply] record a
    state that every later read of the log refuses. *)
Theorem apply_dangling_pin now t sts rs p :
  ret_is t sts → well_chained rs → recoverable (ref_log t) rs →
  pins_within (pins (latest sts)) u64_max → p ∈ pins (latest sts) →
  Z.of_nat (length rs) < pin_sequence p →
  state_fits (event sts (planned now (pins (latest sts)) rs)) →
  ∃ st t1 t2, apply now t = (Ok st, t1) ∧
    state t1 = (Err "retained range exceeds evaluated history", t2).
Proof.
  intros Hr Hwc Hre Hpins Hp Hlt Hfit. pose proof (recoverable_length _ _ Hre) as Hlen.
  destruct (apply_run now t sts rs Hr Hwc Hre) as (t' & _ & Hrun).
  destruct (planned_spec now (pins (latest sts)) rs Hwc Hlen Hpins) as (He & _ & Hrf & Hc).
  set (pl := planned now (pins (latest sts)) rs) in *.
  assert (covered (retained pl) (pin_sequence p)) as (rg & Hrg & Hin).
  { apply Hc. right. left. by exists p. }
  assert (evaluated_through pl < last_ rg) as Hex by (unfold in_range in Hin; lia).
  destruct (latest_valid sts (proj1 Hr)) as [(_ & Hve & _)%valid_spec Hseq].
  destruct (same_policy_state (latest sts) pl) eqn:Esame.
  { exfalso. unfold same_policy_state in Esame.
    apply andb_true_iff in Esame as [[Ee Er]%andb_true_iff _]. apply bool_decide_eq_true in Er.
    rewrite <- Er in Hrg. specialize (Hve rg Hrg). lia. }
  rewrite decide_True in Hrun by done. destruct Hrun as [Hrun Hf].
  exists (event sts pl), t'. eexists. split; [done |].
  unfold state. mpure. rewrite Hf. unfold ret_open. unfold mbind at 1, M_bind at 1. rewrite Hf. cbn [from_option].
  unfold id. unfold read_latest, ret_data. mpure. cbn [ret_file set_ret from_option]. unfold id.
  assert (read_latest_loop (S (length (state_bytes (sts ++ [event sts pl])))) (state_bytes (sts ++ [event sts pl]))
            0 initial zero_id = Err "retained range exceeds evaluated history"%string) as ->; [| done].
  apply (read_latest_loop_bad _ [] sts (event sts pl) 0 zero_id initial); try done.
  - apply Hr.
  - pose proof (length_state_bytes (sts ++ [event sts pl])) as Hl. rewrite length_app in Hl.
    cbn [length] in Hl. lia.
  - cbn. lia.
  - unfold validate_state. cbn.
    by rewrite (validate_ranges_exceeds _ _ _ rg ltac:(done) Hrf Hrg Hex).
Qed.
End RetentionSpec.

(** [recent_sequences] lists, newest first and without repetition, the
    last [limit] sequence numbers up to [head] that the state retains, counting
    everything after the evaluated history and the pins. *)
Theorem recent_sequences_spec st head limit :
  (0 < limit)%nat → head ≠ 0 →
  newest (retained_at st head) limit (recent_sequences st head limit).
Proof.
  intros Hlim Hhead. unfold recent_sequences.
  destruct (Nat.eqb_spec limit 0); [lia |]. destruct (Z.eqb_spec head 0); [done |]. cbn [orb].
  apply recent_loop_newest.
  - split; [done | constructor | by intros s ?%not_elem_of_nil | done | |].
    + intros s Hs. right. by apply recent_intervals_spec.
    + intros s Hs. by apply recent_intervals_spec.
  - cbn. lia.
  - pose proof (repeats_le None (recent_intervals st head)). cbn [length]. nia.
Qed.

(** ** Witnesses *)

#[export] Instance SequenceRange_countable : Countable SequenceRange.
Proof. refine (inj_countable' (λ r, (first r, last_ r)) (λ '(a, b), mkRange a b) _). by intros []. Defined.
#[export] Instance Pin_countable : Countable Pin.
Proof. refine (inj_countable' (λ p, (pin_sequence p, pin_snapshot p)) (λ '(a, b), mkPin a b) _). by intros []. Defined.
#[export] Instance RetentionState_countable : Countable RetentionState.
Proof.
  refine (inj_countable'
    (λ s, (event_sequence s, evaluated_through s, evaluated_at s, (retained s, pins s, prev_frame s)))
    (λ '(a, b, c, (d, e, f)), mkState a b c d e f) _).
  by intros [].
Defined.

Module RetentionExample.
Import RefsExample.
#[local] Existing Instance toy_blake3.
#[local] Existing Instance toy_blake3_ok.
#[local] Existing Instance toy_json.
#[local] Existing Instance toy_json_ok.

(** The timeline of [RefsExample] after its crash, never thinned. *)
Definition t0 : Timeline := mkTimeline None crashed.
Lemma t0_is : ret_is t0 [].
Proof. split; [done |]. exists []. split; [exact ret_torn_nil | done]. Qed.
Lemma no_pins n : pins_within (pins (latest [])) n.
Proof. by intros p ?%not_elem_of_nil. Qed.

Lemma apply_spec_witness :
  ∃ t' sts', coherent (ref_log t') log12 ∧ ret_is t' sts' ∧
    (sts' = [] ∨ sts' = [event [] (planned 20 [] log12)]) ∧
    (state_fits (event [] (planned 20 [] log12)) →
     apply 20 t0 = (Ok (latest sts'), t') ∧ evaluated_through (latest sts') = 2 ∧
     pins (latest sts') = [] ∧
     (∀ s, retains_in_ranges (latest sts') s = true ↔ kept_by 20 [] log12 s)) ∧
    (¬ state_fits (event [] (planned 20 [] log12)) → sts' = []).
Proof.
  exact (apply_spec 20 t0 [] log12 t0_is log12_chained crashed_recoverable (no_pins _)).
Defined.

Lemma t0_fits : state_fits (event [] (planned 20 [] log12)).
Proof. by vm_compute. Qed.
Lemma apply_runs : ∃ st t1, apply 20 t0 = (Ok st, t1).
Proof.
  destruct (apply_run 20 t0 [] log12 t0_is log12_chained crashed_recoverable) as (t' & _ & Hrun).
  revert Hrun. cbv zeta. destruct (same_policy_state _ _); [intros [Hrun _]; eauto |].
  rewrite (decide_True _ _ t0_fits). intros [Hrun _]. eauto.
Qed.

Lemma apply_idempotent_witness :
  ∃ st t1 t2, apply 20 t0 = (Ok st, t1) ∧ apply 20 t1 = (Ok st, t2) ∧ ret_file t2 = ret_file t1.
Proof.
  destruct apply_runs as (st & t1 & E).
  destruct (apply_idempotent 20 t0 [] log12 st t1 t0_is log12_chained crashed_recoverable
              (no_pins _) E) as [t2 H]. exact (ex_intro _ st (ex_intro _ t1 (ex_intro _ t2 (conj E H)))).
Defined.

Lemma agree_nil : pins_agree (pins (latest [])) log12.
Proof. by intros p ?%not_elem_of_nil. Qed.

Lemma pin1_fits : state_fits (event [] (with_pins [mkPin 1 id1] initial)).
Proof. by vm_compute. Qed.

Lemma pin_spec_witness :
  ∃ t', pin id1 t0 = (Ok true, t') ∧ ret_is t' [event [] (with_pins [mkPin 1 id1] initial)] ∧
        coherent (ref_log t') log12 ∧ pins_agree [mkPin 1 id1] log12.
Proof.
  exact (pin_spec id1 t0 [] log12 t0_is log12_chained crashed_recoverable agree_nil pin1_fits).
Defined.

(** A pin of a third snapshot that the reference log lost. *)
Definition dangling : RetentionState := mkState 1 0 0 [] [mkPin 3 id1] zero_id.
Definition t3 : Timeline := mkTimeline (Some (state_bytes [dangling])) crashed.
Lemma t3_is : ret_is t3 [dangling].
Proof.
  split; [by vm_compute |]. exists []. split; [exact ret_torn_nil | by rewrite app_nil_r].
Qed.
Lemma dangling_within : pins_within (pins (latest [dangling])) u64_max.
Proof. by intros p ->%list_elem_of_singleton. Qed.
Lemma dangling_fits : state_fits (event [dangling] (planned 20 (pins (latest [dangling])) log12)).
Proof. by vm_compute. Qed.

Lemma apply_dangling_pin_witness :
  ∃ st t1 t2, apply 20 t3 = (Ok st, t1) ∧
    state t1 = (Err "retained range exceeds evaluated history", t2).
Proof.
  exact (apply_dangling_pin 20 t3 [dangling] log12 (mkPin 3 id1) t3_is log12_chained
           crashed_recoverable dangling_within ltac:(by left) ltac:(done) dangling_fits).
Defined.

Definition thinned : RetentionState :=
  mkState 1 9 0 [mkRange 2 4; mkRange 7 9] [mkPin 3 id1; mkPin 6 id2] zero_id.
Lemma recent_sequences_spec_witness :
  recent_sequences thinned 11 6 = [11; 10; 9; 8; 7; 6] ∧
  newest (retained_at thinned 11) 6 (recent_sequences thinned 11 6).
Proof. split; [by vm_compute | apply (recent_sequences_spec thinned 11 6); lia]. Defined.
End RetentionExample.
