(* ===== verification/Tree.v ===== *)
(** * Tree: bounded Merkle pages for directories ([furrow-core/src/tree.rs])

    A directory is a list of entries in strict name order, stored as leaf pages
    of about 4 KiB under levels of branch pages. The object store is an
    interface: what is put reads back, and later puts keep it. *)

From S2P Require Import Prelude Model.
#[local] Open Scope Z_scope.

(** ** The object store as the tree layer sees it *)

(** [ObjectStore::put] and [ObjectStore::read] at a kind of object. *)
Class ObjectStore (St : Type) := {
  put_object : ObjectKind → bytes → M St ObjectId;
  read_object : ObjectKind → ObjectId → St → Res bytes;
}.

(** Everything [s] holds is still in [s']. *)
Definition extends `{ObjectStore St} (s s' : St) : Prop :=
  ∀ k id b, read_object k id s = Ok b → read_object k id s' = Ok b.

Class ObjectStoreOk (St : Type) `{ObjectStore St} := {
  put_reads : ∀ k b s id s', put_object k b s = (Ok id, s') → read_object k id s' = Ok b;
  put_extends : ∀ k b s r s', put_object k b s = (r, s') → extends s s';
}.

(** [MAX_TREE_PAGE_BYTES], [TARGET_TREE_PAGE_BYTES], and the lengths of the
    empty leaf and branch JSON objects. *)
Definition MAX_TREE_PAGE_BYTES : Z := 64 * 1024.
Definition TARGET_TREE_PAGE_BYTES : Z := 4 * 1024.
Definition LEAF_OVERHEAD : Z := 14.
Definition BRANCH_OVERHEAD : Z := 12.

(** The callback of [diff_entries], folding over an accumulator. *)
Abbreviation visitor A := (option TreeEntry → option TreeEntry → A → Res A).

Section Tree.
Context {St : Type} `{ObjectStore St, Json TreeEntry, Json TreePage, Json Tree}.

(** [ObjectStore::put_struct] and [read_struct] at [Tree]. *)
Definition put_struct (t : Tree) : M St ObjectId := put_object TreeKind (to_vec t).
Definition read_struct (id : ObjectId) (s : St) : Res Tree :=
  b ← read_object TreeKind id s; with_context (from_slice b) "decode object".

Definition read_node (id : ObjectId) (s : St) : Res Tree :=
  tree ← read_struct id s;
  _ ← ensure (bool_decide (entries tree = []) || bool_decide (pages tree = []))
        "tree node mixes leaf entries and branch pages";
  Ok tree.

(** ** Writing *)

Definition store_leaf (es : list TreeEntry) : M St TreePage :=
  first ← lift (with_context (head es) "empty tree leaf");
  last_ ← lift (with_context (last es) "empty tree leaf");
  let tree := mkTree es [] in
  _ ← mensure (blen (to_vec tree) <=? MAX_TREE_PAGE_BYTES) "tree leaf exceeded page limit";
  target ← put_struct tree;
  mret (mkTreePage (name first) (name last_) (as_u64 (Z.of_nat (length es))) target).

Definition store_branch (ps : list TreePage) : M St TreePage :=
  first ← lift (with_context (head ps) "empty tree branch");
  last_ ← lift (with_context (last ps) "empty tree branch");
  let count := foldl (λ n p, as_u64 (n + entry_count p)) 0 ps in
  let tree := mkTree [] ps in
  _ ← mensure (blen (to_vec tree) <=? MAX_TREE_PAGE_BYTES) "tree branch exceeded page limit";
  target ← put_struct tree;
  mret (mkTreePage (first_name first) (last_name last_) count target).

Record Builder := mkBuilder {
  page : list TreeEntry;
  page_bytes : Z;
  leaves : list TreePage;
}.

Definition Builder_new : Builder := mkBuilder [] LEAF_OVERHEAD [].

Definition flush_leaf (b : Builder) : M St Builder :=
  leaf ← store_leaf (page b);
  mret (mkBuilder [] LEAF_OVERHEAD (leaves b ++ [leaf])).

Definition push (b : Builder) (entry : TreeEntry) : M St Builder :=
  _ ← match last (page b), last (leaves b) with
      | Some previous, _ =>
        mensure (bltb (name previous) (name entry))
          "directory entries must be strictly sorted and unique"
      | None, Some previous =>
        mensure (bltb (last_name previous) (name entry))
          "directory entries must be strictly sorted and unique"
      | None, None => mret ()
      end;
  let item_bytes := blen (to_vec entry) in
  b ← (if (TARGET_TREE_PAGE_BYTES <? page_bytes b + (match page b with [] => 0 | _ => 1 end) + item_bytes)
          && negb (match page b with [] => true | _ => false end)
       then flush_leaf b else mret b);
  let separator := match page b with [] => 0 | _ => 1 end in
  _ ← mensure (page_bytes b + separator + item_bytes <=? MAX_TREE_PAGE_BYTES)
        "single directory entry exceeds 64 KiB";
  mret (mkBuilder (page b ++ [entry]) (page_bytes b + separator + item_bytes) (leaves b)).

(** The loop of [write_branch_level]: finished branches, the open branch and
    its encoded size. *)
Fixpoint branch_loop (ps : list TreePage) (output branch : list TreePage) (encoded_bytes : Z)
    : M St (list TreePage) :=
  match ps with
  | [] =>
    match branch with
    | [] => mret output
    | _ => p ← store_branch branch; mret (output ++ [p])
    end
  | p :: ps =>
    let item_bytes := blen (to_vec p) in
    '(output, branch, encoded_bytes) ←
      (if (TARGET_TREE_PAGE_BYTES <? encoded_bytes + (match branch with [] => 0 | _ => 1 end) + item_bytes)
          && negb (match branch with [] => true | _ => false end)
       then done ← store_branch branch; mret (output ++ [done], [], BRANCH_OVERHEAD)
       else mret (output, branch, encoded_bytes));
    let separator := match (branch : list TreePage) with [] => 0 | _ => 1 end in
    _ ← mensure (encoded_bytes + separator + item_bytes <=? MAX_TREE_PAGE_BYTES)
          "single tree page reference exceeds 64 KiB";
    branch_loop ps output (branch ++ [p]) (encoded_bytes + separator + item_bytes)
  end.
Definition write_branch_level (ps : list TreePage) : M St (list TreePage) :=
  branch_loop ps [] [] BRANCH_OVERHEAD.

(** [while level.len() > 1]: [None] is a loop that has not ended yet. *)
Fixpoint levels (fuel : nat) (level : list TreePage) : M St (option (list TreePage)) :=
  match fuel with
  | O => mret None
  | S fuel =>
    if (1 <? length level)%nat
    then level ← write_branch_level level; levels fuel level
    else mret (Some level)
  end.

(** [finish]: [None] when [fuel] rounds of the loop were not enough. *)
Definition finish (fuel : nat) (b : Builder) : M St (option ObjectId) :=
  b ← match page b with [] => mret b | _ => flush_leaf b end;
  match leaves b with
  | [] => id ← put_struct (mkTree [] []); mret (Some id)
  | [leaf] => mret (Some (page_target leaf))
  | ls => o ← levels fuel ls;
          match (o : option (list TreePage)) with
          | None => mret None
          | Some level => p ← lift (with_context (head level) "index out of bounds");
                          mret (Some (page_target p))
          end
  end.

Fixpoint push_all (b : Builder) (es : list TreeEntry) : M St Builder :=
  match es with
  | [] => mret b
  | e :: es => b ← push b e; push_all b es
  end.
Definition write (fuel : nat) (es : list TreeEntry) : M St (option ObjectId) :=
  b ← push_all Builder_new es; finish fuel b.

(** ** Reading

    The readers follow page references without a bound; [fuel] bounds the
    depth (and, for the iterator, the number of frames popped). *)

Fixpoint find_entry (fuel : nat) (s : St) (current : ObjectId) (nm : bytes) : Res (option TreeEntry) :=
  match fuel with
  | O => Err "fuel"
  | S fuel =>
    tree ← read_node current s;
    if bool_decide (pages tree = []) then
      Ok (match binary_search_by (λ e, bytes_cmp (name e) nm) (entries tree) with
          | Some i => entries tree !! i
          | None => None
          end)
    else
      match list_find (λ p, bleb (first_name p) nm && bleb nm (last_name p) = true) (pages tree) with
      | Some (_, p) => find_entry fuel s (page_target p) nm
      | None => Ok None
      end
  end.

Fixpoint find_components (fuel : nat) (s : St) (tree : ObjectId) (components : list bytes)
    : Res (option TreeEntry) :=
  match components with
  | [] => Ok None
  | component :: rest =>
    _ ← ensure (negb (bool_decide (component = []))) "tree path contains an empty component";
    o ← find_entry fuel s tree component;
    match o with
    | None => Ok None
    | Some entry =>
      match rest with
      | [] => Ok (Some entry)
      | _ =>
        if decide (kind entry = Directory) then
          t ← with_context (target entry) "directory entry has no tree target";
          find_components fuel s t rest
        else Ok None
      end
    end
  end.
Definition find_path (fuel : nat) (s : St) (root : ObjectId) (path : bytes) : Res (option TreeEntry) :=
  if bool_decide (path = []) then Ok None
  else find_components fuel s root (split_on slash path).

Inductive EntryFrame := Node (id : ObjectId) | Leaf (es : list TreeEntry).

(** [Entries::next_entry]; the head of the list is the top of the stack. *)
Fixpoint next_entry (fuel : nat) (s : St) (stack : list EntryFrame)
    : Res (option TreeEntry * list EntryFrame) :=
  match fuel with
  | O => Err "fuel"
  | S fuel =>
    match stack with
    | [] => Ok (None, [])
    | Node id :: stack =>
      tree ← read_node id s;
      if bool_decide (pages tree = []) then next_entry fuel s (Leaf (entries tree) :: stack)
      else next_entry fuel s (map (λ p, Node (page_target p)) (pages tree) ++ stack)
    | Leaf [] :: stack => next_entry fuel s stack
    | Leaf (e :: es) :: stack => Ok (Some e, Leaf es :: stack)
    end
  end.

(** [for_each_entry]: the visitor folds over an accumulator. *)
Fixpoint for_each_loop {A} (visitor : TreeEntry → A → Res A) (fuel steps : nat) (s : St)
    (stack : list EntryFrame) (a : A) : Res A :=
  match steps with
  | O => Err "fuel"
  | S steps =>
    '(o, stack) ← next_entry fuel s stack;
    match o with
    | None => Ok a
    | Some e => a ← visitor e a; for_each_loop visitor fuel steps s stack a
    end
  end.
Definition for_each_entry {A} (visitor : TreeEntry → A → Res A) (fuel : nat) (s : St)
    (root : ObjectId) (a : A) : Res A :=
  for_each_loop visitor fuel fuel s [Node root] a.

(** The merge loop of [diff_entries] over two iterators. *)
Fixpoint diff_loop {A} (visit : visitor A) (fuel steps : nat) (s : St)
    (left_entry right_entry : option TreeEntry) (left_stack right_stack : list EntryFrame) (a : A)
    : Res A :=
  match steps with
  | O => Err "fuel"
  | S steps =>
    match left_entry, right_entry with
    | None, None => Ok a
    | Some l, Some r =>
      match bytes_cmp (name l) (name r) with
      | Eq =>
        a ← (if decide (l = r) then Ok a else visit (Some l) (Some r) a);
        '(l', ls) ← next_entry fuel s left_stack;
        '(r', rs) ← next_entry fuel s right_stack;
        diff_loop visit fuel steps s l' r' ls rs a
      | Lt =>
        a ← visit (Some l) None a;
        '(l', ls) ← next_entry fuel s left_stack;
        diff_loop visit fuel steps s l' right_entry ls right_stack a
      | Gt =>
        a ← visit None (Some r) a;
        '(r', rs) ← next_entry fuel s right_stack;
        diff_loop visit fuel steps s left_entry r' left_stack rs a
      end
    | Some l, None =>
      a ← visit (Some l) None a;
      '(l', ls) ← next_entry fuel s left_stack;
      diff_loop visit fuel steps s l' None ls right_stack a
    | None, Some r =>
      a ← visit None (Some r) a;
      '(r', rs) ← next_entry fuel s right_stack;
      diff_loop visit fuel steps s None r' left_stack rs a
    end
  end.

Definition aligned (l r : Tree) : bool :=
  negb (bool_decide (pages l = []))
  && (length (pages l) =? length (pages r))%nat
  && forallb (λ '(p, q), bool_decide (first_name p = first_name q)
                         && bool_decide (last_name p = last_name q))
       (zip (pages l) (pages r)).

(** [diff_entries]: [depth] bounds the recursion through aligned branches,
    [fuel] and [steps] the iterators and the merge loop. *)
Fixpoint diff_entries {A} (visit : visitor A) (depth fuel : nat) (s : St) (left right : ObjectId) (a : A)
    : Res A :=
  match depth with
  | O => Err "fuel"
  | S depth =>
    if decide (left = right) then Ok a
    else
      left_node ← read_node left s;
      right_node ← read_node right s;
      if aligned left_node right_node then
        (fix pairs (ps : list (TreePage * TreePage)) (a : A) : Res A :=
           match ps with
           | [] => Ok a
           | (p, q) :: ps =>
             a ← diff_entries visit depth fuel s (page_target p) (page_target q) a;
             pairs ps a
           end) (zip (pages left_node) (pages right_node)) a
      else
        '(l, ls) ← next_entry fuel s [Node left];
        '(r, rs) ← next_entry fuel s [Node right];
        diff_loop visit fuel fuel s l r ls rs a
  end.
End Tree.
