(* ===== verification/Bundle.v ===== *)
(** * Bundle: self-verifying transport of exact snapshots ([bundle.rs])

    The scratch SQLite table of marks is a map from ids to kind and processed
    flag; the output is the bytes written, the input the bytes left to read. *)

From S2P Require Import Prelude Model Tree.
#[local] Open Scope Z_scope.

Definition BUNDLE_MAGIC : bytes := b_ "AGSB" ++ [Byte.x01].
Definition RECORD_MAGIC : bytes := b_ "AGOR".
Definition END_MAGIC : bytes := b_ "AGSE".
Definition MAX_BUNDLE_OBJECT : Z := 256 * 1024 * 1024.

(** What an object points at. *)
Definition object_edges `{Json Snapshot, Json Tree, Json Blob} (k : ObjectKind) (b : bytes)
    : Res (list (ObjectId * ObjectKind)) :=
  match k with
  | SnapshotKind =>
    snapshot ← with_context (from_slice (A := Snapshot) b) "snapshot JSON";
    Ok ((root_tree snapshot, TreeKind) :: map (λ backup, (backup_blob backup, BlobKind)) (sqlite_backups snapshot))
  | TreeKind =>
    tree ← with_context (from_slice (A := Tree) b) "tree JSON";
    Ok (map (λ page, (page_target page, TreeKind)) (pages tree) ++
        concat (map (λ entry,
          match xattrs entry with Some x => [(x, XattrsKind)] | None => [] end ++
          match kind entry, target entry with
          | File, Some id => [(id, BlobKind)]
          | Directory, Some id => [(id, TreeKind)]
          | _, _ => []
          end) (entries tree)))
  | BlobKind =>
    blob ← with_context (from_slice (A := Blob) b) "blob JSON";
    Ok (map (λ chunk, (cr_id chunk, Chunk)) (chunks blob))
  | Chunk | XattrsKind => Ok []
  end.

(** The table [marks]: kind and processed flag by id. *)
Abbreviation Marks := (gmap ObjectId (ObjectKind * bool)).

(** [INSERT OR IGNORE], then the check that the row has the kind. *)
Definition enqueue (marks : Marks) (id : ObjectId) (k : ObjectKind) : Res Marks :=
  let marks := match marks !! id with Some _ => marks | None => <[id := (k, false)]> marks end in
  _ ← ensure (match marks !! id with Some (actual, _) => bool_decide (actual = k) | None => false end)
        "object reached with conflicting kinds";
  Ok marks.

Fixpoint enqueue_all (marks : Marks) (edges : list (ObjectId * ObjectKind)) : Res Marks :=
  match edges with
  | [] => Ok marks
  | (id, k) :: edges => marks ← enqueue marks id k; enqueue_all marks edges
  end.

(** [SELECT id, kind FROM marks WHERE processed = 0 ORDER BY id LIMIT 1] *)
Definition unprocessed (marks : Marks) : Marks := base.filter (λ '(_, (_, processed)), processed = false) marks.
Definition next_mark (marks : Marks) : Res (option (ObjectId * ObjectKind)) :=
  match btree_iter (unprocessed marks) with
  | [] => Ok None
  | (id, (k, _)) :: _ =>
    _ ← ensure (blen id =? 32) "invalid marked object ID";
    Ok (Some (id, k))
  end.

(** [UPDATE marks SET processed = 1 WHERE id = ?1] *)
Definition processed (marks : Marks) (id : ObjectId) : Marks :=
  match marks !! id with Some (k, _) => <[id := (k, true)]> marks | None => marks end.

(** What [put_bytes] and [read_located] of [store.rs] promise whatever the hash
    does: an object within the size limit goes under its content address unless
    another object sits there already, nothing else changes, and what is read
    hashes to the address it is read at. *)
Definition MAX_OBJECT_LEN : Z := 256 * 1024 * 1024.
Class ContentStoreOk (St : Type) `{ObjectStore St, Blake3} := {
  put_stores : ∀ k b s, blen b ≤ MAX_OBJECT_LEN → ∃ s',
    put_object k b s = (Ok (object_id k b), s') ∧
    (read_object k (object_id k b) s' = Ok b ∨
     ∃ k' b', read_object k' (object_id k b) s = Ok b' ∧ (k', b') ≠ (k, b));
  put_keeps : ∀ k b s r s', put_object k b s = (r, s') → extends s s';
  put_adds : ∀ k b s r s' k' id' b', put_object k b s = (r, s') → read_object k' id' s' = Ok b' →
    read_object k' id' s = Ok b' ∨ k' = k ∧ id' = object_id k b ∧ b' = b;
  read_addressed : ∀ k id s b, read_object k id s = Ok b → object_id k b = id;
}.

Section Bundle.
Context {St : Type} `{ObjectStore St, Blake3, Json Snapshot, Json Tree, Json Blob}.

Definition enqueue_edges (marks : Marks) (k : ObjectKind) (b : bytes) : Res Marks :=
  edges ← object_edges k b; enqueue_all marks edges.

(** The loop of [for_each_reachable]: [None] when [fuel] rounds were not enough. *)
Fixpoint reach_loop {A} (fuel : nat) (s : St) (visitor : ObjectId → ObjectKind → bytes → A → Res A)
    (marks : Marks) (count : Z) (a : A) : option (Res (Z * A)) :=
  match fuel with
  | O => None
  | S fuel =>
    match next_mark marks with
    | Err e => Some (Err e)
    | Ok None => Some (Ok (count, a))
    | Ok (Some (id, expected)) =>
      match
        b ← read_object expected id s;
        a ← visitor id expected b a;
        marks ← enqueue_edges marks expected b;
        Ok (processed marks id, a)
      with
      | Err e => Some (Err e)
      | Ok (marks, a) => reach_loop fuel s visitor marks (count + 1) a
      end
    end
  end.

Definition for_each_reachable {A} (fuel : nat) (s : St) (snapshot : ObjectId)
    (visitor : ObjectId → ObjectKind → bytes → A → Res A) (a : A) : option (Res (Z * A)) :=
  match enqueue ∅ snapshot SnapshotKind with
  | Err e => Some (Err e)
  | Ok marks => reach_loop fuel s visitor marks 0 a
  end.

(** One record as [export] writes it. *)
Definition record (id : ObjectId) (k : ObjectKind) (b : bytes) : bytes :=
  RECORD_MAGIC ++ [kind_to_u8 k] ++ to_le 8 (blen b) ++ id ++ blake3 b ++ b.

Definition export (fuel : nat) (s : St) (snapshot : ObjectId) : option (Res (bytes * Z)) :=
  match for_each_reachable fuel s snapshot
          (λ id k b '(output, count), Ok (output ++ record id k b, count + 1)) (BUNDLE_MAGIC ++ snapshot, 0) with
  | None => None
  | Some (Err e) => Some (Err e)
  | Some (Ok (_, (output, count))) => Some (Ok (output ++ END_MAGIC ++ to_le 8 count, count))
  end.

(** [Read::read_exact] of [n] bytes from the bytes left. *)
Definition read_n (n : Z) (input : bytes) : Res (bytes * bytes) :=
  if n <=? blen input then Ok (take (Z.to_nat n) input, drop (Z.to_nat n) input) else Err "unexpected end of file".

(** The header and payload of one record. *)
Definition read_record (marks : Marks) (input : bytes) : Res (ObjectId * ObjectKind * bytes * bytes) :=
  '(k, input) ← read_n 1 input;
  '(length, input) ← read_n 8 input;
  '(id, input) ← read_n 32 input;
  '(checksum, input) ← read_n 32 input;
  k ← with_context (b ← k !! 0%nat; kind_from_u8 b) "invalid bundle object kind";
  '(expected_kind, done) ← with_context (marks !! id) "bundle contains an unrelated object";
  _ ← ensure (negb done) "bundle contains a duplicate object";
  _ ← ensure (bool_decide (expected_kind = k)) "bundle object kind mismatch";
  let length := from_le length in
  _ ← ensure (length <=? MAX_BUNDLE_OBJECT) "bundle object is too large";
  '(b, input) ← read_n length input;
  _ ← ensure (bool_decide (blake3 b = checksum)) "bundle object checksum mismatch";
  _ ← ensure (bool_decide (object_id k b = id)) "bundle object ID mismatch";
  Ok (id, k, b, input).

(** The trailer, once the end magic was read. *)
Definition read_trailer (marks : Marks) (count : Z) (input : bytes) : Res () :=
  '(expected, input) ← read_n 8 input;
  _ ← ensure (from_le expected =? count) "snapshot bundle record count mismatch";
  _ ← ensure (bool_decide (unprocessed marks = ∅)) "snapshot bundle omits reachable objects";
  ensure (bool_decide (input = [])) "snapshot bundle contains trailing data".

(** The loop of [import]; every round reads at least four bytes. *)
Fixpoint import_loop (fuel : nat) (marks : Marks) (count : Z) (input : bytes) : M St () :=
  match fuel with
  | O => fail "fuel"
  | S fuel =>
    '(record_magic, input) ← lift (read_n 4 input);
    if decide (record_magic = END_MAGIC) then lift (read_trailer marks count input)
    else
      _ ← mensure (bool_decide (record_magic = RECORD_MAGIC)) "invalid bundle record header";
      '(id, k, b, input) ← lift (read_record marks input);
      stored ← put_object k b;
      _ ← mensure (bool_decide (stored = id)) "bundle import ID mismatch";
      marks ← lift (enqueue_edges marks k b);
      import_loop fuel (processed marks id) (count + 1) input
  end.

(** [import]; [None] when [fuel] rounds of the final traversal were not enough. *)
Definition import (fuel : nat) (input : bytes) (s : St) : option (Res ObjectId * St) :=
  match
    ('(magic, input) ← lift (read_n (blen BUNDLE_MAGIC) input);
     _ ← mensure (bool_decide (magic = BUNDLE_MAGIC)) "invalid snapshot bundle header";
     '(snapshot, input) ← lift (read_n 32 input);
     marks ← lift (enqueue ∅ snapshot SnapshotKind);
     _ ← import_loop (S (length input)) marks 0 input;
     mret snapshot) s
  with
  | (Err e, s) => Some (Err e, s)
  | (Ok snapshot, s) =>
    match for_each_reachable fuel s snapshot (λ _ _ _ a, Ok a) () with
    | None => None
    | Some (Err e) => Some (Err e, s)
    | Some (Ok _) => Some (Ok snapshot, s)
    end
  end.
End Bundle.
