(* ===== verification/Objects.v ===== *)
(** * Objects: a content-addressed store that keeps the tree layer's contract

    Objects under their content address, the first put of an address winning, as
    [ObjectStore::put] of [furrow-core/src/store.rs] does: the [ObjectStore]
    interface, provided no two objects share an address. *)

From S2P Require Import Prelude Model Tree Bundle.
#[local] Open Scope Z_scope.

Class CollisionFree `{Blake3} :=
  object_id_inj : ∀ k b k' b', object_id k b = object_id k' b' → k = k' ∧ b = b'.

(** The objects a store holds, all under their own address. *)
Record Objects `{Blake3} := mkObjects {
  objects : gmap ObjectId (ObjectKind * bytes);
  addressed : map_Forall (λ id o, id = object_id o.1 o.2) objects;
}.

Program Definition put_addressed `{Blake3} (k : ObjectKind) (b : bytes) (s : Objects) : Objects :=
  mkObjects _ (<[object_id k b := (k, b)]> (objects s)) _.
Next Obligation. intros ? k b s. by apply map_Forall_insert_2; [| apply addressed]. Qed.

#[export] Instance Objects_store `{Blake3} : ObjectStore Objects := {
  put_object := λ k b s,
    if negb (blen b <=? MAX_OBJECT_LEN) then (Err "object exceeds size limit", s) else
    match objects s !! object_id k b with
    | Some _ => (Ok (object_id k b), s)
    | None => (Ok (object_id k b), put_addressed k b s)
    end;
  read_object := λ k id s,
    '(k', b) ← with_context (objects s !! id) "object does not exist";
    _ ← ensure (bool_decide (k' = k)) "object kind mismatch";
    Ok b;
}.

#[export] Instance Objects_store_ok `{CollisionFree} : ObjectStoreOk Objects.
Proof.
  split.
  - intros k b s id s'. cbn [put_object Objects_store]. destruct (negb _); [done |].
    destruct (objects s !! object_id k b) as [[k' b']|] eqn:E; intros [= <- <-]; cbn.
    + rewrite E. pose proof (addressed s _ _ E) as Ha. cbn in Ha.
      apply object_id_inj in Ha as [<- <-]. cbn. by rewrite bool_decide_true.
    + rewrite lookup_insert, decide_True by done. cbn. by rewrite bool_decide_true.
  - intros k b s r s'. cbn [put_object Objects_store]. destruct (negb _); [by intros [= _ <-] ? ? ? |].
    destruct (objects s !! object_id k b) eqn:E; intros [= <- <-]; [by intros ? ? ? |].
    intros k' id b'. cbn. destruct (decide (id = object_id k b)) as [->|Hne].
    + by rewrite E.
    + by rewrite lookup_insert_ne.
Qed.

(** Whatever the hash, collisions included. *)
Lemma read_objects `{Blake3} k id s b : read_object k id s = Ok b ↔ objects s !! id = Some (k, b).
Proof.
  cbn [read_object Objects_store]. destruct (objects s !! id) as [[k' b']|]; cbn; [| done].
  destruct (bool_decide_reflect (k' = k)) as [->|]; cbn; naive_solver.
Qed.

#[export] Instance Objects_content_ok `{Blake3} : ContentStoreOk Objects.
Proof.
  split.
  - intros k b s Hl. cbn [put_object Objects_store]. rewrite (proj2 (Z.leb_le _ _) Hl). cbn [negb].
    setoid_rewrite read_objects. destruct (objects s !! object_id k b) as [[k' b']|] eqn:E.
    + exists s. split; [done |]. destruct (decide ((k', b') = (k, b))) as [[= -> ->]|]; [by left | right; eauto].
    + eexists. split; [done |]. left. cbn. by rewrite lookup_insert, decide_True.
  - intros k b s r s'. cbn [put_object Objects_store]. destruct (negb _); [by intros [= _ <-] ??? |].
    destruct (objects s !! object_id k b) eqn:E; intros [= _ <-]; intros k' id b'; rewrite !read_objects; [done |].
    cbn. destruct (decide (id = object_id k b)) as [->|]; [by rewrite E | by rewrite lookup_insert_ne].
  - intros k b s r s' k' id b'. rewrite !read_objects. cbn [put_object Objects_store].
    destruct (negb _); [intros [= _ <-]; by left |].
    destruct (objects s !! object_id k b) eqn:E; intros [= _ <-]; [by left |]. cbn.
    intros [[<- [= -> ->]]|[_ ?]]%lookup_insert_Some; [by right | by left].
  - intros k id s b. rewrite read_objects. intros Hb. by pose proof (addressed s _ _ Hb).
Qed.
