(* ===== verification/TreeTheory.v ===== *)
(** * TreeTheory: a directory's pages are its sorted entry list

    [node d s id es] says that in store [s] the tree node [id], of height [d],
    holds the entries [es]. Writing builds such a node, and lookup, iteration and
    difference of nodes are lookup, iteration and difference of the lists. *)

From S2P Require Import Prelude Model Concrete Tree Objects.
#[local] Open Scope Z_scope.

Section TreeSpec.
Context {St : Type} {OS : ObjectStore St} {OSok : ObjectStoreOk St}.
Context {JT : Json Tree} {JTok : JsonOk Tree} {JE : Json TreeEntry} {JP : Json TreePage}.

#[local] Arguments bytes_cmp : simpl never.

(** ** Nodes *)

Definition sorted (es : list TreeEntry) : Prop := StronglySorted blt (map name es).

(** A page reference describes the entries below it. *)
Definition page_ok (p : TreePage) (es : list TreeEntry) : Prop :=
  (∃ e, head es = Some e ∧ first_name p = name e) ∧
  (∃ e, last es = Some e ∧ last_name p = name e) ∧
  entry_count p = as_u64 (Z.of_nat (length es)).

Fixpoint node (d : nat) (s : St) (id : ObjectId) (es : list TreeEntry) : Prop :=
  ∃ t, read_node id s = Ok t ∧
  match d with
  | O => pages t = [] ∧ entries t = es
  | S d => pages t ≠ [] ∧
           ∃ ess, Forall2 (λ p es, page_ok p es ∧ node d s (page_target p) es) (pages t) ess ∧
                  concat ess = es
  end.

Lemma node_inv d s id es :
  node d s id es → ∃ t, read_node id s = Ok t ∧
  match d with
  | O => pages t = [] ∧ entries t = es
  | S d => pages t ≠ [] ∧
           ∃ ess, Forall2 (λ p es, page_ok p es ∧ node d s (page_target p) es) (pages t) ess ∧
                  concat ess = es
  end.
Proof. by destruct d. Qed.

(** A page reference to a node of height [d]. *)
Definition good (d : nat) (s : St) (p : TreePage) (es : list TreeEntry) : Prop :=
  page_ok p es ∧ node d s (page_target p) es.

Lemma extends_refl (s : St) : extends s s.
Proof. by intros k id b. Qed.
Lemma extends_trans (s1 s2 s3 : St) : extends s1 s2 → extends s2 s3 → extends s1 s3.
Proof. intros H12 H23 k id b Hr. by apply H23, H12. Qed.

Lemma read_node_extends s s' id t : extends s s' → read_node id s = Ok t → read_node id s' = Ok t.
Proof.
  intros He. unfold read_node, read_struct.
  destruct (read_object TreeKind id s) as [b|] eqn:E; [| done]. by rewrite (He _ _ _ E).
Qed.

Lemma node_extends d s s' id es : extends s s' → node d s id es → node d s' id es.
Proof.
  intros He. revert id es. induction d as [|d IH]; intros id es (t & Hr & Ht).
  - exists t. split; [by eapply read_node_extends | done].
  - exists t. split; [by eapply read_node_extends |]. destruct Ht as (Hp & ess & Hes & Hc).
    split; [done |]. exists ess. split; [| done].
    eapply Forall2_impl; [exact Hes |]. intros p es' [? ?]. auto.
Qed.

Lemma good_extends d s s' p es : extends s s' → good d s p es → good d s' p es.
Proof. intros He [? ?]. split; [done | by eapply node_extends]. Qed.
Lemma goods_extends d s s' ps ess :
  extends s s' → Forall2 (good d s) ps ess → Forall2 (good d s') ps ess.
Proof. intros He Hg. eapply Forall2_impl; [exact Hg |]. intros. by eapply good_extends. Qed.

Lemma page_ok_nonempty p es : page_ok p es → es ≠ [].
Proof. intros ((e & He & _) & _) ->. done. Qed.

(** What a put tree reads back as. *)
Lemma put_struct_ok t s id s' :
  put_struct t s = (Ok id, s') → entries t = [] ∨ pages t = [] →
  read_node id s' = Ok t ∧ extends s s'.
Proof.
  intros Hput Ht. split; [| by eapply put_extends].
  unfold read_node, read_struct. rewrite (put_reads _ _ _ _ _ Hput). cbn.
  rewrite from_to. cbn.
  destruct Ht as [-> | ->]; [done |]. by rewrite orb_true_r.
Qed.

Lemma store_leaf_ok es s p s' :
  store_leaf es s = (Ok p, s') → good 0 s' p es ∧ extends s s'.
Proof.
  unfold store_leaf. intros Hrun.
  apply M_bind_ok in Hrun as (e1 & s1 & Hh & Hrun). injection Hh as Hh <-.
  apply M_bind_ok in Hrun as (e2 & s2 & Hl & Hrun). injection Hl as Hl <-.
  apply M_bind_ok in Hrun as (u & s3 & Hb & Hrun). injection Hb as Hb <-.
  apply M_bind_ok in Hrun as (id & s4 & Hput & Hrun). injection Hrun as <- <-.
  apply with_context_ok in Hh, Hl.
  apply put_struct_ok in Hput as [Hr He]; [| by right]. split; [| done].
  split; [split; [by exists e1 | split; [by exists e2 | done]] |]. by exists (mkTree es []).
Qed.

Lemma head_concat (ess : list (list TreeEntry)) es e :
  head ess = Some es → head es = Some e → head (concat ess) = Some e.
Proof. destruct ess as [|[|? ?] ess]; naive_solver. Qed.
Lemma last_concat (ess : list (list TreeEntry)) es e :
  last ess = Some es → last es = Some e → last (concat ess) = Some e.
Proof.
  destruct ess as [|es' ess _] using rev_ind; [done |]. rewrite last_snoc. intros [= ->] He.
  rewrite concat_app. cbn. rewrite app_nil_r, last_app. by rewrite He.
Qed.

Lemma count_ok d s ps ess n :
  Forall2 (good d s) ps ess →
  foldl (λ n p, as_u64 (n + entry_count p)) (as_u64 n) ps =
  as_u64 (n + Z.of_nat (length (concat ess))).
Proof.
  intros Hg. revert n. induction Hg as [|p es ps ess ((_ & _ & Hc) & _) _ IH]; intros n; cbn [foldl concat].
  - by rewrite Z.add_0_r.
  - rewrite Hc. unfold as_u64 in *. rewrite <- Zplus_mod, IH, length_app.
    f_equal. lia.
Qed.

Lemma Forall2_head {A B} (R : A → B → Prop) l k x :
  Forall2 R l k → head l = Some x → ∃ y, head k = Some y ∧ R x y.
Proof. intros [|a b l' k' Hr _] [= ->]. by exists b. Qed.
Lemma Forall2_last {A B} (R : A → B → Prop) l k x :
  Forall2 R l k → last l = Some x → ∃ y, last k = Some y ∧ R x y.
Proof.
  intros HF Hx. rewrite last_lookup in Hx. pose proof (Forall2_length _ _ _ HF) as Hl.
  destruct (Forall2_lookup_l _ _ _ _ _ HF Hx) as (y & Hy & Hr).
  exists y. rewrite last_lookup, <- Hl. done.
Qed.

Lemma store_branch_ok d ps ess s p s' :
  Forall2 (good d s) ps ess → store_branch ps s = (Ok p, s') →
  good (S d) s' p (concat ess) ∧ extends s s'.
Proof.
  intros Hg. unfold store_branch. intros Hrun.
  apply M_bind_ok in Hrun as (p1 & s1 & Hh & Hrun). injection Hh as Hh <-.
  apply M_bind_ok in Hrun as (p2 & s2 & Hl & Hrun). injection Hl as Hl <-.
  apply M_bind_ok in Hrun as (u & s3 & Hb & Hrun). injection Hb as Hb <-.
  apply M_bind_ok in Hrun as (id & s4 & Hput & Hrun). injection Hrun as <- <-.
  apply with_context_ok in Hh, Hl.
  destruct (Forall2_head _ _ _ _ Hg Hh) as (es1 & Hh1 & ((e1 & He1 & Hn1) & _) & _).
  destruct (Forall2_last _ _ _ _ Hg Hl) as (es2 & Hl1 & (_ & (e2 & He2 & Hn2) & _) & _).
  apply put_struct_ok in Hput as [Hr He]; [| by left]. split; [| done]. split.
  - split; [| split].
    + exists e1. split; [by eapply head_concat | done].
    + exists e2. split; [by eapply last_concat | done].
    + cbn [entry_count]. change 0 with (as_u64 0). by rewrite (count_ok _ _ _ _ _ Hg).
  - exists (mkTree [] ps). split; [done |]. split; [by destruct ps |].
    exists ess. split; [| done]. by eapply goods_extends.
Qed.

(** ** Writing *)

(** The entries a builder holds: those of its finished leaves, then its open
    page. *)
Definition builds (s : St) (b : Builder) (es : list TreeEntry) : Prop :=
  sorted es ∧ ∃ ess, Forall2 (good 0 s) (leaves b) ess ∧ concat ess ++ page b = es.

Lemma builds_new s : builds s Builder_new [].
Proof. split; [constructor |]. by exists []. Qed.

Lemma flush_leaf_ok s b es b' s' :
  builds s b es → flush_leaf b s = (Ok b', s') → builds s' b' es ∧ page b' = [] ∧ extends s s'.
Proof.
  intros (Hs & ess & Hl & Hes) Hrun. unfold flush_leaf in Hrun.
  apply M_bind_ok in Hrun as (p & s1 & Hst & Hrun). injection Hrun as <- <-.
  apply store_leaf_ok in Hst as [Hg He]. split; [| done]. split; [done |].
  exists (ess ++ [page b]). cbn. split.
  - apply Forall2_app; [by eapply goods_extends | by constructor].
  - rewrite concat_app. cbn. by rewrite !app_nil_r.
Qed.

Lemma sorted_snoc es e :
  sorted es → (∀ e', last es = Some e' → blt (name e') (name e)) → sorted (es ++ [e]).
Proof.
  unfold sorted. rewrite map_app. intros Hs Hl. cbn [map].
  assert (∀ n, n ∈ map name es → blt n (name e)) as Hall.
  { destruct es as [|e' es _] using rev_ind; [by intros n ?%not_elem_of_nil |].
    specialize (Hl e' ltac:(by rewrite last_snoc)). rewrite map_app in *. cbn [map] in *.
    intros n [Hn|Hn%list_elem_of_singleton]%elem_of_app; [| by subst].
    eapply blt_trans; [| exact Hl]. clear Hl.
    induction (map name es) as [|x l IH]; [by apply not_elem_of_nil in Hn |].
    cbn in Hs. apply StronglySorted_inv in Hs as [Hs Hx]. apply elem_of_cons in Hn as [->|Hn].
    - apply Forall_app in Hx as [_ Hx]. by apply Forall_cons in Hx as [? _].
    - by apply IH. }
  clear Hl. induction (map name es) as [|x l IH]; cbn; [repeat constructor |].
  apply StronglySorted_inv in Hs as [Hs Hx]. constructor.
  - apply IH; [done |]. intros n Hn. apply Hall. by right.
  - apply Forall_app. split; [done |]. constructor; [apply Hall; by left | done].
Qed.

Lemma builds_last s b es e :
  builds s b es → last es = Some e →
  match last (page b), last (leaves b) with
  | Some e', _ => e' = e
  | None, Some p => last_name p = name e
  | None, None => False
  end.
Proof.
  intros (_ & ess & Hl & <-). rewrite last_app. destruct (last (page b)) as [e'|]; [by intros [= ->] |].
  intros He. destruct ess as [|es' ess _] using rev_ind; [done |].
  apply Forall2_app_inv_r in Hl as (ls & lp & _ & Hp & ->).
  apply Forall2_cons_inv_r in Hp as (p & ? & ((_ & (e1 & He1 & Hn) & _) & _) & ->%Forall2_nil_inv_r & ->).
  rewrite last_snoc, Hn. rewrite concat_app in He. cbn in He. rewrite app_nil_r, last_app, He1 in He.
  congruence.
Qed.

Lemma push_ok s b es e b' s' :
  builds s b es → push b e s = (Ok b', s') → builds s' b' (es ++ [e]) ∧ extends s s'.
Proof.
  intros Hb Hrun. unfold push in Hrun.
  apply M_bind_ok in Hrun as (u & s1 & Hord & Hrun).
  assert (s1 = s ∧ ∀ e', last es = Some e' → blt (name e') (name e)) as [-> Hlt].
  { split.
    - destruct (last (page b)); [by injection Hord |]. destruct (last (leaves b)); by injection Hord.
    - intros e' He'. pose proof (builds_last _ _ _ _ Hb He') as Hlast.
      destruct (last (page b)) as [e2|]; [subst e2 | destruct (last (leaves b)) as [p|]; [| done]].
      + injection Hord as Hord _. by apply ensure_ok, bltb_spec in Hord.
      + rewrite <- Hlast. injection Hord as Hord _. by apply ensure_ok, bltb_spec in Hord. }
  apply M_bind_ok in Hrun as (b1 & s2 & Hfl & Hrun).
  assert (builds s2 b1 es ∧ extends s s2) as [Hb1 He].
  { destruct (_ && _).
    - by destruct (flush_leaf_ok _ _ _ _ _ Hb Hfl) as (? & _ & ?).
    - injection Hfl as <- <-. split; [done | apply extends_refl]. }
  apply M_bind_ok in Hrun as (u2 & s3 & Hsz & Hrun). injection Hsz as _ <-.
  injection Hrun as <- <-. split; [| done]. destruct Hb1 as (Hs & ess & Hl & <-).
  split; [by apply sorted_snoc |]. exists ess. cbn. split; [done | by rewrite app_assoc].
Qed.

Lemma push_all_ok es : ∀ s b done b' s',
  builds s b done → push_all b es s = (Ok b', s') → builds s' b' (done ++ es) ∧ extends s s'.
Proof.
  induction es as [|e es IH]; intros s b done b' s' Hb Hrun; cbn [push_all] in Hrun.
  - injection Hrun as <- <-. rewrite app_nil_r. split; [done | apply extends_refl].
  - apply M_bind_ok in Hrun as (b1 & s1 & Hp & Hrun).
    apply (push_ok _ _ _ _ _ _ Hb) in Hp as [Hb1 He1].
    destruct (IH _ _ _ _ _ Hb1 Hrun) as [Hb2 He2]. rewrite <- app_assoc in Hb2.
    split; [done | by eapply extends_trans].
Qed.

Lemma branch_loop_ok d ps : ∀ essp output esso branch essb n s out s',
  Forall2 (good (S d) s) output esso → Forall2 (good d s) branch essb → Forall2 (good d s) ps essp →
  branch_loop ps output branch n s = (Ok out, s') →
  ∃ ess, Forall2 (good (S d) s') out ess ∧
         concat ess = concat esso ++ concat essb ++ concat essp ∧ extends s s'.
Proof.
  induction ps as [|p ps IH]; intros essp output esso branch essb n s out s' Ho Hb Hp Hrun;
    cbn [branch_loop] in Hrun.
  - apply Forall2_nil_inv_l in Hp as ->. cbn. rewrite app_nil_r. destruct branch as [|b1 bs].
    + injection Hrun as <- <-. apply Forall2_nil_inv_l in Hb as ->. exists esso.
      rewrite app_nil_r. split_and!; [done.. | apply extends_refl].
    + apply M_bind_ok in Hrun as (p & s1 & Hst & Hrun). injection Hrun as <- <-.
      apply (store_branch_ok d _ essb) in Hst as [Hg He]; [| done].
      exists (esso ++ [concat essb]). split; [| split; [| done]].
      * apply Forall2_app; [by eapply goods_extends | by constructor].
      * rewrite concat_app. cbn. by rewrite app_nil_r.
  - apply Forall2_cons_inv_l in Hp as (es1 & essp' & Hg1 & Hp & ->).
    apply M_bind_ok in Hrun as ([[output1 branch1] n1] & s1 & Hfl & Hrun).
    apply M_bind_ok in Hrun as (u & s2 & Hsz & Hrun). injection Hsz as _ <-.
    assert (∃ esso1 essb1, Forall2 (good (S d) s1) output1 esso1 ∧ Forall2 (good d s1) branch1 essb1 ∧
              concat esso1 ++ concat essb1 = concat esso ++ concat essb ∧ extends s s1)
      as (esso1 & essb1 & Ho1 & Hb1 & Hc1 & He1).
    { destruct (_ && _).
      - apply M_bind_ok in Hfl as (pd & s3 & Hst & Hfl). injection Hfl as <- <- <- <-.
        apply (store_branch_ok d _ essb) in Hst as [Hg He]; [| done].
        exists (esso ++ [concat essb]), []. split; [| split; [done |]].
        + apply Forall2_app; [by eapply goods_extends | by constructor].
        + rewrite concat_app. cbn. by rewrite !app_nil_r.
      - injection Hfl as <- <- <- <-. exists esso, essb. split_and!; [done.. | apply extends_refl]. }
    assert (Forall2 (good d s1) (branch1 ++ [p]) (essb1 ++ [es1])) as Hbr.
    { apply Forall2_app; [done |]. constructor; [by eapply good_extends | done]. }
    destruct (IH _ _ _ _ _ _ _ _ _ Ho1 Hbr (goods_extends _ _ _ _ _ He1 Hp) Hrun) as (ess & Hf & Hc & He).
    exists ess. split; [done |]. split; [| by eapply extends_trans].
    rewrite Hc, concat_app. cbn. rewrite app_nil_r, <- app_assoc, (app_assoc (concat esso1)), Hc1.
    by rewrite <- app_assoc.
Qed.

Lemma levels_ok fuel : ∀ d ps ess s level s',
  Forall2 (good d s) ps ess → ps ≠ [] → levels fuel ps s = (Ok (Some level), s') →
  ∃ d' p, level = [p] ∧ (d' < d + fuel)%nat ∧ good d' s' p (concat ess) ∧ extends s s'.
Proof.
  induction fuel as [|fuel IH]; intros d ps ess s level s' Hg Hne Hrun; [done |].
  cbn [levels] in Hrun. destruct (Nat.ltb_spec 1 (length ps)) as [Hl|Hl].
  - apply M_bind_ok in Hrun as (ps1 & s1 & Hw & Hrun).
    destruct (branch_loop_ok d ps ess [] [] [] [] BRANCH_OVERHEAD s ps1 s1) as (ess1 & Hg1 & Hc1 & He1);
      [constructor | constructor | done | exact Hw |]. cbn in Hc1.
    destruct (IH (S d) ps1 ess1 s1 level s' Hg1) as (d' & p & -> & Hlt & Hp & He2); [| done |].
    { intros ->. apply Forall2_nil_inv_l in Hg1 as ->. destruct Hg as [|p es ps ess [Hpk _] _]; [done |].
      apply page_ok_nonempty in Hpk. by destruct es. }
    exists d', p. rewrite <- Hc1. split; [done |]. split; [lia |]. split; [done | by eapply extends_trans].
  - injection Hrun as <- <-. destruct Hg as [|p es ps ess Hp Hg]; [done |].
    destruct Hg; [| cbn in Hl; lia]. exists d, p. cbn. rewrite app_nil_r.
    split; [done |]. split; [lia |]. split; [done | apply extends_refl].
Qed.

Lemma finish_ok fuel b es s root s' :
  builds s b es → finish fuel b s = (Ok (Some root), s') → (∃ d, (d ≤ fuel)%nat ∧ node d s' root es) ∧ extends s s'.
Proof.
  intros Hb Hrun. unfold finish in Hrun. apply M_bind_ok in Hrun as (b1 & s1 & Hfl & Hrun).
  assert (builds s1 b1 es ∧ page b1 = [] ∧ extends s s1) as (Hb1 & Hp1 & He1).
  { destruct (page b) eqn:E.
    - injection Hfl as <- <-. split; [done |]. split; [done | apply extends_refl].
    - by eapply flush_leaf_ok. }
  destruct Hb1 as (_ & ess & Hl & <-). rewrite Hp1, app_nil_r.
  destruct (leaves b1) as [|p ps] eqn:El.
  - apply Forall2_nil_inv_l in Hl as ->. apply M_bind_ok in Hrun as (id & s2 & Hput & Hrun).
    injection Hrun as <- <-. apply put_struct_ok in Hput as [Hr He]; [| by left].
    split; [| by eapply extends_trans]. exists 0%nat. split; [lia |]. by exists (mkTree [] []).
  - destruct ps as [|p2 ps].
    + injection Hrun as <- <-. apply Forall2_cons_inv_l in Hl as (es1 & ? & [_ Hn] & ->%Forall2_nil_inv_l & ->).
      split; [| done]. exists 0%nat. split; [lia |]. cbn. by rewrite app_nil_r.
    + apply M_bind_ok in Hrun as ([level|] & s2 & Hlv & Hrun); [| done].
      destruct (levels_ok fuel 0 _ _ _ _ _ Hl ltac:(done) Hlv) as (d & p3 & -> & Hlt & [_ Hn] & He2).
      injection Hrun as <- <-. split; [exists d; split; [lia | done] | by eapply extends_trans].
Qed.

(** ** Termination of the branch levels *)

(** The page references the levels are made of: names of the directory, a
    [u64] count and a 32-byte target. *)
Definition reference (names : list bytes) (p : TreePage) : Prop :=
  first_name p ∈ names ∧ last_name p ∈ names ∧ 0 ≤ entry_count p < 2 ^ 64 ∧ blen (page_target p) = 32.

Definition ids_32 : Prop := ∀ k b (s : St) id s', put_object k b s = (Ok id, s') → blen id = 32.

Lemma foldl_u64 (ps : list TreePage) n :
  0 ≤ n < 2 ^ 64 → 0 ≤ foldl (λ n p, as_u64 (n + entry_count p)) n ps < 2 ^ 64.
Proof.
  revert n. induction ps as [|p ps IH]; intros n Hn; [done |]. cbn. apply IH.
  unfold as_u64. apply Z.mod_pos_bound. lia.
Qed.

Lemma store_branch_reference names ps s p s' :
  ids_32 → Forall (reference names) ps → store_branch ps s = (Ok p, s') → reference names p.
Proof.
  intros Hids Hps. unfold store_branch. intros Hrun.
  apply M_bind_ok in Hrun as (p1 & s1 & Hh & Hrun). injection Hh as Hh <-.
  apply M_bind_ok in Hrun as (p2 & s2 & Hl & Hrun). injection Hl as Hl <-.
  apply M_bind_ok in Hrun as (u & s3 & Hb & Hrun). injection Hb as Hb <-.
  apply M_bind_ok in Hrun as (id & s4 & Hput & Hrun). injection Hrun as <- <-.
  apply with_context_ok in Hh, Hl. rewrite Forall_forall in Hps. split_and!; cbn.
  - apply Hps. rewrite head_lookup in Hh. by eapply list_elem_of_lookup_2.
  - apply Hps. rewrite last_lookup in Hl. by eapply list_elem_of_lookup_2.
  - apply foldl_u64. lia.
  - apply (foldl_u64 ps 0). lia.
  - by eapply Hids.
Qed.

(** The open branch: what its size says about how many references it holds. *)
Lemma branch_loop_shrinks names ps :
  ids_32 → (∀ p, reference names p → blen (to_vec p) ≤ 2041) →
  ∀ output branch n s out s',
  Forall (reference names) ps → Forall (reference names) branch → Forall (reference names) output →
  (length branch = 0%nat → n = BRANCH_OVERHEAD) → (length branch = 1%nat → n ≤ BRANCH_OVERHEAD + 2041) →
  branch_loop ps output branch n s = (Ok out, s') →
  Forall (reference names) out ∧
  (2 * length out ≤ 2 * length output + length branch + length ps + 1)%nat.
Proof.
  intros Hids Hsmall. induction ps as [|p ps IH]; intros output branch n s out s' Hps Hbr Hout H0 H1 Hrun;
    cbn [branch_loop] in Hrun.
  - destruct branch as [|b1 bs]; [injection Hrun as <- <-; cbn; split; [done | lia] |].
    apply M_bind_ok in Hrun as (p & s1 & Hst & Hrun). injection Hrun as <- <-.
    apply (store_branch_reference names) in Hst; [| done..]. rewrite length_app. cbn.
    split; [apply Forall_app; by split; [| constructor] | lia].
  - apply Forall_cons in Hps as [Hp Hps]. pose proof (Hsmall p Hp) as Hpb.
    apply M_bind_ok in Hrun as ([[output1 branch1] n1] & s1 & Hfl & Hrun).
    apply M_bind_ok in Hrun as (u & s2 & Hsz & Hrun). injection Hsz as _ <-.
    assert (Forall (reference names) output1 ∧ Forall (reference names) branch1 ∧
            (length branch1 = 0%nat → n1 = BRANCH_OVERHEAD) ∧
            (length branch1 = 1%nat → n1 ≤ BRANCH_OVERHEAD + 2041) ∧
            (2 * length output1 + length branch1 ≤ 2 * length output + length branch)%nat)
      as (Ho1 & Hb1 & H0' & H1' & Hlen).
    { destruct (_ && _) eqn:Eflush; [| injection Hfl as <- <- <- <-; split_and!; done].
      apply M_bind_ok in Hfl as (pd & s3 & Hst & Hfl). injection Hfl as <- <- <- <-.
      apply (store_branch_reference names) in Hst; [| done..]. rewrite length_app. cbn.
      split; [apply Forall_app; by split; [| constructor] |]. split; [constructor |].
      split; [done |]. split; [done |].
      destruct branch as [|b1 [|b2 bs]]; cbn in *; [by rewrite andb_false_r in Eflush | | lia].
      exfalso. specialize (H1 eq_refl). unfold TARGET_TREE_PAGE_BYTES, BRANCH_OVERHEAD in *. lia. }
    apply IH in Hrun as [Hf Hlen']; [| done | | done | |].
    + split; [done |]. rewrite length_app in Hlen'. cbn in *. lia.
    + apply Forall_app. by split; [| constructor].
    + rewrite length_app. cbn. lia.
    + rewrite length_app. cbn. intros. assert (length branch1 = 0%nat) as Hz by lia.
      rewrite (H0' Hz). destruct branch1; [| done]. lia.
Qed.

(** With references of at most 2041 bytes two fit in a branch, so each round at
    least halves the level and [finish] returns. *)
Lemma levels_return names fuel : ∀ ps s r s',
  ids_32 → (∀ p, reference names p → blen (to_vec p) ≤ 2041) →
  Forall (reference names) ps → (length ps ≤ fuel)%nat → (0 < fuel)%nat →
  levels fuel ps s = (Ok r, s') → is_Some r.
Proof.
  induction fuel as [|fuel IH]; intros ps s r s' Hids Hsmall Hps Hfuel Hpos Hrun; [lia |].
  cbn [levels] in Hrun. destruct (Nat.ltb_spec 1 (length ps)); [| injection Hrun as <- <-; eauto].
  apply M_bind_ok in Hrun as (ps1 & s1 & Hw & Hrun).
  destruct (branch_loop_shrinks names ps Hids Hsmall [] [] BRANCH_OVERHEAD s ps1 s1) as [Hf Hl];
    try done; [constructor.. |].
  cbn in Hl. eapply IH; [done | done | exact Hf | lia | lia | exact Hrun].
Qed.

(** References that do not fit in pairs: every branch holds one. *)
Lemma branch_loop_stuck (P : TreePage → Prop) ps :
  (∀ p, P p → 2042 ≤ blen (to_vec p)) →
  (∀ p s q s', P p → store_branch [p] s = (Ok q, s') → P q) →
  ∀ output branch n s out s',
  Forall P ps → Forall P branch → Forall P output →
  (length branch ≤ 1)%nat → (length branch = 0%nat → n = BRANCH_OVERHEAD) →
  (length branch = 1%nat → BRANCH_OVERHEAD + 2042 ≤ n) →
  branch_loop ps output branch n s = (Ok out, s') →
  Forall P out ∧ (length out = length output + length branch + length ps)%nat.
Proof.
  intros Hbig Hclosed.
  induction ps as [|p ps IH]; intros output branch n s out s' Hps Hbr Hout Hle H0 H1 Hrun;
    cbn [branch_loop] in Hrun.
  - destruct branch as [|b1 [|b2 bs]]; [injection Hrun as <- <-; cbn; split; [done | lia] | | cbn in Hle; lia].
    apply M_bind_ok in Hrun as (p & s1 & Hst & Hrun). injection Hrun as <- <-.
    apply Forall_cons in Hbr as [Hb1 _].
    apply Hclosed in Hst; [| done]. rewrite length_app. cbn.
    split; [apply Forall_app; by split; [| constructor] | lia].
  - apply Forall_cons in Hps as [Hp Hps]. pose proof (Hbig p Hp) as Hpb.
    apply M_bind_ok in Hrun as ([[output1 branch1] n1] & s1 & Hfl & Hrun).
    apply M_bind_ok in Hrun as (u & s2 & Hsz & Hrun). injection Hsz as _ <-.
    assert (Forall P output1 ∧ branch1 = [] ∧ n1 = BRANCH_OVERHEAD ∧
            length output1 = (length output + length branch)%nat) as (Ho1 & -> & -> & Hlen).
    { destruct branch as [|b1 [|b2 bs]]; [| | cbn in Hle; lia].
      - rewrite andb_false_r in Hfl. injection Hfl as <- <- <- <-. cbn. rewrite (H0 eq_refl).
        split_and!; [done.. | lia].
      - specialize (H1 eq_refl). rewrite (proj2 (Z.ltb_lt _ _)) in Hfl.
        2: { unfold TARGET_TREE_PAGE_BYTES, BRANCH_OVERHEAD in *. lia. }
        cbn in Hfl. apply M_bind_ok in Hfl as (pd & s3 & Hst & Hfl). injection Hfl as <- <- <- <-.
        apply Forall_cons in Hbr as [Hb1 _]. apply Hclosed in Hst; [| done].
        rewrite length_app. cbn.
        split; [apply Forall_app; by split; [| constructor] |]. split_and!; [done.. | lia]. }
    apply IH in Hrun as [Hf Hlen']; [| done | by constructor | done | done | done |].
    + split; [done |]. cbn in *. lia.
    + intros _. lia.
Qed.

(** ** Lookup *)

Lemma sorted_app es es' :
  sorted (es ++ es') →
  sorted es ∧ sorted es' ∧ ∀ e e', e ∈ es → e' ∈ es' → blt (name e) (name e').
Proof.
  unfold sorted. rewrite map_app. intros Hs.
  apply StronglySorted_app in Hs as (Hx & Hs1 & Hs2). split; [done |]. split; [done |].
  intros e e' He He'. apply Hx; by apply list_elem_of_fmap_2.
Qed.

Lemma sorted_NoDup_names es e e' : sorted es → e ∈ es → e' ∈ es → name e = name e' → e = e'.
Proof.
  induction es as [|x es IH]; intros Hs; [by intros ?%not_elem_of_nil |].
  apply StronglySorted_inv in Hs as [Hs Hx]. rewrite Forall_forall in Hx.
  intros [->|He]%elem_of_cons [->|He']%elem_of_cons Hn; [done | | | by apply IH].
  - exfalso. apply (blt_not_eq (name x) (name e')); [| done]. apply Hx. by apply list_elem_of_fmap_2.
  - exfalso. apply (blt_not_eq (name x) (name e)); [| done]. apply Hx. by apply list_elem_of_fmap_2.
Qed.

(** Names between the first and last of a non-empty sorted list. *)
Lemma page_ok_range p es e :
  page_ok p es → sorted es → e ∈ es → ble (first_name p) (name e) ∧ ble (name e) (last_name p).
Proof.
  intros ((e1 & Hh & ->) & (e2 & Hl & ->) & _) Hs He. split.
  - destruct es as [|x es]; [done |]. injection Hh as ->. apply StronglySorted_inv in Hs as [_ Hx].
    rewrite Forall_forall in Hx. apply elem_of_cons in He as [->|He]; [apply ble_refl |].
    apply blt_ble, Hx. by apply list_elem_of_fmap_2.
  - destruct es as [|x es _] using rev_ind; [done |]. rewrite last_snoc in Hl. injection Hl as ->.
    apply sorted_app in Hs as (_ & _ & Hlt).
    apply elem_of_app in He as [He|He%list_elem_of_singleton]; [| subst; apply ble_refl].
    apply blt_ble, Hlt; [done | by left].
Qed.

Lemma sorted_for_names es nm : sorted es → sorted_for (λ e, bytes_cmp (name e) nm) es.
Proof.
  intros Hs i j x y Hij Hx Hy.
  assert (blt (name x) (name y)) as Hlt.
  { rewrite <- (take_drop_middle es i x Hx) in Hs.
    change (take i es ++ x :: drop (S i) es) with (take i es ++ [x] ++ drop (S i) es) in Hs.
    apply sorted_app in Hs as (_ & Hs & _). apply sorted_app in Hs as (_ & _ & Hlt).
    apply Hlt; [by left |]. apply list_elem_of_lookup. exists (j - S i)%nat.
    rewrite lookup_drop. rewrite <- Hy. f_equal. lia. }
  split; intros Hc.
  - apply blt_gt. apply blt_gt in Hc. by eapply blt_trans.
  - by eapply (blt_trans _ (name y)).
Qed.

(** A result of a lookup by name: the entry of that name, if there is one. *)
Definition found (es : list TreeEntry) (nm : bytes) (o : option TreeEntry) : Prop :=
  ∀ e, o = Some e ↔ e ∈ es ∧ name e = nm.

Lemma leaf_found es nm :
  sorted es →
  found es nm (match binary_search_by (λ e, bytes_cmp (name e) nm) es with
               | Some i => es !! i
               | None => None
               end).
Proof.
  intros Hs e. destruct (binary_search_by _ es) as [i|] eqn:E.
  - apply binary_search_sound in E as (x & Hx & Hn%bytes_cmp_eq). rewrite Hx.
    apply list_elem_of_lookup_2 in Hx. split; [intros [= ->]; done |].
    intros [He Hne]. f_equal. apply (sorted_NoDup_names es); congruence.
  - split; [done |]. intros [He Hn]. exfalso.
    apply (binary_search_spec _ es (sorted_for_names es nm Hs)); [| exact E].
    exists e. split; [done |]. by apply bytes_cmp_eq.
Qed.

Lemma found_app_l es es' nm o :
  found es nm o → (∀ e, e ∈ es' → name e ≠ nm) → found (es ++ es') nm o.
Proof.
  intros Hf Hne e. rewrite (Hf e), elem_of_app. split; [tauto |].
  intros [[?|?] ?]; [done |]. by destruct (Hne e).
Qed.

(** The page a lookup descends into is the only one that can hold the name. *)
Lemma branch_found ps ess nm :
  Forall2 page_ok ps ess → sorted (concat ess) →
  match list_find (λ p, bleb (first_name p) nm && bleb nm (last_name p) = true) ps with
  | Some (i, p) => ∃ es, ps !! i = Some p ∧ ess !! i = Some es ∧
                         ∀ o, found es nm o → found (concat ess) nm o
  | None => found (concat ess) nm None
  end.
Proof.
  induction 1 as [|p es ps ess Hp Hps IH]; intros Hs; cbn [list_find concat].
  { intros e. split; [done |]. by intros [?%not_elem_of_nil _]. }
  apply sorted_app in Hs as (Hs1 & Hs2 & Hlt). specialize (IH Hs2).
  destruct (decide _) as [Hin|Hout].
  - apply andb_true_iff in Hin as [Hf%bleb_spec Hl%bleb_spec]. exists es. split; [done |]. split; [done |].
    intros o Ho. apply found_app_l; [done |]. intros e He <-.
    destruct Hp as (_ & (e2 & He2 & Hn2) & _). rewrite last_lookup in He2.
    apply list_elem_of_lookup_2 in He2. rewrite Hn2 in Hl.
    apply (blt_irrefl (name e)). eapply ble_blt_trans; [exact Hl |]. by apply Hlt.
  - assert (∀ e, e ∈ es → name e ≠ nm) as Hne.
    { intros e He <-. destruct (page_ok_range _ _ _ Hp Hs1 He) as [H1 H2].
      apply Hout. by rewrite (proj2 (bleb_spec _ _) H1), (proj2 (bleb_spec _ _) H2). }
    destruct (list_find _ ps) as [[i q]|]; cbn.
    + destruct IH as (es' & Hi & Hes' & Ho). exists es'. split; [done |]. split; [done |].
      intros o Hfo e. rewrite (Ho o Hfo e), elem_of_app. split; [tauto |].
      intros [[?|?] ?]; [by destruct (Hne e) | done].
    + intros e. rewrite (IH e), elem_of_app. split; [tauto |].
      intros [[?|?] ?]; [by destruct (Hne e) | done].
Qed.

Lemma Forall2_page_ok d s ps ess : Forall2 (good d s) ps ess → Forall2 page_ok ps ess.
Proof. intros Hg. eapply Forall2_impl; [exact Hg |]. by intros ? ? [? ?]. Qed.

Lemma sorted_concat ess i es : sorted (concat ess) → ess !! i = Some es → sorted es.
Proof.
  intros Hs Hi. rewrite <- (take_drop_middle ess i es Hi), concat_app in Hs.
  apply sorted_app in Hs as (_ & Hs & _). cbn in Hs. by apply sorted_app in Hs as (? & _).
Qed.

Lemma find_entry_ok d : ∀ fuel s root es nm,
  node d s root es → sorted es → (d < fuel)%nat →
  ∃ o, find_entry fuel s root nm = Ok o ∧ found es nm o.
Proof.
  induction d as [|d IH]; intros [|fuel] s root es nm (t & Hr & Ht) Hs Hfuel; try lia;
    cbn [find_entry]; rewrite Hr; cbn [mbind Res_bind].
  - destruct Ht as [-> <-]. rewrite bool_decide_true by done. eexists. split; [done |].
    by apply leaf_found.
  - destruct Ht as (Hne & ess & Hg & <-). rewrite bool_decide_false by done.
    pose proof (branch_found _ _ nm (Forall2_page_ok _ _ _ _ Hg) Hs) as Hbr.
    destruct (list_find _ (pages t)) as [[i p]|]; [| by eexists].
    destruct Hbr as (es & Hi & Hes & Ho).
    destruct (Forall2_lookup_lr _ _ _ _ _ _ Hg Hi Hes) as [_ Hn].
    destruct (IH fuel s (page_target p) es nm Hn) as (o & Hfo & Hf); [by eapply sorted_concat | lia |].
    exists o. split; [done | by apply Ho].
Qed.

(** ** Iteration *)

(** The frames below the top are non-empty nodes of height at most [D]. *)
Definition nodes_are (D : nat) (s : St) (stack : list EntryFrame) (es : list TreeEntry) : Prop :=
  ∃ ess, Forall2 (λ f es, ∃ id d, f = Node id ∧ (d ≤ D)%nat ∧ node d s id es ∧ es ≠ []) stack ess ∧
         es = concat ess.

(** A stack of the iterator holds the entries still to come. *)
Definition stack_is (D : nat) (s : St) (stack : list EntryFrame) (es : list TreeEntry) : Prop :=
  match stack with
  | Leaf l :: rest => ∃ es', es = l ++ es' ∧ nodes_are D s rest es'
  | _ => nodes_are D s stack es
  end.

Lemma nodes_are_cons D s id d stack es es' :
  (d ≤ D)%nat → node d s id es → es ≠ [] → nodes_are D s stack es' →
  nodes_are D s (Node id :: stack) (es ++ es').
Proof.
  intros Hd Hn Hne (ess & Hf & ->). exists (es :: ess). split; [| done].
  constructor; [by exists id, d | done].
Qed.

Lemma nodes_are_pages D d s ps ess stack es' :
  (d ≤ D)%nat → Forall2 (good d s) ps ess → nodes_are D s stack es' →
  nodes_are D s (map (λ p, Node (page_target p)) ps ++ stack) (concat ess ++ es').
Proof.
  intros Hd Hg Hn. induction Hg as [|p es ps ess [Hp Hpn] _ IH]; [done |]. cbn.
  rewrite <- app_assoc. eapply nodes_are_cons; [done | done | by eapply page_ok_nonempty | done].
Qed.

(** Reaching the first entry below a node. *)
Lemma next_entry_node D d : ∀ fuel s id e es stack es',
  node d s id (e :: es) → (d ≤ D)%nat → nodes_are D s stack es' → (d + 2 ≤ fuel)%nat →
  ∃ st', next_entry fuel s (Node id :: stack) = Ok (Some e, st') ∧ stack_is D s st' (es ++ es').
Proof.
  induction d as [|d IH]; intros [|fuel] s id e es stack es' (t & Hr & Ht) Hd Hn Hfuel; try lia;
    cbn [next_entry]; rewrite Hr; cbn [mbind Res_bind].
  - destruct Ht as [-> ->]. rewrite bool_decide_true by done.
    destruct fuel as [|fuel]; [lia |]. cbn. eexists. split; [done |]. by exists es'.
  - destruct Ht as (Hne & ess & Hg & Hes). rewrite bool_decide_false by done.
    destruct Hg as [|p es1 ps ess [Hp Hpn] Hg]; [done |]. cbn [map app concat] in *.
    destruct es1 as [|e1 es1]; [by apply page_ok_nonempty in Hp |]. injection Hes as -> <-.
    rewrite <- app_assoc. apply IH; [done | lia | | lia].
    eapply nodes_are_pages; [| done | done]. lia.
Qed.

Lemma next_entry_ok D fuel s stack es :
  stack_is D s stack es → (D + 3 ≤ fuel)%nat →
  ∃ st', next_entry fuel s stack = Ok (head es, st') ∧ stack_is D s st' (tail es).
Proof.
  assert (∀ fuel stack es, nodes_are D s stack es → (D + 2 ≤ fuel)%nat →
    ∃ st', next_entry fuel s stack = Ok (head es, st') ∧ stack_is D s st' (tail es)) as Hnodes.
  { clear fuel stack es. intros fuel stack es (ess & Hf & ->) Hfuel.
    destruct Hf as [|f es stack ess (id & d & -> & Hd & Hn & Hne) Hf].
    - destruct fuel; [lia |]. eexists. split; [done |]. by exists [].
    - destruct es as [|e es]; [done |]. cbn.
      eapply (next_entry_node D d); [done | done | by exists ess | lia]. }
  intros Hst Hfuel. destruct stack as [|[id|l] stack]; [apply Hnodes; [done | lia] .. |].
  destruct Hst as (es' & -> & Hn). destruct fuel as [|fuel]; [lia |]. destruct l as [|e l]; cbn.
  - apply Hnodes; [done | lia].
  - eexists. split; [done |]. by exists es'.
Qed.

(** The first entry of a whole node, which may be an empty leaf. *)
Lemma next_entry_root D d fuel s root es :
  node d s root es → (d ≤ D)%nat → (D + 3 ≤ fuel)%nat →
  ∃ st', next_entry fuel s [Node root] = Ok (head es, st') ∧ stack_is D s st' (tail es).
Proof.
  intros Hn Hd Hfuel. destruct es as [|e es].
  - destruct d as [|d].
    + destruct Hn as (t & Hr & Hp & He). do 3 (destruct fuel as [|fuel]; [lia |]).
      cbn [next_entry]. rewrite Hr. cbn [mbind Res_bind]. rewrite bool_decide_true by done. rewrite He.
      eexists. split; [done |]. by exists [].
    + destruct Hn as (t & _ & Hne & ess & Hg & Hc). exfalso.
      destruct Hg as [|p es ps ess [Hp _] _]; [done |]. apply page_ok_nonempty in Hp. by destruct es.
  - destruct (next_entry_node D d fuel s root e es [] [] Hn Hd ltac:(by exists []) ltac:(lia)) as (st' & Hr & Hst).
    exists st'. rewrite app_nil_r in Hst. done.
Qed.

Fixpoint visit_all {E A} (visit : E → A → Res A) (l : list E) (a : A) : Res A :=
  match l with
  | [] => Ok a
  | e :: l => a ← visit e a; visit_all visit l a
  end.

Lemma visit_all_app {E A} (visit : E → A → Res A) l l' a :
  visit_all visit (l ++ l') a = (a ← visit_all visit l a; visit_all visit l' a).
Proof.
  revert a. induction l as [|e l IH]; intros a; [done |]. cbn.
  destruct (visit e a); [apply IH | done].
Qed.

Lemma for_each_loop_ok {A} (visit : TreeEntry → A → Res A) D fuel steps s : ∀ stack es a,
  stack_is D s stack es → (D + 3 ≤ fuel)%nat → (length es < steps)%nat →
  for_each_loop visit fuel steps s stack a = visit_all visit es a.
Proof.
  induction steps as [|steps IH]; intros stack es a Hst Hfuel Hsteps; [lia |]. cbn [for_each_loop].
  destruct (next_entry_ok D fuel s stack es Hst Hfuel) as (st' & -> & Hst').
  destruct es as [|e es]; [done |]. cbn. destruct (visit e a) as [a'|]; [| done]. cbn.
  apply IH; [done | done | cbn in Hsteps; lia].
Qed.

(** ** Difference *)

(** The reference: the merge of two sorted lists, keeping what differs. *)
Fixpoint diff_list (l : list TreeEntry) : list TreeEntry → list (option TreeEntry * option TreeEntry) :=
  fix aux (r : list TreeEntry) :=
    match l, r with
    | [], [] => []
    | x :: l', [] => (Some x, None) :: diff_list l' []
    | [], y :: r' => (None, Some y) :: aux r'
    | x :: l', y :: r' =>
      match bytes_cmp (name x) (name y) with
      | Eq => (if decide (x = y) then [] else [(Some x, Some y)]) ++ diff_list l' r'
      | Lt => (Some x, None) :: diff_list l' r
      | Gt => (None, Some y) :: aux r'
      end
    end.

Lemma diff_list_cons_r x l y r :
  diff_list (x :: l) (y :: r) =
  match bytes_cmp (name x) (name y) with
  | Eq => (if decide (x = y) then [] else [(Some x, Some y)]) ++ diff_list l r
  | Lt => (Some x, None) :: diff_list l (y :: r)
  | Gt => (None, Some y) :: diff_list (x :: l) r
  end.
Proof. done. Qed.
Lemma diff_list_nil_l y r : diff_list [] (y :: r) = (None, Some y) :: diff_list [] r.
Proof. done. Qed.
Lemma diff_list_nil_r x l : diff_list (x :: l) [] = (Some x, None) :: diff_list l [].
Proof. done. Qed.

Lemma diff_list_refl l : diff_list l l = [].
Proof.
  induction l as [|x l IH]; [done |]. rewrite diff_list_cons_r, bytes_cmp_refl, decide_True by done.
  exact IH.
Qed.

(** The difference of lists that split at a common name is the difference of
    the parts: what lets aligned branches be compared page by page. *)
Lemma diff_list_app l1 r1 l2 r2 :
  (∀ x y, x ∈ l1 → y ∈ r2 → blt (name x) (name y)) →
  (∀ x y, x ∈ r1 → y ∈ l2 → blt (name x) (name y)) →
  diff_list (l1 ++ l2) (r1 ++ r2) = diff_list l1 r1 ++ diff_list l2 r2.
Proof.
  revert r1. induction l1 as [|x l1 IHl]; intros r1.
  - induction r1 as [|y r1 IHr]; [done |]. intros Hl Hr. cbn [app].
    assert (diff_list l2 (y :: r1 ++ r2) = (None, Some y) :: diff_list l2 (r1 ++ r2)) as ->.
    { destruct l2 as [|z l2]; [done |]. rewrite diff_list_cons_r.
      rewrite (proj2 (blt_gt (name z) (name y))); [done |]. apply Hr; by left. }
    rewrite diff_list_nil_l. cbn [app]. f_equal. apply IHr; [done |]. intros ? ? ? ?. apply Hr; [by right | done].
  - intros Hl Hr. assert (∀ r1', (∀ x y, x ∈ r1' → y ∈ l2 → blt (name x) (name y)) →
      diff_list (l1 ++ l2) (r1' ++ r2) = diff_list l1 r1' ++ diff_list l2 r2) as IHl'.
    { intros r1' Hr'. apply IHl; [| done]. intros ? ? ? ?. apply Hl; [by right | done]. }
    clear IHl. induction r1 as [|y r1 IHr]; cbn [app].
    + rewrite diff_list_nil_r. cbn [app].
      assert (diff_list (x :: l1 ++ l2) r2 = (Some x, None) :: diff_list (l1 ++ l2) r2) as ->.
      { destruct r2 as [|z r2]; [done |]. rewrite diff_list_cons_r.
        assert (bytes_cmp (name x) (name z) = Lt) as -> by (apply Hl; by left). done. }
      f_equal. apply (IHl' []). by intros ? ? ?%not_elem_of_nil.
    + rewrite !diff_list_cons_r. destruct (bytes_cmp (name x) (name y)).
      * rewrite <- app_assoc. f_equal. apply IHl'. intros ? ? ? ?. apply Hr; [by right | done].
      * cbn [app]. f_equal. apply (IHl' (y :: r1)). done.
      * cbn [app]. f_equal. apply IHr. intros ? ? ? ?. apply Hr; [by right | done].
Qed.

Definition visit_pair {A} (visit : visitor A) (p : option TreeEntry * option TreeEntry) : A → Res A :=
  visit p.1 p.2.
Lemma visit_pair_eq {A} (visit : visitor A) x y a : visit_pair visit (x, y) a = visit x y a.
Proof. done. Qed.

Lemma diff_loop_ok {A} (visit : visitor A) D fuel steps s : ∀ l r ls rs a,
  stack_is D s ls (tail l) → stack_is D s rs (tail r) → (D + 3 ≤ fuel)%nat →
  (length l + length r < steps)%nat →
  diff_loop visit fuel steps s (head l) (head r) ls rs a = visit_all (visit_pair visit) (diff_list l r) a.
Proof.
  induction steps as [|steps IH]; intros l r ls rs a Hl Hr Hfuel Hsteps; [lia |]. cbn [diff_loop].
  destruct l as [|x l], r as [|y r]; cbn [head tail] in *.
  - done.
  - rewrite diff_list_nil_l. cbn [visit_all]. rewrite visit_pair_eq.
    destruct (visit None (Some y) a) as [a'|]; [| done]. cbn [mbind Res_bind].
    destruct (next_entry_ok D fuel s rs r Hr Hfuel) as (rs' & -> & Hr'). cbn [mbind Res_bind].
    apply (IH [] r ls rs'); [done | done | done | cbn in *; lia].
  - rewrite diff_list_nil_r. cbn [visit_all]. rewrite visit_pair_eq.
    destruct (visit (Some x) None a) as [a'|]; [| done]. cbn [mbind Res_bind].
    destruct (next_entry_ok D fuel s ls l Hl Hfuel) as (ls' & -> & Hl'). cbn [mbind Res_bind].
    apply (IH l [] ls' rs); [done | done | done | cbn in *; lia].
  - rewrite diff_list_cons_r. destruct (bytes_cmp (name x) (name y)) eqn:Ec.
    + rewrite visit_all_app.
      assert (visit_all (visit_pair visit) (if decide (x = y) then [] else [(Some x, Some y)]) a =
              (if decide (x = y) then Ok a else visit (Some x) (Some y) a)) as ->.
      { destruct (decide (x = y)); [done |]. cbn [visit_all]. rewrite visit_pair_eq.
        by destruct (visit (Some x) (Some y) a). }
      destruct (if decide (x = y) then _ else _) as [a'|]; [| done]. cbn [mbind Res_bind].
      destruct (next_entry_ok D fuel s ls l Hl Hfuel) as (ls' & -> & Hl'). cbn [mbind Res_bind].
      destruct (next_entry_ok D fuel s rs r Hr Hfuel) as (rs' & -> & Hr'). cbn [mbind Res_bind].
      apply (IH l r ls' rs'); [done | done | done | cbn in *; lia].
    + cbn [visit_all]. rewrite visit_pair_eq.
      destruct (visit (Some x) None a) as [a'|]; [| done]. cbn [mbind Res_bind].
      destruct (next_entry_ok D fuel s ls l Hl Hfuel) as (ls' & -> & Hl'). cbn [mbind Res_bind].
      apply (IH l (y :: r) ls' rs); [done | done | done | cbn in *; lia].
    + cbn [visit_all]. rewrite visit_pair_eq.
      destruct (visit None (Some y) a) as [a'|]; [| done]. cbn [mbind Res_bind].
      destruct (next_entry_ok D fuel s rs r Hr Hfuel) as (rs' & -> & Hr'). cbn [mbind Res_bind].
      apply (IH (x :: l) r ls rs'); [done | done | done | cbn in *; lia].
Qed.

(** A node has one content. *)
Lemma node_det d d' s id es es' : node d s id es → node d' s id es' → es = es'.
Proof.
  revert d' id es es'. induction d as [|d IH]; intros [|d'] id es es' (t & Hr & Ht) (t' & Hr' & Ht');
    rewrite Hr in Hr'; injection Hr' as <-.
  - destruct Ht as [_ <-], Ht' as [_ <-]. done.
  - destruct Ht as [? _], Ht' as [? _]. done.
  - destruct Ht as [? _], Ht' as [? _]. done.
  - destruct Ht as (_ & ess & Hg & <-), Ht' as (_ & ess' & Hg' & <-). f_equal.
    clear Hr. revert ess' Hg'. induction Hg as [|p es1 ps ess1 [_ Hn] _ IHg]; intros ess' Hg'.
    + by apply Forall2_nil_inv_l in Hg' as ->.
    + apply Forall2_cons_inv_l in Hg' as (es2 & ess2 & [_ Hn2] & Hg2 & ->).
      f_equal; [by eapply IH | by apply IHg].
Qed.

(** The pages of aligned branches, in pairs. *)
Lemma aligned_pairs dl dr s l r lss rss :
  aligned l r = true → Forall2 (good dl s) (pages l) lss → Forall2 (good dr s) (pages r) rss →
  length (pages l) = length (pages r) ∧
  Forall (λ '(p, q), first_name p = first_name q ∧ last_name p = last_name q) (zip (pages l) (pages r)).
Proof.
  unfold aligned. intros Ha _ _. apply andb_true_iff in Ha as [[_ Hlen]%andb_true_iff Hall].
  apply Nat.eqb_eq in Hlen. split; [done |]. apply Forall_forall. intros [p q] Hpq.
  rewrite forallb_forall in Hall. specialize (Hall (p, q)). cbn in Hall.
  rewrite <- list_elem_of_In in Hall. specialize (Hall Hpq).
  apply andb_true_iff in Hall as [?%bool_decide_eq_true ?%bool_decide_eq_true]. done.
Qed.

Lemma last_le p es e : page_ok p es → sorted es → e ∈ es → ble (name e) (last_name p).
Proof. intros. by eapply page_ok_range. Qed.

Lemma head_of_concat_lt p es ess y :
  page_ok p es → sorted (es ++ concat ess) → y ∈ concat ess → blt (last_name p) (name y).
Proof.
  intros (_ & (e & He & ->) & _) Hs Hy. apply sorted_app in Hs as (_ & _ & Hlt).
  apply Hlt; [| done]. rewrite last_lookup in He. by eapply list_elem_of_lookup_2.
Qed.

Lemma diff_entries_ok {A} (visit : visitor A) depth : ∀ dl dr D fuel s left right l r a,
  node dl s left l → node dr s right r → sorted l → sorted r →
  (dl < depth)%nat → (dl ≤ D)%nat → (dr ≤ D)%nat → (D + 3 ≤ fuel)%nat →
  (length l + length r < fuel)%nat →
  diff_entries visit depth fuel s left right a = visit_all (visit_pair visit) (diff_list l r) a.
Proof.
  induction depth as [|depth IH]; intros dl dr D fuel s left right l r a Hl Hr Hsl Hsr Hdepth HDl HDr Hfuel Hlen;
    [lia |].
  cbn [diff_entries]. destruct (decide (left = right)) as [->|Hne].
  { rewrite (node_det _ _ _ _ _ _ Hl Hr), diff_list_refl. done. }
  pose proof (node_inv _ _ _ _ Hl) as (tl & Hrl & Htl).
  pose proof (node_inv _ _ _ _ Hr) as (tr & Hrr & Htr).
  rewrite Hrl, Hrr. cbn [mbind Res_bind]. destruct dl as [|dl].
  all: destruct (aligned tl tr) eqn:Ea.
  1: { destruct Htl as [Hp _]. unfold aligned in Ea. by rewrite Hp in Ea. }
  2: destruct dr as [|dr].
  2: { destruct Htr as [Hp _], Htl as (Hpl & _). unfold aligned in Ea. rewrite Hp in Ea.
       destruct (pages tl); [done |]. by apply andb_true_iff in Ea as [[_ Ea]%andb_true_iff _]. }
  2: { clear Hl Hr Hrl Hrr Hne. destruct Htl as (_ & lss & Hgl & <-), Htr as (_ & rss & Hgr & <-).
    destruct (aligned_pairs _ _ _ _ _ _ _ Ea Hgl Hgr) as [Hlp Hal]. clear Ea.
    revert rss a Hgr Hsr Hlen Hlp Hal. generalize (pages tr). revert Hsl.
    induction Hgl as [|p es ps lss Hg _ IHg]; intros Hsl qs rss a Hgr Hsr Hlen Hlp Hal.
    { destruct qs; [| done]. by apply Forall2_nil_inv_l in Hgr as ->. }
    destruct Hgr as [|q fs qs rss Hq Hgr]; [done |]. cbn [zip zip_with] in Hal |- *.
    apply Forall_cons in Hal as [[Hf Hla] Hal]. cbn [concat] in *.
    rewrite diff_list_app.
    - rewrite visit_all_app. pose proof (sorted_app _ _ Hsl) as (Hs1 & Hs2 & _).
      pose proof (sorted_app _ _ Hsr) as (Hs3 & Hs4 & _). rewrite !length_app in Hlen.
      destruct Hg as [Hpg Hn], Hq as [Hqg Hm].
      rewrite (IH dl dr D fuel s (page_target p) (page_target q) es fs a Hn Hm Hs1 Hs3) by lia.
      destruct (visit_all _ (diff_list es fs) a) as [a'|]; [| done]. cbn [mbind Res_bind].
      apply IHg; [done | done | done | lia | cbn in Hlp; lia | done].
    - intros x y Hx Hy. destruct Hg as [Hpg _], Hq as [Hqg _].
      pose proof (sorted_app _ _ Hsl) as (Hs1 & _ & _).
      apply (ble_blt_trans _ (last_name p)); [by apply (last_le p es) |].
      rewrite Hla. by apply (head_of_concat_lt q fs rss).
    - intros x y Hx Hy. destruct Hg as [Hpg _], Hq as [Hqg _].
      pose proof (sorted_app _ _ Hsr) as (Hs3 & _ & _).
      apply (ble_blt_trans _ (last_name q)); [by apply (last_le q fs) |].
      rewrite <- Hla. by apply (head_of_concat_lt p es lss). }
  all: destruct (next_entry_root D _ fuel s left l Hl HDl Hfuel) as (ls & -> & Hls); cbn [mbind Res_bind].
  all: destruct (next_entry_root D _ fuel s right r Hr HDr Hfuel) as (rs & -> & Hrs); cbn [mbind Res_bind].
  all: by apply (diff_loop_ok visit D).
Qed.

(** What the merge of two sorted lists holds: the names they differ at. *)
Definition differ (l r : list TreeEntry) (p : option TreeEntry * option TreeEntry) : Prop :=
  ∃ n, found l n p.1 ∧ found r n p.2 ∧ p.1 ≠ p.2.

Lemma found_nil n o : found [] n o ↔ o = None.
Proof.
  unfold found. setoid_rewrite elem_of_nil. destruct o as [e|]; [| naive_solver].
  split; [| done]. intros H. by destruct (proj1 (H e) eq_refl) as [[] _].
Qed.

Lemma found_none l n o : (∀ e, e ∈ l → blt n (name e)) → found l n o ↔ o = None.
Proof.
  intros Hlt. assert (∀ e, ¬ (e ∈ l ∧ name e = n)) as Hno.
  { intros e [He <-]. by apply (blt_irrefl (name e)), Hlt. }
  unfold found. destruct o as [e|]; split; try done.
  - intros H. by destruct (Hno e), (proj1 (H e) eq_refl).
  - intros _ e. split; [done |]. intros He. by destruct (Hno e).
Qed.

Lemma sorted_cons_lt x l : sorted (x :: l) → sorted l ∧ ∀ e, e ∈ l → blt (name x) (name e).
Proof.
  intros [Hs Hx]%StronglySorted_inv. split; [done |]. rewrite Forall_forall in Hx.
  intros e He. apply Hx. by apply list_elem_of_fmap_2.
Qed.

Lemma found_cons x l n o :
  sorted (x :: l) →
  found (x :: l) n o ↔ (n = name x ∧ o = Some x) ∨ (n ≠ name x ∧ found l n o).
Proof.
  intros [_ Hlt]%sorted_cons_lt. destruct (decide (n = name x)) as [->|Hne].
  - split.
    + intros Hf. left. split; [done |]. apply Hf. split; [by left | done].
    + intros [[_ ->]|[? _]]; [| done]. intros e. split.
      * intros [= <-]. split; [by left | done].
      * intros [[->|He]%elem_of_cons Hn]; [done |]. apply Hlt in He. rewrite Hn in He.
        by apply blt_irrefl in He.
  - split.
    + intros Hf. right. split; [done |]. intros e. rewrite (Hf e), elem_of_cons. naive_solver.
    + intros [[? _]|[_ Hf]]; [done |]. intros e. rewrite (Hf e), elem_of_cons. naive_solver.
Qed.

Lemma found_app_tail_none x l o : sorted (x :: l) → found l (name x) o ↔ o = None.
Proof. intros [_ Hlt]%sorted_cons_lt. by apply found_none. Qed.

Lemma differ_swap l r p : differ l r p ↔ differ r l (p.2, p.1).
Proof. unfold differ. split; intros (n & ? & ? & ?); exists n; cbn in *; auto. Qed.

(** Taking a name off the left list that the right list does not have. *)
Lemma differ_left x l r p :
  sorted (x :: l) → (∀ e, e ∈ r → blt (name x) (name e)) →
  differ (x :: l) r p ↔ p = (Some x, None) ∨ differ l r p.
Proof.
  intros Hs Hr. unfold differ. destruct p as [o o']. cbn. split.
  - intros (n & Hl & Hr' & Hne). apply (found_cons _ _ _ _ Hs) in Hl as [[-> ->]|[? ?]].
    + apply (found_none r) in Hr' as ->; [by left | done].
    + right. by exists n.
  - intros [[= -> ->]|(n & Hl & Hr' & Hne)].
    + exists (name x). rewrite (found_cons _ _ _ _ Hs), (found_none r) by done. auto.
    + exists n. split; [| done]. apply (found_cons _ _ _ _ Hs). right. split; [| done]. intros ->.
      apply (found_app_tail_none _ _ _ Hs) in Hl. apply (found_none r) in Hr'; [| done]. by subst.
Qed.
Lemma differ_right y r l p :
  sorted (y :: r) → (∀ e, e ∈ l → blt (name y) (name e)) →
  differ l (y :: r) p ↔ p = (None, Some y) ∨ differ l r p.
Proof.
  intros Hs Hl. rewrite differ_swap, (differ_left _ _ _ _ Hs Hl), (differ_swap l r).
  destruct p as [o o']. cbn. naive_solver.
Qed.

Lemma differ_both x l y r p :
  sorted (x :: l) → sorted (y :: r) → name x = name y →
  differ (x :: l) (y :: r) p ↔ (p = (Some x, Some y) ∧ x ≠ y) ∨ differ l r p.
Proof.
  intros Hsl Hsr Hn. unfold differ. destruct p as [o o']. cbn. split.
  - intros (n & Hl & Hr & Hne).
    apply (found_cons _ _ _ _ Hsl) in Hl. apply (found_cons _ _ _ _ Hsr) in Hr.
    destruct Hl as [[-> ->]|[? ?]], Hr as [[? ->]|[? ?]]; try congruence.
    + left. split; [done | congruence].
    + right. by exists n.
  - intros [[[= -> ->] Hne]|(n & Hl & Hr & Hne)].
    + exists (name x). rewrite (found_cons _ _ _ _ Hsl), (found_cons _ _ _ _ Hsr).
      split; [by left |]. split; [by left | congruence].
    + exists n. assert (n ≠ name x) as Hnx.
      { intros ->. apply (found_app_tail_none _ _ _ Hsl) in Hl. rewrite Hn in Hr.
        apply (found_app_tail_none _ _ _ Hsr) in Hr. by subst. }
      rewrite (found_cons _ _ _ _ Hsl), (found_cons _ _ _ _ Hsr). split; [by right |].
      split; [right; split; [congruence | done] | done].
Qed.

Lemma lt_all x y r : sorted (y :: r) → blt x (name y) → ∀ e, e ∈ y :: r → blt x (name e).
Proof.
  intros [_ Hlt]%sorted_cons_lt Hx e [->|He]%elem_of_cons; [done |].
  eapply blt_trans; [exact Hx | by apply Hlt].
Qed.

Lemma diff_list_differ l : ∀ r p, sorted l → sorted r → p ∈ diff_list l r ↔ differ l r p.
Proof.
  induction l as [|x l IHl]; intros r p Hsl Hsr.
  - induction r as [|y r IHr].
    + cbn. rewrite elem_of_nil. split; [done |]. intros (n & Hl%found_nil & Hr%found_nil & Hne). congruence.
    + pose proof (sorted_cons_lt _ _ Hsr) as [Hs _].
      rewrite diff_list_nil_l, elem_of_cons, (IHr Hs), (differ_right y r []); [done | done |].
      by intros e ?%not_elem_of_nil.
  - pose proof (sorted_cons_lt _ _ Hsl) as [Hs _]. induction r as [|y r IHr].
    + rewrite diff_list_nil_r, elem_of_cons, (IHl [] p Hs Hsr), (differ_left x l []); [done | done |].
      by intros e ?%not_elem_of_nil.
    + pose proof (sorted_cons_lt _ _ Hsr) as [Hs' _]. rewrite diff_list_cons_r.
      destruct (bytes_cmp (name x) (name y)) eqn:Ec.
      * apply bytes_cmp_eq in Ec. rewrite elem_of_app, (IHl r p Hs Hs'), (differ_both x l y r p) by done.
        destruct (decide (x = y)); rewrite ?list_elem_of_singleton, ?elem_of_nil; naive_solver.
      * rewrite elem_of_cons, (IHl (y :: r) p Hs Hsr), (differ_left x l (y :: r)); [done | done |].
        by apply lt_all.
      * apply blt_gt in Ec. rewrite elem_of_cons, (IHr Hs'), (differ_right y r (x :: l)); [done | done |].
        by apply lt_all.
Qed.

(** ** Properties *)

(** C20 Writing a directory: when [write] answers a root, the entries were in
    strict name order, nothing stored before was lost, and the root's tree reads
    back: iteration visits exactly the entries in order and lookup by name finds
    exactly the entry of that name. *)
Theorem write_reads fuel es s root s' :
  write fuel es s = (Ok (Some root), s') →
  sorted es ∧ extends s s' ∧
  ∃ D, ∀ fuel', (D + length es + 3 ≤ fuel')%nat →
    (∀ A (visit : TreeEntry → A → Res A) a,
       for_each_entry visit fuel' s' root a = visit_all visit es a) ∧
    (∀ nm, ∃ o, find_entry fuel' s' root nm = Ok o ∧ found es nm o).
Proof.
  unfold write. intros (b & s1 & Hpush & Hfin)%M_bind_ok.
  apply (push_all_ok _ _ _ [] _ _ (builds_new s)) in Hpush as [Hb He1]. cbn in Hb.
  pose proof Hb as [Hs _]. apply (finish_ok _ _ es) in Hfin as [(d & _ & Hn) He2]; [| done].
  split; [done |]. split; [by eapply extends_trans |]. exists d. intros fuel' Hfuel. split.
  - intros A visit a. unfold for_each_entry. destruct fuel' as [|fuel']; [lia |]. cbn [for_each_loop].
    destruct (next_entry_root d d (S fuel') s' root es Hn ltac:(lia) ltac:(lia)) as (st' & -> & Hst).
    destruct es as [|e es]; [done |]. cbn [head tail mbind Res_bind visit_all] in *.
    destruct (visit e a) as [a'|]; [| done]. cbn [mbind Res_bind].
    apply (for_each_loop_ok visit d); [done | lia | cbn in *; lia].
  - intros nm. apply (find_entry_ok d); [done | done | lia].
Qed.

(** C21 [diff_entries] of two directories calls its visitor once for each name
    at which they differ, with both entries, whether it walked aligned pages or
    whole trees. *)
Theorem diff_entries_spec {A} (visit : visitor A) dl dr s left right l r :
  node dl s left l → node dr s right r → sorted l → sorted r →
  ∃ ds, (∀ p, p ∈ ds ↔ differ l r p) ∧
    ∀ depth fuel a, (dl < depth)%nat → (dl + dr + length l + length r + 3 < fuel)%nat →
      diff_entries visit depth fuel s left right a = visit_all (visit_pair visit) ds a.
Proof.
  intros Hl Hr Hsl Hsr. exists (diff_list l r). split; [intros p; by apply diff_list_differ |].
  intros depth fuel a Hd Hf. apply (diff_entries_ok visit depth dl dr (dl + dr)); try done; lia.
Qed.

(** Termination of [finish]: when page references stay within 2041 encoded
    bytes, two fit in a branch page, every round of the loop halves the level,
    and as many rounds as there are references always end it. *)
Theorem levels_terminate names ps s r s' :
  ids_32 → (∀ p, reference names p → blen (to_vec p) ≤ 2041) →
  Forall (reference names) ps → ps ≠ [] →
  levels (length ps) ps s = (Ok r, s') → is_Some r.
Proof.
  intros Hids Hsmall Hps Hne. apply (levels_return names); try done.
  destruct ps; [done | cbn; lia].
Qed.

(** The loop of [finish] never ends for long names: when every page
    reference takes at least 2042 encoded bytes, as with names near the 255-byte
    limit, no two share a branch, each round writes one branch per reference,
    and no number of rounds reaches a single root. *)
Theorem levels_diverge (P : TreePage → Prop) fuel : 
  (∀ p, P p → 2042 ≤ blen (to_vec p)) →
  (∀ p s q s', P p → store_branch [p] s = (Ok q, s') → P q) →
  ∀ ps s r s', Forall P ps → (2 ≤ length ps)%nat → levels fuel ps s = (Ok r, s') → r = None.
Proof.
  intros Hbig Hclosed. induction fuel as [|fuel IH]; intros ps s r s' Hps Hlen Hrun.
  { by injection Hrun. }
  cbn [levels] in Hrun. rewrite (proj2 (Nat.ltb_lt _ _)) in Hrun by lia.
  apply M_bind_ok in Hrun as (ps1 & s1 & Hw & Hrun).
  destruct (branch_loop_stuck P ps Hbig Hclosed [] [] BRANCH_OVERHEAD s ps1 s1) as [Hf Hl];
    try done; [constructor.. | cbn; lia |].
  eapply IH; [exact Hf | cbn in Hl; lia | exact Hrun].
Qed.
End TreeSpec.


(** ** Witnesses *)

Module TreeExample.
(** An ideal address: the object itself. *)
#[local] Instance ideal : Blake3 := λ b, b.
#[local] Instance ideal_collision_free : CollisionFree.
Proof. intros [] b [] b' Heq; unfold object_id, blake3, ideal in Heq; cbn in Heq; by simplify_eq. Qed.
#[local] Existing Instance toy_json.
#[local] Existing Instance toy_json_ok.

Definition file (n : bytes) (size : Z) : TreeEntry :=
  mkTreeEntry n File (Some zero_id) [] 420 size 0 0 None Source.
Definition dir1 : list TreeEntry := [file (b_ "a") 1; file (b_ "b") 2].
Definition empty_store : Objects := mkObjects _ ∅ (map_Forall_empty _).

Lemma dir1_written : ∃ root s', write 3 dir1 empty_store = (Ok (Some root), s').
Proof.
  destruct (write 3 dir1 empty_store) as [r s'] eqn:E.
  assert (match r with Ok (Some _) => true | _ => false end = true) as Hr.
  { replace r with (write 3 dir1 empty_store).1 by by rewrite E. by vm_compute. }
  destruct r as [[root|]|]; [by exists root, s' | done..].
Qed.

Lemma write_reads_witness :
  ∃ root s', write 3 dir1 empty_store = (Ok (Some root), s') ∧ sorted dir1 ∧ extends empty_store s'.
Proof.
  destruct dir1_written as (root & s' & E). exists root, s'.
  destruct (write_reads 3 dir1 empty_store root s' E) as (Hs & He & _).
  exact (conj E (conj Hs He)).
Defined.

(** A store with two leaf directories. *)
Lemma two_leaves :
  ∃ s left right, node 0 s left dir1 ∧ node 0 s right [file (b_ "b") 3].
Proof.
  destruct dir1_written as (l & s1 & _).
  exists (put_addressed TreeKind (to_vec (mkTree [file (b_ "b") 3] []))
            (put_addressed TreeKind (to_vec (mkTree dir1 [])) empty_store)).
  set (t1 := mkTree dir1 []). set (t2 := mkTree [file (b_ "b") 3] []).
  assert (object_id TreeKind (to_vec t1) ≠ object_id TreeKind (to_vec t2)) as Hne.
  { intros [_ Hv]%object_id_inj. apply (f_equal (from_slice (A := Tree))) in Hv. by rewrite !from_to in Hv. }
  exists (object_id TreeKind (to_vec t1)), (object_id TreeKind (to_vec t2)). split.
  - exists t1. split; [| done]. unfold read_node, read_struct. cbn [read_object Objects_store objects put_addressed].
    rewrite lookup_insert_ne, lookup_insert, decide_True by done. cbn [with_context mbind Res_bind ensure].
    rewrite bool_decide_true by done. cbn [ensure mbind Res_bind]. by rewrite from_to.
  - exists t2. split; [| done]. unfold read_node, read_struct. cbn [read_object Objects_store objects put_addressed].
    rewrite lookup_insert, decide_True by done. cbn [with_context mbind Res_bind ensure].
    rewrite bool_decide_true by done. cbn [ensure mbind Res_bind]. by rewrite from_to.
Qed.

Lemma dir1_sorted : sorted dir1.
Proof. unfold sorted. cbn. repeat constructor. Qed.
Lemma dir2_sorted : sorted [file (b_ "b") 3].
Proof. unfold sorted. cbn. repeat constructor. Qed.

Lemma diff_entries_spec_witness :
  ∃ (s : Objects) left right ds, (∀ p, p ∈ ds ↔ differ dir1 [file (b_ "b") 3] p) ∧
    ∀ depth fuel (a : nat), (0 < depth)%nat → (6 < fuel)%nat →
      diff_entries (λ _ _ n, Ok (S n)) depth fuel s left right a =
      visit_all (visit_pair (λ _ _ n, Ok (S n))) ds a.
Proof.
  destruct two_leaves as (s & left & right & Hl & Hr).
  destruct (diff_entries_spec (λ _ _ n, Ok (S n)) 0 0 s left right _ _ Hl Hr dir1_sorted dir2_sorted)
    as (ds & Hds & Hrun).
  exists s, left, right, ds. exact (conj Hds Hrun).
Defined.

(** A store that numbers its objects. *)
#[local] Instance numbered : ObjectStore (list (ObjectKind * bytes)) := {
  put_object := λ k b s,
    if Z.of_nat (length s) <? 2 ^ 256 then (Ok (to_le 32 (Z.of_nat (length s))), s ++ [(k, b)])
    else (Err "full", s);
  read_object := λ k id s,
    '(k', b) ← with_context (s !! Z.to_nat (from_le id)) "object does not exist";
    _ ← ensure (bool_decide (k' = k)) "object kind mismatch";
    Ok b;
}.
#[local] Instance numbered_ok : ObjectStoreOk (list (ObjectKind * bytes)).
Proof.
  split.
  - intros k b s id s'. cbn [put_object numbered].
    destruct (Z.ltb_spec (Z.of_nat (length s)) (2 ^ 256)); [| done]. intros [= <- <-]. cbn [read_object numbered].
    rewrite from_to_le by (change (Z.of_nat 32 * 8) with 256; lia). rewrite Nat2Z.id.
    rewrite lookup_app_r, Nat.sub_diag by lia. cbn. by rewrite bool_decide_true.
  - intros k b s r s'. cbn [put_object numbered].
    destruct (_ <? _); intros [= <- <-]; intros k' id b' Hr; [| done]. cbn [read_object numbered] in *.
    destruct (s !! Z.to_nat (from_le id)) eqn:E; [| done]. by rewrite (lookup_app_l_Some _ _ _ _ E).
Qed.
Lemma numbered_32 : ids_32 (St := list (ObjectKind * bytes)).
Proof.
  intros k b s id s'. cbn [put_object numbered]. destruct (_ <? _); [| done].
  intros [= <- _]. by rewrite blen_to_le.
Qed.

Definition ref (n : bytes) : TreePage := mkTreePage n n 1 zero_id.
Definition names3 : list bytes := [b_ "a"; b_ "b"; b_ "c"].
Definition refs3 : list TreePage := map ref names3.

Lemma refs3_references : Forall (reference names3) refs3.
Proof. repeat constructor; cbn; try (unfold names3; set_solver); done. Qed.

Section Small.
#[local] Instance short_pages : Json TreePage := {| to_vec := λ _, []; from_slice := λ _, None |}.

Lemma levels3_run : ∃ r s', levels (length refs3) refs3 [] = (Ok r, s').
Proof.
  destruct (levels (length refs3) refs3 []) as [r s'] eqn:E.
  assert (is_ok r = true) as Hr.
  { replace r with (levels (length refs3) refs3 []).1 by by rewrite E. by vm_compute. }
  destruct r as [r|]; [by exists r, s' | done].
Qed.

Lemma short_fits p : reference names3 p → blen (to_vec p) ≤ 2041.
Proof. intros _. by vm_compute. Qed.

Lemma levels_terminate_witness :
  ∃ r s', levels (length refs3) refs3 [] = (Ok r, s') ∧ is_Some r.
Proof.
  destruct levels3_run as (r & s' & E). exists r, s'.
  exact (conj E (levels_terminate names3 refs3 [] r s' numbered_32 short_fits refs3_references
                   ltac:(done) E)).
Defined.
End Small.

Section Long.
#[local] Instance long_pages : Json TreePage :=
  {| to_vec := λ p, replicate 2042 Byte.x00; from_slice := λ _, None |}.

Lemma levels3_long : ∃ r s', levels 4 refs3 [] = (Ok r, s').
Proof.
  destruct (levels 4 refs3 []) as [r s'] eqn:E.
  assert (is_ok r = true) as Hr.
  { replace r with (levels 4 refs3 []).1 by by rewrite E. by vm_compute. }
  destruct r as [r|]; [by exists r, s' | done].
Qed.

Lemma long_large p : True → 2042 ≤ blen (to_vec p).
Proof. intros _. by vm_compute. Qed.

Lemma levels_diverge_witness : ∃ r s', levels 4 refs3 [] = (Ok r, s') ∧ r = None.
Proof.
  destruct levels3_long as (r & s' & E). exists r, s'.
  exact (conj E (levels_diverge (λ _, True) 4 long_large ltac:(done) refs3 [] r s'
                   ltac:(by repeat constructor) ltac:(cbn; lia) E)).
Defined.
End Long.
End TreeExample.
