(* ===== verification/Merge.v ===== *)
(** * Merge: three-way planning of workspace trees ([furrow-core/src/merge.rs])

    [plan] works on flat maps from paths to entries and is the oracle the code's
    tests compare with; [plan_trees] works on tree objects and keeps only the
    paths that differ from the base. *)

From S2P Require Import Prelude Model Tree.
#[local] Open Scope Z_scope.

Inductive MergeAction := Set_ (e : TreeEntry) | Remove.
Record MergeChange := mkChange { change_path : bytes; action : MergeAction }.
Inductive ConflictKind := ModifyModify | DeleteModify | TypeConflict | Ancestor.
Record MergeConflict := mkConflict { conflict_path : bytes; conflict_kind : ConflictKind }.
Record MergePlan := mkPlan { changes : list MergeChange; conflicts : list MergeConflict }.

#[export] Instance MergeAction_eq_dec : EqDecision MergeAction.
Proof. solve_decision. Defined.
#[export] Instance MergeChange_eq_dec : EqDecision MergeChange.
Proof. solve_decision. Defined.
#[export] Instance ConflictKind_eq_dec : EqDecision ConflictKind.
Proof. solve_decision. Defined.
#[export] Instance MergeConflict_eq_dec : EqDecision MergeConflict.
Proof. solve_decision. Defined.
#[export] Instance MergePlan_eq_dec : EqDecision MergePlan.
Proof. solve_decision. Defined.

(** [BTreeMap<Vec<u8>, TreeEntry>] *)
Abbreviation entry_map := (gmap bytes TreeEntry).

Definition without_times (e : TreeEntry) : TreeEntry :=
  mkTreeEntry (name e) (kind e) (target e) (link_target e) (mode e) (size e) 0 0 (xattrs e) (class e).
Definition without_target (e : TreeEntry) : TreeEntry :=
  mkTreeEntry (name e) (kind e) None (link_target e) (mode e) (size e) (mtime_secs e) (mtime_nanos e)
    (xattrs e) (class e).

Definition is_dir (o : option TreeEntry) : bool :=
  match o with Some e => bool_decide (kind e = Directory) | None => false end.

Definition equivalent (left right : option TreeEntry) : bool :=
  match left, right with
  | None, None => true
  | Some l, Some r =>
    let l := without_times l in
    let r := without_times r in
    let '(l, r) := if bool_decide (kind l = Directory) && bool_decide (kind r = Directory)
                   then (without_target l, without_target r) else (l, r) in
    bool_decide (l = r)
  | _, _ => false
  end.

Definition direct_conflict (base ours theirs : option TreeEntry) : ConflictKind :=
  match ours, theirs with
  | Some o, Some t =>
    if negb (bool_decide (kind o = kind t))
       || match base with Some b => negb (bool_decide (kind b = kind o)) | None => false end
    then TypeConflict else ModifyModify
  | _, _ => DeleteModify
  end.

Definition is_descendant (path ancestor : bytes) : bool :=
  (blen ancestor <? blen path) && starts_with path ancestor
  && bool_decide (path !! length ancestor = Some slash).

(** The chains [base.iter().filter(..).any(..) || side.iter().filter(..).any(..)]. *)
Definition subtree_changed (base side : entry_map) (directory : bytes) : bool :=
  existsb (λ '(path, entry), is_descendant path directory && negb (equivalent (Some entry) (side !! path)))
    (btree_iter base)
  || existsb (λ '(path, entry), is_descendant path directory && negb (equivalent (base !! path) (Some entry)))
       (btree_iter side).

Definition set_or_remove (o : option TreeEntry) : MergeAction :=
  match o with Some e => Set_ e | None => Remove end.

(** One path of the first loop. *)
Definition plan_path (path : bytes) (b o t : option TreeEntry) (acc : list MergeChange * list MergeConflict)
    : list MergeChange * list MergeConflict :=
  let '(chs, cfs) := acc in
  if equivalent o t then (chs, cfs)
  else if equivalent b o then (chs ++ [mkChange path (set_or_remove t)], cfs)
  else if equivalent b t then (chs, cfs)
  else (chs, cfs ++ [mkConflict path (direct_conflict b o t)]).

(** [conflicts.iter().any(|c| c.path == path)] guarding a push. *)
Definition add_ancestor_conflict (cfs : list MergeConflict) (path : bytes) : list MergeConflict :=
  if existsb (λ c, bool_decide (conflict_path c = path)) cfs then cfs
  else cfs ++ [mkConflict path Ancestor].

Definition conflict_le (a b : MergeConflict) : Prop := ble (conflict_path a) (conflict_path b).
#[export] Instance conflict_le_dec : RelDecision conflict_le.
Proof. intros a b. unfold conflict_le. apply _. Defined.

(** [Vec::dedup_by] on the path: of equal neighbours the first stays. *)
Fixpoint dedup_conflicts (l : list MergeConflict) : list MergeConflict :=
  match l with
  | a :: ((b :: rest) as l') =>
    match dedup_conflicts l' with
    | c :: rest' => if decide (conflict_path a = conflict_path b) then a :: rest' else a :: c :: rest'
    | [] => [a]
    end
  | _ => l
  end.

(** The end of both planners: sort, dedup, and drop every change at or below a
    conflict. *)
Definition settle (chs : list MergeChange) (cfs : list MergeConflict) : MergePlan :=
  let cfs := dedup_conflicts (merge_sort conflict_le cfs) in
  mkPlan
    (base.filter (λ ch, existsb (λ c, bool_decide (change_path ch = conflict_path c)
                                 || is_descendant (change_path ch) (conflict_path c)) cfs = false) chs)
    cfs.

Definition ancestor_conflict (base ours theirs : entry_map) (path : bytes) (b : TreeEntry) : bool :=
  if negb (bool_decide (kind b = Directory)) then false
  else
    let ours_is_directory := is_dir (ours !! path) in
    let theirs_is_directory := is_dir (theirs !! path) in
    (negb ours_is_directory && theirs_is_directory && subtree_changed base theirs path
     && negb (equivalent (ours !! path) (theirs !! path)))
    || (negb theirs_is_directory && ours_is_directory && subtree_changed base ours path
        && negb (equivalent (ours !! path) (theirs !! path))).

Definition plan (base ours theirs : entry_map) : MergePlan :=
  let paths := sorted_keys (dom base ∪ dom ours ∪ dom theirs) in
  let '(chs, cfs) :=
    foldl (λ acc path, plan_path path (base !! path) (ours !! path) (theirs !! path) acc) ([], []) paths in
  let ancestors := omap (λ '(path, b), if ancestor_conflict base ours theirs path b then Some path else None)
                     (btree_iter base) in
  settle chs (foldl add_ancestor_conflict cfs ancestors).

(** ** Planning from trees *)

Record Delta := mkDelta { before : option TreeEntry; after : option TreeEntry }.
Abbreviation delta_map := (gmap bytes Delta).

Definition join_path (prefix nm : bytes) : bytes :=
  if bool_decide (prefix = []) then nm else prefix ++ slash :: nm.

(** [deltas.range(directory..).find(|(path, _)| path != directory)
    .is_some_and(|(path, _)| is_descendant(path, directory))] *)
Definition delta_has_descendant (deltas : delta_map) (directory : bytes) : bool :=
  match list_find (λ path, ble directory path ∧ path ≠ directory) (sorted_keys (dom deltas)) with
  | Some (_, path) => is_descendant path directory
  | None => false
  end.

Definition delta_base (ours theirs : delta_map) (path : bytes) : option TreeEntry :=
  match ours !! path with
  | Some d => before d
  | None => match theirs !! path with Some d => before d | None => None end
  end.
Definition delta_after (side : delta_map) (b : option TreeEntry) (path : bytes) : option TreeEntry :=
  match side !! path with Some d => after d | None => b end.

(** One entry of the two ancestor loops: [mine] lost the directory, [other] may
    have changed something in it. *)
Definition delta_ancestor (other : delta_map) (path : bytes) (delta : Delta) : bool :=
  match before delta with
  | None => false
  | Some base_entry =>
    if negb (bool_decide (kind base_entry = Directory)) then false
    else
      let mine_is_directory := is_dir (after delta) in
      let other_entry :=
        match other !! path with Some d => default base_entry (after d) | None => base_entry end in
      negb mine_is_directory && bool_decide (kind other_entry = Directory)
      && delta_has_descendant other path
  end.

(** [plan_trees] after the deltas are collected. *)
Definition plan_deltas (ours theirs : delta_map) : MergePlan :=
  let paths := sorted_keys (dom ours ∪ dom theirs) in
  let '(chs, cfs) :=
    foldl (λ acc path,
      let b := delta_base ours theirs path in
      plan_path path b (delta_after ours b path) (delta_after theirs b path) acc) ([], []) paths in
  let cfs := foldl (λ cfs '(path, d), if delta_ancestor theirs path d then add_ancestor_conflict cfs path else cfs)
               cfs (btree_iter ours) in
  let cfs := foldl (λ cfs '(path, d), if delta_ancestor ours path d then add_ancestor_conflict cfs path else cfs)
               cfs (btree_iter theirs) in
  settle chs cfs.

Section PlanTrees.
Context {St : Type} `{ObjectStore St, Json Tree}.

(** [fuel] bounds the depth of directories and is the fuel of the tree walks. *)
Fixpoint collect_subtree (fuel : nat) (s : St) (root : ObjectId) (prefix : bytes) (added : bool)
    (output : delta_map) : Res delta_map :=
  match fuel with
  | O => Err "fuel"
  | S fuel =>
    for_each_entry (λ entry output,
      let path := join_path prefix (name entry) in
      let delta := if added then mkDelta None (Some entry) else mkDelta (Some entry) None in
      let output := <[path := delta]> output in
      if decide (kind entry = Directory) then
        t ← with_context (target entry) "panic: directory has a tree target";
        collect_subtree fuel s t path added output
      else Ok output) fuel s root output
  end.

Fixpoint collect_delta (fuel : nat) (s : St) (before_root after_root : ObjectId) (prefix : bytes)
    (output : delta_map) : Res delta_map :=
  match fuel with
  | O => Err "fuel"
  | S fuel =>
    if decide (before_root = after_root) then Ok output
    else
      diff_entries (λ bef aft output,
        entry ← with_context (match bef with Some e => Some e | None => aft end)
                  "panic: tree diff always provides an entry";
        let path := join_path prefix (name entry) in
        let output := if negb (equivalent bef aft) then <[path := mkDelta bef aft]> output else output in
        if is_dir bef && is_dir aft then
          l ← with_context (e ← bef; target e) "panic: directory has a tree target";
          r ← with_context (e ← aft; target e) "panic: directory has a tree target";
          collect_delta fuel s l r path output
        else
          output ← (if is_dir bef then
                      t ← with_context (e ← bef; target e) "panic: directory has a tree target";
                      collect_subtree fuel s t path false output
                    else Ok output);
          if is_dir aft then
            t ← with_context (e ← aft; target e) "panic: directory has a tree target";
            collect_subtree fuel s t path true output
          else Ok output) fuel fuel s before_root after_root output
  end.

Definition plan_trees (fuel : nat) (s : St) (base_root ours_root theirs_root : ObjectId) : Res MergePlan :=
  ours_delta ← collect_delta fuel s base_root ours_root [] ∅;
  theirs_delta ← collect_delta fuel s base_root theirs_root [] ∅;
  Ok (plan_deltas ours_delta theirs_delta).
End PlanTrees.
