(* ===== verification/MergeTheory.v ===== *)
(** * MergeTheory: what a merge plan takes, keeps and reports

    The flat planner is characterised path by path; applying its changes gives
    the three-way merge everywhere outside the reported conflicts; it does not
    depend on which side is called ours. The delta planner computes the same plan
    while no directory disappears, and where one does the two disagree. *)

From S2P Require Import Prelude Model Tree Merge.
#[local] Open Scope Z_scope.

(** ** Equivalence of entries *)

(** What [equivalent] compares. *)
Definition norm (e : TreeEntry) : TreeEntry :=
  let e := without_times e in
  if bool_decide (kind e = Directory) then without_target e else e.

Lemma equivalent_norm l r : equivalent l r = bool_decide (norm <$> l = norm <$> r).
Proof.
  destruct l as [l|], r as [r|]; cbn; try done. unfold norm. cbn.
  destruct (bool_decide_reflect (kind l = Directory)) as [Hl|Hl];
    destruct (bool_decide_reflect (kind r = Directory)) as [Hr|Hr]; cbn.
  all: apply bool_decide_ext; split; [intros H | intros H%(inj Some)].
  all: first [ by rewrite H | exact H | exfalso; apply (f_equal kind) in H; cbn in H; congruence ].
Qed.

(** Equality up to times and directory targets, as a setoid. *)
Definition same (l r : option TreeEntry) : Prop := equivalent l r = true.
#[export] Instance same_dec : RelDecision same.
Proof. intros l r. unfold same. apply _. Defined.
#[export] Instance same_equivalence : Equivalence same.
Proof.
  split; unfold same.
  - intros x. rewrite equivalent_norm. by apply bool_decide_eq_true.
  - intros x y. rewrite !equivalent_norm, !bool_decide_eq_true. done.
  - intros x y z. rewrite !equivalent_norm, !bool_decide_eq_true. congruence.
Qed.
#[export] Instance equivalent_proper : Proper (same ==> same ==> (=)) equivalent.
Proof.
  intros x x' Hx y y' Hy. unfold same in *. rewrite equivalent_norm in *.
  apply bool_decide_eq_true in Hx, Hy. rewrite Hx, Hy. by rewrite equivalent_norm.
Qed.
Lemma same_kind l r : same (Some l) (Some r) → kind l = kind r.
Proof.
  unfold same. rewrite equivalent_norm. intros [= H]%bool_decide_eq_true.
  apply (f_equal kind) in H. unfold norm in H. cbn in H.
  by destruct (bool_decide (kind l = Directory)), (bool_decide (kind r = Directory)).
Qed.
#[export] Instance is_dir_proper : Proper (same ==> (=)) is_dir.
Proof.
  intros [l|] [r|] Hs; try done. cbn. by rewrite (same_kind _ _ Hs).
Qed.
#[export] Instance direct_conflict_proper : Proper (same ==> same ==> same ==> (=)) direct_conflict.
Proof.
  intros [b|] [b'|] Hb [o|] [o'|] Ho [t|] [t'|] Ht; try done; cbn;
    rewrite ?(same_kind _ _ Hb), ?(same_kind _ _ Ho), ?(same_kind _ _ Ht); done.
Qed.
Lemma equivalent_sym l r : equivalent l r = equivalent r l.
Proof. rewrite !equivalent_norm. apply bool_decide_ext. naive_solver. Qed.
Lemma not_same l r : equivalent l r = false ↔ ¬ same l r.
Proof. unfold same. by destruct (equivalent l r). Qed.

(** ** The first loop *)

Definition change_of (path : bytes) (b o t : option TreeEntry) : option MergeChange :=
  if equivalent o t then None
  else if equivalent b o then Some (mkChange path (set_or_remove t)) else None.
Definition conflict_of (path : bytes) (b o t : option TreeEntry) : option MergeConflict :=
  if equivalent o t then None
  else if equivalent b o then None
  else if equivalent b t then None
  else Some (mkConflict path (direct_conflict b o t)).

Lemma plan_path_run path b o t chs cfs :
  plan_path path b o t (chs, cfs) =
  (chs ++ option_list (change_of path b o t), cfs ++ option_list (conflict_of path b o t)).
Proof.
  unfold plan_path, change_of, conflict_of.
  destruct (equivalent o t), (equivalent b o), (equivalent b t); cbn; by rewrite ?app_nil_r.
Qed.

Lemma omap_cons_option {A B} (f : A → option B) x l : omap f (x :: l) = option_list (f x) ++ omap f l.
Proof. cbn. by destruct (f x). Qed.

Lemma plan_fold (fb fo ft : bytes → option TreeEntry) paths chs cfs :
  foldl (λ acc path, plan_path path (fb path) (fo path) (ft path) acc) (chs, cfs) paths =
  (chs ++ omap (λ p, change_of p (fb p) (fo p) (ft p)) paths,
   cfs ++ omap (λ p, conflict_of p (fb p) (fo p) (ft p)) paths).
Proof.
  revert chs cfs. induction paths as [|p paths IH]; intros chs cfs; cbn [foldl].
  - cbn. by rewrite !app_nil_r.
  - rewrite plan_path_run, IH, !omap_cons_option, <- !app_assoc. done.
Qed.

(** ** Conflicts: no path twice, in order *)

Definition conflict_paths (cfs : list MergeConflict) : list bytes := map conflict_path cfs.

Lemma omap_sorted {B} (f : bytes → option B) (key : B → bytes) l :
  (∀ p y, f p = Some y → key y = p) → StronglySorted blt l →
  StronglySorted blt (map key (omap f l)).
Proof.
  intros Hk. induction 1 as [|p l Hs IH Hp]; [constructor |]. cbn.
  destruct (f p) as [y|] eqn:E; [| done]. cbn. constructor; [done |].
  rewrite (Hk _ _ E). rewrite Forall_forall in Hp |- *.
  intros n (y' & -> & Hy')%list_elem_of_fmap. apply list_elem_of_omap in Hy' as (p' & Hp' & Hf').
  rewrite (Hk _ _ Hf'). by apply Hp.
Qed.

Lemma sorted_NoDup l : StronglySorted blt l → NoDup l.
Proof.
  induction 1 as [|x l Hs IH Hx]; constructor; [| done].
  rewrite Forall_forall in Hx. intros Hin%Hx. by apply blt_irrefl in Hin.
Qed.

Lemma existsb_path cfs path :
  existsb (λ c, bool_decide (conflict_path c = path)) cfs = bool_decide (path ∈ conflict_paths cfs).
Proof.
  apply eq_bool_prop_intro. rewrite bool_decide_spec, Is_true_true, existsb_exists.
  unfold conflict_paths. rewrite list_elem_of_fmap. split.
  - intros (c & Hc & <-%bool_decide_eq_true). exists c. by rewrite list_elem_of_In.
  - intros (c & -> & Hc). exists c. rewrite <- list_elem_of_In, bool_decide_eq_true. done.
Qed.

Lemma add_ancestor_spec cfs p :
  NoDup (conflict_paths cfs) →
  let out := add_ancestor_conflict cfs p in
  NoDup (conflict_paths out) ∧
  (∀ x, x ∈ conflict_paths out ↔ x ∈ conflict_paths cfs ∨ x = p) ∧
  ∀ c, c ∈ out ↔ c ∈ cfs ∨ (conflict_kind c = Ancestor ∧ conflict_path c = p ∧ p ∉ conflict_paths cfs).
Proof.
  intros Hnd. unfold add_ancestor_conflict. rewrite existsb_path. case_bool_decide as Hp.
  - split; [done |]. split; [naive_solver | tauto].
  - unfold conflict_paths. rewrite map_app. split; [| split].
    + apply NoDup_app. split; [done |]. split; [| apply NoDup_singleton].
      intros x Hx Hx'. cbn in Hx'. apply list_elem_of_singleton in Hx'. by subst x.
    + intros x. rewrite elem_of_app. cbn. by rewrite list_elem_of_singleton.
    + intros c. rewrite elem_of_app, list_elem_of_singleton. split.
      * intros [?| ->]; [by left | right; cbn; done].
      * intros [?|(Hk & Hcp & _)]; [by left | right]. destruct c; cbn in *. by subst.
Qed.

Lemma add_ancestors_spec cfs ps :
  NoDup (conflict_paths cfs) →
  let out := foldl add_ancestor_conflict cfs ps in
  NoDup (conflict_paths out) ∧
  ∀ c, c ∈ out ↔ c ∈ cfs ∨ (conflict_kind c = Ancestor ∧ conflict_path c ∈ ps ∧
                             conflict_path c ∉ conflict_paths cfs).
Proof.
  revert cfs. induction ps as [|p ps IH]; intros cfs Hnd; cbn [foldl].
  { split; [done |]. intros c. rewrite elem_of_nil. tauto. }
  destruct (add_ancestor_spec cfs p Hnd) as (Hnd1 & Hp1 & Hc1).
  destruct (IH _ Hnd1) as [Hn Hc]. split; [done |]. intros c.
  rewrite Hc, Hc1, Hp1, elem_of_cons.
  destruct (decide (conflict_path c = p)) as [Heq|]; [rewrite Heq |]; naive_solver.
Qed.

Lemma dedup_NoDup l : NoDup (conflict_paths l) → dedup_conflicts l = l.
Proof.
  induction l as [|a [|b l] IH]; intros Hnd; [done..|].
  apply NoDup_cons in Hnd as [Ha Hnd]. specialize (IH Hnd).
  change (dedup_conflicts (a :: b :: l)) with
    (match dedup_conflicts (b :: l) with
     | c :: rest' => if decide (conflict_path a = conflict_path b) then a :: rest' else a :: c :: rest'
     | [] => [a]
     end).
  rewrite IH, decide_False; [done |]. intros Heq. apply Ha. cbn. rewrite Heq. by left.
Qed.

#[export] Instance conflict_le_total : Total conflict_le.
Proof. intros a b. unfold conflict_le. apply (total ble). Qed.
#[export] Instance conflict_le_trans : Transitive conflict_le.
Proof. intros a b c. unfold conflict_le. apply transitivity. Qed.

(** The end of a planner, for conflicts with distinct paths. *)
Lemma settle_spec chs cfs :
  NoDup (conflict_paths cfs) →
  let p := settle chs cfs in
  conflicts p ≡ₚ cfs ∧ StronglySorted blt (conflict_paths (conflicts p)) ∧
  ∀ ch, ch ∈ changes p ↔ ch ∈ chs ∧
    ¬ ∃ c, c ∈ cfs ∧ (change_path ch = conflict_path c ∨ is_descendant (change_path ch) (conflict_path c) = true).
Proof.
  intros Hnd. pose proof (merge_sort_Permutation conflict_le cfs) as Hperm.
  assert (NoDup (conflict_paths (merge_sort conflict_le cfs))) as Hnd'.
  { unfold conflict_paths. by rewrite Hperm. }
  unfold settle. cbn [changes conflicts]. rewrite dedup_NoDup by done. split; [done |]. split.
  - apply StronglySorted_strict; [| done].
    assert (StronglySorted conflict_le (merge_sort conflict_le cfs)) as Hs
      by apply (StronglySorted_merge_sort conflict_le).
    clear -Hs. induction Hs as [|x l _ IH Hx]; cbn; constructor; [done |].
    apply Forall_fmap. exact Hx.
  - intros ch. rewrite list_elem_of_filter.
    assert (existsb (λ c, bool_decide (change_path ch = conflict_path c)
              || is_descendant (change_path ch) (conflict_path c)) (merge_sort conflict_le cfs) = false ↔
            ¬ ∃ c, c ∈ cfs ∧ (change_path ch = conflict_path c ∨
                               is_descendant (change_path ch) (conflict_path c) = true)) as Hex; [| tauto].
    rewrite <- not_true_iff_false, existsb_exists. setoid_rewrite <- list_elem_of_In.
    setoid_rewrite Hperm. setoid_rewrite orb_true_iff. by setoid_rewrite bool_decide_eq_true.
Qed.

(** ** The flat planner *)

(** The paths of [base] at which an ancestor conflict is found. *)
Definition lost_directory (base ours theirs : entry_map) (path : bytes) : Prop :=
  ∃ b, base !! path = Some b ∧ ancestor_conflict base ours theirs path b = true.

(** All three sides say something different. *)
Definition clash (b o t : option TreeEntry) : Prop := ¬ same o t ∧ ¬ same b o ∧ ¬ same b t.

(** The path leads below the directory. *)
Definition below (path directory : bytes) : Prop := ∃ rest, path = directory ++ slash :: rest.
Lemma is_descendant_spec path directory : is_descendant path directory = true ↔ below path directory.
Proof.
  unfold is_descendant, below. rewrite !andb_true_iff, starts_with_spec, bool_decide_eq_true. split.
  - intros [[_ [r ->]] Hs]. rewrite lookup_app_r, Nat.sub_diag in Hs by done. destruct r as [|x r]; [done |]. injection Hs as ->. by exists r.
  - intros [r ->]. rewrite lookup_app_r, Nat.sub_diag by done. split; [split; [blia | by eexists] | done].
Qed.
Definition at_or_below (path : bytes) (cfs : list MergeConflict) : Prop :=
  ∃ c, c ∈ cfs ∧ (path = conflict_path c ∨ below path (conflict_path c)).

Lemma change_of_Some path b o t ch :
  change_of path b o t = Some ch ↔ ¬ same o t ∧ same b o ∧ ch = mkChange path (set_or_remove t).
Proof.
  unfold change_of, same. destruct (equivalent o t), (equivalent b o); naive_solver.
Qed.
Lemma conflict_of_Some path b o t c :
  conflict_of path b o t = Some c ↔ clash b o t ∧ c = mkConflict path (direct_conflict b o t).
Proof.
  unfold conflict_of, clash, same. destruct (equivalent o t), (equivalent b o), (equivalent b t); naive_solver.
Qed.

(** The plan is [settle] of the path-by-path changes and conflicts. *)
Definition flat_paths (base ours theirs : entry_map) : list bytes :=
  sorted_keys (dom base ∪ dom ours ∪ dom theirs).
Definition flat_changes (base ours theirs : entry_map) : list MergeChange :=
  omap (λ p, change_of p (base !! p) (ours !! p) (theirs !! p)) (flat_paths base ours theirs).
Definition flat_conflicts (base ours theirs : entry_map) : list MergeConflict :=
  omap (λ p, conflict_of p (base !! p) (ours !! p) (theirs !! p)) (flat_paths base ours theirs).
Definition ancestor_paths (base ours theirs : entry_map) : list bytes :=
  omap (λ '(path, b), if ancestor_conflict base ours theirs path b then Some path else None) (btree_iter base).

Lemma plan_unfold base ours theirs :
  plan base ours theirs =
  settle (flat_changes base ours theirs)
    (foldl add_ancestor_conflict (flat_conflicts base ours theirs) (ancestor_paths base ours theirs)).
Proof.
  unfold plan. rewrite (plan_fold (λ p, base !! p) (λ p, ours !! p) (λ p, theirs !! p)). done.
Qed.

Lemma flat_paths_None base ours theirs p :
  p ∉ flat_paths base ours theirs → base !! p = None ∧ ours !! p = None ∧ theirs !! p = None.
Proof.
  unfold flat_paths. rewrite elem_of_sorted_keys, !elem_of_union, !elem_of_dom. intros Hn.
  split_and!; apply eq_None_not_Some; tauto.
Qed.

Lemma elem_of_flat_changes base ours theirs path act :
  mkChange path act ∈ flat_changes base ours theirs ↔
  ¬ same (ours !! path) (theirs !! path) ∧ same (base !! path) (ours !! path) ∧
  act = set_or_remove (theirs !! path).
Proof.
  unfold flat_changes. rewrite list_elem_of_omap. setoid_rewrite change_of_Some. split.
  - intros (p & _ & ? & ? & [= <- ->]). done.
  - intros (Hne & Hs & ->). exists path. split; [| done].
    destruct (decide (path ∈ flat_paths base ours theirs)) as [|Hni]; [done |].
    apply flat_paths_None in Hni as (_ & Ho & Ht). rewrite Ho, Ht in Hne. by destruct Hne.
Qed.

Lemma elem_of_flat_conflicts base ours theirs path k :
  mkConflict path k ∈ flat_conflicts base ours theirs ↔
  clash (base !! path) (ours !! path) (theirs !! path) ∧
  k = direct_conflict (base !! path) (ours !! path) (theirs !! path).
Proof.
  unfold flat_conflicts. rewrite list_elem_of_omap. setoid_rewrite conflict_of_Some. split.
  - intros (p & _ & ? & [= <- ->]). done.
  - intros (Hne & ->). exists path. split; [| done].
    destruct (decide (path ∈ flat_paths base ours theirs)) as [|Hni]; [done |].
    apply flat_paths_None in Hni as (_ & Ho & Ht). destruct Hne as [Hne _]. rewrite Ho, Ht in Hne.
    by destruct Hne.
Qed.

Lemma flat_conflicts_NoDup base ours theirs : NoDup (conflict_paths (flat_conflicts base ours theirs)).
Proof.
  apply sorted_NoDup, omap_sorted; [| apply sorted_keys_strict].
  intros p y Hy. apply conflict_of_Some in Hy as [_ ->]. done.
Qed.

Lemma elem_of_ancestor_paths base ours theirs path :
  path ∈ ancestor_paths base ours theirs ↔ lost_directory base ours theirs path.
Proof.
  unfold ancestor_paths, lost_directory. rewrite list_elem_of_omap. split.
  - intros ([p b] & Hp & Hf). destruct (ancestor_conflict _ _ _ _ _) eqn:E; [| done].
    injection Hf as <-. exists b. by apply elem_of_btree_iter in Hp.
  - intros (b & Hb & Ha). exists (path, b). rewrite Ha. split; [by apply elem_of_btree_iter | done].
Qed.

Lemma elem_of_conflict_paths path cfs : path ∈ conflict_paths cfs ↔ ∃ k, mkConflict path k ∈ cfs.
Proof.
  unfold conflict_paths. rewrite list_elem_of_fmap. split.
  - intros ([p k] & -> & Hc). by exists k.
  - intros [k Hk]. by exists (mkConflict path k).
Qed.

Lemma plan_conflicts_elem base ours theirs path k :
  mkConflict path k ∈ conflicts (plan base ours theirs) ↔
  (clash (base !! path) (ours !! path) (theirs !! path) ∧
   k = direct_conflict (base !! path) (ours !! path) (theirs !! path)) ∨
  (¬ clash (base !! path) (ours !! path) (theirs !! path) ∧ k = Ancestor ∧
   lost_directory base ours theirs path).
Proof.
  rewrite plan_unfold.
  destruct (add_ancestors_spec _ (ancestor_paths base ours theirs) (flat_conflicts_NoDup base ours theirs))
    as [Hnd Hc].
  destruct (settle_spec (flat_changes base ours theirs) _ Hnd) as (Hp & _ & _).
  rewrite Hp, Hc, elem_of_flat_conflicts, elem_of_ancestor_paths. cbn.
  rewrite elem_of_conflict_paths. setoid_rewrite elem_of_flat_conflicts. naive_solver.
Qed.

Lemma plan_changes_elem base ours theirs path act :
  mkChange path act ∈ changes (plan base ours theirs) ↔
  ¬ same (ours !! path) (theirs !! path) ∧ same (base !! path) (ours !! path) ∧
  act = set_or_remove (theirs !! path) ∧ ¬ at_or_below path (conflicts (plan base ours theirs)).
Proof.
  rewrite plan_unfold.
  destruct (add_ancestors_spec _ (ancestor_paths base ours theirs) (flat_conflicts_NoDup base ours theirs))
    as [Hnd Hc].
  destruct (settle_spec (flat_changes base ours theirs) _ Hnd) as (Hp & _ & Hch).
  rewrite Hch, elem_of_flat_changes. unfold at_or_below. cbn. setoid_rewrite <- is_descendant_spec. setoid_rewrite Hp. tauto.
Qed.

Lemma plan_sorted base ours theirs :
  StronglySorted blt (conflict_paths (conflicts (plan base ours theirs))) ∧
  StronglySorted blt (map change_path (changes (plan base ours theirs))).
Proof.
  rewrite plan_unfold.
  destruct (add_ancestors_spec _ (ancestor_paths base ours theirs) (flat_conflicts_NoDup base ours theirs))
    as [Hnd _].
  split; [by apply settle_spec |].
  unfold settle. cbn [changes].
  assert (StronglySorted blt (map change_path (flat_changes base ours theirs))) as Hs.
  { apply omap_sorted; [| apply sorted_keys_strict]. intros p y Hy. apply change_of_Some in Hy as (_ & _ & ->). done. }
  revert Hs. generalize (flat_changes base ours theirs). intros l.
  induction l as [|ch l IH]; intros Hs; [constructor |]. apply StronglySorted_inv in Hs as [Hs Hx].
  rewrite filter_cons. case_decide; [| by apply IH].
  cbn [map]. constructor; [by apply IH |]. rewrite Forall_forall in Hx |- *.
  intros n (ch' & -> & Hc')%list_elem_of_fmap. apply Hx. apply list_elem_of_fmap_2.
  by apply list_elem_of_filter in Hc' as [_ ?].
Qed.

(** Carrying a plan out on our side. *)
Definition apply_change (m : entry_map) (ch : MergeChange) : entry_map :=
  match action ch with Set_ e => <[change_path ch := e]> m | Remove => delete (change_path ch) m end.

Lemma apply_changes_lookup chs m path :
  NoDup (map change_path chs) →
  foldl apply_change m chs !! path =
  match list_find (λ ch, change_path ch = path) chs with
  | Some (_, ch) => match action ch with Set_ e => Some e | Remove => None end
  | None => m !! path
  end.
Proof.
  revert m. induction chs as [|ch chs IH]; intros m Hnd; [done |]. cbn [foldl list_find].
  apply NoDup_cons in Hnd as [Hni Hnd]. rewrite (IH _ Hnd).
  destruct (decide (change_path ch = path)) as [<-|Hne].
  - destruct (list_find _ chs) as [[i ch']|] eqn:E.
    { apply list_find_Some in E as (Hi & Hp & _). destruct Hni.
      change (change_path ch ∈ map change_path chs). rewrite <- Hp.
      apply list_elem_of_fmap_2. by eapply list_elem_of_lookup_2. }
    unfold apply_change. destruct (action ch).
    + by rewrite lookup_insert, decide_True.
    + by rewrite lookup_delete, decide_True.
  - destruct (list_find _ chs) as [[i ch']|]; cbn; [done |].
    unfold apply_change. destruct (action ch); [by rewrite lookup_insert_ne | by rewrite lookup_delete_ne].
Qed.

(** ** Properties *)

(** Two entries, or none, that agree in all but times, and for two directories in
    all but times and what is in them. *)
Definition alike (left right : option TreeEntry) : Prop :=
  match left, right with
  | None, None => True
  | Some l, Some r =>
    name l = name r ∧ kind l = kind r ∧ link_target l = link_target r ∧ mode l = mode r ∧ size l = size r ∧ xattrs l = xattrs r ∧ class l = class r
    ∧ (kind l = Directory ∨ target l = target r)
  | _, _ => False
  end.
Lemma same_alike l r : same l r ↔ alike l r.
Proof.
  unfold same, equivalent, alike. destruct l as [l|], r as [r|]; try done. destruct l as [n k t lt m sz ms mn x c], r as [n' k' t' lt' m' sz' ms' mn' x' c'].
  cbn. destruct (bool_decide_reflect (k = Directory)) as [->|Hk], (bool_decide_reflect (k' = Directory)) as [->|Hk']; cbn; rewrite bool_decide_eq_true; unfold without_target, without_times; cbn;
    (split; [intros [=]; subst; tauto | intros (? & ? & ? & ? & ? & ? & ? & [?|?]); subst; done]).
Qed.
(** How a conflict at one path is reported. *)
Inductive reported_as (base : option TreeEntry) : option TreeEntry → option TreeEntry → ConflictKind → Prop :=
| reported_delete ours theirs : ours = None ∨ theirs = None → reported_as base ours theirs DeleteModify
| reported_type ours theirs : kind ours ≠ kind theirs ∨ (∃ b, base = Some b ∧ kind b ≠ kind ours) → reported_as base (Some ours) (Some theirs) TypeConflict
| reported_modify ours theirs : kind ours = kind theirs → (∀ b, base = Some b → kind b = kind ours) → reported_as base (Some ours) (Some theirs) ModifyModify.
Lemma direct_reported b o t k : k = direct_conflict b o t ↔ reported_as b o t k.
Proof.
  unfold direct_conflict. split.
  - intros ->. destruct o as [o|], t as [t|]; [| by constructor; auto..]. destruct (bool_decide_reflect (kind o = kind t)) as [E|E]; cbn [negb orb]; [| by constructor; left].
    destruct b as [b|]; [| by constructor]. destruct (bool_decide_reflect (kind b = kind o)) as [Eb|Eb]; cbn [negb]; constructor; [done | by intros ? [= <-] | right; eauto].
  - intros H. destruct H as [o t H|o t H|o t E H].
    + destruct o, t; try done. by destruct H.
    + destruct (bool_decide_reflect (kind o = kind t)) as [E|E]; [| done]. destruct H as [H|(b' & -> & H)]; [done |]. by rewrite bool_decide_eq_false_2.
    + rewrite bool_decide_eq_true_2 by done. cbn. destruct b as [b|]; [| done]. by rewrite (bool_decide_eq_true_2 _ (H b eq_refl)).
Qed.
(** [mine] has no directory where the base had one, [other] still has it and says
    something different of a path below. *)
Definition loses (base mine other : entry_map) (path : bytes) : Prop :=
  (∃ b, base !! path = Some b ∧ kind b = Directory) ∧ (∀ e, mine !! path = Some e → kind e ≠ Directory)
  ∧ (∃ e, other !! path = Some e ∧ kind e = Directory) ∧ ∃ q, below q path ∧ ¬ same (base !! q) (other !! q).
Lemma subtree_changed_spec base side path : subtree_changed base side path = true ↔ ∃ q, below q path ∧ ¬ same (base !! q) (side !! q).
Proof.
  unfold subtree_changed, same. rewrite orb_true_iff, !existsb_exists. split.
  - intros [([q e] & Hq%list_elem_of_In%elem_of_btree_iter & [Hd Hne]%andb_true_iff)|([q e] & Hq%list_elem_of_In%elem_of_btree_iter & [Hd Hne]%andb_true_iff)];
      exists q; (split; [by apply is_descendant_spec | rewrite Hq; by apply negb_true_iff, not_true_iff_false in Hne]).
  - intros (q & Hd%is_descendant_spec & Hne). destruct (base !! q) as [b|] eqn:Eb.
    + left. exists (q, b). rewrite <- list_elem_of_In, elem_of_btree_iter, Hd. split; [done |]. by apply negb_true_iff, not_true_iff_false.
    + destruct (side !! q) as [e|] eqn:Es; [| done]. right. exists (q, e). rewrite <- list_elem_of_In, elem_of_btree_iter, Hd, Eb. split; [done |].
      by apply negb_true_iff, not_true_iff_false.
Qed.
Lemma is_dir_spec o : is_dir o = true ↔ ∃ e, o = Some e ∧ kind e = Directory.
Proof. destruct o as [e|]; cbn; [rewrite bool_decide_eq_true | split; [done | by intros (? & ? & _)]]. split; [eauto | by intros (? & [= <-] & ?)]. Qed.
Lemma lost_loses base ours theirs path : lost_directory base ours theirs path ↔ loses base ours theirs path ∨ loses base theirs ours path.
Proof.
  assert (∀ o, negb (is_dir o) = true ↔ ∀ e, o = Some e → kind e ≠ Directory) as Hnot.
  { intros o. rewrite negb_true_iff, <- not_true_iff_false, is_dir_spec. naive_solver. }
  assert (∀ l r, negb (is_dir l) = true → is_dir r = true → ¬ same l r) as Hdiff.
  { intros l r Hl Hr Hs. rewrite Hs, Hr in Hl. done. }
  unfold lost_directory, ancestor_conflict, loses. setoid_rewrite <- subtree_changed_spec. setoid_rewrite <- Hnot. setoid_rewrite <- is_dir_spec. split.
  - intros (b & Hb & Hc). destruct (bool_decide_reflect (kind b = Directory)) as [Hk|Hk]; [| done]. cbn [negb] in Hc.
    rewrite orb_true_iff, !andb_true_iff in Hc. assert (is_dir (base !! path) = true) by (apply is_dir_spec; eauto). tauto.
  - intros Hl. assert (∃ b, base !! path = Some b ∧ kind b = Directory) as (b & Hb & Hk) by (apply is_dir_spec; tauto). exists b. split; [done |].
    rewrite bool_decide_eq_true_2 by done. cbn [negb]. rewrite orb_true_iff, !andb_true_iff.
    destruct Hl as [(_ & Hl & Hr & Hc)|(_ & Hr & Hl & Hc)]; [left | right]; (split_and!; [done.. |]); apply negb_true_iff, not_true_iff_false; [by apply Hdiff |].
    intros Hs. by apply (Hdiff _ _ Hr Hl).
Qed.

(** C22 The plan, path by path: theirs is taken exactly where ours kept the base
    and theirs did not, unless a conflict is at the path or above it; a conflict is
    reported exactly where all three differ, as a deletion when a side is gone, as
    one of types when the kinds differ, else as two modifications, and where one
    side lost a directory in which the other changed something; both lists are in
    strict path order. *)
Theorem plan_spec base ours theirs :
  let p := plan base ours theirs in
  (∀ l r, same l r ↔ alike l r) ∧
  (∀ path act, mkChange path act ∈ changes p ↔
     ¬ same (ours !! path) (theirs !! path) ∧ same (base !! path) (ours !! path) ∧
     act = match theirs !! path with Some e => Set_ e | None => Remove end ∧ ¬ at_or_below path (conflicts p)) ∧
  (∀ path k, mkConflict path k ∈ conflicts p ↔
     let differ := ¬ same (ours !! path) (theirs !! path) ∧ ¬ same (base !! path) (ours !! path) ∧ ¬ same (base !! path) (theirs !! path) in
     (differ ∧ reported_as (base !! path) (ours !! path) (theirs !! path) k) ∨
     (¬ differ ∧ k = Ancestor ∧ (loses base ours theirs path ∨ loses base theirs ours path))) ∧
  StronglySorted blt (conflict_paths (conflicts p)) ∧ StronglySorted blt (map change_path (changes p)).
Proof.
  split; [intros; apply same_alike |]. split; [intros; apply plan_changes_elem |].
  split; [| apply plan_sorted]. intros path k. rewrite plan_conflicts_elem. by rewrite direct_reported, lost_loses.
Qed.

(** C23 Carrying the plan out: no path at or below a conflict is touched, and
    everywhere else ours becomes the three-way merge: theirs where ours kept the
    base, ours where theirs kept it or both agree. *)
Theorem plan_merges base ours theirs path :
  let p := plan base ours theirs in
  let merged := foldl apply_change ours (changes p) in
  (at_or_below path (conflicts p) → merged !! path = ours !! path) ∧
  (¬ at_or_below path (conflicts p) →
     same (merged !! path)
       (if decide (same (base !! path) (ours !! path)) then theirs !! path else ours !! path) ∧
     (same (base !! path) (ours !! path) ∨ same (base !! path) (theirs !! path) ∨
      same (ours !! path) (theirs !! path))).
Proof.
  intros p merged. pose proof (plan_sorted base ours theirs) as [_ Hsc].
  pose proof (apply_changes_lookup (changes p) ours path (sorted_NoDup _ Hsc)) as Hm.
  fold merged in Hm.
  assert (∀ ch i, list_find (λ ch, change_path ch = path) (changes p) = Some (i, ch) →
            ch = mkChange path (action ch) ∧ ch ∈ changes p) as Hfind.
  { intros ch i (Hi & Hp & _)%list_find_Some. split; [destruct ch; cbn in *; by subst |].
    by eapply list_elem_of_lookup_2. }
  destruct (list_find _ (changes p)) as [[i ch]|] eqn:E.
  - destruct (Hfind ch i eq_refl) as [Hch Hin]. rewrite Hch in Hin.
    apply plan_changes_elem in Hin as (Hne & Hs & Ha & Hnb). split; [done |]. intros _.
    rewrite decide_True by done. rewrite Hm, Ha. unfold set_or_remove.
    split; [by destruct (theirs !! path) | by left].
  - split; [done |]. intros Hnb. rewrite Hm.
    assert (¬ clash (base !! path) (ours !! path) (theirs !! path)) as Hcl.
    { intros Hcl. apply Hnb. exists (mkConflict path (direct_conflict (base !! path) (ours !! path) (theirs !! path))).
      split; [apply plan_conflicts_elem; by left | by left]. }
    destruct (decide (same (ours !! path) (theirs !! path))) as [Hot|Hot].
    { split; [| by right; right]. case_decide; [done | reflexivity]. }
    case_decide as Hbo.
    + exfalso. apply list_find_None in E. rewrite Forall_forall in E.
      apply (E (mkChange path (set_or_remove (theirs !! path)))); [| done].
      by apply plan_changes_elem.
    + split; [reflexivity |]. right. left. destruct (decide (same (base !! path) (theirs !! path))); [done |].
      by destruct Hcl.
Qed.

Lemma clash_sym b o t : clash b o t ↔ clash b t o.
Proof.
  unfold clash. split; intros (H1 & H2 & H3); split_and!; try done; intros H; apply H1; by symmetry.
Qed.
Lemma direct_conflict_sym b o t : direct_conflict b o t = direct_conflict b t o.
Proof.
  unfold direct_conflict. destruct o as [o|], t as [t|]; try done.
  destruct (decide (kind o = kind t)) as [Hk|Hk].
  - by rewrite Hk.
  - rewrite !bool_decide_false by congruence. done.
Qed.
Lemma lost_directory_sym base ours theirs path :
  lost_directory base ours theirs path ↔ lost_directory base theirs ours path.
Proof.
  unfold lost_directory, ancestor_conflict. setoid_rewrite (equivalent_sym (theirs !! path) (ours !! path)).
  split; intros (b & Hb & H); exists b; (split; [done |]); rewrite <- H;
    destruct (negb (bool_decide (kind b = Directory))); try done; by rewrite orb_comm.
Qed.

(** Merging the other way round reports the same conflicts: same paths,
    same kinds, same order. *)
Theorem plan_conflicts_symmetric base ours theirs :
  conflicts (plan base ours theirs) = conflicts (plan base theirs ours).
Proof.
  assert (∀ c, c ∈ conflicts (plan base ours theirs) ↔ c ∈ conflicts (plan base theirs ours)) as Heq.
  { intros [path k]. rewrite !plan_conflicts_elem.
    by rewrite (clash_sym _ (theirs !! path)), (direct_conflict_sym _ (theirs !! path)),
      (lost_directory_sym base theirs ours). }
  destruct (plan_sorted base ours theirs) as [H1 _]. destruct (plan_sorted base theirs ours) as [H2 _].
  revert H1 H2 Heq. generalize (conflicts (plan base ours theirs)), (conflicts (plan base theirs ours)).
  clear. induction l as [|c l IH]; intros l' H1 H2 Heq.
  - destruct l' as [|c' l']; [done |]. by pose proof (proj2 (Heq c') ltac:(by left)) as ?%not_elem_of_nil.
  - destruct l' as [|c' l']; [by pose proof (proj1 (Heq c) ltac:(by left)) as ?%not_elem_of_nil |].
    apply StronglySorted_inv in H1 as [H1 Hc], H2 as [H2 Hc'].
    rewrite Forall_forall in Hc, Hc'.
    assert (∀ c l, c ∈ l → conflict_path c ∈ conflict_paths l) as Hin by (intros; by apply list_elem_of_fmap_2).
    assert (c = c') as <-.
    { pose proof (proj1 (Heq c) ltac:(by left)) as [?|Hcl]%elem_of_cons; [done |].
      pose proof (proj2 (Heq c') ltac:(by left)) as [?|Hcl']%elem_of_cons; [done |].
      exfalso. eapply blt_asym; [apply Hc, Hin, Hcl' | apply Hc', Hin, Hcl]. }
    f_equal. apply IH; [done | done |]. intros d. specialize (Heq d). rewrite !elem_of_cons in Heq.
    split; intros Hd.
    + destruct (proj1 Heq (or_intror Hd)) as [->|?]; [| done].
      by pose proof (blt_irrefl _ (Hc _ (Hin _ _ Hd))).
    + destruct (proj2 Heq (or_intror Hd)) as [->|?]; [| done].
      by pose proof (blt_irrefl _ (Hc' _ (Hin _ _ Hd))).
Qed.

(** ** The delta planner *)

(** The paths at which a side differs from the base: what [collect_delta]
    gathers, as a function of the flat maps. *)
Definition flat_delta (base_ side : entry_map) : delta_map :=
  merge (λ b a, if equivalent b a then None else Some (mkDelta b a)) base_ side.

Lemma lookup_flat_delta base_ side path :
  flat_delta base_ side !! path =
  if equivalent (base_ !! path) (side !! path) then None else Some (mkDelta (base_ !! path) (side !! path)).
Proof.
  unfold flat_delta. rewrite lookup_merge. unfold diag_None.
  destruct (base_ !! path), (side !! path).
  all: reflexivity.
Qed.

Lemma change_of_proper path b b' o o' t :
  same b b' → same o o' → change_of path b o t = change_of path b' o' t.
Proof.
  intros Hb Ho. unfold change_of.
  assert (equivalent o t = equivalent o' t) as -> by (by rewrite Ho).
  by assert (equivalent b o = equivalent b' o') as -> by (by rewrite Hb, Ho).
Qed.
Lemma conflict_of_proper path b b' o o' t t' :
  same b b' → same o o' → same t t' → conflict_of path b o t = conflict_of path b' o' t'.
Proof.
  intros Hb Ho Ht. unfold conflict_of.
  assert (equivalent o t = equivalent o' t') as -> by (by rewrite Ho, Ht).
  assert (equivalent b o = equivalent b' o') as -> by (by rewrite Hb, Ho).
  assert (equivalent b t = equivalent b' t') as -> by (by rewrite Hb, Ht).
  by assert (direct_conflict b o t = direct_conflict b' o' t') as -> by (by rewrite Hb, Ho, Ht).
Qed.

(** A path missing from a delta has an entry equivalent to the base's. *)
Lemma delta_after_same base_ side path :
  same (delta_after (flat_delta base_ side) (base_ !! path) path) (side !! path) ∧
  (path ∈ dom (flat_delta base_ side) → delta_after (flat_delta base_ side) (base_ !! path) path = side !! path).
Proof.
  unfold delta_after. rewrite elem_of_dom, lookup_flat_delta.
  destruct (equivalent (base_ !! path) (side !! path)) eqn:E; cbn; [| done].
  split; [done |]. by intros [? ?].
Qed.

Lemma delta_base_flat base_ ours theirs path :
  path ∈ dom (flat_delta base_ ours) ∪ dom (flat_delta base_ theirs) →
  delta_base (flat_delta base_ ours) (flat_delta base_ theirs) path = base_ !! path.
Proof.
  rewrite elem_of_union, !elem_of_dom. unfold delta_base. rewrite !lookup_flat_delta.
  destruct (equivalent (base_ !! path) (ours !! path)); cbn; [| done].
  destruct (equivalent (base_ !! path) (theirs !! path)); cbn; [| done].
  by intros [[? ?]|[? ?]].
Qed.

(** Sorted keys of a subset are the sorted keys filtered. *)
Lemma sorted_strict_ext l k :
  StronglySorted blt l → StronglySorted blt k → (∀ x, x ∈ l ↔ x ∈ k) → l = k.
Proof.
  intros Hl. revert k. induction Hl as [|x l Hl IH Hx]; intros k Hk Heq.
  - destruct k as [|y k]; [done |]. by pose proof (proj2 (Heq y) ltac:(by left)) as ?%not_elem_of_nil.
  - destruct Hk as [|y k Hk Hy]; [by pose proof (proj1 (Heq x) ltac:(by left)) as ?%not_elem_of_nil |].
    rewrite Forall_forall in Hx, Hy.
    assert (x = y) as <-.
    { pose proof (proj1 (Heq x) ltac:(by left)) as [?|Hxk]%elem_of_cons; [done |].
      pose proof (proj2 (Heq y) ltac:(by left)) as [?|Hyl]%elem_of_cons; [done |].
      by pose proof (blt_asym _ _ (Hx _ Hyl) (Hy _ Hxk)). }
    f_equal. apply IH; [done |]. intros z. specialize (Heq z). rewrite !elem_of_cons in Heq.
    split; intros Hz.
    + destruct (proj1 Heq (or_intror Hz)) as [->|?]; [| done]. by pose proof (blt_irrefl _ (Hx _ Hz)).
    + destruct (proj2 Heq (or_intror Hz)) as [->|?]; [| done]. by pose proof (blt_irrefl _ (Hy _ Hz)).
Qed.

Lemma filter_sorted {P : bytes → Prop} `{∀ x, Decision (P x)} l :
  StronglySorted blt l → StronglySorted blt (base.filter P l).
Proof.
  induction 1 as [|x l Hl IH Hx]; [constructor |]. rewrite filter_cons.
  case_decide; [| done]. constructor; [done |]. rewrite Forall_forall in Hx |- *.
  intros y [_ Hy]%list_elem_of_filter. by apply Hx.
Qed.

Lemma omap_subset {B} (f : bytes → option B) (big small : gset bytes) :
  small ⊆ big → (∀ k, k ∉ small → f k = None) →
  omap f (sorted_keys small) = omap f (sorted_keys big).
Proof.
  intros Hsub Hf.
  assert (sorted_keys small = base.filter (λ k, k ∈ small) (sorted_keys big)) as ->.
  { apply sorted_strict_ext; [apply sorted_keys_strict | apply filter_sorted, sorted_keys_strict |].
    intros x. rewrite list_elem_of_filter, !elem_of_sorted_keys. set_solver. }
  induction (sorted_keys big) as [|k l IH]; [done |]. rewrite filter_cons.
  case_decide as Hk; rewrite !omap_cons_option; [by rewrite IH |]. by rewrite (Hf k Hk), IH.
Qed.

Lemma omap_ext_in {B} (f g : bytes → option B) (l : list bytes) :
  (∀ k, k ∈ l → f k = g k) → omap f l = omap g l.
Proof.
  induction l as [|k l IH]; intros Hfg; [done |]. rewrite !omap_cons_option.
  rewrite (Hfg k) by (by left). f_equal. apply IH. intros k' Hk'. apply Hfg. by right.
Qed.

(** The first loop sees the same changes and conflicts through the deltas. *)
Lemma delta_loop base_ ours theirs :
  let od := flat_delta base_ ours in
  let td := flat_delta base_ theirs in
  foldl (λ acc path,
    let b := delta_base od td path in
    plan_path path b (delta_after od b path) (delta_after td b path) acc) ([], [])
    (sorted_keys (dom od ∪ dom td)) =
  (flat_changes base_ ours theirs, flat_conflicts base_ ours theirs).
Proof.
  intros od td. rewrite (plan_fold (delta_base od td) (λ p, delta_after od (delta_base od td p) p)
    (λ p, delta_after td (delta_base od td p) p)). cbn [app].
  assert (dom od ∪ dom td ⊆ dom base_ ∪ dom ours ∪ dom theirs) as Hsub.
  { intros p. subst od td. rewrite !elem_of_union, !elem_of_dom, !lookup_flat_delta.
    destruct (base_ !! p), (ours !! p), (theirs !! p); cbn; intros [[? ?]|[? ?]]; try done;
      rewrite ?is_Some_alt; tauto. }
  assert (∀ p, p ∉ dom od ∪ dom td → same (base_ !! p) (ours !! p) ∧ same (base_ !! p) (theirs !! p)) as Hout.
  { intros p. subst od td. rewrite elem_of_union, !elem_of_dom, !lookup_flat_delta. unfold same.
    destruct (equivalent (base_ !! p) (ours !! p)), (equivalent (base_ !! p) (theirs !! p)); try done;
      intros Hn; exfalso; apply Hn; eauto. }
  unfold flat_changes, flat_conflicts, flat_paths. f_equal.
  - rewrite <- (omap_subset _ _ _ Hsub).
    2: { intros p [Ho Ht]%Hout. destruct (change_of _ _ _ _) as [ch|] eqn:E; [| done].
         apply change_of_Some in E as [Hne _]. destruct Hne. by rewrite <- Ho. }
    apply omap_ext_in. intros p Hp%elem_of_sorted_keys. pose proof (delta_base_flat _ _ _ _ Hp) as Hbp. fold od td in Hbp. rewrite Hbp.
    destruct (delta_after_same base_ ours p) as [Ho Ho']. destruct (delta_after_same base_ theirs p) as [Ht Ht'].
    fold od in Ho, Ho'. fold td in Ht, Ht'.
    destruct (decide (p ∈ dom td)) as [Hptd|Hptd].
    + rewrite (Ht' Hptd). by apply change_of_proper.
    + assert (p ∈ dom od) as Hpod by set_solver. rewrite (Ho' Hpod).
      assert (¬ same (base_ !! p) (ours !! p)) as Hns.
      { subst od. apply elem_of_dom in Hpod as [d Hd]. rewrite lookup_flat_delta in Hd. unfold same.
        by destruct (equivalent _ _). }
      unfold change_of. rewrite (proj2 (not_same _ _) Hns). by destruct (equivalent _ _), (equivalent _ _).
  - rewrite <- (omap_subset _ _ _ Hsub).
    2: { intros p [Ho Ht]%Hout. destruct (conflict_of _ _ _ _) as [c|] eqn:E; [| done].
         apply conflict_of_Some in E as [(Hne & _) _]. destruct Hne. by rewrite <- Ho. }
    apply omap_ext_in. intros p Hp%elem_of_sorted_keys. pose proof (delta_base_flat _ _ _ _ Hp) as Hbp. fold od td in Hbp. rewrite Hbp.
    destruct (delta_after_same base_ ours p) as [Ho _]. destruct (delta_after_same base_ theirs p) as [Ht _].
    by apply conflict_of_proper.
Qed.

Lemma fold_ancestors_none (other : delta_map) l cfs :
  (∀ path d, (path, d) ∈ l → delta_ancestor other path d = false) →
  foldl (λ cfs '(path, d), if delta_ancestor other path d then add_ancestor_conflict cfs path else cfs) cfs l = cfs.
Proof.
  revert cfs. induction l as [|[p d] l IH]; intros cfs Hl; [done |]. cbn [foldl].
  rewrite (Hl p d) by (by left). apply IH. intros p' d' Hin. apply Hl. by right.
Qed.

(** No directory of the base stops being one. *)
Definition directories_kept (base_ side : entry_map) : Prop :=
  ∀ path b, base_ !! path = Some b → kind b = Directory → is_dir (side !! path) = true.

Lemma delta_ancestor_kept base_ side other path d :
  directories_kept base_ side → flat_delta base_ side !! path = Some d → delta_ancestor other path d = false.
Proof.
  intros Hk Hd. rewrite lookup_flat_delta in Hd. destruct (equivalent _ _); [done |]. injection Hd as <-.
  unfold delta_ancestor. cbn [before after]. destruct (base_ !! path) as [b|] eqn:Eb; [| done].
  destruct (bool_decide_reflect (kind b = Directory)) as [Hkb|]; [| done]. cbn [negb].
  by rewrite (Hk path b Eb Hkb).
Qed.

(** C24 While every directory of the base is still a directory on both sides,
    planning from the differing paths alone gives exactly the flat plan. *)
Theorem plan_deltas_agree base_ ours theirs :
  directories_kept base_ ours → directories_kept base_ theirs →
  plan_deltas (flat_delta base_ ours) (flat_delta base_ theirs) = plan base_ ours theirs.
Proof.
  intros Hko Hkt. rewrite plan_unfold. unfold plan_deltas.
  pose proof (delta_loop base_ ours theirs) as Hloop. cbv zeta in Hloop. rewrite Hloop.
  rewrite fold_ancestors_none.
  2: { intros p d Hd%elem_of_btree_iter. by apply (delta_ancestor_kept base_ theirs). }
  rewrite fold_ancestors_none.
  2: { intros p d Hd%elem_of_btree_iter. by apply (delta_ancestor_kept base_ ours). }
  assert (ancestor_paths base_ ours theirs = []) as ->; [| done].
  destruct (ancestor_paths base_ ours theirs) as [|p l] eqn:E; [done | exfalso].
  assert (lost_directory base_ ours theirs p) as (b & Hb & Ha) by (apply elem_of_ancestor_paths; rewrite E; by left).
  unfold ancestor_conflict in Ha. destruct (bool_decide_reflect (kind b = Directory)) as [Hkb|]; [| done].
  cbn [negb] in Ha. rewrite (Hko p b Hb Hkb), (Hkt p b Hb Hkb) in Ha. discriminate Ha.
Qed.

(** ** Where the planners disagree *)

Lemma fold_ancestors_keeps (other : delta_map) l cfs c :
  c ∈ cfs →
  c ∈ foldl (λ cfs '(path, d), if delta_ancestor other path d then add_ancestor_conflict cfs path else cfs) cfs l.
Proof.
  revert cfs. induction l as [|[p d] l IH]; intros cfs Hc; [done |]. cbn [foldl]. apply IH.
  destruct (delta_ancestor other p d); [| done]. unfold add_ancestor_conflict.
  destruct (existsb _ _); [done |]. apply elem_of_app. by left.
Qed.

Lemma fold_ancestors_adds (other : delta_map) l cfs path d :
  (path, d) ∈ l → delta_ancestor other path d = true → path ∉ conflict_paths cfs →
  mkConflict path Ancestor ∈
    foldl (λ cfs '(path, d), if delta_ancestor other path d then add_ancestor_conflict cfs path else cfs) cfs l.
Proof.
  revert cfs. induction l as [|[p d'] l IH]; intros cfs; [by intros ?%not_elem_of_nil |].
  intros Hin Ha Hni. cbn [foldl]. apply elem_of_cons in Hin as [[= -> ->]|Hin].
  - rewrite Ha. apply fold_ancestors_keeps. unfold add_ancestor_conflict. rewrite existsb_path.
    rewrite bool_decide_false by done. apply elem_of_app. right. by left.
  - destruct (delta_ancestor other p d') eqn:Ea; [| by apply IH].
    destruct (decide (p = path)) as [->|Hp].
    + apply fold_ancestors_keeps. unfold add_ancestor_conflict. rewrite existsb_path.
      rewrite bool_decide_false by done. apply elem_of_app. right. by left.
    + apply IH; [done | done |]. unfold add_ancestor_conflict. destruct (existsb _ _); [done |].
      unfold conflict_paths. rewrite map_app. intros [?|Hx]%elem_of_app; [done |].
      cbn in Hx. by apply list_elem_of_singleton in Hx.
Qed.

Lemma add_ancestors_NoDup (other : delta_map) l cfs :
  NoDup (conflict_paths cfs) →
  NoDup (conflict_paths
    (foldl (λ cfs '(path, d), if delta_ancestor other path d then add_ancestor_conflict cfs path else cfs) cfs l)).
Proof.
  revert cfs. induction l as [|[p d] l IH]; intros cfs Hnd; [done |]. cbn [foldl]. apply IH.
  destruct (delta_ancestor other p d); [| done]. by apply add_ancestor_spec.
Qed.

(** Both sides deleting the same directory is no conflict for [plan], but
    [plan_deltas] takes the deleted directory on the other side for one that is
    still there and reports an ancestor conflict at it. *)
Theorem delete_delete_conflict base_ ours theirs path b :
  base_ !! path = Some b → kind b = Directory →
  ours !! path = None → theirs !! path = None →
  delta_has_descendant (flat_delta base_ theirs) path = true →
  (∀ k, mkConflict path k ∉ conflicts (plan base_ ours theirs)) ∧
  mkConflict path Ancestor ∈ conflicts (plan_deltas (flat_delta base_ ours) (flat_delta base_ theirs)).
Proof.
  intros Hb Hk Ho Ht Hd. split.
  - intros k. rewrite plan_conflicts_elem. unfold lost_directory, ancestor_conflict, clash. rewrite Ho, Ht.
    intros [[(Hn & _) _]|(_ & _ & b' & Hb' & Ha)]; [by apply Hn |].
    assert (b' = b) as -> by congruence. rewrite bool_decide_true in Ha by done. done.
  - unfold plan_deltas. pose proof (delta_loop base_ ours theirs) as Hloop. cbv zeta in Hloop. rewrite Hloop.
    assert (flat_delta base_ ours !! path = Some (mkDelta (Some b) None)) as Hod.
    { by rewrite lookup_flat_delta, Hb, Ho. }
    assert (flat_delta base_ theirs !! path = Some (mkDelta (Some b) None)) as Htd.
    { by rewrite lookup_flat_delta, Hb, Ht. }
    match goal with |- _ ∈ conflicts (settle _ ?cfs) => destruct (settle_spec (flat_changes base_ ours theirs) cfs)
      as (Hperm & _ & _) end.
    { apply add_ancestors_NoDup, add_ancestors_NoDup, flat_conflicts_NoDup. }
    rewrite list_elem_of_In. apply (Permutation_in _ (Permutation_sym Hperm)). rewrite <- list_elem_of_In.
    apply fold_ancestors_keeps. eapply fold_ancestors_adds.
    + apply elem_of_btree_iter. exact Hod.
    + unfold delta_ancestor. cbn. rewrite bool_decide_true by done. rewrite Htd. cbn.
      by rewrite bool_decide_true, Hd.
    + intros [k Hc]%elem_of_conflict_paths. apply elem_of_flat_conflicts in Hc as [(Hn & _) _].
      rewrite Ho, Ht in Hn. by apply Hn.
Qed.

Lemma direct_conflict_not_ancestor b o t : direct_conflict b o t ≠ Ancestor.
Proof. unfold direct_conflict. repeat case_match; done. Qed.

Lemma fold_ancestors_elem (other : delta_map) l cfs c :
  c ∈ foldl (λ cfs '(path, d), if delta_ancestor other path d then add_ancestor_conflict cfs path else cfs) cfs l →
  c ∈ cfs ∨ ∃ path d, (path, d) ∈ l ∧ delta_ancestor other path d = true ∧ c = mkConflict path Ancestor.
Proof.
  revert cfs. induction l as [|[p d] l IH]; intros cfs Hc; [by left |]. cbn [foldl] in Hc.
  apply IH in Hc as [Hc|(p' & d' & Hin & Ha & ->)]; [| right; exists p', d'; split_and!; [by right | done..]].
  destruct (delta_ancestor other p d) eqn:Ea; [| by left]. unfold add_ancestor_conflict in Hc.
  destruct (existsb _ _); [by left |]. apply elem_of_app in Hc as [Hc| ->%list_elem_of_singleton]; [by left |].
  right. exists p, d. split_and!; [by left | done..].
Qed.

Lemma bytes_cmp_app p x y : bytes_cmp (p ++ x) (p ++ y) = bytes_cmp x y.
Proof.
  induction p as [|b p IH]; [done |]. cbn. by rewrite (proj2 (byte_compare_eq b b) eq_refl).
Qed.

(** Everything below a directory sorts at or after the directory's name with a
    slash. *)
Lemma is_descendant_ge path directory :
  is_descendant path directory = true → ble (directory ++ [slash]) path.
Proof.
  unfold is_descendant. intros [[_ [r ->]%starts_with_spec]%andb_true_iff Hs]%andb_true_iff.
  apply bool_decide_eq_true in Hs. rewrite lookup_app_r, Nat.sub_diag in Hs by lia.
  destruct r as [|b r]; [done |]. injection Hs as ->. unfold ble. rewrite bytes_cmp_app. by destruct r.
Qed.

Lemma sibling_hides (deltas : delta_map) directory sibling :
  sibling ∈ dom deltas → blt directory sibling → blt sibling (directory ++ [slash]) →
  delta_has_descendant deltas directory = false.
Proof.
  intros Hin Hlo Hhi. unfold delta_has_descendant.
  destruct (list_find _ _) as [[i path]|] eqn:E; [| done].
  apply list_find_Some in E as (Hi & [Hle Hne] & Hmin).
  destruct (is_descendant path directory) eqn:Ed; [| done]. apply is_descendant_ge in Ed. exfalso.
  apply elem_of_sorted_keys, list_elem_of_lookup in Hin as [j Hj].
  assert (¬ (j < i)%nat) as Hji.
  { intros Hji. destruct (Hmin j sibling Hj Hji). split; [by apply blt_ble | by intros ->; apply blt_irrefl in Hlo]. }
  assert (ble path sibling) as Hps.
  { destruct (decide (i = j)) as [->|Hij]; [simplify_eq; apply ble_refl |].
    apply blt_ble. eapply (StronglySorted_lookup_lt blt); [apply sorted_keys_strict | exact Hi | exact Hj | lia]. }
  pose proof (blt_ble_trans _ _ _ Hhi Ed) as Hlt. eapply blt_irrefl, blt_ble_trans; [exact Hlt | exact Hps].
Qed.

(** Ours turned a directory into something else while theirs, keeping the
    directory, changed something below it: [plan] reports the ancestor conflict.
    If theirs also changed a sibling that sorts between the directory and its
    contents ([src-old] next to [src/]), [plan_deltas] does not. *)
Theorem sibling_hides_ancestor base_ ours theirs directory b sibling :
  base_ !! directory = Some b → kind b = Directory →
  is_dir (ours !! directory) = false → same (base_ !! directory) (theirs !! directory) →
  subtree_changed base_ theirs directory = true →
  sibling ∈ dom (flat_delta base_ theirs) → blt directory sibling → blt sibling (directory ++ [slash]) →
  mkConflict directory Ancestor ∈ conflicts (plan base_ ours theirs) ∧
  mkConflict directory Ancestor ∉ conflicts (plan_deltas (flat_delta base_ ours) (flat_delta base_ theirs)).
Proof.
  intros Hb Hk Ho Ht Hsub Hsib Hlo Hhi.
  assert (is_dir (theirs !! directory) = true) as Htd.
  { rewrite <- Ht, Hb. cbn. by apply bool_decide_true. }
  split.
  - apply plan_conflicts_elem. right. split; [| split; [done |]].
    + intros (_ & _ & Hn). by apply Hn.
    + exists b. split; [done |]. unfold ancestor_conflict. rewrite bool_decide_true by done. cbn [negb].
      rewrite Ho, Htd, Hsub. cbn. destruct (equivalent _ _) eqn:E; [| done].
      fold (same (ours !! directory) (theirs !! directory)) in E. rewrite E in Ho. congruence.
  - unfold plan_deltas. pose proof (delta_loop base_ ours theirs) as Hloop. cbv zeta in Hloop. rewrite Hloop.
    match goal with |- _ ∉ conflicts (settle _ ?cfs) => destruct (settle_spec (flat_changes base_ ours theirs) cfs)
      as (Hperm & _ & _) end.
    { apply add_ancestors_NoDup, add_ancestors_NoDup, flat_conflicts_NoDup. }
    rewrite list_elem_of_In. intros Hc%(Permutation_in _ Hperm). rewrite <- list_elem_of_In in Hc.
    apply fold_ancestors_elem in Hc as [Hc|(p & d & Hd & Ha & [= <-])].
    + apply fold_ancestors_elem in Hc as [Hc|(p & d & Hd & Ha & [= <-])].
      * apply elem_of_flat_conflicts in Hc as [_ Hc]. by destruct (direct_conflict_not_ancestor _ _ _ (eq_sym Hc)).
      * unfold delta_ancestor in Ha. destruct (before d); [| done].
        rewrite (sibling_hides _ _ _ Hsib Hlo Hhi), andb_false_r in Ha. by destruct (negb _) in Ha.
    + apply elem_of_btree_iter in Hd. rewrite lookup_flat_delta in Hd. unfold same in Ht. by rewrite Ht in Hd.
Qed.

Module MergeExample.
Definition entry (n : bytes) (k : EntryKind) (size : Z) : TreeEntry :=
  mkTreeEntry n k None [] 420 size 0 0 None Source.
Definition src := entry (b_ "src") Directory 0.
Definition base1 : entry_map :=
  {[ b_ "src" := src; b_ "src/a" := entry (b_ "a") File 1 ]}.
Definition edited : entry_map :=
  {[ b_ "src" := src; b_ "src/a" := entry (b_ "a") File 2 ]}.
Definition added : entry_map :=
  {[ b_ "src" := src; b_ "src/a" := entry (b_ "a") File 1; b_ "src/b" := entry (b_ "b") File 3 ]}.

Lemma base1_kept m : m = edited ∨ m = added → directories_kept base1 m.
Proof.
  intros Hm path b. unfold base1.
  rewrite lookup_insert_Some, lookup_singleton_Some. intros [[<- <-]|[_ [<- <-]]] Hk; [| done].
  by destruct Hm as [->| ->]; vm_compute.
Qed.

Lemma plan_deltas_agree_witness :
  plan_deltas (flat_delta base1 edited) (flat_delta base1 added) = plan base1 edited added.
Proof.
  exact (plan_deltas_agree base1 edited added (base1_kept _ (or_introl eq_refl)) (base1_kept _ (or_intror eq_refl))).
Defined.

Example plan_run :
  plan base1 edited added = mkPlan [mkChange (b_ "src/b") (Set_ (entry (b_ "b") File 3))] [].
Proof. by vm_compute. Qed.

Lemma gone_has_descendant : delta_has_descendant (flat_delta base1 ∅) (b_ "src") = true.
Proof. by vm_compute. Qed.

Lemma delete_delete_conflict_witness :
  conflicts (plan base1 ∅ ∅) = [] ∧
  mkConflict (b_ "src") Ancestor ∈ conflicts (plan_deltas (flat_delta base1 ∅) (flat_delta base1 ∅)).
Proof.
  split; [by vm_compute |].
  exact (proj2 (delete_delete_conflict base1 ∅ ∅ (b_ "src") src eq_refl eq_refl eq_refl eq_refl gone_has_descendant)).
Defined.

(** Ours replaced [src] by a file; theirs added [src/b] and [src-old]. *)
Definition replaced : entry_map := {[ b_ "src" := entry (b_ "src") File 9 ]}.
Definition with_sibling : entry_map := <[b_ "src-old" := entry (b_ "src-old") File 4]> added.

Lemma with_sibling_delta : b_ "src-old" ∈ dom (flat_delta base1 with_sibling).
Proof. apply elem_of_dom. by vm_compute; eexists. Qed.

(** The plan of the deltas then writes [src/b] below the file [src]. *)
Lemma sibling_hides_ancestor_witness :
  mkConflict (b_ "src") Ancestor ∈ conflicts (plan base1 replaced with_sibling) ∧
  mkConflict (b_ "src") Ancestor ∉ conflicts (plan_deltas (flat_delta base1 replaced) (flat_delta base1 with_sibling)) ∧
  mkChange (b_ "src/b") (Set_ (entry (b_ "b") File 3)) ∈
    changes (plan_deltas (flat_delta base1 replaced) (flat_delta base1 with_sibling)).
Proof.
  destruct (sibling_hides_ancestor base1 replaced with_sibling (b_ "src") src (b_ "src-old")
    eq_refl eq_refl eq_refl eq_refl ltac:(by vm_compute) with_sibling_delta ltac:(by vm_compute)
    ltac:(by vm_compute)) as [H1 H2].
  refine (conj H1 (conj H2 _)).
  refine (bool_decide_unpack _ _). by vm_compute.
Defined.
End MergeExample.
