(* ===== verification/Claims.v ===== *)
(** * Claims: advisory path claims ([furrow-core/src/claims.rs])

    The SQL table is a map from its primary key to rows; a transaction that
    fails is rolled back when it is dropped. Text is UTF-8 bytes, compared
    bytewise as SQLite's default collation does. The clock (seconds since the
    epoch) and the twelve random bytes of a claim id are arguments. *)

From S2P Require Import Prelude Model.
#[local] Open Scope Z_scope.

Definition MAX_PATTERN_BYTES : Z := 1024.
Definition MAX_OWNER_BYTES : Z := 256.
Definition MAX_TTL_SECONDS : Z := 7 * 24 * 60 * 60.

(** ** Patterns *)

Definition star : Corelib.Init.Byte.byte := Byte.x2a.
Definition question : Corelib.Init.Byte.byte := Byte.x3f.
Definition open_bracket : Corelib.Init.Byte.byte := Byte.x5b.
Definition close_bracket : Corelib.Init.Byte.byte := Byte.x5d.
Definition dash : Corelib.Init.Byte.byte := Byte.x2d.

(** [text.chars().any(char::is_control)] on UTF-8: U+0000-1F and U+007F are one
    byte, U+0080-9F are C2 80 to C2 9F. *)
Fixpoint has_control (l : bytes) : bool :=
  match l with
  | [] => false
  | x :: l' =>
    (byte.unsigned x <? 32) || (byte.unsigned x =? 127)
    || ((byte.unsigned x =? 194)
        && match l' with y :: _ => (128 <=? byte.unsigned y) && (byte.unsigned y <=? 159) | [] => false end)
    || has_control l'
  end.

Definition is_hexdigit (b : Corelib.Init.Byte.byte) : bool :=
  let v := byte.unsigned b in
  (48 <=? v) && (v <=? 57) || (97 <=? v) && (v <=? 102) || (65 <=? v) && (v <=? 70).

Definition validate_family_id (value : bytes) : Res () :=
  ensure ((blen value =? 32) && forallb is_hexdigit value) "invalid family ID".

Definition validate_owner (owner : bytes) : Res () :=
  _ ← ensure (negb (bool_decide (owner = []))) "claim owner cannot be empty";
  _ ← ensure (blen owner <=? MAX_OWNER_BYTES) "claim owner is too long";
  ensure (negb (has_control owner)) "claim owner contains control characters".

Definition unsafe_component (component : bytes) : bool :=
  bool_decide (component = []) || bool_decide (component = b_ ".") || bool_decide (component = b_ "..").

Definition validate_pattern (pattern : bytes) : Res () :=
  _ ← ensure (negb (bool_decide (pattern = []))) "claim pattern cannot be empty";
  _ ← ensure (blen pattern <=? MAX_PATTERN_BYTES) "claim pattern is too long";
  _ ← ensure (negb (starts_with pattern [slash])) "claim pattern must be relative";
  _ ← ensure (negb (has_control pattern)) "claim pattern contains control characters";
  ensure (forallb (λ c, negb (unsafe_component c)) (split_on slash pattern))
    "claim pattern contains an unsafe path component".

Definition is_wildcard (b : Corelib.Init.Byte.byte) : bool :=
  bool_decide (b = star) || bool_decide (b = question) || bool_decide (b = open_bracket).
Definition contains_wildcard (value : bytes) : bool := existsb is_wildcard value.

(** [take_while] *)
Fixpoint take_while {A} (f : A → bool) (l : list A) : list A :=
  match l with
  | [] => []
  | x :: l => if f x then x :: take_while f l else []
  end.

Definition literal_prefix (pattern : bytes) : list bytes :=
  take_while (λ component, negb (contains_wildcard component)) (split_on slash pattern).

Definition component_prefix (left right : list bytes) : bool :=
  (length left <=? length right)%nat
  && forallb (λ '(l, r), bool_decide (l = r)) (combine left right).

Definition patterns_may_overlap (left right : bytes) : bool :=
  if bool_decide (left = right) then true
  else if negb (contains_wildcard left) && negb (contains_wildcard right) then false
  else
    let left_prefix := literal_prefix left in
    let right_prefix := literal_prefix right in
    component_prefix left_prefix right_prefix || component_prefix right_prefix left_prefix.

(** ** Glob matching *)

(** The scan of a bracket expression: where it stopped and whether an item
    matched. *)
Fixpoint class_loop (fuel : nat) (pattern : bytes) (index : nat) (value : Corelib.Init.Byte.byte) (matched : bool)
    : nat * bool :=
  match fuel with
  | O => (index, matched)
  | S fuel =>
    match pattern !! index with
    | None => (index, matched)
    | Some c =>
      if decide (c = close_bracket) then (index, matched)
      else
        let range :=
          match pattern !! (index + 1)%nat, pattern !! (index + 2)%nat with
          | Some d, Some e => if bool_decide (d = dash) && negb (bool_decide (e = close_bracket))
                              then Some e else None
          | _, _ => None
          end in
        match range with
        | Some e =>
          class_loop fuel pattern (index + 3) value
            (matched || (byte.unsigned c <=? byte.unsigned value) && (byte.unsigned value <=? byte.unsigned e))
        | None => class_loop fuel pattern (index + 1) value (matched || bool_decide (c = value))
        end
    end
  end.

Definition negation (b : Corelib.Init.Byte.byte) : bool := bool_decide (b = Byte.x21) || bool_decide (b = Byte.x5e).

Definition character_class (pattern : bytes) (start : nat) (value : option Corelib.Init.Byte.byte)
    : option (bool * nat) :=
  value ← (v ← value; if decide (v = slash) then None else Some v);
  let index := S start in
  let negated := match pattern !! index with Some b => negation b | None => false end in
  let content_start := (index + if negated then 1 else 0)%nat in
  let '(index, matched) := class_loop (length pattern) pattern content_start value false in
  if bool_decide (index = length pattern) || bool_decide (index = content_start) then None
  else Some (negb (bool_decide (matched = negated)), S index).

(** The memo table, a vector updated in place. *)
Abbreviation Memo := (list (option bool)).

(** [a && b] and [a || b], [b] run only when it decides. *)
Definition mand (a : bool) (b : M Memo bool) : M Memo bool := if a then b else mret false.

Fixpoint glob_match (fuel : nat) (pattern path : bytes) (pattern_index path_index width : nat) : M Memo bool :=
  match fuel with
  | O => fail "fuel"
  | S fuel =>
    let slot := (pattern_index * width + path_index)%nat in
    memo ← get;
    match memo !! slot with
    | None => fail "panic: index out of bounds"
    | Some (Some result) => mret result
    | Some None =>
      result ← (
        match pattern !! pattern_index with
        | None => mret (bool_decide (path_index = length path))
        | Some c =>
          if decide (c = star) then
            let recursive := bool_decide (pattern !! S pattern_index = Some star) in
            let next := (pattern_index + if recursive then 2 else 1)%nat in
            skip ← glob_match fuel pattern path next path_index width;
            if (skip : bool) then mret true
            else mand (match path !! path_index with
                       | Some x => recursive || negb (bool_decide (x = slash))
                       | None => false
                       end)
                   (glob_match fuel pattern path pattern_index (S path_index) width)
          else if decide (c = question) then
            mand (match path !! path_index with Some x => negb (bool_decide (x = slash)) | None => false end)
              (glob_match fuel pattern path (S pattern_index) (S path_index) width)
          else if decide (c = open_bracket) then
            match character_class pattern pattern_index (path !! path_index) with
            | Some (matches, next) =>
              mand matches (glob_match fuel pattern path next (S path_index) width)
            | None =>
              mand (bool_decide (path !! path_index = Some open_bracket))
                (glob_match fuel pattern path (S pattern_index) (S path_index) width)
            end
          else
            mand (bool_decide (path !! path_index = Some c))
              (glob_match fuel pattern path (S pattern_index) (S path_index) width)
        end);
      _ ← modify (λ memo, <[slot := Some result]> memo);
      mret result
    end
  end.

(** Every call moves at least one of the two indices forward. *)
Definition matches_path (pattern path : bytes) : Res bool :=
  let width := S (length path) in
  let memo := replicate (S (length pattern) * width) None in
  (glob_match (S (length pattern + length path)) pattern path 0 0 width memo).1.

(** ** The registry *)

Abbreviation Table := (gmap bytes ClaimRecord).

(** A transaction dropped without a commit is rolled back. *)
Definition transaction {A} (body : M Table A) : M Table A := λ t,
  match body t with
  | (Ok a, t') => (Ok a, t')
  | (Err e, _) => (Err e, t)
  end.

Definition rows (t : Table) : list ClaimRecord := (map_to_list t).*2.

(** [ORDER BY created_at, id], [ORDER BY pattern, owner, id], [ORDER BY id]. *)
Definition by_created (a b : ClaimRecord) : Prop :=
  created_at a < created_at b ∨ created_at a = created_at b ∧ ble (claim_id a) (claim_id b).
Definition by_pattern (a b : ClaimRecord) : Prop :=
  blt (pattern a) (pattern b) ∨ pattern a = pattern b ∧
    (blt (owner a) (owner b) ∨ owner a = owner b ∧ ble (claim_id a) (claim_id b)).
Definition by_id (a b : ClaimRecord) : Prop := ble (claim_id a) (claim_id b).
#[export] Instance by_created_dec : RelDecision by_created.
Proof. intros a b. unfold by_created. apply _. Defined.
#[export] Instance by_pattern_dec : RelDecision by_pattern.
Proof. intros a b. unfold by_pattern. apply _. Defined.
#[export] Instance by_id_dec : RelDecision by_id.
Proof. intros a b. unfold by_id. apply _. Defined.

(** [DELETE FROM claims WHERE expires_at <= now] *)
Definition delete_expired (now : Z) (t : Table) : Table :=
  base.filter (λ '(_, c), ¬ expires_at c ≤ now) t.

(** [INSERT INTO claims]: the id is the primary key. *)
Definition insert_row (c : ClaimRecord) : M Table () :=
  t ← get;
  match (t : Table) !! claim_id c with
  | Some _ => fail "UNIQUE constraint failed: claims.id"
  | None => put (<[claim_id c := c]> t)
  end.

Section Registry.
Context `{Hex}.

Definition now (clock : option Z) : Res Z :=
  secs ← with_context clock "clock is before Unix epoch"; Ok (as_i64 secs).
Definition new_id (random : Res bytes) : Res bytes := b ← random; Ok (hex_encode b).

Definition same_holder (c : ClaimRecord) (own ws : bytes) : bool :=
  bool_decide (workspace_id c = ws) && bool_decide (owner c = own).

Definition claim (clock : option Z) (random : Res bytes) (pat own ws : bytes) (ttl_seconds : Z)
    : M Table ClaimRecord :=
  _ ← lift (validate_pattern pat);
  _ ← lift (validate_owner own);
  _ ← mensure ((1 <=? ttl_seconds) && (ttl_seconds <=? MAX_TTL_SECONDS))
        "claim TTL must be between 1 second and 7 days";
  now ← lift (now clock);
  transaction (
    _ ← modify (delete_expired now);
    t ← get;
    let existing := merge_sort by_created (rows t) in
    match find (λ c, same_holder c own ws && bool_decide (pattern c = pat)) existing with
    | Some c => mret c
    | None =>
      match find (λ c, negb (same_holder c own ws) && patterns_may_overlap (pattern c) pat) existing with
      | Some _ => fail "claim overlaps one held by another"
      | None =>
        id ← lift (new_id random);
        let c := mkClaim id pat own ws now (i64_sat_add now ttl_seconds) in
        _ ← insert_row c;
        mret c
      end
    end).

Definition active (clock : option Z) : M Table (list ClaimRecord) :=
  now ← lift (now clock);
  transaction (
    _ ← modify (delete_expired now);
    t ← get;
    mret (merge_sort by_pattern (rows t))).

Definition release (selector own ws : bytes) : M Table (list ClaimRecord) :=
  _ ← lift (validate_owner own);
  transaction (
    t ← get;
    let released := merge_sort by_id (base.filter (λ c,
      (claim_id c = selector ∨ pattern c = selector) ∧ owner c = own ∧ workspace_id c = ws) (rows t)) in
    _ ← mensure (negb (bool_decide (released = []))) "no claim is held by this owner in this workspace";
    _ ← mfor released (λ c, modify (delete (claim_id c)));
    mret released).

(** [INSERT OR REPLACE INTO claims] *)
Definition restore (claims : list ClaimRecord) : M Table () :=
  transaction (mfor claims (λ c, modify (insert (claim_id c) c))).

Definition release_workspace (ws : bytes) : M Table Z :=
  transaction (
    t ← get;
    _ ← put (base.filter (λ '(_, c), workspace_id c ≠ ws) t);
    mret (Z.of_nat (base.size (base.filter (λ '(_, c), workspace_id c = ws) t)))).
End Registry.
