(* ===== verification/ClaimsTheory.v ===== *)
(** * ClaimsTheory: what patterns match, and that claims exclude each other

    [Glob] says what a pattern means; the memoised matcher decides it, the
    overlap test never misses two patterns with a common path, and the registry
    keeps the claims of different holders apart. *)

From S2P Require Import Prelude Model Concrete Claims.
#[local] Open Scope Z_scope.

(** ** The meaning of a pattern *)

(** The items of a bracket expression and what follows its closing bracket. *)
Fixpoint class_items (l : bytes) : option (list (Corelib.Init.Byte.byte * Corelib.Init.Byte.byte) * bytes) :=
  match l with
  | [] => None
  | a :: l1 =>
    if decide (a = close_bracket) then Some ([], l1)
    else
      match l1 with
      | d :: e :: l3 =>
        if bool_decide (d = dash) && negb (bool_decide (e = close_bracket))
        then '(items, r) ← class_items l3; Some ((a, e) :: items, r)
        else '(items, r) ← class_items l1; Some ((a, a) :: items, r)
      | _ => '(items, r) ← class_items l1; Some ((a, a) :: items, r)
      end
  end.

Definition in_range (v : Corelib.Init.Byte.byte) '(a, e) : bool :=
  (byte.unsigned a <=? byte.unsigned v) && (byte.unsigned v <=? byte.unsigned e).
Definition in_class items (v : Corelib.Init.Byte.byte) : bool := existsb (in_range v) items.

(** What follows an opening bracket: negation, items, rest; [None] when it is no
    bracket expression and the bracket stands for itself. *)
Definition bracket (l : bytes) :=
  let '(negated, l) := match l with
                       | b :: l' => if negation b then (true, l') else (false, l)
                       | [] => (false, [])
                       end in
  match class_items l with
  | Some ((_ :: _) as items, rest) => Some (negated, items, rest)
  | _ => None
  end.

Inductive Glob : bytes → bytes → Prop :=
| glob_nil : Glob [] []
| glob_star w p x : slash ∉ w → head p ≠ Some star → Glob p x → Glob (star :: p) (w ++ x)
| glob_star_star w p x : Glob p x → Glob (star :: star :: p) (w ++ x)
| glob_question c p x : c ≠ slash → Glob p x → Glob (question :: p) (c :: x)
| glob_class negated items c l p x :
    bracket l = Some (negated, items, p) → c ≠ slash → in_class items c ≠ negated → Glob p x →
    Glob (open_bracket :: l) (c :: x)
| glob_bracket l x : bracket l = None → Glob l x → Glob (open_bracket :: l) (open_bracket :: x)
| glob_literal c p x : is_wildcard c = false → Glob p x → Glob (c :: p) (c :: x).

Lemma is_wildcard_false c : is_wildcard c = false ↔ c ≠ star ∧ c ≠ question ∧ c ≠ open_bracket.
Proof.
  unfold is_wildcard. rewrite !orb_false_iff, !bool_decide_eq_false. tauto.
Qed.

Ltac glob_inv H := inversion H; subst; clear H;
  repeat match goal with H : is_wildcard _ = false |- _ => apply is_wildcard_false in H as (? & ? & ?) end; try done.

Lemma glob_nil_iff x : Glob [] x ↔ x = [].
Proof. split; [intros H; glob_inv H | intros ->; constructor]. Qed.

Lemma glob_star_iff p x :
  head p ≠ Some star →
  Glob (star :: p) x ↔ Glob p x ∨ ∃ c x', x = c :: x' ∧ c ≠ slash ∧ Glob (star :: p) x'.
Proof.
  intros Hp. split.
  - intros H. glob_inv H. destruct w as [|c w]; [by left | right]. exists c, (w ++ x0).
    match goal with H : slash ∉ _ |- _ => apply not_elem_of_cons in H as [? ?] end.
    split_and!; [done | congruence |]. by constructor.
  - intros [H|(c & x' & -> & Hc & H)]; [by apply (glob_star []); [apply not_elem_of_nil | ..] |].
    glob_inv H. apply (glob_star (c :: w)); [| done..]. apply not_elem_of_cons. split; [congruence | done].
Qed.

Lemma glob_star_star_iff p x :
  Glob (star :: star :: p) x ↔ Glob p x ∨ ∃ c x', x = c :: x' ∧ Glob (star :: star :: p) x'.
Proof.
  split.
  - intros H. glob_inv H. destruct w as [|c w]; [by left | right]. exists c, (w ++ x0). split; [done |]. by constructor.
  - intros [H|(c & x' & -> & H)]; [by apply (glob_star_star []) |]. glob_inv H. by apply (glob_star_star (c :: w)).
Qed.

Lemma glob_question_iff p x : Glob (question :: p) x ↔ ∃ c x', x = c :: x' ∧ c ≠ slash ∧ Glob p x'.
Proof. split; [intros H; glob_inv H; eauto | intros (c & x' & -> & ? & ?); by constructor]. Qed.

Lemma glob_literal_iff c p x : is_wildcard c = false → Glob (c :: p) x ↔ ∃ x', x = c :: x' ∧ Glob p x'.
Proof.
  intros Hc. split; [| intros (x' & -> & ?); by constructor].
  apply is_wildcard_false in Hc as (? & ? & ?). intros Hg. glob_inv Hg. eauto.
Qed.

Lemma glob_class_iff negated items l p x :
  bracket l = Some (negated, items, p) →
  Glob (open_bracket :: l) x ↔ ∃ c x', x = c :: x' ∧ c ≠ slash ∧ in_class items c ≠ negated ∧ Glob p x'.
Proof.
  intros Hb. split.
  - intros H. glob_inv H; [| congruence]. simplify_eq. eauto 10.
  - intros (c & x' & -> & ? & ? & ?). by eapply glob_class.
Qed.

Lemma glob_bracket_iff l x :
  bracket l = None → Glob (open_bracket :: l) x ↔ ∃ x', x = open_bracket :: x' ∧ Glob l x'.
Proof.
  intros Hb. split; [| intros (x' & -> & ?); by constructor].
  intros H. glob_inv H; [congruence |]. eauto.
Qed.

(** ** The bracket scan *)

Lemma in_range_refl v a : in_range v (a, a) = bool_decide (a = v).
Proof.
  unfold in_range. destruct (bool_decide_reflect (a = v)) as [->|Hne]; [by rewrite !Z.leb_refl |].
  destruct (Z.leb_spec (byte.unsigned a) (byte.unsigned v)); [| done].
  destruct (Z.leb_spec (byte.unsigned v) (byte.unsigned a)); [| done].
  destruct Hne. apply byte.unsigned_inj. lia.
Qed.

Lemma drop_lookup_cons {A} (l : list A) i x k : drop i l = x :: k → l !! i = Some x ∧ drop (S i) l = k ∧ (i < length l)%nat.
Proof.
  intros H. assert (l !! i = Some x) as Hx.
  { rewrite <- (Nat.add_0_r i), <- lookup_drop, H. done. }
  pose proof (lookup_lt_Some _ _ _ Hx) as Hlt. split_and!; [done | | done].
  rewrite (drop_S _ _ _ Hx) in H. by injection H.
Qed.
Lemma drop_nil_lookup {A} (l : list A) i : drop i l = [] → l !! i = None ∧ (length l ≤ i)%nat.
Proof.
  intros H. assert (length l ≤ i)%nat as Hl by (apply (f_equal length) in H; rewrite length_drop in H; cbn in H; lia).
  split; [by apply lookup_ge_None | done].
Qed.

(** What the scan from [idx] finds. *)
Definition scanned (l : bytes) (idx : nat) (v : Corelib.Init.Byte.byte) (m : bool) (len : nat) (run : nat * bool) : Prop :=
  match class_items l with
  | Some (items, r) =>
    ∃ pre, l = pre ++ close_bracket :: r ∧ run = ((idx + length pre)%nat, m || in_class items v)
      ∧ (items = [] ↔ pre = [])
  | None => run.1 = len
  end.

Lemma scanned_step l1 idx v m len run a b k :
  class_items l1 = ('(items, r) ← class_items k; Some ((a, b) :: items, r)) →
  (∃ pre0, l1 = pre0 ++ k ∧ (0 < length pre0)%nat ∧
     scanned k (idx + length pre0) v (m || in_range v (a, b)) len run) →
  scanned l1 idx v m len run.
Proof.
  unfold scanned. intros -> (pre0 & -> & Hl & Hs). destruct (class_items k) as [[items r]|]; [| done]. cbn.
  destruct Hs as (pre & -> & -> & Hi). exists (pre0 ++ pre). rewrite length_app. split_and!.
  - by rewrite <- app_assoc.
  - f_equal; [lia | by rewrite orb_assoc].
  - split; [done |]. intros [-> _]%app_eq_nil. cbn in Hl. lia.
Qed.

Lemma class_loop_spec fuel pat idx v m :
  (length pat - idx ≤ fuel)%nat → (idx ≤ length pat)%nat →
  scanned (drop idx pat) idx v m (length pat) (class_loop fuel pat idx v m).
Proof.
  revert idx m. induction fuel as [|fuel IH]; intros idx m Hf Hi.
  { assert (drop idx pat = []) as -> by (apply nil_length_inv; rewrite length_drop; lia).
    unfold scanned. cbn. lia. }
  cbn [class_loop]. destruct (drop idx pat) as [|a l1] eqn:E.
  { apply drop_nil_lookup in E as [-> ?]. unfold scanned. cbn. lia. }
  apply drop_lookup_cons in E as (Ha & Hd & Hlt). rewrite Ha. destruct (decide (a = close_bracket)) as [->|Hne].
  { unfold scanned. cbn [class_items]. rewrite decide_True by done. exists []. rewrite orb_false_r, Nat.add_0_r. done. }
  assert (∀ k, pat !! (idx + S k)%nat = l1 !! k) as Hl.
  { intros k. rewrite <- Hd, lookup_drop. f_equal. lia. }
  rewrite !Hl. rewrite Nat.add_1_r.
  assert (∀ b, scanned l1 (S idx) v b (length pat) (class_loop fuel pat (S idx) v b)) as IH1.
  { intros b. rewrite <- Hd. apply IH; lia. }
  destruct (l1 !! 0%nat) as [d|] eqn:E0; destruct (l1 !! 1%nat) as [e|] eqn:E1.
  2-4: (eapply (scanned_step _ _ _ _ _ _ a a l1);
        [cbn [class_items]; rewrite decide_False by done; by destruct l1 as [|? [|? ?]] |];
        exists [a]; split_and!; [done | cbn; lia |]; rewrite in_range_refl, Nat.add_1_r; apply IH1).
  destruct l1 as [|d' [|e' l3]]; [done..|]. injection E0 as ->. injection E1 as ->.
  destruct (bool_decide (d = dash) && negb (bool_decide (e = close_bracket))) eqn:Eb.
  - eapply (scanned_step _ _ _ _ _ _ a e l3);
      [cbn [class_items]; rewrite decide_False by done; by rewrite Eb |].
    exists [a; d; e]. split_and!; [done | cbn; lia |]. cbn [length].
    assert (drop (idx + 3) pat = l3) as <-.
    { rewrite <- drop_drop, (drop_S _ _ _ Ha), Hd. done. }
    assert (idx + 3 ≤ length pat)%nat by (apply (f_equal length) in Hd; rewrite length_drop in Hd; cbn in Hd; lia).
    apply IH; lia.
  - eapply (scanned_step _ _ _ _ _ _ a a (d :: e :: l3));
      [cbn [class_items]; rewrite decide_False by done; by rewrite Eb |].
    exists [a]. split_and!; [done | cbn; lia |]. rewrite in_range_refl, Nat.add_1_r. apply IH1.
Qed.

Lemma character_class_none pat i : character_class pat i None = None ∧ character_class pat i (Some slash) = None.
Proof. by split. Qed.

Lemma character_class_spec pat i v l :
  v ≠ slash → drop i pat = open_bracket :: l →
  character_class pat i (Some v) =
  match bracket l with
  | Some (negated, items, p) => Some (negb (bool_decide (in_class items v = negated)), (length pat - length p)%nat)
  | None => None
  end.
Proof.
  intros Hv Hi. apply drop_lookup_cons in Hi as (_ & Hd & Hlt).
  unfold character_class. cbn [mbind option_bind]. rewrite decide_False by done. cbn [mbind option_bind].
  set (neg := match pat !! S i with Some b => negation b | None => false end).
  set (cs := (S i + if neg then 1 else 0)%nat).
  assert (bracket l = match class_items (drop cs pat) with
                      | Some ((_ :: _) as items, rest) => Some (neg, items, rest) | _ => None end
          ∧ (cs ≤ length pat)%nat) as [-> Hcs].
  { subst cs neg. rewrite <- (Nat.add_0_r (S i)), <- lookup_drop, Hd. unfold bracket. destruct l as [|b l].
    - split; [| cbn; lia]. rewrite !Nat.add_0_r, Hd. done.
    - cbn [lookup list_lookup]. assert (S i < length pat)%nat.
      { apply (f_equal length) in Hd. rewrite length_drop in Hd. cbn in Hd. lia. }
      destruct (negation b) eqn:Eb; (split; [| lia]); rewrite ?Nat.add_0_r.
      + rewrite <- drop_drop, Hd. done.
      + by rewrite Hd. }
  pose proof (class_loop_spec (length pat) pat cs v false ltac:(lia) Hcs) as Hs. unfold scanned in Hs.
  destruct (class_loop _ _ _ _ _) as [idx m]. destruct (class_items (drop cs pat)) as [[items r]|].
  2: { cbn in Hs. subst idx. rewrite bool_decide_true by done. done. }
  destruct Hs as (pre & Hpre & [= -> ->] & Hempty).
  assert (length pat - cs = length pre + S (length r))%nat as Hlen.
  { apply (f_equal length) in Hpre. rewrite length_drop, length_app in Hpre. exact Hpre. }
  rewrite (bool_decide_false (_ = length pat)) by lia. destruct items as [|it items].
  - rewrite (proj1 Hempty) by done. cbn. rewrite bool_decide_true by lia. done.
  - rewrite bool_decide_false.
    2: { intros Hl. assert (pre = []) as Hp by (apply nil_length_inv; lia). by apply Hempty in Hp. }
    cbn [orb]. do 2 f_equal. lia.
Qed.

Lemma bracket_rest l negated items rest :
  bracket l = Some (negated, items, rest) → ∃ pre, l = pre ++ close_bracket :: rest.
Proof.
  assert (∀ l items r, class_items l = Some (items, r) → ∃ pre, l = pre ++ close_bracket :: r) as Hci.
  { intros k its r Hk. pose proof (class_loop_spec (length k) k 0 slash false ltac:(lia) ltac:(lia)) as Hs.
    unfold scanned in Hs. rewrite drop_0, Hk in Hs. destruct Hs as (pre & -> & _). eauto. }
  unfold bracket. destruct l as [|b l]; [done |]. destruct (negation b).
  - destruct (class_items l) as [[[|it its] r]|] eqn:E; [done | | done]. intros [= _ _ <-].
    destruct (Hci _ _ _ E) as [pre ->]. by exists (b :: pre).
  - destruct (class_items (b :: l)) as [[[|it its] r]|] eqn:E; [done | | done]. intros [= _ _ <-].
    by eapply Hci.
Qed.

(** ** The memoised matcher *)

Section Matcher.
Context (pat path : bytes).
Let width := S (length path).
Lemma width_eq : width = S (length path).
Proof. done. Qed.

Definition memo_ok (m : Memo) : Prop :=
  length m = (S (length pat) * width)%nat ∧
  ∀ i j r, (i ≤ length pat)%nat → (j ≤ length path)%nat → m !! (i * width + j)%nat = Some (Some r) →
    r = true ↔ Glob (drop i pat) (drop j path).

Lemma memo_set m i j r :
  memo_ok m → (i ≤ length pat)%nat → (j ≤ length path)%nat →
  (r = true ↔ Glob (drop i pat) (drop j path)) → memo_ok (<[(i * width + j)%nat := Some r]> m).
Proof.
  intros [Hl Hm] Hi Hj Hr. split; [by rewrite length_insert |].
  intros i' j' r' Hi' Hj' H. apply list_lookup_insert_Some in H as [(Heq & [= <-] & _)|[_ H]]; [| by eapply Hm].
  assert (i' = i) as ->; [| assert (j' = j) as -> by lia; done].
  apply (f_equal (λ k, (k / width)%nat)) in Heq.
  rewrite !Nat.div_add_l, !Nat.div_small in Heq by (pose proof width_eq; lia). lia.
Qed.

(** A matcher call that answers whether [p] matches. *)
Definition decides (run : M Memo bool) (P : Prop) : Prop :=
  ∀ m, memo_ok m → ∃ r m', run m = (Ok r, m') ∧ memo_ok m' ∧ (r = true ↔ P).

#[local] Instance decides_proper run : Proper (iff ==> iff) (decides run).
Proof.
  intros P Q HPQ. unfold decides. split; intros H m Hm; destruct (H m Hm) as (r & m' & ? & ? & ?);
    exists r, m'; (split_and!; [done | done |]); by rewrite HPQ || rewrite <- HPQ.
Qed.

Lemma decides_ret b (P : Prop) : (b = true ↔ P) → decides (mret b) P.
Proof. intros Hb m Hm. by exists b, m. Qed.
Lemma decides_mand b run (P Q : Prop) :
  (b = false → ¬ Q) → (b = true → Q ↔ P) → (b = true → decides run P) → decides (mand b run) Q.
Proof.
  intros Hf Ht Hr. destruct b; cbn [mand].
  - intros m Hm. destruct (Hr eq_refl m Hm) as (r & m' & Hrun & Hm' & Hd). exists r, m'. rewrite Ht; done.
  - apply decides_ret. split; [done |]. by intros ?%Hf.
Qed.
Lemma decides_or run run' (P Q R : Prop) :
  decides run P → decides run' Q → (R ↔ P ∨ Q) →
  decides (b ← run; if (b : bool) then mret true else run') R.
Proof.
  intros H H' HR m Hm. destruct (H m Hm) as (r & m1 & Hrun & Hm1 & Hd). rewrite (M_bind_run _ _ _ _ _ Hrun).
  destruct r.
  - exists true, m1. split_and!; [done | done |]. rewrite HR. tauto.
  - destruct (H' m1 Hm1) as (r' & m2 & Hrun' & Hm2 & Hd'). exists r', m2. split_and!; [done | done |].
    rewrite HR, Hd', <- Hd. intuition congruence.
Qed.

Lemma glob_match_decides fuel i j :
  (i ≤ length pat)%nat → (j ≤ length path)%nat → (length pat - i + (length path - j) < fuel)%nat →
  decides (glob_match fuel pat path i j width) (Glob (drop i pat) (drop j path)).
Proof.
  revert i j. induction fuel as [|fuel IH]; intros i j Hi Hj Hf; [lia |]. intros m Hm.
  cbn [glob_match]. mpure. destruct (lookup_lt_is_Some_2 m (i * width + j)%nat) as [s Hs].
  { destruct Hm as [-> _]. pose proof width_eq. nia. }
  rewrite Hs. destruct s as [r|].
  { exists r, m. split_and!; [done | done |]. by eapply (proj2 Hm). }
  match goal with |- ∃ _ _, mbind _ ?body _ = _ ∧ _ => enough (decides body (Glob (drop i pat) (drop j path))) as Hb end.
  { destruct (Hb m Hm) as (r & m1 & Hrun & Hm1 & Hd). rewrite (M_bind_run _ _ _ _ _ Hrun). mpure.
    exists r, (<[(i * width + j)%nat := Some r]> m1). split_and!; [done | by apply memo_set | done]. }
  clear m Hm Hs.
  destruct (drop i pat) as [|c p] eqn:Ep.
  { apply drop_nil_lookup in Ep as [-> ?]. apply decides_ret. rewrite glob_nil_iff, bool_decide_eq_true.
    split; [intros ->; by apply nil_length_inv; rewrite length_drop; lia |].
    intros Hd. apply (f_equal length) in Hd. rewrite length_drop in Hd. cbn in Hd. lia. }
  pose proof (drop_lookup_cons _ _ _ _ Ep) as (Hc & Hp & Hlt). rewrite Hc.
  assert (∀ x x', drop j path = x :: x' → path !! j = Some x ∧ drop (S j) path = x' ∧ (j < length path)%nat) as Hcons
    by (intros; by apply drop_lookup_cons).
  assert (drop j path = [] → path !! j = None) as Hnil by (intros H; by apply drop_nil_lookup in H as [? _]).
  destruct (decide (c = star)) as [->|Hstar].
  { rewrite <- (Nat.add_0_r (S i)), <- lookup_drop, Hp.
    destruct (bool_decide_reflect (p !! 0%nat = Some star)) as [Hrec|Hrec].
    - destruct p as [|c p]; [done |]. injection Hrec as ->.
      apply drop_lookup_cons in Hp as (_ & Hp & Hlt'). replace (i + 2)%nat with (S (S i)) by lia.
      eapply (decides_or _ _ _ (∃ c x', drop j path = c :: x' ∧ Glob (star :: star :: p) x')).
      + apply IH; lia.
      + destruct (drop j path) as [|x x'] eqn:Ex.
        * rewrite (Hnil eq_refl). apply decides_ret. split; [done |]. by intros (? & ? & ? & _).
        * destruct (Hcons _ _ eq_refl) as (-> & <- & ?). cbn [orb mand]. intros m Hm.
          destruct (IH i (S j) ltac:(lia) ltac:(lia) ltac:(lia) m Hm) as (r & m' & Hrun & Hm' & Hd).
          exists r, m'. split_and!; [done | done |]. rewrite Hd, Ep. naive_solver.
      + rewrite glob_star_star_iff, Hp. done.
    - replace (i + 1)%nat with (S i) by lia.
      assert (head p ≠ Some star) as Hh by (by destruct p).
      eapply (decides_or _ _ _ (∃ c x', drop j path = c :: x' ∧ c ≠ slash ∧ Glob (star :: p) x')).
      + apply IH; lia.
      + destruct (drop j path) as [|x x'] eqn:Ex.
        * rewrite (Hnil eq_refl). apply decides_ret. split; [done |]. by intros (? & ? & ? & _).
        * destruct (Hcons _ _ eq_refl) as (-> & <- & ?). cbn [orb].
          apply (decides_mand _ _ (Glob (drop i pat) (drop (S j) path))).
          -- intros ?%negb_false_iff%bool_decide_eq_true. naive_solver.
          -- intros ?%negb_true_iff%bool_decide_eq_false. rewrite Ep. naive_solver.
          -- intros _. apply IH; lia.
      + rewrite (glob_star_iff p) by done. by rewrite Hp. }
  destruct (decide (c = question)) as [->|Hq].
  { apply (decides_mand _ _ (Glob (drop (S i) pat) (drop (S j) path))).
    - rewrite glob_question_iff. destruct (drop j path) as [|x x'] eqn:Ex; [naive_solver |].
      destruct (Hcons _ _ eq_refl) as (-> & _ & _). intros ?%negb_false_iff%bool_decide_eq_true. naive_solver.
    - rewrite glob_question_iff. destruct (drop j path) as [|x x'] eqn:Ex; [by rewrite Hnil |].
      destruct (Hcons _ _ eq_refl) as (-> & -> & _). intros ?%negb_true_iff%bool_decide_eq_false.
      rewrite Hp. naive_solver.
    - destruct (drop j path) as [|x x'] eqn:Ex; [by rewrite Hnil |].
      destruct (Hcons _ _ eq_refl) as (_ & _ & ?). intros _. apply IH; lia. }
  assert (decides (mand (bool_decide (path !! j = Some c)) (glob_match fuel pat path (S i) (S j) width))
            (∃ x', drop j path = c :: x' ∧ Glob p x')) as Hlit.
  { apply (decides_mand _ _ (Glob (drop (S i) pat) (drop (S j) path))).
    - intros H%bool_decide_eq_false (x' & Hx & _). by destruct (Hcons _ _ Hx).
    - intros H%bool_decide_eq_true. rewrite Hp, (drop_S _ _ _ H). naive_solver.
    - intros H%bool_decide_eq_true. apply lookup_lt_Some in H. apply IH; lia. }
  destruct (decide (c = open_bracket)) as [->|Ho].
  { destruct (bracket p) as [[[neg items] rest]|] eqn:Eb.
    - rewrite (glob_class_iff _ _ _ _ _ Eb). destruct (drop j path) as [|x x'] eqn:Ex.
      { rewrite (Hnil eq_refl). apply (decides_mand _ _ False); [naive_solver | naive_solver | done]. }
      destruct (Hcons _ _ eq_refl) as (Hx & Hdj & ?). rewrite Hx. destruct (decide (x = slash)) as [->|Hslash].
      { apply (decides_mand _ _ False); [naive_solver | naive_solver | done]. }
      rewrite (character_class_spec _ _ _ _ Hslash Ep), Eb.
      assert (∃ k, drop (length pat - length rest) pat = rest ∧ (length pat - length rest = S i + k)%nat ∧ (length rest ≤ length pat)%nat)
        as (k & Hrest & Hk & Hle).
      { destruct (bracket_rest _ _ _ _ Eb) as [pre Hpre].
        assert (pat = take (S i) pat ++ (pre ++ [close_bracket]) ++ rest) as Hpat.
        { rewrite <- (take_drop (S i) pat) at 1. rewrite Hp, Hpre. by rewrite <- !app_assoc. }
        pose proof (f_equal length Hpat) as Hlen. rewrite !length_app, length_take in Hlen.
        change (length [close_bracket]) with 1%nat in Hlen. exists (length (pre ++ [close_bracket])). rewrite !length_app. change (length [close_bracket]) with 1%nat. split_and!; [| lia | lia].
        rewrite Hpat at 2. rewrite app_assoc. rewrite drop_app_ge; rewrite !length_app, length_take; change (length [close_bracket]) with 1%nat; [| lia].
        replace (_ - _)%nat with 0%nat by lia. done. }
      apply (decides_mand _ _ (Glob (drop (length pat - length rest) pat) (drop (S j) path))).
      + intros Hin%negb_false_iff%bool_decide_eq_true. naive_solver.
      + intros Hin%negb_true_iff%bool_decide_eq_false. rewrite Hrest, Hdj. naive_solver.
      + intros _. apply IH; lia.
    - assert (character_class pat i (path !! j) = None) as ->.
      { destruct (path !! j) as [x|] eqn:Ex; [| done]. destruct (decide (x = slash)) as [->|Hs]; [done |].
        by rewrite (character_class_spec _ _ _ _ Hs Ep), Eb. }
      by rewrite glob_bracket_iff. }
  rewrite glob_literal_iff; [done |]. by apply is_wildcard_false.
Qed.

Lemma memo_init : memo_ok (replicate (S (length pat) * width) None).
Proof.
  split; [by rewrite length_replicate |]. intros i j r _ _ [H _]%lookup_replicate. done.
Qed.
End Matcher.

Lemma matches_path_decides pat path :
  ∃ b, matches_path pat path = Ok b ∧ (b = true ↔ Glob pat path).
Proof.
  destruct (glob_match_decides pat path (S (length pat + length path)) 0 0 ltac:(lia) ltac:(lia) ltac:(lia)
              _ (memo_init pat path)) as (r & m' & Hrun & _ & Hd).
  exists r. unfold matches_path. by rewrite Hrun.
Qed.

(** C26 The memoised matcher answers for every pattern and path, without running
    off its table, exactly whether the path has the meaning of the pattern. *)
Theorem matches_path_spec pat path :
  ∃ b, matches_path pat path = Ok b ∧ (b = true ↔ Glob pat path).
Proof. apply matches_path_decides. Qed.

(** ** Overlap *)

Lemma glob_literal_run l p x :
  contains_wildcard l = false → Glob (l ++ p) x → ∃ x', x = l ++ x' ∧ Glob p x'.
Proof.
  unfold contains_wildcard. revert x. induction l as [|c l IH]; intros x Hl Hg; [eauto |].
  cbn in Hl. apply orb_false_iff in Hl as [Hc Hl]. cbn [app] in Hg.
  apply (glob_literal_iff _ _ _ Hc) in Hg as (x' & -> & Hg). destruct (IH _ Hl Hg) as (x'' & -> & ?). eauto.
Qed.

Lemma glob_literal_eq p x : contains_wildcard p = false → Glob p x → x = p.
Proof.
  intros Hp Hg. rewrite <- (app_nil_r p) in Hg. destruct (glob_literal_run _ _ _ Hp Hg) as (x' & -> & ->%glob_nil_iff).
  apply app_nil_r.
Qed.

(** A path a pattern matches starts with the pattern's literal components. *)
Lemma literal_prefix_matches p x : Glob p x → literal_prefix p `prefix_of` split_on slash x.
Proof.
  unfold literal_prefix. remember (length p) as n eqn:Hn. revert p x Hn.
  induction n as [n IH] using lt_wf_ind. intros p x Hn Hg. destruct (decide (slash ∈ p)) as [Hin|Hni].
  - apply list_elem_of_split_l in Hin as (c & r & -> & Hc). rewrite split_on_app by done. cbn [take_while].
    destruct (contains_wildcard c) eqn:Ew; cbn [negb]; [apply prefix_nil |].
    destruct (glob_literal_run _ _ _ Ew Hg) as (x' & -> & Hg').
    apply glob_literal_iff in Hg' as (x'' & -> & Hg''); [| done]. rewrite split_on_app by done.
    apply prefix_cons. eapply IH; [| reflexivity | done]. rewrite Hn, length_app. cbn. lia.
  - rewrite split_on_piece by done. cbn [take_while].
    destruct (contains_wildcard p) eqn:Ew; cbn [negb]; [apply prefix_nil |].
    rewrite (glob_literal_eq _ _ Ew Hg), split_on_piece by done. done.
Qed.

Lemma component_prefix_spec l r : component_prefix l r = true ↔ l `prefix_of` r.
Proof.
  unfold component_prefix. rewrite andb_true_iff, Nat.leb_le. revert r. induction l as [|x l IH]; intros r.
  - split; [intros _; apply prefix_nil | intros _; cbn; split; [lia | done]].
  - destruct r as [|y r]; cbn.
    + split; [lia | by intros []].
    + rewrite andb_true_iff, bool_decide_eq_true. split.
      * intros [Hl [-> Hr]]. apply prefix_cons, IH. split; [lia | done].
      * intros Hp. pose proof (prefix_cons_inv_1 _ _ _ _ Hp) as ->. apply prefix_cons_inv_2, IH in Hp. intuition lia.
Qed.

Lemma patterns_may_overlap_sym p q : patterns_may_overlap p q = patterns_may_overlap q p.
Proof.
  unfold patterns_may_overlap. rewrite (bool_decide_ext (p = q) (q = p)) by done.
  rewrite (andb_comm (negb _)), orb_comm. done.
Qed.

Lemma overlap_glob p q x : Glob p x → Glob q x → patterns_may_overlap p q = true.
Proof.
  intros Hp Hq. unfold patterns_may_overlap. case_bool_decide as Hpq; [done |].
  destruct (contains_wildcard p) eqn:Ep; cbn [negb andb].
  2: { destruct (contains_wildcard q) eqn:Eq; cbn [negb andb].
       2: { destruct Hpq. by rewrite <- (glob_literal_eq _ _ Ep Hp), <- (glob_literal_eq _ _ Eq Hq). }
       rewrite orb_true_iff, !component_prefix_spec.
       apply (prefix_weak_total _ _ (split_on slash x)); by apply literal_prefix_matches. }
  rewrite orb_true_iff, !component_prefix_spec.
  apply (prefix_weak_total _ _ (split_on slash x)); by apply literal_prefix_matches.
Qed.

(** Two patterns that match a common path are never taken for disjoint. *)
Theorem overlap_sound left right path :
  matches_path left path = Ok true → matches_path right path = Ok true →
  patterns_may_overlap left right = true.
Proof.
  intros Hl Hr. destruct (matches_path_decides left path) as (b & Hb & Hgl). destruct (matches_path_decides right path) as (b' & Hb' & Hgr).
  rewrite Hb in Hl. rewrite Hb' in Hr. simplify_eq. eapply overlap_glob; [by apply Hgl | by apply Hgr].
Qed.

(** ** The registry *)

Section Registry.
Context `{Hex}.

(** Two claims are held by different owners or workspaces. *)
Definition other_holder (c d : ClaimRecord) : Prop := ¬ (workspace_id c = workspace_id d ∧ owner c = owner d).

(** Rows sit at their id, and rows of different holders do not overlap. *)
Definition keyed (t : Table) : Prop := map_Forall (λ id c, claim_id c = id) t.
Definition exclusive (t : Table) : Prop :=
  ∀ i j c d, t !! i = Some c → t !! j = Some d → other_holder c d →
    patterns_may_overlap (pattern c) (pattern d) = false.

Lemma elem_of_rows t c : c ∈ rows t ↔ ∃ i, t !! i = Some c.
Proof.
  unfold rows. rewrite list_elem_of_fmap. split.
  - intros ([i d] & -> & Hi%elem_of_map_to_list). eauto.
  - intros [i Hi]. exists (i, c). split; [done |]. by apply elem_of_map_to_list.
Qed.

Lemma exclusive_subseteq t t' : t ⊆ t' → exclusive t' → exclusive t.
Proof. intros Hs He i j c d Hi Hj. eapply He; by eapply lookup_weaken. Qed.
Lemma keyed_subseteq t t' : t ⊆ t' → keyed t' → keyed t.
Proof. intros Hs Hk i c Hi. by eapply Hk, lookup_weaken. Qed.
Lemma delete_expired_subseteq n t : delete_expired n t ⊆ t.
Proof. apply map_filter_subseteq. Qed.

Lemma same_holder_spec c own ws : same_holder c own ws = true ↔ workspace_id c = ws ∧ owner c = own.
Proof. unfold same_holder. by rewrite andb_true_iff, !bool_decide_eq_true. Qed.

Lemma find_none_sorted (f : ClaimRecord → bool) t :
  find f (merge_sort by_created (rows t)) = None ↔ ∀ i c, t !! i = Some c → f c = false.
Proof.
  split.
  - intros Hn i c Hi. apply (find_none _ _ Hn). apply list_elem_of_In.
    rewrite (merge_sort_Permutation by_created). apply elem_of_rows. eauto.
  - intros Hf. destruct (find _ _) as [c|] eqn:E; [| done]. apply find_some in E as [Hin Hc].
    apply list_elem_of_In in Hin. rewrite (merge_sort_Permutation by_created) in Hin.
    apply elem_of_rows in Hin as [i Hi]. by rewrite (Hf _ _ Hi) in Hc.
Qed.
Lemma find_some_sorted (f : ClaimRecord → bool) t c :
  find f (merge_sort by_created (rows t)) = Some c → f c = true ∧ ∃ i, t !! i = Some c.
Proof.
  intros [Hin Hc]%find_some. split; [done |]. apply list_elem_of_In in Hin.
  rewrite (merge_sort_Permutation by_created) in Hin. by apply elem_of_rows.
Qed.

(** The claim a request asks for. *)
Definition asked (c : ClaimRecord) (pat own ws : bytes) : Prop :=
  pattern c = pat ∧ owner c = own ∧ workspace_id c = ws.
(** No row of another holder may overlap the pattern. *)
Definition unopposed (t : Table) (pat own ws : bytes) : Prop :=
  ∀ i d, t !! i = Some d → same_holder d own ws = false → patterns_may_overlap (pattern d) pat = false.

(** How a claim that passes the checks of its arguments ends. *)
Inductive claimed (n : Z) (random : Res bytes) (pat own ws : bytes) (ttl : Z) (t : Table)
    : Res ClaimRecord → Table → Prop :=
| claimed_again c :
    asked c pat own ws → delete_expired n t !! claim_id c = Some c →
    claimed n random pat own ws ttl t (Ok c) (delete_expired n t)
| claimed_new id :
    new_id random = Ok id → unopposed (delete_expired n t) pat own ws →
    (∀ c, asked c pat own ws → delete_expired n t !! claim_id c ≠ Some c) →
    delete_expired n t !! id = None →
    claimed n random pat own ws ttl t (Ok (mkClaim id pat own ws n (i64_sat_add n ttl)))
      (<[id := mkClaim id pat own ws n (i64_sat_add n ttl)]> (delete_expired n t))
| claimed_refused e :
    ¬ unopposed (delete_expired n t) pat own ws → claimed n random pat own ws ttl t (Err e) t
| claimed_no_id e e' : new_id random = Err e' → claimed n random pat own ws ttl t (Err e) t
| claimed_id_taken id e :
    new_id random = Ok id → is_Some (delete_expired n t !! id) → claimed n random pat own ws ttl t (Err e) t.

Lemma insert_row_taken c t d :
  t !! claim_id c = Some d → insert_row c t = (Err "UNIQUE constraint failed: claims.id", t).
Proof. intros Hd. unfold insert_row. mpure. by rewrite Hd. Qed.
Lemma insert_row_free c t : t !! claim_id c = None → insert_row c t = (Ok (), <[claim_id c := c]> t).
Proof. intros Hd. unfold insert_row. mpure. by rewrite Hd. Qed.

Lemma claim_run clock random pat own ws ttl n t :
  keyed t → now clock = Ok n → validate_pattern pat = Ok () → validate_owner own = Ok () →
  1 ≤ ttl ≤ MAX_TTL_SECONDS →
  let '(r, t') := claim clock random pat own ws ttl t in claimed n random pat own ws ttl t r t'.
Proof.
  intros Hk Hn Hp Ho Httl. unfold claim. rewrite Hp, Ho, Hn. mpure. rewrite mensure_bind by lia. mpure.
  unfold transaction. mpure.
  assert (keyed (delete_expired n t)) as Hk' by (eapply keyed_subseteq; [apply delete_expired_subseteq | done]).
  destruct (find _ _) as [c|] eqn:E1.
  { apply find_some_sorted in E1 as [[Hh%same_holder_spec Hc%bool_decide_eq_true]%andb_true_iff [i Hi]].
    cbn. apply claimed_again; [unfold asked; tauto |]. by rewrite (Hk' _ _ Hi). }
  destruct (find (λ c, negb _ && _) _) as [c|] eqn:E2.
  { apply find_some_sorted in E2 as [[Hh%negb_true_iff Hc]%andb_true_iff [i Hi]]. cbn. apply claimed_refused.
    intros Hu. rewrite (Hu _ _ Hi Hh) in Hc. done. }
  destruct (new_id random) as [id|e] eqn:Eid; [| by eapply claimed_no_id]. mpure.
  destruct (delete_expired n t !! id) as [d|] eqn:Ed.
  { rewrite (M_bind_err _ _ _ _ _ (insert_row_taken (mkClaim id _ _ _ _ _) _ d Ed)).
    eapply claimed_id_taken; [done | by rewrite Ed]. }
  rewrite (M_bind_run _ _ _ _ _ (insert_row_free (mkClaim id _ _ _ _ _) _ Ed)).
  apply claimed_new; [done | | | done].
  - intros i d Hi Hs. pose proof (proj1 (find_none_sorted _ _) E2 _ _ Hi) as Hf. cbn in Hf. rewrite Hs in Hf. done.
  - intros c (<- & Hcs) Hc. pose proof (proj1 (find_none_sorted _ _) E1 _ _ Hc) as Hf. cbn in Hf.
    rewrite (proj2 (same_holder_spec _ _ _)), bool_decide_true in Hf by tauto. done.
Qed.

(** A claim with valid arguments: repeating a live claim answers it again
    and changes nothing but expired rows; otherwise a live claim of another
    holder that may overlap refuses it, without effect, and if there is none the
    claim is recorded with its expiry. *)
Theorem claim_spec clock random pat own ws ttl n t :
  keyed t → now clock = Ok n → validate_pattern pat = Ok () → validate_owner own = Ok () →
  1 ≤ ttl ≤ MAX_TTL_SECONDS →
  let '(r, t') := claim clock random pat own ws ttl t in claimed n random pat own ws ttl t r t'.
Proof. apply claim_run. Qed.

(** ** Runs of the registry *)

(** The requests agents make; [restore] is not one of them. *)
Inductive step : Table → Table → Prop :=
| step_claim clock random pat own ws ttl r t t' :
    claim clock random pat own ws ttl t = (r, t') → step t t'
| step_active clock r t t' : active clock t = (r, t') → step t t'
| step_release selector own ws r t t' : release selector own ws t = (r, t') → step t t'
| step_release_workspace ws r t t' : release_workspace ws t = (r, t') → step t t'.

Definition registry_ok (t : Table) : Prop := keyed t ∧ exclusive t.

Lemma registry_ok_subseteq t t' : t ⊆ t' → registry_ok t' → registry_ok t.
Proof. intros Hs [??]. split; [by eapply keyed_subseteq | by eapply exclusive_subseteq]. Qed.

Lemma claim_ok clock random pat own ws ttl r t t' :
  registry_ok t → claim clock random pat own ws ttl t = (r, t') → registry_ok t'.
Proof.
  intros Hok Hrun.
  assert (t' = t ∨ ∃ n, claimed n random pat own ws ttl t r t') as [->|[n Hc]]; [| done |].
  { destruct (validate_pattern pat) as [[]|] eqn:Ep; [| left; revert Hrun; unfold claim; rewrite Ep; by intros [= _ <-]].
    destruct (validate_owner own) as [[]|] eqn:Eo; [| left; revert Hrun; unfold claim; rewrite Ep, Eo; by intros [= _ <-]].
    destruct ((1 <=? ttl) && (ttl <=? MAX_TTL_SECONDS)) eqn:Et.
    2: { left. revert Hrun. unfold claim. rewrite Ep, Eo, Et. by intros [= _ <-]. }
    destruct (now clock) as [n|] eqn:En.
    2: { left. revert Hrun. unfold claim. rewrite Ep, Eo, Et, En. by intros [= _ <-]. }
    right. exists n. pose proof (claim_run clock random pat own ws ttl n t (proj1 Hok) En Ep Eo ltac:(lia)) as Hs.
    by rewrite Hrun in Hs. }
  pose proof (registry_ok_subseteq _ _ (delete_expired_subseteq n t) Hok) as Hok'.
  destruct Hc as [c Ha Hl|id Hid Hu Hnew Hfree|e|e e'|id e]; [done | | done..].
  destruct Hok' as [Hk He]. split; [by apply map_Forall_insert_2 |].
  intros i j c d Hi Hj Hoh. apply lookup_insert_Some in Hi as [[_ <-]|[_ Hi]]; apply lookup_insert_Some in Hj as [[_ <-]|[_ Hj]].
  - by destruct Hoh.
  - rewrite patterns_may_overlap_sym. apply (Hu _ _ Hj). apply not_true_iff_false. rewrite same_holder_spec.
    intros [??]. destruct Hoh. by cbn.
  - apply (Hu _ _ Hi). apply not_true_iff_false. rewrite same_holder_spec. intros [??]. by destruct Hoh.
  - by eapply He.
Qed.

Lemma mfor_delete (l : list ClaimRecord) (t t' : Table) r :
  mfor l (λ c, modify (delete (claim_id c))) t = (r, t') → t' ⊆ t.
Proof.
  revert t. induction l as [|c l IH]; intros t; cbn [mfor]; [by intros [= _ <-] |]. mpure.
  intros Hs%IH. etrans; [done |]. apply delete_subseteq.
Qed.

Lemma transaction_run {A} (body : M Table A) t r t' :
  transaction body t = (r, t') → t' = t ∨ body t = (r, t').
Proof. unfold transaction. destruct (body t) as [[a|e] t0]; intros [= <- <-]; [by right | by left]. Qed.

Lemma step_ok t t' : registry_ok t → step t t' → registry_ok t'.
Proof.
  intros Hok Hs. revert Hok.
  destruct Hs as [clock random pat own ws ttl r t0 t1 Hr|clock r t0 t1 Hr|sel own ws r t0 t1 Hr|ws r t0 t1 Hr]; intros Hok.
  - by eapply claim_ok.
  - revert Hr. unfold active. destruct (now clock); [mpure | by intros [= _ <-]].
    intros [->|Hb]%transaction_run; [done |]. revert Hb. mpure. intros [= _ <-].
    eapply registry_ok_subseteq; [apply delete_expired_subseteq | done].
  - revert Hr. unfold release. destruct (validate_owner own); [mpure | by intros [= _ <-]].
    intros [->|Hb]%transaction_run; [done |]. revert Hb. mpure. unfold mensure, lift. unfold mbind at 1, M_bind.
    destruct (ensure _ _); [| by intros [= _ <-]]. cbn beta iota. unfold mbind, M_bind.
    destruct (mfor _ _ _) as [[u|e] t2] eqn:E; intros [= _ <-]; eapply registry_ok_subseteq; (by eapply mfor_delete) || done.
  - apply transaction_run in Hr as [->|Hb]; [done |]. revert Hb. mpure. intros [= _ <-].
    eapply registry_ok_subseteq; [apply map_filter_subseteq | done].
Qed.

(** C25 Whatever requests agents make, in any order and at any clock: no path is
    ever matched by claims of two different holders. *)
Theorem registry_exclusive t c d path :
  rtc step ∅ t → c ∈ rows t → d ∈ rows t →
  matches_path (pattern c) path = Ok true → matches_path (pattern d) path = Ok true →
  workspace_id c = workspace_id d ∧ owner c = owner d.
Proof.
  intros Hr [i Hc]%elem_of_rows [j Hd]%elem_of_rows Hpc Hpd.
  assert (registry_ok t) as [_ He].
  { remember ∅ as t0 eqn:H0. assert (registry_ok t0) as Hok by (subst t0; split; [apply map_Forall_empty | intros ????; by rewrite lookup_empty]).
    clear H0 Hc Hd. induction Hr as [|t1 t2 t3 Hs _ IH]; [done |]. apply IH. by eapply step_ok. }
  apply dec_stable. intros Hoh. pose proof (He _ _ _ _ Hc Hd Hoh) as Hno.
  destruct (matches_path_decides (pattern c) path) as (b & Hb & Hgl). destruct (matches_path_decides (pattern d) path) as (b' & Hb' & Hgr).
  rewrite Hb in Hpc. rewrite Hb' in Hpd. simplify_eq.
  rewrite (overlap_glob _ _ path) in Hno; [done | by apply Hgl | by apply Hgr].
Qed.
(** A release whose snapshot fails puts its claims back without looking at
    the registry: if another holder has claimed in between, two holders end up
    with claims that match the same path. *)
Theorem restore_overlaps c d t path :
  claim_id c ≠ claim_id d → t !! claim_id d = Some d → other_holder c d →
  matches_path (pattern c) path = Ok true → matches_path (pattern d) path = Ok true →
  ∃ t', restore [c] t = (Ok (), t') ∧ c ∈ rows t' ∧ d ∈ rows t' ∧ ¬ exclusive t'.
Proof.
  intros Hne Hd Hoh Hc Hpd. exists (<[claim_id c := c]> t).
  assert (<[claim_id c := c]> t !! claim_id c = Some c) as Hlc by (by rewrite lookup_insert, decide_True).
  assert (<[claim_id c := c]> t !! claim_id d = Some d) as Hld by (by rewrite lookup_insert_ne).
  split_and!; [done | apply elem_of_rows; eauto.. |].
  intros He. pose proof (He _ _ _ _ Hlc Hld Hoh) as Hno.
  destruct (matches_path_decides (pattern c) path) as (b & Hb & Hgl). destruct (matches_path_decides (pattern d) path) as (b' & Hb' & Hgr).
  rewrite Hb in Hc. rewrite Hb' in Hpd. simplify_eq.
  rewrite (overlap_glob _ _ path) in Hno; [done | by apply Hgl | by apply Hgr].
Qed.
End Registry.

Module ClaimsExample.
#[local] Existing Instance toy_hex.

Example globs :
  map (λ '(p, x), matches_path (b_ p) (b_ x))
    [("src/auth/**", "src/auth/login/session.rs"); ("src/*.rs", "src/main.rs"); ("src/*.rs", "src/nested/main.rs");
     ("src/file[0-9].rs", "src/file7.rs"); ("src/file[!0-9].rs", "src/file7.rs"); ("config/?.env", "config/a.env");
     ("a[]b", "a[]b")]%string
  = [Ok true; Ok true; Ok false; Ok true; Ok false; Ok true; Ok true].
Proof. by vm_compute. Qed.

Lemma overlap_sound_witness : patterns_may_overlap (b_ "src/**") (b_ "src/*.rs") = true.
Proof.
  exact (overlap_sound (b_ "src/**") (b_ "src/*.rs") (b_ "src/a.rs") ltac:(by vm_compute) ltac:(by vm_compute)).
Defined.

Definition clock : option Z := Some 1000.
Definition first_run := claim clock (Ok [Byte.x01]) (b_ "src/**") (b_ "alpha") (b_ "wa") 60 ∅.

Lemma claim_spec_witness :
  let '(r, t') := first_run in claimed 1000 (Ok [Byte.x01]) (b_ "src/**") (b_ "alpha") (b_ "wa") 60 ∅ r t'.
Proof.
  exact (claim_spec clock (Ok [Byte.x01]) (b_ "src/**") (b_ "alpha") (b_ "wa") 60 1000 ∅
    (map_Forall_empty _) eq_refl ltac:(by vm_compute) ltac:(by vm_compute) ltac:(by vm_compute)).
Defined.

Definition first : ClaimRecord := mkClaim (hex_encode [Byte.x01]) (b_ "src/**") (b_ "alpha") (b_ "wa") 1000 1060.
Definition second : ClaimRecord := mkClaim (hex_encode [Byte.x02]) (b_ "src/a") (b_ "beta") (b_ "wb") 1000 1060.

Lemma first_run_is : first_run = (Ok first, {[ claim_id first := first ]}).
Proof. by vm_compute. Qed.

Lemma first_reached : rtc step ∅ first_run.2.
Proof. eapply rtc_l; [| apply rtc_refl]. eapply step_claim. apply surjective_pairing. Qed.
Lemma first_row : first ∈ rows first_run.2.
Proof. rewrite first_run_is. apply elem_of_rows. by exists (claim_id first). Qed.

Lemma registry_exclusive_witness :
  first ∈ rows first_run.2 ∧ workspace_id first = workspace_id first ∧ owner first = owner first.
Proof.
  exact (conj first_row (registry_exclusive first_run.2 first first (b_ "src/a") first_reached first_row first_row
    ltac:(by vm_compute) ltac:(by vm_compute))).
Defined.

(** Alpha claims [src/**] and releases it; before the release is confirmed by a
    snapshot, beta claims [src/a]. *)
Definition released_run := release (b_ "src/**") (b_ "alpha") (b_ "wa") first_run.2.
Definition second_run := claim clock (Ok [Byte.x02]) (b_ "src/a") (b_ "beta") (b_ "wb") 60 released_run.2.

Lemma second_run_is : released_run.1 = Ok [first] ∧ second_run = (Ok second, {[ claim_id second := second ]}).
Proof. by vm_compute. Qed.

Lemma restore_overlaps_witness :
  ∃ t', restore [first] second_run.2 = (Ok (), t') ∧ first ∈ rows t' ∧ second ∈ rows t' ∧ ¬ exclusive t'.
Proof.
  exact (restore_overlaps first second second_run.2 (b_ "src/a") ltac:(by vm_compute) ltac:(by vm_compute)
    ltac:(by intros []) ltac:(by vm_compute) ltac:(by vm_compute)).
Defined.
End ClaimsExample.
