(* ===== verification/Crypto.v ===== *)
(** * Crypto: sealed objects ([furrow-core/src/remote_crypto.rs], [sealer.rs])

    Encryption of objects and metadata for untrusted storage, and the [Sealer]
    that names, seals and opens objects for one identity: structure objects
    under the cell key, chunks convergently under the dedup secret. The keyed
    hash and the AEAD are third-party parameters. Wiping secrets from memory on
    drop has no counterpart here. *)

From S2P Require Import Prelude Model Concrete.
#[local] Open Scope Z_scope.

(** [blake3::Hasher::new_keyed(key)], its input, and [n] bytes of its extended
    output; [finalize] is the first 32 bytes. *)
Class KeyedBlake3 := keyed_blake3 : bytes → bytes → nat → bytes.
Class KeyedBlake3Ok `{KeyedBlake3} := keyed_blake3_len : ∀ key input n, length (keyed_blake3 key input n) = n.

(** [XChaCha20Poly1305]: key, nonce, associated data, message. *)
Class Aead := {
  aead_encrypt : bytes → bytes → bytes → bytes → option bytes;
  aead_decrypt : bytes → bytes → bytes → bytes → option bytes;
}.
Class AeadOk `{Aead} := {
  aead_len : ∀ k n a m c, aead_encrypt k n a m = Some c → blen c = blen m + 16;
  aead_open : ∀ k n a m c, aead_encrypt k n a m = Some c → aead_decrypt k n a c = Some m;
}.

Definition OBJECT_MAGIC : bytes := b_ "AGEO" ++ [Byte.x01].
Definition HEAD_MAGIC : bytes := b_ "AGEH" ++ [Byte.x01].
Definition NONCE_LEN : Z := 24.
Definition MAX_METADATA_LEN : Z := 1024 * 1024.

Record RemoteCrypto := mkCrypto { rc_key : bytes }.

Section Crypto.
Context `{Blake3, KeyedBlake3, Aead}.

Definition remote_id (c : RemoteCrypto) (id : ObjectId) : ObjectId :=
  keyed_blake3 (rc_key c) (b_ "furrow:remote-id:v1" ++ [Byte.x00] ++ id) 32.
Definition object_nonce (c : RemoteCrypto) (id : ObjectId) : bytes :=
  keyed_blake3 (rc_key c) (b_ "furrow:object-nonce:v1" ++ [Byte.x00] ++ id) 24.

Definition seal_with (c : RemoteCrypto) (remote_id : ObjectId) (nonce : bytes) (id : ObjectId)
    (kind : ObjectKind) (b : bytes) : Res bytes :=
  let plaintext := kind_to_u8 kind :: id ++ b in
  ciphertext ← with_context (aead_encrypt (rc_key c) nonce remote_id plaintext) "encrypt remote object";
  Ok (OBJECT_MAGIC ++ nonce ++ ciphertext).

Definition open_with (c : RemoteCrypto) (remote_id : ObjectId) (expected_nonce : bytes) (expected_id : ObjectId)
    (framed : bytes) : Res (ObjectKind * bytes) :=
  _ ← ensure (blen OBJECT_MAGIC + NONCE_LEN + 16 <=? blen framed) "encrypted object is truncated";
  _ ← ensure (bool_decide (slice 0 (blen OBJECT_MAGIC) framed = OBJECT_MAGIC)) "invalid encrypted object header";
  let nonce := slice (blen OBJECT_MAGIC) NONCE_LEN framed in
  _ ← ensure (bool_decide (nonce = expected_nonce)) "object nonce mismatch";
  plaintext ← with_context
    (aead_decrypt (rc_key c) nonce remote_id (drop (Z.to_nat (blen OBJECT_MAGIC + NONCE_LEN)) framed))
    "remote object authentication failed";
  _ ← ensure (33 <=? blen plaintext) "remote object payload is truncated";
  kind ← with_context (b ← plaintext !! 0%nat; kind_from_u8 b) "invalid remote object kind";
  _ ← ensure (bool_decide (slice 1 32 plaintext = expected_id)) "remote object ID mismatch";
  let b := drop 33 plaintext in
  _ ← ensure (bool_decide (object_id kind b = expected_id)) "remote object content failed verification";
  Ok (kind, b).

Definition encrypt_object (c : RemoteCrypto) (id : ObjectId) (kind : ObjectKind) (b : bytes) : Res bytes :=
  _ ← ensure (bool_decide (object_id kind b = id)) "object ID does not match bytes";
  seal_with c (remote_id c id) (object_nonce c id) id kind b.
Definition decrypt_object (c : RemoteCrypto) (expected_id : ObjectId) (framed : bytes) : Res (ObjectKind * bytes) :=
  open_with c (remote_id c expected_id) (object_nonce c expected_id) expected_id framed.

(** The nonce comes from [getrandom], which may fail. *)
Definition encrypt_metadata (c : RemoteCrypto) (random : Res bytes) (plaintext context : bytes) : Res bytes :=
  _ ← ensure (blen plaintext <=? MAX_METADATA_LEN) "sync metadata exceeds the 1 MiB limit";
  nonce ← random;
  ciphertext ← with_context (aead_encrypt (rc_key c) nonce context plaintext) "encrypt sync head";
  Ok (HEAD_MAGIC ++ nonce ++ ciphertext).

Definition decrypt_metadata (c : RemoteCrypto) (framed context : bytes) : Res bytes :=
  _ ← ensure (blen HEAD_MAGIC + NONCE_LEN + 16 <=? blen framed) "encrypted sync head is truncated";
  _ ← ensure (bool_decide (slice 0 (blen HEAD_MAGIC) framed = HEAD_MAGIC)) "invalid encrypted sync-head header";
  let nonce := slice (blen HEAD_MAGIC) NONCE_LEN framed in
  _ ← ensure (blen framed <=? blen HEAD_MAGIC + NONCE_LEN + 16 + MAX_METADATA_LEN)
        "encrypted sync metadata exceeds the 1 MiB limit";
  with_context (aead_decrypt (rc_key c) nonce context (drop (Z.to_nat (blen HEAD_MAGIC + NONCE_LEN)) framed))
    "sync-head authentication failed".

Definition encrypt_head (c : RemoteCrypto) (random : Res bytes) (snapshot : ObjectId) (context : bytes) : Res bytes :=
  encrypt_metadata c random snapshot context.
Definition decrypt_head (c : RemoteCrypto) (framed context : bytes) : Res ObjectId :=
  plaintext ← decrypt_metadata c framed context;
  _ ← ensure (blen plaintext =? 32) "invalid sync-head snapshot ID";
  Ok plaintext.

(** ** [sealer.rs] *)

Definition CHUNK_RID : bytes := b_ "codeaf:chunk-rid:v1" ++ [Byte.x00].
Definition CHUNK_KEY : bytes := b_ "codeaf:chunk-key:v1" ++ [Byte.x00].
Definition CHUNK_NONCE : bytes := b_ "codeaf:chunk-nonce:v1" ++ [Byte.x00].

Record Keys := mkKeys { cell_key : bytes; dedup : bytes }.

Definition keyed_xof (key domain id : bytes) (n : nat) : bytes := keyed_blake3 key (domain ++ id) n.
Definition keyed (key domain : bytes) (id : ObjectId) : bytes := keyed_xof key domain id 32.

(** What a [Scheme] answers for one object. *)
Record Scheme := mkScheme { scheme_crypto : RemoteCrypto; scheme_remote_id : ObjectId; scheme_nonce : bytes }.

Definition Structure (cell : RemoteCrypto) (id : ObjectId) : Scheme :=
  mkScheme cell (remote_id cell id) (object_nonce cell id).
Definition Convergent (dedup : bytes) (id : ObjectId) : Scheme :=
  mkScheme (mkCrypto (keyed dedup CHUNK_KEY id)) (keyed dedup CHUNK_RID id)
    (keyed_xof (keyed dedup CHUNK_KEY id) CHUNK_NONCE [] 24).

Definition scheme (keys : Keys) (kind : ObjectKind) (id : ObjectId) : Scheme :=
  match kind with
  | Chunk => Convergent (dedup keys) id
  | _ => Structure (mkCrypto (cell_key keys)) id
  end.

Definition cell_remote_id (keys : Keys) (kind : ObjectKind) (id : ObjectId) : ObjectId :=
  scheme_remote_id (scheme keys kind id).

Definition cell_seal (keys : Keys) (kind : ObjectKind) (id : ObjectId) (b : bytes) : Res (ObjectId * bytes) :=
  _ ← ensure (bool_decide (object_id kind b = id)) "object ID does not match bytes";
  let s := scheme keys kind id in
  let rid := scheme_remote_id s in
  sealed ← seal_with (scheme_crypto s) rid (scheme_nonce s) id kind b;
  Ok (rid, sealed).

Definition cell_open (keys : Keys) (kind : ObjectKind) (id rid : ObjectId) (sealed : bytes) : Res bytes :=
  let s := scheme keys kind id in
  _ ← ensure (bool_decide (scheme_remote_id s = rid)) "remote id does not name object";
  '(opened, b) ← open_with (scheme_crypto s) rid (scheme_nonce s) id sealed;
  _ ← ensure (bool_decide (opened = kind)) "object kind mismatch";
  Ok b.
End Crypto.

(** ** The interface the exchange uses: [trait Sealer] *)

Class Sealer := {
  sealer_remote_id : ObjectKind → ObjectId → ObjectId;
  seal : ObjectKind → ObjectId → bytes → Res (ObjectId * bytes);
  open_ : ObjectKind → ObjectId → ObjectId → bytes → Res bytes;
}.

Definition CellSealer `{Blake3, KeyedBlake3, Aead} (keys : Keys) : Sealer :=
  {| sealer_remote_id := cell_remote_id keys; seal := cell_seal keys; open_ := cell_open keys |}.

(** What a sealer promises: a remote id of 32 bytes; what it sealed opens to the
    same bytes under the same names and carries the object magic; and whatever
    it opens is the object asked for, under the remote id it was sealed as. *)
Class SealerOk `{Blake3} `{Sealer} := {
  sealer_rid_len : ∀ k id, blen (sealer_remote_id k id) = 32;
  seal_open : ∀ k id b rid sealed, seal k id b = Ok (rid, sealed) →
    rid = sealer_remote_id k id ∧ object_id k b = id ∧ starts_with sealed OBJECT_MAGIC = true ∧
    open_ k id rid sealed = Ok b;
  open_sound : ∀ k id rid sealed b, open_ k id rid sealed = Ok b →
    rid = sealer_remote_id k id ∧ object_id k b = id;
}.

(** ** Properties *)

Section Theory.
Context `{Blake3Ok, KeyedBlake3Ok, AeadOk}.

Lemma kind_roundtrip k : kind_from_u8 (kind_to_u8 k) = Some k.
Proof. by destruct k. Qed.

(** A sealed object as its opener takes it apart. *)
Lemma sealed_fields magic nonce c :
  blen nonce = NONCE_LEN →
  let framed := magic ++ nonce ++ c in
  slice 0 (blen magic) framed = magic ∧ slice (blen magic) NONCE_LEN framed = nonce ∧
  drop (Z.to_nat (blen magic + NONCE_LEN)) framed = c ∧ blen framed = blen magic + NONCE_LEN + blen c.
Proof.
  intros Hn framed. subst framed. split_and!.
  - by apply (slice_head 0).
  - rewrite slice_skip by lia. apply slice_head; lia.
  - rewrite app_assoc, drop_app_ge.
    + replace (_ - _)%nat with 0%nat; [done |]. unfold blen, NONCE_LEN in *. rewrite length_app. lia.
    + unfold blen, NONCE_LEN in *. rewrite length_app. lia.
  - blia.
Qed.

Lemma open_seal_with c rid nonce id k b sealed :
  blen nonce = NONCE_LEN → object_id k b = id →
  seal_with c rid nonce id k b = Ok sealed → open_with c rid nonce id sealed = Ok (k, b).
Proof.
  unfold seal_with, open_with. intros Hn Hid Hs.
  destruct (aead_encrypt _ _ _ _) as [ct|] eqn:He; [| done]. cbn [with_context mbind Res_bind] in Hs.
  assert (sealed = OBJECT_MAGIC ++ nonce ++ ct) as -> by congruence. clear Hs.
  pose proof (aead_len _ _ _ _ _ He) as Hl. apply aead_open in He as Ho.
  destruct (sealed_fields OBJECT_MAGIC nonce ct Hn) as (-> & -> & -> & Hlen). rewrite Hlen, Ho.
  assert (blen id = 32) as Hidl by (rewrite <- Hid; apply object_id_len).
  rewrite blen_cons, blen_app in Hl. pose proof (blen_nonneg b).
  assert (slice 1 32 (kind_to_u8 k :: id ++ b) = id) as Hs1.
  { change (kind_to_u8 k :: id ++ b) with ([kind_to_u8 k] ++ id ++ b). rewrite slice_skip by done. by apply slice_head. }
  assert (drop 33 (kind_to_u8 k :: id ++ b) = b) as Hd.
  { cbn [drop]. unfold blen in Hidl. replace 32%nat with (length id) by lia. apply drop_app_length. }
  rewrite (proj2 (Z.leb_le (blen OBJECT_MAGIC + NONCE_LEN + 16) _)) by (rewrite Hl; lia).
  rewrite !bool_decide_true by done. cbn [ensure mbind Res_bind with_context].
  rewrite Hs1, Hd, (bool_decide_true (id = id)) by done. cbn [lookup list_lookup].
  rewrite blen_cons, blen_app, (proj2 (Z.leb_le 33 _)) by lia. cbn [ensure mbind Res_bind option_bind].
  rewrite kind_roundtrip. cbn [ensure mbind Res_bind with_context].
  by rewrite Hid, bool_decide_true.
Qed.

Lemma open_with_sound c rid nonce id framed k b :
  open_with c rid nonce id framed = Ok (k, b) → object_id k b = id.
Proof.
  unfold open_with. intros Ho. res_inv. by match goal with H : bool_decide (object_id _ _ = _) = true |- _ =>
    apply bool_decide_eq_true in H end.
Qed.

Lemma nonce_len keys k id : blen (scheme_nonce (scheme keys k id)) = NONCE_LEN.
Proof.
  unfold blen, NONCE_LEN. destruct k; cbn; unfold object_nonce, keyed_xof; by rewrite keyed_blake3_len.
Qed.

#[export] Instance CellSealer_ok keys : @SealerOk _ (CellSealer keys).
Proof.
  split; cbn [sealer_remote_id seal open_ CellSealer].
  - intros k id. unfold blen, cell_remote_id. destruct k; cbn; unfold remote_id, keyed, keyed_xof; by rewrite keyed_blake3_len.
  - intros k id b rid sealed Hs. unfold cell_seal in Hs. res_inv.
    match goal with H : bool_decide _ = true |- _ => apply bool_decide_eq_true in H as Hid end.
    split_and!; [done | done | |].
    + match goal with H : seal_with _ _ _ _ _ _ = Ok _ |- _ => unfold seal_with in H end. res_inv. by apply starts_with_spec; eexists.
    + unfold cell_open. rewrite bool_decide_true by done. cbn [ensure mbind Res_bind].
      erewrite open_seal_with; [| apply nonce_len | exact Hid | eassumption]. cbn. by rewrite bool_decide_true.
  - intros k id rid sealed b Ho. unfold cell_open in Ho. res_inv. destruct x0 as [opened b']. res_inv.
    repeat match goal with H : bool_decide _ = true |- _ => apply bool_decide_eq_true in H end. subst.
    split; [done |]. by eapply open_with_sound.
Qed.
(** C27 What a sealer sealed under an object's names opens to the same bytes, and
    nothing opens under those names but bytes that hash to the id asked for;
    bytes that do not hash to the id are not sealed. *)
Theorem cell_sealer_spec keys k id b :
  (∀ rid sealed, cell_seal keys k id b = Ok (rid, sealed) → cell_open keys k id rid sealed = Ok b) ∧
  (∀ rid sealed b', cell_open keys k id rid sealed = Ok b' → rid = cell_remote_id keys k id ∧ object_id k b' = id) ∧
  (object_id k b ≠ id → ∃ e, cell_seal keys k id b = Err e).
Proof.
  pose proof (CellSealer_ok keys) as Hok. split_and!.
  - intros rid sealed Hs. by apply (@seal_open _ (CellSealer keys) Hok k id b) in Hs as (_ & _ & _ & ?).
  - intros rid sealed b' Ho. by apply (@open_sound _ (CellSealer keys) Hok) in Ho.
  - intros Hne. unfold cell_seal. rewrite bool_decide_false by done. by eexists.
Qed.

(** Metadata and heads written under a context read back under it, whatever
    nonce was drawn. *)
Theorem metadata_roundtrip c nonce plaintext context framed :
  blen nonce = NONCE_LEN → encrypt_metadata c (Ok nonce) plaintext context = Ok framed →
  decrypt_metadata c framed context = Ok plaintext ∧
  (blen plaintext = 32 → decrypt_head c framed context = Ok plaintext).
Proof.
  intros Hn He. enough (decrypt_metadata c framed context = Ok plaintext) as Hd.
  { split; [done |]. intros Hl. unfold decrypt_head. rewrite Hd. cbn [mbind Res_bind]. by rewrite Hl. }
  revert He. unfold encrypt_metadata, decrypt_metadata.
  destruct (Z.leb_spec (blen plaintext) MAX_METADATA_LEN) as [Hm|]; [| done]. cbn [ensure mbind Res_bind].
  destruct (aead_encrypt _ _ _ _) as [ct|] eqn:E; [| done]. cbn [with_context mbind Res_bind]. intros Hf.
  assert (framed = HEAD_MAGIC ++ nonce ++ ct) as -> by congruence.
  pose proof (aead_len _ _ _ _ _ E) as Hl. apply aead_open in E as Ho.
  destruct (sealed_fields HEAD_MAGIC nonce ct Hn) as (-> & -> & -> & ->). pose proof (blen_nonneg plaintext).
  rewrite !(proj2 (Z.leb_le _ _)) by lia. rewrite bool_decide_true by done. cbn [ensure mbind Res_bind].
  by rewrite Ho.
Qed.
End Theory.

(** ** A concrete instance: no secrecy, the same framing *)

Definition toy_keyed : KeyedBlake3 := λ key input n, take n (toy_digest (key ++ input)) ++ replicate (n - 32) Byte.x00.
Lemma toy_keyed_ok : @KeyedBlake3Ok toy_keyed.
Proof.
  intros key input n. unfold keyed_blake3, toy_keyed. rewrite length_app, length_take, length_replicate.
  pose proof (toy_digest_len (key ++ input)) as Hl. unfold blen in Hl. lia.
Qed.
Definition toy_tag : bytes := replicate 16 Byte.xaa.
Definition toy_aead : Aead := {|
  aead_encrypt := λ _ _ _ m, Some (toy_tag ++ m);
  aead_decrypt := λ _ _ _ c, strip_prefix toy_tag c;
|}.
Lemma toy_aead_ok : @AeadOk toy_aead.
Proof.
  split; cbn [aead_encrypt aead_decrypt toy_aead].
  - intros _ _ _ m c Hc. assert (c = toy_tag ++ m) as -> by congruence. rewrite blen_app.
    change (blen toy_tag) with 16. lia.
  - intros _ _ _ m c Hc. assert (c = toy_tag ++ m) as -> by congruence. by apply strip_prefix_Some.
Qed.

Module CryptoExample.
#[local] Existing Instances toy_blake3 toy_blake3_ok toy_keyed toy_keyed_ok toy_aead toy_aead_ok.

Definition keys : Keys := mkKeys (replicate 32 Byte.x01) (replicate 32 Byte.x02).
Definition id1 : ObjectId := object_id Chunk (b_ "hello").
Definition sealed1 : bytes := match cell_seal keys Chunk id1 (b_ "hello") with Ok (_, s) => s | Err _ => [] end.

Lemma sealed1_run : cell_seal keys Chunk id1 (b_ "hello") = Ok (cell_remote_id keys Chunk id1, sealed1).
Proof. by vm_compute. Qed.

Lemma cell_sealer_spec_witness :
  cell_open keys Chunk id1 (cell_remote_id keys Chunk id1) sealed1 = Ok (b_ "hello").
Proof. exact (proj1 (cell_sealer_spec keys Chunk id1 (b_ "hello")) _ _ sealed1_run). Defined.

Definition nonce1 : bytes := replicate 24 Byte.x05.
Definition framed1 : bytes := HEAD_MAGIC ++ nonce1 ++ toy_tag ++ b_ "m".
Lemma metadata_roundtrip_witness : decrypt_metadata (mkCrypto []) framed1 (b_ "ctx") = Ok (b_ "m").
Proof.
  exact (proj1 (metadata_roundtrip (mkCrypto []) nonce1 (b_ "m") (b_ "ctx") framed1 eq_refl eq_refl)).
Defined.
End CryptoExample.
