(* ===== verification/Ledger.v ===== *)
(** * Ledger: the rids already published to a store ([exchange/ledger.rs])

    One rid per line, append-only. A ledger is the content of its file, an absent
    file reading as the empty one; [sync_all] and the directory sync have no
    effect visible here. *)

From S2P Require Import Prelude Model Concrete.
#[local] Open Scope Z_scope.

Definition NAME_LEN : Z := 16.

Definition is_lower_hex (b : Corelib.Init.Byte.byte) : bool :=
  let v := byte.unsigned b in (48 <=? v) && (v <=? 57) || (97 <=? v) && (v <=? 102).

(** Documented behaviour of the hex crate: two lower-case digits a byte, and
    decoding inverts encoding. *)
Class HexOk `{Hex} := {
  hex_len : ∀ b, blen (hex_encode b) = 2 * blen b;
  hex_lower : ∀ b, forallb is_lower_hex (hex_encode b) = true;
  hex_roundtrip : ∀ b, hex_decode (hex_encode b) = Some b;
  hex_canonical : ∀ t b, forallb is_lower_hex t = true → hex_decode t = Some b → hex_encode b = t;
}.

Definition newline : Corelib.Init.Byte.byte := Byte.x0a.
Definition carriage_return : Corelib.Init.Byte.byte := Byte.x0d.

(** [String::from_utf8] accepts a byte string. *)
Definition between (lo hi : Z) (b : Corelib.Init.Byte.byte) : bool :=
  (lo <=? byte.unsigned b) && (byte.unsigned b <=? hi).
Fixpoint is_utf8 (l : bytes) : bool :=
  match l with
  | [] => true
  | a :: l1 =>
    if between 0 127 a then is_utf8 l1
    else
      match l1 with
      | b :: l2 =>
        if between 194 223 a && between 128 191 b then is_utf8 l2
        else
          match l2 with
          | c :: l3 =>
            if ((between 224 224 a && between 160 191 b) || (between 225 236 a && between 128 191 b)
                || (between 237 237 a && between 128 159 b) || (between 238 239 a && between 128 191 b))
               && between 128 191 c then is_utf8 l3
            else
              match l3 with
              | d :: l4 =>
                if ((between 240 240 a && between 144 191 b) || (between 241 243 a && between 128 191 b)
                    || (between 244 244 a && between 128 143 b))
                   && between 128 191 c && between 128 191 d then is_utf8 l4
                else false
              | [] => false
              end
          | [] => false
          end
      | [] => false
      end
  end.

(** [str::lines]: the pieces before each newline, less one carriage return, and
    what follows the last newline if anything does. *)
Definition strip_cr (l : bytes) : bytes :=
  match last l with
  | Some x => if decide (x = carriage_return) then removelast l else l
  | None => l
  end.
Fixpoint pieces_lines (ps : list bytes) : list bytes :=
  match ps with
  | [] => []
  | [p] => if decide (p = []) then [] else [p]
  | p :: ps => strip_cr p :: pieces_lines ps
  end.
Definition lines (text : bytes) : list bytes := pieces_lines (split_on newline text).

Section Ledger.
Context `{Hex}.

Definition parse_rid (text : bytes) : option ObjectId :=
  if negb (blen text =? 64) || negb (forallb is_lower_hex text) then None
  else hex_decode text.

(** [Ledger::named]: the file's name in the data directory. *)
Definition named (name : bytes) : Res bytes :=
  _ ← ensure ((blen name =? NAME_LEN) && forallb is_lower_hex name) "ledger must be 16 lowercase hexadecimal characters";
  Ok (b_ "published." ++ name).

Definition recorded (content : bytes) : Res (gset ObjectId) :=
  _ ← ensure (is_utf8 content) "read ledger";
  Ok (list_to_set (omap parse_rid (lines content))).

(** What [append] writes. *)
Definition rid_lines (rids : list ObjectId) : bytes := concat (map (λ rid, id_hex rid ++ [newline]) rids).

Definition append (rids : list ObjectId) (content : bytes) : bytes :=
  match rids with [] => content | _ => content ++ rid_lines rids end.
End Ledger.

(** ** Theory *)

Section Theory.
Context `{HexOk}.

(** A ledger no append was interrupted on: lines of rids. *)
Definition rid_ok (rid : ObjectId) : Prop := blen rid = 32.
Definition clean (rids : list ObjectId) (content : bytes) : Prop :=
  content = rid_lines rids ∧ Forall rid_ok rids.

Lemma is_lower_hex_spec b : is_lower_hex b = true → between 0 127 b = true ∧ b ≠ newline ∧ b ≠ carriage_return.
Proof. by destruct b. Qed.

Lemma id_hex_chars rid : Forall (λ b, is_lower_hex b = true) (id_hex rid).
Proof. apply Forall_forall. intros b Hb. pose proof (hex_lower rid) as Hl. rewrite forallb_forall in Hl. by apply Hl, list_elem_of_In. Qed.

Lemma lower_no_newline l : Forall (λ b, is_lower_hex b = true) l → newline ∉ l.
Proof. rewrite Forall_forall. intros Hl Hin. by apply Hl, is_lower_hex_spec in Hin as (_ & ? & _). Qed.

Lemma strip_cr_lower l : Forall (λ b, is_lower_hex b = true) l → strip_cr l = l.
Proof.
  unfold strip_cr. destruct (last l) as [x|] eqn:E; [| done]. intros Hl.
  rewrite Forall_forall in Hl. apply last_Some_elem_of, Hl, is_lower_hex_spec in E as (_ & _ & ?).
  by rewrite decide_False.
Qed.

Lemma parse_rid_hex rid : rid_ok rid → parse_rid (id_hex rid) = Some rid.
Proof.
  intros Hr. unfold parse_rid. unfold id_hex. rewrite hex_len, Hr, hex_lower. cbn. apply hex_roundtrip.
Qed.
Lemma parse_rid_canonical t rid : parse_rid t = Some rid → t = id_hex rid ∧ rid_ok rid.
Proof.
  unfold parse_rid, rid_ok. destruct (Z.eqb_spec (blen t) 64) as [Hl|]; [| done].
  destruct (forallb is_lower_hex t) eqn:Ef; [| done]. cbn. intros Hd. pose proof (hex_canonical _ _ Ef Hd) as <-.
  split; [done |]. rewrite hex_len in Hl. lia.
Qed.

Lemma lines_cons p text : newline ∉ p → lines (p ++ newline :: text) = strip_cr p :: lines text.
Proof.
  intros Hp. unfold lines. rewrite split_on_app by done. cbn [pieces_lines].
  by destruct (split_on newline text) eqn:E; [by apply split_on_not_nil in E |].
Qed.
Lemma lines_last p : newline ∉ p → lines p = if decide (p = []) then [] else [p].
Proof. intros Hp. unfold lines. by rewrite split_on_piece. Qed.

Lemma lines_rid_lines rids tail :
  newline ∉ tail → lines (rid_lines rids ++ tail) = map id_hex rids ++ (if decide (tail = []) then [] else [tail]).
Proof.
  intros Ht. induction rids as [|rid rids IH]; [by apply lines_last |].
  unfold rid_lines. cbn [map concat]. rewrite <- !app_assoc. cbn [app].
  rewrite lines_cons by apply lower_no_newline, id_hex_chars. rewrite strip_cr_lower by apply id_hex_chars.
  f_equal. apply IH.
Qed.

Lemma ascii_utf8 l : Forall (λ b, between 0 127 b = true) l → is_utf8 l = true.
Proof. induction 1 as [|b l Hb _ IH]; [done |]. cbn [is_utf8]. by rewrite Hb. Qed.
Lemma lower_ascii l : Forall (λ b, is_lower_hex b = true) l → Forall (λ b, between 0 127 b = true) l.
Proof. intros Hl. eapply Forall_impl; [exact Hl |]. cbn. intros b Hb. by apply is_lower_hex_spec. Qed.
Lemma rid_lines_ascii rids : Forall (λ b, between 0 127 b = true) (rid_lines rids).
Proof.
  induction rids as [|rid rids IH]; [constructor |]. unfold rid_lines. cbn [map concat].
  rewrite !Forall_app. split_and!; [apply lower_ascii, id_hex_chars | by constructor | exact IH].
Qed.

Lemma omap_parse_hex rids : Forall rid_ok rids → omap parse_rid (map id_hex rids) = rids.
Proof.
  induction 1 as [|rid rids Hr _ IH]; [done |]. cbn [map]. unfold omap in *. cbn. rewrite (parse_rid_hex _ Hr). by f_equal.
Qed.

(** A prefix of the appended text: some whole lines and a torn one. *)
Lemma take_rid_lines n rids :
  Forall rid_ok rids →
  ∃ k tail, take n (rid_lines rids) = rid_lines (take k rids) ++ tail ∧ Forall (λ b, is_lower_hex b = true) tail ∧
    (tail = [] ∨ ∃ rid, rids !! k = Some rid ∧ tail `prefix_of` id_hex rid) ∧
    (length (rid_lines rids) ≤ n → tail = [] ∧ take k rids = rids)%nat.
Proof.
  intros Hr. revert n. induction Hr as [|rid rids Hrid Hr IH]; intros n.
  { exists 0%nat, []. split_and!; [by destruct n | constructor | by left | done]. }
  unfold rid_lines. cbn [map concat]. fold (rid_lines rids). rewrite <- app_assoc. cbn [app].
  destruct (decide (n ≤ length (id_hex rid))%nat) as [Hle|Hgt].
  - exists 0%nat, (take n (id_hex rid)). rewrite take_app_le by done. split_and!; [done | by apply Forall_take, id_hex_chars | |].
    + right. exists rid. split; [done |]. exists (drop n (id_hex rid)). by rewrite take_drop.
    + rewrite length_app. cbn. lia.
  - destruct (IH (n - S (length (id_hex rid)))%nat) as (k & tail & Heq & Hlow & Htail & Hall).
    exists (S k), tail. split_and!; [| done | done |].
    + rewrite take_app_ge by lia. destruct (n - length (id_hex rid))%nat as [|m] eqn:Em; [lia |].
      cbn [firstn]. replace m with (n - S (length (id_hex rid)))%nat by lia. cbn [take]. rewrite Heq.
      unfold rid_lines. cbn [take map concat]. by rewrite <- !app_assoc.
    + rewrite length_app. cbn [length]. intros Hn. destruct Hall as [-> Hk]; [lia |]. split; [done |]. cbn [take]. by rewrite Hk.
Qed.

(** C32 An append that a crash may cut at any byte: of a clean ledger the next
    reader sees what was there and the first rids of the append, all of them when
    the append completed, and never a rid that was not recorded. *)
Theorem append_torn old rids content n :
  clean old content → Forall rid_ok rids →
  ∃ k, recorded (content ++ take n (rid_lines rids)) = Ok (list_to_set (old ++ take k rids)) ∧
    ((length (rid_lines rids) ≤ n)%nat →
       take k rids = rids ∧ clean (old ++ rids) (content ++ take n (rid_lines rids)) ∧
       append rids content = content ++ take n (rid_lines rids)).
Proof.
  intros [-> Hold] Hr. destruct (take_rid_lines n rids Hr) as (k & tail & Heq & Hlow & Htail & Hall).
  assert (∀ l k, rid_lines l ++ rid_lines k = rid_lines (l ++ k)) as Happ.
  { intros l k'. unfold rid_lines. by rewrite map_app, concat_app. }
  assert (Forall rid_ok (old ++ take k rids)) as Hok by (apply Forall_app; split; [done | by apply Forall_take]).
  assert (∃ k', recorded (rid_lines old ++ take n (rid_lines rids)) = Ok (list_to_set (old ++ take k' rids)) ∧
    (tail = [] → k' = k)) as (k' & Hrec & Hk').
  { unfold recorded. rewrite ascii_utf8.
    2: { apply Forall_app. split; [apply rid_lines_ascii | apply Forall_take, rid_lines_ascii]. }
    cbn [ensure mbind Res_bind]. rewrite Heq, app_assoc, Happ, lines_rid_lines by by apply lower_no_newline.
    rewrite omap_app, omap_parse_hex by done. destruct (decide (tail = [])) as [->|Hne]; [by exists k; rewrite app_nil_r |].
    cbn. destruct (parse_rid tail) as [rid|] eqn:Ep; [| exists k; by rewrite app_nil_r].
    exists (S k). split; [| done]. apply parse_rid_canonical in Ep as [-> Hlen].
    destruct Htail as [?|(rid' & Hk & Hpre)]; [done |].
    rewrite (take_S_r _ _ _ Hk), app_assoc. do 3 f_equal.
    assert (id_hex rid = id_hex rid') as Hx.
    { destruct Hpre as [suf Hsuf]. pose proof (f_equal length Hsuf) as Hl. rewrite length_app in Hl.
      assert (rid_ok rid') as Hlen' by (rewrite Forall_forall in Hr; by eapply Hr, list_elem_of_lookup_2).
      pose proof (hex_len rid) as H1. pose proof (hex_len rid') as H2. unfold id_hex, rid_ok, blen in *.
      assert (suf = []) as -> by (apply nil_length_inv; lia). by rewrite app_nil_r in Hsuf. }
    pose proof (parse_rid_hex rid Hlen) as H1. rewrite Hx, parse_rid_hex in H1; [congruence |].
    rewrite Forall_forall in Hr. by eapply Hr, list_elem_of_lookup_2. }
  exists k'. split; [done |]. intros Hn. destruct (Hall Hn) as [-> Hk]. rewrite (Hk' eq_refl). split; [done |].
  rewrite take_ge by lia. split.
  - split; [by rewrite Happ | by apply Forall_app].
  - destruct rids; [by rewrite app_nil_r | done].
Qed.
End Theory.

(** ** The concrete hexadecimal codec has the documented behaviour *)

Lemma toy_hex_ok : @HexOk toy_hex.
Proof.
  assert (∀ z, 0 ≤ z < 16 → unnibble (nibble z) = Some z ∧ is_lower_hex (nibble z) = true) as Hn.
  { assert (forallb (λ z, bool_decide (unnibble (nibble z) = Some z) && is_lower_hex (nibble z)) (seqZ 0 16) = true) as Hall
      by by vm_compute.
    rewrite forallb_forall in Hall. intros z Hz.
    assert (In z (seqZ 0 16)) as Hin by (apply list_elem_of_In, elem_of_seqZ; lia).
    by apply Hall, andb_true_iff in Hin as [?%bool_decide_eq_true ?]. }
  assert (∀ b, is_lower_hex b = true → ∃ z, unnibble b = Some z ∧ 0 ≤ z < 16 ∧ nibble z = b) as Hu.
  { intros b. destruct b; intros Hb; try discriminate Hb; eexists; (split_and!; [vm_compute; reflexivity | by vm_compute | by vm_compute | by vm_compute]). }
  assert (∀ x, 0 ≤ byte.unsigned x / 16 < 16 ∧ 0 ≤ byte.unsigned x mod 16 < 16 ∧
            byte.of_Z (byte.unsigned x / 16 * 16 + byte.unsigned x mod 16) = x) as Hxy.
  { intros x. pose proof (byte.unsigned_range x). split_and!;
      [apply Z.div_pos; lia | apply Z.div_lt_upper_bound; lia | apply Z.mod_pos_bound; lia..|].
    rewrite (Z.mul_comm _ 16), <- Z.div_mod by lia. apply byte.of_Z_unsigned. }
  split; cbn [hex_encode hex_decode toy_hex].
  - induction b as [|x b IH]; [done |]. cbn [toy_hex_encode]. rewrite !blen_cons, IH. lia.
  - induction b as [|x b IH]; [done |]. cbn [toy_hex_encode forallb]. destruct (Hxy x) as (Hhi & Hlo & _).
    by rewrite (proj2 (Hn _ Hhi)), (proj2 (Hn _ Hlo)).
  - induction b as [|x b IH]; [done |]. cbn [toy_hex_encode toy_hex_decode]. destruct (Hxy x) as (Hhi & Hlo & Hx).
    rewrite (proj1 (Hn _ Hhi)), (proj1 (Hn _ Hlo)).
    cbn [mbind option_bind]. rewrite IH. cbn [mbind option_bind]. by rewrite Hx.
  - intros t. remember (length t) as n eqn:Hl. revert t Hl. induction n as [n IH] using lt_wf_ind.
    intros [|x [|y t]] Hl b; cbn [toy_hex_decode forallb]; [by intros _ [= <-] | done |].
    intros [Hx [Hy Ht]%andb_true_iff]%andb_true_iff.
    destruct (Hu x Hx) as (hi & Hhi & Hhr & <-). destruct (Hu y Hy) as (lo & Hlo & Hlr & <-). rewrite Hhi, Hlo.
    cbn [mbind option_bind]. destruct (toy_hex_decode t) as [r|] eqn:Er; [| done]. cbn [mbind option_bind]. intros [= <-].
    cbn [toy_hex_encode]. rewrite byte.unsigned_of_Z. unfold byte.wrap. rewrite Z.mod_small by lia.
    rewrite Z.div_add_l, Z.div_small, Z.add_0_r by lia. rewrite (Z.add_comm (hi * 16)), Z.mod_add, Z.mod_small by lia.
    do 2 f_equal. eapply IH; [| reflexivity | done | done]. cbn in Hl. lia.
Qed.

Module LedgerExample.
#[local] Existing Instances toy_hex toy_hex_ok.
Definition rid1 : ObjectId := replicate 32 Byte.x01.
Definition rid2 : ObjectId := replicate 32 Byte.x02.

(** A crash in the middle of the second line. *)
Lemma append_torn_witness :
  ∃ k, recorded ([] ++ take 100 (rid_lines [rid1; rid2])) = Ok (list_to_set ([] ++ take k [rid1; rid2])).
Proof.
  destruct (append_torn [] [rid1; rid2] [] 100 ltac:(split; [done | constructor]) ltac:(by repeat constructor))
    as (k & Hk & _).
  exists k. exact Hk.
Defined.

(** Two crashes in a row: the halves of two lines read as one rid that was
    never sent. *)
Example torn_twice :
  omap parse_rid (lines (take 20 (rid_lines [rid1]) ++ take 44 (rid_lines [rid2]))) =
  [replicate 10 Byte.x01 ++ replicate 22 Byte.x02].
Proof. by vm_compute. Qed.
End LedgerExample.
