(* ===== verification/Frame.v ===== *)
(** * Frame: sealed objects packed for transport ([exchange/frame.rs])

    A frame is the magic, the length of a JSON header, the header naming every
    object, and the objects one after another. SHA-256 and serde_json are
    parameters; integers of the header are unsigned ([N]). *)

From S2P Require Import Prelude Model Concrete Ledger.
#[local] Open Scope Z_scope.

Class Sha256 := sha256 : bytes → bytes.

Definition MAGIC : bytes := b_ "AGEF" ++ [Byte.x01].
Definition OBJECT_MAGIC : bytes := b_ "AGEO" ++ [Byte.x01].
Definition VERSION : N := 1.
Definition MAX_HEADER : Z := Z.shiftl 1 20.
Definition MAX_FRAME : Z := Z.shiftl 16 20.

Record ObjectRef := mkRef { ref_rid : bytes; ref_off : N; ref_len : N }.
Record Header := mkHeader { version : N; cell_key_id_ : bytes; header_objects : list ObjectRef }.

Record Sealed := mkSealed { sealed_rid : ObjectId; sealed_bytes : bytes }.
Record Frame := mkFrame { frame_bytes : bytes; frame_rids : list ObjectId }.

Record Pending := mkPending {
  key_id : bytes;
  max_frame : Z;
  header_len : Z;
  refs : list ObjectRef;
  rids : list ObjectId;
  payload : bytes;
}.

Section Frame.
Context `{Blake3, Sha256, Hex, Json ObjectRef, Json Header}.

Definition file_name (f : Frame) : bytes := hex_encode (blake3 (frame_bytes f)) ++ b_ ".agef".

Definition cell_key_id (cell_key : bytes) : bytes := hex_encode (take 16 (sha256 cell_key)).

Definition encoded_len {A} `{Json A} (value : A) : Z := blen (to_vec value).

Definition Pending_new (key_id : bytes) (max_frame : Z) : Pending :=
  mkPending key_id max_frame (encoded_len (mkHeader VERSION key_id [])) [] [] [].

Definition is_empty (p : Pending) : bool := match refs p with [] => true | _ => false end.

(** [len as u32], [payload.len() as u64]. *)
Definition reference (p : Pending) (rid : ObjectId) (len : Z) : ObjectRef :=
  mkRef (id_hex rid) (Z.to_N (blen (payload p))) (Z.to_N (len mod 2 ^ 32)).

Definition fits (p : Pending) (rid : ObjectId) (len : Z) : bool :=
  if is_empty p then true
  else
    let comma := 1 in
    let entry := encoded_len (reference p rid len) in
    let grown := blen MAGIC + 4 + header_len p + comma + entry + blen (payload p) + len in
    grown <=? max_frame p.

Definition push (p : Pending) (rid : ObjectId) (sealed : bytes) : Pending :=
  let entry := reference p rid (blen sealed) in
  mkPending (key_id p) (max_frame p)
    (header_len p + encoded_len entry + (if is_empty p then 0 else 1))
    (refs p ++ [entry]) (rids p ++ [rid]) (payload p ++ sealed).

Definition finish (p : Pending) : Res Frame :=
  let header := to_vec (mkHeader VERSION (key_id p) (refs p)) in
  _ ← ensure (blen header <=? MAX_HEADER) "frame header is too large";
  Ok (mkFrame (MAGIC ++ to_le 4 (blen header) ++ header ++ payload p) (rids p)).

(** The loop of [pack]: the iterator hands out objects one by one, [emit] acts
    on the caller's state. *)
Section Pack.
Context {S : Type} (emit : Frame → M S ()) (key : bytes) (max : Z).
Fixpoint pack_loop (pending : Pending) (objects : list (Res (ObjectId * bytes))) : M S () :=
  match objects with
  | [] => if negb (is_empty pending) then f ← lift (finish pending); emit f else mret ()
  | object :: objects =>
    '(rid, sealed) ← lift object;
    pending ← (if negb (fits pending rid (blen sealed))
               then f ← lift (finish pending); _ ← emit f; mret (Pending_new key max)
               else mret pending);
    pack_loop (push pending rid sealed) objects
  end.
Definition pack (objects : list (Res (ObjectId * bytes))) : M S () := pack_loop (Pending_new key max) objects.
End Pack.

Definition is_key_id (text : bytes) : bool := (blen text =? 32) && forallb is_lower_hex text.

(** The loop of [objects_of]: rids seen, the next offset and the objects so far. *)
Fixpoint objects_loop (refs : list ObjectRef) (payload : bytes) (seen : gset ObjectId) (expected : Z)
    (objects : list Sealed) : Res (list Sealed * Z) :=
  match refs with
  | [] => Ok (objects, expected)
  | entry :: refs =>
    _ ← ensure (Z.of_N (ref_off entry) =? expected) "frame objects are not contiguous";
    rid ← with_context (parse_rid (ref_rid entry)) "frame holds a malformed rid";
    _ ← ensure (bool_decide (rid ∉ seen)) "frame repeats rid";
    let end_ := expected + Z.of_N (ref_len entry) in
    b ← with_context (read_exact payload expected (end_ - expected)) "frame objects overrun the payload";
    _ ← ensure (starts_with b OBJECT_MAGIC) "frame object is not sealed";
    objects_loop refs payload ({[rid]} ∪ seen) end_ (objects ++ [mkSealed rid b])
  end.
Definition objects_of (refs : list ObjectRef) (payload : bytes) : Res (list Sealed) :=
  _ ← ensure (negb (match refs with [] => true | _ => false end)) "frame holds no objects";
  '(objects, expected) ← objects_loop refs payload ∅ 0 [];
  _ ← ensure (expected =? blen payload) "frame payload has trailing bytes";
  Ok objects.

(** [split_at_checked] *)
Definition split_at_checked (n : Z) (l : bytes) : option (bytes * bytes) :=
  if n <=? blen l then Some (take (Z.to_nat n) l, drop (Z.to_nat n) l) else None.

Definition decode (frame : bytes) : Res (bytes * list Sealed) :=
  _ ← ensure (blen frame <=? MAX_FRAME) "frame is larger than the store allows";
  _ ← ensure (starts_with frame MAGIC) "not a frame: bad magic";
  let rest := drop (length MAGIC) frame in
  '(length, rest) ← with_context (split_at_checked 4 rest) "frame is truncated";
  let header_len := from_le length in
  _ ← ensure (header_len <=? MAX_HEADER) "frame header is too large";
  '(header, payload) ← with_context (split_at_checked header_len rest) "frame is truncated";
  header ← with_context (from_slice header) "frame header";
  _ ← ensure (bool_decide (version header = VERSION)) "unsupported frame version";
  _ ← ensure (is_key_id (cell_key_id_ header)) "frame cell_key_id is malformed";
  objects ← objects_of (header_objects header) payload;
  Ok (cell_key_id_ header, objects).
End Frame.
