(* ===== verification/FrameTheory.v ===== *)
(** * FrameTheory: packing and decoding are inverse

    [pack] splits a sequence of sealed objects into frames that decode to
    exactly that sequence, within the size asked for, and [decode] accepts only
    frames laid out as the format says. *)

From S2P Require Import Prelude Model Concrete Ledger Frame.
#[local] Open Scope Z_scope.

(** serde_json writes a sequence as its items with commas between them. *)
Definition total `{Json ObjectRef} (rs : list ObjectRef) : Z := foldr (λ r n, encoded_len r + n) 0 rs.
Class HeaderLaw `{Json ObjectRef, Json Header} := header_additive : ∀ key rs,
  encoded_len (mkHeader VERSION key rs) =
  encoded_len (mkHeader VERSION key []) + total rs + Z.max 0 (Z.of_nat (length rs) - 1).

Section Theory.
#[local] Set Default Proof Using "All".
Context `{Blake3, Sha256, HexOk, JR : Json ObjectRef, JH : Json Header, !JsonOk Header}.

(** A sealed object under its rid. *)
Abbreviation Item := (ObjectId * bytes)%type.
Definition item_ok (o : Item) : Prop :=
  rid_ok o.1 ∧ blen o.2 < 2 ^ 32 ∧ starts_with o.2 OBJECT_MAGIC = true.
Definition to_sealed (o : Item) : Sealed := mkSealed o.1 o.2.
Definition bodies (g : list Item) : bytes := concat (map snd g).

(** The references to objects laid out from an offset. *)
Fixpoint refs_at (off : Z) (g : list Item) : list ObjectRef :=
  match g with
  | [] => []
  | (rid, b) :: g => mkRef (id_hex rid) (Z.to_N off) (Z.to_N (blen b mod 2 ^ 32)) :: refs_at (off + blen b) g
  end.

Definition pend (key : bytes) (max : Z) (g : list Item) : Pending :=
  foldl (λ p '(rid, b), Frame.push p rid b) (Pending_new key max) g.
Definition frame_of (key : bytes) (max : Z) (g : list Item) : Res Frame := finish (pend key max g).

Lemma pend_snoc key max g rid b : pend key max (g ++ [(rid, b)]) = Frame.push (pend key max g) rid b.
Proof. unfold pend. by rewrite foldl_app. Qed.

Lemma bodies_snoc g o : bodies (g ++ [o]) = bodies g ++ o.2.
Proof. unfold bodies. rewrite map_app, concat_app. cbn. by rewrite app_nil_r. Qed.
Lemma refs_at_app off g h : refs_at off (g ++ h) = refs_at off g ++ refs_at (off + blen (bodies g)) h.
Proof.
  revert off. induction g as [|[r c] g IH]; intros off.
  - cbn [app refs_at]. change (blen (bodies [])) with 0. by rewrite Z.add_0_r.
  - cbn [app refs_at]. rewrite IH. change (bodies ((r, c) :: g)) with (c ++ bodies g). by rewrite blen_app, Z.add_assoc.
Qed.
Lemma length_refs_at off g : length (refs_at off g) = length g.
Proof. revert off. induction g as [|[r c] g IH]; intros off; [done |]. cbn. by rewrite IH. Qed.
Lemma total_app l k : total (l ++ k) = total l + total k.
Proof. induction l as [|r l IH]; [done |]. cbn [app]. unfold total in *. cbn [foldr]. lia. Qed.
Lemma total_nonneg l : 0 ≤ total l.
Proof. induction l as [|r l IH]; [done |]. unfold total, encoded_len in *. cbn [foldr]. blia. Qed.

(** The fields of an open frame. *)
Lemma pend_fields key max g :
  let p := pend key max g in
  key_id p = key ∧ max_frame p = max ∧ refs p = refs_at 0 g ∧ rids p = map fst g ∧ payload p = bodies g ∧
  header_len p = encoded_len (mkHeader VERSION key []) + total (refs_at 0 g) + Z.max 0 (Z.of_nat (length g) - 1).
Proof.
  cbv zeta. induction g as [|[rid b] g IH] using rev_ind; [cbn; split_and!; try done; lia |].
  destruct IH as (Hk & Hm & Hr & Hi & Hp & Hh). rewrite pend_snoc, refs_at_app. unfold Frame.push, reference.
  assert (is_empty (pend key max g) = match g with [] => true | _ => false end) as He.
  { unfold is_empty. rewrite Hr. by destruct g as [|[??] ?]. }
  cbn [key_id max_frame refs rids payload header_len refs_at]. rewrite Hk, Hm, Hr, Hi, Hp, Hh, Z.add_0_l. split_and!; try done.
  - by rewrite map_app.
  - by rewrite bodies_snoc.
  - rewrite He, total_app, length_app. cbn [length]. unfold total at 3. cbn [foldr]. destruct g as [|o g]; cbn [length]; lia.
Qed.
Lemma pend_is_empty key max g : is_empty (pend key max g) = match g with [] => true | _ => false end.
Proof.
  destruct (pend_fields key max g) as (_ & _ & Hr & _). unfold is_empty. rewrite Hr. by destruct g as [|[??] ?].
Qed.

(** How [pack] groups the objects that follow an open frame. *)
Fixpoint groups (key : bytes) (max : Z) (g objs : list Item) : list (list Item) :=
  match objs with
  | [] => match g with [] => [] | _ => [g] end
  | (rid, b) :: objs =>
    if fits (pend key max g) rid (blen b) then groups key max (g ++ [(rid, b)]) objs
    else g :: groups key max [(rid, b)] objs
  end.

Lemma pack_groups {S} (emit : Frame → M S ()) key max g objs s :
  pack_loop emit key max (pend key max g) (map Ok objs) s =
  mfor (groups key max g objs) (λ g, f ← lift (frame_of key max g); emit f) s.
Proof.
  revert g s. induction objs as [|[rid b] objs IH]; intros g s; cbn [map pack_loop groups].
  - rewrite pend_is_empty. destruct g as [|o g]; [done |]. cbn [negb mfor]. rewrite M_bind_assoc.
    apply M_bind_ext. intros f s'. unfold mbind, M_bind. by destruct (emit f s') as [[[]|e] s''].
  - mpure. destruct (fits (pend key max g) rid (blen b)); cbn [negb].
    + mpure. by rewrite <- pend_snoc, IH.
    + cbn [mfor]. rewrite !M_bind_assoc. apply M_bind_ext. intros f s'. rewrite M_bind_assoc.
      apply M_bind_ext. intros [] s''. mpure. apply (IH [(rid, b)]).
Qed.

Lemma groups_concat key max g objs : concat (groups key max g objs) = g ++ objs.
Proof.
  revert g. induction objs as [|[rid b] objs IH]; intros g; cbn [groups].
  - destruct g; [done |]. cbn. by rewrite !app_nil_r.
  - destruct (fits _ _ _).
    + by rewrite IH, <- app_assoc.
    + cbn [concat]. by rewrite IH.
Qed.

(** The size of a frame, and frames within bounds or with one object. *)
Definition size (key : bytes) (g : list Item) : Z :=
  blen MAGIC + 4 + encoded_len (mkHeader VERSION key (refs_at 0 g)) + blen (bodies g).
Definition small (key : bytes) (max : Z) (g : list Item) : Prop := size key g ≤ max ∨ length g = 1%nat.

Lemma size_app `{!HeaderLaw} key g h : size key g ≤ size key (g ++ h).
Proof.
  unfold size. rewrite (header_additive key (refs_at 0 g)), (header_additive key (refs_at 0 (g ++ h))), refs_at_app, total_app, length_app, !length_refs_at.
  unfold bodies. rewrite map_app, concat_app, blen_app.
  pose proof (total_nonneg (refs_at (0 + blen (concat (map snd g))) h)). pose proof (blen_nonneg (concat (map snd h))). lia.
Qed.

Lemma fits_iff `{!HeaderLaw} key max g rid b :
  g ≠ [] → fits (pend key max g) rid (blen b) = true ↔ size key (g ++ [(rid, b)]) ≤ max.
Proof.
  intros Hg. unfold fits. rewrite pend_is_empty. destruct g as [|o g]; [done |].
  destruct (pend_fields key max (o :: g)) as (_ & Hm & _ & _ & Hp & Hh). unfold reference. rewrite Hm, Hp, Hh.
  rewrite Z.leb_le. unfold size. rewrite (header_additive key (refs_at 0 (_ ++ _))), refs_at_app, bodies_snoc, total_app, Z.add_0_l.
  rewrite length_app, length_refs_at, blen_app. cbn [refs_at length snd]. unfold total at 3. cbn [foldr]. lia.
Qed.

Lemma groups_ok `{!HeaderLaw} key max g objs :
  (g ≠ [] → small key max g) → Forall (λ g, g ≠ [] ∧ small key max g) (groups key max g objs).
Proof.
  revert g. induction objs as [|[rid b] objs IH]; intros g Hg; cbn [groups].
  - destruct g as [|o g]; [constructor |]. constructor; [by split; [| apply Hg] | constructor].
  - destruct (fits _ _ _) eqn:Ef.
    + apply IH. intros _. destruct (decide (g = [])) as [->|Hne]; [by right | left; by apply fits_iff in Ef].
    + constructor.
      * assert (g ≠ []) as Hne. { intros ->. unfold fits in Ef. by rewrite pend_is_empty in Ef. }
        split; [done | by apply Hg].
      * apply IH. intros _. by right.
Qed.

(** ** Decoding *)

Lemma objects_loop_spec pre g post seen objects :
  Forall item_ok g → NoDup (map fst g) → (∀ o, o ∈ g → o.1 ∉ seen) →
  objects_loop (refs_at (blen pre) g) (pre ++ bodies g ++ post) seen (blen pre) objects =
  Ok (objects ++ map to_sealed g, blen pre + blen (bodies g)).
Proof.
  intros Hok. revert pre seen objects. induction Hok as [|[rid b] g [Hrid [Hb Hmagic]] Hok IH]; intros pre seen objects Hnd Hseen.
  { cbn. rewrite app_nil_r. do 2 f_equal. change (blen []) with 0. lia. }
  cbn [fst snd] in *. cbn [map fst] in Hnd. apply NoDup_cons in Hnd as [Hni Hnd].
  cbn [refs_at objects_loop ref_off ref_rid ref_len]. pose proof (blen_nonneg pre). pose proof (blen_nonneg b).
  rewrite !Z2N.id, Z.eqb_refl by (try apply Z.mod_pos_bound; lia). rewrite Z.mod_small by lia. cbn [ensure mbind Res_bind].
  rewrite parse_rid_hex by done. cbn [with_context mbind Res_bind].
  rewrite bool_decide_true by (by apply (Hseen (rid, b)); left). cbn [ensure mbind Res_bind].
  replace (blen pre + blen b - blen pre) with (blen b) by lia. change (bodies ((rid, b) :: g)) with (b ++ bodies g).
  rewrite <- app_assoc, read_exact_app. cbn [with_context mbind Res_bind]. rewrite Hmagic. cbn [ensure mbind Res_bind].
  specialize (IH (pre ++ b) ({[rid]} ∪ seen) (objects ++ [mkSealed rid b]) Hnd).
  rewrite blen_app, <- app_assoc in IH. rewrite IH.
  - rewrite <- app_assoc. cbn [app map]. do 2 f_equal. unfold to_sealed. cbn. rewrite blen_app. lia.
  - intros o Ho. rewrite not_elem_of_union, not_elem_of_singleton. split.
    + intros Heq. apply Hni. rewrite <- Heq. by apply (list_elem_of_fmap_2 fst).
    + apply Hseen. by right.
Qed.

Lemma objects_of_spec g :
  g ≠ [] → Forall item_ok g → NoDup (map fst g) → objects_of (refs_at 0 g) (bodies g) = Ok (map to_sealed g).
Proof.
  intros Hne Hok Hnd. unfold objects_of. destruct g as [|[rid b] g]; [done |]. cbn [refs_at negb ensure mbind Res_bind].
  pose proof (objects_loop_spec [] ((rid, b) :: g) [] ∅ [] Hok Hnd ltac:(set_solver)) as Hl.
  rewrite app_nil_l, app_nil_r in Hl. change (blen []) with 0 in Hl. cbn [refs_at] in Hl. rewrite Hl.
  cbn [mbind Res_bind]. by rewrite Z.add_0_l, Z.eqb_refl.
Qed.

(** The parts of a frame. *)
Lemma decode_layout header rest :
  blen header ≤ MAX_HEADER →
  let framed := MAGIC ++ to_le 4 (blen header) ++ header ++ rest in
  starts_with framed MAGIC = true ∧
  split_at_checked 4 (drop (length MAGIC) framed) = Some (to_le 4 (blen header), header ++ rest) ∧
  from_le (to_le 4 (blen header)) = blen header ∧
  split_at_checked (blen header) (header ++ rest) = Some (header, rest).
Proof.
  intros Hh framed. subst framed. pose proof (blen_nonneg header). pose proof (blen_nonneg rest). split_and!.
  - apply starts_with_spec. eauto.
  - rewrite drop_app_length. unfold split_at_checked. rewrite (proj2 (Z.leb_le _ _)) by blia.
    assert (length (to_le 4 (blen header)) = 4%nat) as Hl by apply length_le_split.
    change (Z.to_nat 4) with 4%nat. rewrite <- Hl at 1 3. by rewrite take_app_length, drop_app_length.
  - apply from_to_le. unfold MAX_HEADER in Hh. change (Z.shiftl 1 20) with (2 ^ 20) in Hh. lia.
  - unfold split_at_checked. rewrite (proj2 (Z.leb_le _ _)) by blia. unfold blen. rewrite Nat2Z.id.
    by rewrite take_app_length, drop_app_length.
Qed.

Lemma decode_frame_of key max g f :
  is_key_id key = true → g ≠ [] → Forall item_ok g → NoDup (map fst g) →
  frame_of key max g = Ok f → blen (frame_bytes f) ≤ MAX_FRAME →
  decode (frame_bytes f) = Ok (key, map to_sealed g).
Proof.
  intros Hkey Hne Hok Hnd Hf Hmax. destruct (pend_fields key max g) as (Hk & _ & Hr & _ & Hp & _).
  unfold frame_of, finish in Hf. rewrite Hk, Hr, Hp in Hf.
  set (header := to_vec (mkHeader VERSION key (refs_at 0 g))) in Hf.
  destruct (Z.leb_spec (blen header) MAX_HEADER) as [Hh|]; [| done]. cbn [ensure mbind Res_bind] in Hf.
  assert (frame_bytes f = MAGIC ++ to_le 4 (blen header) ++ header ++ bodies g) as Hb by (by injection Hf as <-).
  rewrite Hb in *. clear Hf Hb. unfold decode. rewrite (proj2 (Z.leb_le _ _)) by done.
  destruct (decode_layout header (bodies g) Hh) as (-> & -> & Hle & Hsp). cbn [ensure mbind Res_bind with_context].
  rewrite Hle, (proj2 (Z.leb_le _ _)) by done. cbn [ensure mbind Res_bind with_context]. rewrite Hsp.
  cbn [ensure mbind Res_bind with_context]. subst header. rewrite from_to. cbn [with_context mbind Res_bind version cell_key_id_ header_objects].
  rewrite bool_decide_true, Hkey by done. cbn [ensure mbind Res_bind]. by rewrite objects_of_spec.
Qed.

(** C30 Packing: the frames hold the objects in order, each frame is within the
    size asked for or holds a single object, and every frame a store can take
    decodes to its objects. Nothing else is emitted, whatever [emit] does. *)
Theorem pack_spec `{!HeaderLaw} key max objs :
  is_key_id key = true → Forall item_ok objs → NoDup (map fst objs) →
  ∃ gs, concat gs = objs ∧
    (∀ S (emit : Frame → M S ()) s,
       pack emit key max (map Ok objs) s = mfor gs (λ g, f ← lift (frame_of key max g); emit f) s) ∧
    ∀ g f, g ∈ gs → frame_of key max g = Ok f →
      g ≠ [] ∧ frame_rids f = map fst g ∧ (blen (frame_bytes f) ≤ max ∨ length g = 1%nat) ∧
      (blen (frame_bytes f) ≤ MAX_FRAME → decode (frame_bytes f) = Ok (key, map to_sealed g)).
Proof.
  intros Hkey Hok Hnd. exists (groups key max [] objs). split; [apply (groups_concat _ _ [])|]. split.
  { intros S emit s. apply (pack_groups emit key max []). }
  intros g f Hg Hf. pose proof (groups_ok key max [] objs ltac:(done)) as Hgs. rewrite Forall_forall in Hgs.
  destruct (Hgs g Hg) as [Hne Hsmall].
  assert (∃ l1 l2, objs = l1 ++ g ++ l2) as (l1 & l2 & Heq).
  { pose proof (groups_concat key max [] objs) as Hc. apply list_elem_of_split in Hg as (g1 & g2 & Hg). rewrite Hg in Hc.
    rewrite concat_app in Hc. cbn in Hc. eauto. }
  assert (Forall item_ok g ∧ NoDup (map fst g)) as [Hokg Hndg].
  { subst objs. apply Forall_app in Hok as [_ [Hok _]%Forall_app]. rewrite !map_app in Hnd.
    apply NoDup_app in Hnd as (_ & _ & (Hnd & _ & _)%NoDup_app). done. }
  split; [done |]. destruct (pend_fields key max g) as (Hk & _ & Hr & Hi & Hp & _). split_and!.
  - unfold frame_of, finish in Hf. destruct (ensure _ _); [| done]. injection Hf as <-. exact Hi.
  - destruct Hsmall as [Hs|]; [left | by right]. unfold frame_of, finish in Hf. rewrite Hk, Hr, Hp in Hf.
    destruct (ensure _ _); [| done]. assert (frame_bytes f = MAGIC ++ to_le 4 (blen (to_vec (mkHeader VERSION key (refs_at 0 g)))) ++
      to_vec (mkHeader VERSION key (refs_at 0 g)) ++ bodies g) as -> by (by injection Hf as <-).
    unfold size, encoded_len in Hs. blia.
  - intros Hmax. by apply (decode_frame_of key max).
Qed.

Lemma groups_all_fit `{!HeaderLaw} key max g objs :
  g ≠ [] → size key (g ++ objs) ≤ max → groups key max g objs = [g ++ objs].
Proof.
  revert g. induction objs as [|[rid b] objs IH]; intros g Hg Hle; cbn [groups].
  - rewrite app_nil_r. by destruct g.
  - rewrite (app_assoc g [_] objs : g ++ (rid, b) :: objs = _) in Hle |- *.
    rewrite (proj2 (fits_iff key max g rid b Hg)); [| etrans; [apply size_app | exact Hle]].
    apply IH; [by destruct g | done].
Qed.

(** The size [pack] keeps frames to does not bound the header: objects that
    fit one frame but whose references need more than a megabyte of header make
    packing fail before anything is emitted. *)
Theorem pack_header_overflow `{!HeaderLaw} key max objs :
  objs ≠ [] → size key objs ≤ max → MAX_HEADER < encoded_len (mkHeader VERSION key (refs_at 0 objs)) →
  ∀ S (emit : Frame → M S ()) s, pack emit key max (map Ok objs) s = (Err "frame header is too large", s).
Proof.
  intros Hne Hsize Hbig S emit s. unfold pack. change (Pending_new key max) with (pend key max []). rewrite pack_groups.
  assert (groups key max [] objs = [objs]) as ->.
  { destruct objs as [|[rid b] objs]; [done |]. cbn [groups]. change (fits (pend key max []) rid (blen b)) with true. cbn [app].
    by rewrite groups_all_fit. }
  cbn [mfor]. destruct (pend_fields key max objs) as (Hk & _ & Hr & _). unfold frame_of, finish.
  rewrite Hk, Hr. destruct (Z.leb_spec (blen (to_vec (mkHeader VERSION key (refs_at 0 objs)))) MAX_HEADER); [| done].
  unfold encoded_len in Hbig. lia.
Qed.

Lemma read_exact_split pre post n b :
  0 ≤ n → read_exact (pre ++ post) (blen pre) n = Some b → ∃ post', post = b ++ post' ∧ blen b = n.
Proof.
  intros Hn Hr. pose proof (blen_nonneg pre). apply read_exact_Some in Hr as (Hl & Hle & Hb); [| lia | lia].
  exists (drop (Z.to_nat n) post). split; [| done]. rewrite Hb. unfold slice. unfold blen at 1. rewrite Nat2Z.id, drop_app_length.
  by rewrite take_drop.
Qed.

Lemma objects_loop_sound rs pre post seen objects objects' end_ :
  objects_loop rs (pre ++ post) seen (blen pre) objects = Ok (objects', end_) →
  ∃ new post', objects' = objects ++ new ∧ post = concat (map sealed_bytes new) ++ post' ∧
    end_ = blen pre + blen (concat (map sealed_bytes new)) ∧
    NoDup (map sealed_rid new) ∧ map ref_rid rs = map (λ o, id_hex (sealed_rid o)) new ∧
    ∀ o, o ∈ new → sealed_rid o ∉ seen ∧ rid_ok (sealed_rid o) ∧ starts_with (sealed_bytes o) OBJECT_MAGIC = true.
Proof.
  revert pre post seen objects. induction rs as [|r rs IH]; intros pre post seen objects; cbn [objects_loop].
  { intros [= <- <-]. exists [], post. rewrite app_nil_r. split_and!; try done; [symmetry; apply Z.add_0_r | constructor |].
    by intros o ?%not_elem_of_nil. }
  destruct (Z.eqb_spec (Z.of_N (ref_off r)) (blen pre)) as [Hoff|]; [| done]. cbn [ensure mbind Res_bind].
  destruct (parse_rid (ref_rid r)) as [rid|] eqn:Ep; [| done]. cbn [with_context mbind Res_bind].
  destruct (bool_decide_reflect (rid ∉ seen)) as [Hni|]; [| done]. cbn [ensure mbind Res_bind].
  destruct (read_exact _ _ _) as [b|] eqn:Er; [| done]. cbn [with_context mbind Res_bind].
  destruct (starts_with b OBJECT_MAGIC) eqn:Em; [| done]. cbn [ensure mbind Res_bind].
  apply read_exact_split in Er as (post' & -> & Hl); [| lia]. intros Hrun.
  assert (blen pre + Z.of_N (ref_len r) = blen (pre ++ b)) as He by blia. rewrite He, app_assoc in Hrun.
  apply IH in Hrun as (new & post'' & -> & -> & -> & Hnd & Hrids & Hall).
  apply parse_rid_canonical in Ep as [Hrid Hok].
  exists (mkSealed rid b :: new), post''. cbn [map concat sealed_bytes sealed_rid]. split_and!.
  - by rewrite <- app_assoc.
  - by rewrite <- app_assoc.
  - blia.
  - constructor; [| done]. intros (o & Ho & Hin)%list_elem_of_fmap. apply Hall in Hin as (Hns & _).
    apply Hns. rewrite <- Ho. set_solver.
  - by rewrite Hrids, Hrid.
  - intros o [->|Ho]%elem_of_cons; [done |]. apply Hall in Ho as (Hns & ? & ?). set_solver.
Qed.

Lemma split_at_checked_Some n l a b : 0 ≤ n → split_at_checked n l = Some (a, b) → l = a ++ b ∧ blen a = n.
Proof.
  unfold split_at_checked. intros Hn. destruct (Z.leb_spec n (blen l)) as [Hle|]; [| done]. intros [= <- <-].
  rewrite take_drop. split; [done | by apply blen_take].
Qed.

(** [decode] accepts only a frame laid out as the format says: magic,
    header length, a header that reads back, and sealed objects that tile the
    payload, each under its own rid, in header order. *)
Theorem decode_sound framed key objs :
  decode framed = Ok (key, objs) →
  ∃ header rs, from_slice header = Some (mkHeader VERSION key rs) ∧ is_key_id key = true ∧
    framed = MAGIC ++ to_le 4 (blen header) ++ header ++ concat (map sealed_bytes objs) ∧
    blen framed ≤ MAX_FRAME ∧ blen header ≤ MAX_HEADER ∧
    objs ≠ [] ∧ NoDup (map sealed_rid objs) ∧ map ref_rid rs = map (λ o, id_hex (sealed_rid o)) objs ∧
    ∀ o, o ∈ objs → rid_ok (sealed_rid o) ∧ starts_with (sealed_bytes o) OBJECT_MAGIC = true.
Proof.
  unfold decode. destruct (Z.leb_spec (blen framed) MAX_FRAME) as [Hmax|]; [| done]. cbn [ensure mbind Res_bind].
  destruct (starts_with framed MAGIC) eqn:Em; [| done]. cbn [ensure mbind Res_bind].
  apply starts_with_spec in Em as [rest ->]. rewrite drop_app_length.
  destruct (split_at_checked 4 rest) as [[len rest']|] eqn:E4; [| done]. cbn [with_context mbind Res_bind].
  apply split_at_checked_Some in E4 as [-> Hlen]; [| done].
  destruct (Z.leb_spec (from_le len) MAX_HEADER) as [Hh|]; [| done]. cbn [ensure mbind Res_bind].
  destruct (split_at_checked (from_le len) rest') as [[header payload]|] eqn:E5; [| done]. cbn [with_context mbind Res_bind].
  apply split_at_checked_Some in E5 as [-> Hhl]; [| apply from_le_bound].
  destruct (from_slice header) as [[v k rs]|] eqn:Ef; [| done]. cbn [with_context mbind Res_bind version cell_key_id_ header_objects].
  destruct (bool_decide_reflect (v = VERSION)) as [->|]; [| done]. cbn [ensure mbind Res_bind].
  destruct (is_key_id k) eqn:Ek; [| done]. cbn [ensure mbind Res_bind].
  destruct (objects_of rs payload) as [os|] eqn:Eo; [| done]. cbn [mbind Res_bind]. intros [= <- <-].
  revert Eo. unfold objects_of. destruct rs as [|r rs]; [done |]. cbn [negb ensure mbind Res_bind].
  destruct (objects_loop _ _ _ _ _) as [[os' e]|] eqn:El; [| done]. cbn [mbind Res_bind].
  destruct (Z.eqb_spec e (blen payload)) as [->|]; [| done]. cbn [ensure mbind Res_bind]. intros [= <-].
  apply (objects_loop_sound _ [] payload) in El as (new & post & -> & -> & Hend & Hnd & Hrids & Hall).
  assert (post = []) as -> by (apply nil_length_inv; autorewrite with blen in Hend; unfold blen in Hend; lia).
  cbn [app] in *. rewrite !app_nil_r in *. exists header, (r :: rs). split_and!; try done.
  - do 2 f_equal. rewrite Hhl. unfold blen in Hlen. replace 4%nat with (length len) by lia. by rewrite to_from_le.
  - lia.
  - by destruct new.
  - intros o Ho. by apply Hall in Ho as (_ & ? & ?).
Qed.
End Theory.

(** ** A concrete header codec that satisfies the law *)

#[export] Instance ObjectRef_eq_dec : EqDecision ObjectRef.
Proof. solve_decision. Defined.
#[export] Instance ObjectRef_countable : Countable ObjectRef.
Proof.
  refine (inj_countable' (λ r, (ref_rid r, ref_off r, ref_len r)) (λ '(a, b, c), mkRef a b c) _). by intros [].
Defined.

Module HeaderCodec.
Definition zero : Corelib.Init.Byte.byte := Byte.x30.
Definition one : Corelib.Init.Byte.byte := Byte.x31.
Definition open : Corelib.Init.Byte.byte := Byte.x5b.
Definition comma : Corelib.Init.Byte.byte := Byte.x2c.

Fixpoint bits (p : positive) : bytes :=
  match p with xH => [one] | xO p => zero :: bits p | xI p => one :: bits p end.
Fixpoint unbits (l : bytes) : option positive :=
  match l with
  | [] => None
  | [b] => if decide (b = one) then Some xH else None
  | b :: l => p ← unbits l; Some (if decide (b = one) then xI p else xO p)
  end.
Lemma bits_ne p : bits p ≠ [].
Proof. by destruct p. Qed.
Lemma unbits_bits p : unbits (bits p) = Some p.
Proof.
  induction p as [p IH|p IH|]; [| | done]; cbn [bits unbits];
    (destruct (bits p) as [|b l] eqn:E; [by apply bits_ne in E |]); by rewrite IH.
Qed.
Lemma bits_chars p c : c ≠ zero → c ≠ one → c ∉ bits p.
Proof. intros H0 H1. induction p; cbn; rewrite ?not_elem_of_cons; try done. split; [done | apply not_elem_of_nil]. Qed.

Definition enc {A} `{Countable A} (a : A) : bytes := bits (countable.encode a).
Definition dec {A} `{Countable A} (l : bytes) : option A := p ← unbits l; countable.decode p.
Lemma dec_enc {A} `{Countable A} (a : A) : dec (enc a) = Some a.
Proof. unfold dec, enc. rewrite unbits_bits. apply decode_encode. Qed.

Definition header_enc (h : Header) : bytes :=
  enc (version h, cell_key_id_ h) ++ open :: join_with comma (map enc (header_objects h)).
Definition header_dec (l : bytes) : option Header :=
  match split_on open l with
  | [front; body] =>
    '(v, k) ← dec front;
    rs ← (if decide (body = []) then Some [] else mapM dec (split_on comma body));
    Some (mkHeader v k rs)
  | _ => None
  end.

Lemma split_join c ps : ps ≠ [] → Forall (λ p, c ∉ p) ps → split_on c (join_with c ps) = ps.
Proof.
  intros Hne Hps. induction Hps as [|p ps Hp Hps IH]; [done |]. destruct ps as [|q ps].
  - by apply split_on_piece.
  - change (join_with c (p :: q :: ps)) with (p ++ c :: join_with c (q :: ps)). rewrite split_on_app by done. f_equal. by apply IH.
Qed.
Lemma join_chars c d ps : c ≠ d → Forall (λ p, c ∉ p) ps → c ∉ join_with d ps.
Proof.
  intros Hcd Hps. induction Hps as [|p ps Hp Hps IH]; [apply not_elem_of_nil |]. destruct ps as [|q ps]; [done |].
  change (join_with d (p :: q :: ps)) with (p ++ d :: join_with d (q :: ps)).
  rewrite not_elem_of_app, not_elem_of_cons. done.
Qed.
Lemma enc_chars {A} `{Countable A} (l : list A) c : c ≠ zero → c ≠ one → Forall (λ p, c ∉ p) (map enc l).
Proof. intros H0 H1. apply Forall_forall. intros p (a & -> & _)%list_elem_of_fmap. by apply bits_chars. Qed.

#[local] Instance ref_json : Json ObjectRef := {| to_vec := enc; from_slice := dec |}.
#[local] Instance header_json : Json Header := {| to_vec := header_enc; from_slice := header_dec |}.

Lemma header_json_ok : JsonOk Header.
Proof.
  intros [v k rs]. cbn [from_slice to_vec header_json]. unfold header_dec, header_enc. cbn [version cell_key_id_ header_objects].
  rewrite split_on_app by by apply bits_chars.
  rewrite split_on_piece by (apply join_chars; [done | by apply enc_chars]).
  rewrite dec_enc. cbn [mbind option_bind].
  assert ((if decide (join_with comma (map enc rs) = []) then Some []
           else mapM dec (split_on comma (join_with comma (map enc rs)))) = Some rs) as ->; [| done].
  destruct rs as [|r rs]; [done |]. rewrite decide_False.
  - rewrite split_join; [| done | by apply enc_chars]. apply mapM_Some. apply Forall2_fmap_l, Forall_Forall2_diag.
    apply Forall_forall. intros x _. apply dec_enc.
  - cbn [map]. destruct rs; cbn; [apply bits_ne |]. intros [Hb _]%app_eq_nil. by apply bits_ne in Hb.
Qed.

Lemma header_json_additive : HeaderLaw.
Proof.
  intros key rs. unfold encoded_len. cbn [to_vec header_json]. unfold header_enc. cbn [version cell_key_id_ header_objects map join_with].
  rewrite !blen_app, !blen_cons. unfold total, encoded_len. cbn [to_vec ref_json].
  induction rs as [|r [|r' rs] IH]; [cbn [map join_with foldr length]; blia | cbn [map join_with foldr length]; blia |].
  change (join_with comma (map enc (r :: r' :: rs))) with (enc r ++ comma :: join_with comma (map enc (r' :: rs))).
  rewrite blen_app, blen_cons. cbn [foldr length] in *. blia.
Qed.
End HeaderCodec.

Module FrameExample.
Import HeaderCodec.
#[local] Existing Instances toy_blake3 toy_hex toy_hex_ok ref_json header_json header_json_ok header_json_additive.
#[local] Instance toy_sha256 : Sha256 := toy_digest.

Definition key : bytes := replicate 32 Byte.x61.
Definition item (n : Z) (b : bytes) : ObjectId * bytes := (to_le 32 n, OBJECT_MAGIC ++ b).
Definition objs : list (ObjectId * bytes) := [item 1 (b_ "one"); item 2 (b_ "two"); item 3 (b_ "three")].

Lemma objs_ok : Forall item_ok objs.
Proof. repeat constructor; by vm_compute. Qed.
Lemma objs_nodup : NoDup (map fst objs).
Proof. apply (bool_decide_unpack _). by vm_compute. Qed.

Definition collect (f : Frame) : M (list Frame) () := modify (λ fs, fs ++ [f]).

Lemma pack_spec_witness :
  ∃ gs, concat gs = objs ∧
    pack collect key 8000 (map Ok objs) [] = mfor gs (λ g, f ← lift (frame_of key 8000 g); collect f) [].
Proof.
  destruct (pack_spec key 8000 objs eq_refl objs_ok objs_nodup) as (gs & Hc & Hrun & _).
  exists gs. exact (conj Hc (Hrun _ collect [])).
Defined.

(** Three frames of at most 8000 bytes or one object each, decoded again. *)
Example pack_run :
  match pack collect key 8000 (map Ok objs) [] with
  | (Ok (), fs) => map (λ f, decode (frame_bytes f)) fs
  | _ => []
  end = [Ok (key, map to_sealed (take 2 objs)); Ok (key, map to_sealed (drop 2 objs))].
Proof. by vm_compute. Qed.

Definition framed : bytes := match frame_of key 8000 objs with Ok f => frame_bytes f | Err _ => [] end.
Lemma framed_decodes : decode framed = Ok (key, map to_sealed objs).
Proof. by vm_compute. Qed.

Lemma decode_sound_witness : NoDup (map sealed_rid (map to_sealed objs)).
Proof.
  destruct (decode_sound framed key (map to_sealed objs) framed_decodes) as (header & rs & _ & _ & _ & _ & _ & _ & Hnd & _).
  exact Hnd.
Defined.

(** A thousand small objects, within one frame's size. *)
Definition many : list (ObjectId * bytes) := replicate 1000 (item 1 []).
Lemma many_header : MAX_HEADER < encoded_len (mkHeader VERSION key (refs_at 0 many)).
Proof. by vm_compute. Qed.

Lemma pack_header_overflow_witness :
  pack collect key (size key many) (map Ok many) [] = (Err "frame header is too large", []).
Proof.
  exact (pack_header_overflow key (size key many) many ltac:(done) (Z.le_refl _) many_header _ collect []).
Defined.
End FrameExample.
