(* ===== verification/BundleTheory.v ===== *)
(** * BundleTheory: what is exported imports, and what imports is complete

    A traversal is the sequence of objects it processes ([run]); export writes
    that sequence, import replays it record by record. *)

From S2P Require Import Prelude Model Concrete Tree Objects Bundle.
#[local] Open Scope Z_scope.

Section Theory.
Context `{JS : Json Snapshot, JT : Json Tree, JB : Json Blob}.

Abbreviation Step := (ObjectId * ObjectKind * bytes)%type.

(** The objects a traversal of a store processes from a table of marks. *)
Section Run.
Context {St : Type} `{OS : ObjectStore St} (s : St).

Inductive run : Marks → list Step → Prop :=
| run_done m : next_mark m = Ok None → run m []
| run_step m id k b m' l :
    next_mark m = Ok (Some (id, k)) → read_object k id s = Ok b → enqueue_edges m k b = Ok m' →
    run (processed m' id) l → run m ((id, k, b) :: l).

(** A visitor folded over the processed objects. *)
Definition visit_all {A} (visitor : ObjectId → ObjectKind → bytes → A → Res A) (l : list Step) (a : A) : Res A :=
  foldl (λ r '(id, k, b), a ← r; visitor id k b a) (Ok a) l.

Lemma visit_all_cons {A} visitor id k b l (a a' : A) :
  visitor id k b a = Ok a' → visit_all visitor ((id, k, b) :: l) a = visit_all visitor l a'.
Proof. intros Hv. unfold visit_all. cbn [foldl mbind Res_bind]. by rewrite Hv. Qed.

Lemma reach_loop_sound {A} fuel visitor m count (a : A) count' a' :
  reach_loop fuel s visitor m count a = Some (Ok (count', a')) →
  ∃ l, run m l ∧ count' = count + Z.of_nat (length l) ∧ visit_all visitor l a = Ok a'.
Proof.
  revert m count a. induction fuel as [|fuel IH]; intros m count a; [done |]. cbn [reach_loop].
  destruct (next_mark m) as [[[id k]|]|] eqn:En; [| | done].
  - destruct (read_object k id s) as [b|] eqn:Er; [| done]. cbn [mbind Res_bind].
    destruct (visitor id k b a) as [a1|] eqn:Ev; [| done]. cbn [mbind Res_bind].
    destruct (enqueue_edges m k b) as [m'|] eqn:Ee; [| done]. cbn [mbind Res_bind].
    intros (l & Hl & -> & Hv)%IH. exists ((id, k, b) :: l). split_and!.
    + by eapply run_step.
    + cbn [length]. lia.
    + by rewrite (visit_all_cons _ _ _ _ _ _ _ Ev).
  - intros [= <- <-]. exists []. split_and!; [by constructor | cbn; lia | done].
Qed.

Lemma reach_loop_complete fuel m l count :
  run m l → (length l < fuel)%nat →
  reach_loop fuel s (λ _ _ _ a, Ok a) m count () = Some (Ok (count + Z.of_nat (length l), ())).
Proof.
  intros Hr. revert fuel count. induction Hr as [m Hn|m id k b m' l Hn Hb He Hr IH]; intros [|fuel] count Hf;
    cbn [length] in *; try lia; cbn [reach_loop]; rewrite Hn.
  - do 3 f_equal. lia.
  - rewrite Hb. cbn [mbind Res_bind]. rewrite He. cbn [mbind Res_bind]. rewrite IH by lia. do 3 f_equal. lia.
Qed.
End Run.

Lemma run_extends {St} `{OS : ObjectStore St} {St'} `{OS' : ObjectStore St'} (s : St) (s' : St') m l :
  run s m l → (∀ id k b, (id, k, b) ∈ l → read_object k id s' = Ok b) → run s' m l.
Proof.
  induction 1 as [m Hn|m id k b m' l Hn Hb He Hr IH]; intros Hall; [by constructor |].
  eapply run_step; [done | apply Hall; by left | done |]. apply IH. intros. apply Hall. by right.
Qed.

Lemma next_mark_spec m id k :
  next_mark m = Ok (Some (id, k)) → m !! id = Some (k, false) ∧ blen id = 32.
Proof.
  unfold next_mark. destruct (btree_iter (unprocessed m)) as [|[id' [k' pr]] l] eqn:E; [done |].
  destruct (Z.eqb_spec (blen id') 32) as [Hl|]; [| done]. cbn. intros [= -> ->]. split; [| done].
  assert ((id, (k, pr)) ∈ btree_iter (unprocessed m)) as Hin by (rewrite E; by left).
  by apply elem_of_btree_iter, map_lookup_filter_Some in Hin as [? ->].
Qed.
Lemma next_mark_done m : next_mark m = Ok None → unprocessed m = ∅.
Proof.
  unfold next_mark. destruct (btree_iter (unprocessed m)) as [|[id' [k' pr]] l] eqn:E.
  - intros _. apply map_empty. intros i. destruct (unprocessed m !! i) as [v|] eqn:Ei; [| done].
    apply elem_of_btree_iter in Ei. rewrite E in Ei. by apply not_elem_of_nil in Ei.
  - by destruct (blen id' =? 32).
Qed.

(** Rows of the table stay, and a traversal never meets a processed one. *)
Lemma enqueue_keeps m id k m' i r : enqueue m id k = Ok m' → m !! i = Some r → m' !! i = Some r.
Proof.
  unfold enqueue. intros He Hi. destruct (ensure _ _); [| done]. injection He as <-.
  destruct (m !! id) as [v|] eqn:E; [done |]. rewrite lookup_insert_ne; [done |]. intros ->. congruence.
Qed.
Lemma enqueue_edges_keeps m k b m' i r : enqueue_edges m k b = Ok m' → m !! i = Some r → m' !! i = Some r.
Proof.
  unfold enqueue_edges. destruct (object_edges k b) as [es|]; [| done]. cbn [mbind Res_bind].
  revert m. induction es as [|[id k'] es IH]; intros m; cbn [enqueue_all]; [by intros [= ->] |].
  destruct (enqueue m id k') as [m1|] eqn:E; [| done]. cbn [mbind Res_bind]. intros Hes Hi.
  eapply IH; [exact Hes | by eapply enqueue_keeps].
Qed.
Lemma run_ids {St} `{OS : ObjectStore St} (s : St) m l id k b :
  run s m l → (id, k, b) ∈ l → ∀ k', m !! id ≠ Some (k', true).
Proof.
  induction 1 as [m Hn|m id0 k0 b0 m' l Hn Hb He Hr IH]; [by intros ?%not_elem_of_nil |].
  intros [[= -> -> ->]|Hin]%elem_of_cons k' Hm.
  - apply next_mark_spec in Hn as [Hn _]. congruence.
  - apply (IH Hin k'). pose proof (enqueue_edges_keeps _ _ _ _ _ _ He Hm) as Hm'. unfold processed.
    destruct (m' !! id0) as [[k1 pr]|] eqn:E; [| done].
    destruct (decide (id = id0)) as [->|]; [rewrite lookup_insert, decide_True by done; congruence | by rewrite lookup_insert_ne].
Qed.

Lemma run_in_store {St1} `{OS1 : ObjectStore St1} (s1 : St1) m l id k b :
  run s1 m l → (id, k, b) ∈ l → read_object k id s1 = Ok b.
Proof.
  induction 1 as [m Hn|m id' k' b' m' l Hn Hb He Hr IH]; [by intros ?%not_elem_of_nil |].
  by intros [[= -> -> ->]|Hin]%elem_of_cons; [| apply IH].
Qed.

(** ** Reading back what was written *)

Lemma read_n_app n a b : blen a = n → read_n n (a ++ b) = Ok (a, b).
Proof.
  intros <-. unfold read_n. rewrite (proj2 (Z.leb_le _ _)) by blia. unfold blen. rewrite Nat2Z.id.
  by rewrite take_app_length, drop_app_length.
Qed.

Section Lockstep.
Context `{B3 : Blake3, !Blake3Ok}.

Lemma read_record_spec m id k b rest :
  m !! id = Some (k, false) → blen id = 32 → blen b ≤ MAX_BUNDLE_OBJECT → object_id k b = id →
  read_record m ([kind_to_u8 k] ++ to_le 8 (blen b) ++ id ++ blake3 b ++ b ++ rest) = Ok (id, k, b, rest).
Proof.
  intros Hm Hid Hb Ho. pose proof (blen_nonneg b). unfold read_record.
  rewrite (read_n_app 1) by done. cbn [mbind Res_bind]. rewrite (read_n_app 8) by apply blen_to_le. cbn [mbind Res_bind].
  rewrite (read_n_app 32) by done. cbn [mbind Res_bind]. rewrite (read_n_app 32) by apply blake3_len. cbn [mbind Res_bind].
  cbn [lookup list_lookup]. cbn [mbind option_bind]. rewrite kind_from_to. cbn [with_context mbind Res_bind].
  rewrite Hm. cbn [with_context mbind Res_bind negb ensure]. rewrite bool_decide_true by done. cbn [ensure mbind Res_bind].
  rewrite from_to_le by (unfold MAX_BUNDLE_OBJECT in Hb; lia). rewrite (proj2 (Z.leb_le _ _)) by done. cbn [ensure mbind Res_bind].
  rewrite (read_n_app (blen b)) by done. cbn [mbind Res_bind]. by rewrite !bool_decide_true.
Qed.

Context {St : Type} {OS : ObjectStore St} {CS : ContentStoreOk St}.

(** No object of the run has its address taken by another object of the store. *)
Definition agrees (s : St) (l : list Step) : Prop :=
  ∀ id k b k' b', (id, k, b) ∈ l → read_object k' id s = Ok b' → k' = k ∧ b' = b.

(** A put of a step's object keeps the agreement with the other steps. *)
Lemma agrees_put s l k b r s' :
  agrees s l → (∀ k' b', (object_id k b, k', b') ∈ l → k' = k ∧ b' = b) → put_object k b s = (r, s') → agrees s' l.
Proof.
  intros Ha Hl Hput id k1 b1 k2 b2 Hin Hr.
  destruct (put_adds _ _ _ _ _ _ _ _ Hput Hr) as [Hr'|(-> & -> & ->)].
  - by eapply Ha.
  - by destruct (Hl _ _ Hin) as [-> ->].
Qed.

(** The import loop over the records of a run, from the same marks. *)
Lemma import_replays {St1} `{OS1 : ObjectStore St1} (s1 : St1) m l count fuel (s : St) :
  run s1 m l →
  (∀ id k b, (id, k, b) ∈ l → object_id k b = id ∧ blen b ≤ MAX_BUNDLE_OBJECT) → agrees s l →
  (length l < fuel)%nat → 0 ≤ count → count + Z.of_nat (length l) < 2 ^ 64 →
  ∃ s', import_loop fuel m count
          (concat (map (λ '(id, k, b), record id k b) l) ++ END_MAGIC ++ to_le 8 (count + Z.of_nat (length l))) s = (Ok (), s') ∧
    extends s s' ∧ ∀ id k b, (id, k, b) ∈ l → read_object k id s' = Ok b.
Proof.
  intros Hr. revert fuel count s. induction Hr as [m Hn|m id k b m' l Hn Hb He Hr IH]; intros fuel count s Hall Ha Hf Hc Hmax;
    (destruct fuel as [|fuel]; [cbn in Hf; lia |]); cbn [import_loop map concat length] in *.
  - exists s. split_and!; [| by intros ???| by intros ??? ?%not_elem_of_nil].
    cbn [app]. rewrite (read_n_app 4) by done. mpure. rewrite decide_True by done. unfold lift. f_equal.
    unfold read_trailer. rewrite <- (app_nil_r (to_le _ _)), (read_n_app 8) by apply blen_to_le. cbn [mbind Res_bind].
    rewrite from_to_le by (change (Z.of_nat 8 * 8) with 64; lia). rewrite Z.add_0_r, Z.eqb_refl. cbn [ensure mbind Res_bind].
    by rewrite (next_mark_done _ Hn).
  - destruct (next_mark_spec _ _ _ Hn) as [Hm Hid]. destruct (Hall id k b ltac:(by left)) as [Ho Hlen].
    unfold record. rewrite <- !app_assoc. rewrite (read_n_app 4) by done. mpure.
    rewrite decide_False by done. rewrite mensure_bind by by apply bool_decide_true.
    rewrite read_record_spec by done. mpure.
    destruct (put_stores k b s Hlen) as (s1' & Hput & Hread1). rewrite Ho in Hput, Hread1.
    assert (read_object k id s1' = Ok b) as Hr1.
    { destruct Hread1 as [?|(k' & b' & Hr' & Hne)]; [done |]. by destruct (Ha id k b k' b' ltac:(by left) Hr') as [-> ->]. }
    mrun Hput. rewrite mensure_bind by by apply bool_decide_true.
    rewrite He. mpure. destruct (IH fuel (count + 1) s1') as (s' & Hrun & Hext & Hread); [| | lia | lia | lia |].
    { intros. apply Hall. by right. }
    { eapply (agrees_put s _ k b); [| | exact Hput].
      - intros id' k' b' k2 b2 Hin. apply Ha. by right.
      - intros k' b' Hin. rewrite Ho in Hin. pose proof (run_ids _ _ _ _ _ _ Hr Hin) as Hni.
        exfalso. apply (Hni k). unfold processed. rewrite (enqueue_edges_keeps _ _ _ _ _ _ He Hm).
        by rewrite lookup_insert, decide_True. }
    exists s'. split_and!.
    + rewrite <- Hrun. do 4 f_equal. lia.
    + intros k' id' b' Hr'. apply Hext. by eapply put_keeps.
    + intros id' k' b' [[= -> -> ->]|Hin]%elem_of_cons; [by apply Hext | by apply Hread].
Qed.

Lemma export_output l out count :
  visit_all (λ id k b '(output, count), Ok (output ++ record id k b, count + 1)) l (out, count) =
  Ok (out ++ concat (map (λ '(id, k, b), record id k b) l), count + Z.of_nat (length l)).
Proof.
  revert out count. induction l as [|[[id k] b] l IH]; intros out count.
  - cbn. rewrite app_nil_r. do 2 f_equal. lia.
  - rewrite (visit_all_cons _ _ _ _ _ _ (out ++ record id k b, count + 1)) by done. rewrite IH.
    cbn [map concat length]. rewrite <- app_assoc. do 2 f_equal. lia.
Qed.

(** C28 A bundle exported from one store imports into any other: the import
    answers the snapshot, keeps what the store had, and afterwards the traversal
    of the snapshot there sees exactly the objects, in the order and with the
    bytes, that the traversal of the exporting store saw, unless an address of the
    exporting store is taken by a different object (a hash collision). *)
Theorem bundle_roundtrip {St1} {OS1 : ObjectStore St1} {CS1 : ContentStoreOk St1}
    fuel (s1 : St1) (s : St) snapshot output count :
  export fuel s1 snapshot = Some (Ok (output, count)) →
  (∀ k id b, read_object k id s1 = Ok b → blen b ≤ MAX_BUNDLE_OBJECT) → blen snapshot = 32 → count < 2 ^ 64 →
  (∀ k k' id b b', read_object k id s1 = Ok b → read_object k' id s = Ok b' → k' = k ∧ b' = b) →
  ∃ s' l marks, import (S (length l)) output s = Some (Ok snapshot, s') ∧ extends s s' ∧
    count = Z.of_nat (length l) ∧ enqueue ∅ snapshot SnapshotKind = Ok marks ∧
    run s1 marks l ∧ run s' marks l.
Proof.
  intros He Hsmall Hsnap Hcount Hagree. unfold export, for_each_reachable in He.
  destruct (enqueue ∅ snapshot SnapshotKind) as [marks|] eqn:Em; [| done].
  destruct (reach_loop _ _ _ _ _ _) as [[[n [out c]]|]|] eqn:Er; [| done..].
  assert (output = out ++ END_MAGIC ++ to_le 8 c ∧ count = c) as [-> ->] by (split; congruence). clear He.
  apply reach_loop_sound in Er as (l & Hr & -> & Hv). rewrite export_output in Hv.
  assert (out = (BUNDLE_MAGIC ++ snapshot) ++ concat (map (λ '(id, k, b), record id k b) l) ∧ c = 0 + Z.of_nat (length l))
    as [-> ->] by (split; congruence). clear Hv.
  assert (∀ id k b, (id, k, b) ∈ l → object_id k b = id ∧ blen b ≤ MAX_BUNDLE_OBJECT) as Hall.
  { intros id k b Hin. pose proof (run_in_store _ _ _ _ _ _ Hr Hin) as Hread. split; [by eapply read_addressed | by eapply Hsmall]. }
  set (body := concat (map (λ '(id, k, b), record id k b) l)) in *.
  assert (length l ≤ length (body ++ END_MAGIC ++ to_le 8 (0 + Z.of_nat (length l))))%nat as Hlen.
  { rewrite length_app. enough (length l ≤ length body)%nat by lia. subst body. clear.
    induction l as [|[[id k] b] l IH]; [done |]. cbn [map concat length]. rewrite length_app.
    assert (4 ≤ length (record id k b))%nat by (unfold record; rewrite length_app; apply Nat.le_add_r). lia. }
  destruct (import_replays s1 marks l 0 (S (length (body ++ END_MAGIC ++ to_le 8 (0 + Z.of_nat (length l))))) s Hr Hall
      ltac:(intros id k b k' b' Hin; apply Hagree; by eapply run_in_store) ltac:(lia) ltac:(lia) ltac:(lia))
    as (s' & Hrun & Hext & Hread).
  assert (run s' marks l) as Hr' by (by eapply run_extends).
  exists s', l, marks. split_and!; try done. unfold import. rewrite <- !app_assoc.
  rewrite (read_n_app (blen BUNDLE_MAGIC)) by done. mpure. rewrite mensure_bind by by apply bool_decide_true.
  rewrite (read_n_app 32) by done. mpure. rewrite Em. mpure. fold body. mrun Hrun. unfold mret, M_ret. cbv beta iota.
  unfold for_each_reachable. rewrite Em. by rewrite (reach_loop_complete _ _ _ _ _ Hr') by lia.
Qed.

(** C29 Whatever the bytes: an import that succeeds leaves a store in which the
    whole snapshot can be traversed, every object under its content address; and
    succeeding or not, an import takes nothing away. *)
Theorem import_sound fuel input (s : St) r s' :
  import fuel input s = Some (r, s') →
  extends s s' ∧
  ∀ snapshot, r = Ok snapshot →
    ∃ marks l, enqueue ∅ snapshot SnapshotKind = Ok marks ∧ run s' marks l ∧
      ∀ id k b, (id, k, b) ∈ l → object_id k b = id.
Proof.
  assert (∀ fuel m count input (s : St) r s', import_loop fuel m count input s = (r, s') → extends s s') as Hloop.
  { clear fuel input s r s'. induction fuel as [|fuel IH]; intros m count input s r s'; cbn [import_loop]; [by intros [= _ <-] ??? |].
    unfold lift. unfold mbind at 1, M_bind. destruct (read_n 4 input) as [[magic rest]|]; [| by intros [= _ <-] ???].
    destruct (decide _); [by intros [= _ <-] ??? |]. unfold mensure, lift, mbind, M_bind.
    destruct (ensure _ _); [| by intros [= _ <-] ???]. destruct (read_record m rest) as [[[[id k] b] rest']|]; [| by intros [= _ <-] ???].
    destruct (put_object k b s) as [[stored|] s1] eqn:Ep; [| intros [= _ <-]; by eapply put_keeps].
    assert (extends s s1) as Hs1 by (by eapply put_keeps).
    destruct (ensure _ _); [| by intros [= _ <-]]. destruct (enqueue_edges m k b); [| by intros [= _ <-]].
    intros Hr%IH k' id' b' Hb. by apply Hr, Hs1. }
  unfold import. unfold lift, mensure, mbind, M_bind. cbv beta iota zeta.
  destruct (read_n (blen BUNDLE_MAGIC) input) as [[magic rest]|]; [| intros [= <- <-]; split; [by intros ??? | done]].
  unfold lift. destruct (ensure _ _); [| intros [= <- <-]; split; [by intros ??? | done]].
  destruct (read_n 32 rest) as [[snap rest']|]; [| intros [= <- <-]; split; [by intros ??? | done]].
  destruct (enqueue ∅ snap SnapshotKind) as [marks|] eqn:Em; [| intros [= <- <-]; split; [by intros ??? | done]].
  destruct (import_loop _ _ _ _ _) as [[[]|e] s1] eqn:El; [| intros [= <- <-]; split; [by eapply Hloop | done]].
  unfold mret, M_ret. destruct (for_each_reachable _ _ _ _ _) as [[[n u]|e]|] eqn:Ef; [| intros [= <- <-] | done].
  2: { split; [by eapply Hloop | done]. }
  intros [= <- <-]. split; [by eapply Hloop |]. intros snapshot [= <-]. unfold for_each_reachable in Ef. rewrite Em in Ef.
  apply reach_loop_sound in Ef as (l & Hr & _ & _). exists marks, l. split_and!; try done.
  intros id k b Hin. eapply read_addressed. by eapply run_in_store.
Qed.
End Lockstep.
End Theory.

Module BundleExample.
#[local] Existing Instances toy_blake3 toy_blake3_ok.
(** A snapshot is the id of its root tree; trees are empty. *)
#[local] Instance snapshot_json : Json Snapshot :=
  {| to_vec := λ s, root_tree s;
     from_slice := λ b, Some (mkSnapshot b None [] 0 0 Quiescent Initial None [] [] [] [] None) |}.
#[local] Instance tree_json : Json Tree := {| to_vec := λ _, b_ "tree"; from_slice := λ _, Some (mkTree [] []) |}.
#[local] Instance blob_json : Json Blob := {| to_vec := λ _, []; from_slice := λ _, None |}.

Definition empty_store : Objects := mkObjects _ ∅ (map_Forall_empty _).
Definition tree_id : ObjectId := object_id TreeKind (b_ "tree").
Definition snapshot_id : ObjectId := object_id SnapshotKind tree_id.
Definition source : Objects := put_addressed SnapshotKind tree_id (put_addressed TreeKind (b_ "tree") empty_store).

Definition output : bytes := match export 5 source snapshot_id with Some (Ok (o, _)) => o | _ => [] end.
Lemma exported : export 5 source snapshot_id = Some (Ok (output, 2)).
Proof. by vm_compute. Qed.

Lemma source_small k id b : read_object k id source = Ok b → blen b ≤ MAX_BUNDLE_OBJECT.
Proof.
  rewrite read_objects. cbn [objects source put_addressed empty_store].
  intros [[_ [= _ <-]]|[_ [[_ [= _ <-]]|[_ H]]%lookup_insert_Some]]%lookup_insert_Some; [by vm_compute | by vm_compute |].
  by rewrite lookup_empty in H.
Qed.
Lemma empty_agrees k k' id b b' :
  read_object k id source = Ok b → read_object k' id empty_store = Ok b' → k' = k ∧ b' = b.
Proof. intros _. rewrite read_objects. cbn. by rewrite lookup_empty. Qed.

Lemma bundle_roundtrip_witness :
  ∃ s' (l : list (ObjectId * ObjectKind * bytes)), import (S (length l)) output empty_store = Some (Ok snapshot_id, s') ∧ 2 = Z.of_nat (length l).
Proof.
  destruct (bundle_roundtrip 5 source empty_store snapshot_id output 2 exported source_small eq_refl eq_refl empty_agrees)
    as (s' & l & marks & Hrun & _ & Hl & _).
  exists s', l. exact (conj Hrun Hl).
Defined.

Definition imported : Objects := match import 5 output empty_store with Some (_, s) => s | None => empty_store end.
Lemma imported_id : match import 5 output empty_store with Some (Ok id, _) => id = snapshot_id | _ => False end.
Proof. by vm_compute. Qed.
Lemma imported_run : import 5 output empty_store = Some (Ok snapshot_id, imported).
Proof.
  pose proof imported_id as Hid. unfold imported. destruct (import 5 output empty_store) as [[[id|e] s']|]; by subst || done.
Qed.

Lemma import_sound_witness : ∃ marks l, enqueue ∅ snapshot_id SnapshotKind = Ok marks ∧ run imported marks l.
Proof.
  destruct (import_sound 5 output empty_store (Ok snapshot_id) imported imported_run) as [_ Hs].
  destruct (Hs snapshot_id eq_refl) as (marks & l & Hm & Hr & _).
  exists marks, l. exact (conj Hm Hr).
Defined.
End BundleExample.
