(* ===== verification/Exchange.v ===== *)
(** * Exchange: moving a snapshot between stores ([exchange/survey.rs],
    [exchange/export.rs], [exchange/fetch.rs], [exchange/ops.rs])

    The object store and the sealer are interfaces. A directory is a map from
    file names to contents; a ledger is the content of its file. [sync_all],
    renames into place and directory creation have no further effect here. *)

From S2P Require Import Prelude Model Tree Bundle Ledger Frame Crypto.
#[local] Open Scope Z_scope.

(** [ObjectStore::contains_object] *)
Class ObjectIndex (St : Type) := contains_object : ObjectId → St → bool.

Abbreviation Object := (ObjectKind * ObjectId)%type.
Abbreviation Dir := (gmap bytes bytes).

Definition usize_max : Z := 2 ^ 64 - 1.

(** [fs::remove_file] on each path: an absent file is an error and what comes
    after it stays. *)
Fixpoint remove_files (paths : list bytes) (d : Dir) : Res () * Dir :=
  match paths with
  | [] => (Ok (), d)
  | path :: paths =>
    match d !! path with Some _ => remove_files paths (delete path d) | None => (Err "delete file", d) end
  end.

(** ** [survey.rs] *)

Record Survey := mkSurvey { present : list Object; missing : list Object }.
Record Walk := mkWalk { seen : gset ObjectId; queue : list Object }.

Definition Walk_new (head : ObjectId) : Walk := mkWalk {[head]} [(SnapshotKind, head)].

Definition is_leaf (k : ObjectKind) : bool := match k with Chunk | XattrsKind => true | _ => false end.

Definition enqueue_child (w : Walk) '((child, k) : ObjectId * ObjectKind) : Walk :=
  if decide (child ∈ seen w) then w else mkWalk ({[child]} ∪ seen w) (queue w ++ [(k, child)]).

Section Survey.
Context {St : Type} `{ObjectStore St, ObjectIndex St, Json Snapshot, Json Tree, Json Blob}.

Definition expand (k : ObjectKind) (b : bytes) (w : Walk) : Res Walk :=
  edges ← object_edges k b; Ok (foldl enqueue_child w edges).

(** The loop of [explore]; [None] when [fuel] objects were not enough. *)
Fixpoint explore_loop (fuel : nat) (s : St) (missing_limit : Z) (found : Survey) (w : Walk)
    : option (Res (Survey * Walk)) :=
  match fuel with
  | O => None
  | S fuel =>
    if Z.of_nat (length (missing found)) <? missing_limit then
      match queue w with
      | [] => Some (Ok (found, w))
      | (k, id) :: rest =>
        let w := mkWalk (seen w) rest in
        if negb (contains_object id s)
        then explore_loop fuel s missing_limit (mkSurvey (present found) (missing found ++ [(k, id)])) w
        else
          let found := mkSurvey (present found ++ [(k, id)]) (missing found) in
          if is_leaf k then explore_loop fuel s missing_limit found w
          else
            match b ← read_object k id s; expand k b w with
            | Ok w => explore_loop fuel s missing_limit found w
            | Err e => Some (Err e)
            end
      end
    else Some (Ok (found, w))
  end.
Definition explore (fuel : nat) (s : St) (missing_limit : Z) (w : Walk) : option (Res (Survey * Walk)) :=
  explore_loop fuel s missing_limit (mkSurvey [] []) w.

Definition survey (fuel : nat) (s : St) (head : ObjectId) (missing_limit : Z) : option (Res Survey) :=
  match explore fuel s missing_limit (Walk_new head) with
  | None => None
  | Some (Err e) => Some (Err e)
  | Some (Ok (found, _)) => Some (Ok found)
  end.
End Survey.

(** ** [export.rs] *)

Definition DEFAULT_MAX_FRAME : Z := Z.shiftl 8 20.

(** The position of a kind in [SEND_ORDER]. *)
Definition send_rank (k : ObjectKind) : Z :=
  match k with SnapshotKind => 0 | TreeKind => 1 | XattrsKind => 2 | BlobKind => 3 | Chunk => 4 end.

(** Sorted by send rank, then id. *)
Definition send_le (a b : Object) : Prop :=
  send_rank a.1 < send_rank b.1 ∨ send_rank a.1 = send_rank b.1 ∧ ble a.2 b.2.
#[export] Instance send_le_dec : RelDecision send_le.
Proof. intros a b. unfold send_le. apply _. Defined.

Record FrameInfo := mkFrameInfo { info_path : bytes; info_objects : Z; info_bytes : Z }.
Record ExportReport := mkReport {
  report_frames : list FrameInfo; head_rid : bytes; report_objects : Z; report_bytes : Z;
}.

Section Exchange.
Context {St : Type} `{ObjectStore St, ObjectIndex St, Json Snapshot, Json Tree, Json Blob}.
Context `{Blake3, Sha256, Hex, Json ObjectRef, Json Header}.

(** [ExportJob::unsent]: reachable, unrecorded, parents before children. *)
Definition unsent (sl : Sealer) (fuel : nat) (s : St) (head : ObjectId) (ledger : bytes)
    : option (Res (list Object)) :=
  match survey fuel s head 1 with
  | None => None
  | Some r => Some (
      found ← r;
      _ ← ensure (match missing found with [] => true | _ => false end) "head is not complete in this store";
      sent ← recorded ledger;
      Ok (merge_sort send_le (base.filter (λ o, sealer_remote_id o.1 o.2 ∉ (sent : gset ObjectId)) (present found))))
  end.

Definition seal_stored (sl : Sealer) (s : St) (o : Object) : Res (ObjectId * bytes) :=
  b ← read_object o.1 o.2 s; seal o.1 o.2 b.

(** [write_frame]: the partial file is renamed over the final name. *)
Definition write_frame (f : Frame) : M Dir FrameInfo :=
  let path := file_name f in
  _ ← modify (<[path := frame_bytes f]>);
  mret (mkFrameInfo path (Z.of_nat (length (frame_rids f))) (blen (frame_bytes f))).

(** The closure [pack] calls: writes the frame and appends its description. *)
Definition emit_frame (f : Frame) : M (Dir * list FrameInfo) () := λ '(outbox, frames),
  match write_frame f outbox with
  | (Ok info, outbox) => (Ok (), (outbox, frames ++ [info]))
  | (Err e, outbox) => (Err e, (outbox, frames))
  end.

(** [ExportJob::run]; the outbox is the state. *)
Definition export_run (sl : Sealer) (cell_key : bytes) (fuel : nat) (s : St) (head : ObjectId)
    (ledger : bytes) (max_frame : Z) (outbox : Dir) : option (Res ExportReport * Dir) :=
  if negb (max_frame <=? MAX_FRAME) then Some (Err "max-frame is larger than a store accepts", outbox)
  else
    match unsent sl fuel s head ledger with
    | None => None
    | Some (Err e) => Some (Err e, outbox)
    | Some (Ok objects) =>
      match pack emit_frame (cell_key_id cell_key) max_frame (map (seal_stored sl s) objects) (outbox, []) with
      | (Err e, (outbox, _)) => Some (Err e, outbox)
      | (Ok (), (outbox, frames)) =>
        Some (Ok (mkReport frames (id_hex (sealer_remote_id SnapshotKind head))
                    (foldr (λ i n, info_objects i + n) 0 frames) (foldr (λ i n, info_bytes i + n) 0 frames)), outbox)
      end
    end.

(** [published]: the frames still there are decoded, their rids recorded, and
    only then the files removed. The state is the ledger and the outbox. *)
Fixpoint published_read (paths : list bytes) (outbox : Dir) : Res (list ObjectId * list bytes) :=
  match paths with
  | [] => Ok ([], [])
  | path :: paths =>
    match outbox !! path with
    | Some b =>
      '(_, objects) ← decode b;
      '(rids, present) ← published_read paths outbox;
      Ok (map sealed_rid objects ++ rids, path :: present)
    | None => published_read paths outbox
    end
  end.
Definition published (paths : list bytes) : M (bytes * Dir) Z := λ '(ledger, outbox),
  match published_read paths outbox with
  | Err e => (Err e, (ledger, outbox))
  | Ok (rids, present) =>
    match remove_files present outbox with
    | (Ok (), outbox) => (Ok (Z.of_nat (length rids)), (append rids ledger, outbox))
    | (Err e, outbox) => (Err e, (append rids ledger, outbox))
    end
  end.

(** ** [fetch.rs] *)

Definition WANT_LIMIT : Z := 1000.

Definition want (sl : Sealer) (fuel : nat) (s : St) (head : ObjectId) : option (Res (list ObjectId)) :=
  match survey fuel s head WANT_LIMIT with
  | None => None
  | Some r => Some (found ← r; Ok (map (λ o, sealer_remote_id o.1 o.2) (missing found)))
  end.

Inductive Leftovers := Refuse | Delete | Keep.
#[export] Instance Leftovers_eq_dec : EqDecision Leftovers.
Proof. solve_decision. Defined.

Record Taken := mkTaken { imported : Z; extras_deleted : Z }.

(** The store, the ledger and the inbox during an import. *)
Record World := mkWorld { store : St; ledger : bytes; inbox : Dir }.

(** [inbox_files]: file names by rid; names starting with a dot are skipped. *)
Fixpoint inbox_names (names : list bytes) (files : gmap ObjectId bytes) : Res (gmap ObjectId bytes) :=
  match names with
  | [] => Ok files
  | nm :: names =>
    if starts_with nm (b_ ".") then inbox_names names files
    else rid ← with_context (parse_rid nm) "inbox file is not named by a rid"; inbox_names names (<[rid := nm]> files)
  end.
Definition inbox_files (inbox : Dir) : Res (gmap ObjectId bytes) := inbox_names (map_to_list inbox).*1 ∅.

(** [store_verified]: the file's bytes are opened, checked and stored. *)
Definition store_verified (sl : Sealer) (inbox : Dir) (k : ObjectKind) (id rid : ObjectId) (path : bytes) : M St bytes :=
  sealed ← lift (with_context (inbox !! path) "read inbox file");
  b ← lift (open_ k id rid sealed);
  stored ← put_object k b;
  _ ← mensure (bool_decide (stored = id)) "stored id does not match";
  mret b.

(** [wanted]: the objects newly found missing, by the rid they travel under. *)
Definition wanted_map (sl : Sealer) (missing : list Object) : gmap ObjectId Object :=
  foldl (λ m o, <[sealer_remote_id o.1 o.2 := o]> m) ∅ missing.

(** The loop of one pass over the wanted objects in rid order. *)
Fixpoint pass_loop (sl : Sealer) (inbox : Dir) (files : gmap ObjectId bytes) (wanted : list (ObjectId * Object))
    (w : Walk) (stored : list bytes) (taken : list ObjectId) : M St (Walk * list bytes * list ObjectId) :=
  match wanted with
  | [] => mret (w, stored, taken)
  | (rid, (k, id)) :: wanted =>
    match files !! rid with
    | None => pass_loop sl inbox files wanted w stored taken
    | Some path =>
      b ← store_verified sl inbox k id rid path;
      w ← lift (expand k b w);
      pass_loop sl inbox files wanted w (stored ++ [path]) (taken ++ [rid])
    end
  end.

(** The loop of [take] inside the batch: passes until one takes nothing. The
    ledger grows as passes complete, even if a later one fails. *)
Fixpoint take_loop (sl : Sealer) (fuel efuel : nat) (inbox : Dir) (files : gmap ObjectId bytes)
    (w : Walk) (stored : list bytes) (imported : Z) (ledger : bytes) (s : St)
    : option (Res (list bytes * Z) * bytes * St) :=
  match fuel with
  | O => None
  | S fuel =>
    match explore efuel s usize_max w with
    | None => None
    | Some (Err e) => Some (Err e, ledger, s)
    | Some (Ok (found, w)) =>
      match pass_loop sl inbox files (btree_iter (wanted_map sl (missing found))) w stored [] s with
      | (Err e, s) => Some (Err e, ledger, s)
      | (Ok (w, stored, []), s) => Some (Ok (stored, imported), ledger, s)
      | (Ok (w, stored, taken), s) =>
        take_loop sl fuel efuel inbox files w stored (imported + Z.of_nat (length taken)) (append taken ledger) s
      end
    end
  end.

Definition held_rids (sl : Sealer) (fuel : nat) (s : St) (head : ObjectId) : option (Res (gset ObjectId)) :=
  match survey fuel s head usize_max with
  | None => None
  | Some r => Some (found ← r; Ok (list_to_set (map (λ o, sealer_remote_id o.1 o.2) (present found))))
  end.

(** [settle_leftovers]: how many unwanted files there were, and the inbox after. *)
Definition settle_leftovers (sl : Sealer) (fuel : nat) (s : St) (head : ObjectId) (inbox : Dir) (primed : bool)
    : option (Res Z * Dir) :=
  match inbox_files inbox with
  | Err e => Some (Err e, inbox)
  | Ok leftovers =>
    if bool_decide (leftovers = ∅) then Some (Ok 0, inbox)
    else
      match held_rids sl fuel s head with
      | None => None
      | Some (Err e) => Some (Err e, inbox)
      | Some (Ok held) =>
        let extra := base.filter (λ '(rid, _), rid ∉ (held : gset ObjectId)) (btree_iter leftovers) in
        if negb primed && negb (match extra with [] => true | _ => false end)
        then Some (Err "import object: not wanted for head", inbox)
        else
          match remove_files (btree_iter leftovers).*2 inbox with
          | (Ok (), inbox) => Some (Ok (Z.of_nat (length extra)), inbox)
          | (Err e, inbox) => Some (Err e, inbox)
          end
      end
  end.

(** [take]: one batch, rolled back when it fails; then the files stored are
    removed and the leftovers settled. *)
Definition take_ (sl : Sealer) (fuel efuel : nat) (head : ObjectId) (leftovers : Leftovers) (w : World)
    : option (Res Taken * World) :=
  match inbox_files (inbox w) with
  | Err e => Some (Err e, w)
  | Ok files =>
    match take_loop sl fuel efuel (inbox w) files (Walk_new head) [] 0 (ledger w) (store w) with
    | None => None
    | Some (Err e, ledger, _) => Some (Err e, mkWorld (store w) ledger (inbox w))
    | Some (Ok (stored, imported), ledger, s) =>
      match remove_files stored (inbox w) with
      | (Err e, inbox) => Some (Err e, mkWorld s ledger inbox)
      | (Ok (), inbox) =>
      if decide (leftovers = Keep) then Some (Ok (mkTaken imported 0), mkWorld s ledger inbox)
      else
        match settle_leftovers sl efuel s head inbox (bool_decide (leftovers = Delete)) with
        | None => None
        | Some (Err e, inbox) => Some (Err e, mkWorld s ledger inbox)
        | Some (Ok extras, inbox) => Some (Ok (mkTaken imported extras), mkWorld s ledger inbox)
        end
      end
    end
  end.

(** ** [ops.rs]: the modes of an import *)

Inductive ImportMode := Strict | Primed | Partial.
Definition from_flags (primed partial : bool) : Res ImportMode :=
  match primed, partial with
  | true, true => Err "primed and partial cannot be combined"
  | true, false => Ok Primed
  | false, true => Ok Partial
  | false, false => Ok Strict
  end.
Definition import_from_store (sl : Sealer) (fuel efuel : nat) (head : ObjectId) (mode : ImportMode) (w : World)
    : option (Res Taken * World) :=
  take_ sl fuel efuel head (match mode with Strict => Refuse | Primed => Delete | Partial => Keep end) w.
End Exchange.
