(* ===== verification/ExchangeTheory.v ===== *)
(** * ExchangeTheory: surveys see the closure, imports complete it

    The walk keeps one invariant ([walk_inv]) across explorations, stores and
    passes: every id met is queued, done or missing, once, and the children of
    everything done have been met. *)

From S2P Require Import Prelude Model Concrete Tree Bundle Objects Ledger Frame Crypto BundleTheory Exchange.
#[local] Open Scope Z_scope.

Definition ids (l : list Object) : list ObjectId := map snd l.

Lemma elem_of_ids k id l : (k, id) ∈ l → id ∈ ids l.
Proof. intros H. by apply (list_elem_of_fmap_2 snd) in H. Qed.
Lemma ids_elem_of id l : id ∈ ids l → ∃ k, (k, id) ∈ l.
Proof. intros ([k i] & -> & H)%list_elem_of_fmap. eauto. Qed.
Lemma ids_app l k : ids (l ++ k) = ids l ++ ids k.
Proof. apply map_app. Qed.

(** The index of a store: an id is there when some kind reads at it, and only
    one object sits at an id. *)
Class IndexOk (St : Type) `{ObjectStore St, ObjectIndex St} := {
  contains_read : ∀ id s, contains_object id s = true ↔ ∃ k b, read_object k id s = Ok b;
  read_one : ∀ k k' id s b b', read_object k id s = Ok b → read_object k' id s = Ok b' → k = k' ∧ b = b';
}.

Lemma contains_extends {St} `{IndexOk St} (s s' : St) id :
  extends s s' → contains_object id s = true → contains_object id s' = true.
Proof. intros He (k & b & Hb)%contains_read. apply contains_read. exists k, b. by apply He. Qed.

Section Walks.
Context {St : Type} {OS : ObjectStore St} {OI : ObjectIndex St}.
Context `{JS : Json Snapshot, JT : Json Tree, JB : Json Blob}.

(** ** Queueing children *)

Lemma expand_spec (es : list (ObjectId * ObjectKind)) w :
  let w' := foldl enqueue_child w es in
  ∃ new, queue w' = queue w ++ new ∧ NoDup (ids new) ∧
    (∀ k c, (k, c) ∈ new → (c, k) ∈ es ∧ c ∉ seen w) ∧
    (∀ id, id ∈ seen w' ↔ id ∈ seen w ∨ id ∈ ids new) ∧
    (∀ c k, (c, k) ∈ es → c ∈ seen w') ∧
    base.size (seen w') = (base.size (seen w) + length new)%nat.
Proof.
  cbv zeta. revert w. induction es as [|[c k] es IH]; intros w; cbn [foldl].
  { exists []. rewrite app_nil_r. split_and!; [done | apply NoDup_nil_2 | by intros ?? ?%not_elem_of_nil | | by intros ?? ?%not_elem_of_nil |].
    - intros id. unfold ids. cbn. rewrite elem_of_nil. tauto.
    - cbn. lia. }
  assert (enqueue_child w (c, k) = if decide (c ∈ seen w) then w else mkWalk ({[c]} ∪ seen w) (queue w ++ [(k, c)])) as -> by done.
  destruct (decide (c ∈ seen w)) as [Hin|Hni].
  - destruct (IH w) as (new & Hq & Hnd & Hnew & Hseen & Hes & Hsz). exists new. split_and!; try done.
    + intros k' c' Hin'. destruct (Hnew _ _ Hin'). split; [by right | done].
    + intros c' k' [[= -> ->]|Hin']%elem_of_cons; [| by eapply Hes]. apply Hseen. by left.
  - destruct (IH (mkWalk ({[c]} ∪ seen w) (queue w ++ [(k, c)]))) as (new & Hq & Hnd & Hnew & Hseen & Hes & Hsz).
    cbn [queue seen] in *. exists ((k, c) :: new). split_and!.
    + rewrite Hq, <- app_assoc. done.
    + apply NoDup_cons_2; [| done]. intros (k' & Hin)%ids_elem_of. apply Hnew in Hin as [_ Hin]. set_solver.
    + intros k' c' [[= -> ->]|Hin']%elem_of_cons; [by split; [left |] |]. apply Hnew in Hin' as [? Hin'].
      split; [by right | set_solver].
    + intros id. rewrite Hseen. unfold ids. cbn [map snd]. rewrite elem_of_cons. set_solver.
    + intros c' k' [[= -> ->]|Hin']%elem_of_cons; [| by eapply Hes]. apply Hseen. left. set_solver.
    + rewrite Hsz, size_union, size_singleton by set_solver. cbn [length]. lia.
Qed.

(** ** The invariant of a walk

    [D] are the objects done, [M] those found missing. *)
Record walk_inv (s : St) (head : ObjectId) (w : Walk) (D M : list Object) : Prop := {
  wi_nodup : NoDup (ids (queue w ++ D ++ M));
  wi_seen : ∀ id, id ∈ seen w ↔ id ∈ ids (queue w ++ D ++ M);
  wi_head : (SnapshotKind, head) ∈ queue w ++ D ++ M;
  wi_done : ∀ k id, (k, id) ∈ D → contains_object id s = true ∧
    (is_leaf k = false → ∃ b es, read_object k id s = Ok b ∧ object_edges k b = Ok es ∧
       ∀ c ck, (c, ck) ∈ es → c ∈ seen w);
  wi_reach : ∀ k id, (k, id) ∈ queue w ++ D ++ M →
    (k, id) = (SnapshotKind, head) ∨
    ∃ pk pid b es, (pk, pid) ∈ D ∧ read_object pk pid s = Ok b ∧ object_edges pk b = Ok es ∧ (id, k) ∈ es;
}.

Lemma walk_inv_new s head : walk_inv s head (Walk_new head) [] [].
Proof.
  split; cbn [queue seen Walk_new app ids map snd].
  - by apply NoDup_singleton.
  - intros id. rewrite elem_of_singleton, list_elem_of_singleton. done.
  - by left.
  - by intros ?? ?%not_elem_of_nil.
  - intros k id [=-> ->]%list_elem_of_singleton. by left.
Qed.

Lemma move_front {A} (o : A) q D M : (o :: q) ++ D ++ M ≡ₚ q ++ (D ++ [o]) ++ M.
Proof. rewrite <- app_assoc. cbn. rewrite (app_assoc q D), (app_assoc q D). apply Permutation_middle. Qed.
Lemma move_missing {A} (o : A) q D M : (o :: q) ++ D ++ M ≡ₚ q ++ D ++ (M ++ [o]).
Proof. rewrite (app_assoc D), (app_assoc q). cbn. by rewrite <- Permutation_cons_append. Qed.

Lemma ids_perm l k : l ≡ₚ k → ids l ≡ₚ ids k.
Proof. intros Hp. unfold ids. by rewrite Hp. Qed.

(** The front of the queue is missing. *)
Lemma walk_inv_missing s head w D M o rest :
  queue w = o :: rest → walk_inv s head w D M → walk_inv s head (mkWalk (seen w) rest) D (M ++ [o]).
Proof.
  intros Hq [Hnd Hs Hh Hd Hr]. rewrite Hq in *. pose proof (move_missing o rest D M) as Hp.
  split; cbn [queue seen].
  - by rewrite <- (ids_perm _ _ Hp).
  - intros id. by rewrite <- (ids_perm _ _ Hp).
  - by rewrite <- Hp.
  - done.
  - intros k id. rewrite <- Hp. apply Hr.
Qed.

(** An object of the queue or among the missing turns out to be there, and its
    children (none for a leaf) are queued. *)
Lemma walk_inv_done s head w D M k id rest M' es :
  queue w ++ D ++ M ≡ₚ rest ++ (D ++ [(k, id)]) ++ M' → walk_inv s head w D M → contains_object id s = true →
  (if is_leaf k then es = [] else ∃ b, read_object k id s = Ok b ∧ object_edges k b = Ok es) →
  walk_inv s head (foldl enqueue_child (mkWalk (seen w) rest) es) (D ++ [(k, id)]) M'.
Proof.
  intros Hp [Hnd Hs Hh Hd Hr] Hc Hes.
  destruct (expand_spec es (mkWalk (seen w) rest)) as (new & Hq' & Hnew & Hsub & Hseen & Hall & _). cbn [queue seen] in *.
  assert (∀ l, (rest ++ new) ++ l ≡ₚ new ++ rest ++ l) as Hp'.
  { intros l. rewrite <- app_assoc, app_assoc, (Permutation_app_comm rest new), <- app_assoc. done. }
  split; rewrite ?Hq'.
  - rewrite (ids_perm _ _ (Hp' _)), ids_app, NoDup_app. split_and!; [done | | by rewrite <- (ids_perm _ _ Hp)].
    intros c (k' & Hin)%ids_elem_of. apply Hsub in Hin as [_ Hin]. rewrite Hs in Hin.
    by rewrite <- (ids_perm _ _ Hp).
  - intros i. rewrite Hseen, Hs, (ids_perm _ _ (Hp' _)), (ids_app new), elem_of_app, <- (ids_perm _ _ Hp). tauto.
  - rewrite Hp', elem_of_app. right. by rewrite <- Hp.
  - intros k' id' [Hin|[= -> ->]%list_elem_of_singleton]%elem_of_app.
    + destruct (Hd _ _ Hin) as [Hc' Hl]. split; [done |]. intros Hk. destruct (Hl Hk) as (b & es' & ? & ? & Hch).
      exists b, es'. split_and!; [done | done |]. intros c ck Hcin. apply Hseen. left. by eapply Hch.
    + split; [done |]. intros Hk. rewrite Hk in Hes. destruct Hes as (b & Hb & He). exists b, es. split_and!; [done | done |].
      intros c ck Hcin. by eapply Hall.
  - intros k' id'. rewrite Hp', elem_of_app, <- Hp. intros [Hin|Hin].
    + right. apply Hsub in Hin as [Hin _]. destruct (is_leaf k) eqn:El; [subst es; by apply not_elem_of_nil in Hin |].
      destruct Hes as (b & Hb & He). exists k, id, b, es. split_and!; [| done..]. apply elem_of_app. right. by left.
    + destruct (Hr _ _ Hin) as [?|(pk & pid & b & es' & Hp1 & ? & ? & ?)]; [by left | right].
      exists pk, pid, b, es'. split_and!; [| done..]. apply elem_of_app. by left.
Qed.

(** A store that only grew. *)
Lemma walk_inv_extends `{!IndexOk St} s s' head w D M :
  extends s s' → walk_inv s head w D M → walk_inv s' head w D M.
Proof.
  intros He [Hnd Hs Hh Hd Hr]. split; try done.
  - intros k id Hin. destruct (Hd _ _ Hin) as [Hc Hl]. split; [by eapply contains_extends |].
    intros Hk. destruct (Hl Hk) as (b & es & ? & ? & ?). exists b, es. eauto.
  - intros k id Hin. destruct (Hr _ _ Hin) as [?|(pk & pid & b & es & ? & ? & ? & ?)]; [by left | right].
    exists pk, pid, b, es. eauto.
Qed.

(** ** Exploring *)

(** What an exploration that returns has found. *)
Lemma explore_loop_inv fuel s head limit found w D M found' w' :
  explore_loop fuel s limit found w = Some (Ok (found', w')) →
  walk_inv s head w (D ++ present found) (M ++ missing found) →
  walk_inv s head w' (D ++ present found') (M ++ missing found') ∧
  (queue w' = [] ∨ limit ≤ Z.of_nat (length (missing found'))) ∧
  (∀ k id, (k, id) ∈ present found' → (k, id) ∈ present found ∨ contains_object id s = true) ∧
  (∀ k id, (k, id) ∈ missing found' → (k, id) ∈ missing found ∨ contains_object id s = false).
Proof.
  revert found w. induction fuel as [|fuel IH]; intros found w; [done |]. cbn [explore_loop].
  destruct (Z.ltb_spec (Z.of_nat (length (missing found))) limit) as [Hlt|Hge].
  2: { intros [= <- <-] Hi. split_and!; [done | by right | by left | by left]. }
  destruct (queue w) as [|[k id] rest] eqn:Eq.
  { intros [= <- <-] Hi. split_and!; [done | by left | by left | by left]. }
  destruct (contains_object id s) eqn:Ec; cbn [negb].
  - intros Hrun Hi.
    assert (∃ es w1, (if is_leaf k then es = [] else ∃ b, read_object k id s = Ok b ∧ object_edges k b = Ok es) ∧
      w1 = foldl enqueue_child (mkWalk (seen w) rest) es ∧
      explore_loop fuel s limit (mkSurvey (present found ++ [(k, id)]) (missing found)) w1 = Some (Ok (found', w')))
      as (es & w1 & Hes & -> & Hrun').
    { destruct (is_leaf k); [by exists [], (mkWalk (seen w) rest) |]. unfold expand in Hrun.
      destruct (read_object k id s) as [b|]; [| done]. cbn [mbind Res_bind] in Hrun.
      destruct (object_edges k b) as [es|] eqn:Ee; [| done]. cbn [mbind Res_bind] in Hrun.
      exists es, (foldl enqueue_child (mkWalk (seen w) rest) es). split_and!; [by exists b | done..]. }
    apply IH in Hrun' as (Hi' & Hq & Hpres & Hmiss).
    + split_and!; [done | done | | done]. intros k' id' Hin. destruct (Hpres _ _ Hin) as [[?|[= -> ->]%list_elem_of_singleton]%elem_of_app|?];
        [by left | by right | by right].
    + cbn [present missing]. rewrite app_assoc. eapply walk_inv_done; [| done..].
      rewrite Eq. apply move_front.
  - intros Hrun Hi. apply IH in Hrun as (Hi' & Hq & Hpres & Hmiss).
    + split_and!; [done | done | done |]. intros k' id' Hin. destruct (Hmiss _ _ Hin) as [[?|[= -> ->]%list_elem_of_singleton]%elem_of_app|?];
        [by left | by right | by right].
    + cbn [present missing]. rewrite app_assoc. by apply walk_inv_missing.
Qed.

(** A survey below its limit lists the head, then the children of whatever
    it lists as present, each id once; what it lists as present is in the store
    and what it lists as missing is not. *)
Theorem survey_spec fuel s head limit found :
  survey fuel s head limit = Some (Ok found) → Z.of_nat (length (missing found)) < limit →
  let listed := present found ++ missing found in
  NoDup (ids listed) ∧ (SnapshotKind, head) ∈ listed ∧
  (∀ k id, (k, id) ∈ present found → contains_object id s = true ∧
     (is_leaf k = false → ∃ b es, read_object k id s = Ok b ∧ object_edges k b = Ok es ∧
        ∀ c ck, (c, ck) ∈ es → c ∈ ids listed)) ∧
  (∀ k id, (k, id) ∈ missing found → contains_object id s = false) ∧
  ∀ k id, (k, id) ∈ listed → (k, id) = (SnapshotKind, head) ∨
    ∃ pk pid b es, (pk, pid) ∈ present found ∧ read_object pk pid s = Ok b ∧ object_edges pk b = Ok es ∧ (id, k) ∈ es.
Proof.
  unfold survey, explore. destruct (explore_loop _ _ _ _ _) as [[[f w]|]|] eqn:E; [| done..]. intros [= ->] Hlim.
  apply (explore_loop_inv _ _ head _ _ _ [] []) in E as ([Hnd Hs Hh Hd Hr] & Hq & _ & Hmiss); [| apply walk_inv_new].
  destruct Hq as [Hq|?]; [| lia]. cbn [app missing] in *. rewrite Hq in *. cbn [app] in *.
  split_and!; try done.
  - intros k id Hin. destruct (Hd _ _ Hin) as [Hc Hl]. split; [done |]. intros Hk.
    destruct (Hl Hk) as (b & es & ? & ? & Hch). exists b, es. split_and!; [done | done |].
    intros c ck Hc'. rewrite <- Hs. by eapply Hch.
  - intros k id Hin. by destruct (Hmiss _ _ Hin) as [?%not_elem_of_nil|].
Qed.

(** ** Termination *)

(** [U] holds every id that objects of [U] name. *)
Definition edges_within (s : St) (U : gset ObjectId) : Prop :=
  ∀ k id b es c ck, id ∈ U → read_object k id s = Ok b → object_edges k b = Ok es → (c, ck) ∈ es → c ∈ U.

Lemma explore_loop_terminates fuel s limit found w U :
  edges_within s U → seen w ⊆ U → (∀ k id, (k, id) ∈ queue w → id ∈ U) →
  (base.size U - base.size (seen w) + length (queue w) < fuel)%nat → explore_loop fuel s limit found w ≠ None.
Proof.
  intros HU. revert found w. induction fuel as [|fuel IH]; intros found w Hs Hq Hf; [lia |]. cbn [explore_loop].
  destruct (_ <? limit); [| done]. destruct (queue w) as [|[k id] rest] eqn:Eq; [done |]. cbn [length] in Hf.
  assert (∀ f, explore_loop fuel s limit f (mkWalk (seen w) rest) ≠ None) as Hrest.
  { intros f. apply IH; cbn [seen queue]; [done | | lia]. intros k' id' Hin. apply (Hq k'). by right. }
  destruct (negb _); [apply Hrest |]. destruct (is_leaf k); [apply Hrest |].
  destruct (read_object k id s) as [b|] eqn:Er; [| done]. cbn [mbind Res_bind]. unfold expand.
  destruct (object_edges k b) as [es|] eqn:Ee; [| done]. cbn [mbind Res_bind].
  destruct (expand_spec es (mkWalk (seen w) rest)) as (new & Hq' & _ & Hsub & Hseen & _ & Hsz). cbn [queue seen] in *.
  assert (∀ k' c, (k', c) ∈ new → c ∈ U) as Hnew.
  { intros k' c Hin. apply Hsub in Hin as [Hin _]. eapply (HU k id); [| done..]. apply (Hq k). by left. }
  assert (seen (foldl enqueue_child (mkWalk (seen w) rest) es) ⊆ U) as Hs'.
  { intros i [Hi|[k' Hi]%ids_elem_of]%Hseen; [by apply Hs | by eapply Hnew]. }
  apply IH; [done | |].
  - rewrite Hq'. intros k' id' [Hin|Hin]%elem_of_app; [apply (Hq k'); by right | by eapply Hnew].
  - apply subseteq_size in Hs'. rewrite Hq', length_app, Hsz in *. lia.
Qed.

(** A survey ends after at most one step per id that can be met. *)
Theorem survey_terminates fuel s head limit U :
  edges_within s U → head ∈ U → (base.size U < fuel)%nat → survey fuel s head limit ≠ None.
Proof.
  intros HU Hh Hf. unfold survey, explore.
  assert (1 ≤ base.size U)%nat as Hsz.
  { rewrite <- (size_singleton (C := gset ObjectId) head). apply subseteq_size. set_solver. }
  pose proof (explore_loop_terminates fuel s limit (mkSurvey [] []) (Walk_new head) U HU) as Ht.
  destruct (explore_loop _ _ _ _ _) as [[[]|]|]; [done | done |]. exfalso. apply Ht; [set_solver | | | done].
  - by intros k id [= -> ->]%list_elem_of_singleton.
  - cbn [seen queue Walk_new length]. rewrite size_singleton. lia.
Qed.
End Walks.

(** ** Transfer: an import of a graph whose sealed objects are all there *)

Lemma inbox_names_spec `{Hex} names files files' :
  inbox_names names files = Ok files' → ∀ rid nm, files' !! rid = Some nm →
  files !! rid = Some nm ∨ nm ∈ names ∧ parse_rid nm = Some rid.
Proof.
  revert files. induction names as [|n names IH]; intros files; cbn [inbox_names]; [by intros [= <-]; left |].
  destruct (starts_with n _).
  { intros Hn rid nm Hf. destruct (IH _ Hn _ _ Hf) as [?|[? ?]]; [by left | right; split; [by right | done]]. }
  destruct (parse_rid n) as [r|] eqn:Ep; [| done]. cbn [with_context mbind Res_bind].
  intros Hn rid nm Hf. destruct (IH _ Hn _ _ Hf) as [Hi|[? ?]]; [| right; split; [by right | done]].
  destruct (decide (r = rid)) as [->|]; [| rewrite lookup_insert_ne in Hi by done; by left].
  rewrite lookup_insert, decide_True in Hi by done. assert (nm = n) as -> by congruence.
  right. split; [by left | done].
Qed.
(** A file of the inbox is listed under the one rid its name spells. *)
Lemma inbox_files_spec `{Hex} inbox files rid nm :
  inbox_files inbox = Ok files → files !! rid = Some nm → is_Some (inbox !! nm) ∧ parse_rid nm = Some rid.
Proof.
  intros Hf Hr. destruct (inbox_names_spec _ _ _ Hf _ _ Hr) as [?%lookup_empty_Some|[Hin ?]]; [done |]. split; [| done].
  apply list_elem_of_fmap in Hin as ([nm' c] & -> & Hin). apply elem_of_map_to_list in Hin. by eexists.
Qed.

(** Every name that does not start with a dot is listed, or the listing fails. *)
Lemma inbox_names_listed `{Hex} names files files' :
  inbox_names names files = Ok files' → (∀ rid, is_Some (files !! rid) → is_Some (files' !! rid)) ∧
  ∀ nm, nm ∈ names → starts_with nm (b_ ".") = false → ∃ rid, parse_rid nm = Some rid ∧ is_Some (files' !! rid).
Proof.
  revert files. induction names as [|n names IH]; intros files; cbn [inbox_names].
  { intros [= <-]. split; [done | by intros ? ?%not_elem_of_nil]. }
  destruct (starts_with n _) eqn:Ed.
  { intros [H1 H2]%IH. split; [done |]. intros nm [->|Hin]%elem_of_cons Hd; [by rewrite Ed in Hd | by apply H2]. }
  destruct (parse_rid n) as [r|] eqn:Ep; [| done]. cbn [with_context mbind Res_bind]. intros [H1 H2]%IH. split.
  - intros rid Hr. apply H1. destruct (decide (r = rid)) as [->|]; [by rewrite lookup_insert, decide_True by done; eexists | by rewrite lookup_insert_ne].
  - intros nm [->|Hin]%elem_of_cons Hd; [| by apply H2]. exists r. split; [done |]. apply H1. rewrite lookup_insert, decide_True by done. by eexists.
Qed.
Lemma inbox_names_ok `{Hex} names files :
  (∀ nm, nm ∈ names → starts_with nm (b_ ".") = false → is_Some (parse_rid nm)) → ∃ files', inbox_names names files = Ok files'.
Proof.
  revert files. induction names as [|n names IH]; intros files Hn; cbn [inbox_names]; [by eexists |].
  assert (∀ files, ∃ files', inbox_names names files = Ok files') as Hr by (intros f; apply IH; intros nm Hin; apply Hn; by right).
  destruct (starts_with n _) eqn:Ed; [apply Hr |]. destruct (Hn n ltac:(by left) Ed) as [r ->]. cbn [with_context mbind Res_bind]. apply Hr.
Qed.
Lemma inbox_files_listed `{Hex} inbox files nm : inbox_files inbox = Ok files → is_Some (inbox !! nm) → starts_with nm (b_ ".") = false →
  ∃ rid, parse_rid nm = Some rid ∧ is_Some (files !! rid).
Proof.
  intros Hf [c Hc]. apply (inbox_names_listed _ _ _ Hf). apply list_elem_of_fmap. exists (nm, c). split; [done |]. by apply elem_of_map_to_list.
Qed.
Lemma inbox_files_sub `{Hex} inbox inbox' files : inbox_files inbox = Ok files → inbox' ⊆ inbox → ∃ files', inbox_files inbox' = Ok files'.
Proof.
  intros Hf Hsub. apply inbox_names_ok. intros nm ([nm' c] & -> & Hin%elem_of_map_to_list)%list_elem_of_fmap Hd. cbn in *.
  destruct (inbox_files_listed _ _ nm' Hf) as (rid & -> & _); [| done | by eexists]. exists c. by eapply lookup_weaken.
Qed.
Lemma inbox_name_plain `{Hex} inbox files rid nm : inbox_files inbox = Ok files → files !! rid = Some nm → starts_with nm (b_ ".") = false.
Proof.
  unfold inbox_files. assert (∀ names files', (∀ rid nm, files' !! rid = Some nm → starts_with nm (b_ ".") = false) →
    inbox_names names files' = Ok files → ∀ rid nm, files !! rid = Some nm → starts_with nm (b_ ".") = false) as Hgen.
  { intros names. induction names as [|n names IH]; intros files' Hf; cbn [inbox_names]; [by intros [= <-] |].
    destruct (starts_with n _) eqn:Ed; [by apply IH |]. destruct (parse_rid n) as [r|]; [| done]. apply IH. cbn.
    intros rid' nm' [[_ <-]|[_ ?]]%lookup_insert_Some; [done | by eapply Hf]. }
  intros Hf. eapply Hgen; [| exact Hf]. intros rid' nm'. by rewrite lookup_empty.
Qed.

Lemma remove_files_ok paths d :
  NoDup paths → (∀ p, p ∈ paths → is_Some (d !! p)) → ∃ d', remove_files paths d = (Ok (), d') ∧ d' ⊆ d ∧
    (∀ p, p ∉ paths → d' !! p = d !! p) ∧ (∀ p, p ∈ paths → d' !! p = None).
Proof.
  revert d. induction paths as [|p paths IH]; intros d Hnd Hin; cbn [remove_files].
  { exists d. split_and!; try done. by intros p ?%not_elem_of_nil. }
  apply NoDup_cons in Hnd as [Hni Hnd]. destruct (Hin p ltac:(by left)) as [c ->].
  destruct (IH (delete p d) Hnd) as (d' & -> & Hs & Hl & Hg).
  { intros q Hq. rewrite lookup_delete_ne by (intros ->; done). apply Hin. by right. }
  exists d'. split_and!; [done | by etrans; [| apply delete_subseteq] | |].
  - intros q [Hne Hq]%not_elem_of_cons. by rewrite Hl, lookup_delete_ne by done.
  - intros q [->|Hq]%elem_of_cons; [by rewrite (Hl p Hni), lookup_delete, decide_True | by apply Hg].
Qed.

Section Transfer.
#[local] Set Default Proof Using "All".
Context {St : Type} {OS : ObjectStore St} {OI : ObjectIndex St} {IO : IndexOk St}.
Context `{JS : Json Snapshot, JT : Json Tree, JB : Json Blob, B3 : Blake3, HX : Hex, HO : !HexOk}.
Context {CS : ContentStoreOk St} (sl : Sealer) {SO : SealerOk}.

(** The objects of a snapshot, closed under their edges. *)
Abbreviation Graph := (gmap ObjectId (ObjectKind * bytes)).
Record graph_ok (C : Graph) (head : ObjectId) : Prop := {
  graph_head : ∃ b, C !! head = Some (SnapshotKind, b);
  graph_edges : ∀ id k b, C !! id = Some (k, b) → ∃ es, object_edges k b = Ok es ∧
    ∀ c ck, (c, ck) ∈ es → ∃ b', C !! c = Some (ck, b');
  graph_addressed : ∀ id k b, C !! id = Some (k, b) → object_id k b = id ∧ blen b ≤ MAX_OBJECT_LEN;
  graph_rids : ∀ id k b id' k' b', C !! id = Some (k, b) → C !! id' = Some (k', b') →
    sealer_remote_id k id = sealer_remote_id k' id' → id = id';
}.
(** Reached from the head along the edges. *)
Inductive reach (C : Graph) (head : ObjectId) : ObjectId → Prop :=
| reach_head : reach C head head
| reach_edge id k b es c ck : reach C head id → C !! id = Some (k, b) → object_edges k b = Ok es → (c, ck) ∈ es →
    reach C head c.
(** What the store has of the graph is the graph's. *)
Definition store_agrees (C : Graph) (s : St) : Prop :=
  ∀ id k b, C !! id = Some (k, b) → contains_object id s = true → read_object k id s = Ok b.
(** The inbox holds a sealed copy of everything of the graph that the store lacks. *)
Definition supplied (C : Graph) (s : St) (inbox : Dir) (files : gmap ObjectId bytes) : Prop :=
  ∀ id k b, C !! id = Some (k, b) → contains_object id s = false → ∃ path sealed,
    files !! sealer_remote_id k id = Some path ∧ inbox !! path = Some sealed ∧
    seal k id b = Ok (sealer_remote_id k id, sealed).

Context (C : Graph) (head : ObjectId) (HC : graph_ok C head).

(** Objects of the graph that the head reaches. *)
Definition within (l : list Object) : Prop := ∀ k id, (k, id) ∈ l → ∃ b, C !! id = Some (k, b) ∧ reach C head id.

Lemma within_app l k : within (l ++ k) ↔ within l ∧ within k.
Proof using. unfold within. setoid_rewrite elem_of_app. naive_solver. Qed.

Lemma within_nil : within [].
Proof using. by intros ?? ?%not_elem_of_nil. Qed.

#[local] Instance within_proper : Proper ((≡ₚ) ==> iff) (within).
Proof using. intros l l' Hp. unfold within. by setoid_rewrite Hp. Qed.

Lemma within_length l : NoDup (ids l) → within l → (length l ≤ base.size C)%nat.
Proof using.
  intros Hnd Hw. rewrite <- (size_dom (D := gset ObjectId) C). rewrite <- (length_map snd l). change (map snd l) with (ids l).
  rewrite <- (size_list_to_set (C := gset ObjectId) (ids l)) by done. apply subseteq_size.
  intros id (k & Hin)%elem_of_list_to_set%ids_elem_of. apply Hw in Hin as (b & Hb & _). by apply elem_of_dom_2 in Hb.
Qed.

(** A put of an object of the graph that the store lacks. *)
Lemma put_graph_object s id k b :
  store_agrees C s → C !! id = Some (k, b) → ∃ s', put_object k b s = (Ok id, s') ∧ extends s s' ∧
    read_object k id s' = Ok b ∧ store_agrees C s'.
Proof.
  intros Ha Hb. destruct (graph_addressed _ _ HC _ _ _ Hb) as [Hid Hlen].
  destruct (put_stores k b s Hlen) as (s' & Hput & Hr). rewrite Hid in Hput, Hr. exists s'.
  pose proof (put_keeps _ _ _ _ _ Hput) as Hext. split_and!; [done | done | |].
  - destruct Hr as [?|(k' & b' & Hr & Hne)]; [done |]. destruct Hne.
    destruct (read_one k' k id s b' b) as [-> ->]; [done | | done]. apply Ha; [done |]. apply contains_read. eauto.
  - intros i ki bi Hi (k' & b' & Hr')%contains_read. destruct (put_adds _ _ _ _ _ _ _ _ Hput Hr') as [Hr''|(-> & -> & ->)].
    + apply Hext, Ha; [done |]. apply contains_read. eauto.
    + rewrite Hid in *. by assert (ki = k ∧ bi = b) as [-> ->] by (split; congruence).
Qed.

(** An exploration of a store that agrees with the graph stays in it and does
    not fail. *)
Lemma explore_loop_within fuel s limit found w r :
  store_agrees C s → explore_loop fuel s limit found w = Some r →
  within (queue w) → within (present found) → within (missing found) →
  ∃ found' w', r = Ok (found', w') ∧ within (queue w') ∧ within (present found') ∧ within (missing found').
Proof.
  intros Ha. revert found w. induction fuel as [|fuel IH]; intros found w; [done |]. cbn [explore_loop].
  destruct (_ <? limit); [| intros [= <-]; eauto 7]. destruct (queue w) as [|[k id] rest] eqn:Eq.
  { intros [= <-] ? ? ?. exists found, w. by rewrite Eq. }
  intros Hrun Hq Hpres Hm. assert (within rest) as Hrest by (intros ???; apply Hq; by right).
  destruct (Hq k id ltac:(by left)) as (b & Hb & Hreach).
  assert (∀ l, within l → within (l ++ [(k, id)])) as Hadd.
  { intros l Hl. apply within_app. split; [done |]. intros k' id' [= -> ->]%list_elem_of_singleton. eauto. }
  destruct (contains_object id s) eqn:Ec; cbn [negb] in Hrun.
  - destruct (is_leaf k); [apply (IH _ _ Hrun); [done | by apply Hadd | done] |].
    rewrite (Ha _ _ _ Hb Ec) in Hrun. cbn [mbind Res_bind] in Hrun. unfold expand in Hrun.
    destruct (graph_edges _ _ HC _ _ _ Hb) as (es & He & Hes). rewrite He in Hrun. cbn [mbind Res_bind] in Hrun.
    apply (IH _ _ Hrun); [| by apply Hadd | done].
    destruct (expand_spec es (mkWalk (seen w) rest)) as (new & -> & _ & Hsub & _). apply within_app. split; [done |].
    intros k' c Hin. apply Hsub in Hin as [Hin _]. destruct (Hes _ _ Hin) as [b' Hb']. exists b'. split; [done | by eapply reach_edge].
  - apply (IH _ _ Hrun); [done | done | by apply Hadd].
Qed.

(** The objects newly missing, by rid. *)
Lemma wanted_map_spec l :
  NoDup (ids l) → within l → let wanted := btree_iter (wanted_map sl l) in
  wanted.*2 ≡ₚ l ∧ wanted.*1 = map (λ o, sealer_remote_id o.1 o.2) wanted.*2.
Proof.
  intros Hnd Hw. set (rid := λ o : Object, sealer_remote_id o.1 o.2).
  assert (∀ l' (m : gmap ObjectId Object), within (l' ++ l) → (∀ r o, m !! r = Some o ↔ o ∈ l' ∧ r = rid o) →
    ∀ r o, foldl (λ m o, <[rid o := o]> m) m l !! r = Some o ↔ o ∈ l' ++ l ∧ r = rid o) as Hmap.
  { clear Hnd Hw. induction l as [|[k id] l IH]; intros l' m Hw Hm r o; cbn [foldl]; [by rewrite app_nil_r |].
    change ((k, id) :: l) with ([(k, id)] ++ l) in *. rewrite app_assoc in Hw |- *. apply IH; [done |].
    clear r o. intros r [k' id']. rewrite elem_of_app, list_elem_of_singleton, lookup_insert_Some, Hm.
    split; [naive_solver |]. intros [[Hin| ->] ->]; [| by left].
    destruct (decide (rid (k, id) = rid (k', id'))) as [He|]; [| by right]. left. split; [done |].
    destruct (Hw k id) as (b & Hb & _); [set_solver |]. destruct (Hw k' id') as (b' & Hb' & _); [set_solver |].
    assert (id = id') as <- by (by eapply (graph_rids _ _ HC)). congruence. }
  specialize (Hmap [] ∅ Hw). cbn [app] in Hmap.
  assert (∀ r o, (r, o) ∈ btree_iter (wanted_map sl l) ↔ o ∈ l ∧ r = rid o) as Helem.
  { intros r o. rewrite elem_of_btree_iter. apply Hmap. intros ??. rewrite lookup_empty, elem_of_nil. naive_solver. }
  cbv zeta. assert ((btree_iter (wanted_map sl l)).*1 = map rid (btree_iter (wanted_map sl l)).*2) as Hkeys.
  { change (map rid ?x) with (rid <$> x). rewrite <- list_fmap_compose. apply list_fmap_ext. intros i [r o] Hi.
    by apply list_elem_of_lookup_2, Helem in Hi as [_ ->]. }
  split; [| done]. apply NoDup_Permutation.
  - apply (NoDup_fmap_1 rid). change (rid <$> ?x) with (map rid x). rewrite <- Hkeys, btree_iter_keys. apply sorted_keys_NoDup.
  - by apply (NoDup_fmap_1 snd).
  - intros o. rewrite list_elem_of_fmap. split.
    + intros ([r o'] & -> & Hin). by apply Helem in Hin as [? _].
    + intros Hin. exists (rid o, o). split; [done |]. by apply Helem.
Qed.

(** The import started from [s0]; the inbox holds what [s0] lacks. *)
Context (s0 : St) (box : Dir) (files : gmap ObjectId bytes).
Context (Hfiles : inbox_files box = Ok files) (Hsup : supplied C s0 box files).

(** Between two objects of an import: [D] done, [M] wanted, the files [stored]
    to be removed. *)
Record taking (s : St) (w : Walk) (D M : list Object) (stored : list bytes) : Prop := {
  tk_walk : walk_inv s head w D M;
  tk_within : within (queue w ++ D ++ M);
  tk_agrees : store_agrees C s;
  tk_extends : extends s0 s;
  tk_nodup : NoDup stored;
  tk_stored : ∀ nm, nm ∈ stored → ∃ k id, (k, id) ∈ D ∧ files !! sealer_remote_id k id = Some nm;
}.

Lemma store_verified_ok s k id b path sealed :
  store_agrees C s → C !! id = Some (k, b) → box !! path = Some sealed → seal k id b = Ok (sealer_remote_id k id, sealed) →
  ∃ s', store_verified sl box k id (sealer_remote_id k id) path s = (Ok b, s') ∧ extends s s' ∧
    read_object k id s' = Ok b ∧ store_agrees C s'.
Proof.
  intros Ha Hb Hp Hs. destruct (put_graph_object s id k b Ha Hb) as (s' & Hput & ?). exists s'. split; [| done].
  unfold store_verified. rewrite Hp. cbn [with_context]. mpure. destruct (seal_open _ _ _ _ _ Hs) as (_ & _ & _ & ->). mpure.
  mrun Hput. by rewrite mensure_bind by by apply bool_decide_true.
Qed.

(** One wanted object of a pass. *)
Lemma taking_step s w D M stored k id :
  taking s w D ((k, id) :: M) stored → contains_object id s0 = false → ∃ path b s' w',
    files !! sealer_remote_id k id = Some path ∧ store_verified sl box k id (sealer_remote_id k id) path s = (Ok b, s') ∧
    expand k b w = Ok w' ∧ taking s' w' (D ++ [(k, id)]) M (stored ++ [path]).
Proof.
  intros [Hw Hin Ha He Hnd Hst] Hc. destruct (Hin k id) as (b & Hb & Hreach); [set_solver |].
  destruct (Hsup _ _ _ Hb Hc) as (path & sealed & Hf & Hp & Hs).
  destruct (store_verified_ok s k id b path sealed Ha Hb Hp Hs) as (s' & Hrun & He' & Hr & Ha').
  destruct (graph_edges _ _ HC _ _ _ Hb) as (es & Hes & Hch). exists path, b, s', (foldl enqueue_child w es).
  split_and!; [done | done | unfold expand; by rewrite Hes |].
  assert (queue w ++ D ++ (k, id) :: M ≡ₚ queue w ++ (D ++ [(k, id)]) ++ M) as Hperm by (by rewrite <- (app_assoc D)).
  assert (∀ d, d ∈ ids D → d ≠ id) as Hfresh.
  { intros d Hd ->. pose proof (wi_nodup _ _ _ _ _ Hw) as Hn. rewrite !ids_app in Hn.
    apply NoDup_app in Hn as (_ & _ & Hn). apply NoDup_app in Hn as (_ & Hn & _). apply (Hn _ Hd). by left. }
  split.
  - destruct w as [sn q]. eapply (walk_inv_done s' head (mkWalk sn q)); [exact Hperm | by eapply walk_inv_extends | |].
    + apply contains_read. eauto.
    + destruct (is_leaf k) eqn:El; [| by exists b]. destruct k; try done; cbn in Hes; by injection Hes as <-.
  - destruct (expand_spec es w) as (new & Hq & _ & Hsub & _). cbv zeta in Hq. rewrite Hq.
    rewrite Hperm in Hin. rewrite !within_app in Hin. rewrite !within_app.
    enough (within new) by tauto. intros k' c Hn. apply Hsub in Hn as [Hn _].
    destruct (Hch _ _ Hn) as [b' Hb']. exists b'. split; [done | by eapply reach_edge].
  - done.
  - by intros ??? ?; apply He', He.
  - apply NoDup_app. split_and!; [done | | by apply NoDup_singleton]. intros nm Hn ->%list_elem_of_singleton.
    destruct (Hst _ Hn) as (k1 & id1 & Hin1 & Hf1). destruct (inbox_files_spec _ _ _ _ Hfiles Hf) as [_ Hp1].
    destruct (inbox_files_spec _ _ _ _ Hfiles Hf1) as [_ Hp2]. destruct (Hin k1 id1) as (b1 & Hb1 & _); [set_solver |].
    apply (Hfresh id1); [by eapply elem_of_ids |]. eapply (graph_rids _ _ HC); [done | done | congruence].
  - intros nm [Hn| ->%list_elem_of_singleton]%elem_of_app.
    + destruct (Hst _ Hn) as (k1 & id1 & ? & ?). exists k1, id1. split; [set_solver | done].
    + exists k, id. split; [set_solver | done].
Qed.

Lemma pass_loop_ok wanted s w D stored taken :
  taking s w D wanted.*2 stored → wanted.*1 = map (λ o, sealer_remote_id o.1 o.2) wanted.*2 →
  (∀ k id, (k, id) ∈ wanted.*2 → contains_object id s0 = false) →
  ∃ s' w' stored', pass_loop sl box files wanted w stored taken s = (Ok (w', stored', taken ++ wanted.*1), s') ∧
    taking s' w' (D ++ wanted.*2) [] stored'.
Proof.
  revert s w D stored taken. induction wanted as [|[rid [k id]] wanted IH]; intros s w D stored taken Ht Hrid Hc; cbn [pass_loop].
  { exists s, w, stored. cbn. by rewrite !app_nil_r. }
  cbn in Hrid, Ht. injection Hrid as -> Hrid.
  destruct (taking_step s w D wanted.*2 stored k id Ht) as (path & b & s' & w' & Hf & Hrun & Hex & Ht').
  { apply (Hc k). by left. }
  rewrite Hf. mrun Hrun. rewrite Hex. mpure.
  destruct (IH s' w' (D ++ [(k, id)]) (stored ++ [path]) (taken ++ [sealer_remote_id k id]) Ht' Hrid) as (s'' & w'' & st'' & Hr & Ht'').
  { intros k' id' Hin. apply (Hc k'). by right. }
  exists s'', w'', st''. rewrite <- !app_assoc in *. by split.
Qed.

(** The graph holds fewer objects than a count can be, and the fuel covers it. *)
Context (efuel : nat) (Hsmall : Z.of_nat (base.size C) < usize_max) (Hfuel : (base.size C < efuel)%nat).

Lemma explore_runs s w D limit :
  walk_inv s head w D [] → within (queue w ++ D) → store_agrees C s →
  ∃ found w', explore efuel s limit w = Some (Ok (found, w')) ∧ within (present found) ∧ within (missing found).
Proof.
  intros Hw Hin Ha. assert (within (queue w)) as Hq by (apply within_app in Hin; tauto).
  assert (explore efuel s limit w ≠ None) as Hterm.
  { pose proof (wi_nodup _ _ _ _ _ Hw) as Hnd. pose proof (wi_seen _ _ _ _ _ Hw) as Hs.
    rewrite app_nil_r in Hnd, Hs.
    assert (base.size (seen w) = length (queue w ++ D)) as Hsz.
    { rewrite <- (length_map snd). change (map snd ?l) with (ids l). rewrite <- (size_list_to_set (C := gset ObjectId)) by done.
      f_equal. apply set_eq. intros i. by rewrite Hs, elem_of_list_to_set. }
    pose proof (within_length _ Hnd Hin) as Hlen.
    apply (explore_loop_terminates _ _ _ _ _ (dom C)).
    - intros k id b es c ck [[k' b'] Hi]%elem_of_dom Hr He Hc.
      assert (contains_object id s = true) as Hcon by (apply contains_read; eauto).
      destruct (read_one _ _ _ _ _ _ Hr (Ha _ _ _ Hi Hcon)) as [-> ->].
      destruct (graph_edges _ _ HC _ _ _ Hi) as (es' & He' & Hall). rewrite He in He'. injection He' as <-.
      destruct (Hall _ _ Hc) as [b'' Hb]. by eapply elem_of_dom_2.
    - intros i (k & Hk)%Hs%ids_elem_of. apply Hin in Hk as (b & Hb & _). by eapply elem_of_dom_2.
    - intros k id Hk. apply Hq in Hk as (b & Hb & _). by eapply elem_of_dom_2.
    - rewrite size_dom. rewrite length_app in *. lia. }
  unfold explore in *. destruct (explore_loop _ _ _ _ _) as [r|] eqn:E; [| done].
  destruct (explore_loop_within _ _ _ _ _ _ Ha E Hq within_nil within_nil) as (found & w' & -> & _ & Hp & Hm).
  by exists found, w'.
Qed.

Lemma explore_ok s w D :
  walk_inv s head w D [] → within (queue w ++ D) → store_agrees C s →
  ∃ found w', explore efuel s usize_max w = Some (Ok (found, w')) ∧ queue w' = [] ∧
    walk_inv s head w' (D ++ present found) (missing found) ∧ within (present found ++ missing found) ∧
    ∀ k id, (k, id) ∈ missing found → contains_object id s = false.
Proof.
  intros Hw Hin Ha. destruct (explore_runs s w D usize_max Hw Hin Ha) as (found & w' & E & Hp & Hm).
  exists found, w'. pose proof E as E'. apply (explore_loop_inv _ _ head _ _ _ D []) in E' as (Hi & Hl & _ & Hmiss);
    [| by rewrite app_nil_r]. cbn [app] in Hi.
  split_and!; [done | | done | by apply within_app |].
  - destruct Hl as [?|Hl]; [done |]. pose proof (wi_nodup _ _ _ _ _ Hi) as Hnd. rewrite !ids_app in Hnd.
    apply NoDup_app in Hnd as (_ & _ & Hnd). apply NoDup_app in Hnd as (_ & _ & Hnd). apply within_length in Hnd; [lia | done].
  - intros k id Hk. by destruct (Hmiss _ _ Hk) as [?%not_elem_of_nil|].
Qed.

Lemma walk_inv_perm s w D M M' : M ≡ₚ M' → walk_inv s head w D M → walk_inv s head w D M'.
Proof using.
  intros Hp [Hnd Hs Hh Hd Hr]. assert (queue w ++ D ++ M ≡ₚ queue w ++ D ++ M') as Hp' by (by rewrite Hp). split.
  - by rewrite <- (ids_perm _ _ Hp').
  - intros id. by rewrite <- (ids_perm _ _ Hp').
  - by rewrite <- Hp'.
  - done.
  - intros k id. rewrite <- Hp'. apply Hr.
Qed.

Lemma taking_length s w D M stored : taking s w D M stored → (length D + length M ≤ base.size C)%nat.
Proof.
  intros [Hw Hin _ _ _ _]. apply within_app in Hin as [_ Hin]. rewrite <- length_app.
  apply within_length; [| done].
  pose proof (wi_nodup _ _ _ _ _ Hw) as Hnd. rewrite ids_app in Hnd. apply NoDup_app in Hnd. tauto.
Qed.

Lemma take_loop_ok fuel s w D stored imp led :
  taking s w D [] stored → (base.size C < fuel + length D)%nat →
  ∃ stored' imp' led' s' w' D', take_loop sl fuel efuel box files w stored imp led s = Some (Ok (stored', imp'), led', s') ∧
    taking s' w' D' [] stored' ∧ queue w' = [].
Proof.
  revert s w D stored imp led. induction fuel as [|fuel IH]; intros s w D stored imp led Ht Hf.
  { apply taking_length in Ht. lia. }
  cbn [take_loop]. destruct Ht as [Hw Hin Ha He Hnd Hst]. rewrite app_nil_r in Hin.
  destruct (explore_ok s w D Hw Hin Ha) as (found & w1 & -> & Hq1 & Hw1 & Hin1 & Hm).
  apply within_app in Hin1 as [Hp1 Hm1]. apply within_app in Hin as [Hq HD].
  assert (NoDup (ids (missing found))) as Hmn.
  { pose proof (wi_nodup _ _ _ _ _ Hw1) as Hn. rewrite !ids_app in Hn.
    apply NoDup_app in Hn as (_ & _ & Hn). by apply NoDup_app in Hn as (_ & _ & Hn). }
  destruct (wanted_map_spec _ Hmn Hm1) as [Hperm Hkeys].
  set (wanted := btree_iter (wanted_map sl (missing found))) in *.
  assert (taking s w1 (D ++ present found) wanted.*2 stored) as Ht.
  { split; try done.
    - by apply (walk_inv_perm _ _ _ (missing found)); [symmetry |].
    - rewrite Hq1, Hperm. cbn [app]. rewrite !within_app. tauto.
    - intros nm Hn. destruct (Hst _ Hn) as (k & id & ? & ?). exists k, id. split; [set_solver | done]. }
  destruct wanted as [|p wanted'] eqn:Ew.
  { cbn in Ht. exists stored, imp, led, s, w1, (D ++ present found). by split_and!. }
  rewrite <- Ew in *. destruct (pass_loop_ok wanted s w1 (D ++ present found) stored [] Ht Hkeys) as (s' & w' & stored' & -> & Ht').
  { intros k id Hk. rewrite Hperm in Hk. apply Hm in Hk. destruct (contains_object id s0) eqn:Ec; [| done].
    rewrite (contains_extends _ _ _ He Ec) in Hk. done. }
  cbn [app]. rewrite Ew in *. cbn [fmap list_fmap]. apply (IH s' w' _ _ _ _ Ht'). rewrite !length_app. cbn. lia.
Qed.

Lemma walk_new_within : within (queue (Walk_new head) ++ []).
Proof. destruct (graph_head _ _ HC) as [b Hb]. intros k id [= -> ->]%list_elem_of_singleton. exists b. split; [done | constructor]. Qed.

(** A walk that is over has met everything the head reaches. *)
Lemma walk_reach s w D id :
  walk_inv s head w D [] → within D → store_agrees C s → queue w = [] → reach C head id → id ∈ ids D.
Proof.
  intros Hw Hin Ha Hq Hr.
  pose proof (wi_seen _ _ _ _ _ Hw) as Hs. pose proof (wi_head _ _ _ _ _ Hw) as Hh.
  rewrite Hq, app_nil_r in Hs, Hh. cbn [app] in Hs, Hh.
  induction Hr as [|id k b es c ck Hr IH Hb He Hc]; [by eapply elem_of_ids |].
  apply ids_elem_of in IH as [k' Hk]. destruct (Hin _ _ Hk) as (b' & Hb' & _). rewrite Hb in Hb'. injection Hb' as <- <-.
  destruct (wi_done _ _ _ _ _ Hw _ _ Hk) as [Hcon Hl]. destruct (is_leaf k) eqn:El.
  - destruct k; try done; cbn in He; injection He as <-; by apply not_elem_of_nil in Hc.
  - destruct (Hl eq_refl) as (b' & es' & Hb' & He' & Hall). rewrite (Ha _ _ _ Hb Hcon) in Hb'. injection Hb' as <-.
    rewrite He in He'. injection He' as <-. apply Hs. by eapply Hall.
Qed.

(** A rid that names an object the head reaches. *)
Definition wanted (rid : ObjectId) : Prop := ∃ id k b, reach C head id ∧ C !! id = Some (k, b) ∧ sealer_remote_id k id = rid.

(** A store with the whole graph: surveys find it all, and only it. *)
Definition complete (s : St) : Prop := store_agrees C s ∧ ∀ id k b, reach C head id → C !! id = Some (k, b) → contains_object id s = true.
Lemma complete_survey s limit : complete s →
  ∃ found w, explore efuel s limit (Walk_new head) = Some (Ok (found, w)) ∧ missing found = [] ∧ within (present found).
Proof.
  intros [Ha Hc]. destruct (explore_runs s (Walk_new head) [] limit (walk_inv_new s head) walk_new_within Ha) as (found & w & E & Hp & Hm).
  exists found, w. split; [done |]. split; [| done]. destruct (missing found) as [|[k id] l] eqn:El; [done |].
  destruct (Hm k id ltac:(by left)) as (b & Hb & Hr). pose proof (Hc _ _ _ Hr Hb) as Hin.
  apply (explore_loop_inv _ _ head _ _ _ [] []) in E as (_ & _ & _ & Hmiss); [| apply walk_inv_new].
  destruct (Hmiss k id) as [?%not_elem_of_nil|?]; [rewrite El; left | done | congruence].
Qed.
Lemma held_wanted s : complete s → ∃ held, held_rids sl efuel s head = Some (Ok held) ∧ ∀ rid, rid ∈ held ↔ wanted rid.
Proof.
  intros Hs. destruct (complete_survey s usize_max Hs) as (found & w & E & Hm & Hp). unfold held_rids, survey. rewrite E.
  cbn [mbind Res_bind]. eexists. split; [done |]. intros rid. rewrite elem_of_list_to_set. change (map ?f ?l) with (f <$> l). rewrite list_elem_of_fmap. split.
  - intros ([k id] & -> & Hin). destruct (Hp _ _ Hin) as (b & Hb & Hr). by exists id, k, b.
  - intros (id & k & b & Hrid & Hb & <-). exists (k, id). split; [done |].
    destruct (explore_ok s (Walk_new head) [] (walk_inv_new s head) walk_new_within (proj1 Hs)) as (found' & w' & E' & Hq & Hw & _ & _).
    rewrite E in E'. injection E' as <- <-. rewrite Hm in Hw. cbn [app] in Hw.
    pose proof (walk_reach s w (present found) id Hw Hp (proj1 Hs) Hq Hrid) as [k' Hin]%ids_elem_of.
    destruct (Hp _ _ Hin) as (b' & Hb' & _). by assert (k' = k) as -> by congruence.
Qed.

(** The leftovers of an inbox, once everything stored is out of it. *)
Lemma leftovers_spec inbox' : inbox' ⊆ box → ∃ left, inbox_files inbox' = Ok left ∧
  (∀ rid nm, left !! rid = Some nm ↔ files !! rid = Some nm ∧ is_Some (inbox' !! nm)) ∧
  ∀ nm, is_Some (inbox' !! nm) → starts_with nm (b_ ".") = false → ∃ rid, left !! rid = Some nm.
Proof.
  intros Hsub. destruct (inbox_files_sub _ _ _ Hfiles Hsub) as [left Hl]. exists left. split; [done |].
  assert (∀ nm, is_Some (inbox' !! nm) → starts_with nm (b_ ".") = false → ∃ rid, left !! rid = Some nm) as Hall.
  { intros nm Hin Hd. destruct (inbox_files_listed _ _ _ Hl Hin Hd) as (rid & Hp & [nm' Hr]). exists rid. rewrite Hr. f_equal.
    apply (inbox_files_spec _ _ _ _ Hl) in Hr as [_ Hp'].
    apply parse_rid_canonical in Hp as [-> _]. by apply parse_rid_canonical in Hp' as [-> _]. }
  split; [| done]. intros rid nm. split.
  - intros Hr. destruct (inbox_files_spec _ _ _ _ Hl Hr) as [Hin Hp]. split; [| done].
    destruct (inbox_files_listed _ _ nm Hfiles) as (rid' & Hp' & [nm' Hr']).
    { destruct Hin as [c Hc]. exists c. by eapply lookup_weaken. }
    { exact (inbox_name_plain _ _ _ _ Hl Hr). }
    assert (rid' = rid) as -> by congruence. rewrite Hr'. f_equal. apply (inbox_files_spec _ _ _ _ Hfiles) in Hr' as [_ Hp2].
    apply parse_rid_canonical in Hp as [-> _]. by apply parse_rid_canonical in Hp2 as [-> _].
  - intros [Hr Hin]. destruct (Hall nm Hin) as [rid' Hr']; [exact (inbox_name_plain _ _ _ _ Hfiles Hr) |].
    destruct (inbox_files_spec _ _ _ _ Hl Hr') as [_ Hp]. destruct (inbox_files_spec _ _ _ _ Hfiles Hr) as [_ Hp'].
    assert (rid' = rid) as -> by congruence. done.
Qed.

(** Settling them: the listed files that were not wanted stop a strict import;
    else every file that is listed goes. *)
Lemma leftovers_settled s inbox' (primed : bool) : complete s → inbox' ⊆ box →
  (∀ rid nm, files !! rid = Some nm → ¬ wanted rid → is_Some (inbox' !! nm)) →
  ∃ r inbox'', settle_leftovers sl efuel s head inbox' primed = Some (r, inbox'') ∧ inbox'' ⊆ inbox' ∧
    match r with
    | Ok _ => (primed = false → ∀ rid, is_Some (files !! rid) → wanted rid) ∧
        ∀ nm, is_Some (inbox'' !! nm) → starts_with nm (b_ ".") = true
    | Err e => primed = false ∧ e = "import object: not wanted for head"%string ∧ ∃ rid, is_Some (files !! rid) ∧ ¬ wanted rid
    end.
Proof.
  intros Hs Hsub Hkeep. destruct (leftovers_spec inbox' Hsub) as (left & Hl & Hleft & Hall). unfold settle_leftovers. rewrite Hl.
  destruct (bool_decide_reflect (left = ∅)) as [->|Hne].
  { exists (Ok 0), inbox'. split; [done |]. split; [done |]. split.
    - intros _ rid [nm Hr]. destruct (held_wanted s Hs) as (held & _ & Hh). destruct (decide (rid ∈ held)) as [Hin|Hni]; [by apply Hh |].
      exfalso. assert ((∅ : gmap ObjectId bytes) !! rid = Some nm) as Hx; [| by rewrite lookup_empty in Hx].
      apply Hleft. split; [done |]. eapply Hkeep; [done |]. by rewrite <- Hh.
    - intros nm Hin. destruct (starts_with nm (b_ ".")) eqn:Ed; [done |]. destruct (Hall nm Hin Ed) as [rid Hr]. by rewrite lookup_empty in Hr. }
  destruct (held_wanted s Hs) as (held & -> & Hh). set (extra := base.filter _ _).
  assert (∀ rid nm, (rid, nm) ∈ extra ↔ left !! rid = Some nm ∧ ¬ wanted rid) as Hex.
  { intros rid nm. unfold extra. rewrite list_elem_of_filter, elem_of_btree_iter, Hh. tauto. }
  destruct (negb primed && _) eqn:Eb.
  - exists (Err "import object: not wanted for head"), inbox'. split; [done |]. split; [done |].
    apply andb_true_iff in Eb as [->%negb_true_iff He]. split; [done |]. split; [done |].
    destruct extra as [|[rid nm] l] eqn:Ee; [done |]. exists rid. destruct (proj1 (Hex rid nm) ltac:(by left)) as [Hr Hw].
    split; [| done]. apply Hleft in Hr as [Hr _]. by eexists.
  - destruct (remove_files_ok (btree_iter left).*2 inbox') as (inbox'' & -> & Hsub'' & _ & Hgone).
    { apply NoDup_fmap_2_strong; [| apply (NoDup_fmap_1 fst); rewrite btree_iter_keys; apply sorted_keys_NoDup]. intros [r1 n1] [r2 n2] H1%elem_of_btree_iter H2%elem_of_btree_iter. cbn. intros ->.
      destruct (inbox_files_spec _ _ _ _ Hl H1) as [_ P1]. destruct (inbox_files_spec _ _ _ _ Hl H2) as [_ P2]. congruence. }
    { intros nm ([rid nm'] & -> & Hin%elem_of_btree_iter)%list_elem_of_fmap. by apply Hleft in Hin as [_ ?]. }
    eexists _, inbox''. split; [done |]. split; [done |]. split.
    + intros -> rid [nm Hr]. cbn [negb andb] in Eb. destruct (decide (rid ∈ held)) as [Hin|Hni]; [by apply Hh |]. exfalso.
      rewrite Hh in Hni. assert ((rid, nm) ∈ extra) as Hin; [apply Hex; split; [| done]; apply Hleft; split; [done |]; by eapply Hkeep |].
      destruct extra; [by apply not_elem_of_nil in Hin | done].
    + intros nm Hin. destruct (starts_with nm (b_ ".")) eqn:Ed; [done |]. exfalso.
      destruct (Hall nm) as [rid Hr]; [destruct Hin as [c Hc]; exists c; by eapply lookup_weaken | done |].
      rewrite Hgone in Hin; [by destruct Hin |]. apply list_elem_of_fmap. exists (rid, nm). split; [done | by apply elem_of_btree_iter].
Qed.

(** C31 An import for a head whose graph the inbox and the store hold between
    them stores the whole graph, in every mode: it takes nothing away, removes only
    inbox files, and a want afterwards asks for nothing. A partial import succeeds
    and leaves the files it did not want; a primed one succeeds and leaves no file
    but hidden ones; a strict one does so when every file was wanted, and otherwise
    refuses the unwanted ones. *)
Theorem import_completes fuel led mode :
  (base.size C < fuel)%nat → store_agrees C s0 →
  ∃ r w', import_from_store sl fuel efuel head mode (mkWorld s0 led box) = Some (r, w') ∧
    extends s0 (store w') ∧ inbox w' ⊆ box ∧
    (∀ id k b, reach C head id → C !! id = Some (k, b) → read_object k id (store w') = Ok b) ∧
    want sl efuel (store w') head = Some (Ok []) ∧
    match mode, r with
    | Partial, Ok _ => ∀ rid nm, files !! rid = Some nm → ¬ wanted rid → inbox w' !! nm = box !! nm
    | Primed, Ok _ => ∀ nm, is_Some (inbox w' !! nm) → starts_with nm (b_ ".") = true
    | Strict, Ok _ => (∀ rid, is_Some (files !! rid) → wanted rid) ∧
        ∀ nm, is_Some (inbox w' !! nm) → starts_with nm (b_ ".") = true
    | Strict, Err e => e = "import object: not wanted for head"%string ∧ ∃ rid, is_Some (files !! rid) ∧ ¬ wanted rid
    | _, Err _ => False
    end.
Proof.
  intros Hf Ha. assert (taking s0 (Walk_new head) [] [] []) as Ht.
  { split; [apply walk_inv_new | apply walk_new_within | done | by intros ??? | by apply NoDup_nil_2 | by intros ? ?%not_elem_of_nil]. }
  destruct (take_loop_ok fuel s0 (Walk_new head) [] [] 0 led Ht ltac:(cbn; lia)) as (stored & imp & led' & s & w & D & Hrun & Ht' & Hq).
  assert (complete s) as Hs.
  { split; [apply Ht' |]. intros id k b Hr Hb. assert (within D) as HD.
    { pose proof (tk_within _ _ _ _ _ Ht') as Hin. by rewrite Hq, app_nil_r in Hin. }
    pose proof (walk_reach s w D id (tk_walk _ _ _ _ _ Ht') HD (tk_agrees _ _ _ _ _ Ht') Hq Hr) as [k' Hk]%ids_elem_of.
    by destruct (wi_done _ _ _ _ _ (tk_walk _ _ _ _ _ Ht') _ _ Hk). }
  assert (want sl efuel s head = Some (Ok [])) as Hwant.
  { unfold want, survey. destruct (complete_survey s WANT_LIMIT Hs) as (found & w2 & -> & Hm & _). cbn [mbind Res_bind]. by rewrite Hm. }
  assert (∀ id k b, reach C head id → C !! id = Some (k, b) → read_object k id s = Ok b) as Hread.
  { intros id k b Hr Hb. apply (tk_agrees _ _ _ _ _ Ht'); [done |]. by eapply Hs. }
  unfold import_from_store, take_. cbn [inbox store ledger]. rewrite Hfiles, Hrun.
  destruct (remove_files_ok stored box) as (inbox' & -> & Hsub & Hleft & _); [apply Ht' | |].
  { intros nm Hn. destruct (tk_stored _ _ _ _ _ Ht' _ Hn) as (k & id & _ & Hl). by eapply inbox_files_spec. }
  assert (∀ rid nm, files !! rid = Some nm → ¬ wanted rid → inbox' !! nm = box !! nm) as Hkept.
  { intros rid nm Hr Hw. apply Hleft. intros Hn. destruct (tk_stored _ _ _ _ _ Ht' _ Hn) as (k & id & Hin & Hl). apply Hw.
    destruct (tk_within _ _ _ _ _ Ht' k id) as (b & Hb & Hre); [set_solver |]. exists id, k, b. split_and!; [done | done |].
    destruct (inbox_files_spec _ _ _ _ Hfiles Hr) as [_ P1]. destruct (inbox_files_spec _ _ _ _ Hfiles Hl) as [_ P2]. congruence. }
  pose proof (tk_extends _ _ _ _ _ Ht') as Hext.
  destruct mode; cbn iota.
  3: { rewrite decide_True by done. by eexists _, _. }
  all: rewrite decide_False by done.
  all: match goal with |- context [settle_leftovers _ _ _ _ _ ?b] =>
    destruct (leftovers_settled s inbox' b Hs Hsub) as (r & inbox'' & -> & Hsub' & Hr) end;
    [intros rid nm Hl Hw; rewrite (Hkept _ _ Hl Hw); exact (proj1 (inbox_files_spec _ _ _ _ Hfiles Hl)) |].
  all: destruct r as [extras|e]; eexists _, _; (split; [done |]; cbn [store inbox]; split; [done |]; split; [by etrans |]; split; [done |]; split; [done |]).
  - split; [by apply Hr | apply Hr].
  - apply Hr.
  - apply Hr.
  - by destruct Hr.
Qed.
End Transfer.

(** ** A concrete instance *)

#[export] Instance Objects_index `{Blake3} : ObjectIndex Objects := λ id s, bool_decide (is_Some (objects s !! id)).
#[export] Instance Objects_index_ok `{Blake3} : IndexOk Objects.
Proof.
  split.
  - intros id s. unfold contains_object, Objects_index. rewrite bool_decide_eq_true. split.
    + intros [[k b] Ho]. exists k, b. by apply read_objects.
    + intros (k & b & Hb%read_objects). by eexists.
  - intros k k' id s b b' Hb%read_objects Hb'%read_objects. by split; congruence.
Qed.

Module ExchangeExample.
Import BundleExample.
#[local] Existing Instances toy_blake3 toy_blake3_ok toy_keyed toy_keyed_ok toy_aead toy_aead_ok toy_hex toy_hex_ok.
#[local] Existing Instances snapshot_json tree_json blob_json.

Definition graph : gmap ObjectId (ObjectKind * bytes) :=
  {[snapshot_id := (SnapshotKind, tree_id); tree_id := (TreeKind, b_ "tree")]}.
Lemma graph_cases id k b :
  graph !! id = Some (k, b) →
  (id = snapshot_id ∧ k = SnapshotKind ∧ b = tree_id) ∨ (id = tree_id ∧ k = TreeKind ∧ b = b_ "tree").
Proof.
  unfold graph. intros [[<- H]|[_ [<- H]%lookup_singleton_Some]]%lookup_insert_Some; [left | right]; by split_and!; congruence.
Qed.
Lemma graph_tree : graph !! tree_id = Some (TreeKind, b_ "tree").
Proof. by vm_compute. Qed.

Definition sealer : Sealer := CellSealer CryptoExample.keys.
#[local] Existing Instance sealer.
Lemma rids_differ : cell_remote_id CryptoExample.keys SnapshotKind snapshot_id ≠ cell_remote_id CryptoExample.keys TreeKind tree_id.
Proof. apply (bool_decide_eq_false_1 _). by vm_compute. Qed.
Lemma example_graph_ok : graph_ok sealer graph snapshot_id.
Proof.
  split.
  - exists tree_id. by vm_compute.
  - intros id k b [(-> & -> & ->)|(-> & -> & ->)]%graph_cases.
    + exists [(tree_id, TreeKind)]. split; [by vm_compute |]. intros c ck [= -> ->]%list_elem_of_singleton. by exists (b_ "tree"); apply graph_tree.
    + exists []. split; [done |]. by intros ?? ?%not_elem_of_nil.
  - intros id k b [(-> & -> & ->)|(-> & -> & ->)]%graph_cases; split; by vm_compute.
  - intros id k b id' k' b' [(-> & -> & _)|(-> & -> & _)]%graph_cases [(-> & -> & _)|(-> & -> & _)]%graph_cases Hr;
      [reflexivity | by destruct rids_differ | by destruct rids_differ | reflexivity].
Qed.

Definition sealed_of (k : ObjectKind) (id : ObjectId) (b : bytes) : bytes := match seal k id b with Ok (_, x) => x | Err _ => [] end.
Definition name_of (k : ObjectKind) (id : ObjectId) : bytes := id_hex (sealer_remote_id k id).
Definition box : Dir :=
  {[name_of SnapshotKind snapshot_id := sealed_of SnapshotKind snapshot_id tree_id;
    name_of TreeKind tree_id := sealed_of TreeKind tree_id (b_ "tree")]}.
Definition box_files : gmap ObjectId bytes := match inbox_files box with Ok f => f | Err _ => ∅ end.
Lemma box_files_listed : match inbox_files box with Ok _ => True | Err _ => False end.
Proof. by vm_compute. Qed.
Lemma box_files_run : inbox_files box = Ok box_files.
Proof. pose proof box_files_listed as H. unfold box_files. by destruct (inbox_files box). Qed.
Lemma box_supplied : supplied sealer graph empty_store box box_files.
Proof.
  intros id k b [(-> & -> & ->)|(-> & -> & ->)]%graph_cases _.
  - exists (name_of SnapshotKind snapshot_id), (sealed_of SnapshotKind snapshot_id tree_id). by split_and!; vm_compute.
  - exists (name_of TreeKind tree_id), (sealed_of TreeKind tree_id (b_ "tree")). by split_and!; vm_compute.
Qed.
Lemma empty_store_agrees : store_agrees graph empty_store.
Proof. intros id k b _. unfold contains_object, Objects_index. cbn. rewrite lookup_empty. intros H%bool_decide_eq_true. by destruct H. Qed.

(** One more file, which nothing of the graph travels under. *)
Definition stray : bytes := id_hex (replicate 32 Byte.x00).
Definition stray_box : Dir := <[stray := []]> box.
Definition stray_files : gmap ObjectId bytes := match inbox_files stray_box with Ok f => f | Err _ => ∅ end.
Lemma stray_listed : match inbox_files stray_box with Ok _ => True | Err _ => False end.
Proof. by vm_compute. Qed.
Lemma stray_files_run : inbox_files stray_box = Ok stray_files.
Proof. pose proof stray_listed as H. unfold stray_files. by destruct (inbox_files stray_box). Qed.
Lemma stray_supplied : supplied sealer graph empty_store stray_box stray_files.
Proof.
  intros id k b [(-> & -> & ->)|(-> & -> & ->)]%graph_cases _.
  - exists (name_of SnapshotKind snapshot_id), (sealed_of SnapshotKind snapshot_id tree_id). split; [| split]; vm_compute; reflexivity.
  - exists (name_of TreeKind tree_id), (sealed_of TreeKind tree_id (b_ "tree")). split; [| split]; vm_compute; reflexivity.
Qed.
Lemma stray_refused : match import_from_store sealer 3 3 snapshot_id Strict (mkWorld empty_store [] stray_box) with
  | Some (Err _, _) => True | _ => False end.
Proof. by vm_compute. Qed.

(** A strict import refuses the stray file, with the graph stored all the same. *)
Lemma import_completes_witness :
  ∃ w', import_from_store sealer 3 3 snapshot_id Strict (mkWorld empty_store [] stray_box) =
      Some (Err "import object: not wanted for head"%string, w') ∧
    read_object TreeKind tree_id (store w') = Ok (b_ "tree").
Proof.
  destruct (import_completes sealer graph snapshot_id example_graph_ok empty_store stray_box stray_files stray_files_run stray_supplied
    3 eq_refl ltac:(vm_compute; lia) 3 [] Strict ltac:(vm_compute; lia) empty_store_agrees) as (r & w' & Hrun & _ & _ & Hall & _ & Hr).
  pose proof stray_refused as Href. rewrite Hrun in Href. destruct r as [taken|e]; [exact (False_ind _ Href) |]. destruct Hr as [-> _].
  exists w'. split; [exact Hrun |]. apply Hall; [| exact graph_tree].
  eapply (reach_edge graph snapshot_id snapshot_id SnapshotKind tree_id [(tree_id, TreeKind)]);
    [constructor | by vm_compute | by vm_compute | by left].
Defined.

Definition surveyed : Survey := mkSurvey [(SnapshotKind, snapshot_id); (TreeKind, tree_id)] [].
Lemma surveyed_run : survey 3 source snapshot_id 1000 = Some (Ok surveyed).
Proof. by vm_compute. Qed.
Lemma survey_spec_witness : NoDup (ids (present surveyed ++ missing surveyed)).
Proof. exact (proj1 (survey_spec 3 source snapshot_id 1000 surveyed surveyed_run eq_refl)). Defined.

Lemma survey_terminates_witness : survey 3 source snapshot_id 1000 ≠ None.
Proof.
  apply (survey_terminates 3 source snapshot_id 1000 {[snapshot_id; tree_id]}); [| set_solver | by vm_compute; lia].
  intros k id b es c ck _ Hb%read_objects He Hc. cbn [objects source put_addressed empty_store] in Hb.
  apply lookup_insert_Some in Hb as [[_ Hb]|[_ [[_ Hb]|[_ Hb]]%lookup_insert_Some]]; [..| by rewrite lookup_empty in Hb].
  - assert (k = SnapshotKind ∧ b = tree_id) as [-> ->] by (split; congruence). cbn in He.
    assert (es = [(tree_id, TreeKind)]) as -> by congruence.
    apply list_elem_of_singleton in Hc. assert (c = tree_id) as -> by congruence. set_solver.
  - assert (k = TreeKind ∧ b = b_ "tree") as [-> ->] by (split; congruence). cbn in He.
    assert (es = []) as -> by congruence. by apply not_elem_of_nil in Hc.
Defined.
End ExchangeExample.
