(* ===== verification/Catalog.v ===== *)
(** * Catalog: the SQLite index beside the packs ([furrow-core/src/catalog.rs])

    The tables as finite maps, the timeline as the list of its rows in sequence
    order. A connection holds the tables as it sees them, what they were before
    an open transaction, and the file rows it retains in memory. Values keep
    their range (offsets below 2^63), so the casts to and from SQL integers are
    not written; busy databases and I/O errors are not modelled. *)

From S2P Require Import Prelude Model.
#[local] Open Scope Z_scope.

Record ObjectLocation := mkLocation { pack : bytes; offset : Z; len : Z; loc_kind : ObjectKind }.
Record PackCheckpoint := mkCheckpoint {
  verified_len : Z; object_count : Z; last_object : option ObjectId; last_record_start : Z;
}.
Record TimelineRow := mkTimelineRow {
  row_workspace : bytes; row_id : ObjectId; row_sealed_at : Z; row_label : option bytes; row_trigger : bytes;
}.
Record CachedFile := mkCachedFile {
  device : Z; inode : Z; size : Z; mtime_secs : Z; mtime_nanos : Z; ctime_secs : Z; ctime_nanos : Z; mode : Z;
  blob_id : ObjectId; xattrs : option ObjectId; sqlite : bool; cached_at_nanos : Z;
}.
#[export] Instance CachedFile_eq_dec : EqDecision CachedFile.
Proof. solve_decision. Defined.

Definition RACY_WINDOW_NANOS : Z := 2000000000.
Definition i64_sat_mul (a b : Z) : Z := Z.max i64_min (Z.min i64_max (a * b)).
Definition mtime_nanos_total (f : CachedFile) : Z := i64_sat_add (i64_sat_mul (mtime_secs f) 1000000000) (mtime_nanos f).
Definition ctime_nanos_total (f : CachedFile) : Z := i64_sat_add (i64_sat_mul (ctime_secs f) 1000000000) (ctime_nanos f).
(** On Unix. *)
Definition is_racy (f : CachedFile) : bool :=
  cached_at_nanos f <=? i64_sat_add (Z.max (mtime_nanos_total f) (ctime_nanos_total f)) RACY_WINDOW_NANOS.

Record Tables := mkTables {
  objects : gmap ObjectId ObjectLocation;
  workspaces : gmap bytes (bytes * option ObjectId);
  timeline_rows : list TimelineRow;
  stat_cache : gmap (bytes * bytes) CachedFile;
  directory_cache : gmap (bytes * bytes) ObjectId;
  pack_checkpoints : gmap bytes PackCheckpoint;
}.
Definition empty_tables : Tables := mkTables ∅ ∅ [] ∅ ∅ ∅.

Definition set_objects f t := mkTables (f (objects t)) (workspaces t) (timeline_rows t) (stat_cache t) (directory_cache t) (pack_checkpoints t).
Definition set_workspaces f t := mkTables (objects t) (f (workspaces t)) (timeline_rows t) (stat_cache t) (directory_cache t) (pack_checkpoints t).
Definition set_timeline f t := mkTables (objects t) (workspaces t) (f (timeline_rows t)) (stat_cache t) (directory_cache t) (pack_checkpoints t).
Definition set_stat_cache f t := mkTables (objects t) (workspaces t) (timeline_rows t) (f (stat_cache t)) (directory_cache t) (pack_checkpoints t).
Definition set_directory_cache f t := mkTables (objects t) (workspaces t) (timeline_rows t) (stat_cache t) (f (directory_cache t)) (pack_checkpoints t).
Definition set_checkpoints f t := mkTables (objects t) (workspaces t) (timeline_rows t) (stat_cache t) (directory_cache t) (f (pack_checkpoints t)).

(** A connection: [saved] is what the tables were when the open transaction
    began, [version] what [PRAGMA data_version] answers. *)
Record Catalog := mkCatalog {
  tables : Tables;
  saved : option Tables;
  files : gmap bytes (gmap bytes CachedFile);
  data_version : Z;
  version : Z;
  retain_files : bool;
}.
Definition with_tables (f : Tables → Tables) (c : Catalog) : Catalog :=
  mkCatalog (f (tables c)) (saved c) (files c) (data_version c) (version c) (retain_files c).
Definition with_files f (c : Catalog) : Catalog :=
  mkCatalog (tables c) (saved c) (f (files c)) (data_version c) (version c) (retain_files c).
Definition with_saved o (c : Catalog) : Catalog :=
  mkCatalog (tables c) o (files c) (data_version c) (version c) (retain_files c).

(** [Connection::is_autocommit] *)
Definition is_idle (c : Catalog) : bool := match saved c with None => true | Some _ => false end.
Definition update (f : Tables → Tables) : M Catalog () := modify (with_tables f).
Definition clear_files : M Catalog () := modify (with_files (λ _, ∅)).

(** What another connection sees: the last commit. *)
Definition committed (c : Catalog) : Tables := default (tables c) (saved c).

(** ** Objects and packs *)

Definition object (id : ObjectId) : M Catalog (option ObjectLocation) := gets (λ c, objects (tables c) !! id).

(** [INSERT OR IGNORE] *)
Definition insert_object (id : ObjectId) (k : ObjectKind) (name : bytes) (off n : Z) : M Catalog () :=
  update (set_objects (λ m, match m !! id with Some _ => m | None => <[id := mkLocation name off n k]> m end)).

Definition in_pack (name : bytes) (l : ObjectLocation) : bool := bool_decide (pack l = name).
Definition row_end (l : ObjectLocation) : Z := offset l + len l + 4.
Definition rows_where (p : ObjectLocation → bool) (t : Tables) : list ObjectLocation :=
  base.filter (λ l, p l = true) (map_to_list (objects t)).*2.

Definition pack_prefix_object_count (name : bytes) (vlen : Z) (t : Tables) : Z :=
  Z.of_nat (length (rows_where (λ l, in_pack name l && (row_end l <=? vlen)) t)).
Definition pack_crossing_object_count (name : bytes) (vlen : Z) (t : Tables) : Z :=
  Z.of_nat (length (rows_where (λ l, in_pack name l && (offset l <? vlen) && (vlen <? row_end l)) t)).
(** [COALESCE(MAX(offset + len + 4), 0)] *)
Definition pack_high_water (name : bytes) (t : Tables) : Z :=
  foldr (λ l n, Z.max (row_end l) n) 0 (rows_where (in_pack name) t).
Definition objects_count (t : Tables) : Z := Z.of_nat (base.size (objects t)).
Definition object_payload_bytes (t : Tables) : Z := foldr (λ l n, len l + n) 0 (map_to_list (objects t)).*2.

Definition delete_pack_objects_from (name : bytes) (payload_offset : Z) : M Catalog () :=
  update (set_objects (base.filter (λ '(_, l), ¬ (pack l = name ∧ payload_offset ≤ offset l)))).

Definition pack_checkpoint (name : bytes) : M Catalog (option PackCheckpoint) := gets (λ c, pack_checkpoints (tables c) !! name).
Definition set_pack_checkpoint (name : bytes) (k : PackCheckpoint) : M Catalog () := update (set_checkpoints (<[name := k]>)).

(** ** Transactions, for any state that holds a catalog *)

Class HasCatalog (S : Type) := { catalog_of : S → Catalog; with_catalog : Catalog → S → S }.
#[export] Instance Catalog_has_catalog : HasCatalog Catalog := {| catalog_of := λ c, c; with_catalog := λ c _, c |}.

Definition zoom {S A} `{HasCatalog S} (m : M Catalog A) : M S A := λ s,
  let '(r, c) := m (catalog_of s) in (r, with_catalog c s).

(** [refresh_file_cache]: a commit by someone else drops what is retained. *)
Definition refresh_file_cache : M Catalog () := modify (λ c,
  if negb (retain_files c) then c
  else mkCatalog (tables c) (saved c) (if decide (data_version c = version c) then files c else ∅)
         (version c) (version c) (retain_files c)).

Definition begin_ : M Catalog () := modify (λ c, with_saved (Some (tables c)) c).
Definition commit : M Catalog () := modify (with_saved None).
Definition rollback : M Catalog () := modify (λ c,
  mkCatalog (committed c) None ∅ (data_version c) (version c) (retain_files c)).

Definition batch {S A} `{HasCatalog S} (write : M S A) : M S A :=
  c ← gets catalog_of;
  if negb (is_idle c) then write
  else
    _ ← zoom begin_;
    _ ← zoom refresh_file_cache;
    r ← try_ write;
    match r with
    | Ok a => _ ← zoom commit; mret a
    | Err e => _ ← zoom rollback; fail e
    end.

Definition reset_pack_index (name : bytes) : M Catalog () :=
  batch (
    _ ← update (set_objects (base.filter (λ '(_, l), pack l ≠ name)));
    update (set_checkpoints (delete name))).

(** ** Capture caches *)

Definition forget_capture_caches : M Catalog () :=
  _ ← clear_files; update (λ t, set_directory_cache (λ _, ∅) (set_stat_cache (λ _, ∅) t)).

(** The rows of one workspace, by path. *)
Definition folder_rows (ws : bytes) (t : Tables) : gmap bytes CachedFile :=
  list_to_map (omap (λ '((w, path), f), if decide (w = ws) then Some (path, f) else None) (map_to_list (stat_cache t))).

Definition cached_file (ws path : bytes) : M Catalog (option CachedFile) :=
  c ← get;
  if negb (retain_files c) then mret (stat_cache (tables c) !! (ws, path))
  else
    _ ← (if is_idle c then refresh_file_cache else mret ());
    _ ← modify (λ c, match files c !! ws with
                     | Some _ => c
                     | None => with_files (<[ws := folder_rows ws (tables c)]>) c
                     end);
    gets (λ c, rows ← files c !! ws; rows !! path).

Definition cached_files (ws : bytes) (paths : list bytes) : M Catalog (list (option CachedFile)) :=
  (fix loop (paths : list bytes) : M Catalog (list (option CachedFile)) :=
    match paths with
    | [] => mret []
    | path :: paths => f ← cached_file ws path; fs ← loop paths; mret (f :: fs)
    end) paths.

Definition cache_file (ws path : bytes) (f : CachedFile) : M Catalog () :=
  c ← get;
  _ ← (if is_idle c then refresh_file_cache else mret ());
  c ← get;
  if decide ((rows ← files c !! ws; rows !! path) = Some f) then mret ()
  else
    _ ← update (set_stat_cache (<[(ws, path) := f]>));
    modify (with_files (alter (<[path := f]>) ws)).

(** Paths in path order. *)
Definition sqlite_paths (ws : bytes) (t : Tables) : list bytes :=
  (base.filter (λ '(_, f), sqlite f = true) (btree_iter (folder_rows ws t))).*1.

Definition cached_directory (ws path : bytes) : M Catalog (option ObjectId) := gets (λ c, directory_cache (tables c) !! (ws, path)).
Definition cache_directory (ws path : bytes) (tree : ObjectId) : M Catalog () := update (set_directory_cache (<[(ws, path) := tree]>)).

(** Rows that belong to the folder: everything but [.cell] and what is below it. *)
Definition legacy_path (path : bytes) : bool := negb (bool_decide (path = b_ ".cell")) && negb (starts_with path (b_ ".cell/")).
Definition has_legacy_file_rows (ws : bytes) (t : Tables) : bool :=
  existsb (λ path, legacy_path path) (map_to_list (folder_rows ws t)).*1.

(** The rows of a workspace move to its folder; of two rows for a path the one
    cached last stays. *)
Definition share_row (folder : bytes) (m : gmap (bytes * bytes) CachedFile) '(path, f) : gmap (bytes * bytes) CachedFile :=
  match m !! (folder, path) with
  | Some g => if cached_at_nanos g <? cached_at_nanos f then <[(folder, path) := f]> m else m
  | None => <[(folder, path) := f]> m
  end.
Definition share_legacy_file_rows (ws folder : bytes) : M Catalog () :=
  _ ← clear_files;
  t ← gets tables;
  let moved := base.filter (λ '(path, _), legacy_path path = true) (map_to_list (folder_rows ws t)) in
  _ ← update (set_stat_cache (λ m, foldl (share_row folder) m moved));
  update (set_stat_cache (base.filter (λ '((w, path), _), ¬ (w = ws ∧ legacy_path path = true)))).

(** ** Workspaces and their timeline *)

Definition ensure_workspace (id root : bytes) : M Catalog () :=
  t ← gets tables;
  if existsb (λ '(w, (r, _)), bool_decide (w = id) || bool_decide (r = root)) (map_to_list (workspaces t)) then mret ()
  else update (set_workspaces (<[id := (root, None)]>)).

(** [UPDATE] under the uniqueness of roots. *)
Definition rebind_workspace (id root : bytes) : M Catalog () :=
  t ← gets tables;
  match workspaces t !! id with
  | None => mret ()
  | Some (_, head) =>
    _ ← mensure (negb (existsb (λ '(w, (r, _)), negb (bool_decide (w = id)) && bool_decide (r = root)) (map_to_list (workspaces t))))
          "UNIQUE constraint failed: workspaces.root";
    update (set_workspaces (<[id := (root, head)]>))
  end.

Definition workspace_head (id : bytes) : M Catalog (option ObjectId) := gets (λ c, '(_, head) ← workspaces (tables c) !! id; head).

(** Snapshot ids are unique in the whole timeline table. *)
Definition commit_snapshot (ws : bytes) (snapshot : ObjectId) (at_ : Z) (label : option bytes) (trigger : bytes) : M Catalog () :=
  _ ← update (set_timeline (λ rows,
        if existsb (λ r, bool_decide (row_id r = snapshot)) rows then rows
        else rows ++ [mkTimelineRow ws snapshot at_ label trigger]));
  update (set_workspaces (alter (λ '(root, _), (root, Some snapshot)) ws)).

Definition timeline (ws : bytes) (limit : Z) (t : Tables) : list TimelineRow :=
  take (Z.to_nat limit) (reverse (base.filter (λ r, row_workspace r = ws) (timeline_rows t))).

Definition forget_workspace_refs (ws : bytes) : M Catalog () :=
  _ ← update (set_timeline (base.filter (λ r, row_workspace r ≠ ws)));
  update (set_workspaces (alter (λ '(root, _), (root, None)) ws)).

Definition detach_tables (ws : bytes) (t : Tables) : Tables :=
  set_workspaces (delete ws)
    (set_directory_cache (base.filter (λ '((w, _), _), w ≠ ws)) (set_stat_cache (base.filter (λ '((w, _), _), w ≠ ws)) t)).
Definition detach_workspace (ws : bytes) : M Catalog () := _ ← clear_files; update (detach_tables ws).
Definition remove_workspace (ws : bytes) : M Catalog () :=
  _ ← clear_files; update (λ t, set_timeline (base.filter (λ r, row_workspace r ≠ ws)) (detach_tables ws t)).

(** ** What a collection leaves: [replace_objects_from_gc]

    [locations] are the survivors: kind, offset and length in the new pack. *)
Definition known (objs : gmap ObjectId ObjectLocation) (id : ObjectId) : bool := match objs !! id with Some _ => true | None => false end.
Definition cached_objects_known (objs : gmap ObjectId ObjectLocation) (f : CachedFile) : bool :=
  known objs (blob_id f) && match xattrs f with Some x => known objs x | None => true end.
Definition replace_objects_from_gc (locations : gmap ObjectId (ObjectKind * Z * Z)) (name : bytes) (k : PackCheckpoint)
    : M Catalog () :=
  _ ← clear_files;
  update (λ t,
    let objs := (λ '(kind, off, n), mkLocation name off n kind) <$> locations in
    mkTables objs (workspaces t) (timeline_rows t)
      (base.filter (λ '(_, f), cached_objects_known objs f = true) (stat_cache t))
      (base.filter (λ '(_, tree), known objs tree = true) (directory_cache t))
      {[name := k]}).
