(* ===== verification/CatalogTheory.v ===== *)
(** * CatalogTheory: what a connection retains in memory is what the tables hold

    File rows are kept per folder across operations of a long-lived session,
    while other connections commit. The run of a connection is a step relation;
    its invariant gives that a read never answers a stale row. *)

From S2P Require Import Prelude Model Catalog.
From stdpp Require Import relations.
#[local] Open Scope Z_scope.

Lemma folder_rows_lookup ws path t : folder_rows ws t !! path = stat_cache t !! (ws, path).
Proof.
  unfold folder_rows. apply option_eq. intros f. rewrite <- elem_of_list_to_map.
  - rewrite list_elem_of_omap. split.
    + intros ([[w p] g] & Hin & Hd). destruct (decide (w = ws)) as [->|]; [| done].
      injection Hd as -> ->. by apply elem_of_map_to_list in Hin.
    + intros Hf. exists ((ws, path), f). rewrite elem_of_map_to_list, decide_True by done. by split.
  - pose proof (NoDup_fst_map_to_list (stat_cache t)) as Hnd. revert Hnd.
    induction (map_to_list (stat_cache t)) as [|[[w p] g] l IH]; intros Hnd; cbn; [constructor |].
    apply NoDup_cons in Hnd as [Hni Hnd]. destruct (decide (w = ws)) as [->|]; [| by apply IH]. cbn. apply NoDup_cons. split; [| by apply IH].
    intros ([p' g'] & Hp & Hin)%list_elem_of_fmap. cbn in Hp. subst p'. apply Hni.
    apply list_elem_of_omap in Hin as ([[w' p''] g''] & Hin & Hd). destruct (decide (w' = ws)) as [->|]; [| done].
    injection Hd as -> ->. apply list_elem_of_fmap. by exists ((ws, p), g').
Qed.

(** ** The runs of a connection *)

Definition retain_file_cache : M Catalog () := modify (λ c,
  mkCatalog (tables c) (saved c) (files c) (data_version c) (version c) true).

Inductive conn_step : Catalog → Catalog → Prop :=
| step_read ws path c : conn_step c (cached_file ws path c).2
| step_write ws path f c : conn_step c (cache_file ws path f c).2
| step_forget c : conn_step c (forget_capture_caches c).2
| step_share ws folder c : conn_step c (share_legacy_file_rows ws folder c).2
| step_remove ws c : conn_step c (remove_workspace ws c).2
| step_detach ws c : conn_step c (detach_workspace ws c).2
| step_replace locations name k c : conn_step c (replace_objects_from_gc locations name k c).2
| step_other f c : (∀ t, stat_cache (f t) = stat_cache t) → conn_step c (with_tables f c)
| step_retain c : conn_step c (retain_file_cache c).2
| step_begin c : is_idle c = true → conn_step c (refresh_file_cache (begin_ c).2).2
| step_commit c : is_idle c = false → conn_step c (commit c).2
| step_rollback c : is_idle c = false → conn_step c (rollback c).2
(** Another connection commits: not while a transaction is open here. *)
| step_external t c : is_idle c = true →
    conn_step c (mkCatalog t None (files c) (data_version c) (version c + 1) (retain_files c)).

(** What [Catalog::open] starts from. *)
Definition opened (t : Tables) (v : Z) : Catalog := mkCatalog t None ∅ (-1) v false.

Definition coherent (c : Catalog) : Prop :=
  ∀ ws rows path, files c !! ws = Some rows → rows !! path = stat_cache (tables c) !! (ws, path).
Record conn_ok (c : Catalog) : Prop := {
  ok_retain : retain_files c = false → files c = ∅;
  ok_version : data_version c ≤ version c;
  ok_coherent : data_version c = version c ∨ is_idle c = false → coherent c;
}.

Lemma coherent_empty c : files c = ∅ → coherent c.
Proof. intros He ws rows path. by rewrite He, lookup_empty. Qed.

(** Whatever drops the retained rows. *)
Lemma conn_ok_cleared c c' :
  conn_ok c → files c' = ∅ → data_version c' = data_version c → version c' = version c → conn_ok c'.
Proof. intros [Hr Hv _] Hf Hd Hv'. split; [done | lia | intros _; by apply coherent_empty]. Qed.

Lemma refresh_ok c :
  (retain_files c = false → files c = ∅) → data_version c ≤ version c → (data_version c = version c → coherent c) →
  let c' := (refresh_file_cache c).2 in
  conn_ok c' ∧ coherent c' ∧ tables c' = tables c ∧ saved c' = saved c ∧ retain_files c' = retain_files c.
Proof.
  intros Hr Hv Hc. cbn. destruct (retain_files c) eqn:Er; cbn [negb].
  - assert (coherent (mkCatalog (tables c) (saved c) (if decide (data_version c = version c) then files c else ∅) (version c) (version c) true)) as Hco.
    { destruct (decide _) as [He|]; [| by apply coherent_empty]. intros ws rows path. by apply Hc. }
    split_and!; [| done..]. by split; cbn; [| lia |].
  - assert (coherent c) by by apply coherent_empty, Hr. split_and!; [| done..]. by split; [auto | |].
Qed.
Lemma refresh_conn_ok c : conn_ok c → let c' := (refresh_file_cache c).2 in
  conn_ok c' ∧ coherent c' ∧ tables c' = tables c ∧ saved c' = saved c ∧ retain_files c' = retain_files c.
Proof. intros [Hr Hv Hc]. apply refresh_ok; auto. Qed.

(** ** Reads and writes *)

Lemma cached_file_ok ws path c :
  conn_ok c → conn_ok (cached_file ws path c).2 ∧ (cached_file ws path c).1 = Ok (stat_cache (tables c) !! (ws, path)).
Proof.
  intros Hok. unfold cached_file. mpure. destruct (retain_files c) eqn:Er; cbn [negb]; [| done].
  destruct (is_idle c) eqn:Ei.
  - destruct (refresh_conn_ok c Hok) as (Hok' & Hco & Ht & Hs & Hr). unfold refresh_file_cache in *. mpure. cbn [snd modify] in *.
    revert Hok' Hco Ht Hs Hr. set (c1 := if negb (retain_files c) then c else _). intros Hok' Hco Ht Hs Hr.
    destruct (files c1 !! ws) as [rows|] eqn:Ef; cbn; rewrite ?Ef; cbn.
    + split; [done |]. by rewrite (Hco _ _ _ Ef), Ht.
    + rewrite lookup_insert, decide_True by done. cbn. rewrite folder_rows_lookup, Ht. split; [| done].
      destruct Hok' as [H1 H2 H3]. split; cbn; [congruence | done |]. intros _ ws' rows' p. cbn.
      intros [[<- <-]|[_ Hf]]%lookup_insert_Some; [by rewrite folder_rows_lookup, ?Ht | by apply Hco].
  - mpure. assert (coherent c) as Hco by (apply Hok; by right).
    destruct (files c !! ws) as [rows|] eqn:Ef; cbn; rewrite ?Ef; cbn.
    + split; [done |]. by rewrite (Hco _ _ _ Ef).
    + rewrite lookup_insert, decide_True by done. cbn. rewrite folder_rows_lookup. split; [| done].
      destruct Hok as [H1 H2 H3]. split; cbn; [congruence | done |]. intros _ ws' rows' p. cbn.
      intros [[<- <-]|[_ Hf]]%lookup_insert_Some; [by rewrite folder_rows_lookup, ?Ht | by apply Hco].
Qed.

Lemma cache_file_ok ws path f c :
  conn_ok c → conn_ok (cache_file ws path f c).2.
Proof.
  assert (∀ c, conn_ok c → coherent c → conn_ok (
      (c' ← get; if decide ((rows ← files c' !! ws; rows !! path) = Some f) then mret ()
       else _ ← update (set_stat_cache (<[(ws, path) := f]>)); modify (with_files (alter (<[path := f]>) ws))) c).2) as Hw.
  { clear c. intros c [Hr Hv Hc] Hco. mpure. destruct (decide _); [done |].
    unfold update. mpure. split; cbn; [| done |].
    - intros He. by rewrite (Hr He), alter_empty.
    - intros _ ws' rows p Hf. cbn in *. destruct (decide (ws' = ws)) as [->|Hne].
      + rewrite lookup_alter, decide_True in Hf by done. destruct (files c !! ws) as [rows0|] eqn:E; [| done]. cbn in Hf.
        injection Hf as <-. destruct (decide (p = path)) as [->|Hp].
        * by rewrite !lookup_insert, !decide_True by done.
        * rewrite !lookup_insert_ne by congruence. by apply Hco.
      + rewrite lookup_alter_ne in Hf by done. rewrite lookup_insert_ne by congruence. by apply Hco. }
  intros Hok. unfold cache_file. mpure. destruct (is_idle c) eqn:Ei.
  - destruct (refresh_conn_ok c Hok) as (Hok' & Hco & _). unfold refresh_file_cache in *. mpure. by apply Hw.
  - mpure. apply Hw; [done |]. apply Hok. by right.
Qed.

Lemma conn_step_ok c c' : conn_ok c → conn_step c c' → conn_ok c'.
Proof.
  intros Hok Hs. destruct Hs as [ws p c|ws p f c|c|ws folder c|ws c|ws c|l n k c|f c Hf|c|c Hi|c Hi|c Hi|t c Hi].
  - by apply cached_file_ok.
  - by apply cache_file_ok.
  - by apply (conn_ok_cleared c).
  - by apply (conn_ok_cleared c).
  - by apply (conn_ok_cleared c).
  - by apply (conn_ok_cleared c).
  - by apply (conn_ok_cleared c).
  - destruct Hok as [Hr Hv Hc]. split; [done | done |]. intros H ws rows p Hrows. cbn. rewrite Hf. by eapply Hc.
  - destruct Hok as [Hr Hv Hc]. by split.
  - destruct Hok as [Hr Hv Hc]. apply refresh_ok; [done | done |]. intros H ws rows path. apply Hc. by left.
  - destruct Hok as [Hr Hv Hc]. split; [done | done |]. intros _. apply Hc. by right.
  - by apply (conn_ok_cleared c).
  - destruct Hok as [Hr Hv Hc]. split; cbn; [done | lia |]. intros [?|?]; [lia | done].
Qed.

(** C17 In every run of a connection, with other connections committing whenever
    no transaction is open here, a read of the retained rows answers what the
    table holds. *)
Theorem retained_rows_coherent t v c ws path :
  0 ≤ v → rtc conn_step (opened t v) c → (cached_file ws path c).1 = Ok (stat_cache (tables c) !! (ws, path)).
Proof.
  intros Hv Hrun. apply cached_file_ok. assert (conn_ok (opened t v)) as Hok.
  { split; cbn; [done | lia |]. intros _. by apply coherent_empty. }
  revert Hok. induction Hrun as [|c1 c2 c3 Hs _ IH]; [done |]. intros Hok. apply IH. by eapply conn_step_ok.
Qed.

Module CatalogExample.
Definition row (b : bytes) : CachedFile := mkCachedFile 1 2 3 1 0 1 0 33188 b None false 10000000000.
Definition ws : bytes := b_ "folder".
Definition a : bytes := b_ "a".
(** Retained, written here, then overwritten by another connection. *)
Definition session : Catalog :=
  let c := (retain_file_cache (opened empty_tables 0)).2 in
  let c := (cache_file ws a (row (b_ "1")) (cached_file ws a c).2).2 in
  mkCatalog (set_stat_cache (<[(ws, a) := row (b_ "2")]>) (tables c)) None (files c) (data_version c) (version c + 1) (retain_files c).
Lemma session_run : rtc conn_step (opened empty_tables 0) session.
Proof.
  eapply rtc_l; [apply step_retain |]. eapply rtc_l; [apply (step_read ws a) |].
  eapply rtc_l; [apply (step_write ws a (row (b_ "1"))) |]. apply rtc_once. by apply step_external.
Qed.

Lemma retained_rows_coherent_witness : (cached_file ws a session).1 = Ok (Some (row (b_ "2"))).
Proof. rewrite (retained_rows_coherent empty_tables 0 session ws a ltac:(lia) session_run). reflexivity. Defined.
End CatalogExample.
