(* ===== verification/Pack.v ===== *)
(** * Pack: the object store on disk ([furrow-core/src/store.rs])

    Objects live as records in append-only pack files; the catalog says where.
    After a crash the pack is the truth: recovery scans it from the last
    trustworthy checkpoint, cuts a torn tail and rebuilds the rows. Files are
    byte strings, so a torn write is a prefix. Locks, retained file handles,
    fsync and fault points have no effect in this sequential model. *)

From S2P Require Import Prelude Model Framing Refs Catalog.
#[local] Open Scope Z_scope.

Definition INITIAL_PACK_NAME : bytes := b_ "pack-000001.agp".
Definition OBJECT_MAGIC : bytes := b_ "AGOB".
Definition OBJECT_END : bytes := b_ "AGND".
Definition OBJECT_VERSION : Corelib.Init.Byte.byte := Byte.x01.
Definition HEADER_LEN : Z := 4 + 1 + 1 + 8 + 32 + 32.
Definition MAX_OBJECT_LEN : Z := 256 * 1024 * 1024.

Record IndexCheck := mkIndexCheck { check_objects : Z; repaired : bool }.
Record DurableFrontier := mkFrontier { frontier_packs : gmap bytes Z; frontier_refs : gmap bytes Z }.

(** Contiguous records appended by this process and not yet checkpointed. *)
Record AppendRun := mkRun {
  run_pack : bytes; run_start : Z; run_end : Z; run_objects : Z; run_last_object : ObjectId; run_last_record_start : Z;
}.
Definition then_ (run : option AppendRun) (name : bytes) (id : ObjectId) (start stop : Z) : AppendRun :=
  let fresh_run := mkRun name start stop 1 id start in
  match run with
  | Some r =>
    if bool_decide (run_pack r = name) && (run_end r =? start)
    then mkRun (run_pack r) (run_start r) stop (run_objects r + 1) id start
    else fresh_run
  | None => fresh_run
  end.
Definition extend (r : AppendRun) (k : PackCheckpoint) : option PackCheckpoint :=
  if verified_len k =? run_start r
  then Some (mkCheckpoint (run_end r) (object_count k + run_objects r) (Some (run_last_object r)) (run_last_record_start r))
  else None.

(** The directory of a store and one process that has it open. *)
Record Store := mkStore {
  packs : gmap bytes bytes;
  current : option bytes;
  frontier_file : option bytes;
  generation : option bytes;
  refs_logs : gmap bytes RefLog;
  catalog : Catalog;
  active_pack : bytes;
  unsynced : option AppendRun;
  known_end : Z;
  healed : bool;
  deferred : bool;
}.
Definition set_packs f s := mkStore (f (packs s)) (current s) (frontier_file s) (generation s) (refs_logs s) (catalog s)
  (active_pack s) (unsynced s) (known_end s) (healed s) (deferred s).
Definition set_current o s := mkStore (packs s) o (frontier_file s) (generation s) (refs_logs s) (catalog s)
  (active_pack s) (unsynced s) (known_end s) (healed s) (deferred s).
Definition set_frontier_file o s := mkStore (packs s) (current s) o (generation s) (refs_logs s) (catalog s)
  (active_pack s) (unsynced s) (known_end s) (healed s) (deferred s).
Definition set_generation o s := mkStore (packs s) (current s) (frontier_file s) o (refs_logs s) (catalog s)
  (active_pack s) (unsynced s) (known_end s) (healed s) (deferred s).
Definition set_refs_logs f s := mkStore (packs s) (current s) (frontier_file s) (generation s) (f (refs_logs s)) (catalog s)
  (active_pack s) (unsynced s) (known_end s) (healed s) (deferred s).
Definition set_catalog c s := mkStore (packs s) (current s) (frontier_file s) (generation s) (refs_logs s) c
  (active_pack s) (unsynced s) (known_end s) (healed s) (deferred s).
Definition set_active_pack n s := mkStore (packs s) (current s) (frontier_file s) (generation s) (refs_logs s) (catalog s)
  n (unsynced s) (known_end s) (healed s) (deferred s).
Definition set_unsynced r s := mkStore (packs s) (current s) (frontier_file s) (generation s) (refs_logs s) (catalog s)
  (active_pack s) r (known_end s) (healed s) (deferred s).
Definition set_known_end n s := mkStore (packs s) (current s) (frontier_file s) (generation s) (refs_logs s) (catalog s)
  (active_pack s) (unsynced s) n (healed s) (deferred s).
Definition set_healed b s := mkStore (packs s) (current s) (frontier_file s) (generation s) (refs_logs s) (catalog s)
  (active_pack s) (unsynced s) (known_end s) b (deferred s).
Definition set_deferred b s := mkStore (packs s) (current s) (frontier_file s) (generation s) (refs_logs s) (catalog s)
  (active_pack s) (unsynced s) (known_end s) (healed s) b.

#[export] Instance Store_has_catalog : HasCatalog Store := {| catalog_of := catalog; with_catalog := set_catalog |}.

Definition tables_of (s : Store) : Tables := tables (catalog s).

(** [fs::metadata(path).map_or(0, |m| m.len())] *)
Definition pack_len (name : bytes) (s : Store) : Z := match packs s !! name with Some f => blen f | None => 0 end.

Definition validate_pack_name (name : bytes) : Res () :=
  ensure (negb (bool_decide (name = [])) && ends_with name (b_ ".agp") && negb (bool_decide (slash ∈ name)))
    "invalid active pack name".

(** [packs/CURRENT], as the name on its line. *)
Definition read_or_initialize_current : M Store bytes :=
  s ← get;
  match current s with
  | Some name => _ ← lift (validate_pack_name name); mret name
  | None => _ ← modify (set_current (Some INITIAL_PACK_NAME)); mret INITIAL_PACK_NAME
  end.

Section Pack.
Context `{Blake3, Json DurableFrontier, Json RefRecord}.
(** What [format!("{:?}", SystemTime::now())] yields. *)
Variable now : bytes.

Definition frontier (s : Store) : Res (option DurableFrontier) :=
  match frontier_file s with
  | None => Ok None
  | Some content => f ← with_context (from_slice content) "group-commit JSON"; Ok (Some f)
  end.
(** [frontier.as_ref().map(|f| f.packs.get(name).copied().unwrap_or(0))] *)
Definition durable_len (fr : option DurableFrontier) (name : bytes) : option Z :=
  f ← fr; Some (default 0 (frontier_packs f !! name)).

(** ** Records *)

Definition object_record (k : ObjectKind) (b : bytes) : bytes :=
  OBJECT_MAGIC ++ [OBJECT_VERSION; kind_to_u8 k] ++ to_le 8 (blen b) ++ object_id k b ++ blake3 b ++ b ++ OBJECT_END.

(** What the scan finds at an offset of a file: nothing more than a torn record,
    a record that is wrong, or an object. *)
Inductive Scanned :=
| ScanTorn
| ScanBad (why : string)
| ScanObject (id : ObjectId) (k : ObjectKind) (payload_offset n stop : Z).

Definition scan_record (file : bytes) (off : Z) : Scanned :=
  match read_exact file off 4 with
  | None => ScanTorn
  | Some magic =>
    if negb (bool_decide (magic = OBJECT_MAGIC)) then ScanBad "object pack corruption"
    else
      match read_exact file (off + 4) 2 with
      | None => ScanTorn
      | Some meta =>
        match (v ← meta !! 1%nat; kind_from_u8 v) with
        | Some k =>
          if negb (bool_decide (meta !! 0%nat = Some OBJECT_VERSION)) then ScanBad "invalid object pack version or kind"
          else
            match read_exact file (off + 6) 8 with
            | None => ScanTorn
            | Some len_bytes =>
              let n := from_le len_bytes in
              if MAX_OBJECT_LEN <? n then ScanBad "object pack record exceeds size limit"
              else
                match read_exact file (off + 14) 32, read_exact file (off + 46) 32 with
                | Some id, Some checksum =>
                  let payload_offset := off + HEADER_LEN in
                  if sat_sub (blen file) payload_offset <? n + blen OBJECT_END then ScanTorn
                  else
                    let payload := slice payload_offset n file in
                    let stop := slice (payload_offset + n) 4 file in
                    if negb (bool_decide (stop = OBJECT_END)) || negb (bool_decide (blake3 payload = checksum))
                       || negb (bool_decide (object_id k payload = id))
                    then ScanBad "object pack checksum or trailer mismatch"
                    else ScanObject id k payload_offset n (payload_offset + n + 4)
                | _, _ => ScanTorn
                end
            end
        | None => ScanBad "invalid object pack version or kind"
        end
      end
  end.

(** ** Recovery *)

Definition truncate_pack_tail (record_start : Z) : M Store () :=
  s ← get;
  fr ← lift (frontier s);
  _ ← match fr with
      | Some f => mensure (default 0 (frontier_packs f !! active_pack s) <=? record_start) "durable object pack prefix is corrupt"
      | None => mret ()
      end;
  _ ← modify (set_packs (alter (take (Z.to_nat record_start)) (active_pack s)));
  _ ← zoom forget_capture_caches;
  _ ← modify (set_generation (Some now));
  zoom (delete_pack_objects_from (active_pack s) (sat_add record_start HEADER_LEN)).

(** Constant work: the catalog's view of the checkpoint, then the header and the
    trailer of its last record. *)
Definition validate_checkpoint (s : Store) (file : bytes) (file_len : Z) (k : PackCheckpoint) : bool :=
  if (file_len <? verified_len k) || (verified_len k <? pack_high_water (active_pack s) (tables_of s)) then false
  else if object_count k =? 0 then (verified_len k =? 0) && match last_object k with None => true | Some _ => false end
  else
    match last_object k with
    | None => false
    | Some last_id =>
      match objects (tables_of s) !! last_id with
      | None => false
      | Some l =>
        if negb (bool_decide (pack l = active_pack s))
           || negb (offset l =? last_record_start k + HEADER_LEN)
           || negb (offset l + len l + blen OBJECT_END =? verified_len k)
        then false
        else
          match read_exact file (last_record_start k) HEADER_LEN with
          | None => false
          | Some header =>
            bool_decide (slice 0 4 header = OBJECT_MAGIC)
            && bool_decide (header !! 4%nat = Some OBJECT_VERSION)
            && bool_decide ((v ← header !! 5%nat; kind_from_u8 v) = Some (loc_kind l))
            && (from_le (slice 6 8 header) =? len l)
            && bool_decide (slice 14 32 header = last_id)
            && bool_decide (read_exact file (verified_len k - 4) 4 = Some OBJECT_END)
          end
      end
    end.

(** How far the scan is: the offset and what a checkpoint there would say. *)
Record Scan := mkScan { sc_offset : Z; sc_count : Z; sc_last : option ObjectId; sc_last_start : Z }.

(** The loop over the records of the file as it was when it was opened. *)
Fixpoint scan_loop (fuel : nat) (name file : bytes) (fr : option DurableFrontier) (sc : Scan) : M Store Scan :=
  match fuel with
  | O => fail "fuel"
  | S fuel =>
    if sc_offset sc <? blen file then
      match scan_record file (sc_offset sc) with
      | ScanTorn => _ ← truncate_pack_tail (sc_offset sc); mret sc
      | ScanBad why =>
        _ ← mensure (match fr with Some _ => default 0 (durable_len fr name) <=? sc_offset sc | None => false end) why;
        _ ← truncate_pack_tail (sc_offset sc); mret sc
      | ScanObject id k payload_offset n stop =>
        _ ← zoom (insert_object id k name payload_offset n);
        scan_loop fuel name file fr (mkScan stop (sc_count sc + 1) (Some id) (sc_offset sc))
      end
    else mret sc
  end.

(** The checkpoint recovery starts from: within the durable boundary, and valid. *)
Definition trusted_checkpoint (s : Store) (file : bytes) (fr : option DurableFrontier) : option PackCheckpoint :=
  k ← pack_checkpoints (tables_of s) !! active_pack s;
  if match durable_len fr (active_pack s) with Some n => verified_len k <=? n | None => true end
     && validate_checkpoint s file (blen file) k
  then Some k else None.

Definition recover_pack_under_catalog_lock : M Store () :=
  s ← get;
  let name := active_pack s in
  match packs s !! name with
  | None => mret ()
  | Some file =>
    let file_len := blen file in
    _ ← (if file_len <? pack_high_water name (tables_of s)
         then _ ← zoom forget_capture_caches; modify (set_generation (Some now))
         else mret ());
    fr ← lift (frontier s);
    _ ← mensure (match durable_len fr name with Some n => n <=? file_len | None => true end) "durable object pack prefix was lost";
    let checkpoint := trusted_checkpoint s file fr in
    _ ← match checkpoint with Some _ => mret () | None => zoom (reset_pack_index name) end;
    let sc := match checkpoint with
              | Some k => mkScan (verified_len k) (object_count k) (last_object k) (last_record_start k)
              | None => mkScan 0 0 None 0
              end in
    _ ← zoom (delete_pack_objects_from name (sat_add (sc_offset sc) HEADER_LEN));
    batch (
      done ← scan_loop (S (length file)) name file fr sc;
      if sc_offset done =? sc_offset sc then mret ()
      else zoom (set_pack_checkpoint name (mkCheckpoint (sc_offset done) (sc_count done) (sc_last done) (sc_last_start done))))
  end.

(** The test that lets an open go without locks. *)
Definition pack_is_settled (s : Store) : Res bool :=
  match packs s !! active_pack s with
  | None => Ok false
  | Some file =>
    match pack_checkpoints (tables_of s) !! active_pack s with
    | None => Ok false
    | Some k =>
      if negb (verified_len k =? blen file) then Ok false
      else
        fr ← frontier s;
        if match durable_len fr (active_pack s) with Some n => negb (n =? blen file) | None => false end then Ok false
        else Ok (validate_checkpoint s file (blen file) k)
    end
  end.

Definition recover_pack : M Store () :=
  s ← get;
  let name := active_pack s in
  match packs s !! name with
  | None =>
    fr ← lift (frontier s);
    _ ← mensure (match fr with Some f => default 0 (frontier_packs f !! name) =? 0 | None => true end) "durable object pack is missing";
    if 0 <? pack_high_water name (tables_of s) then
      _ ← mensure (match fr with Some _ => true | None => false end) "durable object pack is missing";
      batch (
        _ ← zoom (reset_pack_index name);
        _ ← zoom forget_capture_caches;
        modify (set_generation (Some now)))
    else mret ()
  | Some _ =>
    settled ← lift (pack_is_settled s);
    if settled : bool then mret () else batch recover_pack_under_catalog_lock
  end.

(** ** Maintenance sections

    Only what entering one refreshes. *)
Definition enter_maintenance : M Store () :=
  s ← get;
  cur ← read_or_initialize_current;
  _ ← (if decide (cur = active_pack s) then mret () else modify (set_known_end u64_max));
  modify (set_active_pack cur).

(** ** Writing *)

Definition advance_checkpoint (run : AppendRun) : M Store () :=
  checkpoint ← zoom (pack_checkpoint (run_pack run));
  match extend run (default (mkCheckpoint 0 0 None 0) checkpoint) with
  | Some next => zoom (set_pack_checkpoint (run_pack run) next)
  | None => mret ()
  end.

(** [self.unsynced.take()] *)
Definition take_unsynced : M Store (option AppendRun) :=
  run ← gets unsynced; _ ← modify (set_unsynced None); mret run.

Definition sync_active_pack : M Store () :=
  run ← take_unsynced;
  match run with None => mret () | Some run => advance_checkpoint run end.

(** The part of a put under the pack lock: the record goes to the end of the
    active pack, created if it is not there. *)
Definition append_object (id : ObjectId) (k : ObjectKind) (b : bytes) : M Store () :=
  s ← get;
  let name := active_pack s in
  let file := default [] (packs s !! name) in
  let record_start := blen file in
  let stop := record_start + blen (object_record k b) in
  _ ← modify (set_packs (<[name := file ++ object_record k b]>));
  _ ← modify (set_known_end stop);
  _ ← modify (set_unsynced (Some (then_ (unsynced s) name id record_start stop)));
  zoom (insert_object id k name (record_start + HEADER_LEN) (blen b)).

Definition put_bytes_locked (k : ObjectKind) (b : bytes) : M Store ObjectId :=
  _ ← mensure (blen b <=? MAX_OBJECT_LEN) "object exceeds size limit";
  let id := object_id k b in
  found ← zoom (object id);
  match found with
  | Some _ => mret id
  | None =>
    s ← get;
    _ ← (if pack_len (active_pack s) s =? known_end s then mret ()
         else _ ← recover_pack_under_catalog_lock; modify (λ s, set_known_end (pack_len (active_pack s) s) s));
    found ← zoom (object id);
    _ ← match found with Some _ => mret () | None => append_object id k b end;
    mret id
  end.
Definition put_bytes (k : ObjectKind) (b : bytes) : M Store ObjectId :=
  _ ← enter_maintenance; batch (put_bytes_locked k b).

(** [batched] *)
Definition batched {A} (write : M Store A) : M Store A :=
  batch (
    value ← write;
    s ← get;
    _ ← (if negb (deferred s) then sync_active_pack
         else
           run ← take_unsynced;
           match run with None => mret () | Some run => advance_checkpoint run end);
    mret value).

(** ** Reading *)

Definition read_located (id : ObjectId) (expected : ObjectKind) (s : Store) : Res bytes :=
  l ← with_context (objects (tables_of s) !! id) "missing object";
  _ ← ensure (bool_decide (loc_kind l = expected)) "object kind mismatch";
  file ← with_context (packs s !! pack l) "No such file or directory";
  b ← with_context (if len l =? 0 then Some [] else read_exact file (offset l) (len l)) "failed to fill whole buffer";
  _ ← ensure (bool_decide (object_id expected b = id)) "object integrity check failed";
  Ok b.

Definition contains_object (id : ObjectId) : M Store bool :=
  _ ← enter_maintenance; found ← zoom (object id); mret (match found with Some _ => true | None => false end).

Definition verify_index (deep : bool) : M Store IndexCheck :=
  _ ← enter_maintenance;
  name ← gets active_pack;
  batch (
    t ← gets tables_of;
    let agrees := match pack_checkpoints t !! name with
                  | Some k => (pack_prefix_object_count name (verified_len k) t =? object_count k)
                              && (pack_crossing_object_count name (verified_len k) t =? 0)
                  | None => pack_high_water name t =? 0
                  end in
    _ ← (if negb agrees || deep then _ ← zoom (reset_pack_index name); recover_pack_under_catalog_lock else mret ());
    t ← gets tables_of;
    mret (mkIndexCheck (match pack_checkpoints t !! name with Some k => object_count k | None => 0 end) (negb agrees))).

(** One rescan per session for a read that fails. *)
Definition heal_index : M Store bool :=
  s ← get;
  _ ← modify (set_healed true);
  if negb (healed s) && is_idle (catalog s) then
    r ← try_ (verify_index false);
    mret (match r with Ok check => repaired check | Err _ => false end)
  else mret false.

Definition read_bytes_unlocked (id : ObjectId) (expected : ObjectKind) : M Store bytes :=
  r ← gets (read_located id expected);
  match r with
  | Ok b => mret b
  | Err e =>
    again ← heal_index;
    if again : bool then s ← get; lift (read_located id expected s) else fail e
  end.
Definition read_bytes (id : ObjectId) (expected : ObjectKind) : M Store bytes :=
  _ ← enter_maintenance; read_bytes_unlocked id expected.

(** ** Statistics *)

Definition stored_location (id : ObjectId) (s : Store) : Res ObjectLocation := with_context (objects (tables_of s) !! id) "missing object".
Definition object_len (id : ObjectId) (s : Store) : Res Z := l ← stored_location id s; Ok (len l).
Definition object_kind (id : ObjectId) (s : Store) : Res ObjectKind := l ← stored_location id s; Ok (loc_kind l).
(** [path.extension() == Some("agp")]: a name that is only the extension has none. *)
Definition is_pack_file (name : bytes) : bool := ends_with name (b_ ".agp") && negb (bool_decide (name = b_ ".agp")).
Definition physical_bytes (s : Store) : Z :=
  foldr (λ '(name, file) n, (if is_pack_file name then blen file else 0) + n) 0 (map_to_list (packs s)).

(** ** Group commit: the durable frontier *)

(** The logs first: what is complete of each when the frontier is taken. *)
Fixpoint refs_frontier (ids : list bytes) (refs : gmap bytes Z) : M Store (gmap bytes Z) :=
  match ids with
  | [] => mret refs
  | id :: ids =>
    s ← get;
    match refs_logs s !! id with
    | Some l =>
      match complete_len l with
      | (Ok n, l) => _ ← modify (set_refs_logs (<[id := l]>)); refs_frontier ids (<[id := n]> refs)
      | (Err e, l) => _ ← modify (set_refs_logs (<[id := l]>)); fail e
      end
    | None => refs_frontier ids refs
    end
  end.

(** Then the packs: as far as committed rows reach, which the file must hold. *)
Fixpoint packs_frontier (names : list bytes) (fr : gmap bytes Z) : M Store (gmap bytes Z) :=
  match names with
  | [] => mret fr
  | name :: names =>
    if is_pack_file name then
      s ← get;
      let written := pack_high_water name (committed (catalog s)) in
      _ ← mensure (written <=? pack_len name s) "object pack needs recovery before group commit";
      packs_frontier names (<[name := written]> fr)
    else packs_frontier names fr
  end.

Definition sync_locked : M Store () :=
  s ← get;
  refs ← refs_frontier (map_to_list (refs_logs s)).*1 ∅;
  fr ← packs_frontier (map_to_list (packs s)).*1 ∅;
  modify (set_frontier_file (Some (to_vec (mkFrontier fr refs)))).

Definition sync : M Store () :=
  _ ← enter_maintenance;
  _ ← sync_locked;
  run ← take_unsynced;
  match run with None => mret () | Some run => batch (advance_checkpoint run) end.

(** What entering an exclusive section does besides. *)
Definition enter_exclusive : M Store () :=
  s ← get;
  _ ← match frontier_file s with Some _ => sync | None => mret () end;
  enter_maintenance.

Definition defer_durability : M Store () :=
  s ← get;
  _ ← match frontier_file s with None => sync | Some _ => mret () end;
  modify (set_deferred true).
Definition resume_durability : M Store () := modify (set_deferred false).

Definition activate_pack (name : bytes) : M Store () :=
  _ ← lift (validate_pack_name name);
  _ ← modify (set_current (Some name));
  _ ← modify (set_active_pack name);
  _ ← modify (λ s, set_known_end (pack_len name s) s);
  s ← get;
  match frontier_file s with Some _ => sync_locked | None => mret () end.

(** ** Opening *)

(** What a repaired log no longer names is forgotten by the catalog too. *)
Fixpoint repair_logs (f : DurableFrontier) (ids : list bytes) : M Store () :=
  match ids with
  | [] => mret ()
  | id :: ids =>
    s ← get;
    match refs_logs s !! id with
    | Some l =>
      match repair_suffix (default 0 (frontier_refs f !! id)) (λ i, (contains_object i s).1) l with
      | (Ok cut, l) =>
        _ ← modify (set_refs_logs (<[id := l]>));
        _ ← (if cut : bool then batch (zoom (forget_workspace_refs id)) else mret ());
        repair_logs f ids
      | (Err e, l) => _ ← modify (set_refs_logs (<[id := l]>)); fail e
      end
    | None => repair_logs f ids
    end
  end.
Definition repair_deferred_refs : M Store () :=
  s ← get;
  fr ← lift (frontier s);
  match fr with None => mret () | Some f => repair_logs f (map_to_list (refs_logs s)).*1 end.

(** A new process on the directory of [s]: the catalog is what was committed. *)
Definition reopen (s : Store) : Store :=
  mkStore (packs s) (current s) (frontier_file s) (generation s) (refs_logs s)
    (mkCatalog (committed (catalog s)) None ∅ (-1) (version (catalog s)) false) [] None 0 false false.

(** The part of an open that concerns the packs. *)
Definition open_packs : M Store () :=
  name ← read_or_initialize_current;
  _ ← modify (set_active_pack name);
  recover_pack.

Definition open_store : M Store () :=
  _ ← open_packs;
  _ ← repair_deferred_refs;
  modify (λ s, set_known_end (pack_len (active_pack s) s) s).
End Pack.
