(* ===== verification/PackTheory.v ===== *)
(** * PackTheory: what recovery rebuilds, and what a recovered store promises

    First the records of a pack, then the scan, then recovery from a crash, then
    the contract of a content store for puts and reads. *)

From S2P Require Import Prelude Model Framing Concrete Refs Tree Bundle Catalog Pack.
From stdpp Require Import relations.
#[local] Open Scope Z_scope.

(** ** Counting *)

Lemma length_filter_snd {A B} (p : B → bool) (l : list (A * B)) :
  length (base.filter (λ b, p b = true) l.*2) = length (base.filter (λ ab, p ab.2 = true) l).
Proof.
  induction l as [|[a b] l IH]; [done |]. cbn [fmap list_fmap snd]. rewrite !filter_cons. cbn [snd].
  destruct (decide (p b = true)); cbn [length]; by rewrite <- IH.
Qed.

Lemma size_list_le (l : list ObjectId) : (base.size (list_to_set l : gset ObjectId) ≤ length l)%nat.
Proof.
  induction l as [|x l IH]; [done |]. cbn [list_to_set length]. rewrite size_union_alt, size_singleton.
  pose proof (subseteq_size (list_to_set l ∖ {[x]} : gset ObjectId) (list_to_set l) ltac:(set_solver)). lia.
Qed.
Lemma size_dup (l : list ObjectId) : ¬ NoDup l → (base.size (list_to_set l : gset ObjectId) < length l)%nat.
Proof.
  induction l as [|x l IH]; intros Hnd; [by destruct Hnd; apply NoDup_nil_2 |]. cbn [list_to_set length].
  destruct (decide (x ∈ l)) as [Hin|Hni].
  - rewrite subseteq_union_1_L; [pose proof (size_list_le l); lia |]. intros i ->%elem_of_singleton. by apply elem_of_list_to_set.
  - rewrite size_union by (intros i ->%elem_of_singleton Hi; by apply elem_of_list_to_set in Hi). rewrite size_singleton.
    enough (base.size (list_to_set l : gset ObjectId) < length l)%nat by lia. apply IH. intros Hd. apply Hnd. by apply NoDup_cons.
Qed.

Section Theory.
Context `{B3 : Blake3, !Blake3Ok, JF : Json DurableFrontier, JR : Json RefRecord}.

(** ** Records *)

Lemma blen_object_record k b : blen (object_record k b) = HEADER_LEN + blen b + 4.
Proof.
  unfold object_record. rewrite !blen_app, blen_to_le, object_id_len, blake3_len. unfold HEADER_LEN.
  change (blen OBJECT_MAGIC) with 4. change (blen OBJECT_END) with 4. rewrite !blen_cons, blen_nil. lia.
Qed.

(** The fields of a record and where they are. *)
Definition field (k : ObjectKind) (b : bytes) (off : Z) (mid : bytes) : Prop :=
  ∃ a c, object_record k b = a ++ mid ++ c ∧ blen a = off.
Lemma field_magic k b : field k b 0 OBJECT_MAGIC.
Proof. eexists [], _. split; [done | done]. Qed.
Lemma field_meta k b : field k b 4 [OBJECT_VERSION; kind_to_u8 k].
Proof. eexists OBJECT_MAGIC, _. split; [done | done]. Qed.
Lemma field_len k b : field k b 6 (to_le 8 (blen b)).
Proof. eexists (OBJECT_MAGIC ++ [OBJECT_VERSION; kind_to_u8 k]), _. split; [by rewrite <- app_assoc | done]. Qed.
Lemma field_id k b : field k b 14 (object_id k b).
Proof.
  eexists (OBJECT_MAGIC ++ [OBJECT_VERSION; kind_to_u8 k] ++ to_le 8 (blen b)), _.
  split; [by rewrite <- !app_assoc | by rewrite !blen_app, blen_to_le].
Qed.
Lemma field_checksum k b : field k b 46 (blake3 b).
Proof.
  eexists (OBJECT_MAGIC ++ [OBJECT_VERSION; kind_to_u8 k] ++ to_le 8 (blen b) ++ object_id k b), _.
  split; [by rewrite <- !app_assoc | by rewrite !blen_app, blen_to_le, object_id_len].
Qed.
Lemma field_payload k b : field k b HEADER_LEN b.
Proof.
  eexists (OBJECT_MAGIC ++ [OBJECT_VERSION; kind_to_u8 k] ++ to_le 8 (blen b) ++ object_id k b ++ blake3 b), _.
  split; [by rewrite <- !app_assoc | by rewrite !blen_app, blen_to_le, object_id_len, blake3_len].
Qed.
Lemma field_end k b : field k b (HEADER_LEN + blen b) OBJECT_END.
Proof.
  eexists (OBJECT_MAGIC ++ [OBJECT_VERSION; kind_to_u8 k] ++ to_le 8 (blen b) ++ object_id k b ++ blake3 b ++ b), [].
  split; [by rewrite <- !app_assoc, app_nil_r |].
  rewrite !blen_app, blen_to_le, object_id_len, blake3_len, !blen_cons, blen_nil. change (blen OBJECT_MAGIC) with 4. unfold HEADER_LEN. lia.
Qed.

(** A field of the first [n] bytes of a record, read where the record begins. *)
Lemma read_field pre k b n post off mid pos m :
  field k b off mid → pos = blen pre + off → m = blen mid → off + blen mid ≤ Z.of_nat n →
  read_exact (pre ++ take n (object_record k b) ++ post) pos m = Some mid.
Proof.
  intros (a & c & Hr & Ha) -> -> Hn. subst off. unfold blen in Hn.
  apply (read_exact_at _ (pre ++ a) mid (take (n - length a - length mid) c ++ post)); [| by rewrite blen_app | done].
  rewrite Hr, take_app_ge, take_app_ge by lia. by rewrite <- !app_assoc.
Qed.
Lemma read_field_full pre k b post off mid pos m :
  field k b off mid → pos = blen pre + off → m = blen mid →
  read_exact (pre ++ object_record k b ++ post) pos m = Some mid.
Proof.
  intros Hf Hp Hm. rewrite <- (take_ge (object_record k b) (length (object_record k b))) by lia.
  apply (read_field _ _ _ _ _ off); [done | done | done |]. destruct Hf as (a & c & Hr & Ha).
  subst off. rewrite Hr, !length_app. unfold blen. lia.
Qed.
Lemma slice_field_full pre k b post off mid pos m :
  field k b off mid → pos = blen pre + off → m = blen mid → slice pos m (pre ++ object_record k b ++ post) = mid.
Proof.
  intros (a & c & Hr & Ha) -> ->. rewrite Hr. subst off.
  replace (pre ++ (a ++ mid ++ c) ++ post) with ((pre ++ a) ++ mid ++ (c ++ post)) by by rewrite <- !app_assoc.
  rewrite <- blen_app. apply slice_app_mid.
Qed.

Lemma from_le_object_len b : blen b ≤ MAX_OBJECT_LEN → from_le (to_le 8 (blen b)) = blen b.
Proof. intros Hb. apply from_to_le. pose proof (blen_nonneg b). unfold MAX_OBJECT_LEN in Hb. lia. Qed.

(** The scan at a whole record. *)
Lemma scan_record_object pre k b post :
  blen b ≤ MAX_OBJECT_LEN → scan_record (pre ++ object_record k b ++ post) (blen pre) =
    ScanObject (object_id k b) k (blen pre + HEADER_LEN) (blen b) (blen pre + blen (object_record k b)).
Proof.
  intros Hb. unfold scan_record.
  rewrite (read_field_full pre k b post 0 OBJECT_MAGIC) by (apply field_magic || done || lia). rewrite bool_decide_true by done. cbn [negb].
  rewrite (read_field_full pre k b post 4 [OBJECT_VERSION; kind_to_u8 k]) by (apply field_meta || done). cbn [lookup list_lookup mbind option_bind].
  rewrite kind_from_to, bool_decide_true by done. cbn [negb].
  rewrite (read_field_full pre k b post 6 (to_le 8 (blen b))) by (apply field_len || done). rewrite from_le_object_len by done.
  rewrite (proj2 (Z.ltb_ge _ _)) by done.
  rewrite (read_field_full pre k b post 14 (object_id k b)) by (apply field_id || done || by rewrite object_id_len).
  rewrite (read_field_full pre k b post 46 (blake3 b)) by (apply field_checksum || done || by rewrite blake3_len).
  change (blen OBJECT_END) with 4. rewrite (proj2 (Z.ltb_ge _ _)).
  2: { unfold sat_sub. rewrite !blen_app, blen_object_record. pose proof (blen_nonneg post). pose proof (blen_nonneg b). lia. }
  rewrite (slice_field_full pre k b post HEADER_LEN b (blen pre + HEADER_LEN) (blen b)) by (apply field_payload || done).
  rewrite (slice_field_full pre k b post (HEADER_LEN + blen b) OBJECT_END (blen pre + HEADER_LEN + blen b) 4) by (apply field_end || done || lia).
  rewrite !bool_decide_true by done. cbn [negb orb]. f_equal. rewrite blen_object_record. lia.
Qed.

(** The scan at what a cut left of a record. *)
Lemma scan_record_torn pre k b n :
  blen b ≤ MAX_OBJECT_LEN → Z.of_nat n < blen (object_record k b) →
  scan_record (pre ++ take n (object_record k b)) (blen pre) = ScanTorn.
Proof.
  intros Hb Hn. assert (blen (take n (object_record k b)) = Z.of_nat n) as Hlen.
  { unfold blen in *. rewrite length_take. lia. }
  assert (∀ off m, Z.of_nat n < off + m → read_exact (pre ++ take n (object_record k b)) (blen pre + off) m = None) as Heof.
  { intros off m Hlt. apply read_exact_eof. rewrite blen_app. lia. }
  assert (∀ off mid m, field k b off mid → m = blen mid → off + blen mid ≤ Z.of_nat n →
    read_exact (pre ++ take n (object_record k b)) (blen pre + off) m = Some mid) as Hread.
  { intros off mid m Hf Hm Hle. rewrite <- (app_nil_r (take n _)). by apply (read_field pre k b n [] off mid). }
  unfold scan_record. rewrite <- (Z.add_0_r (blen pre)) at 1.
  destruct (decide (Z.of_nat n < 4)); [by rewrite Heof by lia |].
  rewrite (Hread 0 OBJECT_MAGIC 4) by (apply field_magic || done || (change (blen OBJECT_MAGIC) with 4; lia)). rewrite bool_decide_true by done. cbn [negb].
  destruct (decide (Z.of_nat n < 6)); [by rewrite Heof by lia |].
  rewrite (Hread 4 [OBJECT_VERSION; kind_to_u8 k] 2) by (apply field_meta || done || (rewrite !blen_cons, blen_nil; lia)). cbn [lookup list_lookup mbind option_bind].
  rewrite kind_from_to, bool_decide_true by done. cbn [negb].
  destruct (decide (Z.of_nat n < 14)); [by rewrite Heof by lia |].
  rewrite (Hread 6 (to_le 8 (blen b)) 8) by (apply field_len || done || (rewrite blen_to_le; lia)). rewrite from_le_object_len by done.
  rewrite (proj2 (Z.ltb_ge _ _)) by done.
  destruct (decide (Z.of_nat n < 46)); [by rewrite Heof by lia |].
  rewrite (Hread 14 (object_id k b) 32) by (apply field_id || (by rewrite object_id_len) || (rewrite object_id_len; lia)).
  destruct (decide (Z.of_nat n < 78)); [by rewrite Heof by lia |].
  rewrite (Hread 46 (blake3 b) 32) by (apply field_checksum || (by rewrite blake3_len) || (rewrite blake3_len; lia)).
  rewrite blen_object_record in Hn. change (blen OBJECT_END) with 4. rewrite (proj2 (Z.ltb_lt _ _)); [done |].
  unfold sat_sub. rewrite blen_app, Hlen. pose proof (blen_nonneg b). lia.
Qed.

(** ** States *)

(** The records of a pack in order. *)
Definition pack_of (recs : list (ObjectKind * bytes)) : bytes := concat (map (λ '(k, b), object_record k b) recs).
Definition small (recs : list (ObjectKind * bytes)) : Prop := Forall (λ '(_, b), blen b ≤ MAX_OBJECT_LEN) recs.

Lemma pack_of_app r1 r2 : pack_of (r1 ++ r2) = pack_of r1 ++ pack_of r2.
Proof. unfold pack_of. by rewrite map_app, concat_app. Qed.
Lemma pack_of_length recs : (length recs ≤ length (pack_of recs))%nat.
Proof.
  induction recs as [|[k b] recs IH]; [done |]. unfold pack_of in *. cbn [map concat]. rewrite length_app. cbn [length].
  pose proof (blen_object_record k b) as Hl. pose proof (blen_nonneg b). unfold blen, HEADER_LEN in *. lia.
Qed.

(** A row that points at a whole record of its object. *)
Definition points_to (ps : gmap bytes bytes) (id : ObjectId) (l : ObjectLocation) : Prop :=
  ∃ pre b post, ps !! pack l = Some (pre ++ object_record (loc_kind l) b ++ post) ∧
    offset l = blen pre + HEADER_LEN ∧ len l = blen b ∧ object_id (loc_kind l) b = id.
Definition rows_sound (s : Store) : Prop := ∀ id l, objects (tables_of s) !! id = Some l → points_to (packs s) id l.

Lemma read_points_to s id l :
  objects (tables_of s) !! id = Some l → points_to (packs s) id l →
  ∃ b, read_located id (loc_kind l) s = Ok b ∧ object_id (loc_kind l) b = id.
Proof.
  intros Hl (pre & b & post & Hp & Ho & Hn & Hid). exists b. split; [| done]. unfold read_located. rewrite Hl.
  cbn [with_context mbind Res_bind]. rewrite bool_decide_true by done. cbn [ensure mbind Res_bind]. rewrite Hp.
  cbn [with_context mbind Res_bind]. rewrite Hn. destruct (Z.eqb_spec (blen b) 0) as [E|E].
  - assert (b = []) as -> by (destruct b; [done | rewrite blen_cons in E; pose proof (blen_nonneg b0); lia]).
    cbn [with_context mbind Res_bind]. by rewrite bool_decide_true.
  - rewrite (read_field_full pre (loc_kind l) b post HEADER_LEN b) by (apply field_payload || done).
    cbn [with_context mbind Res_bind]. by rewrite bool_decide_true.
Qed.

(** What reading and recovery leave alone. *)
Record frame (s s' : Store) : Prop := {
  fr_frontier : frontier_file s' = frontier_file s;
  fr_active : active_pack s' = active_pack s;
  fr_current : current s' = current s;
  fr_known : known_end s' = known_end s;
  fr_unsynced : unsynced s' = unsynced s;
  fr_logs : refs_logs s' = refs_logs s;
}.
#[local] Instance frame_preorder : PreOrder frame.
Proof. split; [by intros s; split |]. intros s1 s2 s3 [] []. split; congruence. Qed.

Variable now : bytes.

Lemma frontier_frame s s' : frame s s' → frontier s' = frontier s.
Proof using. intros Hf. unfold frontier. by rewrite (fr_frontier _ _ Hf). Qed.

Definition below (fr : option DurableFrontier) (name : bytes) (n : Z) : Prop :=
  match durable_len fr name with Some d => d ≤ n | None => True end.

Lemma truncate_run s fr at_ :
  frontier s = Ok fr → below fr (active_pack s) at_ → ∃ s', truncate_pack_tail now at_ s = (Ok (), s') ∧
    frame s s' ∧ packs s' = alter (take (Z.to_nat at_)) (active_pack s) (packs s) ∧
    objects (tables_of s') = base.filter (λ '(_, l), ¬ (pack l = active_pack s ∧ sat_add at_ HEADER_LEN ≤ offset l)) (objects (tables_of s)) ∧
    pack_checkpoints (tables_of s') = pack_checkpoints (tables_of s).
Proof using.
  intros Hf Hb. unfold truncate_pack_tail. mpure. rewrite Hf. mpure.
  assert (∀ s', (match fr with
      | Some f => mensure (default 0 (frontier_packs f !! active_pack s) <=? at_) "durable object pack prefix is corrupt"
      | None => mret ()
      end : M Store ()) s' = (Ok (), s')) as Hd.
  { intros s'. destruct fr as [f|]; [| done]. unfold below, durable_len in Hb. cbn in Hb.
    unfold mensure, lift. by rewrite (proj2 (Z.leb_le _ _) Hb). }
  rewrite (M_bind_run _ _ _ _ _ (Hd s)). eexists. split; [reflexivity |]. by split_and!.
Qed.

(** ** The scan *)

(** Where the scan stops: at the end of the file, or where it finds no whole
    record; something wrong needs a frontier to be taken for a lost tail. *)
Definition stops (fr : option DurableFrontier) (file : bytes) (at_ : Z) : Prop :=
  at_ = blen file ∨ scan_record file at_ = ScanTorn ∨ (fr ≠ None ∧ ∃ why, scan_record file at_ = ScanBad why).

(** The row of a record at an offset. *)
Definition row_at (name : bytes) (off : Z) (k : ObjectKind) (b : bytes) : ObjectLocation :=
  mkLocation name (off + HEADER_LEN) (blen b) k.

Lemma insert_run id k name off n s :
  zoom (insert_object id k name off n) s =
  (Ok (), set_catalog (with_tables (set_objects (λ m, match m !! id with Some _ => m | None => <[id := mkLocation name off n k]> m end)) (catalog s)) s).
Proof using. done. Qed.

Lemma scan_loop_run fuel name file fr sc pre recs tail s :
  file = pre ++ pack_of recs ++ tail → active_pack s = name → packs s !! name = Some file → frontier s = Ok fr →
  sc_offset sc = blen pre → small recs →
  stops fr file (blen (pre ++ pack_of recs)) → below fr name (blen (pre ++ pack_of recs)) →
  blen file < 2 ^ 63 → (length recs < fuel)%nat →
  (∀ id l, objects (tables_of s) !! id = Some l → pack l = name → offset l < blen pre + HEADER_LEN) →
  ∃ sc' s', scan_loop now fuel name file fr sc s = (Ok sc', s') ∧ frame s s' ∧
    sc_offset sc' = blen (pre ++ pack_of recs) ∧ sc_count sc' = sc_count sc + Z.of_nat (length recs) ∧
    packs s' = <[name := pre ++ pack_of recs]> (packs s) ∧ pack_checkpoints (tables_of s') = pack_checkpoints (tables_of s) ∧
    (∀ id l, objects (tables_of s') !! id = Some l → objects (tables_of s) !! id = Some l ∨
       pack l = name ∧ points_to (<[name := pre ++ pack_of recs]> (packs s)) id l ∧ ∃ k b, (k, b) ∈ recs ∧ object_id k b = id) ∧
    objects (tables_of s) ⊆ objects (tables_of s') ∧
    (∀ k b, (k, b) ∈ recs → is_Some (objects (tables_of s') !! object_id k b)).
Proof.
  intros -> Ha Hp Hf. revert fuel sc pre s Ha Hp Hf.
  induction recs as [|[k b] recs IH]; intros [|fuel] sc pre s Ha Hp Hf Hoff Hsmall Hstop Hbelow Hsize Hfuel Hclean; try (cbn in Hfuel; lia).
  - cbn [scan_loop]. cbn [pack_of map concat app] in *. rewrite app_nil_r in *. rewrite Hoff.
    destruct (Z.ltb_spec (blen pre) (blen (pre ++ tail))) as [Hlt|Hge].
    + assert (∃ s', (match scan_record (pre ++ tail) (blen pre) with
          | ScanTorn => _ ← truncate_pack_tail now (blen pre); mret sc
          | ScanBad why => _ ← mensure (match fr with Some _ => default 0 (durable_len fr name) <=? blen pre | None => false end) why;
            _ ← truncate_pack_tail now (blen pre); mret sc
          | ScanObject id k payload_offset n stop => fail "" end) s = (Ok sc, s') ∧ truncate_pack_tail now (blen pre) s = (Ok (), s')) as (s' & Hrun & Htr).
      { destruct (truncate_run s fr (blen pre) Hf) as (s' & Htr & _); [by rewrite Ha |]. exists s'. split; [| done].
        destruct Hstop as [He|[->|[Hfr [why ->]]]]; [lia | by mrun Htr |]. destruct fr as [f|]; [| done].
        rewrite mensure_bind; [by mrun Htr |]. unfold below, durable_len in *. cbn in *. lia. }
      destruct (truncate_run s fr (blen pre) Hf) as (s'' & Htr' & Hfr & Hpk & Hob & Hck); [by rewrite Ha |].
      rewrite Htr in Htr'. injection Htr' as <-. exists sc, s'.
      split; [destruct (scan_record _ _); [done | done | exfalso; revert Hrun; done] |].
      rewrite Ha in *. split_and!; try done.
      * cbn; lia.
      * rewrite Hpk. apply map_eq. intros i. destruct (decide (i = name)) as [->|].
        -- rewrite lookup_alter, lookup_insert, !decide_True, Hp by done. cbn. unfold blen. by rewrite Nat2Z.id, take_app_length.
        -- by rewrite lookup_alter_ne, lookup_insert_ne by done.
      * intros id l. rewrite Hob, map_lookup_filter_Some. tauto.
      * rewrite Hob. apply map_subseteq_spec. intros id l Hl. apply map_lookup_filter_Some. split; [done |].
        intros [Hn Hle]. pose proof (Hclean _ _ Hl Hn). unfold sat_add, u64_max, HEADER_LEN in *. rewrite blen_app in *. pose proof (blen_nonneg tail). lia.
      * by intros ?? ?%not_elem_of_nil.
    + assert (tail = []) as ->. { destruct tail as [|x t]; [done |]. rewrite blen_app, blen_cons in Hge. pose proof (blen_nonneg t). lia. }
      rewrite app_nil_r in *. exists sc, s. split_and!; try done.
      * cbn; lia.
      * by rewrite insert_id.
      * intros id l ?. by left.
      * by intros ?? ?%not_elem_of_nil.
  - apply Forall_cons in Hsmall as [Hb Hsmall].
    assert (pack_of ((k, b) :: recs) = object_record k b ++ pack_of recs) as Hpo by done. rewrite Hpo in *.
    rewrite <- app_assoc in *. cbn [scan_loop]. rewrite Hoff.
    pose proof (blen_object_record k b) as Hrl. pose proof (blen_nonneg b). pose proof (blen_nonneg (object_record k b)).
    rewrite (proj2 (Z.ltb_lt _ _)).
    2: { rewrite !blen_app, Hrl. pose proof (blen_nonneg (pack_of recs)). pose proof (blen_nonneg tail). unfold HEADER_LEN. lia. }
    rewrite scan_record_object by done. rewrite (M_bind_run _ _ _ _ _ (insert_run _ _ _ _ _ s)).
    set (s1 := set_catalog _ s). set (l0 := mkLocation name (blen pre + HEADER_LEN) (blen b) k) in *.
    assert (objects (tables_of s1) = match objects (tables_of s) !! object_id k b with
        | Some _ => objects (tables_of s) | None => <[object_id k b := l0]> (objects (tables_of s)) end) as Hs1 by done.
    assert (pre ++ object_record k b ++ pack_of recs ++ tail = (pre ++ object_record k b) ++ pack_of recs ++ tail) as Hassoc by (by rewrite <- !app_assoc).
    rewrite (app_assoc pre) in Hstop, Hbelow, Hsize, Hp |- *.
    destruct (IH fuel (mkScan (blen pre + blen (object_record k b)) (sc_count sc + 1) (Some (object_id k b)) (blen pre)) (pre ++ object_record k b) s1)
      as (sc' & s' & Hrun & Hfr & Ho & Hc & Hpk & Hck & Hrows & Hkeep & Hall); try done.
    + by rewrite blen_app.
    + by rewrite <- (app_assoc pre _ (pack_of recs)).
    + cbn in Hfuel. lia.
    + intros id l. rewrite Hs1. destruct (objects (tables_of s) !! object_id k b) eqn:E.
      * intros Hl Hn. pose proof (Hclean _ _ Hl Hn). rewrite blen_app. lia.
      * intros [[<- <-]|[_ Hl]]%lookup_insert_Some Hn; [change (offset l0) with (blen pre + HEADER_LEN); rewrite blen_app, Hrl; unfold HEADER_LEN; lia |].
        pose proof (Hclean _ _ Hl Hn). rewrite blen_app. lia.
    + exists sc', s'. rewrite (app_assoc pre). split_and!; [exact Hrun | etrans; [| done]; by split | done | | done | done | | |].
      * rewrite Hc. cbn. lia.
      * intros id l [Hl|(? & ? & k' & b' & ? & ?)]%Hrows; [| right; split_and!; [done | done | exists k', b'; split; [by right | done]]].
        rewrite Hs1 in Hl. destruct (objects (tables_of s) !! object_id k b) eqn:E; [by left |].
        apply lookup_insert_Some in Hl as [[<- <-]|[_ Hl]]; [right | by left]. split; [done |].
        split; [| exists k, b; split; [by left | done]]. exists pre, b, (pack_of recs). cbn. rewrite lookup_insert, decide_True by done. by rewrite <- app_assoc.
      * etrans; [| exact Hkeep]. rewrite Hs1. destruct (objects (tables_of s) !! object_id k b) eqn:E; [done | by apply insert_subseteq].
      * intros k' b' [[= -> ->]|Hin]%elem_of_cons; [| by apply Hall].
        assert (is_Some (objects (tables_of s1) !! object_id k b)) as [l Hl].
        { rewrite Hs1. destruct (objects (tables_of s) !! object_id k b) eqn:E; [by rewrite E; eexists |].
          rewrite lookup_insert, decide_True by done. by eexists. }
        exists l. by eapply lookup_weaken.
Qed.

(** ** Transactions *)

(** The same files and tables: two states a transaction boundary apart. *)
Record same_view (s s' : Store) : Prop := {
  sv_frame : frame s s';
  sv_packs : packs s' = packs s;
  sv_tables : tables_of s' = tables_of s;
}.

Lemma batch_run {A} (write : M Store A) s (Q : A → Store → Prop) :
  (∀ s0, same_view s s0 → ∃ a s1, write s0 = (Ok a, s1) ∧ Q a s1) →
  (∀ a s1 s2, Q a s1 → same_view s1 s2 → Q a s2) →
  ∃ a s', batch write s = (Ok a, s') ∧ Q a s'.
Proof using.
  intros Hw HQ. unfold batch. mpure. destruct (is_idle (catalog_of s)) eqn:Ei; cbn [negb].
  - set (s0 := (zoom refresh_file_cache (zoom begin_ s).2).2).
    assert (same_view s s0) as Hv.
    { subst s0. cbn. destruct (retain_files (catalog s)); by split; [split | |]. }
    destruct (Hw s0 Hv) as (a & s1 & Hrun & Hq).
    change (∃ a' s', (r ← try_ write; match r with Ok a => _ ← zoom commit; mret a | Err e => _ ← zoom rollback; fail e end) s0 = (Ok a', s') ∧ Q a' s').
    rewrite (try_bind _ _ _ _ _ Hrun). eexists a, _. split; [reflexivity |]. eapply HQ; [done |]. by split; [split | |].
  - apply Hw. by split; [split | |].
Qed.

Lemma reset_tables name c :
  ∃ c', reset_pack_index name c = (Ok (), c') ∧
    tables c' = set_checkpoints (delete name) (set_objects (base.filter (λ '(_, l), pack l ≠ name)) (tables c)).
Proof using.
  unfold reset_pack_index, batch, zoom, begin_, refresh_file_cache, commit, try_, update, modify, gets.
  unfold mbind, M_bind. cbn. destruct (is_idle c); cbn; [destruct (retain_files c); cbn |]; by eexists.
Qed.
Lemma reset_run name s :
  ∃ s', zoom (reset_pack_index name) s = (Ok (), s') ∧ frame s s' ∧ packs s' = packs s ∧
    objects (tables_of s') = base.filter (λ '(_, l), pack l ≠ name) (objects (tables_of s)) ∧
    pack_checkpoints (tables_of s') = delete name (pack_checkpoints (tables_of s)).
Proof using.
  destruct (reset_tables name (catalog s)) as (c' & Hr & Ht). exists (set_catalog c' s). unfold zoom. cbn [catalog_of Store_has_catalog].
  rewrite Hr. split_and!; [done | by split | done | |]; unfold tables_of; cbn; by rewrite Ht.
Qed.

(** ** Recovery *)

Lemma high_water_row name t id l :
  objects t !! id = Some l → pack l = name → row_end l ≤ pack_high_water name t.
Proof using.
  intros Hl Hn. unfold pack_high_water, rows_where.
  assert (l ∈ base.filter (λ l, in_pack name l = true) (map_to_list (objects t)).*2) as Hin.
  { apply list_elem_of_filter. split; [by apply bool_decide_eq_true |]. apply list_elem_of_fmap. exists (id, l).
    split; [done |]. by apply elem_of_map_to_list. }
  revert Hin. generalize (base.filter (λ l, in_pack name l = true) (map_to_list (objects t)).*2). clear.
  induction l0 as [|x l0 IH]; [by intros ?%not_elem_of_nil |]. cbn [foldr]. intros [->|Hin]%elem_of_cons; [lia |]. apply IH in Hin. lia.
Qed.

(** A record that ends within the kept part of a file is still there. *)
Lemma points_to_cut ps name kept tail id l :
  ps !! name = Some (kept ++ tail) → points_to ps id l → pack l = name → row_end l ≤ blen kept →
  points_to (<[name := kept]> ps) id l.
Proof.
  intros Hp (pre & b & post & Hf & Ho & Hn & Hid) Hname Hend. rewrite Hname, Hp in Hf.
  assert (kept ++ tail = pre ++ object_record (loc_kind l) b ++ post) as He by congruence.
  assert (blen (pre ++ object_record (loc_kind l) b) ≤ blen kept) as Hle.
  { rewrite blen_app, blen_object_record. unfold row_end in Hend. lia. }
  rewrite app_assoc in He. apply app_eq_inv in He as [(k & -> & ->)|(k & He & ->)].
  - exists pre, b, k. rewrite Hname, lookup_insert, decide_True by done. by rewrite <- app_assoc.
  - rewrite He, blen_app in Hle. assert (k = []) as -> by (destruct k; [done | rewrite blen_cons in Hle; pose proof (blen_nonneg k); lia]).
    rewrite app_nil_r in He. subst kept. exists pre, b, []. rewrite Hname, lookup_insert, decide_True by done. by rewrite app_nil_r.
Qed.

Lemma points_to_other ps name f id l : pack l ≠ name → points_to ps id l → points_to (<[name := f]> ps) id l.
Proof using. intros Hn (pre & b & post & Hf & ?). exists pre, b, post. by rewrite lookup_insert_ne. Qed.

Lemma validated_bounds s file k :
  validate_checkpoint s file (blen file) k = true → verified_len k ≤ blen file ∧ pack_high_water (active_pack s) (tables_of s) ≤ verified_len k.
Proof using. unfold validate_checkpoint. destruct (_ || _) eqn:E; [done |]. intros _. lia. Qed.

(** What a crash leaves of the active pack and what the catalog knows of it:
    whole records and a tail no record can be read from; rows that are sound in
    other packs; a checkpoint that, when recovery may trust it, covers records
    whose rows are there. *)
Record crashed (s : Store) (fr : option DurableFrontier) (recs : list (ObjectKind * bytes)) (tail : bytes) : Prop := {
  cr_pack : packs s !! active_pack s = Some (pack_of recs ++ tail);
  cr_small : small recs;
  cr_size : blen (pack_of recs ++ tail) < 2 ^ 63;
  cr_frontier : frontier s = Ok fr;
  cr_durable : below fr (active_pack s) (blen (pack_of recs));
  cr_tail : stops fr (pack_of recs ++ tail) (blen (pack_of recs));
  cr_others : ∀ id l, objects (tables_of s) !! id = Some l → pack l ≠ active_pack s → points_to (packs s) id l;
  cr_trusted : ∀ k, trusted_checkpoint s (pack_of recs ++ tail) fr = Some k → ∃ j,
    verified_len k = blen (pack_of (take j recs)) ∧
    (∀ kind b, (kind, b) ∈ take j recs → is_Some (objects (tables_of s) !! object_id kind b)) ∧
    (∀ id l, objects (tables_of s) !! id = Some l → pack l = active_pack s → points_to (packs s) id l);
}.

(** What recovery promises then. *)
Record recovered (s s' : Store) (recs : list (ObjectKind * bytes)) : Prop := {
  rc_frame : frame s s';
  rc_packs : packs s' = <[active_pack s := pack_of recs]> (packs s);
  rc_sound : rows_sound s';
  rc_all : ∀ k b, (k, b) ∈ recs → is_Some (objects (tables_of s') !! object_id k b);
  rc_others : ∀ id l, objects (tables_of s) !! id = Some l → pack l ≠ active_pack s → objects (tables_of s') !! id = Some l;
}.

(** Without a checkpoint the whole pack is scanned and counted. *)
Definition rebuilt (s s' : Store) (recs : list (ObjectKind * bytes)) : Prop :=
  pack_checkpoints (tables_of s) !! active_pack s = None → recs ≠ [] →
  (∃ c, pack_checkpoints (tables_of s') !! active_pack s = Some c ∧ verified_len c = blen (pack_of recs) ∧
     object_count c = Z.of_nat (length recs)) ∧
  ∀ id l, objects (tables_of s') !! id = Some l → pack l = active_pack s → ∃ k b, (k, b) ∈ recs ∧ object_id k b = id.

Lemma pack_of_nil recs : blen (pack_of recs) = 0 → recs = [].
Proof. intros H0. apply nil_length_inv. pose proof (pack_of_length recs). unfold blen in H0. lia. Qed.

(** The state the scan starts from: rows of the trusted prefix only. *)
Lemma scan_start s fr recs tail :
  crashed s fr recs tail → ∃ s1 sc j, frame s s1 ∧ packs s1 = packs s ∧
    sc = match trusted_checkpoint s (pack_of recs ++ tail) fr with
         | Some k => mkScan (verified_len k) (object_count k) (last_object k) (last_record_start k)
         | None => mkScan 0 0 None 0
         end ∧
    sc_offset sc = blen (pack_of (take j recs)) ∧
    (∀ rest : Store → Res () * Store,
      (_ ← match trusted_checkpoint s (pack_of recs ++ tail) fr with Some _ => mret () | None => zoom (reset_pack_index (active_pack s)) end;
       _ ← zoom (delete_pack_objects_from (active_pack s) (sat_add (sc_offset sc) HEADER_LEN)); rest) s = rest s1) ∧
    (∀ id l, objects (tables_of s1) !! id = Some l → pack l = active_pack s → row_end l ≤ sc_offset sc ∧ points_to (packs s) id l) ∧
    (∀ id l, objects (tables_of s1) !! id = Some l → objects (tables_of s) !! id = Some l) ∧
    (∀ id l, objects (tables_of s) !! id = Some l → pack l ≠ active_pack s → objects (tables_of s1) !! id = Some l) ∧
    (∀ k b, (k, b) ∈ take j recs → is_Some (objects (tables_of s1) !! object_id k b)).
Proof.
  intros [Hp Hsm Hsz Hf Hd Ht Ho Htr]. destruct (trusted_checkpoint _ _ _) as [k|] eqn:Et.
  - destruct (Htr k eq_refl) as (j & Hj & Hall & Hpts).
    assert (verified_len k ≤ blen (pack_of recs ++ tail) ∧ pack_high_water (active_pack s) (tables_of s) ≤ verified_len k) as [Hv Hw].
    { unfold trusted_checkpoint in Et. destruct (pack_checkpoints _ !! _) as [k'|]; [| done]. cbn in Et. destruct (_ && _) eqn:E; [| done].
      injection Et as ->. apply andb_true_iff in E as [_ E]. by apply validated_bounds. }
    assert (∀ id l, objects (tables_of s) !! id = Some l → pack l = active_pack s → row_end l ≤ verified_len k ∧ 0 ≤ len l) as Hrow.
    { intros id l Hl Hn. pose proof (high_water_row _ _ _ _ Hl Hn). destruct (Hpts _ _ Hl Hn) as (_ & b & _ & _ & _ & -> & _).
      pose proof (blen_nonneg b). lia. }
    eexists _, _, j. split_and!; [| | done | done | intros rest; reflexivity | | | |]; [by split | done | | | |];
      unfold tables_of at 1; cbn -[row_end].
    + intros id l [Hl _]%map_lookup_filter_Some Hn. split; [by eapply Hrow | by eapply Hpts].
    + by intros id l [Hl _]%map_lookup_filter_Some.
    + intros id l Hl Hn. apply map_lookup_filter_Some. split; [done | naive_solver].
    + intros kk b Hin. destruct (Hall _ _ Hin) as [l Hl]. exists l. apply map_lookup_filter_Some. split; [done |].
      intros [Hn Hle]. destruct (Hrow _ _ Hl Hn) as [Hr Hlen]. unfold row_end, sat_add, u64_max, HEADER_LEN in *. lia.
  - destruct (reset_run (active_pack s) s) as (s1 & Hrun & Hfr & Hpk & Hob & _).
    eexists _, _, 0%nat. split_and!; [| | done | done | intros rest; by rewrite (M_bind_run _ _ _ _ _ Hrun) | | | |]; [| exact Hpk | | | |].
    + etrans; [exact Hfr | by split].
    + unfold tables_of at 1. cbn -[row_end]. intros id l [Hl _]%map_lookup_filter_Some Hn. fold (tables_of s1) in Hl. rewrite Hob in Hl.
      by apply map_lookup_filter_Some in Hl as [_ Hl].
    + unfold tables_of at 1. cbn. intros id l [Hl _]%map_lookup_filter_Some. fold (tables_of s1) in Hl. rewrite Hob in Hl.
      by apply map_lookup_filter_Some in Hl as [Hl _].
    + unfold tables_of at 2. cbn. intros id l Hl Hn. apply map_lookup_filter_Some. fold (tables_of s1). rewrite Hob.
      split; [by apply map_lookup_filter_Some | naive_solver].
    + by intros ?? ?%not_elem_of_nil.
Qed.

Lemma stale_rows_run name file s :
  ∃ s', (if blen file <? pack_high_water name (tables_of s)
         then _ ← zoom forget_capture_caches; modify (set_generation (Some now)) else mret () : M Store ()) s = (Ok (), s') ∧
    frame s s' ∧ packs s' = packs s ∧ objects (tables_of s') = objects (tables_of s) ∧
    pack_checkpoints (tables_of s') = pack_checkpoints (tables_of s).
Proof using. destruct (_ <? _); eexists; (split; [reflexivity |]; split_and!; [by split | done..]). Qed.

(** The rest of a crashed state does not matter to recovery. *)
Lemma crashed_steady s s' fr recs tail :
  crashed s fr recs tail → frame s s' → packs s' = packs s → objects (tables_of s') = objects (tables_of s) →
  pack_checkpoints (tables_of s') = pack_checkpoints (tables_of s) →
  crashed s' fr recs tail ∧ trusted_checkpoint s' (pack_of recs ++ tail) fr = trusted_checkpoint s (pack_of recs ++ tail) fr.
Proof using.
  intros [Hp Hsm Hsz Hf Hd Ht Ho Htr] Hfr Hpk Hob Hck. pose proof (fr_active _ _ Hfr) as Ha.
  assert (trusted_checkpoint s' (pack_of recs ++ tail) fr = trusted_checkpoint s (pack_of recs ++ tail) fr) as He.
  { unfold trusted_checkpoint, validate_checkpoint, pack_high_water, rows_where. by rewrite Ha, Hck, Hob. }
  split; [| done]. split; rewrite ?Ha, ?Hpk, ?Hob, ?He, ?(frontier_frame _ _ Hfr); done.
Qed.

Lemma crashed_view s s' fr recs tail : crashed s fr recs tail → same_view s s' → crashed s' fr recs tail.
Proof using. intros Hc [Hf Hp Ht]. eapply crashed_steady; [exact Hc | exact Hf | exact Hp | by rewrite Ht | by rewrite Ht]. Qed.
Lemma recovered_view s s2 s3 recs : recovered s s2 recs → same_view s2 s3 → recovered s s3 recs.
Proof using.
  intros [H1 H2 H3 H4 H5] [F2 P2 T2]. split.
  - etrans; [exact H1 | exact F2].
  - by rewrite P2.
  - intros id l. rewrite T2, P2. apply H3.
  - intros k b. rewrite T2. apply H4.
  - intros id l. rewrite T2. apply H5.
Qed.
Lemma recovered_from s s1 s2 recs : same_view s s1 → recovered s1 s2 recs → recovered s s2 recs.
Proof using.
  intros [F1 P1 T1] [H1 H2 H3 H4 H5]. rewrite (fr_active _ _ F1), P1 in H2. rewrite (fr_active _ _ F1), T1 in H5. split; try done.
  etrans; [exact F1 | exact H1].
Qed.

(** Recovery brings a crashed store back: see [recovered]. *)
Lemma recover_run s fr recs tail :
  crashed s fr recs tail → ∃ s', recover_pack_under_catalog_lock now s = (Ok (), s') ∧ recovered s s' recs ∧ rebuilt s s' recs.
Proof.
  intros Hc0. pose proof (cr_pack _ _ _ _ Hc0) as Hp0. unfold recover_pack_under_catalog_lock. mpure. rewrite Hp0.
  destruct (stale_rows_run (active_pack s) (pack_of recs ++ tail) s) as (s0 & Hrun0 & Hf0 & Hp0' & Hob0 & Hck0).
  rewrite (M_bind_run _ _ _ _ _ Hrun0). destruct (crashed_steady _ s0 _ _ _ Hc0 Hf0 Hp0' Hob0 Hck0) as [Hc Htr].
  rewrite (cr_frontier _ _ _ _ Hc0). mpure. rewrite mensure_bind.
  2: { pose proof (cr_durable _ _ _ _ Hc0) as Hd. unfold below in Hd. destruct (durable_len _ _); [| done].
       apply Z.leb_le. rewrite blen_app. pose proof (blen_nonneg tail). lia. }
  rewrite <- Htr. destruct (scan_start s0 fr recs tail Hc) as (s1 & sc & j & Hf1 & Hp1 & Hsc & Hoff & Hstart & Hrows & Hsub & Hoth & Hall).
  rewrite <- Hsc. rewrite (fr_active _ _ Hf0) in *. rewrite (Hstart (batch _)).
  assert (pack_of recs = pack_of (take j recs) ++ pack_of (drop j recs)) as Hsplit by (by rewrite <- pack_of_app, take_drop).
  match goal with |- context [batch ?w s1] => destruct (batch_run w s1 (λ _ s', recovered s s' recs ∧ rebuilt s s' recs)) as ([] & s' & Hrun & Hq) end.
  - intros s2 [Hf2 Hp2 Ht2]. assert (active_pack s2 = active_pack s) as Ha2.
    { rewrite (fr_active _ _ Hf2), (fr_active _ _ Hf1). apply (fr_active _ _ Hf0). }
    assert (frame s s2) as Hf by (etrans; [exact Hf0 | etrans; [exact Hf1 | exact Hf2]]).
    assert (packs s2 = packs s) as Hp by congruence.
    destruct (scan_loop_run (S (length (pack_of recs ++ tail))) (active_pack s) (pack_of recs ++ tail) fr sc (pack_of (take j recs)) (drop j recs) tail s2)
      as (sc' & s3 & Hrun3 & Hf3 & Ho3 & Hn3 & Hp3 & Hck3 & Hr3 & Hkeep3 & Hall3); rewrite <- ?Hsplit.
    + by rewrite Hsplit, <- app_assoc.
    + done.
    + by rewrite Hp.
    + rewrite (frontier_frame _ _ Hf). apply Hc0.
    + done.
    + apply Forall_drop, Hc0.
    + apply Hc0.
    + apply Hc0.
    + apply Hc0.
    + rewrite length_drop, length_app. pose proof (pack_of_length recs). lia.
    + rewrite Ht2. intros id l Hl Hn. destruct (Hrows _ _ Hl Hn) as [He (_ & b & _ & _ & _ & Hlen & _)]. pose proof (blen_nonneg b).
      unfold row_end, HEADER_LEN in *. lia.
    + assert (recovered s s3 recs) as Hrec.
      { rewrite <- Hsplit in Hp3, Hr3. rewrite Hp in Hp3, Hr3. split.
        - etrans; [exact Hf | exact Hf3].
        - done.
        - intros id l [Hl|(_ & Hpt & _)]%Hr3; rewrite Hp3; [| done]. rewrite Ht2 in Hl. destruct (decide (pack l = active_pack s)) as [Hn|Hn].
          + destruct (Hrows _ _ Hl Hn) as [He Hpt]. rewrite Hp0' in Hpt. eapply points_to_cut; [done | done | done |].
            rewrite Hoff, Hsplit, blen_app in *. pose proof (blen_nonneg (pack_of (drop j recs))). lia.
          + apply points_to_other; [done |]. eapply (cr_others _ _ _ _ Hc0); [| done]. rewrite <- Hob0. by apply Hsub.
        - intros k b Hin. rewrite <- (take_drop j recs) in Hin. apply elem_of_app in Hin as [Hin|Hin]; [| by apply Hall3].
          destruct (Hall _ _ Hin) as [l Hl]. exists l. rewrite <- Ht2 in Hl. by eapply lookup_weaken.
        - intros id l Hl Hn. eapply lookup_weaken; [| exact Hkeep3]. rewrite Ht2. apply Hoth; [by rewrite Hob0 | done]. }
      assert (pack_checkpoints (tables_of s) !! active_pack s = None → sc = mkScan 0 0 None 0 ∧ drop j recs = recs) as Hfresh.
      { intros Hnone. rewrite Hsc. rewrite <- Hck0 in Hnone. unfold trusted_checkpoint in *. rewrite (fr_active _ _ Hf0), Hnone in *. cbn in Hsc |- *.
        split; [done |]. rewrite Hsc in Hoff. symmetry in Hoff. apply pack_of_nil in Hoff. rewrite <- (take_drop j recs) at 2. by rewrite Hoff. }
      assert (∀ id l, pack_checkpoints (tables_of s) !! active_pack s = None → objects (tables_of s3) !! id = Some l → pack l = active_pack s →
        ∃ k b, (k, b) ∈ recs ∧ object_id k b = id) as Hids.
      { intros id l Hnone [Hl|(_ & _ & k & b & Hin & Hid)]%Hr3 Hn; [exfalso | exists k, b; by rewrite (proj2 (Hfresh Hnone)) in Hin].
        rewrite Ht2 in Hl. destruct (Hrows _ _ Hl Hn) as [He (pre & b & _ & _ & Ho & Hlen & _)]. rewrite (proj1 (Hfresh Hnone)) in He.
        pose proof (blen_nonneg b). pose proof (blen_nonneg pre). unfold row_end, HEADER_LEN in *. cbn in He. lia. }
      rewrite (M_bind_run _ _ _ _ _ Hrun3). destruct (Z.eqb_spec (sc_offset sc') (sc_offset sc)) as [He|He]; eexists _, _; (split; [reflexivity |]).
      * split; [exact Hrec |]. intros Hnone Hne. destruct Hne. apply pack_of_nil. rewrite Ho3, (proj1 (Hfresh Hnone)) in He. by rewrite Hsplit.
      * split; [destruct Hrec as [[] ? ? ? ?]; by split; [split |..] |]. intros Hnone _. destruct (Hfresh Hnone) as [Hs0 Hd].
        split; [| by intros id l; apply Hids]. eexists. unfold tables_of. cbn. rewrite lookup_insert, decide_True by done.
        split; [done |]. cbn [verified_len object_count]. split; [by rewrite Ho3, <- Hsplit | by rewrite Hn3, Hs0, Hd].
  - intros _ s2 s3 [Hrec Hreb] Hv. split; [by eapply recovered_view |].
    intros Hnone Hne. destruct Hv as [_ _ G3]. rewrite G3. by apply Hreb.
  - exists s'. by rewrite Hrun.
Qed.

(** ** The fast path *)

Lemma settled_checkpoint s :
  pack_is_settled s = Ok true → ∃ file fr k, packs s !! active_pack s = Some file ∧ frontier s = Ok fr ∧
    trusted_checkpoint s file fr = Some k ∧ verified_len k = blen file ∧ below fr (active_pack s) (blen file).
Proof using.
  unfold pack_is_settled. destruct (packs s !! active_pack s) as [file|] eqn:Ep; [| done].
  destruct (pack_checkpoints (tables_of s) !! active_pack s) as [k|] eqn:Ek; [| done].
  destruct (Z.eqb_spec (verified_len k) (blen file)) as [Hv|]; [cbn [negb] | done].
  destruct (frontier s) as [fr|] eqn:Ef; [| done]. cbn [mbind Res_bind].
  destruct (match durable_len fr (active_pack s) with Some n => negb (n =? blen file) | None => false end) eqn:Ed; [done |].
  intros Hva. exists file, fr, k. split_and!; [done | done | | done |].
  - unfold trusted_checkpoint. rewrite Ek. cbn. destruct (durable_len fr (active_pack s)) as [n|]; [| by rewrite andb_true_l; injection Hva as ->].
    apply negb_false_iff, Z.eqb_eq in Ed. rewrite (proj2 (Z.leb_le _ _)) by lia. by injection Hva as ->.
  - unfold below. destruct (durable_len fr (active_pack s)) as [n|]; [| done]. apply negb_false_iff, Z.eqb_eq in Ed. lia.
Qed.

(** Where an open goes without locks, the locked recovery would have changed
    neither file nor table. *)
Theorem settled_recovers_nothing s :
  (∀ name f, packs s !! name = Some f → blen f < 2 ^ 63) →
  (∀ id l, objects (tables_of s) !! id = Some l → 0 ≤ len l) →
  pack_is_settled s = Ok true →
  ∃ s', recover_pack_under_catalog_lock now s = (Ok (), s') ∧ same_view s s'.
Proof using.
  intros Hsize Hlen (file & fr & k & Hp & Hf & Ht & Hv & Hd)%settled_checkpoint. specialize (Hsize _ _ Hp).
  assert (pack_high_water (active_pack s) (tables_of s) ≤ blen file) as Hw.
  { unfold trusted_checkpoint in Ht. destruct (pack_checkpoints _ !! _) as [k'|]; [| done]. cbn in Ht. destruct (_ && _) eqn:E; [| done].
    injection Ht as ->. apply andb_true_iff in E as [_ E]. apply validated_bounds in E. lia. }
  unfold recover_pack_under_catalog_lock. mpure. rewrite Hp. rewrite (proj2 (Z.ltb_ge _ _)) by done. mpure. rewrite Hf. mpure.
  rewrite mensure_bind by (unfold below in Hd; destruct (durable_len _ _); [by apply Z.leb_le | done]). rewrite Ht. mpure. cbn [sc_offset].
  assert (∃ s1, zoom (delete_pack_objects_from (active_pack s) (sat_add (verified_len k) HEADER_LEN)) s = (Ok (), s1) ∧ same_view s s1)
    as (s1 & Hrun & Hs1).
  { eexists. split; [reflexivity |]. split; [by split | done |]. unfold tables_of. cbn. unfold with_tables, set_objects. cbn.
    assert (base.filter (λ '(_, l), ¬ (pack l = active_pack s ∧ sat_add (verified_len k) HEADER_LEN ≤ offset l)) (objects (tables (catalog s))) =
      objects (tables (catalog s))) as ->; [| by destruct (tables (catalog s))].
    apply map_filter_id. intros id l Hl [Hn Hle]. pose proof (high_water_row _ _ _ _ Hl Hn). pose proof (Hlen _ _ Hl).
    unfold tables_of, row_end, sat_add, u64_max, HEADER_LEN in *. lia. }
  mrun Hrun. match goal with |- context [batch ?w s1] => destruct (batch_run w s1 (λ _ s', same_view s s')) as ([] & s' & Hb & Hq) end.
  - intros s2 Hs2. exists (), s2. split.
    + cbn [scan_loop sc_offset]. rewrite Hv, Z.ltb_irrefl. mpure. by rewrite Z.eqb_refl.
    + destruct Hs1 as [? ? ?], Hs2 as [? ? ?]. split; [by etrans | congruence | congruence].
  - intros _ s2 s3 [? ? ?] [? ? ?]. split; [by etrans | congruence | congruence].
  - by exists s'.
Qed.

(** A settled pack holds no torn tail and its rows are all there. *)
Lemma settled_recovered s fr recs tail :
  crashed s fr recs tail → pack_is_settled s = Ok true → recovered s s recs.
Proof.
  intros Hc (file & fr' & k & Hp & Hf & Ht & Hv & _)%settled_checkpoint.
  rewrite (cr_pack _ _ _ _ Hc) in Hp. rewrite (cr_frontier _ _ _ _ Hc) in Hf. injection Hp as <-. injection Hf as <-.
  destruct (cr_trusted _ _ _ _ Hc k Ht) as (j & Hj & Hall & Hpts). rewrite Hv in Hj.
  assert (pack_of recs = pack_of (take j recs) ++ pack_of (drop j recs)) as Hsplit by (by rewrite <- pack_of_app, take_drop).
  assert (drop j recs = [] ∧ tail = []) as [Hdrop ->].
  { rewrite Hsplit, !blen_app in Hj. pose proof (blen_nonneg (pack_of (drop j recs))). pose proof (blen_nonneg tail).
    pose proof (pack_of_length (drop j recs)) as Hl. unfold blen in *. split; apply nil_length_inv; lia. }
  assert (take j recs = recs) as Htake by (rewrite <- (take_drop j recs) at 2; by rewrite Hdrop, app_nil_r).
  split; [done | | | by rewrite Htake in Hall | done].
  - rewrite insert_id; [done |]. rewrite (cr_pack _ _ _ _ Hc). by rewrite app_nil_r.
  - intros id l Hl. destruct (decide (pack l = active_pack s)) as [Hn|Hn]; [by apply Hpts | by apply (cr_others _ _ _ _ Hc)].
Qed.

Lemma recover_pack_run s fr recs tail :
  crashed s fr recs tail → ∃ s', recover_pack now s = (Ok (), s') ∧ recovered s s' recs.
Proof.
  intros Hc. unfold recover_pack. mpure. rewrite (cr_pack _ _ _ _ Hc).
  assert (∃ settled, pack_is_settled s = Ok settled) as [settled Hs].
  { unfold pack_is_settled. rewrite (cr_pack _ _ _ _ Hc), (cr_frontier _ _ _ _ Hc). destruct (pack_checkpoints _ !! _); [| by eexists].
    destruct (negb _); [by eexists |]. cbn [mbind Res_bind]. destruct (match durable_len _ _ with Some n => _ | None => _ end); by eexists. }
  rewrite Hs. mpure. destruct settled.
  - exists s. split; [done |]. by eapply settled_recovered.
  - destruct (batch_run (recover_pack_under_catalog_lock now) s (λ _ s', recovered s s' recs)) as ([] & s' & Hb & Hq); [| | by exists s'].
    + intros s0 Hv. destruct (recover_run s0 fr recs tail (crashed_view _ _ _ _ _ Hc Hv)) as (s1 & Hrun & Hrec & _).
      exists (), s1. split; [done |]. by eapply recovered_from.
    + intros _ s1 s2 Hrec Hv. by eapply recovered_view.
Qed.

(** C14 Whatever a crash left (see [crashed]: a tail cut anywhere, rows lost, rows
    ahead of the file, a checkpoint stale or missing), opening does not fail: the
    pack is cut to its whole records, every row points at a whole record of its
    object, and every object of the pack reads back. *)
Theorem recover_spec s fr recs tail :
  crashed s fr recs tail → ∃ s', recover_pack now s = (Ok (), s') ∧
    packs s' = <[active_pack s := pack_of recs]> (packs s) ∧ rows_sound s' ∧
    ∀ k b, (k, b) ∈ recs → ∃ k' b', read_located (object_id k b) k' s' = Ok b' ∧ object_id k' b' = object_id k b.
Proof.
  intros Hc. destruct (recover_pack_run s fr recs tail Hc) as (s' & Hrun & Hrec). exists s'. split_and!; [done | apply Hrec | apply Hrec |].
  intros k b Hin. destruct (rc_all _ _ _ Hrec _ _ Hin) as [l Hl]. exists (loc_kind l).
  apply (read_points_to s' (object_id k b) l Hl). by apply Hrec.
Qed.

(** ** The content store *)

(** What recovery and every put establish. *)
Record store_ok (s : Store) : Prop := {
  ok_sound : rows_sound s;
  ok_end : known_end s = pack_len (active_pack s) s;
  ok_current : current s = Some (active_pack s);
  ok_name : validate_pack_name (active_pack s) = Ok ();
}.

Lemma store_ok_view s s' : same_view s s' → store_ok s → store_ok s'.
Proof using.
  intros [Hf Hp Ht] [Hs He Hc Hn]. pose proof (fr_active _ _ Hf) as Ha. split; unfold pack_len; rewrite ?Ha, ?Hp.
  - intros id l. rewrite Ht, Hp. apply Hs.
  - by rewrite (fr_known _ _ Hf).
  - by rewrite (fr_current _ _ Hf).
  - done.
Qed.

Lemma enter_ok s : store_ok s → enter_maintenance s = (Ok (), s).
Proof using.
  intros [_ _ Hc Hn]. unfold enter_maintenance, read_or_initialize_current. mpure. rewrite M_bind_assoc. mpure. rewrite Hc. mpure.
  rewrite Hn. rewrite M_bind_assoc. mpure. rewrite decide_True by done. mpure. unfold modify. do 2 f_equal. by destruct s.
Qed.

(** Files only grow at their end, and rows are only added. *)
Definition grown (s s' : Store) : Prop :=
  objects (tables_of s) ⊆ objects (tables_of s') ∧
  ∀ name f, packs s !! name = Some f → ∃ g, packs s' !! name = Some (f ++ g).

Lemma read_grown s s' id k b : grown s s' → rows_sound s → read_located id k s = Ok b → read_located id k s' = Ok b.
Proof.
  intros [Ho Hp] Hs Hr. assert (∃ l, objects (tables_of s) !! id = Some l ∧ loc_kind l = k) as (l & Hl & <-).
  { unfold read_located in Hr. destruct (objects (tables_of s) !! id) as [l|]; [| done]. exists l. split; [done |].
    cbn [with_context mbind Res_bind] in Hr. by destruct (bool_decide_reflect (loc_kind l = k)). }
  pose proof (lookup_weaken _ _ _ _ Hl Ho) as Hl'. destruct (Hs _ _ Hl) as (pre & p & post & Hf & Hoff & Hlen & Hid).
  revert Hr. unfold read_located. rewrite Hl, Hl'. cbn [with_context mbind Res_bind]. rewrite bool_decide_true by done. cbn [ensure mbind Res_bind].
  destruct (Hp _ _ Hf) as [g Hg]. rewrite Hf, Hg. cbn [with_context mbind Res_bind]. destruct (len l =? 0) eqn:E; [done |].
  rewrite <- !app_assoc. rewrite !(read_field_full pre (loc_kind l) p _ HEADER_LEN p); [done | apply field_payload | done | done | apply field_payload | done | done].
Qed.

(** The effect of a put on what is stored. *)
Record put_done (s s' : Store) (id : ObjectId) (k : ObjectKind) (b : bytes) : Prop := {
  pd_ok : store_ok s';
  pd_grown : grown s s';
  pd_stored : is_Some (objects (tables_of s') !! id);
  pd_rows : ∀ i l, objects (tables_of s') !! i = Some l → objects (tables_of s) !! i = Some l ∨
    i = id ∧ loc_kind l = k ∧ read_located id k s' = Ok b;
}.

Lemma put_done_view s s' s'' id k b : put_done s s' id k b → same_view s' s'' → put_done s s'' id k b.
Proof using.
  intros [H1 [H2 H2'] H3 H4] Hv. pose proof Hv as [G1 G2 G3]. split.
  - by eapply store_ok_view.
  - split; [by rewrite G3 |]. by rewrite G2.
  - by rewrite G3.
  - intros i l. rewrite G3. unfold read_located in *. rewrite G3, G2. apply H4.
Qed.

Lemma append_run s k b :
  store_ok s → objects (tables_of s) !! object_id k b = None → blen b ≤ MAX_OBJECT_LEN →
  ∃ s', append_object (object_id k b) k b s = (Ok (), s') ∧ put_done s s' (object_id k b) k b.
Proof.
  intros [Hs He Hc Hn] Hno Hb. unfold append_object. mpure. rewrite insert_run.
  set (file := default [] (packs s !! active_pack s)). set (l0 := mkLocation (active_pack s) (blen file + HEADER_LEN) (blen b) k).
  eexists. split; [reflexivity |]. set (s' := set_catalog _ _).
  assert (objects (tables_of s') = <[object_id k b := l0]> (objects (tables_of s))) as Hobj.
  { unfold s', tables_of. cbn. unfold tables_of in Hno. by rewrite Hno. }
  assert (packs s' = <[active_pack s := file ++ object_record k b]> (packs s)) as Hpk by done.
  assert (grown s s') as Hg.
  { split; [rewrite Hobj; by apply insert_subseteq |]. intros name f Hf. rewrite Hpk. destruct (decide (name = active_pack s)) as [->|].
    - exists (object_record k b). rewrite lookup_insert, decide_True by done. unfold file. by rewrite Hf.
    - exists []. by rewrite lookup_insert_ne, app_nil_r. }
  assert (points_to (packs s') (object_id k b) l0) as Hpt.
  { exists file, b, []. rewrite Hpk. cbn. by rewrite lookup_insert, decide_True, app_nil_r by done. }
  assert (rows_sound s') as Hs'.
  { intros i l. rewrite Hobj. intros [[<- <-]|[_ Hl]]%lookup_insert_Some; [done |].
    destruct (Hs _ _ Hl) as (pre & p & post & Hf & ? & ? & ?). destruct (proj2 Hg _ _ Hf) as [g Hf']. exists pre, p, (post ++ g).
    split_and!; [| done..]. by rewrite Hf', <- !app_assoc. }
  split; [split | done | |].
  - done.
  - unfold pack_len. cbn. rewrite lookup_insert, decide_True by done. by rewrite blen_app.
  - done.
  - done.
  - rewrite Hobj, lookup_insert, decide_True by done. by eexists.
  - intros i l. rewrite Hobj. intros [[<- <-]|[_ Hl]]%lookup_insert_Some; [right | by left]. split_and!; [done | done |].
    destruct Hpt as (pre & p & post & Hf & Ho & Hl & Hid). unfold read_located. rewrite Hobj, lookup_insert, decide_True by done.
    cbn [with_context mbind Res_bind]. rewrite bool_decide_true by done. cbn [ensure mbind Res_bind l0 pack].
    rewrite Hpk, lookup_insert, decide_True by done. cbn [with_context mbind Res_bind].
    cbn [l0 len offset]. destruct (Z.eqb_spec (blen b) 0) as [E|E].
    + assert (b = []) as -> by (destruct b; [done | rewrite blen_cons in E; pose proof (blen_nonneg b0); lia]).
      cbn [with_context mbind Res_bind]. by rewrite bool_decide_true.
    + rewrite <- (app_nil_r (object_record k b)), (read_field_full file k b [] HEADER_LEN b) by (apply field_payload || done).
      cbn [with_context mbind Res_bind]. by rewrite bool_decide_true.
Qed.

Lemma put_run s k b :
  store_ok s → blen b ≤ MAX_OBJECT_LEN →
  ∃ s', put_bytes now k b s = (Ok (object_id k b), s') ∧ put_done s s' (object_id k b) k b.
Proof.
  intros Hok Hb. unfold put_bytes. rewrite (M_bind_run _ _ _ _ _ (enter_ok s Hok)).
  destruct (batch_run (put_bytes_locked now k b) s (λ id s', id = object_id k b ∧ put_done s s' id k b)) as (id & s' & Hrun & -> & Hd).
  - intros s0 Hv. pose proof (store_ok_view _ _ Hv Hok) as Hok0. pose proof Hv as [_ Hvp Hvt].
    assert (∀ s1, put_done s0 s1 (object_id k b) k b → put_done s s1 (object_id k b) k b) as Hback.
    { intros s1 [H1 [H2 H2'] H3 H4]. split; [done | split; [by rewrite <- Hvt | by rewrite <- Hvp] | done |]. by rewrite <- Hvt. }
    unfold put_bytes_locked. rewrite mensure_bind by by apply Z.leb_le.
    assert (zoom (object (object_id k b)) s0 = (Ok (objects (tables_of s0) !! object_id k b), s0)) as Hobj by (by destruct s0).
    mrun Hobj. destruct (objects (tables_of s0) !! object_id k b) as [l|] eqn:El.
    + exists (object_id k b), s0. split; [done |]. split; [done |]. apply Hback. split; [done | | by eexists | by left].
      split; [done |]. intros name f Hf. exists []. by rewrite app_nil_r.
    + mpure. rewrite (ok_end _ Hok0), Z.eqb_refl. mpure. rewrite (M_bind_run _ _ _ _ _ Hobj). cbn beta iota.
      destruct (append_run s0 k b Hok0 El Hb) as (s1 & Hrun & Hd). mrun Hrun. exists (object_id k b), s1.
      split; [done |]. split; [done |]. by apply Hback.
  - intros id s1 s2 [-> Hd] Hv. split; [done |]. by eapply put_done_view.
  - by exists s'.
Qed.

Lemma read_row s id k b : read_located id k s = Ok b → ∃ l, objects (tables_of s) !! id = Some l ∧ loc_kind l = k ∧ object_id k b = id.
Proof using.
  unfold read_located. intros Hr. destruct (objects (tables_of s) !! id) as [l|]; [| done]. cbn [with_context mbind Res_bind] in Hr.
  destruct (bool_decide_reflect (loc_kind l = k)) as [Hk|]; [| done]. cbn [ensure mbind Res_bind] in Hr.
  destruct (packs s !! pack l); [| done]. cbn [with_context mbind Res_bind] in Hr.
  destruct (if len l =? 0 then _ else _) as [b'|]; [| done]. cbn [with_context mbind Res_bind] in Hr.
  destruct (bool_decide_reflect (object_id k b' = id)) as [Hid|]; [| done]. cbn [ensure mbind Res_bind] in Hr. injection Hr as ->. eauto.
Qed.

Lemma put_effect s k b :
  store_ok s → blen b ≤ MAX_OBJECT_LEN →
  ∃ s', put_bytes now k b s = (Ok (object_id k b), s') ∧ store_ok s' ∧
    (∀ id k' b', read_located id k' s = Ok b' → read_located id k' s' = Ok b') ∧
    (read_located (object_id k b) k s' = Ok b ∨
     ∃ k' b', read_located (object_id k b) k' s = Ok b' ∧ (k', b') ≠ (k, b)) ∧
    (∀ id k' b', read_located id k' s' = Ok b' → read_located id k' s = Ok b' ∨ k' = k ∧ id = object_id k b ∧ b' = b).
Proof.
  intros Hok Hb. destruct (put_run s k b Hok Hb) as (s' & Hrun & [Hok' Hg [l Hl] Hrows]). exists s'.
  pose proof (ok_sound _ Hok) as Hs.
  assert (∀ id k' b', read_located id k' s = Ok b' → read_located id k' s' = Ok b') as Hkeep by (intros; by eapply read_grown).
  assert (∀ i l, objects (tables_of s) !! i = Some l → ∃ b', read_located i (loc_kind l) s = Ok b') as Hread.
  { intros i l' Hl'. destruct (read_points_to s i l' Hl' (Hs _ _ Hl')) as (b' & ? & _). eauto. }
  split_and!; [done | done | done | |].
  - destruct (Hrows _ _ Hl) as [Hl'|(_ & _ & ?)]; [| by left]. destruct (Hread _ _ Hl') as [b' Hb'].
    destruct (decide ((loc_kind l, b') = (k, b))) as [[= <- <-]|Hne]; [left; by apply Hkeep | right; eauto].
  - intros id k' b' Hr. destruct (read_row _ _ _ _ Hr) as (l' & Hl' & <- & _).
    destruct (Hrows _ _ Hl') as [Hl''|(-> & <- & Hr')].
    + left. destruct (Hread _ _ Hl'') as [b'' Hb'']. pose proof (Hkeep _ _ _ Hb''). by assert (b'' = b') as <- by congruence.
    + right. split_and!; [done | done | congruence].
Qed.

(** Over the limit nothing happens. *)
Lemma put_too_large s k b :
  store_ok s → MAX_OBJECT_LEN < blen b → ∃ e s', put_bytes now k b s = (Err e, s') ∧ same_view s s'.
Proof using.
  intros Hok Hb. unfold put_bytes. rewrite (M_bind_run _ _ _ _ _ (enter_ok s Hok)).
  assert (∀ s0, put_bytes_locked now k b s0 = (Err "object exceeds size limit", s0)) as Hw.
  { intros s0. unfold put_bytes_locked, mensure, lift. unfold mbind, M_bind. by rewrite (proj2 (Z.leb_gt _ _) Hb). }
  unfold batch. mpure. destruct (is_idle (catalog_of s)) eqn:Ei; cbn [negb].
  - set (s0 := (zoom refresh_file_cache (zoom begin_ s).2).2).
    change (∃ e s', (r ← try_ (put_bytes_locked now k b); match r with Ok a => _ ← zoom commit; mret a | Err e => _ ← zoom rollback; fail e end) s0 = (Err e, s') ∧ same_view s s').
    rewrite (try_bind _ _ _ _ _ (Hw s0)). eexists _, _. split; [reflexivity |].
    subst s0. unfold is_idle in Ei. cbn in Ei |- *. destruct (saved (catalog s)) eqn:Es; [done |].
    destruct (retain_files (catalog s)); by split; [split | |].
  - rewrite Hw. eexists _, _. split; [reflexivity |]. by split; [split | |].
Qed.

(** C15 A put on a store in order answers the content address, keeps everything
    readable, and makes the object readable under its address unless a different
    object sits there already (a hash collision); nothing else becomes readable,
    and the store is in order again. *)
Theorem put_spec s k b :
  store_ok s → blen b ≤ MAX_OBJECT_LEN →
  ∃ s', put_bytes now k b s = (Ok (object_id k b), s') ∧ store_ok s' ∧
    (∀ id k' b', read_located id k' s = Ok b' → read_located id k' s' = Ok b') ∧
    (read_located (object_id k b) k s' = Ok b ∨
     ∃ k' b', read_located (object_id k b) k' s = Ok b' ∧ (k', b') ≠ (k, b)) ∧
    (∀ id k' b', read_located id k' s' = Ok b' → read_located id k' s = Ok b' ∨ k' = k ∧ id = object_id k b ∧ b' = b).
Proof. apply put_effect. Qed.

Lemma put_keeps_ok s k b : store_ok s → store_ok (put_bytes now k b s).2.
Proof.
  intros Hok. destruct (decide (blen b ≤ MAX_OBJECT_LEN)) as [Hb|Hb].
  - by destruct (put_effect s k b Hok Hb) as (s' & -> & ? & _).
  - destruct (put_too_large s k b Hok ltac:(lia)) as (e & s' & -> & Hv). by eapply store_ok_view.
Qed.

(** ** What the durable frontier holds is never cut *)

Definition cut_above (s s' : Store) : Prop :=
  frontier_file s' = frontier_file s ∧ active_pack s' = active_pack s ∧
  (∀ name, name ≠ active_pack s → packs s' !! name = packs s !! name) ∧
  (packs s !! active_pack s = None → packs s' !! active_pack s = None) ∧
  ∀ file, packs s !! active_pack s = Some file → ∃ n, packs s' !! active_pack s = Some (take n file) ∧
    ∀ fr d, frontier s = Ok fr → durable_len fr (active_pack s) = Some d → d ≤ blen file → d ≤ blen (take n file).
#[local] Instance cut_above_preorder : PreOrder cut_above.
Proof using.
  split.
  - intros s. split_and!; try done. intros file Hf. exists (length file). rewrite take_ge by done. by split.
  - intros s1 s2 s3 (F1 & A1 & O1 & N1 & C1) (F2 & A2 & O2 & N2 & C2). rewrite A1 in *. split_and!; [congruence | done | | by auto |].
    + intros name Hn. by rewrite O2, O1.
    + intros file Hf. destruct (C1 _ Hf) as (n & Hn & Hd). destruct (C2 _ Hn) as (n' & Hn' & Hd'). exists (n' `min` n)%nat.
      rewrite take_take in Hn', Hd'. split; [done |]. intros fr d Hfr Hdur Hle. apply (Hd' fr); [| done | by eapply Hd].
      unfold frontier in *. by rewrite F1.
Qed.
Definition cuts_above {A} (m : M Store A) : Prop := ∀ s, cut_above s (m s).2.

Lemma cuts_bind {A B} (m : M Store A) (f : A → M Store B) : cuts_above m → (∀ a, cuts_above (f a)) → cuts_above (m ≫= f).
Proof using.
  intros Hm Hf s. unfold mbind, M_bind. pose proof (Hm s) as H1. destruct (m s) as [[a|e] s']; [| done].
  etrans; [exact H1 | apply Hf].
Qed.
Lemma cuts_pure {A} (m : M Store A) :
  (∀ s, frontier_file (m s).2 = frontier_file s ∧ active_pack (m s).2 = active_pack s ∧ packs (m s).2 = packs s) → cuts_above m.
Proof using.
  intros Hm s. destruct (Hm s) as (F & A1 & P). split_and!; [done | done | by rewrite P | by rewrite P |].
  intros file Hf. exists (length file). rewrite P, take_ge by done. by split.
Qed.
Lemma cuts_zoom {A} (m : M Catalog A) : cuts_above (zoom m).
Proof using. apply cuts_pure. intros s. unfold zoom. by destruct (m (catalog_of s)). Qed.
Lemma cuts_lift {A} (r : Res A) : cuts_above (lift r).
Proof using. by apply cuts_pure. Qed.
Lemma cuts_generation : cuts_above (modify (set_generation (Some now))).
Proof using. by apply cuts_pure. Qed.
Lemma cuts_try {A} (m : M Store A) : cuts_above m → cuts_above (try_ m).
Proof using. intros Hm s. pose proof (Hm s) as H1. unfold try_. by destruct (m s). Qed.
Lemma cuts_ret {A} (a : A) : cuts_above (mret a).
Proof using. by apply cuts_pure. Qed.
Lemma cuts_batch {A} (m : M Store A) : cuts_above m → cuts_above (batch m).
Proof using.
  intros Hm. unfold batch. apply cuts_bind; [by apply cuts_pure |]. intros c. destruct (negb _); [done |].
  apply cuts_bind; [apply cuts_zoom |]. intros _. apply cuts_bind; [apply cuts_zoom |]. intros _.
  apply cuts_bind; [by apply cuts_try |]. intros [a|e]; (apply cuts_bind; [apply cuts_zoom |]); intros _; by apply cuts_pure.
Qed.

Lemma cut_set_packs s fr at_ :
  frontier s = Ok fr → below fr (active_pack s) at_ → cut_above s (set_packs (alter (take (Z.to_nat at_)) (active_pack s)) s).
Proof using.
  intros Hf Hb. split_and!; [done | done | | |].
  - intros name Hn. cbn. by rewrite lookup_alter_ne.
  - intros Hno. cbn. by rewrite lookup_alter, decide_True, Hno by done.
  - intros file Hp. exists (Z.to_nat at_). cbn. rewrite lookup_alter, decide_True, Hp by done. split; [done |].
    intros fr' d Hf' Hd Hle. rewrite Hf in Hf'. injection Hf' as <-. unfold below in Hb. rewrite Hd in Hb.
    unfold blen in *. rewrite length_take. lia.
Qed.
Lemma cuts_truncate at_ : cuts_above (truncate_pack_tail now at_).
Proof using.
  intros s. unfold truncate_pack_tail. mpure. destruct (frontier s) as [fr|e] eqn:Ef; [mpure | done].
  assert (∀ s', cuts_above (_ ← zoom forget_capture_caches; _ ← modify (set_generation (Some now));
    zoom (delete_pack_objects_from (active_pack s') (sat_add at_ HEADER_LEN)))) as Hrest.
  { intros s'. apply cuts_bind; [apply cuts_zoom |]. intros _. apply cuts_bind; [apply cuts_generation |]. intros _. apply cuts_zoom. }
  destruct fr as [f|]; [destruct (Z.leb_spec (default 0 (frontier_packs f !! active_pack s)) at_) as [Hle|Hgt] |].
  - rewrite mensure_bind by done. mpure. etrans; [| apply Hrest]. by apply (cut_set_packs s (Some f)).
  - done.
  - mpure. etrans; [| apply Hrest]. by apply (cut_set_packs s None).
Qed.

Lemma cuts_scan fuel name file fr sc : cuts_above (scan_loop now fuel name file fr sc).
Proof using.
  revert sc. induction fuel as [|fuel IH]; intros sc; cbn [scan_loop]; [by apply cuts_pure |].
  destruct (_ <? _); [| apply cuts_ret]. destruct (scan_record _ _).
  - apply cuts_bind; [apply cuts_truncate |]. intros _. apply cuts_ret.
  - apply cuts_bind; [apply cuts_lift |]. intros _. apply cuts_bind; [apply cuts_truncate |]. intros _. apply cuts_ret.
  - apply cuts_bind; [apply cuts_zoom |]. intros _. apply IH.
Qed.

Lemma cuts_recover : cuts_above (recover_pack_under_catalog_lock now).
Proof using.
  unfold recover_pack_under_catalog_lock. apply cuts_bind; [by apply cuts_pure |]. intros s.
  destruct (packs s !! active_pack s); [| apply cuts_ret]. apply cuts_bind.
  { destruct (_ <? _); [| apply cuts_ret]. apply cuts_bind; [apply cuts_zoom |]. intros _. apply cuts_generation. }
  intros _. apply cuts_bind; [apply cuts_lift |]. intros fr. apply cuts_bind; [apply cuts_lift |]. intros _.
  apply cuts_bind; [destruct (trusted_checkpoint _ _ _); [apply cuts_ret | apply cuts_zoom] |]. intros _.
  apply cuts_bind; [apply cuts_zoom |]. intros _. apply cuts_batch. apply cuts_bind; [apply cuts_scan |]. intros done_.
  destruct (_ =? _); [apply cuts_ret | apply cuts_zoom].
Qed.

(** C16 Whatever the state and whether it succeeds or not, the recovery of an
    open touches no other pack and cuts the active one, if at all, at a point
    past what the durable frontier holds of it. *)
Theorem recovery_keeps_durable s r s' :
  recover_pack now s = (r, s') →
  (∀ name, name ≠ active_pack s → packs s' !! name = packs s !! name) ∧
  ∀ file, packs s !! active_pack s = Some file → ∃ n, packs s' !! active_pack s = Some (take n file) ∧
    ∀ fr d, frontier s = Ok fr → durable_len fr (active_pack s) = Some d → d ≤ blen file → d ≤ blen (take n file).
Proof using.
  intros Hrun. assert (cuts_above (recover_pack now)) as Hc.
  { unfold recover_pack. apply cuts_bind; [by apply cuts_pure |]. intros s0. destruct (packs s0 !! active_pack s0).
    - apply cuts_bind; [apply cuts_lift |]. intros [|]; [apply cuts_ret | apply cuts_batch, cuts_recover].
    - apply cuts_bind; [apply cuts_lift |]. intros fr. apply cuts_bind; [apply cuts_lift |]. intros _. destruct (_ <? _); [| apply cuts_ret].
      apply cuts_bind; [apply cuts_lift |]. intros _. apply cuts_batch.
      apply cuts_bind; [apply cuts_zoom |]. intros _. apply cuts_bind; [apply cuts_zoom |]. intros _. apply cuts_generation. }
  specialize (Hc s). rewrite Hrun in Hc. destruct Hc as (_ & _ & Ho & _ & Hcut). by split.
Qed.

(** ** Records written twice

    A batch that fails rolls its rows back but not the pack; the next put of the
    same object appends a second record. *)

(** Rows of a pack are at most as many as the ids they can have. *)
Lemma prefix_count_ids (name : bytes) (n : Z) (t : Tables) (ids : gset ObjectId) :
  (∀ id l, objects t !! id = Some l → pack l = name → id ∈ ids) →
  pack_prefix_object_count name n t ≤ Z.of_nat (base.size ids).
Proof using.
  intros Hids. unfold pack_prefix_object_count, rows_where. apply inj_le. rewrite length_filter_snd.
  set (rows := base.filter _ (map_to_list (objects t))).
  assert (NoDup rows.*1) as Hnd.
  { eapply sublist_NoDup; [apply (NoDup_fst_map_to_list (objects t)) |]. apply fmap_sublist, sublist_filter. }
  rewrite <- (length_fmap fst rows), <- (size_list_to_set (C := gset ObjectId) rows.*1) by done.
  apply subseteq_size. intros id ([i l] & -> & Hin)%elem_of_list_to_set%list_elem_of_fmap. cbn.
  apply list_elem_of_filter in Hin as [Hp Hin%elem_of_map_to_list]. cbn in Hp. apply andb_true_iff in Hp as [Hp _].
  apply bool_decide_eq_true in Hp. by eapply Hids.
Qed.

(** A pack of whole records, one of them twice, under a store without a frontier. *)
Record doubled (s : Store) (recs : list (ObjectKind * bytes)) : Prop := {
  db_current : current s = Some (active_pack s);
  db_name : validate_pack_name (active_pack s) = Ok ();
  db_pack : packs s !! active_pack s = Some (pack_of recs);
  db_small : small recs;
  db_size : blen (pack_of recs) < 2 ^ 63;
  db_frontier : frontier s = Ok None;
  db_others : ∀ id l, objects (tables_of s) !! id = Some l → pack l ≠ active_pack s → points_to (packs s) id l;
  db_twice : ¬ NoDup (map (λ '(k, b), object_id k b) recs);
}.

Definition index_agrees (name : bytes) (t : Tables) : bool :=
  match pack_checkpoints t !! name with
  | Some k => (pack_prefix_object_count name (verified_len k) t =? object_count k)
              && (pack_crossing_object_count name (verified_len k) t =? 0)
  | None => pack_high_water name t =? 0
  end.

Lemma doubled_view s s' recs : same_view s s' → doubled s recs → doubled s' recs.
Proof using.
  intros [F P T] [H1 H2 H3 H4 H5 H6 H7 H8]. pose proof (fr_active _ _ F) as Ha. split; rewrite ?Ha, ?P, ?T; try done.
  - by rewrite (fr_current _ _ F).
  - by rewrite (frontier_frame _ _ F).
Qed.

Lemma enter_same s : current s = Some (active_pack s) → validate_pack_name (active_pack s) = Ok () → enter_maintenance s = (Ok (), s).
Proof using.
  intros Hc Hn. unfold enter_maintenance, read_or_initialize_current. mpure. rewrite M_bind_assoc. mpure. rewrite Hc. mpure.
  rewrite Hn. rewrite M_bind_assoc. mpure. rewrite decide_True by done. mpure. unfold modify. do 2 f_equal. by destruct s.
Qed.

(** The index rebuilt from such a pack does not agree with its own checkpoint. *)
Lemma rebuild_disagrees s recs :
  doubled s recs → ∃ s', (_ ← zoom (reset_pack_index (active_pack s)); recover_pack_under_catalog_lock now) s = (Ok (), s') ∧
    doubled s' recs ∧ active_pack s' = active_pack s ∧ index_agrees (active_pack s) (tables_of s') = false.
Proof.
  intros [H1 H2 H3 H4 H5 H6 H7 H8]. destruct (reset_run (active_pack s) s) as (s1 & Hr & F & P & Ho & Hk). rewrite (M_bind_run _ _ _ _ _ Hr).
  pose proof (fr_active _ _ F) as Ha.
  assert (crashed s1 None recs []) as Hc.
  { split; rewrite ?Ha, ?P, ?app_nil_r; try done.
    - by rewrite (frontier_frame _ _ F).
    - by left.
    - intros id l Hl Hn. rewrite Ho in Hl. apply map_lookup_filter_Some in Hl as [Hl _]. by apply (H7 _ _ Hl).
    - unfold trusted_checkpoint. by rewrite Ha, Hk, lookup_delete, decide_True. }
  destruct (recover_run s1 None recs [] Hc) as (s' & Hrun & [G1 G2 G3 G4 G5] & Hreb). exists s'. rewrite Ha, P in *.
  assert (active_pack s' = active_pack s) as Ha' by (by rewrite (fr_active _ _ G1)).
  assert (recs ≠ []) as Hne by (intros ->; by apply H8, NoDup_nil_2).
  destruct (Hreb ltac:(by rewrite Ha, Hk, lookup_delete, decide_True) Hne) as ((c & Hck & _ & Hcount) & Hids). rewrite Ha in *.
  split_and!; [done | | done |].
  - split; rewrite ?Ha', ?G2; try done.
    + by rewrite (fr_current _ _ G1), (fr_current _ _ F).
    + by rewrite lookup_insert, decide_True.
    + by rewrite (frontier_frame _ _ G1), (frontier_frame _ _ F).
    + intros id l Hl _. rewrite <- G2. by apply G3.
  - unfold index_agrees. rewrite Hck. apply andb_false_iff. left. apply Z.eqb_neq.
    assert (pack_prefix_object_count (active_pack s) (verified_len c) (tables_of s') ≤
      Z.of_nat (base.size (list_to_set (map (λ '(k, b), object_id k b) recs) : gset ObjectId))) as Hle.
    { apply prefix_count_ids. intros id l Hl Hn. destruct (Hids _ _ Hl Hn) as (k & b & Hin & <-).
      apply elem_of_list_to_set, list_elem_of_fmap. by exists (k, b). }
    pose proof (size_dup _ H8) as Hlt. rewrite length_map in Hlt. lia.
Qed.

Lemma verify_body s recs deep :
  doubled s recs → deep = true ∨ index_agrees (active_pack s) (tables_of s) = false →
  ∃ c s', verify_index now deep s = (Ok c, s') ∧ doubled s' recs ∧ index_agrees (active_pack s') (tables_of s') = false ∧
    repaired c = negb (index_agrees (active_pack s) (tables_of s)).
Proof.
  intros Hd Hdeep. unfold verify_index. rewrite (M_bind_run _ _ _ _ _ (enter_same s (db_current _ _ Hd) (db_name _ _ Hd))). mpure.
  match goal with |- context [batch ?w s] =>
    destruct (batch_run w s (λ c s', doubled s' recs ∧ index_agrees (active_pack s') (tables_of s') = false ∧
      repaired c = negb (index_agrees (active_pack s) (tables_of s)))) as (c & s' & Hrun & Hq) end; [| | by exists c, s'].
  - intros s0 Hv. pose proof (doubled_view _ _ _ Hv Hd) as Hd0. destruct Hv as [F _ T]. mpure.
    rewrite T. fold (index_agrees (active_pack s) (tables_of s)). pose proof (fr_active _ _ F) as Ha.
    destruct (rebuild_disagrees s0 recs Hd0) as (s1 & Hrun & Hd1 & Ha1 & Hdis). rewrite Ha in Hrun.
    assert (negb (index_agrees (active_pack s) (tables_of s)) || deep = true) as ->.
    { destruct Hdeep as [->| ->]; [by rewrite orb_true_r | done]. }
    rewrite (M_bind_run _ _ _ _ _ Hrun). mpure. eexists _, s1. split; [reflexivity |]. rewrite Ha1. split_and!; [done | by rewrite Ha in *| done].
  - intros c s1 s2 (H1 & H2 & H3) Hv. split_and!; [by eapply doubled_view | | done]. destruct Hv as [F _ T]. by rewrite (fr_active _ _ F), T.
Qed.

(** Once a pack holds a record twice, its index is never found in order:
    after a deep rebuild, and any number of checks after that, the next check
    still reports that it had to repair. *)
Theorem duplicate_never_agrees s recs :
  doubled s recs → ∃ c s1, verify_index now true s = (Ok c, s1) ∧
    ∀ s2, rtc (λ x y, ∃ c, verify_index now false x = (Ok c, y)) s1 s2 →
      ∃ c' s3, verify_index now false s2 = (Ok c', s3) ∧ repaired c' = true.
Proof.
  intros Hd. destruct (verify_body s recs true Hd ltac:(by left)) as (c & s1 & Hrun & Hd1 & Hdis & _). exists c, s1. split; [done |].
  intros s2 Hsteps. assert (doubled s2 recs ∧ index_agrees (active_pack s2) (tables_of s2) = false) as [Hd2 Hdis2].
  { clear c Hrun Hd. induction Hsteps as [|x y z [c Hxy] _ IH]; [done |]. apply IH.
    - destruct (verify_body x recs false Hd1 ltac:(by right)) as (c' & s' & Hrun & ? & _). rewrite Hrun in Hxy. by injection Hxy as _ <-.
    - destruct (verify_body x recs false Hd1 ltac:(by right)) as (c' & s' & Hrun & _ & ? & _). rewrite Hrun in Hxy. by injection Hxy as _ <-. }
  destruct (verify_body s2 recs false Hd2 ltac:(by right)) as (c' & s3 & Hrun' & _ & _ & Hrep). exists c', s3. split; [done |]. by rewrite Hrep, Hdis2.
Qed.
End Theory.

(** ** The instance: stores in order implement the content store *)

Section Implementation.
Context `{B3 : Blake3, !Blake3Ok, JF : Json DurableFrontier, JR : Json RefRecord}.
Variable now : bytes.

Record PackStore := mkPackStore { pk_store : Store; pk_ok : store_ok pk_store }.

#[export] Instance PackStore_store : ObjectStore PackStore := {
  put_object := λ k b s, ((put_bytes now k b (pk_store s)).1, mkPackStore (put_bytes now k b (pk_store s)).2 (put_keeps_ok now _ k b (pk_ok s)));
  read_object := λ k id s, read_located id k (pk_store s);
}.

#[export] Instance PackStore_content : ContentStoreOk PackStore.
Proof.
  assert (∀ k b s r s', put_object k b s = (r, s') → r = (put_bytes now k b (pk_store s)).1 ∧ pk_store s' = (put_bytes now k b (pk_store s)).2) as Hput.
  { by intros k b s r s' [= <- <-]. }
  assert (∀ k b s, MAX_OBJECT_LEN < blen b → same_view (pk_store s) (put_bytes now k b (pk_store s)).2) as Hlarge.
  { intros k b s Hb. by destruct (put_too_large now (pk_store s) k b (pk_ok s) Hb) as (e & s' & -> & ?). }
  assert (∀ s s' id k, same_view s s' → read_located id k s' = read_located id k s) as Hview.
  { intros s s' id k [_ Hp Ht]. unfold read_located. by rewrite Hp, Ht. }
  split.
  - intros k b s Hb. destruct (put_effect now (pk_store s) k b (pk_ok s) Hb) as (s' & Hrun & _ & _ & Hst & _).
    exists (mkPackStore _ (put_keeps_ok now _ k b (pk_ok s))).
    split; [cbn [put_object PackStore_store]; f_equal; by rewrite Hrun |]. cbn [read_object PackStore_store pk_store]. by rewrite Hrun.
  - intros k b s r s' Hp k' id b' Hr. apply Hput in Hp as [_ Hs']. cbn [read_object PackStore_store] in *. rewrite Hs'.
    destruct (decide (blen b ≤ MAX_OBJECT_LEN)) as [Hb|Hb].
    + destruct (put_effect now (pk_store s) k b (pk_ok s) Hb) as (s1 & -> & _ & Hk & _). by apply Hk.
    + rewrite (Hview _ _ _ _ (Hlarge k b s ltac:(lia))). done.
  - intros k b s r s' k' id b' Hp Hr. apply Hput in Hp as [_ Hs']. cbn [read_object PackStore_store] in *. rewrite Hs' in Hr.
    destruct (decide (blen b ≤ MAX_OBJECT_LEN)) as [Hb|Hb].
    + destruct (put_effect now (pk_store s) k b (pk_ok s) Hb) as (s1 & Hrun & _ & _ & _ & Ha). rewrite Hrun in Hr. by apply Ha.
    + rewrite (Hview _ _ _ _ (Hlarge k b s ltac:(lia))) in Hr. by left.
  - intros k id s b Hr. by destruct (read_row _ _ _ _ Hr) as (l & _ & _ & ?).
Qed.
End Implementation.

Module PackExample.
#[local] Existing Instances toy_blake3 toy_blake3_ok.
#[local] Instance frontier_json : Json DurableFrontier := {| to_vec := λ _, []; from_slice := λ _, None |}.
#[local] Instance record_json : Json RefRecord := {| to_vec := λ _, []; from_slice := λ _, None |}.
Definition now : bytes := b_ "now".

Definition empty_disk : Store :=
  mkStore ∅ (Some INITIAL_PACK_NAME) None None ∅ (mkCatalog empty_tables None ∅ 0 0 false) INITIAL_PACK_NAME None 0 false false.
Definition run {A} (m : M Store A) (s : Store) : Store := (m s).2.

Lemma name_valid : validate_pack_name INITIAL_PACK_NAME = Ok ().
Proof. by vm_compute. Qed.
Lemma empty_ok : store_ok empty_disk.
Proof. by split; [| | | exact name_valid]. Qed.

Lemma put_spec_witness :
  ∃ s', put_bytes now Chunk (b_ "one") empty_disk = (Ok (object_id Chunk (b_ "one")), s') ∧ store_ok s'.
Proof.
  destruct (put_spec now empty_disk Chunk (b_ "one") empty_ok ltac:(by vm_compute)) as (s' & Hrun & Hok & _).
  exists s'. exact (conj Hrun Hok).
Defined.

(** Two objects, checkpointed; then the pack lost all but ten bytes of the second. *)
Definition two_objects : Store :=
  run (batched (_ ← put_bytes now Chunk (b_ "one"); put_bytes now Chunk (b_ "two"))) empty_disk.
Definition first : bytes := object_record Chunk (b_ "one").
Definition torn_tail : bytes := take 10 (object_record Chunk (b_ "two")).
Definition torn_store : Store := set_packs (<[INITIAL_PACK_NAME := first ++ torn_tail]>) two_objects.

Lemma torn_active : active_pack torn_store = INITIAL_PACK_NAME.
Proof. by vm_compute. Qed.
Lemma torn_rows : map_Forall (λ _ l, pack l = INITIAL_PACK_NAME) (objects (tables_of torn_store)).
Proof. apply (bool_decide_eq_true_1 _). by vm_compute. Qed.
Lemma torn_trusts : trusted_checkpoint torn_store (first ++ torn_tail) None = None.
Proof. by vm_compute. Qed.
Lemma first_pack : pack_of [(Chunk, b_ "one")] = first.
Proof. apply app_nil_r. Qed.
Lemma torn_crashed : crashed torn_store None [(Chunk, b_ "one")] torn_tail.
Proof.
  assert (packs torn_store !! INITIAL_PACK_NAME = Some (first ++ torn_tail)) as Hp.
  { unfold torn_store. cbn [packs set_packs]. by rewrite lookup_insert, decide_True. }
  split; rewrite ?first_pack, ?torn_active.
  - done.
  - by repeat constructor.
  - by vm_compute.
  - by vm_compute.
  - done.
  - right. left. apply scan_record_torn; by vm_compute.
  - intros id l Hl Hn. by destruct Hn, (torn_rows _ _ Hl).
  - rewrite torn_trusts. done.
Qed.

Lemma recover_spec_witness :
  ∃ s' k' b', recover_pack now torn_store = (Ok (), s') ∧ read_located (object_id Chunk (b_ "one")) k' s' = Ok b'.
Proof.
  destruct (recover_spec now torn_store None _ _ torn_crashed) as (s' & Hrun & _ & _ & Hall).
  destruct (Hall Chunk (b_ "one") ltac:(by left)) as (k' & b' & Hr & _). exists s', k', b'. exact (conj Hrun Hr).
Defined.

Lemma recovery_keeps_durable_witness :
  ∃ n, packs (run (recover_pack now) torn_store) !! INITIAL_PACK_NAME = Some (take n (first ++ torn_tail)).
Proof.
  destruct (recovery_keeps_durable now torn_store (recover_pack now torn_store).1 (run (recover_pack now) torn_store)) as [_ Hcut].
  { unfold run. by destruct (recover_pack now torn_store). }
  rewrite torn_active in Hcut. destruct (Hcut (first ++ torn_tail)) as (n & Hn & _); [| by exists n].
  unfold torn_store. cbn [packs set_packs]. by rewrite lookup_insert, decide_True.
Defined.

Lemma two_settled : pack_is_settled two_objects = Ok true.
Proof. by vm_compute. Qed.
Lemma two_small : map_Forall (λ _ f, blen f < 2 ^ 63) (packs two_objects).
Proof. apply (bool_decide_eq_true_1 _). by vm_compute. Qed.
Lemma two_lengths : map_Forall (λ _ l, 0 ≤ len l) (objects (tables_of two_objects)).
Proof. apply (bool_decide_eq_true_1 _). by vm_compute. Qed.
Lemma settled_recovers_nothing_witness : ∃ s', recover_pack_under_catalog_lock now two_objects = (Ok (), s').
Proof.
  destruct (settled_recovers_nothing now two_objects (λ n f, two_small n f) (λ i l, two_lengths i l) two_settled) as (s' & Hrun & _).
  exists s'. exact Hrun.
Defined.

(** A batch that fails after a put, then a put of the same object. *)
Definition twice : Store :=
  run (batched (put_bytes now Chunk (b_ "one")))
    (run (batched (_ ← put_bytes now Chunk (b_ "one"); fail (A := ()) "interrupted")) empty_disk).
Lemma twice_pack : packs twice !! INITIAL_PACK_NAME = Some (pack_of [(Chunk, b_ "one"); (Chunk, b_ "one")]).
Proof. by vm_compute. Qed.
Lemma twice_rows : map_Forall (λ _ l, pack l = INITIAL_PACK_NAME) (objects (tables_of twice)).
Proof. apply (bool_decide_eq_true_1 _). by vm_compute. Qed.
Lemma twice_active : active_pack twice = INITIAL_PACK_NAME.
Proof. by vm_compute. Qed.
Lemma twice_doubled : doubled twice [(Chunk, b_ "one"); (Chunk, b_ "one")].
Proof.
  split; rewrite ?twice_active.
  - by vm_compute.
  - exact name_valid.
  - exact twice_pack.
  - by repeat constructor.
  - by vm_compute.
  - by vm_compute.
  - intros id l Hl Hn. by destruct Hn, (twice_rows _ _ Hl).
  - intros Hd. apply NoDup_cons in Hd as [Hni _]. apply Hni. by left.
Qed.

Lemma duplicate_never_agrees_witness : ∃ c s1, verify_index now true twice = (Ok c, s1).
Proof.
  destruct (duplicate_never_agrees now twice _ twice_doubled) as (c & s1 & Hrun & _). exists c, s1. exact Hrun.
Defined.
End PackExample.
