(* ===== verification/Chunker.v ===== *)
(** * Chunker: content-defined chunks of a file ([furrow-core/src/chunker.rs])

    The stream reads blocks of any size the reader chooses to return and cuts
    chunks with a gear hash over [u64]. [cut] is the reference: the length of the
    first chunk of an input, with no reads in sight. *)

From S2P Require Import Prelude.
#[local] Open Scope Z_scope.

Definition MIN_CHUNK : Z := 64 * 1024.
Definition AVG_CHUNK : Z := 256 * 1024.
Definition MAX_CHUNK : Z := 1024 * 1024.
Definition READ_BUFFER : Z := 64 * 1024.

(** ** The gear table *)

Definition wrapping_mul (a b : Z) : Z := (a * b) mod 2 ^ 64.
Definition wrapping_add (a b : Z) : Z := (a + b) mod 2 ^ 64.
Definition shl64 (x n : Z) : Z := Z.shiftl x n mod 2 ^ 64.
Definition rotate_left1 (x : Z) : Z := Z.lor (shl64 x 1) (Z.shiftr x 63).

Definition gear_state (state : Z) : Z :=
  let state := Z.lxor state (Z.shiftr state 12) in
  let state := Z.lxor state (shl64 state 25) in
  Z.lxor state (Z.shiftr state 27).
Fixpoint gear_from (n : nat) (state : Z) : list Z :=
  match n with
  | O => []
  | S n => let state := gear_state state in wrapping_mul state 0x2545f4914f6cdd1d :: gear_from n state
  end.
Definition gear_table : list Z := gear_from 256 0x9e3779b97f4a7c15.
Definition GEAR : list Z := Eval vm_compute in gear_table.
(** [GEAR[value as usize]] *)
Definition gear (value : Corelib.Init.Byte.byte) : Z := default 0 (GEAR !! Z.to_nat (byte.unsigned value)).

Definition roll (hash : Z) (value : Corelib.Init.Byte.byte) : Z := wrapping_add (rotate_left1 hash) (gear value).
Definition early_mask : Z := AVG_CHUNK * 2 - 1.
Definition late_mask : Z := AVG_CHUNK / 2 - 1.
Definition boundary (len hash : Z) : bool :=
  if len <? MIN_CHUNK then false
  else if len <? AVG_CHUNK then Z.land hash early_mask =? 0
  else Z.land hash late_mask =? 0.

(** ** The stream *)

(** The reader is the results its calls of [read] will give, the end of file
    after them. *)
Record ChunkStream := mkStream {
  reader : list (Res bytes); buffer : bytes; position : Z; filled : Z; eof : bool;
}.
Definition new (reader : list (Res bytes)) : ChunkStream := mkStream reader (replicate (Z.to_nat READ_BUFFER) Byte.x00) 0 0 false.

(** [self.filled = self.reader.read(&mut self.buffer)?; self.position = 0;]: what
    a short read does not overwrite stays in the buffer. *)
Definition refill : M ChunkStream () := λ s,
  match reader s with
  | [] => (Ok (), mkStream [] (buffer s) 0 0 (eof s))
  | Ok b :: rest => (Ok (), mkStream rest (b ++ drop (length b) (buffer s)) 0 (blen b) (eof s))
  | Err e :: rest => (Err e, mkStream rest (buffer s) (position s) (filled s) (eof s))
  end.
Definition set_position (p : Z) (s : ChunkStream) := mkStream (reader s) (buffer s) p (filled s) (eof s).
Definition set_eof (s : ChunkStream) := mkStream (reader s) (buffer s) (position s) (filled s) true.

(** The loop over the bytes at hand: the chunk so far, the hash, and where a
    boundary was met. *)
Fixpoint scan_block (block out : bytes) (hash offset : Z) : bytes * Z * option Z :=
  match block with
  | [] => (out, hash, None)
  | value :: block =>
    let out := out ++ [value] in
    let hash := roll hash value in
    if boundary (blen out) hash then (out, hash, Some offset) else scan_block block out hash (offset + 1)
  end.

Fixpoint chunk_loop (fuel : nat) (out : bytes) (hash : Z) : M ChunkStream bytes :=
  match fuel with
  | O => fail "fuel"
  | S fuel =>
    if blen out <? MAX_CHUNK then
      s ← get;
      _ ← (if position s =? filled s then refill else mret ());
      s ← get;
      if position s =? filled s then _ ← modify set_eof; mret out
      else
        let available := filled s - position s in
        let taken := Z.min available (MAX_CHUNK - blen out) in
        match scan_block (slice (position s) taken (buffer s)) out hash 0 with
        | (out, _, Some offset) => _ ← modify (set_position (position s + (offset + 1))); mret out
        | (out, hash, None) => _ ← modify (set_position (position s + taken)); chunk_loop fuel out hash
        end
    else mret out
  end.

(** Each turn of the loop but the first reads a block. *)
Definition next_chunk : M ChunkStream (option bytes) :=
  s ← get;
  if eof s then mret None
  else
    out ← chunk_loop (length (reader s) + 3) [] 0;
    mret (if bool_decide (out = []) then None else Some out).

(** ** The reference *)

Fixpoint cut (input : bytes) (len hash : Z) : nat :=
  match input with
  | [] => 0
  | value :: input =>
    let hash := roll hash value in
    if boundary (len + 1) hash || (len + 1 =? MAX_CHUNK) then 1 else S (cut input (len + 1) hash)
  end.

Definition first_chunk (input : bytes) : option bytes :=
  match input with [] => None | _ => Some (take (cut input 0 0) input) end.

(** All of them; each takes a byte at least. *)
Fixpoint chunks_upto (fuel : nat) (input : bytes) : list bytes :=
  match fuel, first_chunk input with
  | S fuel, Some c => c :: chunks_upto fuel (drop (length c) input)
  | _, _ => []
  end.
Definition chunks_of (input : bytes) : list bytes := chunks_upto (length input) input.
