(* ===== verification/ChunkerTheory.v ===== *)
(** * ChunkerTheory: chunks do not depend on how the reads fell

    The streaming loop computes the reference whatever blocks the reader
    returns; chunks have bounded sizes, make up the input, and depend on what
    follows the previous boundary only. *)

From S2P Require Import Prelude Chunker.
#[local] Open Scope Z_scope.

(** ** One block *)

(** Where the chunk ends from here, one that is full already included. *)
Definition cut_from (out : bytes) (hash : Z) (input : bytes) : nat :=
  if blen out <? MAX_CHUNK then cut input (blen out) hash else 0.

Lemma scan_block_cut block : ∀ rest out hash offset,
  blen out < MAX_CHUNK → blen out + blen block ≤ MAX_CHUNK →
  match scan_block block out hash offset with
  | (out', _, Some o) => ∃ n, cut (block ++ rest) (blen out) hash = S n ∧ (S n ≤ length block)%nat
                              ∧ out' = out ++ take (S n) block ∧ o = offset + Z.of_nat n
  | (out', hash', None) => out' = out ++ block
      ∧ cut (block ++ rest) (blen out) hash = (length block + cut_from out' hash' rest)%nat
  end.
Proof.
  induction block as [|v block IH]; intros rest out hash offset Hout Hmax; cbn [scan_block app].
  { unfold cut_from. rewrite app_nil_r. by rewrite (proj2 (Z.ltb_lt _ _)) by done. }
  assert (blen (out ++ [v]) = blen out + 1) as Hlen by blia. rewrite Hlen. cbn [cut].
  destruct (boundary (blen out + 1) (roll hash v)) eqn:Hb; cbn [orb].
  { exists 0%nat. cbn [length take]. split_and!; [done | lia | done | lia]. }
  destruct (Z.eqb_spec (blen out + 1) MAX_CHUNK) as [Heq|Hne].
  { assert (block = []) as -> by (destruct block; [done | exfalso; blia]). cbn [scan_block]. split; [done |].
    unfold cut_from. rewrite Hlen, Heq, Z.ltb_irrefl. cbn [length]. lia. }
  specialize (IH rest (out ++ [v]) (roll hash v) (offset + 1) ltac:(blia) ltac:(blia)). rewrite Hlen in IH.
  destruct (scan_block block (out ++ [v]) (roll hash v) (offset + 1)) as [[out' hash'] [o|]].
  - destruct IH as (n & Hc & Hn & -> & ->). exists (S n).
    split_and!; [by rewrite Hc | cbn [length]; lia | by rewrite <- app_assoc | lia].
  - destruct IH as [-> Hc]. split; [by rewrite <- app_assoc |]. by rewrite Hc.
Qed.

(** ** The stream and what it has still to say *)

Definition gives_bytes (r : Res bytes) : Prop := ∃ b, r = Ok b ∧ b ≠ [].
Record stream_ok (s : ChunkStream) : Prop := {
  reads_ok : Forall gives_bytes (reader s);
  in_buffer : 0 ≤ position s ≤ filled s ∧ filled s ≤ blen (buffer s);
}.
Definition read_bytes (rs : list (Res bytes)) : bytes := concat (map (λ r, match r with Ok b => b | Err _ => [] end) rs).
Definition at_hand (s : ChunkStream) : bytes := slice (position s) (filled s - position s) (buffer s).
Definition pending (s : ChunkStream) : bytes := if eof s then [] else at_hand s ++ read_bytes (reader s).

Lemma blen_at_hand s : stream_ok s → blen (at_hand s) = filled s - position s.
Proof.
  intros [_ [Hp Hf]]. unfold at_hand, slice, blen in *. rewrite length_take, length_drop. lia.
Qed.

Lemma refill_ok s b rs : stream_ok s → reader s = Ok b :: rs →
  ∃ s', refill s = (Ok (), s') ∧ stream_ok s' ∧ reader s' = rs ∧ at_hand s' = b ∧ position s' = 0 ∧ filled s' = blen b ∧ eof s' = eof s.
Proof.
  intros [Hr Hb] Hrd. unfold refill. rewrite Hrd in Hr |- *. eexists. split; [done |].
  inversion_clear Hr as [|? ? _ Hr']. cbn. split_and!; try done.
  - split; [done |]. cbn. pose proof (blen_nonneg b). blia.
  - unfold at_hand, slice. cbn. rewrite drop_0, Z.sub_0_r. unfold blen. by rewrite Nat2Z.id, take_app_length.
Qed.

(** What a turn of the loop does with bytes at hand. *)
Lemma at_hand_split s n : stream_ok s → 0 ≤ n → n ≤ filled s - position s →
  at_hand s = slice (position s) n (buffer s) ++ at_hand (set_position (position s + n) s)
  ∧ blen (slice (position s) n (buffer s)) = n ∧ stream_ok (set_position (position s + n) s).
Proof.
  intros Hok H0 Hn. destruct (in_buffer s Hok) as [Hp Hf]. unfold at_hand. cbn. split_and!.
  - rewrite <- slice_split by lia. f_equal. lia.
  - unfold slice, blen in *. rewrite length_take, length_drop. lia.
  - split; [apply Hok | cbn; lia].
Qed.

Definition to_cut (s : ChunkStream) (out : bytes) (hash : Z) : nat := cut_from out hash (pending s).

(** The result of a run of the loop: the chunk up to the cut, the rest pending. *)
Definition cuts (s : ChunkStream) (out : bytes) (hash : Z) (run : Res bytes * ChunkStream) : Prop :=
  ∃ s', run = (Ok (out ++ take (to_cut s out hash) (pending s)), s') ∧ stream_ok s'
        ∧ pending s' = drop (to_cut s out hash) (pending s).

Lemma pending_at_hand s : eof s = false → pending s = at_hand s ++ read_bytes (reader s).
Proof. unfold pending. by intros ->. Qed.

Lemma block_turn s out hash :
  stream_ok s → eof s = false → position s < filled s → blen out < MAX_CHUNK →
  let n := Z.min (filled s - position s) (MAX_CHUNK - blen out) in
  match scan_block (slice (position s) n (buffer s)) out hash 0 with
  | (out', _, Some o) =>
      let s' := set_position (position s + (o + 1)) s in
      stream_ok s' ∧ out' = out ++ take (to_cut s out hash) (pending s) ∧ pending s' = drop (to_cut s out hash) (pending s)
  | (out', hash', None) =>
      let s' := set_position (position s + n) s in
      stream_ok s' ∧ (position s' = filled s' ∨ blen out' = MAX_CHUNK)
      ∧ out' ++ take (to_cut s' out' hash') (pending s') = out ++ take (to_cut s out hash) (pending s)
      ∧ drop (to_cut s' out' hash') (pending s') = drop (to_cut s out hash) (pending s)
  end.
Proof.
  intros Hok Heof Hlt Hout n. destruct (at_hand_split s n Hok ltac:(lia) ltac:(lia)) as (Hsp & Hbl & Hok').
  set (block := slice (position s) n (buffer s)) in *.
  pose proof (scan_block_cut block (at_hand (set_position (position s + n) s) ++ read_bytes (reader s)) out hash 0 Hout ltac:(lia)) as Hc.
  rewrite app_assoc, <- Hsp, <- pending_at_hand in Hc by done.
  assert (pending s = block ++ pending (set_position (position s + n) s)) as Hps.
  { rewrite (pending_at_hand s), (pending_at_hand (set_position _ s)) by done. by rewrite Hsp, <- app_assoc. }
  destruct (scan_block block out hash 0) as [[out' hash'] [o|]].
  - destruct Hc as (m & Hcut & Hm & -> & ->). unfold to_cut, cut_from. rewrite (proj2 (Z.ltb_lt _ _)), Hcut by done.
    destruct (at_hand_split s (Z.of_nat m + 1) Hok ltac:(lia) ltac:(unfold blen in Hbl; lia)) as (Hsp' & Hbl' & Hok2).
    cbv zeta. rewrite Z.add_0_l. split; [done |].
    assert (slice (position s) (Z.of_nat m + 1) (buffer s) = take (S m) block) as Htk.
    { unfold block, slice. rewrite take_take. f_equal. unfold blen, block, slice in Hm. rewrite length_take in Hm. lia. }
    rewrite (pending_at_hand s), (pending_at_hand (set_position _ s)), Hsp' by done. cbn [reader set_position].
    rewrite Htk in *. assert (length (take (S m) block) = S m) as Hl by (rewrite length_take; lia).
    rewrite <- app_assoc. rewrite take_app_length' by done. rewrite drop_app_length' by done. done.
  - destruct Hc as [-> Hcut]. cbv zeta. split; [done |]. split.
    { cbn. rewrite blen_app, Hbl. lia. }
    assert (to_cut s out hash = (length block + to_cut (set_position (position s + n) s) (out ++ block) hash')%nat) as ->.
    { unfold to_cut at 1, cut_from. rewrite (proj2 (Z.ltb_lt _ _)), Hcut by done.
      unfold to_cut. by rewrite (pending_at_hand (set_position _ s)) by done. }
    rewrite Hps.
    rewrite take_app_add, drop_app_add. by rewrite <- app_assoc.
Qed.

Lemma full_done s out hash : stream_ok s → MAX_CHUNK ≤ blen out → cuts s out hash (Ok out, s).
Proof.
  intros Hok Hge. exists s. unfold to_cut, cut_from. rewrite (proj2 (Z.ltb_ge _ _)) by done.
  by rewrite take_0, drop_0, app_nil_r.
Qed.

(** One turn of the loop, going on as [k] says. *)
Definition turn (k : bytes → Z → M ChunkStream bytes) (out : bytes) (hash : Z) : M ChunkStream bytes :=
  s ← get;
  if position s =? filled s then _ ← modify set_eof; mret out
  else
    let available := filled s - position s in
    let taken := Z.min available (MAX_CHUNK - blen out) in
    match scan_block (slice (position s) taken (buffer s)) out hash 0 with
    | (out, _, Some offset) => _ ← modify (set_position (position s + (offset + 1))); mret out
    | (out, hash, None) => _ ← modify (set_position (position s + taken)); k out hash
    end.

Lemma turn_cuts k out hash s :
  stream_ok s → eof s = false → position s < filled s → blen out < MAX_CHUNK →
  (∀ s' out' hash', stream_ok s' → eof s' = false → reader s' = reader s →
     position s' = filled s' ∨ blen out' = MAX_CHUNK → cuts s' out' hash' (k out' hash' s')) →
  cuts s out hash (turn k out hash s).
Proof.
  intros Hok Heof Hp Hlt Hk. unfold turn. rewrite get_bind. cbv zeta. rewrite (proj2 (Z.eqb_neq _ _)) by lia.
  pose proof (block_turn s out hash Hok Heof Hp Hlt) as Ht. cbv zeta in Ht.
  destruct (scan_block _ out hash 0) as [[out' hash'] [o|]]; rewrite modify_bind.
  - destruct Ht as (Hok' & -> & Hps). by eexists.
  - destruct Ht as (Hok' & Hor & Htk & Hdr).
    destruct (Hk _ out' hash' Hok' Heof eq_refl Hor) as (s' & -> & Hok2 & Hps). exists s'. by rewrite Htk, Hps, Hdr.
Qed.

(** A turn with nothing at hand at the end of the file. *)
Lemma eof_cuts k out hash s :
  reader s = [] → eof s = false → at_hand s = [] → blen out < MAX_CHUNK →
  cuts s out hash ((_ ← refill; turn k out hash) s).
Proof.
  intros Hrd Heof Hnil Hlt.
  rewrite (M_bind_run _ _ _ tt (mkStream [] (buffer s) 0 0 (eof s))) by (unfold refill; by rewrite Hrd).
  unfold turn. rewrite get_bind. cbn [position filled]. rewrite Z.eqb_refl, modify_bind.
  unfold cuts, to_cut, cut_from. rewrite pending_at_hand, Hnil, Hrd by done. cbn.
  rewrite (proj2 (Z.ltb_lt _ _)), app_nil_r by done.
  eexists. split_and!; [done | split; [done |] | done]. cbn. pose proof (blen_nonneg (buffer s)). lia.
Qed.

Lemma chunk_loop_cuts fuel : ∀ s out hash,
  stream_ok s → eof s = false →
  (length (reader s) + (if (position s =? filled s)%Z then 1 else 2) ≤ fuel)%nat →
  cuts s out hash (chunk_loop fuel out hash s).
Proof.
  induction fuel as [|fuel IH]; intros s out hash Hok Heof Hfuel; [case_match; lia |].
  cbn [chunk_loop]. destruct (Z.ltb_spec (blen out) MAX_CHUNK) as [Hlt|Hge]; [| by apply full_done].
  fold (turn (chunk_loop fuel) out hash).
  assert (∀ s', (length (reader s') + 1 ≤ fuel)%nat → stream_ok s' → eof s' = false → position s' < filled s' →
    cuts s' out hash (turn (chunk_loop fuel) out hash s')) as Hscan.
  { intros s1 Hf1 Hok1 He1 Hp1. apply turn_cuts; try done. intros s' out' hash' Hok' He' Hrd' [Heq|Hfull].
    - apply IH; [done..|]. rewrite (proj2 (Z.eqb_eq _ _)), Hrd' by done. lia.
    - destruct fuel; [lia |]. cbn [chunk_loop]. rewrite (proj2 (Z.ltb_ge _ _)) by lia. apply full_done; [done | lia]. }
  rewrite get_bind. destruct (Z.eqb_spec (position s) (filled s)) as [Heq|Hne].
  2: { rewrite mret_bind. apply Hscan; try done; [lia |]. destruct (in_buffer s Hok). lia. }
  assert (at_hand s = []) as Hnil by (apply length_zero_iff_nil; pose proof (blen_at_hand s Hok); unfold blen in *; lia).
  destruct (reader s) as [|r rs] eqn:Hrd; [by apply eof_cuts |].
  pose proof (reads_ok s Hok) as Hr. rewrite Hrd in Hr. apply Forall_cons in Hr as [(b & -> & Hne) _].
  destruct (refill_ok s b rs Hok Hrd) as (s1 & Hrun & Hok1 & Hrd1 & Hh1 & Hp1 & Hf1 & He1).
  rewrite (M_bind_run _ _ _ _ _ Hrun).
  assert (pending s1 = pending s) as Hps.
  { rewrite !pending_at_hand by congruence. by rewrite Hh1, Hrd1, Hnil, Hrd. }
  destruct (Hscan s1) as (s2 & Hc & Hok2 & Hps2); [rewrite Hrd1; cbn [length] in Hfuel; lia | done | congruence | |].
  { rewrite Hp1, Hf1. destruct b; [done | blia]. }
  exists s2. unfold to_cut in *. by rewrite Hps in *.
Qed.

(** ** The cut *)

Lemma cut_bounds input : ∀ len hash, 0 ≤ len < MAX_CHUNK →
  (cut input len hash ≤ length input)%nat ∧ (input ≠ [] → 1 ≤ cut input len hash)%nat
  ∧ len + Z.of_nat (cut input len hash) ≤ MAX_CHUNK
  ∧ (cut input len hash = length input ∨ MIN_CHUNK ≤ len + Z.of_nat (cut input len hash)).
Proof.
  induction input as [|v input IH]; intros len hash Hlen; cbn [cut length].
  { split_and!; [done | done | lia | by left]. }
  destruct (boundary (len + 1) (roll hash v)) eqn:Hb; cbn [orb].
  { split_and!; [lia | done | lia | right]. unfold boundary in Hb. destruct (Z.ltb_spec (len + 1) MIN_CHUNK); [done | lia]. }
  destruct (Z.eqb_spec (len + 1) MAX_CHUNK) as [Heq|Hne].
  { split_and!; [lia | done | lia | right]. unfold MAX_CHUNK, MIN_CHUNK in *. lia. }
  destruct (IH (len + 1) (roll hash v) ltac:(lia)) as (H1 & _ & H3 & H4).
  split_and!; [lia | lia | lia |]. destruct H4 as [->|]; [by left | right; lia].
Qed.

Lemma first_chunk_Some input c : first_chunk input = Some c →
  input = c ++ drop (length c) input ∧ c ≠ [] ∧ blen c ≤ MAX_CHUNK ∧ (drop (length c) input = [] ∨ MIN_CHUNK ≤ blen c).
Proof.
  destruct input as [|v input]; [done |].
  destruct (cut_bounds (v :: input) 0 0 ltac:(done)) as (H1 & H2 & H3 & H4). specialize (H2 ltac:(done)).
  unfold first_chunk. revert H1 H2 H3 H4. generalize (cut (v :: input) 0 0) as n. intros n H1 H2 H3 H4 E.
  injection E as <-.
  assert (length (take n (v :: input)) = n) as Hl by (rewrite length_take; lia).
  unfold blen. rewrite Hl. split_and!; [by rewrite take_drop | | lia |].
  - intros Hn. apply (f_equal length) in Hn. rewrite Hl in Hn. cbn [length] in Hn. lia.
  - destruct H4 as [-> |]; [left | right; lia]. by rewrite drop_all.
Qed.
Lemma first_chunk_None input : first_chunk input = None → input = [].
Proof. by destruct input. Qed.

Lemma drop_shorter {A} (c input : list A) : input = c ++ drop (length c) input → c ≠ [] → (length (drop (length c) input) < length input)%nat.
Proof. intros Heq Hc. rewrite Heq at 2. rewrite length_app. destruct c; [done | cbn [length]; lia]. Qed.

(** Fuel past the length changes nothing. *)
Lemma chunks_upto_enough fuel : ∀ fuel' input, (length input ≤ fuel)%nat → (length input ≤ fuel')%nat →
  chunks_upto fuel input = chunks_upto fuel' input.
Proof.
  induction fuel as [|fuel IH]; intros fuel' input H1 H2.
  { destruct input; [by destruct fuel' | cbn in H1; lia]. }
  destruct fuel' as [|fuel']; [destruct input; [done | cbn in H2; lia] |].
  cbn [chunks_upto]. destruct (first_chunk input) as [c|] eqn:E; [| done].
  destruct (first_chunk_Some _ _ E) as (Heq & Hc & _). pose proof (drop_shorter c input Heq Hc).
  f_equal. apply IH; lia.
Qed.

Lemma chunks_of_cons input c : first_chunk input = Some c → chunks_of input = c :: chunks_of (drop (length c) input).
Proof.
  intros E. destruct (first_chunk_Some _ _ E) as (Heq & Hc & _). pose proof (drop_shorter c input Heq Hc).
  unfold chunks_of. destruct input as [|v input]; [done |]. cbn [length chunks_upto]. rewrite E. f_equal.
  apply chunks_upto_enough; cbn [length] in *; lia.
Qed.

Lemma chunks_ind (P : bytes → list bytes → Prop) :
  P [] [] →
  (∀ input c, first_chunk input = Some c → P (drop (length c) input) (chunks_of (drop (length c) input)) →
     P input (c :: chunks_of (drop (length c) input))) →
  ∀ input, P input (chunks_of input).
Proof.
  intros Hnil Hcons input. induction input as [input IH] using (induction_ltof1 _ (@length _)). unfold ltof in IH.
  destruct (first_chunk input) as [c|] eqn:E.
  - rewrite (chunks_of_cons _ _ E). apply Hcons; [done |]. apply IH.
    destruct (first_chunk_Some _ _ E) as (Heq & Hc & _). by apply drop_shorter.
  - by apply first_chunk_None in E as ->.
Qed.

Lemma chunks_join input : concat (chunks_of input) = input.
Proof.
  apply (chunks_ind (λ i l, concat l = i)); [done |]. intros i c E IH. cbn [concat]. rewrite IH.
  symmetry. by apply first_chunk_Some.
Qed.

(** What one call does. *)
Lemma next_chunk_run s :
  stream_ok s →
  ∃ s', next_chunk s = (Ok (first_chunk (pending s)), s') ∧ stream_ok s'
        ∧ pending s' = match first_chunk (pending s) with Some c => drop (length c) (pending s) | None => [] end.
Proof.
  intros Hok. unfold next_chunk. rewrite get_bind. destruct (eof s) eqn:Heof.
  { exists s. unfold pending. by rewrite Heof. }
  destruct (chunk_loop_cuts (length (reader s) + 3) s [] 0 Hok Heof) as (s' & Hrun & Hok' & Hps); [case_match; lia |].
  exists s'. rewrite (M_bind_run _ _ _ _ _ Hrun), Hps. cbn [app]. unfold to_cut, cut_from. cbn [blen length Z.of_nat].
  destruct (pending s) as [|v p] eqn:Hp; [done |].
  destruct (cut_bounds (v :: p) 0 0 ltac:(done)) as (H1 & H2 & _). specialize (H2 ltac:(done)).
  change (blen []) with 0. change (0 <? MAX_CHUNK) with true. cbv iota. unfold first_chunk. revert H1 H2. generalize (cut (v :: p) 0 0) as n. intros n H1 H2.
  assert (length (take n (v :: p)) = n) as Hl by (rewrite length_take; lia).
  rewrite bool_decide_false; [by rewrite Hl |]. intros Hn. rewrite Hn in Hl. cbn [length] in Hl. lia.
Qed.

Lemma chunks_small input c : c ∈ chunks_of input → c ≠ [] ∧ blen c ≤ MAX_CHUNK.
Proof.
  apply (chunks_ind (λ _ l, c ∈ l → c ≠ [] ∧ blen c ≤ MAX_CHUNK)); [by intros ?%not_elem_of_nil |].
  intros i c' E IH [->|Hc]%elem_of_cons; [| by apply IH].
  destruct (first_chunk_Some _ _ E) as (_ & ? & ? & _). done.
Qed.

(** ** Properties *)

(** C37 Whatever blocks the reader returns, a call of [next_chunk] yields the
    reference chunk of the bytes not yet handed out and leaves the rest; at their
    end it yields nothing. *)
Theorem next_chunk_spec s :
  stream_ok s →
  ∃ s', next_chunk s = (Ok (first_chunk (pending s)), s') ∧ stream_ok s'
        ∧ pending s' = match first_chunk (pending s) with Some c => drop (length c) (pending s) | None => [] end.
Proof. apply next_chunk_run. Qed.

(** C38 The chunks of a file make it up in order; none is empty or longer than
    the maximum, and all but the last have the minimum length. *)
Theorem chunks_bounds input i c :
  chunks_of input !! i = Some c →
  concat (chunks_of input) = input ∧ 0 < blen c ≤ MAX_CHUNK
  ∧ ((S i < length (chunks_of input))%nat → MIN_CHUNK ≤ blen c).
Proof.
  intros Hi. split; [apply chunks_join |]. revert i c Hi.
  apply (chunks_ind (λ _ l, ∀ i c, l !! i = Some c → 0 < blen c ≤ MAX_CHUNK ∧ ((S i < length l)%nat → MIN_CHUNK ≤ blen c))); [done |].
  clear input. intros input c0 E IH [|i] c Hi; cbn in Hi.
  - simplify_eq. destruct (first_chunk_Some _ _ E) as (_ & Hc & Hmax & Hmin). split.
    + split; [| done]. destruct c; [done | blia].
    + cbn [length]. destruct Hmin as [Hnil|]; [| done]. rewrite Hnil. cbn. lia.
  - destruct (IH i c Hi) as [? Hm]. split; [done |]. cbn [length]. intros Hl. apply Hm. lia.
Qed.

(** What comes after a boundary does not depend on what came before it: two
    files with a common tail after a boundary of each have the same chunks
    there. *)
Theorem chunks_resynchronise a b l1 l2 m1 m2 :
  chunks_of a = l1 ++ l2 → chunks_of b = m1 ++ m2 → concat l2 = concat m2 → l2 = m2.
Proof.
  assert (∀ a l1 l2, chunks_of a = l1 ++ l2 → l2 = chunks_of (concat l2)) as Htail.
  { intros a' l. revert a'. induction l as [|c l IH]; intros a' r Ha; cbn [app] in Ha.
    - rewrite <- Ha. by rewrite chunks_join.
    - destruct (first_chunk a') as [c'|] eqn:E.
      + rewrite (chunks_of_cons _ _ E) in Ha. injection Ha as -> Ha. by apply IH in Ha.
      + by apply first_chunk_None in E as ->. }
  intros Ha Hb Heq. rewrite (Htail _ _ _ Ha), (Htail _ _ _ Hb). by rewrite Heq.
Qed.

Module ChunkerExample.
(** Two short reads. *)
Definition two_reads : ChunkStream := new [Ok (b_ "ab"); Ok (b_ "c")].
Lemma two_reads_ok : stream_ok two_reads.
Proof. split; [| by vm_compute]. by repeat constructor; eexists. Qed.

Lemma next_chunk_spec_witness : ∃ s', next_chunk two_reads = (Ok (Some (b_ "abc")), s') ∧ pending s' = [].
Proof.
  destruct (next_chunk_spec two_reads two_reads_ok) as (s' & Hrun & _ & Hp). exists s'.
  assert (first_chunk (pending two_reads) = Some (b_ "abc")) as Hf by by vm_compute.
  rewrite Hf in Hrun, Hp. split; [exact Hrun |]. rewrite Hp. by vm_compute.
Defined.

Lemma chunks_bounds_witness : 0 < blen (b_ "abc") ≤ MAX_CHUNK.
Proof. apply (chunks_bounds (b_ "abc") 0 (b_ "abc")). by vm_compute. Defined.

(** After the first boundary, wherever it is. *)
Lemma chunks_resynchronise_witness : [b_ "abc"] = [b_ "abc"].
Proof. apply (chunks_resynchronise (b_ "abc") (b_ "abc") [] [b_ "abc"] [] [b_ "abc"]); by vm_compute. Defined.
End ChunkerExample.
