(* ===== verification/Gc.v ===== *)
(** * Gc: exact reachability collection ([furrow-core/src/gc.rs])

    Roots are the snapshots each workspace retains, the two ends of an
    interrupted restore and an incoming sync; the mark database is a table with a
    class mask an object; what is marked is copied to a new pack, the catalog
    switches to it in one transaction, [CURRENT] follows, the old packs go. *)

From S2P Require Import Prelude Model Refs Retention Catalog Pack.
#[local] Open Scope Z_scope.

Definition RECORD_OVERHEAD : Z := HEADER_LEN + blen OBJECT_END.
Definition COMPACTION_BATCH : nat := 1024.
Definition ALL_CLASS_MASK : Z := Z.shiftl 1 (Z.of_nat (length ALL)) - 1.
Definition BLOB_BYTES_BIT : Z := Z.shiftl 1 15.
Definition DAY_SECONDS : Z := 24 * 60 * 60.

Record GcReport := mkReport {
  dry_run : bool; report_roots : Z;
  reachable_objects : Z; unreachable_objects : Z;
  reachable_payload : Z; unreachable_payload : Z;
  physical_bytes_before : Z; physical_bytes_after : Z; reclaimed_bytes : Z;
  published_snapshots : Z; retained_snapshots : Z; thinned_snapshots : Z;
}.
Record RootSummary := mkSummary { roots : Z; published : Z; kept : Z }.
Record RestoreRoots := mkRestoreRoots { pre_snapshot : ObjectId; target_snapshot : ObjectId }.
Record SyncRoot := mkSyncRoot { sync_snapshot : ObjectId }.

(** ** The mark database

    The rows of [marks]; an id keeps the kind it came with first. *)
Record Mark := mkMark { mark_kind : ObjectKind; mask : Z; processed : bool }.
Abbreviation MarkDatabase := (gmap ObjectId Mark).

(** The upsert; whether a row changed. *)
Definition enqueue (id : ObjectId) (k : ObjectKind) (m : Z) : M MarkDatabase bool := λ marks,
  match marks !! id with
  | None => (Ok true, <[id := mkMark k m false]> marks)
  | Some old =>
    if Z.lor (mask old) m =? mask old then (Ok false, marks)
    else (Ok true, <[id := mkMark (mark_kind old) (Z.lor (mask old) m) false]> marks)
  end.

(** The first row not processed, by id. *)
Definition next (marks : MarkDatabase) : option (ObjectId * Mark) :=
  head (base.filter (λ '(_, k), processed k = false) (btree_iter marks)).

Definition set_processed (id : ObjectId) (marks : MarkDatabase) : MarkDatabase :=
  alter (λ k, mkMark (mark_kind k) (mask k) true) id marks.

(** The bytes of which classes a snapshot of some age keeps. *)
Definition byte_mask (now sealed_at : Z) (exact_root : bool) : Z :=
  if exact_root || (now <? sealed_at) then ALL_CLASS_MASK
  else
    let age := i64_sat_sub now sealed_at in
    let m := Z.lor (Z.lor (Z.lor (bit Source) (bit VcsMeta)) (bit ConfigSecret)) (bit Lockfile) in
    let m := if age <=? 30 * DAY_SECONDS then Z.lor m (bit Database) else m in
    let m := if age <=? 3 * DAY_SECONDS then Z.lor m (Z.lor (bit Dependency) (bit BuildOutput)) else m in
    if age <=? DAY_SECONDS then Z.lor m (bit Scratch) else m.

(** ** State: the store and the workspace directories *)

Record Workspace := mkWorkspace { ws_retention : option bytes; restore_intent : option bytes; sync_incoming : option bytes }.
Record World := mkWorld { world_store : Store; dirs : gmap bytes Workspace; marks : MarkDatabase }.
Definition set_store (s : Store) (w : World) := mkWorld s (dirs w) (marks w).

Definition on_store {A} (m : M Store A) : M World A := λ w,
  let '(r, s) := m (world_store w) in (r, set_store s w).
Definition on_marks {A} (m : M MarkDatabase A) : M World A := λ w,
  let '(r, k) := m (marks w) in (r, mkWorld (world_store w) (dirs w) k).

(** The logs of a workspace: [refs.log] may not be there. *)
Definition no_log : RefLog := mkRefLog None None (0, 0) (0, 0).
Definition timeline_of (id : bytes) (w : World) : Timeline :=
  mkTimeline (d ← dirs w !! id; ws_retention d) (default no_log (refs_logs (world_store w) !! id)).
Definition set_timeline_of (id : bytes) (t : Timeline) (w : World) : World :=
  mkWorld (set_refs_logs (λ logs, match logs !! id, log (ref_log t) with
                                  | None, None => logs
                                  | _, _ => <[id := ref_log t]> logs
                                  end) (world_store w))
    (alter (λ d, mkWorkspace (ret_file t) (restore_intent d) (sync_incoming d)) id (dirs w)) (marks w).
Definition on_timeline {A} (id : bytes) (m : M Timeline A) : M World A := λ w,
  let '(r, t) := m (timeline_of id w) in (r, set_timeline_of id t w).

Section Gc.
Context `{Blake3, Json DurableFrontier, Json RefRecord, Json RetentionState, Json Snapshot, Json Tree, Json Blob,
          Json RestoreRoots, Json SyncRoot}.
(** What [SystemTime] prints for a generation file, the nanoseconds that name the
    new pack, and [FURROW_GC_FAILPOINT]. *)
Variable stamp : bytes.
Variable generation : bytes.
Variable failpoint : option bytes.

(** ** Roots *)

(** Counts a root when its mark is new. *)
Definition enqueue_root (id : ObjectId) (m : Z) (summary : RootSummary) : M World RootSummary :=
  fresh ← on_marks (enqueue id SnapshotKind m);
  mret (if fresh : bool then mkSummary (roots summary + 1) (published summary) (kept summary) else summary).

(** The visitor of [for_each_record]. *)
Definition visit_record (now head_sequence : Z) (st : RetentionState) (record : RefRecord)
    '((summary, marks) : RootSummary * MarkDatabase) : Res (RootSummary * MarkDatabase) :=
  let summary := mkSummary (roots summary) (published summary + 1) (kept summary) in
  if retains st (sequence record) (snapshot_id record) then
    let summary := mkSummary (roots summary) (published summary) (kept summary + 1) in
    let m := byte_mask now (sealed_at record)
               ((sequence record =? head_sequence) || is_pinned st (snapshot_id record)) in
    match enqueue (snapshot_id record) SnapshotKind m marks with
    | (Ok fresh, marks) =>
      Ok (if fresh : bool then mkSummary (roots summary + 1) (published summary) (kept summary) else summary, marks)
    | (Err e, _) => Err e
    end
  else Ok (summary, marks).

Definition enqueue_intent (content : option bytes) (summary : RootSummary) : M World RootSummary :=
  match content with
  | None => mret summary
  | Some content =>
    intent ← lift (with_context (from_slice content : option RestoreRoots) "read restore intent");
    summary ← enqueue_root (pre_snapshot intent) ALL_CLASS_MASK summary;
    enqueue_root (target_snapshot intent) ALL_CLASS_MASK summary
  end.
Definition enqueue_incoming (content : option bytes) (summary : RootSummary) : M World RootSummary :=
  match content with
  | None => mret summary
  | Some content =>
    incoming ← lift (with_context (from_slice content : option SyncRoot) "read incoming sync root");
    enqueue_root (sync_snapshot incoming) ALL_CLASS_MASK summary
  end.

(** The retained records of one workspace, the retention log brought up to date
    or only planned. *)
Definition enqueue_records (now : Z) (persist_retention : bool) (id : bytes) (summary : RootSummary) : M World RootSummary :=
  st ← on_timeline id (if persist_retention then apply now else plan now);
  head ← on_timeline id (on_refs head_);
  let head_sequence := match head with Some record => sequence record | None => 0 end in
  marks0 ← gets marks;
  '(summary, marks1) ← on_timeline id (on_refs (for_each_record (visit_record now head_sequence st) (summary, marks0)));
  _ ← on_marks (put marks1);
  mret summary.

Fixpoint enqueue_roots (now : Z) (persist_retention : bool) (ids : list bytes) (summary : RootSummary) : M World RootSummary :=
  match ids with
  | [] => mret summary
  | id :: ids =>
    summary ← enqueue_records now persist_retention id summary;
    dir ← gets (λ w, dirs w !! id);
    summary ← enqueue_intent (d ← dir; restore_intent d) summary;
    summary ← enqueue_incoming (d ← dir; sync_incoming d) summary;
    enqueue_roots now persist_retention ids summary
  end.

(** ** Traversal *)

(** The [enqueue] calls of [traverse] for an object, in order, decoded first.
    [Snapshot.parent] is no edge. *)
Definition entry_edges (m : Z) (entry : TreeEntry) : list (ObjectId * ObjectKind * Z) :=
  match Model.xattrs entry with Some x => [(x, XattrsKind, 0)] | None => [] end
  ++ match Model.kind entry, target entry with
     | File, Some t => [(t, BlobKind, if Z.land m (bit (class entry)) =? 0 then 0 else BLOB_BYTES_BIT)]
     | Directory, Some t => [(t, TreeKind, m)]
     | _, _ => []
     end.
Definition edges (k : ObjectKind) (b : bytes) (m : Z) : Res (list (ObjectId * ObjectKind * Z)) :=
  match k with
  | SnapshotKind =>
    snapshot ← with_context (from_slice b) "decode snapshot";
    Ok ((root_tree snapshot, TreeKind, m)
        :: map (λ backup, (backup_blob backup, BlobKind,
             if Z.land m (bit (classify (backup_path backup))) =? 0 then 0 else BLOB_BYTES_BIT)) (sqlite_backups snapshot))
  | TreeKind =>
    tree ← with_context (from_slice b) "decode tree";
    Ok (map (λ page, (page_target page, TreeKind, m)) (pages tree) ++ concat (map (entry_edges m) (entries tree)))
  | BlobKind =>
    blob ← with_context (from_slice b) "decode blob";
    Ok (if Z.land m BLOB_BYTES_BIT =? 0 then [] else map (λ chunk, (cr_id chunk, Chunk, 0)) (chunks blob))
  | Chunk | XattrsKind => Ok []
  end.

Definition enqueue_edges (es : list (ObjectId * ObjectKind * Z)) : M MarkDatabase () :=
  mfor es (λ '(id, k, m), _ ← enqueue id k m; mret ()).

(** The body of the loop for a mark. *)
Definition traverse_one (id : ObjectId) (mark : Mark) : M World () :=
  actual ← gets (λ w, object_kind id (world_store w));
  actual ← lift actual;
  _ ← mensure (bool_decide (actual = mark_kind mark)) "reachable object kind mismatch";
  b ← on_store (read_bytes_unlocked stamp id (mark_kind mark));
  es ← lift (edges (mark_kind mark) b (mask mark));
  _ ← on_marks (enqueue_edges es);
  on_marks (modify (set_processed id)).

(** Out of fuel is [None]. *)
Fixpoint traverse (fuel : nat) : M World (option ()) :=
  match fuel with
  | O => mret None
  | S fuel =>
    k ← gets marks;
    match next k with
    | None => mret (Some ())
    | Some (id, mark) => _ ← traverse_one id mark; traverse fuel
    end
  end.

(** ** Batches of marks *)

Definition mark_batch (marks : MarkDatabase) (after : option ObjectId) : list (ObjectId * ObjectKind) :=
  let rows := map (λ '(id, k), (id, mark_kind k)) (btree_iter marks) in
  take COMPACTION_BATCH (match after with
                         | Some a => base.filter (λ '(id, _), blt a id) rows
                         | None => rows
                         end).

(** The paging loop of [reachable_payload_bytes] and [compact]. *)
Fixpoint visit_each {St V : Type} (visit : ObjectId → ObjectKind → V → M St V) (batch : list (ObjectId * ObjectKind)) (v : V) : M St V :=
  match batch with
  | [] => mret v
  | (id, k) :: batch => v ← visit id k v; visit_each visit batch v
  end.
Fixpoint paged {St V : Type} (fuel : nat) (marks : MarkDatabase) (after : option ObjectId)
    (visit : ObjectId → ObjectKind → V → M St V) (v : V) : M St V :=
  match fuel with
  | O => fail "fuel"
  | S fuel =>
    let batch := mark_batch marks after in
    if bool_decide (batch = []) then mret v
    else v ← visit_each visit batch v; paged fuel marks (fst <$> last batch) visit v
  end.
(** Each page but the last takes a row. *)
Definition paging_fuel (marks : MarkDatabase) : nat := S (base.size marks).

Definition reachable_payload_bytes (marks : MarkDatabase) : M Store Z :=
  paged (paging_fuel marks) marks None (λ id _ total, n ← gets (object_len id); n ← lift n; mret (sat_add total n)) 0.

(** ** Compaction *)

Definition pack_name : bytes := b_ "pack-gc-" ++ generation ++ b_ ".agp".
Definition temporary : bytes := b_ "." ++ pack_name ++ b_ ".tmp".

(** What the loop of [compact] carries. *)
Record Output := mkOutput {
  out_count : Z; out_position : Z; out_last_id : option ObjectId; out_last_record_start : Z;
  locations : gmap ObjectId (ObjectKind * Z * Z);
}.

Definition write_record (k : ObjectKind) (id : ObjectId) (b : bytes) : bytes :=
  OBJECT_MAGIC ++ [OBJECT_VERSION; kind_to_u8 k] ++ to_le 8 (blen b) ++ id ++ blake3 b ++ b ++ OBJECT_END.

Definition compact_one (id : ObjectId) (expected : ObjectKind) (o : Output) : M Store Output :=
  b ← read_bytes_unlocked stamp id expected;
  let record_start := out_position o in
  _ ← modify (set_packs (alter (λ f, f ++ write_record expected id b) temporary));
  let payload_offset := record_start + HEADER_LEN in
  mret (mkOutput (out_count o + 1) (payload_offset + blen b + blen OBJECT_END) (Some id) record_start
          (<[id := (expected, payload_offset, blen b)]> (locations o))).

(** The new pack, complete under its temporary name. *)
Definition write_pack (marks : MarkDatabase) : M Store Output :=
  s ← get;
  _ ← mensure (match packs s !! temporary with None => true | Some _ => false end) "File exists";
  _ ← modify (set_packs (<[temporary := []]>));
  paged (paging_fuel marks) marks None compact_one (mkOutput 0 0 None 0 ∅).

Definition publish_pack : M Store () :=
  modify (set_packs (λ ps, match ps !! temporary with
                           | Some f => <[pack_name := f]> (delete temporary ps)
                           | None => ps
                           end)).

Definition fail_at (point : bytes) (msg : string) : M Store () := mensure (negb (bool_decide (failpoint = Some point))) msg.

Definition swap_catalog (o : Output) : M Store () :=
  zoom (replace_objects_from_gc (locations o) pack_name
    (mkCheckpoint (out_position o) (out_count o) (out_last_id o) (out_last_record_start o))).

Definition remove_old_packs : M Store () :=
  modify (set_packs (base.filter (λ '(name, _), is_pack_file name = false ∨ name = pack_name))).

Definition compact (marks : MarkDatabase) : M Store Z :=
  o ← write_pack marks;
  _ ← publish_pack;
  _ ← fail_at (b_ "after_pack_publish") "injected GC failure after pack publish";
  _ ← swap_catalog o;
  _ ← fail_at (b_ "after_catalog_swap") "injected GC failure after catalog swap";
  _ ← activate_pack pack_name;
  _ ← remove_old_packs;
  gets (pack_len pack_name).

(** ** Collection *)

Definition sat_sub (a b : Z) : Z := Z.max 0 (a - b).

Definition collect_locked_at (fuel : nat) (dry : bool) (now : Z) : M World (option GcReport) :=
  _ ← on_marks (put ∅);
  ids ← gets (λ w, (map_to_list (dirs w)).*1);
  summary ← enqueue_roots now (negb dry) ids (mkSummary 0 0 0);
  finished ← traverse fuel;
  match finished with
  | None => mret None
  | Some () =>
    k ← gets marks;
    let reachable := Z.of_nat (base.size k) in
    total ← gets (λ w, objects_count (tables_of (world_store w)));
    total_payload ← gets (λ w, object_payload_bytes (tables_of (world_store w)));
    payload ← on_store (reachable_payload_bytes k);
    before ← gets (λ w, physical_bytes (world_store w));
    let report after :=
      mkReport dry (roots summary) reachable (sat_sub total reachable) payload (sat_sub total_payload payload)
        before after (sat_sub before after) (published summary) (kept summary) (sat_sub (published summary) (kept summary)) in
    if dry then mret (Some (report (sat_add payload (reachable * RECORD_OVERHEAD))))
    else after ← on_store (compact k); mret (Some (report after))
  end.

Definition collect (fuel : nat) (dry : bool) (now : Z) : M World (option GcReport) :=
  _ ← on_store enter_exclusive; collect_locked_at fuel dry now.
End Gc.
