(* ===== verification/GcTheory.v ===== *)
(** * GcTheory: the marks are what is reachable, and collection keeps it

    The traversal of the mark database ends and leaves exactly the objects
    reachable from the roots, each with the union of the masks it is reached
    under. Collection keeps every marked object readable, also when the process
    dies between any two of its steps and the store is opened again. *)

From S2P Require Import Prelude Model Refs RefsTheory Retention RetentionTheory Catalog Pack PackTheory Gc.
#[local] Open Scope Z_scope.

(** ** Masks *)

(** [a] has every bit of [b]. *)
Definition covers (a b : Z) : Prop := Z.lor a b = a.

Lemma covers_bits a b : covers a b ↔ ∀ i, 0 ≤ i → Z.testbit b i = true → Z.testbit a i = true.
Proof.
  unfold covers. split.
  - intros Heq i Hi Hb. by rewrite <- Heq, Z.lor_spec, Hb, orb_true_r.
  - intros Hb. apply Z.bits_inj'. intros i Hi. rewrite Z.lor_spec.
    destruct (Z.testbit a i) eqn:Ea; [done |]. destruct (Z.testbit b i) eqn:Eb; [| done]. rewrite (Hb i Hi Eb) in Ea. done.
Qed.
#[local] Instance covers_preorder : PreOrder covers.
Proof.
  split; [intros a; apply Z.lor_diag |]. intros a b c. rewrite !covers_bits. eauto.
Qed.
Lemma covers_lor_l a b : covers (Z.lor a b) a.
Proof. rewrite covers_bits. intros i _ Hi. by rewrite Z.lor_spec, Hi. Qed.
Lemma covers_lor_r a b : covers (Z.lor a b) b.
Proof. rewrite covers_bits. intros i _ Hi. by rewrite Z.lor_spec, Hi, orb_true_r. Qed.
Lemma covers_lor a b c : covers a b → covers a c → covers a (Z.lor b c).
Proof. rewrite !covers_bits. intros Hb Hc i Hi. rewrite Z.lor_spec. intros [?|?]%orb_true_iff; auto. Qed.
Lemma covers_0 a : covers a 0.
Proof. apply Z.lor_0_r. Qed.
#[local] Hint Resolve covers_lor_l covers_lor_r covers_0 : core.

(** A test of a bit that the smaller mask passes. *)
Lemma covers_land a b x : 0 ≤ x → covers a b → Z.land b x ≠ 0 → Z.land a x ≠ 0.
Proof.
  intros Hx Hc Hb Ha. apply Hb. apply Z.bits_inj'. intros i Hi. rewrite Z.bits_0, Z.land_spec.
  apply (f_equal (λ z, Z.testbit z i)) in Ha. rewrite Z.bits_0, Z.land_spec in Ha.
  rewrite covers_bits in Hc. specialize (Hc i Hi). destruct (Z.testbit b i); [| done]. by rewrite Hc in Ha.
Qed.

(** ** The mark database *)

Abbreviation Edge := (ObjectId * ObjectKind * Z)%type.
(** What the table says of an id. *)
Definition has_mask (marks : MarkDatabase) (id : ObjectId) (m : Z) : Prop := ∃ k, marks !! id = Some k ∧ covers (mask k) m.

(** Rows stay, keep their kind, gain bits, and one that gained none stays as it is. *)
Definition mark_le (a b : MarkDatabase) : Prop :=
  ∀ id k, a !! id = Some k → ∃ k', b !! id = Some k' ∧ mark_kind k' = mark_kind k ∧ covers (mask k') (mask k)
    ∧ (processed k' = true → k' = k).
#[local] Instance mark_le_preorder : PreOrder mark_le.
Proof.
  split; [intros a id k Hk; exists k; by split_and! |].
  intros a b c Hab Hbc id k Hk. destruct (Hab _ _ Hk) as (k1 & H1 & Hk1 & Hc1 & Hp1).
  destruct (Hbc _ _ H1) as (k2 & H2 & Hk2 & Hc2 & Hp2). exists k2. split_and!; [done | congruence | by etrans |].
  intros Hp. specialize (Hp2 Hp) as ->. auto.
Qed.
Lemma has_mask_le a b id m : mark_le a b → has_mask a id m → has_mask b id m.
Proof. intros Hle (k & Hk & Hm). destruct (Hle _ _ Hk) as (k' & ? & _ & ? & _). exists k'. split; [done | by etrans]. Qed.

Definition mark_edge (marks : MarkDatabase) (e : Edge) : MarkDatabase := (enqueue e.1.1 e.1.2 e.2 marks).2.
Definition mark_edges (marks : MarkDatabase) (es : list Edge) : MarkDatabase := foldl mark_edge marks es.

Lemma mark_edge_lookup marks id k m id' :
  mark_edge marks (id, k, m) !! id' =
    if decide (id' = id) then
      match marks !! id with
      | None => Some (mkMark k m false)
      | Some old => if Z.lor (mask old) m =? mask old then Some old else Some (mkMark (mark_kind old) (Z.lor (mask old) m) false)
      end
    else marks !! id'.
Proof.
  unfold mark_edge, enqueue. cbn [fst snd]. destruct (decide (id' = id)) as [->|Hne].
  - destruct (marks !! id) as [old|] eqn:E; [destruct (_ =? _) eqn:Em |]; cbn [snd]; [done |..]; by rewrite lookup_insert, decide_True.
  - destruct (marks !! id) as [old|] eqn:E; [destruct (_ =? _) eqn:Em |]; cbn [snd]; [done |..]; by rewrite lookup_insert_ne.
Qed.

Lemma mark_edge_has marks id k m : has_mask (mark_edge marks (id, k, m)) id m.
Proof.
  unfold has_mask. rewrite mark_edge_lookup, decide_True by done. destruct (marks !! id) as [old|]; [| by eexists].
  destruct (Z.eqb_spec (Z.lor (mask old) m) (mask old)); eexists; split; [done | done | done | cbn; auto].
Qed.
Lemma mark_edge_le marks e : mark_le marks (mark_edge marks e).
Proof.
  destruct e as [[id k] m]. intros id' k' Hk'. rewrite mark_edge_lookup. destruct (decide (id' = id)) as [->|]; [| exists k'; by split_and!].
  rewrite Hk'. destruct (Z.eqb_spec (Z.lor (mask k') m) (mask k')); eexists; split_and!; try done. cbn. auto.
Qed.

Lemma mark_edges_spec es marks :
  mark_le marks (mark_edges marks es) ∧ (∀ id k m, (id, k, m) ∈ es → has_mask (mark_edges marks es) id m).
Proof.
  revert marks. induction es as [|e es IH]; intros marks; cbn [mark_edges foldl].
  { split; [done |]. intros id k m []%not_elem_of_nil. }
  destruct (IH (mark_edge marks e)) as [Hle Hhas]. split; [etrans; [apply mark_edge_le | done] |].
  intros id k m [<-|Hin]%elem_of_cons; [| eauto]. eapply has_mask_le; [done | apply mark_edge_has].
Qed.
Lemma mark_edges_other es marks id : id ∉ es.*1.*1 → mark_edges marks es !! id = marks !! id.
Proof.
  revert marks. induction es as [|[[i k] m] es IH]; intros marks Hni; cbn [mark_edges foldl]; [done |].
  cbn in Hni. apply not_elem_of_cons in Hni as [Hne Hni]. rewrite IH by done. rewrite mark_edge_lookup. by rewrite decide_False.
Qed.

Lemma mark_edges_new es marks id k : marks !! id = None → mark_edges marks es !! id = Some k → processed k = false.
Proof.
  revert marks. induction es as [|[[i ki] m] es IH]; intros marks Hn; cbn [mark_edges foldl]; [congruence |].
  destruct (decide (id = i)) as [->|Hne].
  - intros Hk. destruct (mark_edges_spec es (mark_edge marks (i, ki, m))) as [Hle _].
    assert (mark_edge marks (i, ki, m) !! i = Some (mkMark ki m false)) as Hm by by rewrite mark_edge_lookup, decide_True, Hn.
    destruct (Hle _ _ Hm) as (k1 & Hk1 & _ & _ & Heq). assert (k1 = k) as -> by (unfold mark_edges in Hk1; congruence).
    destruct (processed k) eqn:Ep; [| done]. by rewrite (Heq eq_refl) in Ep.
  - intros Hk. eapply IH; [| exact Hk]. by rewrite mark_edge_lookup, decide_False.
Qed.

Lemma enqueue_edges_run es marks : enqueue_edges es marks = (Ok (), mark_edges marks es).
Proof.
  revert marks. induction es as [|[[id k] m] es IH]; intros marks; [done |]. unfold enqueue_edges. cbn [mfor].
  assert (enqueue id k m marks = (Ok (match enqueue id k m marks with (Ok r, _) => r | _ => false end), mark_edge marks (id, k, m))) as He.
  { unfold mark_edge, enqueue. cbn [fst snd]. destruct (marks !! id); [destruct (_ =? _) |]; done. }
  rewrite M_bind_assoc, (M_bind_run _ _ _ _ _ He), mret_bind. apply IH.
Qed.

Lemma next_None marks : next marks = None → map_Forall (λ _ k, processed k = true) marks.
Proof.
  unfold next. intros Hn id k Hk. destruct (processed k) eqn:E; [done |].
  assert ((id, k) ∈ base.filter (λ '(_, k), processed k = false) (btree_iter marks)) as Hin.
  { apply list_elem_of_filter. split; [done |]. by apply elem_of_btree_iter. }
  destruct (base.filter _ _); [by apply not_elem_of_nil in Hin | done].
Qed.
Lemma next_Some marks id k : next marks = Some (id, k) → marks !! id = Some k ∧ processed k = false.
Proof.
  unfold next. intros Hn. apply head_Some_elem_of in Hn. apply list_elem_of_filter in Hn as [Hp Hin]. split; [by apply elem_of_btree_iter | done].
Qed.

(** ** The edges of an object *)

Section Gc.
Context `{Blake3, Json DurableFrontier, Json RefRecord, Json RetentionState, Json Snapshot, Json Tree, Json Blob,
          Json RestoreRoots, Json SyncRoot}.
Variable stamp : bytes.

(** The same edges under a larger mask, each with a larger mask. *)
Definition edge_le (e e' : Edge) : Prop := e'.1 = e.1 ∧ covers e'.2 e.2.

Lemma class_bit_le m m' x : 0 ≤ x → covers m' m →
  covers (if Z.land m' x =? 0 then 0 else BLOB_BYTES_BIT) (if Z.land m x =? 0 then 0 else BLOB_BYTES_BIT).
Proof.
  intros Hx Hc. destruct (Z.eqb_spec (Z.land m x) 0) as [|Hn]; [apply covers_0 |].
  destruct (Z.eqb_spec (Z.land m' x) 0) as [E|]; [| done]. by destruct (covers_land m' m x Hx Hc Hn).
Qed.
Lemma bit_nonneg c : 0 ≤ bit c.
Proof. by destruct c. Qed.

Lemma entry_edges_mono m m' entry : covers m' m → Forall2 edge_le (entry_edges m entry) (entry_edges m' entry).
Proof.
  intros Hc. unfold entry_edges. apply Forall2_app; [by destruct (Model.xattrs entry); repeat constructor |].
  destruct (Model.kind entry), (target entry); repeat constructor; cbn; [| done].
  apply class_bit_le; [apply bit_nonneg | done].
Qed.

Lemma edges_mono k b m m' es : covers m' m → edges k b m = Ok es →
  ∃ es', edges k b m' = Ok es' ∧ ∀ e, e ∈ es → ∃ e', e' ∈ es' ∧ edge_le e e'.
Proof.
  intros Hc. assert (∀ es es', Forall2 edge_le es es' → ∀ e, e ∈ es → ∃ e', e' ∈ es' ∧ edge_le e e') as Hall.
  { clear. intros es es' Hall e He. apply list_elem_of_lookup_1 in He as [i Hi].
    destruct (Forall2_lookup_l _ _ _ _ _ Hall Hi) as (e' & Hi' & ?). exists e'. split; [by eapply list_elem_of_lookup_2 | done]. }
  destruct k; cbn [edges].
  - intros [= <-]. eexists. split; [done |]. by intros e ?%not_elem_of_nil.
  - destruct (from_slice b) as [blob|]; [| done]. cbn. intros [= <-]. eexists. split; [done |]. intros e.
    destruct (Z.eqb_spec (Z.land m BLOB_BYTES_BIT) 0) as [|Hn]; [by intros ?%not_elem_of_nil |].
    rewrite (proj2 (Z.eqb_neq _ _)) by by eapply covers_land. intros He. by exists e.
  - destruct (from_slice b) as [tree|]; [| done]. cbn. intros [= <-]. eexists. split; [done |]. apply Hall.
    apply Forall2_app.
    + induction (pages tree); constructor; done.
    + induction (entries tree); [constructor |]. cbn. apply Forall2_app; [by apply entry_edges_mono | done].
  - destruct (from_slice b) as [snapshot|]; [| done]. cbn. intros [= <-]. eexists. split; [done |]. apply Hall.
    constructor; [done |]. induction (sqlite_backups snapshot); constructor; [| done]. split; [done |].
    apply class_bit_le; [apply bit_nonneg | done].
  - intros [= <-]. eexists. split; [done |]. by intros e ?%not_elem_of_nil.
Qed.

(** ** Reachability *)

(** An object reachable from the roots, under a mask: the roots under theirs, the
    edges of an object under what its own mask gives them, and unions. *)
Inductive reached (s : Store) (rts : MarkDatabase) : ObjectId → Z → Prop :=
| reached_root id k : rts !! id = Some k → reached s rts id (mask k)
| reached_edge id k b m es id' k' m' :
    reached s rts id m → read_located id k s = Ok b → edges k b m = Ok es → (id', k', m') ∈ es → reached s rts id' m'
| reached_join id m m' : reached s rts id m → reached s rts id m' → reached s rts id (Z.lor m m').

(** No object names itself: it would hold its own hash. *)
Definition no_self_reference (s : Store) : Prop :=
  ∀ id k b m es, read_located id k s = Ok b → edges k b m = Ok es → id ∉ es.*1.*1.

Definition closed_at (s : Store) (mks : MarkDatabase) (id : ObjectId) (k : Mark) : Prop :=
  ∃ b es, read_located id (mark_kind k) s = Ok b ∧ edges (mark_kind k) b (mask k) = Ok es
          ∧ ∀ id' k' m', (id', k', m') ∈ es → has_mask mks id' m'.
Record marking (s : Store) (rts mks : MarkDatabase) : Prop := {
  mk_sound : ∀ id k, mks !! id = Some k → reached s rts id (mask k);
  mk_roots : ∀ id k, rts !! id = Some k → has_mask mks id (mask k);
  mk_closed : ∀ id k, mks !! id = Some k → processed k = true → closed_at s mks id k;
}.

Lemma closed_at_has s a b id k : (∀ i m, has_mask a i m → has_mask b i m) → closed_at s a id k → closed_at s b id k.
Proof. intros Hle (c & es & ? & ? & Hes). exists c, es. split_and!; [done | done |]. intros. eauto. Qed.

Lemma mark_edges_sound s rts es mks :
  (∀ id k, mks !! id = Some k → reached s rts id (mask k)) →
  (∀ id k m, (id, k, m) ∈ es → reached s rts id m) →
  ∀ id k, mark_edges mks es !! id = Some k → reached s rts id (mask k).
Proof.
  revert mks. induction es as [|[[i ki] m] es IH]; intros mks Hs Hes; cbn [mark_edges foldl]; [done |].
  apply IH; [| intros id k m' Hin; eapply (Hes id k); by right].
  intros id k. rewrite mark_edge_lookup. destruct (decide (id = i)) as [->|]; [| auto].
  assert (reached s rts i m) as Hm by (eapply (Hes i ki); left).
  destruct (mks !! i) as [old|] eqn:E; [| by intros [= <-]]. destruct (_ =? _); intros [= <-]; [auto |]. cbn.
  apply reached_join; [by apply Hs | done].
Qed.

Lemma set_processed_lookup id mks i : set_processed id mks !! i =
  if decide (i = id) then (λ k, mkMark (mark_kind k) (mask k) true) <$> mks !! id else mks !! i.
Proof.
  unfold set_processed. destruct (decide (i = id)) as [->|]; [by rewrite lookup_alter, decide_True | by rewrite lookup_alter_ne].
Qed.
Lemma set_processed_has id mks i m : has_mask mks i m → has_mask (set_processed id mks) i m.
Proof.
  intros (k & Hk & Hm). unfold has_mask. rewrite set_processed_lookup. destruct (decide (i = id)) as [->|]; [| by exists k].
  rewrite Hk. by eexists.
Qed.

(** One turn of the loop keeps the invariant. *)
Lemma marking_step s rts mks id k b es :
  no_self_reference s → marking s rts mks → mks !! id = Some k →
  read_located id (mark_kind k) s = Ok b → edges (mark_kind k) b (mask k) = Ok es →
  marking s rts (set_processed id (mark_edges mks es)).
Proof.
  intros Hns [Hsd Hrt Hcl] Hk Hr He. destruct (mark_edges_spec es mks) as [Hle Hhas].
  pose proof (mark_edges_other es mks id (Hns _ _ _ _ _ Hr He)) as Hid. rewrite Hk in Hid.
  assert (∀ i m, has_mask mks i m → has_mask (set_processed id (mark_edges mks es)) i m) as Hup.
  { intros i m Hm. apply set_processed_has. by eapply has_mask_le. }
  split.
  - intros i k'. rewrite set_processed_lookup. destruct (decide (i = id)) as [->|].
    + rewrite Hid. cbn. intros [= <-]. cbn. by apply Hsd.
    + apply mark_edges_sound; [exact Hsd |]. intros i' ki m Hin. eapply reached_edge; [by apply (Hsd id k) | done..].
  - intros i k' Hk'. auto.
  - intros i k'. rewrite set_processed_lookup. destruct (decide (i = id)) as [->|].
    + rewrite Hid. cbn. intros [= <-] _. exists b, es. cbn. split_and!; [done | done |]. intros. apply set_processed_has. eauto.
    + intros Hk' Hp. eapply closed_at_has; [exact Hup |].
      destruct (mks !! i) as [k0|] eqn:E.
      * destruct (Hle _ _ E) as (k1 & Hk1 & _ & _ & Heq). assert (k1 = k') as -> by congruence. rewrite (Heq Hp). apply Hcl; [done |].
        by rewrite <- (Heq Hp).
      * by rewrite (mark_edges_new _ _ _ _ E Hk') in Hp.
Qed.

(** ** The loop *)

Context `{!Blake3Ok}.

Lemma read_unlocked_row s id l : rows_sound s → objects (tables_of s) !! id = Some l →
  ∃ b, read_located id (loc_kind l) s = Ok b ∧ read_bytes_unlocked stamp id (loc_kind l) s = (Ok b, s).
Proof.
  intros Hs Hl. destruct (read_points_to s id l Hl (Hs _ _ Hl)) as (b & Hb & _). exists b. split; [done |].
  unfold read_bytes_unlocked. rewrite gets_bind. by rewrite Hb.
Qed.

(** An object that is missing, is of another kind or does not decode. *)
Definition broken (s : Store) (id : ObjectId) (k : Mark) : Prop :=
  ∀ b es, read_located id (mark_kind k) s = Ok b → edges (mark_kind k) b (mask k) ≠ Ok es.

(** A turn either reads the object and marks its edges, or fails at a broken one. *)
Lemma traverse_one_run w id k : rows_sound (world_store w) →
  (∃ e, traverse_one stamp id k w = (Err e, w) ∧ broken (world_store w) id k) ∨
  (∃ b es, read_located id (mark_kind k) (world_store w) = Ok b ∧ edges (mark_kind k) b (mask k) = Ok es ∧
     traverse_one stamp id k w = (Ok (), mkWorld (world_store w) (dirs w) (set_processed id (mark_edges (marks w) es)))).
Proof.
  intros Hs. unfold traverse_one. rewrite gets_bind. unfold object_kind, stored_location.
  destruct (objects (tables_of (world_store w)) !! id) as [l|] eqn:El.
  2: { left. eexists. split; [done |]. intros b es Hr. destruct (read_row _ _ _ _ Hr) as (? & ? & _). congruence. }
  cbn [with_context mbind Res_bind]. rewrite lift_ok_bind. destruct (decide (loc_kind l = mark_kind k)) as [Hkd|Hne].
  2: { left. unfold mensure. rewrite bool_decide_false by done. eexists. split; [done |]. intros b es Hr.
       destruct (read_row _ _ _ _ Hr) as (l' & Hl' & Hk' & _). rewrite El in Hl'. injection Hl' as <-. done. }
  rewrite mensure_bind by by apply bool_decide_eq_true. destruct (read_unlocked_row _ _ _ Hs El) as (b & Hb & Hrun). rewrite Hkd in Hb, Hrun.
  assert (on_store (read_bytes_unlocked stamp id (mark_kind k)) w = (Ok b, w)) as Hrun'.
  { unfold on_store. rewrite Hrun. by destruct w. }
  rewrite (M_bind_run _ _ _ _ _ Hrun'). destruct (edges (mark_kind k) b (mask k)) as [es|e] eqn:Ee.
  2: { left. eexists. split; [done |]. intros b' es Hr. assert (b' = b) as -> by congruence. by rewrite Ee. }
  right. exists b, es. split_and!; [done | done |]. rewrite lift_ok_bind.
  assert (on_marks (enqueue_edges es) w = (Ok (), mkWorld (world_store w) (dirs w) (mark_edges (marks w) es))) as Hm.
  { unfold on_marks. by rewrite enqueue_edges_run. }
  by rewrite (M_bind_run _ _ _ _ _ Hm).
Qed.

(** ** Termination

    An object is taken up again only when its mask has gained one of 16 bits. *)

Definition narrow (m : Z) : Prop := 0 ≤ m < 2 ^ 16.
Definition bits16 (m : Z) : nat := length (base.filter (λ i, Z.testbit m i = true) (seqZ 0 16)).

Lemma narrow_bits m i : narrow m → Z.testbit m i = true → 0 ≤ i < 16.
Proof.
  intros [P1 P2] Hb. destruct (decide (i < 0)); [by rewrite Z.testbit_neg_r in Hb |]. destruct (decide (i < 16)); [lia |].
  destruct (decide (m = 0)) as [->|]; [by rewrite Z.bits_0 in Hb |].
  rewrite Z.bits_above_log2 in Hb; [done | done |]. assert (Z.log2 m < 16) by (apply Z.log2_lt_pow2; lia). lia.
Qed.
Lemma narrow_lor a b : narrow a → narrow b → narrow (Z.lor a b).
Proof.
  unfold narrow. intros Ha Hb. split; [apply Z.lor_nonneg; lia |]. destruct (decide (Z.lor a b = 0)) as [->|]; [lia |].
  apply Z.log2_lt_pow2; [pose proof (proj2 (Z.lor_nonneg a b)); lia |]. rewrite Z.log2_lor by lia.
  destruct (decide (a = 0)) as [->|], (decide (b = 0)) as [->|]; cbn; try lia; apply Z.max_lub_lt; try lia; apply Z.log2_lt_pow2; lia.
Qed.
Lemma bits16_max m : (bits16 m ≤ 16)%nat.
Proof. unfold bits16. etrans; [apply length_filter |]. by rewrite length_seqZ. Qed.

Lemma filter_length_lt {A} (P Q : A → Prop) `{!∀ x, Decision (P x), !∀ x, Decision (Q x)} (l : list A) x :
  (∀ y, P y → Q y) → x ∈ l → ¬ P x → Q x → (length (base.filter P l) < length (base.filter Q l))%nat.
Proof.
  intros Hpq. assert (∀ l, length (base.filter P l) ≤ length (base.filter Q l))%nat as Hle.
  { clear -Hpq. induction l as [|y l IH]; [done |]. rewrite !filter_cons. destruct (decide (P y)), (decide (Q y)); cbn; try lia. naive_solver. }
  induction l as [|y l IH]; [by intros ?%not_elem_of_nil |]. intros [->|Hin]%elem_of_cons Hp Hq; rewrite !filter_cons.
  - rewrite decide_False, decide_True by done. cbn. specialize (Hle l). lia.
  - specialize (IH Hin Hp Hq). destruct (decide (P y)), (decide (Q y)); cbn; try lia. naive_solver.
Qed.

Lemma bits16_grows a b : narrow b → ¬ covers a b → (bits16 a < bits16 (Z.lor a b))%nat.
Proof.
  intros Hb Hc. assert (∃ i, 0 ≤ i ∧ Z.testbit b i = true ∧ Z.testbit a i = false) as (i & Hi & Hbi & Hai).
  { destruct (decide (Exists (λ i, Z.testbit b i = true ∧ Z.testbit a i = false) (seqZ 0 16))) as [Hex|Hn].
    - apply Exists_exists in Hex as (i & Hi%elem_of_seqZ & ?). exists i. split_and!; naive_solver lia.
    - destruct Hc. apply covers_bits. intros i Hi Hbi. destruct (Z.testbit a i) eqn:E; [done |]. destruct Hn.
      apply Exists_exists. exists i. split; [apply elem_of_seqZ; apply narrow_bits in Hbi; [lia | done] | done]. }
  apply (filter_length_lt _ _ _ i).
  - intros y Hy. by rewrite Z.lor_spec, Hy.
  - apply elem_of_seqZ. apply narrow_bits in Hbi; [lia | done].
  - by rewrite Hai.
  - by rewrite Z.lor_spec, Hbi, orb_true_r.
Qed.

(** How often an object can still be taken up. *)
Definition turns_left (mks : MarkDatabase) (id : ObjectId) : nat :=
  match mks !! id with
  | None => 17
  | Some k => (if processed k then 0 else 1) + (16 - bits16 (mask k))
  end.
Definition all_narrow (mks : MarkDatabase) : Prop := map_Forall (λ _ k, narrow (mask k)) mks.

Lemma mark_edge_turns mks id k m : narrow m → all_narrow mks →
  all_narrow (mark_edge mks (id, k, m)) ∧ ∀ i, (turns_left (mark_edge mks (id, k, m)) i ≤ turns_left mks i)%nat.
Proof.
  intros Hm Hall. split.
  - intros i k'. rewrite mark_edge_lookup. destruct (decide (i = id)) as [->|]; [| by apply Hall].
    destruct (mks !! id) as [old|] eqn:E; [| by intros [= <-]]. pose proof (Hall _ _ E).
    destruct (_ =? _); intros [= <-]; [done |]. by apply narrow_lor.
  - intros i. unfold turns_left. rewrite mark_edge_lookup. destruct (decide (i = id)) as [->|]; [| done].
    destruct (mks !! id) as [old|] eqn:E; [| cbn; lia].
    destruct (Z.eqb_spec (Z.lor (mask old) m) (mask old)) as [|Hne]; [done |]. cbn.
    pose proof (bits16_grows (mask old) m Hm Hne). pose proof (bits16_max (Z.lor (mask old) m)). destruct (processed old); lia.
Qed.
Lemma mark_edges_turns es mks : Forall (λ e : Edge, narrow e.2) es → all_narrow mks →
  all_narrow (mark_edges mks es) ∧ ∀ i, (turns_left (mark_edges mks es) i ≤ turns_left mks i)%nat.
Proof.
  intros Hes. revert mks. induction Hes as [|[[id k] m] es Hm _ IH]; intros mks Hall; [done |]. cbn [mark_edges foldl].
  destruct (mark_edge_turns mks id k m Hm Hall) as [Ha Ht]. destruct (IH _ Ha) as [Ha' Ht']. split; [done |].
  intros i. etrans; [apply Ht' | apply Ht].
Qed.

Lemma narrow_blob x : narrow (if x =? 0 then 0 else BLOB_BYTES_BIT).
Proof. unfold narrow. destruct (x =? 0); by vm_compute. Qed.
Lemma edges_narrow k b m es : narrow m → edges k b m = Ok es → Forall (λ e : Edge, narrow e.2) es.
Proof.
  intros Hm. destruct k; cbn [edges]; [by intros [= <-] | ..| by intros [= <-]].
  - destruct (from_slice b) as [blob|]; [| done]. cbn. intros [= <-]. destruct (_ =? 0); [done |].
    apply Forall_map, Forall_true. intros ?. cbn. unfold narrow. lia.
  - destruct (from_slice b) as [tree|]; [| done]. cbn. intros [= <-]. apply Forall_app. split.
    + apply Forall_map, Forall_true. by intros.
    + apply Forall_concat, Forall_map, Forall_true. intros entry. cbn. unfold entry_edges. apply Forall_app. split.
      * destruct (Model.xattrs entry); repeat constructor; cbn; lia.
      * destruct (Model.kind entry), (target entry); repeat constructor; cbn; try apply narrow_blob; apply Hm.
  - destruct (from_slice b) as [snapshot|]; [| done]. cbn. intros [= <-]. constructor; [done |].
    apply Forall_map, Forall_true. intros. apply narrow_blob.
Qed.

Lemma sum_list_le {A} (f g : A → nat) (l : list A) : (∀ x, f x ≤ g x)%nat → (sum_list_with f l ≤ sum_list_with g l)%nat.
Proof. intros Hle. induction l as [|x l IH]; cbn; [done |]. specialize (Hle x). lia. Qed.
Lemma sum_list_lt {A} (f g : A → nat) (l : list A) x : (∀ y, f y ≤ g y)%nat → x ∈ l → (f x < g x)%nat → (sum_list_with f l < sum_list_with g l)%nat.
Proof.
  intros Hle Hin Hlt. induction l as [|y l IH]; [by apply not_elem_of_nil in Hin |]. cbn.
  apply elem_of_cons in Hin as [<-|Hin]; [pose proof (sum_list_le f g l Hle); lia |]. specialize (IH Hin). specialize (Hle y). lia.
Qed.

Definition turns (s : Store) (mks : MarkDatabase) : nat := sum_list_with (turns_left mks) (elements (dom (objects (tables_of s)))).

Lemma turn_taken s mks id k b es :
  all_narrow mks → no_self_reference s → mks !! id = Some k → processed k = false →
  read_located id (mark_kind k) s = Ok b → edges (mark_kind k) b (mask k) = Ok es →
  all_narrow (set_processed id (mark_edges mks es)) ∧ (turns s (set_processed id (mark_edges mks es)) < turns s mks)%nat.
Proof.
  intros Hall Hns Hk Hp Hr He. destruct (mark_edges_turns es mks (edges_narrow _ _ _ _ (Hall _ _ Hk) He) Hall) as [Ha Ht].
  pose proof (mark_edges_other es mks id (Hns _ _ _ _ _ Hr He)) as Hid. rewrite Hk in Hid. split.
  - intros i k'. rewrite set_processed_lookup. destruct (decide (i = id)) as [->|]; [| by apply Ha].
    rewrite Hid. cbn. intros [= <-]. by apply (Hall id k).
  - apply (sum_list_lt _ _ _ id).
    + intros i. etrans; [| apply Ht]. unfold turns_left. rewrite set_processed_lookup. destruct (decide (i = id)) as [->|]; [| done].
      rewrite Hid. cbn. lia.
    + apply elem_of_elements, elem_of_dom. destruct (read_row _ _ _ _ Hr) as (l & ? & _). by eexists.
    + unfold turns_left. rewrite set_processed_lookup, decide_True, Hid, Hk by done. cbn. rewrite Hp. lia.
Qed.

Lemma turns_bound s mks : (turns s mks ≤ 17 * base.size (objects (tables_of s)))%nat.
Proof.
  unfold turns. rewrite <- (size_dom (D := gset ObjectId)). unfold base.size, set_size. cbn.
  induction (elements (dom (objects (tables_of s)))) as [|x l IH]; [done |]. cbn [sum_list_with length].
  assert (turns_left mks x ≤ 17)%nat; [| lia]. unfold turns_left. destruct (mks !! x) as [k|]; [destruct (processed k) |]; lia.
Qed.

(** The loop: it ends, and leaves every mark processed or stops at a reachable
    object that is broken. *)
Lemma traverse_run fuel : ∀ w rts,
  rows_sound (world_store w) → no_self_reference (world_store w) → all_narrow (marks w) → marking (world_store w) rts (marks w) →
  (turns (world_store w) (marks w) < fuel)%nat →
  ∃ r mks, traverse stamp fuel w = (r, mkWorld (world_store w) (dirs w) mks) ∧
    match r with
    | Ok (Some ()) => marking (world_store w) rts mks ∧ map_Forall (λ _ k, processed k = true) mks
    | Ok None => False
    | Err _ => ∃ id k, reached (world_store w) rts id (mask k) ∧ broken (world_store w) id k
    end.
Proof.
  induction fuel as [|fuel IH]; intros w rts Hs Hns Hall Hm Hf; [lia |]. cbn [traverse]. rewrite gets_bind.
  destruct (next (marks w)) as [[id k]|] eqn:En.
  2: { exists (Ok (Some ())), (marks w). split; [by destruct w |]. split; [done | by apply next_None]. }
  destruct (next_Some _ _ _ En) as [Hk Hp]. destruct (traverse_one_run w id k Hs) as [(e & Hrun & Hbr)|(b & es & Hr & He & Hrun)].
  { exists (Err e), (marks w). split; [rewrite (M_bind_err _ _ _ _ _ Hrun); by destruct w |]. exists id, k. split; [by apply (mk_sound _ _ _ Hm) | done]. }
  rewrite (M_bind_run _ _ _ _ _ Hrun). destruct (turn_taken _ _ _ _ _ _ Hall Hns Hk Hp Hr He) as [Ha Ht].
  apply (IH (mkWorld _ _ _) rts Hs Hns Ha); [by eapply marking_step | cbn; lia].
Qed.

(** ** What is closed and processed is everything reachable *)

(** What is closed and processed covers whatever is reachable. *)
Lemma marking_complete s rts mks : marking s rts mks → map_Forall (λ _ k, processed k = true) mks →
  ∀ id m, reached s rts id m → has_mask mks id m.
Proof.
  intros [_ Hrt Hcl] Hall id m Hr. induction Hr as [id k Hk|id k b m es id' k' m' _ IH Hr He Hin|id m m' _ (k & Hk & Hc) _ (k' & Hk' & Hc')].
  - by apply Hrt.
  - destruct IH as (k0 & Hk0 & Hc). destruct (Hcl _ _ Hk0 (Hall _ _ Hk0)) as (b0 & es0 & Hr0 & He0 & Hes).
    destruct (read_row _ _ _ _ Hr) as (l & Hl & Hlk & _). destruct (read_row _ _ _ _ Hr0) as (l0 & Hl0 & Hlk0 & _).
    assert (k = mark_kind k0) as -> by congruence. assert (b0 = b) as -> by congruence.
    destruct (edges_mono _ _ _ _ _ Hc He) as (es' & He' & Hmono). assert (es' = es0) as -> by congruence.
    destruct (Hmono _ Hin) as ([[i ki] mi] & Hin' & [Heq Hci]). cbn in *. injection Heq as -> ->.
    destruct (Hes _ _ _ Hin') as (k1 & Hk1 & Hc1). exists k1. split; [done | by etrans].
  - assert (k = k') as <- by congruence. exists k. split; [done | by apply covers_lor].
Qed.
(** ** Roots *)

Context `{!JsonOk RefRecord, !JsonOk RetentionState}.

(** Only the reference logs of the store may differ: their indexes are rebuilt
    and torn tails cut on the way. *)
Record logs_only (w w' : World) : Prop := {
  lo_store : world_store w' = set_refs_logs (λ _, refs_logs (world_store w')) (world_store w);
  lo_dirs : ∀ id, (λ d, (restore_intent d, sync_incoming d)) <$> dirs w' !! id = (λ d, (restore_intent d, sync_incoming d)) <$> dirs w !! id;
}.
#[local] Instance logs_only_preorder : PreOrder logs_only.
Proof.
  split; [intros w; split; [by destruct (world_store w) | done] |]. intros w1 w2 w3 [Hs1 Hd1] [Hs2 Hd2]. split.
  - rewrite Hs2. cbn. rewrite Hs1. done.
  - intros id. by rewrite Hd2, Hd1.
Qed.

(** The logs of a workspace: the states of its retention log and its records. *)
Record ws_logs (w : World) (id : bytes) (sts : list RetentionState) (rs : list RefRecord) : Prop := {
  wl_dir : is_Some (dirs w !! id);
  wl_ret : ret_is (timeline_of id w) sts;
  wl_chain : well_chained rs;
  wl_log : recoverable (ref_log (timeline_of id w)) rs;
  wl_pins : pins_within (pins (latest sts)) (Z.of_nat (length rs));
}.

(** What thinning decides at [now]. *)
Definition policy (now : Z) (ps : list Pin) (rs : list RefRecord) (st : RetentionState) : Prop :=
  evaluated_through st = Z.of_nat (length rs) ∧ pins st = ps ∧ ∀ s, retains_in_ranges st s = true ↔ kept_by now ps rs s.

Definition head_sequence (rs : list RefRecord) : Z := match last rs with Some h => sequence h | None => 0 end.
Definition record_edge (now : Z) (st : RetentionState) (head : Z) (r : RefRecord) : option Edge :=
  if retains st (sequence r) (snapshot_id r)
  then Some (snapshot_id r, SnapshotKind, byte_mask now (sealed_at r) ((sequence r =? head) || is_pinned st (snapshot_id r)))
  else None.
Definition intent_edges (content : option bytes) : list Edge :=
  match content with
  | Some c => match from_slice c with
              | Some i => [(pre_snapshot i, SnapshotKind, ALL_CLASS_MASK); (target_snapshot i, SnapshotKind, ALL_CLASS_MASK)]
              | None => []
              end
  | None => []
  end.
Definition incoming_edges (content : option bytes) : list Edge :=
  match content with
  | Some c => match from_slice c with Some i => [(sync_snapshot i, SnapshotKind, ALL_CLASS_MASK)] | None => [] end
  | None => []
  end.
(** The roots of a workspace, from its logs. *)
Definition roots_of (now : Z) (w : World) (id : bytes) (sts : list RetentionState) (rs : list RefRecord) (es : list Edge) : Prop :=
  ∃ st d, ws_logs w id sts rs ∧ policy now (pins (latest sts)) rs st ∧ dirs w !! id = Some d ∧
    es = omap (record_edge now st (head_sequence rs)) rs ++ intent_edges (restore_intent d) ++ incoming_edges (sync_incoming d).
Definition ws_roots (now : Z) (w : World) (id : bytes) (es : list Edge) : Prop := ∃ sts rs, roots_of now w id sts rs es.

Lemma mark_edges_app mks es es' : mark_edges mks (es ++ es') = mark_edges (mark_edges mks es) es'.
Proof. apply foldl_app. Qed.

Lemma enqueue_run id k m mks : ∃ b, enqueue id k m mks = (Ok b, mark_edge mks (id, k, m)).
Proof. unfold mark_edge, enqueue. cbn [fst snd]. destruct (mks !! id); [destruct (_ =? _) |]; by eexists. Qed.

Lemma visit_one now head st r sm mks :
  ∃ sm', visit_record now head st r (sm, mks) = Ok (sm', from_option (mark_edge mks) mks (record_edge now st head r)).
Proof.
  unfold visit_record, record_edge. destruct (retains st (sequence r) (snapshot_id r)); [| by eexists].
  destruct (enqueue_run (snapshot_id r) SnapshotKind
    (byte_mask now (sealed_at r) ((sequence r =? head) || is_pinned st (snapshot_id r))) mks) as [b Hb].
  rewrite Hb. by eexists.
Qed.
Lemma visit_run now head st rs sm mks :
  ∃ sm', res_foldl (visit_record now head st) rs (sm, mks) = Ok (sm', mark_edges mks (omap (record_edge now st head) rs)).
Proof.
  revert sm mks. induction rs as [|r rs IH]; intros sm mks; cbn [res_foldl]; [by eexists |].
  destruct (visit_one now head st r sm mks) as [sm1 ->]. cbn [mbind Res_bind omap list_omap].
  destruct (record_edge now st head r) as [e|]; cbn [from_option]; apply IH.
Qed.

Lemma timeline_set id t w f : log (ref_log t) = Some f → is_Some (dirs w !! id) → timeline_of id (set_timeline_of id t w) = t.
Proof.
  intros Hf [d Hd]. unfold timeline_of, set_timeline_of. cbn. rewrite lookup_alter, decide_True, Hd by done. cbn.
  rewrite Hf. destruct (refs_logs (world_store w) !! id); rewrite lookup_insert, decide_True by done; by destruct t.
Qed.
Lemma timeline_set_ne id id' t w : id ≠ id' → timeline_of id' (set_timeline_of id t w) = timeline_of id' w.
Proof.
  intros Hne. unfold timeline_of, set_timeline_of. cbn. rewrite lookup_alter_ne by done.
  destruct (refs_logs (world_store w) !! id), (log (ref_log t)); by rewrite ?lookup_insert_ne.
Qed.
Lemma logs_only_set id t w : logs_only w (set_timeline_of id t w).
Proof.
  split; [reflexivity |]. intros id'. cbn. destruct (decide (id' = id)) as [->|]; [| by rewrite lookup_alter_ne].
  rewrite lookup_alter, decide_True by done. by destruct (dirs w !! id).
Qed.

(** An operation on the logs of one workspace: the others keep theirs. *)
Record touches (id : bytes) (w w' : World) : Prop := {
  to_logs : logs_only w w';
  to_marks : marks w' = marks w;
  to_others : ∀ id', id' ≠ id → timeline_of id' w' = timeline_of id' w;
  to_dir : is_Some (dirs w !! id) → is_Some (dirs w' !! id);
}.
#[local] Instance touches_preorder id : PreOrder (touches id).
Proof.
  split; [by split |]. intros w1 w2 w3 [A1 A2 A3 A4] [B1 B2 B3 B4]. split; [by etrans | congruence | | auto].
  intros id' Hne. by rewrite B3, A3.
Qed.
Lemma touches_set id t w : touches id w (set_timeline_of id t w).
Proof.
  split; [apply logs_only_set | done | intros; by apply timeline_set_ne |]. cbn. intros [d Hd].
  rewrite lookup_alter, decide_True, Hd by done. by eexists.
Qed.

Lemma timeline_run {A} id (m : M Timeline A) r t' w : m (timeline_of id w) = (r, t') →
  on_timeline id m w = (r, set_timeline_of id t' w).
Proof. intros Hm. unfold on_timeline. by rewrite Hm. Qed.

Lemma coherent_log l rs : coherent l rs → ∃ f, log l = Some f.
Proof. intros (_ & (f & Hf & _) & _). by exists f. Qed.
Lemma planned_policy now ps rs :
  well_chained rs → Z.of_nat (length rs) < 2 ^ 62 → pins_within ps (Z.of_nat (length rs)) → policy now ps rs (planned now ps rs).
Proof.
  intros Hwc Hlen Hps. destruct (planned_spec now ps rs Hwc Hlen) as (He & Hp & Hrf & Hc).
  { intros q Hq. specialize (Hps q Hq). unfold u64_max. lia. }
  split_and!; [done | done |]. intros s. by rewrite (retains_in_ranges_spec 0).
Qed.
Lemma policy_same now ps rs st st' :
  evaluated_through st' = evaluated_through st → pins st' = pins st → retained st' = retained st → policy now ps rs st → policy now ps rs st'.
Proof. intros He Hp Hr (A & B & C). split_and!; [congruence | congruence |]. intros s. rewrite <- C. unfold retains_in_ranges. by rewrite Hr. Qed.

(** Thinning, recorded or only planned. *)
Lemma policy_run (persist : bool) now t sts rs :
  ret_is t sts → well_chained rs → recoverable (ref_log t) rs → pins_within (pins (latest sts)) (Z.of_nat (length rs)) →
  ∃ r t', (if persist then apply now else plan now) t = (r, t') ∧ coherent (ref_log t') rs ∧
    match r with Ok st => policy now (pins (latest sts)) rs st | Err _ => ¬ state_fits (event sts (planned now (pins (latest sts)) rs)) end.
Proof.
  intros Hr Hwc Hre Hpins. pose proof (planned_policy now _ rs Hwc (recoverable_length _ _ Hre) Hpins) as Hpol. destruct persist.
  - destruct (apply_run now t sts rs Hr Hwc Hre) as (t' & Hco & Hrun).
    destruct (same_policy_state _ _) eqn:Es; [| case_decide]; destruct Hrun as [Hrun _]; eexists _, t'; (split; [exact Hrun | split; [exact Hco |]]); [| | done].
    + unfold same_policy_state in Es. apply andb_true_iff in Es as [[Ee%Z.eqb_eq Er%bool_decide_eq_true]%andb_true_iff Ep%bool_decide_eq_true].
      by eapply policy_same.
    + by eapply policy_same.
  - unfold plan. destruct (state_run t sts Hr) as (t1 & Hst & Hr1 & Hl1). rewrite <- Hl1 in Hre.
    destruct (plan_state_run now t1 rs (pins (latest sts)) Hwc Hre) as (l' & Hpl & Hco). eexists _, _.
    mrun Hst. split; [exact Hpl | done].
Qed.

(** ** One workspace *)

(** A retention state that a record of its log cannot hold. *)
Definition unfit (now : Z) (id : bytes) (w : World) : Prop :=
  ∃ sts rs, ws_logs w id sts rs ∧ ¬ state_fits (event sts (planned now (pins (latest sts)) rs)).
(** A restore intent or an incoming sync that does not decode. *)
Definition undecodable (id : bytes) (w : World) : Prop :=
  ∃ d c, dirs w !! id = Some d ∧
    (restore_intent d = Some c ∧ (from_slice c : option RestoreRoots) = None ∨
     sync_incoming d = Some c ∧ (from_slice c : option SyncRoot) = None).

(** The logs part: the marks its records get, or an error of thinning. *)
Lemma records_run (persist : bool) now id w sts rs sm : ws_logs w id sts rs →
  ∃ r w', enqueue_records now persist id sm w = (r, w') ∧
    logs_only w w' ∧ (∀ id', id' ≠ id → timeline_of id' w' = timeline_of id' w) ∧
    match r with
    | Ok _ => ∃ st, policy now (pins (latest sts)) rs st ∧ marks w' = mark_edges (marks w) (omap (record_edge now st (head_sequence rs)) rs)
    | Err _ => unfit now id w
    end.
Proof.
  intros [Hdir Hret Hwc Hre Hpins]. unfold enqueue_records.
  destruct (policy_run persist now _ sts rs Hret Hwc Hre Hpins) as (r & t1 & Hrun1 & Hco1 & Hpol).
  pose proof (timeline_run id _ _ _ w Hrun1) as Hr1. pose proof (touches_set id t1 w) as T1. set (w1 := set_timeline_of id t1 w) in *.
  destruct r as [st|e].
  2: { exists (Err e), w1. split; [unfold mbind, M_bind; by rewrite Hr1 |]. split_and!; [apply T1 | apply T1 | by exists sts, rs]. }
  rewrite (M_bind_run _ _ _ _ _ Hr1). destruct (coherent_log _ _ Hco1) as [f1 Hf1].
  assert (timeline_of id w1 = t1) as Ht1 by by eapply timeline_set.
  destruct (head_run (ref_log t1) rs Hwc (coherent_recoverable _ _ Hco1)) as (l2 & Hrun2 & Hco2).
  set (t2 := mkTimeline (ret_file t1) l2). assert (on_refs head_ (timeline_of id w1) = (Ok (last rs), t2)) as Hr2.
  { rewrite Ht1. unfold on_refs. by rewrite Hrun2. }
  rewrite (M_bind_run _ _ _ _ _ (timeline_run id _ _ _ w1 Hr2)). pose proof (touches_set id t2 w1) as T2. set (w2 := set_timeline_of id t2 w1) in *.
  cbv zeta. fold (head_sequence rs). rewrite gets_bind. destruct (coherent_log _ _ Hco2) as [f2 Hf2].
  assert (timeline_of id w2 = t2) as Ht2 by (eapply timeline_set; [exact Hf2 | by apply T1]).
  destruct (for_each_record_run (visit_record now (head_sequence rs) st) (sm, marks w2) l2 rs Hwc (coherent_recoverable _ _ Hco2)) as (l3 & Hrun3 & Hco3).
  destruct (visit_run now (head_sequence rs) st rs sm (marks w2)) as [sm' Hv]. rewrite Hv in Hrun3.
  set (t3 := mkTimeline (ret_file t2) l3).
  assert (on_refs (for_each_record (visit_record now (head_sequence rs) st) (sm, marks w2)) (timeline_of id w2)
    = (Ok (sm', mark_edges (marks w2) (omap (record_edge now st (head_sequence rs)) rs)), t3)) as Hr3.
  { rewrite Ht2. unfold on_refs. change (ref_log t2) with l2. by rewrite Hrun3. }
  rewrite (M_bind_run _ _ _ _ _ (timeline_run id _ _ _ w2 Hr3)). pose proof (touches_set id t3 w2) as T3. set (w3 := set_timeline_of id t3 w2) in *.
  assert (touches id w w3) as T by (etrans; [exact T1 | etrans; [exact T2 | exact T3]]).
  set (mks := mark_edges (marks w2) _). exists (Ok sm'), (mkWorld (world_store w3) (dirs w3) mks). split; [done |].
  split_and!.
  - destruct (to_logs _ _ _ T). by split.
  - intros id' Hne. rewrite <- (to_others _ _ _ T id' Hne). done.
  - by exists st.
Qed.

Lemma enqueue_root_run id m sm w :
  ∃ sm', enqueue_root id m sm w = (Ok sm', mkWorld (world_store w) (dirs w) (mark_edge (marks w) (id, SnapshotKind, m))).
Proof.
  unfold enqueue_root. destruct (enqueue_run id SnapshotKind m (marks w)) as [b Hb].
  assert (on_marks (enqueue id SnapshotKind m) w = (Ok b, mkWorld (world_store w) (dirs w) (mark_edge (marks w) (id, SnapshotKind, m)))) as Hr.
  { unfold on_marks. by rewrite Hb. }
  rewrite (M_bind_run _ _ _ _ _ Hr). by eexists.
Qed.
Lemma intent_run c sm w :
  match enqueue_intent c sm w with
  | (Ok _, w') => w' = mkWorld (world_store w) (dirs w) (mark_edges (marks w) (intent_edges c))
  | (Err _, w') => w' = w ∧ ∃ b, c = Some b ∧ (from_slice b : option RestoreRoots) = None
  end.
Proof.
  unfold enqueue_intent, intent_edges. destruct c as [c|]; [| by destruct w]. destruct (from_slice c) as [i|] eqn:Ei; [| split; [done | by exists c]].
  cbn [with_context]. rewrite lift_ok_bind. destruct (enqueue_root_run (pre_snapshot i) ALL_CLASS_MASK sm w) as [sm1 H1'].
  rewrite (M_bind_run _ _ _ _ _ H1').
  destruct (enqueue_root_run (target_snapshot i) ALL_CLASS_MASK sm1 (mkWorld (world_store w) (dirs w) (mark_edge (marks w) (pre_snapshot i, SnapshotKind, ALL_CLASS_MASK)))) as [sm2 H2'].
  by rewrite H2'.
Qed.
Lemma incoming_run c sm w :
  match enqueue_incoming c sm w with
  | (Ok _, w') => w' = mkWorld (world_store w) (dirs w) (mark_edges (marks w) (incoming_edges c))
  | (Err _, w') => w' = w ∧ ∃ b, c = Some b ∧ (from_slice b : option SyncRoot) = None
  end.
Proof.
  unfold enqueue_incoming, incoming_edges. destruct c as [c|]; [| by destruct w]. destruct (from_slice c) as [i|] eqn:Ei; [| split; [done | by exists c]].
  cbn [with_context]. rewrite lift_ok_bind. destruct (enqueue_root_run (sync_snapshot i) ALL_CLASS_MASK sm w) as [sm1 H1']. by rewrite H1'.
Qed.

Lemma ws_logs_kept w w' id sts rs : timeline_of id w' = timeline_of id w → logs_only w w' → ws_logs w id sts rs → ws_logs w' id sts rs.
Proof.
  intros Ht [_ Hd] [P1 P2 P3 P4 P5]. split; rewrite ?Ht; try done. specialize (Hd id). destruct P1 as [d Hd1]. rewrite Hd1 in Hd.
  destruct (dirs w' !! id); [by eexists | done].
Qed.
Lemma ws_logs_back w w' id sts rs : timeline_of id w' = timeline_of id w → logs_only w w' → ws_logs w' id sts rs → ws_logs w id sts rs.
Proof.
  intros Ht [_ Hd] [P1 P2 P3 P4 P5]. rewrite Ht in P2, P4. split; try done. specialize (Hd id). destruct P1 as [d Hd1]. rewrite Hd1 in Hd.
  destruct (dirs w !! id); [by eexists | done].
Qed.
Lemma roots_of_kept now w w' id sts rs es : timeline_of id w' = timeline_of id w → logs_only w w' →
  roots_of now w' id sts rs es → roots_of now w id sts rs es.
Proof.
  intros Ht Hl (st & d & Hws & Hpol & Hd & ->). pose proof (lo_dirs _ _ Hl id) as Hd'. rewrite Hd in Hd'.
  destruct (dirs w !! id) as [d0|] eqn:E; [| done]. injection Hd' as Hi Hs. exists st, d0.
  split_and!; [| done | done | by rewrite Hi, Hs]. destruct Hws as [P1 P2 P3 P4 P5]. rewrite Ht in P2, P4. split; try done.
Qed.

(** ** All workspaces *)

Lemma Forall2_impl_in {A B} (P Q : A → B → Prop) l k : Forall2 P l k → (∀ x y, x ∈ l → P x y → Q x y) → Forall2 Q l k.
Proof.
  induction 1 as [|x y l k Hp Hl IH]; intros Hpq; constructor; [apply Hpq; [left | done] |]. apply IH. intros. apply Hpq; [by right | done].
Qed.

Lemma roots_run (persist : bool) now (logs : bytes → list RetentionState * list RefRecord) ids : ∀ w sm,
  NoDup ids → (∀ id, id ∈ ids → ws_logs w id (logs id).1 (logs id).2) →
  ∃ r w', enqueue_roots now persist ids sm w = (r, w') ∧ logs_only w w' ∧
    match r with
    | Ok _ => ∃ ess, Forall2 (λ id, roots_of now w id (logs id).1 (logs id).2) ids ess ∧ marks w' = mark_edges (marks w) (concat ess)
    | Err _ => ∃ id, id ∈ ids ∧ (unfit now id w ∨ undecodable id w)
    end.
Proof.
  induction ids as [|id ids IH]; intros w sm Hnd Hws; cbn [enqueue_roots].
  { eexists _, w. split; [done |]. split; [done |]. by exists []. }
  apply NoDup_cons in Hnd as [Hni Hnd]. pose proof (Hws id ltac:(left)) as Hid.
  set (sts := (logs id).1) in *. set (rs := (logs id).2) in *.
  destruct (records_run persist now id w sts rs sm Hid) as (r1 & w1 & Hrun1 & Hl1 & Ho1 & Hm1).
  destruct r1 as [sm1|e]; [| exists (Err e), w1; split; [by apply M_bind_err | split; [done | exists id; split; [left | by left]]]].
  rewrite (M_bind_run _ _ _ _ _ Hrun1), gets_bind. cbv beta. destruct Hm1 as (st & Hpol & Hm1).
  pose proof (lo_dirs _ _ Hl1 id) as Hd. destruct (wl_dir _ _ _ _ Hid) as [d Hdir]. rewrite Hdir in Hd.
  destruct (dirs w1 !! id) as [d1|] eqn:Ed1; [| done]. injection Hd as Hdi Hds. cbn [mbind option_bind].
  pose proof (intent_run (restore_intent d1) sm1 w1) as Hin.
  destruct (enqueue_intent _ sm1 w1) as [[sm2|e] w2] eqn:Ein; [| destruct Hin as (-> & c & Hc & Hn)].
  2: { exists (Err e), w1. split; [by apply M_bind_err |]. split; [done |]. exists id. split; [left |]. right. exists d, c. rewrite <- Hdi. auto. }
  rewrite (M_bind_run _ _ _ _ _ Ein).
  pose proof (incoming_run (sync_incoming d1) sm2 w2) as Hic.
  assert (logs_only w w2) as Hl2 by (subst w2; by destruct Hl1).
  destruct (enqueue_incoming _ sm2 w2) as [[sm3|e] w3] eqn:Eic; [| destruct Hic as (-> & c & Hc & Hn)].
  2: { exists (Err e), w2. split; [by apply M_bind_err |]. split; [done |]. exists id. split; [left |]. right. exists d, c. rewrite <- Hds. auto. }
  rewrite (M_bind_run _ _ _ _ _ Eic). assert (logs_only w w3) as Hl3 by (subst w3; by destruct Hl2).
  assert (∀ id', id' ≠ id → timeline_of id' w3 = timeline_of id' w) as Ho3 by (intros id' Hne; subst w3 w2; by apply Ho1).
  destruct (IH w3 sm3 Hnd) as (r & w' & Hrun & Hl' & Hm').
  { intros id' Hin'. eapply ws_logs_kept; [apply Ho3; by intros -> | done | apply Hws; by right]. }
  exists r, w'. split; [exact Hrun |]. split; [by etrans |].
  assert (∀ id', id' ∈ ids → timeline_of id' w3 = timeline_of id' w) as Ho4 by (intros id' Hin'; apply Ho3; by intros ->).
  destruct r as [sm'|e].
  2: { destruct Hm' as (id' & Hin' & Hor). exists id'. split; [by right |]. destruct Hor as [(sts' & rs' & Hws' & Hun)|(d' & c & Hd' & Hor)]; [left | right].
       - exists sts', rs'. split; [| done]. eapply ws_logs_back; [by apply Ho4 | done | done].
       - pose proof (lo_dirs _ _ Hl3 id') as Hdd. rewrite Hd' in Hdd. destruct (dirs w !! id') as [d0|] eqn:E0; [| done].
         injection Hdd as Hri Hsi. exists d0, c. rewrite <- Hri, <- Hsi. auto. }
  destruct Hm' as (ess & Hess & Hm').
  exists ((omap (record_edge now st (head_sequence rs)) rs ++ intent_edges (restore_intent d) ++ incoming_edges (sync_incoming d)) :: ess). split.
  - constructor; [by exists st, d |]. eapply Forall2_impl_in; [exact Hess |].
    intros id' es Hin'. apply roots_of_kept; [by apply Ho4 | done].
  - rewrite Hm'. cbn [concat]. rewrite !mark_edges_app. do 2 f_equal. subst w3 w2. cbn. by rewrite Hm1, Hdi, Hds.
Qed.

(** Logs that are there, picked for each workspace. *)
Lemma pick_for {A B} `{EqDecision A} (P : A → B → Prop) (d : B) (l : list A) :
  (∀ a, a ∈ l → ∃ b, P a b) → ∃ f, ∀ a, a ∈ l → P a (f a).
Proof.
  induction l as [|x l IH]; intros Hl; [exists (λ _, d); by intros a ?%not_elem_of_nil |].
  destruct (Hl x) as [b Hb]; [left |]. destruct IH as [f Hf]; [intros a Ha; apply Hl; by right |].
  exists (λ a, if decide (a = x) then b else f a). intros a Ha. destruct (decide (a = x)) as [->|Hne]; [done |].
  apply Hf. by apply elem_of_cons in Ha as [?|?].
Qed.
Lemma enqueue_roots_run (persist : bool) now ids w sm :
  NoDup ids → (∀ id, id ∈ ids → ∃ sts rs, ws_logs w id sts rs) →
  ∃ r w', enqueue_roots now persist ids sm w = (r, w') ∧ logs_only w w' ∧
    match r with
    | Ok _ => ∃ ess, Forall2 (ws_roots now w) ids ess ∧ marks w' = mark_edges (marks w) (concat ess)
    | Err _ => ∃ id, id ∈ ids ∧ (unfit now id w ∨ undecodable id w)
    end.
Proof.
  intros Hnd Hws. destruct (pick_for (λ id (l : list RetentionState * list RefRecord), ws_logs w id l.1 l.2) ([], []) ids) as [logs Hlogs].
  { intros id (sts & rs & Hid)%Hws. by exists (sts, rs). }
  destruct (roots_run persist now logs ids w sm Hnd Hlogs) as (r & w' & Hrun & Hl & Hr). exists r, w'. split; [done |]. split; [done |].
  destruct r; [| done]. destruct Hr as (ess & Hess & Hm). exists ess. split; [| done].
  eapply Forall2_impl; [exact Hess |]. intros id es He. eexists _, _. exact He.
Qed.

(** ** The roots as a table *)

Lemma marking_roots s es : marking s (mark_edges ∅ es) (mark_edges ∅ es).
Proof.
  split; [intros id k Hk; by eapply reached_root | intros id k Hk; by exists k |].
  intros id k Hk Hp. by rewrite (mark_edges_new es ∅ id k) in Hp.
Qed.

Lemma byte_mask_narrow now sealed exact : narrow (byte_mask now sealed exact).
Proof. unfold byte_mask, narrow. repeat case_match; by vm_compute. Qed.
Lemma ws_roots_narrow now w id es : ws_roots now w id es → Forall (λ e : Edge, narrow e.2) es.
Proof.
  intros (sts & rs & st & d & _ & _ & _ & ->). rewrite !Forall_app. split_and!.
  - apply Forall_forall. intros e (r & _ & He)%list_elem_of_omap. unfold record_edge in He. destruct (retains _ _ _); [| done].
    injection He as <-. apply byte_mask_narrow.
  - unfold intent_edges. destruct (restore_intent d) as [c|]; [| done]. destruct (from_slice c); [| done]. by repeat constructor; vm_compute.
  - unfold incoming_edges. destruct (sync_incoming d) as [c|]; [| done]. destruct (from_slice c); [| done]. by repeat constructor; vm_compute.
Qed.
Lemma roots_narrow now w ids ess : Forall2 (ws_roots now w) ids ess → all_narrow (mark_edges ∅ (concat ess)).
Proof.
  intros Hes. apply mark_edges_turns; [| apply map_Forall_empty]. apply Forall_concat.
  induction Hes; constructor; [by eapply ws_roots_narrow | done].
Qed.

(** ** Properties *)

(** C35 Whatever the roots, the traversal ends; unless it stops at a reachable
    object that is missing, of another kind or does not decode, the marks are
    exactly the reachable objects, each with the union of the masks it is
    reached under. *)
Theorem traverse_spec fuel w es :
  rows_sound (world_store w) → no_self_reference (world_store w) → Forall (λ e : Edge, narrow e.2) es →
  marks w = mark_edges ∅ es → (17 * base.size (objects (tables_of (world_store w))) < fuel)%nat →
  match traverse stamp fuel w with
  | (Ok (Some ()), w') => world_store w' = world_store w ∧
      (∀ id m, reached (world_store w) (marks w) id m → has_mask (marks w') id m) ∧
      (∀ id k, marks w' !! id = Some k → reached (world_store w) (marks w) id (mask k))
  | (Ok None, _) => False
  | (Err _, w') => world_store w' = world_store w ∧
      ∃ id k, reached (world_store w) (marks w) id (mask k) ∧ broken (world_store w) id k
  end.
Proof.
  intros Hs Hns Hes Hm Hf. destruct (traverse_run fuel w (marks w) Hs Hns) as (r & mks & -> & Hr).
  - rewrite Hm. apply mark_edges_turns; [done | apply map_Forall_empty].
  - rewrite Hm. apply marking_roots.
  - pose proof (turns_bound (world_store w) (marks w)). lia.
  - destruct r as [[[]|]|]; [| done | done]. destruct Hr as [Hmk Hall]. split; [done |]. split; [by eapply marking_complete | apply Hmk].
Qed.

(** ** The roots, declared *)

(** The bytes of which classes a snapshot of some age still holds. *)
Definition held_at (age : Z) (c : ContentClass) : Prop :=
  match c with
  | Source | VcsMeta | ConfigSecret | Lockfile => True
  | Database => age ≤ 30 * (24 * 60 * 60)
  | Dependency | BuildOutput => age ≤ 3 * (24 * 60 * 60)
  | Scratch => age ≤ 24 * 60 * 60
  end.

(** Why a workspace roots a snapshot, and with which classes. *)
Inductive rooted (now : Z) (w : World) (id : bytes) (sts : list RetentionState) (rs : list RefRecord) : ObjectId → ContentClass → Prop :=
  | rooted_head r c : last rs = Some r → rooted now w id sts rs (snapshot_id r) c
  | rooted_pinned r p c : r ∈ rs → p ∈ pins (latest sts) → pin_snapshot p = snapshot_id r → rooted now w id sts rs (snapshot_id r) c
  | rooted_kept r c : r ∈ rs → kept_by now (pins (latest sts)) rs (sequence r) → held_at (now - sealed_at r) c →
      rooted now w id sts rs (snapshot_id r) c
  | rooted_intent d b i sid c : dirs w !! id = Some d → restore_intent d = Some b → from_slice b = Some i →
      sid = pre_snapshot i ∨ sid = target_snapshot i → rooted now w id sts rs sid c
  | rooted_incoming d b i c : dirs w !! id = Some d → sync_incoming d = Some b → from_slice b = Some i →
      rooted now w id sts rs (sync_snapshot i) c.

(** A snapshot to traverse with the bytes of a class. *)
Definition queued (mks : MarkDatabase) (sid : ObjectId) (c : ContentClass) : Prop :=
  ∃ m, mks !! sid = Some (mkMark SnapshotKind m false) ∧ Z.land m (bit c) ≠ 0.
Definition asks (es : list Edge) (sid : ObjectId) (c : ContentClass) : Prop :=
  ∃ m, (sid, SnapshotKind, m) ∈ es ∧ Z.land m (bit c) ≠ 0.

Lemma lor_has a b x : Z.land (Z.lor a b) x ≠ 0 ↔ Z.land a x ≠ 0 ∨ Z.land b x ≠ 0.
Proof.
  rewrite Z.land_lor_distr_l, Z.lor_eq_0_iff. destruct (decide (Z.land a x = 0)), (decide (Z.land b x = 0)); tauto.
Qed.

Lemma queued_edge mks sid m : map_Forall (λ _ k, ∃ m, k = mkMark SnapshotKind m false) mks →
  map_Forall (λ _ k, ∃ m, k = mkMark SnapshotKind m false) (mark_edge mks (sid, SnapshotKind, m)) ∧
  ∀ sid' c, queued (mark_edge mks (sid, SnapshotKind, m)) sid' c ↔ queued mks sid' c ∨ sid' = sid ∧ Z.land m (bit c) ≠ 0.
Proof.
  intros Hall. assert (∀ sid', mark_edge mks (sid, SnapshotKind, m) !! sid' = if decide (sid' = sid) then
      Some (mkMark SnapshotKind (match mks !! sid with Some k => Z.lor (mask k) m | None => m end) false) else mks !! sid') as Hlk.
  { intros sid'. rewrite mark_edge_lookup. case_decide; [| done]. destruct (mks !! sid) as [k|] eqn:E; [| done].
    destruct (Hall _ _ E) as [m0 ->]. cbn. destruct (Z.eqb_spec (Z.lor m0 m) m0) as [->|]; done. }
  split.
  - intros sid' k. rewrite Hlk. case_decide; [intros [= <-]; by eexists | by intros ?%Hall].
  - intros sid' c. unfold queued. rewrite Hlk. case_decide as Heq; [subst sid' | naive_solver].
    destruct (mks !! sid) as [k|] eqn:E; [destruct (Hall _ _ E) as [m0 ->] |]; cbn [mask].
    + split; [intros (m' & [= <-] & [?|?]%lor_has); [left; by exists m0 | by right] |].
      intros [(m' & [= <-] & ?)|[_ ?]]; (eexists; split; [done |]; apply lor_has; tauto).
    + split; [intros (m' & [= <-] & ?); by right |]. intros [(m' & ? & _)|[_ ?]]; [done | by eexists].
Qed.
Lemma queued_edges es mks : Forall (λ e : Edge, e.1.2 = SnapshotKind) es → map_Forall (λ _ k, ∃ m, k = mkMark SnapshotKind m false) mks →
  ∀ sid c, queued (mark_edges mks es) sid c ↔ queued mks sid c ∨ asks es sid c.
Proof.
  revert mks. induction es as [|[[id k] m] es IH]; intros mks Hes Hmks sid c; cbn [mark_edges foldl].
  { unfold asks. setoid_rewrite elem_of_nil. naive_solver. }
  apply Forall_cons in Hes as [Hk Hes]. cbn in Hk. subst k. destruct (queued_edge mks id m Hmks) as [Hall Hq].
  change (foldl mark_edge (mark_edge mks (id, SnapshotKind, m)) es) with (mark_edges (mark_edge mks (id, SnapshotKind, m)) es).
  rewrite (IH _ Hes Hall), Hq. unfold asks. setoid_rewrite elem_of_cons. naive_solver.
Qed.

Lemma all_classes c : Z.land ALL_CLASS_MASK (bit c) ≠ 0.
Proof. by destruct c. Qed.
Lemma byte_mask_held now sealed exact c : Z.land (byte_mask now sealed exact) (bit c) ≠ 0 ↔ exact = true ∨ held_at (now - sealed) c.
Proof.
  unfold byte_mask, held_at. destruct exact; cbn [orb]; [pose proof (all_classes c); tauto |].
  destruct (Z.ltb_spec now sealed); [pose proof (all_classes c); destruct c; split; (done || (intros; right; (done || lia))) |].
  unfold i64_sat_sub, i64_min, i64_max, DAY_SECONDS.
  destruct (Z.leb_spec (Z.max (- 2 ^ 63) (Z.min (2 ^ 63 - 1) (now - sealed))) (30 * (24 * 60 * 60)));
  destruct (Z.leb_spec (Z.max (- 2 ^ 63) (Z.min (2 ^ 63 - 1) (now - sealed))) (3 * (24 * 60 * 60)));
  destruct (Z.leb_spec (Z.max (- 2 ^ 63) (Z.min (2 ^ 63 - 1) (now - sealed))) (24 * 60 * 60));
  destruct c; (split; [intros Hb; right; first [done | lia | by destruct Hb] | intros [?|Hb]; first [done | lia]]).
Qed.

Lemma search_pins ps s : binary_search_by (λ pin, Z.compare (pin_sequence pin) s) ps ≠ None → ∃ p, p ∈ ps ∧ pin_sequence p = s.
Proof.
  destruct (binary_search_by _ ps) as [k|] eqn:E; [intros _ | done]. apply binary_search_sound in E as (p & Hk & Hs%Z.compare_eq).
  exists p. split; [by eapply list_elem_of_lookup_2 | done].
Qed.

(** What a workspace's records and notes ask for is what is rooted. *)
Lemma asks_rooted now w id sts rs es sid c : roots_of now w id sts rs es → asks es sid c ↔ rooted now w id sts rs sid c.
Proof.
  intros (st & d & Hws & (He & Hp & Hc) & Hd & ->). destruct Hws as [_ _ Hwc _ _].
  destruct (well_chained_seqs rs Hwc) as [Hseq Hlast].
  assert (∀ r, r ∈ rs → retains st (sequence r) (snapshot_id r) = true ↔
    kept_by now (pins (latest sts)) rs (sequence r) ∨ is_pinned st (snapshot_id r) = true) as Hret.
  { intros r Hr. unfold retains. fold (is_pinned st (snapshot_id r)). rewrite !orb_true_iff, Hc, bool_decide_eq_true, Hp.
    specialize (Hseq r Hr). split; [intros [[[?|?]|(p & Hpin & Hs)%search_pins]|?]; [lia | by left | left; right; left; by exists p | by right] | tauto]. }
  assert (∀ r, r ∈ rs → sequence r = head_sequence rs ↔ last rs = Some r) as Hhead.
  { intros r Hr. unfold head_sequence. destruct (last rs) as [h|] eqn:E; [| apply last_None in E as ->; by apply not_elem_of_nil in Hr].
    split; [| by intros [= ->]]. intros Hs. rewrite last_lookup in E. apply list_elem_of_lookup in Hr as [k Hk].
    pose proof (sequence_lookup _ _ _ _ _ (proj1 Hwc) Hk). pose proof (sequence_lookup _ _ _ _ _ (proj1 Hwc) E).
    assert (k = Nat.pred (length rs)) as -> by lia. congruence. }
  assert (∀ r, (∃ p, p ∈ pins (latest sts) ∧ pin_snapshot p = snapshot_id r) ↔ is_pinned st (snapshot_id r) = true) as Hpin.
  { intros r. by rewrite is_pinned_spec, Hp. }
  unfold asks. setoid_rewrite elem_of_app. setoid_rewrite elem_of_app. setoid_rewrite list_elem_of_omap. split.
  - intros (m & [(r & Hr & Hre)|[Hin|Hin]] & Hm).
    + unfold record_edge in Hre. destruct (retains _ _ _) eqn:Ek; [| done]. injection Hre as <- <-.
      apply byte_mask_held in Hm as [[Hh%Z.eqb_eq|Hpn]%orb_true_iff|Hage].
      * apply rooted_head. by apply Hhead.
      * apply Hpin in Hpn as (p & ? & ?). by eapply rooted_pinned.
      * apply Hret in Ek as [Hk|(p & ? & ?)%Hpin]; [by apply rooted_kept | by eapply rooted_pinned | done].
    + unfold intent_edges in Hin. destruct (restore_intent d) as [b|] eqn:Ei; [| by apply not_elem_of_nil in Hin].
      destruct (from_slice b) as [i|] eqn:Ef; [| by apply not_elem_of_nil in Hin].
      eapply rooted_intent; [done | done | done |]. apply elem_of_cons in Hin as [[= -> _]|[= -> _]%list_elem_of_singleton]; tauto.
    + unfold incoming_edges in Hin. destruct (sync_incoming d) as [b|] eqn:Ei; [| by apply not_elem_of_nil in Hin].
      destruct (from_slice b) as [i|] eqn:Ef; [| by apply not_elem_of_nil in Hin].
      apply list_elem_of_singleton in Hin as [= -> _]. by eapply rooted_incoming.
  - intros Hroot.
    assert (∀ r, r ∈ rs → retains st (sequence r) (snapshot_id r) = true → (last rs = Some r ∨ is_pinned st (snapshot_id r) = true) ∨ held_at (now - sealed_at r) c →
      ∃ m, ((∃ x, x ∈ rs ∧ record_edge now st (head_sequence rs) x = Some (snapshot_id r, SnapshotKind, m)) ∨
        (snapshot_id r, SnapshotKind, m) ∈ intent_edges (restore_intent d) ∨ (snapshot_id r, SnapshotKind, m) ∈ incoming_edges (sync_incoming d)) ∧ Z.land m (bit c) ≠ 0) as Hrec.
    { intros r Hr Hk Hor. eexists. split; [left; exists r; split; [done |]; unfold record_edge; by rewrite Hk |].
      apply byte_mask_held. rewrite orb_true_iff, Z.eqb_eq, Hhead by done. done. }
    destruct Hroot as [r c Hl|r p c Hr Hpp Hs|r c Hr Hk Ha|d' b i sid c Hd' Hi Hf Hs|d' b i c Hd' Hi Hf].
    + assert (r ∈ rs) as Hr by (rewrite last_lookup in Hl; by eapply list_elem_of_lookup_2). apply Hrec; [done | | by left; left].
      apply Hret; [done |]. left. left. split; [by intros -> | by apply Hlast].
    + assert (is_pinned st (snapshot_id r) = true) as Hpn by (apply Hpin; by exists p). apply Hrec; [done | apply Hret; tauto | tauto].
    + apply Hrec; [done | apply Hret; tauto | tauto].
    + assert (d' = d) as -> by congruence. exists ALL_CLASS_MASK. split; [| apply all_classes]. right. left. unfold intent_edges. rewrite Hi, Hf. destruct Hs as [->| ->]; set_solver.
    + assert (d' = d) as -> by congruence. exists ALL_CLASS_MASK. split; [| apply all_classes]. right. right. unfold incoming_edges. rewrite Hi, Hf. set_solver.
Qed.
Lemma roots_snapshots now w id sts rs es : roots_of now w id sts rs es → Forall (λ e : Edge, e.1.2 = SnapshotKind) es.
Proof.
  intros (st & d & _ & _ & _ & ->). rewrite !Forall_app. split_and!.
  - apply Forall_forall. intros e (r & _ & He)%list_elem_of_omap. unfold record_edge in He. destruct (retains _ _ _); [by injection He as <- | done].
  - unfold intent_edges. destruct (restore_intent d) as [c|]; [| done]. destruct (from_slice c); [by repeat constructor | done].
  - unfold incoming_edges. destruct (sync_incoming d) as [c|]; [| done]. destruct (from_slice c); [by repeat constructor | done].
Qed.

Lemma elem_of_concat {A} (x : A) ls : x ∈ concat ls ↔ ∃ l, x ∈ l ∧ l ∈ ls.
Proof. rewrite list_elem_of_In, in_concat. setoid_rewrite <- list_elem_of_In. naive_solver. Qed.

(** C36 The roots a collection starts from: of every workspace the head, the pinned
    snapshots and the two ends of an interrupted restore and the incoming sync with
    the bytes of all classes, the other snapshots the policy keeps with those of
    the classes their age still holds, and nothing else; unless a retention state
    does not fit its log or a note does not decode. *)
Theorem retained_are_roots (persist : bool) now ids w sm (logs : bytes → list RetentionState * list RefRecord) :
  NoDup ids → (∀ id, id ∈ ids → ws_logs w id (logs id).1 (logs id).2) → marks w = ∅ →
  ∃ r w', enqueue_roots now persist ids sm w = (r, w') ∧
    match r with
    | Ok _ => ∀ sid c, queued (marks w') sid c ↔ ∃ id, id ∈ ids ∧ rooted now w id (logs id).1 (logs id).2 sid c
    | Err _ => ∃ id, id ∈ ids ∧ (unfit now id w ∨ undecodable id w)
    end.
Proof.
  intros Hnd Hws Hm. destruct (roots_run persist now logs ids w sm Hnd Hws) as (r & w' & Hrun & _ & Hr). exists r, w'. split; [done |].
  destruct r as [sm'|]; [| done]. destruct Hr as (ess & Hess & ->). rewrite Hm. intros sid c. rewrite queued_edges.
  - assert (queued ∅ sid c ↔ False) as -> by (unfold queued; setoid_rewrite lookup_empty; naive_solver).
    unfold asks. setoid_rewrite elem_of_concat. split.
    + intros [[]|(m & (es & Hin & Hes) & Hb)]. apply list_elem_of_lookup in Hes as [i Hi].
      destruct (Forall2_lookup_r _ _ _ _ _ Hess Hi) as (id & Hid & Hro). exists id. split; [by eapply list_elem_of_lookup_2 |].
      apply (asks_rooted _ _ _ _ _ _ _ _ Hro). by exists m.
    + intros (id & [i Hi]%list_elem_of_lookup & Hro). destruct (Forall2_lookup_l _ _ _ _ _ Hess Hi) as (es & Hes & Hr).
      destruct (proj2 (asks_rooted _ _ _ _ _ _ _ _ Hr) Hro) as (m & Hin & Hb). right. exists m. split; [| done]. exists es. split; [done |]. by eapply list_elem_of_lookup_2.
  - apply Forall_concat, Forall_forall. intros es [i Hi]%list_elem_of_lookup.
    destruct (Forall2_lookup_r _ _ _ _ _ Hess Hi) as (id & _ & Hro). by eapply roots_snapshots.
  - apply map_Forall_empty.
Qed.
End Gc.
