(* ===== verification/GcSafety.v ===== *)
(** * GcSafety: a collection loses nothing that is marked

    The new pack holds every marked object; after the swap each of them reads as
    before, and so it does when the process dies between two steps and the next
    one recovers the packs. *)

From S2P Require Import Prelude Model Refs Retention Catalog Pack PackTheory Gc GcTheory.
#[local] Open Scope Z_scope.

(** ** Pages *)

Definition rows_of (marks : MarkDatabase) : list (ObjectId * ObjectKind) := map (λ '(id, k), (id, mark_kind k)) (btree_iter marks).

Lemma rows_of_keys marks : (rows_of marks).*1 = sorted_keys (dom marks).
Proof.
  unfold rows_of. rewrite <- btree_iter_keys. induction (btree_iter marks) as [|[id k] l IH]; [done |]. cbn. by rewrite <- IH.
Qed.
Lemma elem_of_mark_rows marks id k : (id, k) ∈ rows_of marks ↔ ∃ m, marks !! id = Some m ∧ mark_kind m = k.
Proof.
  unfold rows_of. rewrite list_elem_of_fmap. setoid_rewrite <- elem_of_btree_iter. split.
  - intros ([i m] & [= -> ->] & Hin). eauto.
  - intros (m & Hin & <-). by exists (id, m).
Qed.

(** A page after the last row of a prefix is the start of the rest. *)
Lemma mark_batch_after marks pre a k post : rows_of marks = pre ++ (a, k) :: post →
  mark_batch marks (Some a) = take COMPACTION_BATCH post.
Proof.
  intros Heq. unfold mark_batch. fold (rows_of marks). f_equal.
  pose proof (sorted_keys_strict (dom marks)) as Hs. rewrite <- rows_of_keys, Heq in Hs.
  rewrite fmap_app in Hs. cbn in Hs. rewrite Heq.
  assert (∀ l : list (ObjectId * ObjectKind), (∀ x, x ∈ l.*1 → ¬ blt a x) → base.filter (λ '(id, _), blt a id) l = []) as Hnone.
  { clear. induction l as [|[i ki] l IH]; [done |]. intros Hn. rewrite filter_cons, decide_False by (apply Hn; left). apply IH. intros x Hx. apply Hn. by right. }
  assert (∀ l : list (ObjectId * ObjectKind), (∀ x, x ∈ l.*1 → blt a x) → base.filter (λ '(id, _), blt a id) l = l) as Hall.
  { clear. induction l as [|[i ki] l IH]; [done |]. intros Hn. rewrite filter_cons, decide_True by (apply Hn; left). f_equal. apply IH. intros x Hx. apply Hn. by right. }
  apply StronglySorted_app in Hs as (Hpre & _ & Hpost). inversion_clear Hpost as [|? ? Hs' Hlt].
  rewrite filter_app, filter_cons, decide_False by apply blt_irrefl. rewrite (Hnone pre), (Hall post); [done |..].
  - intros x Hx. rewrite Forall_forall in Hlt. by apply Hlt.
  - intros x Hx Hax. apply (blt_asym _ _ Hax). apply Hpre; [done | left].
Qed.
Lemma mark_batch_first marks : mark_batch marks None = take COMPACTION_BATCH (rows_of marks).
Proof. done. Qed.

Lemma visit_each_app {St V} (visit : ObjectId → ObjectKind → V → M St V) l k v s :
  visit_each visit (l ++ k) v s = (v ← visit_each visit l v; visit_each visit k v) s.
Proof.
  revert v s. induction l as [|[id ki] l IH]; intros v s; cbn [app visit_each]; [done |]. rewrite M_bind_assoc.
  unfold mbind at 1 2, M_bind at 1 2. destruct (visit id ki v s) as [[v'|e] s']; [apply IH | done].
Qed.

Lemma batch_pos : (0 < COMPACTION_BATCH)%nat.
Proof. unfold COMPACTION_BATCH. lia. Qed.
#[local] Opaque COMPACTION_BATCH.

(** Paging visits every row once, in order. *)
Lemma paged_rest {St V} (visit : ObjectId → ObjectKind → V → M St V) marks fuel : ∀ pre post after v s,
  rows_of marks = pre ++ post → after = fst <$> last pre → (length post < fuel)%nat →
  paged fuel marks after visit v s = visit_each visit post v s.
Proof.
  induction fuel as [|fuel IH]; intros pre post after v s Heq Haf Hf; [lia |]. cbn [paged].
  assert (mark_batch marks after = take COMPACTION_BATCH post) as ->.
  { subst after. destruct (last pre) as [[a k]|] eqn:El; cbn.
    - apply last_Some in El as [pre' ->]. rewrite <- app_assoc in Heq. by eapply mark_batch_after.
    - apply last_None in El as ->. by rewrite mark_batch_first, Heq. }
  pose proof batch_pos as Hpos. destruct (decide (take COMPACTION_BATCH post = [])) as [Hn|Hn].
  { rewrite bool_decide_true by done. destruct post; [done |]. destruct COMPACTION_BATCH; [lia | done]. }
  rewrite bool_decide_false by done. replace (visit_each visit post v s) with (visit_each visit (take COMPACTION_BATCH post ++ drop COMPACTION_BATCH post) v s) by by rewrite take_drop.
  rewrite visit_each_app.
  unfold mbind at 1 2, M_bind at 1 2. destruct (visit_each visit (take COMPACTION_BATCH post) v s) as [[v'|e] s'] eqn:Ev; [| done].
  apply (IH (pre ++ take COMPACTION_BATCH post)).
  - by rewrite <- app_assoc, take_drop.
  - rewrite last_app. destruct (last (take COMPACTION_BATCH post)) eqn:El; [done |]. by apply last_None in El.
  - rewrite length_drop. destruct post; [by rewrite take_nil in Hn | cbn [length] in *; lia].
Qed.
Lemma paged_all {St V} (visit : ObjectId → ObjectKind → V → M St V) marks v s :
  paged (paging_fuel marks) marks None visit v s = visit_each visit (rows_of marks) v s.
Proof.
  apply (paged_rest visit marks _ []); [done | done |]. unfold paging_fuel.
  rewrite <- (length_map fst). fold (rows_of marks).*1. rewrite rows_of_keys. unfold sorted_keys.
  rewrite (merge_sort_Permutation ble). rewrite <- (size_dom (D := gset ObjectId)). unfold base.size, set_size. cbn. lia.
Qed.

(** ** Compaction *)

#[local] Arguments pack_name : simpl never.
#[local] Arguments temporary : simpl never.

Section Compact.
Context `{B3 : Blake3, !Blake3Ok, JF : Json DurableFrontier, !JsonOk DurableFrontier, JR : Json RefRecord}.
Variable stamp generation : bytes.
#[local] Abbreviation tmp := (temporary generation).
#[local] Abbreviation fresh_pack := (pack_name generation).

(** The store with the new pack under way. *)
Definition on_tmp (content : bytes) (s : Store) : Store := set_packs (<[tmp := content]>) s.

Lemma read_on_tmp content s id k : rows_sound s → packs s !! tmp = None → read_located id k (on_tmp content s) = read_located id k s.
Proof.
  intros Hs Hn. unfold read_located. change (tables_of (on_tmp content s)) with (tables_of s).
  destruct (objects (tables_of s) !! id) as [l|] eqn:El; [| done]. cbn [with_context mbind Res_bind].
  destruct (Hs _ _ El) as (pre & b & post & Hp & _). assert (pack l ≠ tmp) as Hne by (intros He; by rewrite He, Hn in Hp).
  change (packs (on_tmp content s)) with (<[tmp := content]> (packs s)). by rewrite lookup_insert_ne.
Qed.

(** What the loop has put out for some rows. *)
Record put_out (s : Store) (rows : list (ObjectId * ObjectKind)) (recs : list (ObjectKind * bytes)) (o : Output) : Prop := {
  po_recs : Forall2 (λ row rec, row.2 = rec.1 ∧ read_located row.1 row.2 s = Ok rec.2) rows recs;
  po_count : out_count o = Z.of_nat (length recs);
  po_position : out_position o = blen (pack_of recs);
  po_last : out_last_id o = fst <$> last rows;
  po_known : ∀ id, is_Some (locations o !! id) ↔ id ∈ rows.*1;
  po_at : ∀ id k off n, locations o !! id = Some (k, off, n) → ∃ pre b post,
    pack_of recs = pre ++ object_record k b ++ post ∧ off = blen pre + HEADER_LEN ∧ n = blen b ∧ read_located id k s = Ok b;
}.

Lemma pack_of_snoc recs k b : pack_of (recs ++ [(k, b)]) = pack_of recs ++ object_record k b.
Proof. rewrite pack_of_app. unfold pack_of at 2. cbn. by rewrite app_nil_r. Qed.

Lemma compact_one_run s rows recs o id k b :
  rows_sound s → packs s !! tmp = None → put_out s rows recs o → read_located id k s = Ok b →
  ∃ o', compact_one stamp generation id k o (on_tmp (pack_of recs) s) = (Ok o', on_tmp (pack_of (recs ++ [(k, b)])) s)
        ∧ put_out s (rows ++ [(id, k)]) (recs ++ [(k, b)]) o'.
Proof.
  intros Hs Hn [P1 P2 P3 P4 P5 P6] Hr. destruct (read_row _ _ _ _ Hr) as (l & _ & _ & Hid).
  unfold compact_one, read_bytes_unlocked. rewrite M_bind_assoc, gets_bind, read_on_tmp, Hr by done. rewrite mret_bind. cbv zeta.
  rewrite modify_bind. eexists. split.
  { unfold mret, M_ret. f_equal. rewrite pack_of_snoc. unfold on_tmp, set_packs. cbn. f_equal.
    rewrite alter_insert_eq. f_equal. f_equal. unfold write_record, object_record. by rewrite Hid. }
  assert (blen (pack_of (recs ++ [(k, b)])) = blen (pack_of recs) + HEADER_LEN + blen b + 4) as Hlen.
  { rewrite pack_of_snoc, blen_app, blen_object_record. lia. }
  split; cbn [out_count out_position out_last_id locations].
  - apply Forall2_app; [done | by repeat constructor].
  - rewrite P2, length_app. cbn [length]. lia.
  - rewrite Hlen, P3. reflexivity.
  - by rewrite last_snoc.
  - intros i. rewrite fmap_app, elem_of_app. cbn. rewrite list_elem_of_singleton, <- P5. rewrite lookup_insert_is_Some'. naive_solver.
  - intros i ki off n. rewrite pack_of_snoc. intros [[<- [= <- <- <-]]|[_ Hl]]%lookup_insert_Some.
    + exists (pack_of recs), b, []. rewrite app_nil_r, P3. by split_and!.
    + destruct (P6 _ _ _ _ Hl) as (pre & b' & post & -> & -> & -> & ?). exists pre, b', (post ++ object_record k b).
      by rewrite <- !app_assoc.
Qed.

Lemma compact_rows_run s todo : ∀ rows recs o,
  rows_sound s → packs s !! tmp = None → put_out s rows recs o →
  (∀ id k, (id, k) ∈ todo → ∃ b, read_located id k s = Ok b) →
  ∃ o' recs', visit_each (compact_one stamp generation) todo o (on_tmp (pack_of recs) s) = (Ok o', on_tmp (pack_of recs') s)
        ∧ put_out s (rows ++ todo) recs' o'.
Proof.
  induction todo as [|[id k] todo IH]; intros rows recs o Hs Hn Hp Hall; cbn [visit_each].
  { exists o, recs. by rewrite app_nil_r. }
  destruct (Hall id k) as [b Hb]; [left |]. destruct (compact_one_run s rows recs o id k b Hs Hn Hp Hb) as (o1 & Hrun & Hp1).
  rewrite (M_bind_run _ _ _ _ _ Hrun). destruct (IH _ _ _ Hs Hn Hp1) as (o' & recs' & Hrun' & Hp'); [intros; apply Hall; by right |].
  exists o', recs'. split; [done |]. by rewrite <- app_assoc in Hp'.
Qed.

(** What every mark names can be read. *)
Definition marks_readable (s : Store) (mks : MarkDatabase) : Prop := ∀ id m, mks !! id = Some m → ∃ b, read_located id (mark_kind m) s = Ok b.

Lemma write_pack_run s mks : rows_sound s → packs s !! tmp = None → marks_readable s mks →
  ∃ o recs, write_pack stamp generation mks s = (Ok o, on_tmp (pack_of recs) s) ∧ put_out s (rows_of mks) recs o.
Proof.
  intros Hs Hn Hall. unfold write_pack. rewrite get_bind, Hn, mensure_bind, modify_bind by done. rewrite paged_all.
  destruct (compact_rows_run s (rows_of mks) [] [] (mkOutput 0 0 None 0 ∅) Hs Hn) as (o & recs & Hrun & Hp).
  - split; [constructor | done | done | done | |]; cbn.
    + intros id. rewrite lookup_empty. split; [by intros [? ?] | by intros ?%not_elem_of_nil].
    + intros id k off n. by rewrite lookup_empty.
  - intros id k (m & Hm & <-)%elem_of_mark_rows. by apply Hall.
  - exists o, recs. by split.
Qed.

Definition published (content : bytes) (s : Store) : Store := set_packs (<[fresh_pack := content]>) s.
Lemma publish_run content s : packs s !! tmp = None → publish_pack generation (on_tmp content s) = (Ok (), published content s).
Proof using.
  intros Hn. unfold publish_pack, modify, on_tmp, published, set_packs. cbn. rewrite lookup_insert, decide_True by done.
  by rewrite delete_insert_id.
Qed.

(** After the swap: exactly the marked objects, all in the new pack. *)
Record swapped (s : Store) (rows : list (ObjectId * ObjectKind)) (recs : list (ObjectKind * bytes)) (s2 : Store) : Prop := {
  sw_frame : frame s s2;
  sw_packs : packs s2 = <[fresh_pack := pack_of recs]> (packs s);
  sw_known : ∀ id, is_Some (objects (tables_of s2) !! id) ↔ id ∈ rows.*1;
  sw_fresh : ∀ id l, objects (tables_of s2) !! id = Some l → pack l = fresh_pack;
  sw_sound : rows_sound s2;
  sw_reads : ∀ id k b, (id, k) ∈ rows → read_located id k s = Ok b → read_located id k s2 = Ok b;
  sw_checkpoint : ∃ c, pack_checkpoints (tables_of s2) = {[fresh_pack := c]} ∧ verified_len c = blen (pack_of recs);
  sw_idle : is_idle (catalog s2) = is_idle (catalog s);
}.

Lemma rows_recs s rows recs o id k b : put_out s rows recs o → (id, k) ∈ rows → read_located id k s = Ok b → (k, b) ∈ recs.
Proof using.
  intros Hp Hin Hr. apply list_elem_of_lookup_1 in Hin as [i Hi].
  destruct (Forall2_lookup_l _ _ _ _ _ (po_recs _ _ _ _ Hp) Hi) as ([k' b'] & Hi' & [Hk Hr']). cbn in *. subst k'.
  assert (b' = b) as -> by congruence. by eapply list_elem_of_lookup_2.
Qed.

Lemma swap_run s rows recs o : put_out s rows recs o →
  ∃ s2, swap_catalog generation o (published (pack_of recs) s) = (Ok (), s2) ∧ swapped s rows recs s2.
Proof.
  intros Hp. set (s2 := (swap_catalog generation o (published (pack_of recs) s)).2). exists s2. split; [reflexivity |].
  assert (packs s2 = <[fresh_pack := pack_of recs]> (packs s)) as Hpk by done.
  assert (∀ id l, objects (tables_of s2) !! id = Some l → ∃ k off n, locations o !! id = Some (k, off, n) ∧ l = mkLocation fresh_pack off n k) as Hobj.
  { intros id l. change (objects (tables_of s2)) with ((λ '(kind, off, n), mkLocation fresh_pack off n kind) <$> locations o).
    rewrite lookup_fmap. destruct (locations o !! id) as [[[k off] n]|]; [| done]. cbn. intros [= <-]. by exists k, off, n. }
  assert (∀ id l, objects (tables_of s2) !! id = Some l → points_to (packs s2) id l ∧ ∃ b, read_located id (loc_kind l) s = Ok b ∧ read_located id (loc_kind l) s2 = Ok b) as Hpt.
  { intros id l Hl. destruct (Hobj _ _ Hl) as (k & off & n & Ho & ->). destruct (po_at _ _ _ _ Hp _ _ _ _ Ho) as (pre & b & post & Heq & -> & -> & Hr).
    destruct (read_row _ _ _ _ Hr) as (_ & _ & _ & Hid).
    assert (points_to (packs s2) id (mkLocation fresh_pack (blen pre + HEADER_LEN) (blen b) k)) as Hpt.
    { exists pre, b, post. cbn [pack loc_kind offset len]. rewrite Hpk, lookup_insert, decide_True by done. by rewrite Heq. }
    split; [done |]. exists b. split; [done |]. cbn [loc_kind]. unfold read_located. rewrite Hl. cbn [with_context mbind Res_bind loc_kind].
    rewrite bool_decide_true by done. cbn [ensure mbind Res_bind pack].
    rewrite Hpk, lookup_insert, decide_True by done. cbn [with_context mbind Res_bind len offset].
    rewrite Heq. destruct (Z.eqb_spec (blen b) 0) as [E|E].
    - assert (b = []) as -> by (destruct b; [done | exfalso; blia]). cbn [with_context mbind Res_bind]. by rewrite bool_decide_true.
    - rewrite (read_field_full pre k b post HEADER_LEN b) by (apply field_payload || done). cbn [with_context mbind Res_bind]. by rewrite bool_decide_true. }
  assert (∀ id, is_Some (objects (tables_of s2) !! id) ↔ id ∈ rows.*1) as Hknown.
  { intros id. rewrite <- (po_known _ _ _ _ Hp). change (objects (tables_of s2)) with ((λ '(kind, off, n), mkLocation fresh_pack off n kind) <$> locations o).
    by rewrite lookup_fmap, fmap_is_Some. }
  split; [by split | done | done | | | | | done].
  - intros id l Hl. by destruct (Hobj _ _ Hl) as (k & off & n & _ & ->).
  - intros id l Hl. by apply Hpt.
  - intros id k b Hin Hr. destruct (proj2 (Hknown id)) as [l Hl]; [apply list_elem_of_fmap; by exists (id, k) |].
    destruct (Hpt _ _ Hl) as (_ & b' & Hr1 & Hr2). destruct (read_row _ _ _ _ Hr) as (l0 & Hl0 & Hk0 & _).
    destruct (read_row _ _ _ _ Hr1) as (l1 & Hl1 & Hk1 & _). assert (loc_kind l = k) as Hk by congruence. rewrite Hk in *. congruence.
  - eexists. split; [reflexivity |]. cbn. by rewrite (po_position _ _ _ _ Hp).
Qed.

(** ** Activation *)

(** The same files, rows and place; reference logs and the frontier apart. *)
Record same_objects (s s' : Store) : Prop := {
  so_packs : packs s' = packs s;
  so_catalog : catalog s' = catalog s;
  so_active : active_pack s' = active_pack s;
  so_current : current s' = current s;
  so_known : known_end s' = known_end s;
}.
#[local] Instance same_objects_preorder : PreOrder same_objects.
Proof. split; [by split |]. intros s1 s2 s3 [] []. split; congruence. Qed.

Lemma refs_frontier_run ids : ∀ refs s, ∃ refs' s', refs_frontier ids refs s = (Ok refs', s') ∧ same_objects s s'.
Proof using.
  induction ids as [|id ids IH]; intros refs s; cbn [refs_frontier]; [by eexists _, s |]. rewrite get_bind.
  destruct (refs_logs s !! id) as [l|]; [| apply IH].
  assert (∃ n l', complete_len l = (Ok n, l')) as (n & l' & ->).
  { unfold complete_len, open_log. unfold mbind, M_bind. destruct (log l); by eexists _, _. }
  rewrite modify_bind. destruct (IH (<[id := n]> refs) (set_refs_logs (<[id := l']>) s)) as (refs' & s' & Hrun & Hso).
  exists refs', s'. split; [done |]. etrans; [| done]. by split.
Qed.

Lemma packs_frontier_run names : ∀ fr s,
  (∀ name, pack_high_water name (committed (catalog s)) ≤ pack_len name s) →
  (∀ name n, fr !! name = Some n → n = pack_high_water name (committed (catalog s))) →
  ∃ fr', packs_frontier names fr s = (Ok fr', s) ∧ ∀ name n, fr' !! name = Some n → n = pack_high_water name (committed (catalog s)).
Proof using.
  induction names as [|name names IH]; intros fr s Hhw Hfr; cbn [packs_frontier]; [by exists fr |].
  destruct (is_pack_file name); [| by apply IH]. rewrite get_bind. cbv zeta. rewrite mensure_bind by by apply Z.leb_le.
  apply IH; [done |]. intros name' n [[<- <-]|[_ ?]]%lookup_insert_Some; auto.
Qed.

(** Sound rows end within their packs. *)
Lemma high_water_len s name : rows_sound s → pack_high_water name (tables_of s) ≤ pack_len name s.
Proof.
  intros Hs. unfold pack_high_water, rows_where.
  assert (∀ l, l ∈ base.filter (λ l, in_pack name l = true) (map_to_list (objects (tables_of s))).*2 → row_end l ≤ pack_len name s) as Hall.
  { intros l [Hn Hin]%list_elem_of_filter. apply bool_decide_eq_true in Hn. apply list_elem_of_fmap in Hin as ([id l'] & -> & Hin). cbn in *.
    apply elem_of_map_to_list in Hin. destruct (Hs _ _ Hin) as (pre & b & post & Hp & Ho & Hl & _). unfold pack_len. rewrite <- Hn, Hp.
    unfold row_end. rewrite Ho, Hl, !blen_app, blen_object_record. pose proof (blen_nonneg post). lia. }
  assert (0 ≤ pack_len name s) as H0 by (unfold pack_len; destruct (packs s !! name); [apply blen_nonneg | done]).
  revert Hall. generalize (base.filter (λ l, in_pack name l = true) (map_to_list (objects (tables_of s))).*2). clear -H0.
  induction l as [|l ls IH]; intros Hall; cbn; [done |]. apply Z.max_lub; [apply Hall; left |]. apply IH. intros; apply Hall; by right.
Qed.

Lemma sync_locked_run s : rows_sound s → is_idle (catalog s) = true →
  ∃ s' f, sync_locked s = (Ok (), s') ∧ same_objects s s' ∧ frontier_file s' = Some (to_vec f) ∧
    ∀ name n, frontier_packs f !! name = Some n → n = pack_high_water name (tables_of s).
Proof.
  intros Hs Hi. unfold sync_locked. rewrite get_bind.
  destruct (refs_frontier_run (map_to_list (refs_logs s)).*1 ∅ s) as (refs & s1 & Hrun1 & Hso). rewrite (M_bind_run _ _ _ _ _ Hrun1).
  pose proof Hso as [Hp Hc Ha Hcu Hk].
  assert (committed (catalog s1) = tables_of s) as Hcom.
  { rewrite Hc. unfold committed, is_idle, tables_of in *. by destruct (saved (catalog s)). }
  destruct (packs_frontier_run (map_to_list (packs s)).*1 ∅ s1) as (fr & Hrun2 & Hfr).
  - intros name. rewrite Hcom. unfold pack_len. rewrite Hp. by apply high_water_len.
  - intros name n. by rewrite lookup_empty.
  - rewrite (M_bind_run _ _ _ _ _ Hrun2). eexists _, (mkFrontier fr refs). split; [reflexivity |]. split_and!; [| done |].
    + etrans; [done |]. by split.
    + intros name n Hn. cbn in Hn. rewrite <- Hcom. by apply Hfr.
Qed.

Lemma name_is_valid : slash ∉ generation → validate_pack_name fresh_pack = Ok ().
Proof using.
  intros Hs. unfold validate_pack_name, pack_name. rewrite bool_decide_false by done. cbn [negb andb].
  assert (ends_with (b_ "pack-gc-" ++ generation ++ b_ ".agp") (b_ ".agp") = true) as ->.
  { unfold ends_with. apply starts_with_spec. exists (reverse (b_ "pack-gc-" ++ generation)). by rewrite app_assoc, reverse_app. }
  rewrite bool_decide_false; [done |]. rewrite !elem_of_app. intros [Hin|[?|Hin]]; [| done |].
  - apply (bool_decide_eq_true_2 _) in Hin. by vm_compute in Hin.
  - apply (bool_decide_eq_true_2 _) in Hin. by vm_compute in Hin.
Qed.

(** What activation leaves, with or without a frontier to write. *)
Record activated (s2 s3 : Store) : Prop := {
  ac_packs : packs s3 = packs s2;
  ac_catalog : catalog s3 = catalog s2;
  ac_active : active_pack s3 = fresh_pack;
  ac_current : current s3 = Some fresh_pack;
  ac_known : known_end s3 = pack_len fresh_pack s2;
  ac_frontier : frontier_file s3 = None ∨ ∃ f, frontier_file s3 = Some (to_vec f) ∧
    ∀ name n, frontier_packs f !! name = Some n → n = pack_high_water name (tables_of s2);
}.

Lemma activate_run s2 : slash ∉ generation → rows_sound s2 → is_idle (catalog s2) = true →
  ∃ s3, activate_pack fresh_pack s2 = (Ok (), s3) ∧ activated s2 s3.
Proof.
  intros Hn Hs Hi. unfold activate_pack. rewrite name_is_valid, lift_ok_bind, !modify_bind, get_bind by done.
  set (s3 := set_known_end _ _). change (frontier_file s3) with (frontier_file s2).
  destruct (frontier_file s2) as [c|] eqn:Ef.
  - destruct (sync_locked_run s3 Hs Hi) as (s4 & f & Hrun & [P1 P2 P3 P4 P5] & Hf & Hhw). exists s4. split; [done |].
    split; [done | done | done | done | done |]. right. by exists f.
  - exists s3. split; [done |]. split; [done.. |]. by left.
Qed.

Lemma fail_at_run failpoint point msg (s : Store) : failpoint ≠ Some point → fail_at failpoint point msg s = (Ok (), s).
Proof using. intros Hne. unfold fail_at, mensure. by rewrite bool_decide_false. Qed.

Lemma rows_nodup mks : NoDup (rows_of mks).*1.
Proof using. rewrite rows_of_keys. apply sorted_keys_NoDup. Qed.
Lemma in_rows mks id : id ∈ (rows_of mks).*1 ↔ is_Some (mks !! id).
Proof using. rewrite rows_of_keys, elem_of_sorted_keys. apply elem_of_dom. Qed.

(** Everything that has a mark reads as it did. *)
Definition keeps_marked (mks : MarkDatabase) (s s' : Store) : Prop :=
  ∀ id m b, mks !! id = Some m → read_located id (mark_kind m) s = Ok b → read_located id (mark_kind m) s' = Ok b.

Lemma read_same s s' id k : objects (tables_of s') !! id = objects (tables_of s) !! id →
  (∀ l, objects (tables_of s) !! id = Some l → packs s' !! pack l = packs s !! pack l) → read_located id k s' = read_located id k s.
Proof using.
  intros Ho Hp. unfold read_located. rewrite Ho. destruct (objects (tables_of s) !! id) as [l|] eqn:El; [| done].
  cbn [with_context mbind Res_bind]. by rewrite (Hp l).
Qed.

Lemma compact_run failpoint mks s :
  failpoint = None → rows_sound s → is_idle (catalog s) = true → packs s !! tmp = None → slash ∉ generation → marks_readable s mks →
  ∃ n s', compact stamp generation failpoint mks s = (Ok n, s') ∧ store_ok s' ∧ keeps_marked mks s s' ∧
    (∀ id, is_Some (objects (tables_of s') !! id) ↔ is_Some (mks !! id)) ∧
    (∀ name f, packs s' !! name = Some f → is_pack_file name = true → name = fresh_pack ∧ n = blen f).
Proof.
  intros -> Hs Hi Hn Hg Hall. destruct (write_pack_run s mks Hs Hn Hall) as (o & recs & Hw & Hp).
  destruct (swap_run s _ _ _ Hp) as (s2 & Hsw & Hs2). destruct (activate_run s2 Hg) as (s3 & Hac & Hs3);
    [apply Hs2 | by rewrite (sw_idle _ _ _ _ Hs2) |].
  unfold compact. rewrite (M_bind_run _ _ _ _ _ Hw), (M_bind_run _ _ _ _ _ (publish_run _ s Hn)).
  rewrite (M_bind_run _ _ _ _ _ (fail_at_run None _ _ _ ltac:(done))), (M_bind_run _ _ _ _ _ Hsw).
  rewrite (M_bind_run _ _ _ _ _ (fail_at_run None _ _ _ ltac:(done))), (M_bind_run _ _ _ _ _ Hac).
  unfold remove_old_packs. rewrite modify_bind. eexists _, _. split; [reflexivity |]. set (s4 := set_packs _ s3).
  assert (packs s4 = base.filter (λ '(name, _), is_pack_file name = false ∨ name = fresh_pack) (packs s2)) as Hp4.
  { unfold s4. cbn. by rewrite (ac_packs _ _ Hs3). }
  assert (tables_of s4 = tables_of s2) as Ht4 by (unfold s4, tables_of; cbn; by rewrite (ac_catalog _ _ Hs3)).
  assert (packs s2 !! fresh_pack = Some (pack_of recs)) as Hf2 by (rewrite (sw_packs _ _ _ _ Hs2), lookup_insert, decide_True by done; done).
  assert (packs s4 !! fresh_pack = Some (pack_of recs)) as Hf4 by (rewrite Hp4; apply map_lookup_filter_Some; split; [done | by right]).
  assert (∀ id k, read_located id k s4 = read_located id k s2) as Hrd.
  { intros id k. apply read_same; [by rewrite Ht4 |]. intros l Hl. by rewrite (sw_fresh _ _ _ _ Hs2 _ _ Hl), Hf4, Hf2. }
  split_and!.
  - split.
    + intros id l. rewrite Ht4. intros Hl. destruct (sw_sound _ _ _ _ Hs2 _ _ Hl) as (pre & b & post & Hpk & ?). exists pre, b, post.
      rewrite (sw_fresh _ _ _ _ Hs2 _ _ Hl) in *. split; [congruence | done].
    + unfold s4. cbn. rewrite (ac_known _ _ Hs3), (ac_active _ _ Hs3). unfold pack_len. fold s4. change (packs (set_packs _ s3)) with (packs s4).
      by rewrite Hf4, Hf2.
    + unfold s4. cbn. by rewrite (ac_current _ _ Hs3), (ac_active _ _ Hs3).
    + unfold s4. cbn. rewrite (ac_active _ _ Hs3). by apply name_is_valid.
  - intros id m b Hm Hr. rewrite Hrd. apply (sw_reads _ _ _ _ Hs2); [apply elem_of_mark_rows; eauto | done].
  - intros id. by rewrite Ht4, (sw_known _ _ _ _ Hs2), in_rows.
  - intros name f Hf Hpf. rewrite Hp4 in Hf. apply map_lookup_filter_Some in Hf as [Hf [Hno| ->]]; [congruence |].
    split; [done |]. unfold pack_len. rewrite Hf4. congruence.
Qed.

(** ** Dying on the way *)

(** What is on disk when the process dies while it compacts; the catalog
    switches in one transaction. *)
Inductive dies (s : Store) (mks : MarkDatabase) : Store → Prop :=
| dies_writing content : dies s mks (on_tmp content s)
| dies_published o s1 : write_pack stamp generation mks s = (Ok o, s1) → dies s mks (publish_pack generation s1).2
| dies_swapped o s1 s2 : write_pack stamp generation mks s = (Ok o, s1) → publish_pack generation s1 = (Ok (), s2) →
    dies s mks (swap_catalog generation o s2).2
| dies_current o s1 s2 s3 : write_pack stamp generation mks s = (Ok o, s1) → publish_pack generation s1 = (Ok (), s2) →
    swap_catalog generation o s2 = (Ok (), s3) → dies s mks (set_current (Some fresh_pack) s3)
| dies_removing o s1 s2 s3 s4 ps : write_pack stamp generation mks s = (Ok o, s1) → publish_pack generation s1 = (Ok (), s2) →
    swap_catalog generation o s2 = (Ok (), s3) → activate_pack fresh_pack s3 = (Ok (), s4) →
    ps ⊆ packs s4 → ps !! fresh_pack = packs s4 !! fresh_pack → dies s mks (set_packs (λ _, ps) s4).

(** The store a new process recovers: the pack [CURRENT] names is the active one. *)
Definition opening (name : bytes) (s : Store) : Store := set_active_pack name (reopen s).

Lemma open_packs_run name s fr recs tail :
  current s = Some name → validate_pack_name name = Ok () → crashed (opening name s) fr recs tail →
  ∃ s', open_packs stamp (reopen s) = (Ok (), s') ∧ recovered (opening name s) s' recs.
Proof.
  intros Hc Hv Hcr. destruct (recover_pack_run stamp _ fr recs tail Hcr) as (s' & Hrun & Hrec). exists s'. split; [| done].
  unfold open_packs, read_or_initialize_current. rewrite M_bind_assoc, get_bind. change (current (reopen s)) with (current s). rewrite Hc.
  rewrite M_bind_assoc, Hv, lift_ok_bind, mret_bind, modify_bind. exact Hrun.
Qed.

(** No other object has the address of a stored one. *)
Definition unique_addresses (s : Store) : Prop :=
  ∀ id k b k' b', read_located id k s = Ok b → object_id k' b' = id → k' = k ∧ b' = b.

(** A store fit for a collection: in order, its active pack whole records that
    the next open would accept, and the name of the new pack new. *)
Record gc_ready (s : Store) (fr : option DurableFrontier) (recs : list (ObjectKind * bytes)) : Prop := {
  gr_ok : store_ok s;
  gr_idle : is_idle (catalog s) = true;
  gr_open : crashed (opening (active_pack s) s) fr recs [];
  gr_rows : ∀ id l, objects (tables_of s) !! id = Some l → pack l = active_pack s → ∃ k b, (k, b) ∈ recs ∧ object_id k b = id;
  gr_unique : unique_addresses s;
  gr_small : ∀ id k b, read_located id k s = Ok b → blen b ≤ MAX_OBJECT_LEN;
  gr_fresh : packs s !! fresh_pack = None;
  gr_tmp : packs s !! tmp = None;
  gr_name : slash ∉ generation;
  gr_frontier : ∀ f, fr = Some f → frontier_packs f !! fresh_pack = None;
}.

Lemma idle_tables s : is_idle (catalog s) = true → tables_of (reopen s) = tables_of s.
Proof using. unfold is_idle, tables_of, reopen, committed. cbn. by destruct (saved (catalog s)). Qed.

Lemma opening_tables name s : is_idle (catalog s) = true → tables_of (opening name s) = tables_of s.
Proof using. intros Hi. rewrite <- (idle_tables s Hi). reflexivity. Qed.
Lemma opening_active name s : active_pack (opening name s) = name.
Proof using. done. Qed.

(** An object whose row is in another pack reads the same after recovery. *)
Lemma recovered_other s s' recs id l k : recovered s s' recs → objects (tables_of s) !! id = Some l → pack l ≠ active_pack s →
  read_located id k s' = read_located id k s.
Proof using.
  intros Hrec Hl Hne. apply read_same; [by rewrite (rc_others _ _ _ Hrec _ _ Hl Hne) |]. intros l' Hl'. assert (l' = l) as -> by congruence.
  by rewrite (rc_packs _ _ _ Hrec), lookup_insert_ne.
Qed.
(** One whose record is in the recovered pack reads back. *)
Lemma recovered_record s s' recs k b : recovered s s' recs → (k, b) ∈ recs →
  (∀ k' b', object_id k' b' = object_id k b → k' = k ∧ b' = b) → read_located (object_id k b) k s' = Ok b.
Proof.
  intros Hrec Hin Huq. destruct (rc_all _ _ _ Hrec _ _ Hin) as [l Hl].
  destruct (read_points_to s' _ l Hl (rc_sound _ _ _ Hrec _ _ Hl)) as (b' & Hr & Hid). destruct (Huq _ _ Hid) as [<- <-]. done.
Qed.

Lemma points_to_same ps ps' id l : ps' !! pack l = ps !! pack l → points_to ps id l → points_to ps' id l.
Proof using. intros Heq (pre & b & post & Hp & ?). exists pre, b, post. by rewrite Heq. Qed.

(** While the old pack is the current one. *)
Lemma old_pack_keeps s fr recs mks s1 :
  gc_ready s fr recs → current s1 = current s → frontier_file s1 = frontier_file s →
  packs s1 !! active_pack s = packs s !! active_pack s →
  (∀ id l, objects (tables_of (reopen s1)) !! id = Some l → pack l ≠ active_pack s → points_to (packs s1) id l) →
  (tables_of (reopen s1) = tables_of s ∨ pack_checkpoints (tables_of (reopen s1)) !! active_pack s = None) →
  (∀ id m b, mks !! id = Some m → read_located id (mark_kind m) s = Ok b →
     ∃ l, objects (tables_of (reopen s1)) !! id = Some l ∧
       (pack l = active_pack s ∧ objects (tables_of s) !! id = Some l ∨
        pack l ≠ active_pack s ∧ read_located id (mark_kind m) (reopen s1) = Ok b)) →
  ∃ s', open_packs stamp (reopen s1) = (Ok (), s') ∧ keeps_marked mks s s'.
Proof.
  intros [Hok Hi Hop Hrows Huq _ Hf Ht _ _] Hcu Hff Hpk Hoth Hck Hreads. pose proof Hok as [_ _ Hc Hn].
  assert (crashed (opening (active_pack s) s1) fr recs []) as Hcr.
  { pose proof (idle_tables s Hi) as Hts. destruct Hop as [P1 P2 P3 P4 P5 P6 P7 P8].
    change (tables_of (opening (active_pack s) s)) with (tables_of (reopen s)) in P8. rewrite Hts in P8.
    split; [| exact P2 | exact P3 | | exact P5 | exact P6 | exact Hoth |].
    - change (packs s1 !! active_pack s = Some (pack_of recs ++ [])). by rewrite Hpk.
    - revert P4. unfold frontier. change (frontier_file (opening (active_pack s) s1)) with (frontier_file s1). by rewrite Hff.
    - intros k Hk. change (tables_of (opening (active_pack s) s1)) with (tables_of (reopen s1)). destruct Hck as [Htb|Hno].
      + rewrite Htb. destruct (P8 k) as (j & Hj & Hin & Hrow).
        { revert Hk. unfold trusted_checkpoint, validate_checkpoint. change (tables_of (opening (active_pack s) s1)) with (tables_of (reopen s1)).
          change (tables_of (opening (active_pack s) s)) with (tables_of (reopen s)). by rewrite Htb, Hts. }
        exists j. split_and!; [done | done |]. intros id l Hl Hp. eapply points_to_same; [| by apply Hrow]. cbn. by rewrite Hp.
      + exfalso. unfold trusted_checkpoint in Hk. change (tables_of (opening (active_pack s) s1)) with (tables_of (reopen s1)) in Hk.
        change (active_pack (opening (active_pack s) s1)) with (active_pack s) in Hk. by rewrite Hno in Hk. }
  destruct (open_packs_run (active_pack s) s1 fr recs []) as (s' & Hrun & Hrec); [congruence | done | done |].
  exists s'. split; [done |]. intros id m b Hm Hr. destruct (Hreads _ _ _ Hm Hr) as (l & Hl & [[Hpl Hl0]|[Hpl Hr1]]).
  - destruct (Hrows _ _ Hl0 Hpl) as (k & b' & Hin & Hid). destruct (Huq _ _ _ _ _ Hr Hid) as [-> ->]. subst id.
    apply (recovered_record _ _ _ _ _ Hrec Hin). intros k' b'. by apply (Huq _ _ _ k' b' Hr).
  - rewrite (recovered_other _ _ _ _ _ _ Hrec Hl Hpl). exact Hr1.
Qed.

Lemma put_out_small s rows recs o : put_out s rows recs o → (∀ id k b, read_located id k s = Ok b → blen b ≤ MAX_OBJECT_LEN) → small recs.
Proof using.
  intros Hp Hsm. apply Forall_lookup_2. intros i [k b] Hi.
  destruct (Forall2_lookup_r _ _ _ _ _ (po_recs _ _ _ _ Hp) Hi) as ([id k'] & _ & [_ Hr]). by eapply Hsm.
Qed.
Lemma recs_known s rows recs o s2 k b : put_out s rows recs o → swapped s rows recs s2 → (k, b) ∈ recs →
  is_Some (objects (tables_of s2) !! object_id k b).
Proof using.
  intros Hp Hs2 Hin. apply (sw_known _ _ _ _ Hs2). apply list_elem_of_lookup_1 in Hin as [i Hi].
  destruct (Forall2_lookup_r _ _ _ _ _ (po_recs _ _ _ _ Hp) Hi) as ([id k'] & Hi' & [Hk Hr]). cbn in *.
  destruct (read_row _ _ _ _ Hr) as (_ & _ & _ & <-). subst k'. apply list_elem_of_fmap. exists (object_id k b, k).
  split; [done |]. by eapply list_elem_of_lookup_2.
Qed.

(** Once the new pack is the current one. *)
Lemma new_pack_keeps s fr recs mks o nrecs s2 s1 fr1 :
  gc_ready s fr recs → put_out s (rows_of mks) nrecs o → swapped s (rows_of mks) nrecs s2 → blen (pack_of nrecs) < 2 ^ 63 →
  current s1 = Some fresh_pack → catalog s1 = catalog s2 → packs s1 !! fresh_pack = Some (pack_of nrecs) →
  frontier s1 = Ok fr1 → below fr1 fresh_pack (blen (pack_of nrecs)) →
  ∃ s', open_packs stamp (reopen s1) = (Ok (), s') ∧ keeps_marked mks s s'.
Proof.
  intros Hrd Hp Hs2 Hsize Hcu Hcat Hpk Hfr Hbel. pose proof Hrd as [Hok Hi _ _ Huq Hsm _ _ Hn _].
  assert (is_idle (catalog s1) = true) as Hi1 by (by rewrite Hcat, (sw_idle _ _ _ _ Hs2)).
  assert (tables_of s1 = tables_of s2) as Ht1 by (unfold tables_of; by rewrite Hcat).
  assert (crashed (opening fresh_pack s1) fr1 nrecs []) as Hcr.
  { split; rewrite ?app_nil_r; [exact Hpk | by eapply put_out_small | done | exact Hfr | exact Hbel | by left | |].
    - change (tables_of (opening fresh_pack s1)) with (tables_of (reopen s1)). rewrite (idle_tables s1 Hi1), Ht1.
      intros id l Hl Hne. by destruct Hne; apply (sw_fresh _ _ _ _ Hs2 _ _ Hl).
    - intros k Hk. change (tables_of (opening fresh_pack s1)) with (tables_of (reopen s1)). rewrite (idle_tables s1 Hi1), Ht1.
      exists (length nrecs). rewrite firstn_all. split_and!.
      + unfold trusted_checkpoint in Hk. change (tables_of (opening fresh_pack s1)) with (tables_of (reopen s1)) in Hk.
        change (active_pack (opening fresh_pack s1)) with fresh_pack in Hk. rewrite (idle_tables s1 Hi1), Ht1 in Hk.
        destruct (sw_checkpoint _ _ _ _ Hs2) as (c & Hc & Hv). rewrite Hc, lookup_singleton, decide_True in Hk by done.
        cbn [mbind option_bind] in Hk. by destruct (_ && _); [injection Hk as <- |].
      + intros kind b Hin. by eapply recs_known.
      + intros id l Hl Hpl. eapply points_to_same; [| by apply (sw_sound _ _ _ _ Hs2)]. cbn. rewrite Hpl. rewrite (sw_packs _ _ _ _ Hs2).
        by rewrite lookup_insert, decide_True. }
  destruct (open_packs_run fresh_pack s1 fr1 nrecs [] Hcu (name_is_valid Hn) Hcr) as (s' & Hrun & Hrec).
  exists s'. split; [done |]. intros id m b Hm Hr.
  assert ((mark_kind m, b) ∈ nrecs) as Hin by (eapply rows_recs; [done | apply elem_of_mark_rows; eauto | done]).
  destruct (read_row _ _ _ _ Hr) as (_ & _ & _ & <-). apply (recovered_record _ _ _ _ _ Hrec Hin). intros k' b'. by apply (Huq _ _ _ k' b' Hr).
Qed.

Lemma fresh_not_tmp : fresh_pack ≠ tmp.
Proof using. unfold pack_name, temporary. by intros ?. Qed.

(** C34 Whenever the process dies while it compacts, between two writes of the new
    pack, before or after its publication, the swap, the rename of [CURRENT], the
    activation or the removal of any of the old packs, the next open recovers the
    packs and every marked object reads as before. *)
Theorem gc_crash_safe s fr recs mks s' :
  gc_ready s fr recs → marks_readable s mks →
  (∀ o nrecs, put_out s (rows_of mks) nrecs o → blen (pack_of nrecs) < 2 ^ 63) →
  dies s mks s' →
  ∃ s'', open_packs stamp (reopen s') = (Ok (), s'') ∧ keeps_marked mks s s''.
Proof.
  intros Hrd Hall Hsize Hdies. pose proof Hrd as [Hok Hi Hop Hrows Huq Hsm Hff Hft Hn Hfr]. pose proof (ok_sound _ Hok) as Hs.
  destruct (write_pack_run s mks Hs Hft Hall) as (o0 & nrecs & Hw0 & Hp). specialize (Hsize _ _ Hp).
  destruct (swap_run s _ _ _ Hp) as (s2' & Hsw0 & Hs2). pose proof (idle_tables s Hi) as Hts.
  pose proof (cr_frontier _ _ _ _ Hop) as Hfro. change (frontier (opening (active_pack s) s)) with (frontier s) in Hfro.
  assert (∀ ps, (∀ name f, packs s !! name = Some f → ps !! name = Some f) →
    ∃ s'', open_packs stamp (reopen (set_packs (λ _, ps) s)) = (Ok (), s'') ∧ keeps_marked mks s s'') as Hold.
  { intros ps Hps. eapply (old_pack_keeps s fr recs mks (set_packs (λ _, ps) s)); [done | done | done | | | by left |].
    - cbn. pose proof (cr_pack _ _ _ _ Hop) as Hpk. cbn in Hpk. rewrite Hpk. by apply Hps.
    - change (tables_of (reopen (set_packs (λ _, ps) s))) with (tables_of (reopen s)). rewrite Hts. intros id l Hl _.
      destruct (Hs _ _ Hl) as (pre & b & post & Hpk & ?). exists pre, b, post. split; [by apply Hps | done].
    - change (tables_of (reopen (set_packs (λ _, ps) s))) with (tables_of (reopen s)). rewrite Hts. intros id m b Hm Hr.
      destruct (read_row _ _ _ _ Hr) as (l & Hl & _). exists l. split; [done |]. destruct (decide (pack l = active_pack s)); [by left | right].
      split; [done |]. rewrite <- Hr. apply read_same.
      + change (tables_of (reopen (set_packs (λ _, ps) s))) with (tables_of (reopen s)). by rewrite Hts.
      + intros l' Hl'. destruct (Hs _ _ Hl') as (pre & c & post & Hpk & _). rewrite Hpk. by apply Hps. }
  assert (∀ name f v w, packs s !! v = None → packs s !! name = Some f → <[v := w]> (packs s) !! name = Some f) as Hins.
  { intros name f v w Hv Hf. rewrite lookup_insert_ne; [done |]. intros ->. congruence. }
  destruct Hdies as [content|o s1 Hw|o s1 s2 Hw Hpu|o s1 s2 s3 Hw Hpu Hsw|o s1 s2 s3 s4 ps Hw Hpu Hsw Hac Hsub Hfp];
    [by apply (Hold (<[tmp := content]> (packs s))); eauto | rewrite Hw0 in Hw; injection Hw as <- <-; rewrite publish_run in * by done..].
  - by apply (Hold (<[fresh_pack := pack_of nrecs]> (packs s))); eauto.
  - injection Hpu as <-. rewrite Hsw0. cbn [snd]. pose proof (sw_frame _ _ _ _ Hs2) as [F1 F2 F3 F4 F5 F6].
    assert (is_idle (catalog s2') = true) as Hi2 by (by rewrite (sw_idle _ _ _ _ Hs2)). pose proof (idle_tables s2' Hi2) as Hts2.
    assert (active_pack s ≠ fresh_pack) as Hne.
    { intros He. pose proof (cr_pack _ _ _ _ Hop) as Hpk. cbn in Hpk. rewrite He in Hpk. congruence. }
    apply (old_pack_keeps s fr recs mks s2' Hrd F3 F1).
    + rewrite (sw_packs _ _ _ _ Hs2). by rewrite lookup_insert_ne.
    + rewrite Hts2. intros id l Hl _. by apply (sw_sound _ _ _ _ Hs2).
    + right. rewrite Hts2. destruct (sw_checkpoint _ _ _ _ Hs2) as (c & -> & _). by rewrite lookup_singleton_ne.
    + rewrite Hts2. intros id m b Hm Hr. pose proof (sw_reads _ _ _ _ Hs2 id (mark_kind m) b) as Hr2.
      destruct (read_row s2' id (mark_kind m) b) as (l & Hl & _); [apply Hr2; [apply elem_of_mark_rows; eauto | done] |].
      exists l. split; [done |]. right. rewrite (sw_fresh _ _ _ _ Hs2 _ _ Hl). split; [done |].
      rewrite <- Hr2; [apply read_same; [by rewrite Hts2 | done] | apply elem_of_mark_rows; eauto | done].
  - injection Hpu as <-. rewrite Hsw0 in Hsw. injection Hsw as <-. pose proof (sw_frame _ _ _ _ Hs2) as [F1 F2 F3 F4 F5 F6].
    apply (new_pack_keeps s fr recs mks o0 nrecs s2' (set_current (Some fresh_pack) s2') fr Hrd Hp Hs2 Hsize); [done | done | | |].
    + cbn. by rewrite (sw_packs _ _ _ _ Hs2), lookup_insert, decide_True.
    + unfold frontier in *. cbn. by rewrite F1.
    + unfold below, durable_len. destruct fr as [f|]; [| done]. cbn. rewrite (Hfr f) by done. apply blen_nonneg.
  - injection Hpu as <-. rewrite Hsw0 in Hsw. injection Hsw as <-.
    destruct (activate_run s2' Hn) as (s4' & Hac' & Hs4); [apply Hs2 | by rewrite (sw_idle _ _ _ _ Hs2) |].
    rewrite Hac in Hac'. injection Hac' as <-.
    assert (packs s2' !! fresh_pack = Some (pack_of nrecs)) as Hpk by (by rewrite (sw_packs _ _ _ _ Hs2), lookup_insert, decide_True).
    assert (∃ fr1, frontier s4 = Ok fr1 ∧ below fr1 fresh_pack (blen (pack_of nrecs))) as (fr1 & Hf1 & Hb1).
    { unfold frontier. destruct (ac_frontier _ _ Hs4) as [->|(f & -> & Hhw)]; [by exists None |]. rewrite from_to. exists (Some f). split; [done |].
      unfold below, durable_len. cbn. destruct (frontier_packs f !! fresh_pack) as [n|] eqn:En; [| apply blen_nonneg]. cbn.
      rewrite (Hhw _ _ En). pose proof (high_water_len s2' fresh_pack (sw_sound _ _ _ _ Hs2)) as Hle. unfold pack_len in Hle. by rewrite Hpk in Hle. }
    apply (new_pack_keeps s fr recs mks o0 nrecs s2' (set_packs (λ _, ps) s4) fr1 Hrd Hp Hs2 Hsize); [| | | done | done].
    + cbn. apply Hs4.
    + cbn. apply Hs4.
    + cbn. rewrite Hfp, (ac_packs _ _ Hs4). done.
Qed.
End Compact.
