(* ===== verification/GcCollect.v ===== *)
(** * GcCollect: what a collection keeps, end to end

    The roots of every workspace, the traversal and the compaction put together:
    what remains is exactly what the roots reach. *)

From S2P Require Import Prelude Framing Model Concrete Refs RefsTheory Retention RetentionTheory Catalog Pack PackTheory Gc GcTheory GcSafety.
#[local] Open Scope Z_scope.

Section Collect.
Context `{B3 : Blake3, !Blake3Ok, JF : Json DurableFrontier, !JsonOk DurableFrontier, JR : Json RefRecord, !JsonOk RefRecord,
          JT : Json RetentionState, !JsonOk RetentionState, JS : Json Snapshot, JTr : Json Tree, JB : Json Blob,
          JI : Json RestoreRoots, JY : Json SyncRoot}.
Variable stamp generation : bytes.

(** The lengths of the marked objects add up without a missing row. *)
Lemma lengths_run s rows n : (∀ id k, (id, k) ∈ rows → is_Some (objects (tables_of s) !! id)) →
  ∃ n', visit_each (λ id _ total, n ← gets (object_len id); n ← lift n; mret (sat_add total n)) rows n s = (Ok n', s).
Proof using.
  revert n. induction rows as [|[id k] rows IH]; intros n Hall; cbn [visit_each]; [by eexists |].
  destruct (Hall id k) as [l Hl]; [left |]. rewrite M_bind_assoc, gets_bind. unfold object_len, stored_location. rewrite Hl.
  cbn [with_context mbind Res_bind]. rewrite M_bind_assoc, lift_ok_bind, mret_bind. apply IH. intros; eapply Hall; by right.
Qed.
Lemma payload_run s mks : marks_readable s mks → ∃ n, reachable_payload_bytes mks s = (Ok n, s).
Proof using.
  intros Hall. unfold reachable_payload_bytes. rewrite paged_all. apply lengths_run.
  intros id k (m & Hm & <-)%elem_of_mark_rows. destruct (Hall _ _ Hm) as [b Hb]. destruct (read_row _ _ _ _ Hb) as (l & Hl & _). by eexists.
Qed.

Lemma reached_same s s' rts id m : (∀ i k, read_located i k s' = read_located i k s) → reached s rts id m → reached s' rts id m.
Proof using.
  intros Hrd. induction 1 as [id k Hk|id k b m es id' k' m' _ IH Hr He Hin|id m m' _ IH1 _ IH2].
  - by apply reached_root.
  - eapply reached_edge; [exact IH | by rewrite Hrd | done | done].
  - by apply reached_join.
Qed.

Lemma logs_only_view w w' : logs_only w w' →
  packs (world_store w') = packs (world_store w) ∧ catalog (world_store w') = catalog (world_store w) ∧
  (∀ i k, read_located i k (world_store w') = read_located i k (world_store w)) ∧
  (store_ok (world_store w) → store_ok (world_store w')).
Proof using.
  intros [Hs _]. rewrite Hs. cbn. split_and!; [done.. |]. intros [P1 P2 P3 P4]. by split.
Qed.

(** A store a collection may start on: in order, no transaction open, no
    leftover under the temporary name; every workspace with logs that a crash
    may have left torn. *)
Record collectable (w : World) : Prop := {
  cw_ok : store_ok (world_store w);
  cw_idle : is_idle (catalog (world_store w)) = true;
  cw_tmp : packs (world_store w) !! temporary generation = None;
  cw_name : slash ∉ generation;
  cw_acyclic : no_self_reference (world_store w);
  cw_logs : ∀ id, is_Some (dirs w !! id) → ∃ sts rs, ws_logs w id sts rs;
}.
Definition workspaces (w : World) : list bytes := (map_to_list (dirs w)).*1.

Lemma elem_of_workspaces w id : id ∈ workspaces w ↔ is_Some (dirs w !! id).
Proof using.
  unfold workspaces. rewrite list_elem_of_fmap. split.
  - intros ([i d] & -> & Hd%elem_of_map_to_list). by eexists.
  - intros [d Hd]. exists (id, d). by split; [| apply elem_of_map_to_list].
Qed.
Lemma NoDup_workspaces w : NoDup (workspaces w).
Proof using. apply NoDup_fst_map_to_list. Qed.

(** What stops a collection: a retention state too large for its log, an intent or
    an incoming sync that does not decode, or a reachable object that is missing,
    of another kind or does not decode. *)
Definition blocked (now : Z) (w : World) : Prop :=
  (∃ id, id ∈ workspaces w ∧ (unfit now id w ∨ undecodable id w)) ∨
  (∃ ess id k, Forall2 (ws_roots now w) (workspaces w) ess ∧
     reached (world_store w) (mark_edges ∅ (concat ess)) id (mask k) ∧ broken (world_store w) id k).

(** Roots and marks of a collection, real or dry, up to the decision to compact. *)
Lemma marking_phase (persist : bool) fuel now w :
  collectable w → (17 * base.size (objects (tables_of (world_store w))) < fuel)%nat →
  ∃ r w', (summary ← enqueue_roots now persist (workspaces w) (mkSummary 0 0 0); finished ← traverse stamp fuel; mret (summary, finished))
            (mkWorld (world_store w) (dirs w) ∅) = (r, w') ∧ logs_only w w' ∧
    match r with
    | Ok (_, Some ()) => ∃ ess, Forall2 (ws_roots now w) (workspaces w) ess ∧ marks_readable (world_store w) (marks w') ∧
        (∀ id m, reached (world_store w) (mark_edges ∅ (concat ess)) id m → has_mask (marks w') id m) ∧
        (∀ id k, marks w' !! id = Some k → reached (world_store w) (mark_edges ∅ (concat ess)) id (mask k))
    | Ok (_, None) => False
    | Err _ => blocked now w
    end.
Proof.
  intros [Hok Hi Ht Hn Hns Hlogs] Hf. set (w0 := mkWorld (world_store w) (dirs w) ∅).
  destruct (enqueue_roots_run persist now (workspaces w) w0 (mkSummary 0 0 0)) as (r & w1 & Hrun & Hl & Hr).
  { apply NoDup_workspaces. }
  { intros id Hid. apply elem_of_workspaces, Hlogs in Hid as (sts & rs & [P1 P2 P3 P4 P5]). by exists sts, rs. }
  assert (logs_only w w1) as Hl1 by (destruct Hl; by split).
  destruct r as [summary|e]; [| exists (Err e), w1; split; [by apply M_bind_err | split; [done | left]]].
  2: { destruct Hr as (id & Hid & Hor). exists id. split; [done |]. destruct Hor as [(sts & rs & [P1 P2 P3 P4 P5] & Hun)|Hun]; [left | by right].
       exists sts, rs. split; [by split | done]. }
  rewrite (M_bind_run _ _ _ _ _ Hrun). destruct Hr as (ess & Hess & Hm).
  destruct (logs_only_view w w1 Hl1) as (Hp & Hc & Hrd & Hok1).
  assert (Forall2 (ws_roots now w) (workspaces w) ess) as Hess'.
  { eapply Forall2_impl; [exact Hess |]. intros id es (sts & rs & st & d & [P1 P2 P3 P4 P5] & ?). exists sts, rs, st, d. by split. }
  assert (marking (world_store w1) (mark_edges ∅ (concat ess)) (marks w1)) as Hmk by (rewrite Hm; apply marking_roots).
  destruct (traverse_run stamp fuel w1 (mark_edges ∅ (concat ess))) as (r & mks & Htr & Hr).
  - by apply Hok1.
  - intros id k b m es Hread. eapply Hns. by rewrite <- Hrd.
  - rewrite Hm. by eapply roots_narrow.
  - done.
  - assert (tables_of (world_store w1) = tables_of (world_store w)) as Htb by (unfold tables_of; by rewrite Hc).
    pose proof (turns_bound (world_store w1) (marks w1)) as Hb. rewrite Htb in Hb. lia.
  - set (w2 := mkWorld (world_store w1) (dirs w1) mks) in *. assert (logs_only w w2) as Hl2 by (destruct Hl1; by split).
    destruct r as [[[]|]|e]; [| done |].
    2: { exists (Err e), w2. split; [by apply M_bind_err |]. split; [done |]. right. destruct Hr as (id & k & Hre & Hbr). exists ess, id, k.
         split_and!; [done | by eapply reached_same; [| exact Hre] |]. intros b es. rewrite <- Hrd. apply Hbr. }
    rewrite (M_bind_run _ _ _ _ _ Htr). eexists _, w2. split; [done |]. split; [done |]. destruct Hr as [Hmk2 Hall].
    exists ess. split_and!; [done | | |].
    + intros id k Hk. destruct (mk_closed _ _ _ Hmk2 _ _ Hk (Hall _ _ Hk)) as (b & es & Hread & _). exists b. by rewrite <- Hrd.
    + intros id m Hre. eapply marking_complete; [exact Hmk2 | done |]. by eapply reached_same; [| exact Hre].
    + intros id k Hk. eapply reached_same; [| by eapply mk_sound]. done.
Qed.

(** What a collection leaves. *)
Record collected (w w' : World) (rts : MarkDatabase) (report : GcReport) : Prop := {
  co_ok : store_ok (world_store w');
  co_exact : ∀ id, is_Some (objects (tables_of (world_store w')) !! id) ↔ ∃ m, reached (world_store w) rts id m;
  co_reads : ∀ id m, reached (world_store w) rts id m →
    ∃ k b, read_located id k (world_store w) = Ok b ∧ read_located id k (world_store w') = Ok b;
  co_packs : ∀ name f, packs (world_store w') !! name = Some f → is_pack_file name = true →
    name = pack_name generation ∧ physical_bytes_after report = blen f;
  co_count : reachable_objects report = Z.of_nat (base.size (objects (tables_of (world_store w'))));
}.

Lemma M_bind_pair {S A B C} (m : M S A) (n : A → M S B) (k : A → B → M S C) s :
  (a ← m; b ← n a; k a b) s = ('(a, b) ← (a ← m; b ← n a; mret (a, b)); k a b) s.
Proof using. unfold mbind, M_bind. destruct (m s) as [[a|e] s1]; [| done]. by destruct (n a s1) as [[b|e] s2]. Qed.

(** The run, cut at the decision to compact. *)
Lemma collect_phases fuel dry now w : collect_locked_at stamp generation None fuel dry now w =
  ('(summary, finished) ← (summary ← enqueue_roots now (negb dry) (workspaces w) (mkSummary 0 0 0); finished ← traverse stamp fuel; mret (summary, finished));
   match finished with
   | None => mret None
   | Some () =>
     k ← gets marks;
     let reachable := Z.of_nat (base.size k) in
     total ← gets (λ w, objects_count (tables_of (world_store w)));
     total_payload ← gets (λ w, object_payload_bytes (tables_of (world_store w)));
     payload ← on_store (reachable_payload_bytes k);
     before ← gets (λ w, physical_bytes (world_store w));
     let report after :=
       mkReport dry (roots summary) reachable (sat_sub total reachable) payload (sat_sub total_payload payload)
         before after (sat_sub before after) (Gc.published summary) (kept summary) (sat_sub (Gc.published summary) (kept summary)) in
     if dry then mret (Some (report (sat_add payload (reachable * RECORD_OVERHEAD))))
     else after ← on_store (compact stamp generation None k); mret (Some (report after))
   end) (mkWorld (world_store w) (dirs w) ∅).
Proof using.
  unfold collect_locked_at, on_marks, put. unfold mbind at 1, M_bind at 1. rewrite gets_bind. apply M_bind_pair.
Qed.

(** Nothing of the packs or the catalog changed. *)
Definition objects_untouched (w w' : World) : Prop :=
  packs (world_store w') = packs (world_store w) ∧ catalog (world_store w') = catalog (world_store w).

Lemma compact_collected w w2 rts total totalp payload summary before :
  collectable w → logs_only w w2 → marks_readable (world_store w) (marks w2) →
  (∀ id m, reached (world_store w) rts id m → has_mask (marks w2) id m) →
  (∀ id k, marks w2 !! id = Some k → reached (world_store w) rts id (mask k)) →
  ∃ after w', on_store (compact stamp generation None (marks w2)) w2 = (Ok after, w') ∧
    collected w w' rts (mkReport false (roots summary) (Z.of_nat (base.size (marks w2))) (sat_sub total (Z.of_nat (base.size (marks w2)))) payload
      (sat_sub totalp payload) before after (sat_sub before after) (Gc.published summary) (kept summary) (sat_sub (Gc.published summary) (kept summary))).
Proof.
  intros [Hok Hi Ht Hn Hns Hlogs] Hl Hall Hcomp Hsnd. destruct (logs_only_view w w2 Hl) as (Hp & Hc & Hrd & Hok2).
  destruct (compact_run stamp generation None (marks w2) (world_store w2) eq_refl) as (n & s' & Hrun & Hok' & Hkeep & Hdom & Hpk).
  - by apply Hok2.
  - by rewrite Hc.
  - by rewrite Hp.
  - done.
  - intros id m Hm. rewrite Hrd. by apply Hall.
  - exists n, (mkWorld s' (dirs w2) (marks w2)). split; [unfold on_store; by rewrite Hrun |].
    assert (∀ id, is_Some (marks w2 !! id) ↔ ∃ m, reached (world_store w) rts id m) as Hiff.
    { intros id. split; [intros [k Hk]; exists (mask k); auto |]. intros [m Hm]. destruct (Hcomp _ _ Hm) as (k & Hk & _). by eexists. }
    split; cbn.
    + done.
    + intros id. by rewrite Hdom.
    + intros id m Hm. destruct (Hcomp _ _ Hm) as (k & Hk & _). destruct (Hall _ _ Hk) as [b Hb]. exists (mark_kind k), b.
      split; [done |]. apply (Hkeep _ _ _ Hk). by rewrite Hrd.
    + intros name f Hf Hpf. by apply Hpk.
    + rewrite <- !(size_dom (D := gset ObjectId)). f_equal. f_equal. apply set_eq. intros id. by rewrite !elem_of_dom, Hdom.
Qed.

(** ** Properties *)

(** C33 A collection ends. When it answers, the store is in order, it holds exactly
    the objects the retained snapshots, restore intents and incoming syncs of all
    workspaces reach, each reads as before, and only the new pack is left. When
    it fails, a reachable object was broken, an intent did not decode or a
    retention state did not fit its log, and no object was touched. *)
Theorem collect_spec fuel now w :
  collectable w → (17 * base.size (objects (tables_of (world_store w))) < fuel)%nat →
  match collect_locked_at stamp generation None fuel false now w with
  | (Ok (Some report), w') => ∃ ess, Forall2 (ws_roots now w) (workspaces w) ess ∧
      collected w w' (mark_edges ∅ (concat ess)) report
  | (Ok None, _) => False
  | (Err _, w') => blocked now w ∧ objects_untouched w w'
  end.
Proof.
  intros Hw Hf. rewrite collect_phases. destruct (marking_phase true fuel now w Hw Hf) as (r & w2 & Hrun & Hl & Hr).
  destruct (logs_only_view w w2 Hl) as (Hp & Hc & Hrd & Hok2). cbn [negb].
  destruct r as [[summary [[]|]]|e]; [| done | by rewrite (M_bind_err _ _ _ _ _ Hrun)].
  rewrite (M_bind_run _ _ _ _ _ Hrun), gets_bind. destruct Hr as (ess & Hess & Hall & Hcomp & Hsnd). cbv zeta. rewrite !gets_bind.
  destruct (payload_run (world_store w2) (marks w2)) as [n Hpay]; [intros id k Hk; rewrite Hrd; by apply Hall |].
  assert (on_store (reachable_payload_bytes (marks w2)) w2 = (Ok n, w2)) as Hpay2 by (unfold on_store; rewrite Hpay; by destruct w2).
  rewrite (M_bind_run _ _ _ _ _ Hpay2), gets_bind.
  edestruct (compact_collected w w2 (mark_edges ∅ (concat ess))) as (after & w' & Hcr & Hco); [done.. |].
  rewrite (M_bind_run _ _ _ _ _ Hcr). exists ess. split; [done | exact Hco].
Qed.

(** A dry collection touches no object, and counts as reachable exactly what a
    real one would keep. *)
Theorem dry_collect_spec fuel now w :
  collectable w → (17 * base.size (objects (tables_of (world_store w))) < fuel)%nat →
  match collect_locked_at stamp generation None fuel true now w with
  | (Ok (Some report), w') => objects_untouched w w' ∧ ∃ ess kept, Forall2 (ws_roots now w) (workspaces w) ess ∧
      NoDup kept ∧ (∀ id, id ∈ kept ↔ ∃ m, reached (world_store w) (mark_edges ∅ (concat ess)) id m) ∧
      reachable_objects report = Z.of_nat (length kept)
  | (Ok None, _) => False
  | (Err _, w') => blocked now w ∧ objects_untouched w w'
  end.
Proof.
  intros Hw Hf. rewrite collect_phases. destruct (marking_phase false fuel now w Hw Hf) as (r & w2 & Hrun & Hl & Hr).
  destruct (logs_only_view w w2 Hl) as (Hp & Hc & Hrd & Hok2). cbn [negb].
  destruct r as [[summary [[]|]]|e]; [| done | by rewrite (M_bind_err _ _ _ _ _ Hrun)].
  rewrite (M_bind_run _ _ _ _ _ Hrun), gets_bind. destruct Hr as (ess & Hess & Hall & Hcomp & Hsnd). cbv zeta. rewrite !gets_bind.
  destruct (payload_run (world_store w2) (marks w2)) as [n Hpay]; [intros id k Hk; rewrite Hrd; by apply Hall |].
  assert (on_store (reachable_payload_bytes (marks w2)) w2 = (Ok n, w2)) as Hpay2 by (unfold on_store; rewrite Hpay; by destruct w2).
  rewrite (M_bind_run _ _ _ _ _ Hpay2), gets_bind. split; [done |].
  exists ess, (elements (dom (marks w2))). split_and!; [done | apply NoDup_elements | | ].
  - intros id. rewrite elem_of_elements, elem_of_dom. split; [intros [k Hk]; exists (mask k); auto |].
    intros [m Hm]. destruct (Hcomp _ _ Hm) as (k & Hk & _). by eexists.
  - cbn. rewrite <- (size_dom (D := gset ObjectId)). done.
Qed.
End Collect.

(** ** Examples *)

Section Check.
Context `{Blake3}.
(** A row is checked against its pack. *)
Definition points_check (ps : gmap bytes bytes) (id : ObjectId) (l : ObjectLocation) : bool :=
  match ps !! pack l with
  | Some f =>
    let pre := take (Z.to_nat (offset l - HEADER_LEN)) f in
    let b := slice (offset l) (len l) f in
    bool_decide (f = pre ++ object_record (loc_kind l) b ++ drop (Z.to_nat (offset l + len l + 4)) f) &&
    bool_decide (offset l = blen pre + HEADER_LEN) && bool_decide (len l = blen b) && bool_decide (object_id (loc_kind l) b = id)
  | None => false
  end.
Lemma points_check_ok ps id l : points_check ps id l = true → points_to ps id l.
Proof.
  unfold points_check. destruct (ps !! pack l) as [f|] eqn:E; [| done]. rewrite !andb_true_iff, !bool_decide_eq_true.
  intros [[[Hf Ho] Hl] Hi]. eexists _, _, _. rewrite E. split_and!; [by rewrite Hf at 1 | done..].
Qed.
Lemma rows_check s : map_Forall (λ id l, points_check (packs s) id l = true) (objects (tables_of s)) → rows_sound s.
Proof. intros Hall id l Hl. by apply points_check_ok, Hall. Qed.
End Check.

Module GcExample.
#[local] Existing Instances toy_blake3 toy_blake3_ok toy_json toy_json_ok.
#[local] Instance frontier_eq_dec : EqDecision DurableFrontier.
Proof. solve_decision. Defined.
#[local] Instance frontier_countable : Countable DurableFrontier.
Proof. refine (inj_countable' (λ f, (frontier_packs f, frontier_refs f)) (λ '(p, r), mkFrontier p r) _). by intros []. Defined.
(** A snapshot is the id of its tree, every tree is empty. *)
#[local] Instance snapshot_json : Json Snapshot :=
  {| to_vec := root_tree; from_slice := λ b, Some (mkSnapshot b None [] 0 0 Quiescent Manual None [] [] [] [] None) |}.
#[local] Instance tree_json : Json Tree := {| to_vec := λ _, b_ "{}"; from_slice := λ _, Some (mkTree [] []) |}.
#[local] Instance blob_json : Json Blob := {| to_vec := λ _, []; from_slice := λ _, None |}.
#[local] Instance restore_json : Json RestoreRoots := {| to_vec := λ _, []; from_slice := λ _, None |}.
#[local] Instance sync_json : Json SyncRoot := {| to_vec := λ _, []; from_slice := λ _, None |}.

Definition now : bytes := b_ "now".
Definition gen : bytes := b_ "1".
Definition tree_id : ObjectId := object_id TreeKind (b_ "{}").
Definition snap_id : ObjectId := object_id SnapshotKind tree_id.
Definition chunk_id : ObjectId := object_id Chunk (b_ "lost").

(** A timeline of one snapshot, and a chunk nothing names. *)
Definition one_record : list RefRecord := [next_record [] snap_id 10 None Manual].
Definition one_log : RefLog := mkRefLog (Some (mkFile (log_bytes one_record) 1 2 (5, 6) (5, 6))) None (7, 8) (1, 3).
Definition empty_disk : Store :=
  mkStore ∅ (Some INITIAL_PACK_NAME) None None {[ b_ "w" := one_log ]} (mkCatalog empty_tables None ∅ 0 0 false) INITIAL_PACK_NAME None 0 false false.
Definition filled : Store :=
  (batched (_ ← put_bytes now TreeKind (b_ "{}"); _ ← put_bytes now SnapshotKind tree_id; put_bytes now Chunk (b_ "lost")) empty_disk).2.
Definition world : World := mkWorld filled {[ b_ "w" := mkWorkspace None None None ]} ∅.

Lemma filled_rows : map_Forall (λ id l, points_check (packs filled) id l = true) (objects (tables_of filled)).
Proof. apply (bool_decide_eq_true_1 _). by vm_compute. Qed.
Lemma filled_ok : store_ok filled.
Proof. split; [by apply rows_check, filled_rows | by vm_compute | by vm_compute | by vm_compute]. Qed.

(** A snapshot names its tree only. *)
Definition names_other (id : ObjectId) (l : ObjectLocation) : bool :=
  match read_located id (loc_kind l) filled with Ok b => negb (bool_decide (loc_kind l = SnapshotKind ∧ b = id ∨ loc_kind l = BlobKind)) | _ => true end.
Lemma filled_names : map_Forall (λ id l, names_other id l = true) (objects (tables_of filled)).
Proof. apply (bool_decide_eq_true_1 _). by vm_compute. Qed.
Lemma filled_acyclic : no_self_reference filled.
Proof.
  intros id k b m es Hr He. destruct (read_row _ _ _ _ Hr) as (l & Hl & <- & _). pose proof (filled_names id l Hl) as Hn.
  unfold names_other in Hn. rewrite Hr in Hn. apply negb_true_iff, bool_decide_eq_false in Hn. clear Hl Hr.
  destruct (loc_kind l) eqn:Ek; cbn in He; try (injection He as <-; apply not_elem_of_nil); [by destruct Hn; right |].
  injection He as <-. cbn. rewrite list_elem_of_singleton. intros ->. by destruct Hn; left.
Qed.

Lemma one_chained : well_chained one_record.
Proof. split; [by vm_compute |]. constructor; [by vm_compute | done]. Qed.
Lemma one_recoverable : recoverable one_log one_record.
Proof.
  split; [by vm_compute |]. split; [| by left]. exists []. split; [by apply torn_nil |].
  eexists. split_and!; [done | by rewrite app_nil_r | by vm_compute..].
Qed.
Lemma world_logs w (Hd : dirs w = dirs world) (Hl : refs_logs (world_store w) = {[ b_ "w" := one_log ]}) id :
  is_Some (dirs w !! id) → ∃ sts rs, ws_logs w id sts rs.
Proof.
  unfold world in Hd. cbn [dirs] in Hd. rewrite Hd. intros [d Hdir]. assert (id = b_ "w") as -> by by apply lookup_singleton_Some in Hdir as [<- _].
  exists [], one_record. split; unfold timeline_of; rewrite ?Hd, ?Hl, ?lookup_singleton, ?decide_True by done; cbn.
  - by eexists.
  - split; [done |]. exists []. split; [exact ret_torn_nil | done].
  - exact one_chained.
  - exact one_recoverable.
  - by intros p ?%not_elem_of_nil.
Qed.
Lemma world_collectable : collectable gen world.
Proof.
  split; [exact filled_ok | by vm_compute | by vm_compute | | exact filled_acyclic |].
  - intros Hin. apply (bool_decide_eq_true_2 _) in Hin. by vm_compute in Hin.
  - apply world_logs; [done | by vm_compute].
Qed.

Lemma collect_spec_witness : ∃ report w', collect_locked_at now gen None 100 false 20 world = (Ok (Some report), w') ∧
  store_ok (world_store w') ∧ reachable_objects report = 2.
Proof.
  pose proof (collect_spec now gen 100 20 world world_collectable ltac:(by vm_compute; lia)) as Hc.
  assert (match collect_locked_at now gen None 100 false 20 world with (Ok (Some report), _) => reachable_objects report | _ => 0 end = 2) as Hn by by vm_compute.
  destruct (collect_locked_at now gen None 100 false 20 world) as [[[report|]|e] w']; [| done | done].
  exists report, w'. destruct Hc as (ess & _ & Hc). exact (conj eq_refl (conj (co_ok _ _ _ _ _ Hc) Hn)).
Defined.

Lemma dry_collect_spec_witness : ∃ report w', collect_locked_at now gen None 100 true 20 world = (Ok (Some report), w') ∧
  objects_untouched world w' ∧ reachable_objects report = 2.
Proof.
  pose proof (dry_collect_spec now gen 100 20 world world_collectable ltac:(by vm_compute; lia)) as Hc.
  assert (match collect_locked_at now gen None 100 true 20 world with (Ok (Some report), _) => reachable_objects report | _ => 0 end = 2) as Hn by by vm_compute.
  destruct (collect_locked_at now gen None 100 true 20 world) as [[[report|]|e] w']; [| done | done].
  exists report, w'. destruct Hc as [Hc _]. exact (conj eq_refl (conj Hc Hn)).
Defined.

(** A traversal from the snapshot alone. *)
Definition marked : World := mkWorld filled ∅ (mark_edges ∅ [(snap_id, SnapshotKind, ALL_CLASS_MASK)]).
Lemma traverse_spec_witness : ∃ w', traverse now 100 marked = (Ok (Some ()), w') ∧ world_store w' = filled ∧
  has_mask (marks w') snap_id ALL_CLASS_MASK.
Proof.
  pose proof (traverse_spec now 100 marked [(snap_id, SnapshotKind, ALL_CLASS_MASK)] (ok_sound _ filled_ok) filled_acyclic
    ltac:(by repeat constructor; vm_compute) eq_refl ltac:(by vm_compute; lia)) as Hc.
  assert (match traverse now 100 marked with (Ok (Some _), _) => true | _ => false end = true) as Hn by by vm_compute.
  destruct (traverse now 100 marked) as [[[[]|]|e] w']; [| done | done].
  exists w'. destruct Hc as (Hs & Hc & _). split; [done |]. split; [done |].
  apply Hc. apply (reached_root _ _ snap_id (mkMark SnapshotKind ALL_CLASS_MASK false)). unfold marked. cbn [marks]. by vm_compute.
Defined.

(** The roots of the only workspace: its head, with the bytes of scratch files too. *)
Lemma one_fits : state_fits (event [] (planned 20 [] one_record)).
Proof. by vm_compute. Qed.
Lemma world_ws_logs : ws_logs world (b_ "w") [] one_record.
Proof.
  split; unfold timeline_of; [by eexists | | exact one_chained | | by intros p ?%not_elem_of_nil].
  - split; [done |]. exists []. split; [exact ret_torn_nil | by vm_compute].
  - exact one_recoverable.
Qed.
Lemma world_logs_only id : id ∈ [b_ "w"] → ws_logs world id [] one_record.
Proof. intros ->%list_elem_of_singleton. exact world_ws_logs. Qed.
Lemma world_enqueued : match enqueue_roots 20 true [b_ "w"] (mkSummary 0 0 0) world with (Ok _, _) => true | _ => false end = true.
Proof. by vm_compute. Qed.
Lemma retained_are_roots_witness : ∃ sm w', enqueue_roots 20 true [b_ "w"] (mkSummary 0 0 0) world = (Ok sm, w') ∧ queued (marks w') snap_id Scratch.
Proof.
  destruct (retained_are_roots true 20 [b_ "w"] world (mkSummary 0 0 0) (λ _, ([], one_record)) (NoDup_singleton _) world_logs_only eq_refl)
    as (r & w' & Hrun & Hr).
  pose proof world_enqueued as Hok. rewrite Hrun in Hok. destruct r as [sm|]; [| done]. exists sm, w'. split; [exact Hrun |].
  apply Hr. exists (b_ "w"). split; [left |].
  exact (rooted_head 20 world (b_ "w") [] one_record (next_record [] snap_id 10 None Manual) Scratch eq_refl).
Defined.
End GcExample.

(** A process that dies between the swap of the catalog and the rename of
    [CURRENT]. The digest names the two objects of the store apart from everything. *)
Module CrashExample.
Import GcExample.
#[local] Existing Instances toy_json toy_json_ok frontier_eq_dec frontier_countable.
Definition one_preimage : bytes := domain Chunk ++ b_ "one".
Definition two_preimage : bytes := domain Chunk ++ b_ "two".
Definition table_digest (b : bytes) : bytes :=
  replicate 32 (if decide (b = one_preimage) then Byte.x01 else if decide (b = two_preimage) then Byte.x02 else Byte.x00).
#[local] Instance table_blake3 : Blake3 := table_digest.
#[local] Instance table_blake3_ok : Blake3Ok.
Proof. intros b. unfold blake3, table_blake3, table_digest. unfold blen. by rewrite length_replicate. Qed.
Definition one : ObjectId := object_id Chunk (b_ "one").
Definition two : ObjectId := object_id Chunk (b_ "two").

Definition pair_disk : Store :=
  mkStore ∅ (Some INITIAL_PACK_NAME) None None ∅ (mkCatalog empty_tables None ∅ 0 0 false) INITIAL_PACK_NAME None 0 false false.
Definition pair : Store := ((_ ← put_bytes now Chunk (b_ "one"); put_bytes now Chunk (b_ "two")) pair_disk).2.
Definition pair_recs : list (ObjectKind * bytes) := [(Chunk, b_ "one"); (Chunk, b_ "two")].

Definition is_pair (id : ObjectId) (l : ObjectLocation) : bool :=
  match read_located id Chunk pair with
  | Ok b => bool_decide ((id = one ∧ b = b_ "one" ∨ id = two ∧ b = b_ "two") ∧ loc_kind l = Chunk ∧ pack l = INITIAL_PACK_NAME)
  | _ => false
  end.
Lemma pair_rows : map_Forall (λ id l, points_check (packs pair) id l = true ∧ is_pair id l = true) (objects (tables_of pair)).
Proof. apply (bool_decide_eq_true_1 _). by vm_compute. Qed.
Lemma pair_sound : rows_sound pair.
Proof. apply rows_check. intros id l Hl. by apply pair_rows in Hl as [? _]. Qed.
Lemma pair_row id l : objects (tables_of pair) !! id = Some l → loc_kind l = Chunk ∧ pack l = INITIAL_PACK_NAME ∧
  ∃ b, read_located id Chunk pair = Ok b ∧ (id = one ∧ b = b_ "one" ∨ id = two ∧ b = b_ "two").
Proof.
  intros Hl. apply pair_rows in Hl as [_ Hp]. unfold is_pair in Hp. destruct (read_located id Chunk pair) as [b|]; [| done].
  apply bool_decide_eq_true in Hp as (Hor & ? & ?). split_and!; [done | done |]. by exists b.
Qed.
Lemma pair_read id k b : read_located id k pair = Ok b → k = Chunk ∧ (id = one ∧ b = b_ "one" ∨ id = two ∧ b = b_ "two").
Proof.
  intros Hr. destruct (read_row _ _ _ _ Hr) as (l & Hl & Hk & _). destruct (pair_row _ _ Hl) as (Hkd & _ & c & Hc & Hor).
  assert (k = Chunk) as -> by congruence. split; [done |]. assert (b = c) as -> by congruence. exact Hor.
Qed.

Lemma chunk_unique k b (c : bytes) : domain k ++ b = domain Chunk ++ c → k = Chunk ∧ b = c.
Proof. destruct k; cbn; intros [=]; done. Qed.
Lemma table_one x : table_digest x = replicate 32 Byte.x01 → x = one_preimage.
Proof. unfold table_digest. by repeat destruct (decide _). Qed.
Lemma table_two x : table_digest x = replicate 32 Byte.x02 → x = two_preimage.
Proof. unfold table_digest. by repeat destruct (decide _). Qed.
Lemma pair_unique : unique_addresses pair.
Proof.
  intros id k b k' b' Hr Hid. destruct (pair_read _ _ _ Hr) as [-> [[-> ->]|[-> ->]]]; apply chunk_unique.
  - by apply table_one.
  - by apply table_two.
Qed.

Lemma pair_idle : is_idle (catalog pair) = true.
Proof. by vm_compute. Qed.
Lemma pair_active : active_pack pair = INITIAL_PACK_NAME.
Proof. by vm_compute. Qed.
Lemma pair_open : crashed (opening (active_pack pair) pair) None pair_recs [].
Proof.
  split; rewrite ?app_nil_r.
  - by vm_compute.
  - by repeat constructor.
  - by vm_compute.
  - by vm_compute.
  - done.
  - by left.
  - intros id l Hl Hn. rewrite opening_tables in Hl by exact pair_idle. destruct Hn, (pair_row _ _ Hl) as (_ & Hp & _).
    by rewrite opening_active, pair_active, Hp.
  - assert (trusted_checkpoint (opening (active_pack pair) pair) (pack_of pair_recs) None = None) as -> by by vm_compute. done.
Qed.
Lemma pair_ready : gc_ready gen pair None pair_recs.
Proof.
  split; [| by vm_compute | exact pair_open | | exact pair_unique | | by vm_compute | by vm_compute | | done].
  - split; [exact pair_sound | by vm_compute..].
  - intros id l Hl _. destruct (pair_row _ _ Hl) as (_ & _ & b & _ & [[-> _]|[-> _]]); [exists Chunk, (b_ "one") | exists Chunk, (b_ "two")]; (split; [| done]); [left | right; left].
  - intros id k b Hr. by destruct (pair_read _ _ _ Hr) as [_ [[_ ->]|[_ ->]]].
  - intros Hin. apply (bool_decide_eq_true_2 _) in Hin. by vm_compute in Hin.
Qed.

(** Only the first object is kept. *)
Definition keep_one : MarkDatabase := {[ one := mkMark Chunk 0 true ]}.
Lemma keep_readable : marks_readable pair keep_one.
Proof. intros id m Hm. unfold keep_one in Hm. apply lookup_singleton_Some in Hm as [<- <-]. exists (b_ "one"). by vm_compute. Qed.
Lemma keep_rows : rows_of keep_one = [(one, Chunk)].
Proof. by vm_compute. Qed.
Lemma pair_small o nrecs : put_out pair (rows_of keep_one) nrecs o → blen (pack_of nrecs) < 2 ^ 63.
Proof.
  intros [Hr _ _ _ _ _]. rewrite keep_rows in Hr. apply Forall2_cons_inv_l in Hr as ([k b] & l' & [_ Hb] & Hnil & ->).
  apply Forall2_nil_inv_l in Hnil as ->. cbn [fst snd] in Hb.
  destruct (pair_read _ _ _ Hb) as [_ [[_ ->]|[_ ->]]]; by destruct k; vm_compute.
Qed.
Definition swapped_store : Store :=
  match write_pack now gen keep_one pair with
  | (Ok o, s1) => (swap_catalog gen o (publish_pack gen s1).2).2
  | _ => pair
  end.
Lemma pair_dies : dies now gen pair keep_one swapped_store.
Proof.
  unfold swapped_store. assert (is_ok (write_pack now gen keep_one pair).1 = true) as Hok by by vm_compute.
  destruct (write_pack now gen keep_one pair) as [[o|e] s1] eqn:E; [| done]. by eapply dies_swapped.
Qed.
Lemma gc_crash_safe_witness :
  ∃ s'', open_packs now (reopen swapped_store) = (Ok (), s'') ∧ read_located one Chunk s'' = Ok (b_ "one").
Proof.
  destruct (gc_crash_safe now gen pair None pair_recs keep_one swapped_store pair_ready keep_readable pair_small pair_dies) as (s'' & Hrun & Hk).
  exists s''. split; [exact Hrun |]. apply (Hk one (mkMark Chunk 0 true)); [by vm_compute | by vm_compute].
Defined.
End CrashExample.
