(* ===== verification/Paths.v ===== *)
(** * Paths: relative paths as the program reads them ([furrow-core/src/repository.rs])

    A tree key is the raw bytes of a relative path; [std::path::Path] reads such
    bytes as components. A place on disk is the list of names below the root of
    the workspace. *)

From S2P Require Import Prelude Model.
#[local] Open Scope Z_scope.

(** ** [std::path::Path] *)

Inductive Component := RootDir | CurDir | ParentDir | Normal (name : bytes).
#[export] Instance Component_eq_dec : EqDecision Component.
Proof. solve_decision. Defined.

Definition component_of (piece : bytes) : option Component :=
  if bool_decide (piece = []) then None
  else if bool_decide (piece = b_ ".") then None
  else if bool_decide (piece = b_ "..") then Some ParentDir
  else Some (Normal piece).
(** Repeated separators and inner dots do not count. *)
Definition components (path : bytes) : list Component :=
  let pieces := split_on slash path in
  let lead := match path with
              | [] => []
              | x :: _ => if bool_decide (x = slash) then [RootDir]
                          else if bool_decide (head pieces = Some (b_ ".")) then [CurDir] else []
              end in
  lead ++ omap component_of pieces.

(** [Path::starts_with]; [==] compares components too. *)
Definition path_starts_with (path base : bytes) : bool := bool_decide (components base `prefix_of` components path).
Definition path_eq (path other : bytes) : bool := bool_decide (components path = components other).

(** A place below the root of the workspace. *)
Abbreviation Place := (list bytes).
(** Its tree key. *)
Definition raw (p : Place) : bytes := join_with slash p.
Definition parent (p : Place) : Place := take (pred (length p)) p.

(** ** The helpers of the restore *)

Definition validate_name (name : bytes) : Res () :=
  _ ← ensure (negb (bool_decide (name = []))) "empty path component in snapshot";
  _ ← ensure (negb (bool_decide (name = b_ ".")) && negb (bool_decide (name = b_ ".."))) "unsafe path component in snapshot";
  ensure (negb (bool_decide (Byte.x00 ∈ name)) && negb (bool_decide (slash ∈ name))) "invalid path component in snapshot".

Fixpoint normals (cs : list Component) : option (list bytes) :=
  match cs with
  | [] => Some []
  | Normal name :: cs => names ← normals cs; Some (name :: names)
  | _ => None
  end.
(** [root.join(path)], which the model leaves as the names below [root]. *)
Definition safe_join (relative : bytes) : Res Place := with_context (normals (components relative)) "unsafe rewind path".

Definition validate_relative_path (path : bytes) : Res () :=
  ensure (bool_decide (is_Some (normals (components path)))) "invalid changed path".

(** The position of the last separator. *)
Fixpoint rposition (path : bytes) : option nat :=
  match path with
  | [] => None
  | x :: path => match rposition path with
                 | Some at_ => Some (S at_)
                 | None => if decide (x = slash) then Some O else None
                 end
  end.
Definition split_parent (path : bytes) : bytes * bytes :=
  match rposition path with
  | Some at_ => (take at_ path, drop (S at_) path)
  | None => ([], path)
  end.

Definition selected (path : bytes) (selections : list bytes) : bool :=
  match selections with
  | [] => true
  | _ => existsb (λ selection, path_eq path selection || path_starts_with path selection) selections
  end.
Definition subtree_intersects (path : bytes) (selections : list bytes) : bool :=
  match selections with
  | [] => true
  | _ => existsb (λ selection, path_starts_with path selection || path_starts_with selection path) selections
  end.

Definition is_identity_path (path : bytes) : bool := bool_decide (path = b_ ".furrow") || starts_with path (b_ ".furrow/").
Definition merge_path_allowed (path : bytes) : bool :=
  negb (bool_decide (path = b_ ".furrow")) && negb (bool_decide (path = b_ ".git")) && negb (starts_with path (b_ ".git/")).

(** The key of an entry under a prefix. *)
Definition key_under (prefix name : bytes) : bytes :=
  (match prefix with [] => [] | _ => prefix ++ [slash] end) ++ name.

(** ** Names a tree may hold *)

Definition valid_name (name : bytes) : Prop := validate_name name = Ok ().
Definition valid_place (p : Place) : Prop := Forall valid_name p.
#[export] Instance valid_name_dec name : Decision (valid_name name).
Proof. unfold valid_name. destruct (validate_name name) as [[]|e]; [by left | by right]. Defined.
#[export] Instance valid_place_dec p : Decision (valid_place p) := Forall_dec _ p.

(** ** What the helpers say of valid places *)

Lemma validate_name_ok name :
  valid_name name ↔
    name ≠ [] ∧ name ≠ b_ "." ∧ name ≠ b_ ".." ∧ Byte.x00 ∉ name ∧ slash ∉ name.
Proof.
  unfold valid_name, validate_name. split.
  - intros H. res_inv. rewrite !andb_true_iff, !negb_true_iff in *. repeat case_bool_decide; naive_solver.
  - intros (? & ? & ? & ? & ?). rewrite !bool_decide_eq_false_2 by done. done.
Qed.

Lemma valid_no_slash name : valid_name name → slash ∉ name.
Proof. intros H%validate_name_ok. naive_solver. Qed.
Lemma valid_not_nil name : valid_name name → name ≠ [].
Proof. intros H%validate_name_ok. naive_solver. Qed.
Lemma valid_place_app p q : valid_place (p ++ q) ↔ valid_place p ∧ valid_place q.
Proof. apply Forall_app. Qed.
Lemma valid_place_snoc p name : valid_place (p ++ [name]) ↔ valid_place p ∧ valid_name name.
Proof. rewrite valid_place_app. unfold valid_place. by rewrite Forall_singleton. Qed.

Lemma split_join_slash p : p ≠ [] → Forall (slash ∉.) p → split_on slash (join_with slash p) = p.
Proof.
  intros Hne H. induction H as [|x p Hx Hp IH]; [done |].
  destruct p as [|y p]; [by apply split_on_piece |].
  change (join_with slash (x :: y :: p)) with (x ++ slash :: join_with slash (y :: p)).
  by rewrite split_on_app, IH.
Qed.

Lemma valid_place_slash p : valid_place p → Forall (slash ∉.) p.
Proof. intros H. eapply (List.Forall_impl _ valid_no_slash), H. Qed.

Lemma raw_inj p q : valid_place p → valid_place q → raw p = raw q → p = q.
Proof.
  intros Hp Hq. assert (∀ p, valid_place p → raw p = [] → p = []) as Hnil.
  { intros [|x [|y l]] Hv; [done | |].
    - inversion_clear Hv as [|?? Hx]. intros E. by apply valid_not_nil in Hx.
    - intros E. by destruct x. }
  destruct (decide (p = [])) as [->|Hpe]; [intros E; by rewrite Hnil |].
  destruct (decide (q = [])) as [->|Hqe]; [intros E; by rewrite (Hnil p) |].
  intros E. rewrite <- (split_join_slash p), <- (split_join_slash q) by auto using valid_place_slash. by f_equal.
Qed.
Lemma raw_nil p : valid_place p → raw p = [] → p = [].
Proof. intros Hp E. apply (raw_inj p []); [done | constructor | done]. Qed.

Lemma split_raw p : valid_place p → p ≠ [] → split_on slash (raw p) = p.
Proof. intros Hp Hne. apply split_join_slash; [done | by apply valid_place_slash]. Qed.

Lemma join_snoc p name : p ≠ [] → join_with slash (p ++ [name]) = join_with slash p ++ slash :: name.
Proof.
  intros Hne. induction p as [|x p IH]; [done |]. destruct p as [|y p]; [done |].
  change (join_with slash ((x :: y :: p) ++ [name])) with (x ++ slash :: join_with slash ((y :: p) ++ [name])).
  rewrite IH by done. simpl. by rewrite <- app_assoc.
Qed.

Lemma key_under_raw p name : valid_place p → key_under (raw p) name = raw (p ++ [name]).
Proof.
  intros Hp. unfold key_under. destruct (decide (p = [])) as [->|Hne]; [done |].
  assert (raw (p ++ [name]) = raw p ++ slash :: name) as -> by by apply join_snoc.
  destruct (raw p) eqn:E; [by apply raw_nil in E |]. simpl. by rewrite <- app_assoc.
Qed.

Lemma component_of_valid name : valid_name name → component_of name = Some (Normal name).
Proof.
  intros (? & ? & ? & ? & ?)%validate_name_ok. unfold component_of. by rewrite !bool_decide_eq_false_2.
Qed.

Lemma components_raw p : valid_place p → components (raw p) = map Normal p.
Proof.
  intros Hp. unfold components. destruct (decide (p = [])) as [->|Hne]; [done |].
  rewrite split_raw by done. destruct p as [|n p]; [done |].
  inversion_clear Hp as [|?? Hn Hp']. pose proof Hn as (Hne0 & Hd & _ & _ & Hs)%validate_name_ok.
  assert (∃ x r, raw (n :: p) = x :: r ∧ x ≠ slash) as (x & r & -> & Hx).
  { destruct n as [|x n]; [done |]. assert (x ≠ slash) by (intros ->; apply Hs; left). destruct p; eexists _, _; by split. }
  rewrite bool_decide_eq_false_2 by done. cbn [head].
  rewrite bool_decide_eq_false_2 by congruence. cbn [app]. clear - Hn Hp'.
  assert (valid_place (n :: p)) as H by by constructor. clear Hn Hp'. generalize dependent (n :: p). clear. intros p.
  induction 1 as [|n p Hn Hp IH]; [done |]. cbn [omap list_omap map]. rewrite component_of_valid by done. by f_equal.
Qed.

Lemma normals_map p : normals (map Normal p) = Some p.
Proof. induction p as [|x p IH]; [done |]. simpl. by rewrite IH. Qed.
Lemma safe_join_raw p : valid_place p → safe_join (raw p) = Ok p.
Proof. intros H. unfold safe_join. by rewrite components_raw, normals_map. Qed.

(** A directory sorts before what it holds and has the shorter key. *)
Lemma raw_strict_prefix p q : valid_place q → p `prefix_of` q → p ≠ q → ∃ x r, raw q = raw p ++ x :: r.
Proof.
  intros Hq [t ->] Hne. apply valid_place_app in Hq as [Hp Ht].
  destruct t as [|n t]; [by rewrite app_nil_r in Hne |]. inversion_clear Ht as [|?? Hn _].
  clear Hne. destruct (decide (p = [])) as [->|Hpe].
  { pose proof (valid_not_nil _ Hn). destruct n as [|x n]; [done |]. destruct t; eexists _, _; simpl; reflexivity. }
  induction Hp as [|m p Hm Hp IH]; [done |]. destruct p as [|m' p].
  - exists slash, (raw (n :: t)). done.
  - destruct IH as (x & r & E); [done |]. exists x, r.
    change (raw ((m :: m' :: p) ++ n :: t)) with (m ++ slash :: raw ((m' :: p) ++ n :: t)).
    change (raw (m :: m' :: p)) with (m ++ slash :: raw (m' :: p)). rewrite E. by rewrite <- app_assoc.
Qed.
Lemma bytes_cmp_extend a x r : bytes_cmp a (a ++ x :: r) = Lt.
Proof. induction a as [|y a IH]; [done |]. simpl. by rewrite (proj2 (byte_compare_eq y y) eq_refl). Qed.
Lemma raw_blt p q : valid_place q → p `prefix_of` q → p ≠ q → blt (raw p) (raw q).
Proof. intros Hq Hp Hne. destruct (raw_strict_prefix p q Hq Hp Hne) as (x & r & ->). apply bytes_cmp_extend. Qed.
Lemma raw_shorter p q : valid_place q → p `prefix_of` q → p ≠ q → (length (raw p) < length (raw q))%nat.
Proof.
  intros Hq Hp Hne. destruct (raw_strict_prefix p q Hq Hp Hne) as (x & r & ->). rewrite length_app. simpl. lia.
Qed.

(** ** Parents *)

Lemma parent_snoc p name : parent (p ++ [name]) = p.
Proof. unfold parent. rewrite length_app, Nat.add_1_r. cbn [pred]. apply take_app_length. Qed.
Lemma place_cases (p : Place) : p = [] ∨ ∃ q name, p = q ++ [name].
Proof. destruct p as [|n p _] using rev_ind; eauto. Qed.
Lemma parent_prefix p : parent p `prefix_of` p.
Proof. unfold parent. apply prefix_take. Qed.
Lemma parent_ne p : p ≠ [] → parent p ≠ p.
Proof.
  destruct (place_cases p) as [->|(q & n & ->)]; [done |]. intros _ E. rewrite parent_snoc in E.
  apply (f_equal length) in E. rewrite length_app in E. simpl in E. lia.
Qed.
Lemma strict_prefix_parent (a p : Place) : a `prefix_of` p → a ≠ p → a `prefix_of` parent p.
Proof.
  intros Ha Hne. destruct (place_cases p) as [->|(q & n & ->)].
  - by apply prefix_nil_inv in Ha.
  - rewrite parent_snoc. destruct Ha as [t E]. destruct (place_cases t) as [->|(t' & m & ->)].
    + by rewrite app_nil_r in E.
    + rewrite app_assoc in E. apply app_inj_tail in E as [-> _]. by exists t'.
Qed.
Lemma prefix_parent (a p : Place) : p ≠ [] → a `prefix_of` parent p → a `prefix_of` p ∧ a ≠ p.
Proof.
  intros Hp Ha. split; [by trans (parent p); [| apply parent_prefix] |].
  intros ->. apply (parent_ne p Hp). apply (anti_symm prefix); [apply parent_prefix | done].
Qed.
Lemma parent_above (p : Place) : p ≠ [] → ¬ p `prefix_of` parent p.
Proof. intros Hp [_ Hne]%prefix_parent; done. Qed.
Lemma valid_prefix p q : p `prefix_of` q → valid_place q → valid_place p.
Proof. intros [t ->] H. by apply valid_place_app in H as [? _]. Qed.

(** ** Selections *)

Lemma map_Normal_prefix cs p q : cs `prefix_of` map Normal p → p `prefix_of` q → cs `prefix_of` map Normal q.
Proof. intros H [t ->]. rewrite map_app. by apply prefix_app_r. Qed.
Lemma selected_starts p sels :
  valid_place p → selected (raw p) sels = true ↔ sels = [] ∨ ∃ s, s ∈ sels ∧ components s `prefix_of` map Normal p.
Proof.
  intros Hp. destruct sels as [|s sels]; [split; [by left | done] |].
  change (selected (raw p) (s :: sels)) with
    (existsb (λ selection, path_eq (raw p) selection || path_starts_with (raw p) selection) (s :: sels)).
  rewrite existsb_exists. setoid_rewrite <- list_elem_of_In. unfold path_eq, path_starts_with.
  setoid_rewrite orb_true_iff. setoid_rewrite bool_decide_eq_true. rewrite components_raw by done. split.
  - intros (x & Hx & [E|H]); right; exists x; (split; [done |]); [by rewrite <- E | done].
  - intros [?|(x & Hx & H)]; [done |]. exists x. auto.
Qed.
(** What lies below a selected path is selected, and a selection is reached from above. *)
Lemma selected_below p q sels :
  valid_place q → p `prefix_of` q → selected (raw p) sels = true → selected (raw q) sels = true.
Proof.
  intros Hq Hpq. rewrite !selected_starts by eauto using valid_prefix.
  intros [?|(s & Hs & H)]; [by left | right]. exists s. split; [done |]. by eapply map_Normal_prefix.
Qed.
Lemma selected_intersects p q sels :
  valid_place q → p `prefix_of` q → selected (raw q) sels = true → subtree_intersects (raw p) sels = true.
Proof.
  intros Hq Hpq. rewrite selected_starts by done. intros [->|(s & Hs & H)]; [done |].
  destruct sels as [|s0 sels]; [by apply not_elem_of_nil in Hs |].
  unfold subtree_intersects. apply existsb_exists. exists s. split; [by apply list_elem_of_In |].
  unfold path_starts_with. rewrite components_raw by eauto using valid_prefix.
  apply orb_true_iff. setoid_rewrite bool_decide_eq_true. destruct Hpq as [t ->]. rewrite map_app in H.
  destruct H as [u H]. symmetry in H. apply app_eq_inv in H as [(k & -> & _)|(k & -> & _)].
  - right. by eexists.
  - left. by eexists.
Qed.
