(* ===== verification/Disk.v ===== *)
(** * Disk: the file system under a workspace

    What the standard library's calls do to a POSIX directory tree: one inode per
    place below the root, with its kind, mode, times and attributes. Two places
    with one inode number are hard links of one file. A directory's times move
    when an entry of it does. Errors other than those the program tells apart
    (a full disk, an I/O error) do not occur. *)

From S2P Require Import Prelude Paths.
#[local] Open Scope Z_scope.

Inductive Body := Regular (data : bytes) | Folder | Link (dest : bytes) | Pipe | Sock | Device.
#[export] Instance Body_eq_dec : EqDecision Body.
Proof. solve_decision. Defined.

Record Inode := mkInode {
  ino : Z; body : Body; st_mode : Z; mtime : Z * Z; ctime : Z * Z; attrs : gmap bytes bytes;
}.
(** [next_ino] is a number no inode has had; [ticks] counts what changed a time. *)
Record Disk := mkDisk { nodes : gmap Place Inode; next_ino : Z; ticks : nat }.
Definition set_nodes f d := mkDisk (f (nodes d)) (next_ino d) (ticks d).

Definition ENOENT : string := "No such file or directory".
Definition ENOTDIR : string := "Not a directory".
Definition EACCES : string := "Permission denied".
Definition EEXIST : string := "File exists".
Definition EISDIR : string := "Is a directory".
Definition ELOOP : string := "Too many levels of symbolic links".

Definition is_folder (i : Inode) : bool := match body i with Folder => true | _ => false end.
Definition is_link (i : Inode) : bool := match body i with Link _ => true | _ => false end.
Definition is_regular (i : Inode) : bool := match body i with Regular _ => true | _ => false end.

(** Deeper places first, and longer keys. *)
Definition longer {A} (a b : list A) : Prop := (length b ≤ length a)%nat.
#[export] Instance longer_dec {A} : RelDecision (@longer A) := λ a b, decide (length b ≤ length a)%nat.

(** ** The platform

    The clock at each change, the process's umask, and whether a directory of
    some mode lets the process add and remove entries, and look them up. *)
Class Platform := {
  clock : nat → Z * Z;
  umask : Z;
  may_write : Z → bool;
  may_search : Z → bool;
}.
(** The owner's own bits are enough. *)
Class PlatformLaws (P : Platform) := {
  owner_writes m : Z.land m 0x1c0 = 0x1c0 → may_write m = true;
  owner_searches m : Z.land m 0x1c0 = 0x1c0 → may_search m = true;
}.

Section Disk.
Context `{Platform}.

(** ** Resolving a place

    A symbolic link on the way would be followed to anywhere. The callers look
    for one first, so the model stops there. *)
Fixpoint search (d : Disk) (pre : Place) (rest : Place) : Res () :=
  match rest with
  | [] => Ok ()
  | name :: rest =>
    match nodes d !! pre with
    | None => Err ENOENT
    | Some i => match body i with
                | Folder => _ ← ensure (may_search (st_mode i)) EACCES; search d (pre ++ [name]) rest
                | Link _ => Err ELOOP
                | _ => Err ENOTDIR
                end
    end
  end.
Definition symlink_metadata (p : Place) (d : Disk) : Res Inode :=
  _ ← search d [] p; with_context (nodes d !! p) ENOENT.
Definition exists_at (p : Place) (d : Disk) : bool := is_ok (symlink_metadata p d).

Definition tick : M Disk (Z * Z) := λ d, (Ok (clock (ticks d)), mkDisk (nodes d) (next_ino d) (S (ticks d))).
Definition fresh : M Disk Z := λ d, (Ok (next_ino d), mkDisk (nodes d) (next_ino d + 1) (ticks d)).

Definition with_mtime (t : Z * Z) (i : Inode) := mkInode (ino i) (body i) (st_mode i) t (ctime i) (attrs i).
Definition with_ctime (t : Z * Z) (i : Inode) := mkInode (ino i) (body i) (st_mode i) (mtime i) t (attrs i).
Definition with_mode (m : Z) (i : Inode) := mkInode (ino i) (body i) m (mtime i) (ctime i) (attrs i).
Definition with_attrs (f : gmap bytes bytes → gmap bytes bytes) (i : Inode) := mkInode (ino i) (body i) (st_mode i) (mtime i) (ctime i) (f (attrs i)).

(** What changes an inode is seen at every place that names it. *)
Definition change_inode (n : Z) (f : Inode → Inode) (d : Disk) : Disk :=
  set_nodes (fmap (λ i, if ino i =? n then f i else i)) d.

(** An entry of directory [p] came or went. *)
Definition touch (p : Place) : M Disk () :=
  t ← tick; modify (set_nodes (alter (λ i, with_mtime t (with_ctime t i)) p)).

(** The directory above [p] is there and lets entries come and go. *)
Definition enter (p : Place) : M Disk () :=
  d ← get;
  _ ← lift (search d [] p);
  match nodes d !! parent p with
  | Some i => mensure (may_write (st_mode i)) EACCES
  | None => fail ENOENT
  end.

Definition S_IFMT : Z := 0xf000.
Definition chmod (m : Z) (i : Inode) : Inode := with_mode (Z.lor (Z.land (st_mode i) S_IFMT) (Z.land m 0xfff)) i.

(** A new entry at a place that has none. *)
Definition create (p : Place) (b : Body) (m : Z) : M Disk () :=
  _ ← enter p;
  d ← get;
  _ ← mensure (match nodes d !! p with None => true | Some _ => false end) EEXIST;
  n ← fresh;
  t ← tick;
  _ ← modify (set_nodes (<[p := mkInode n b m t t ∅]>));
  touch (parent p).
Definition mkdir (p : Place) : M Disk () := create p Folder (Z.lor 0x4000 (Z.land 0x1ff (Z.lnot umask))).
Definition symlink (dest : bytes) (p : Place) : M Disk () := create p (Link dest) 0xa1ff.
(** [mkfifo(path, mode)]: the kind bits of [mode] do not count, the umask does. *)
Definition create_fifo (p : Place) (m : Z) : M Disk () :=
  create p Pipe (Z.lor 0x1000 (Z.land (Z.land m 0xfff) (Z.lnot umask))).

(** [fs::create_dir_all]: every directory on the way to [p], and [p]. *)
Fixpoint create_dirs (pre : Place) (rest : Place) : M Disk () :=
  match rest with
  | [] => mret ()
  | name :: rest =>
    d ← get;
    _ ← match nodes d !! (pre ++ [name]) with
        | Some i => mensure (is_folder i) EEXIST
        | None => mkdir (pre ++ [name])
        end;
    create_dirs (pre ++ [name]) rest
  end.
Definition create_dir_all (p : Place) : M Disk () := create_dirs [] p.

(** Only what is named and not a link: a link would be followed. *)
Definition on_target (p : Place) (f : Inode → Inode) : M Disk () :=
  d ← get;
  i ← lift (symlink_metadata p d);
  _ ← mensure (negb (is_link i)) ELOOP;
  t ← tick;
  modify (change_inode (ino i) (λ i, with_ctime t (f i))).
Definition set_mode (p : Place) (m : Z) : M Disk () := on_target p (chmod m).
Definition set_file_mtime (p : Place) (t : Z * Z) : M Disk () := on_target p (with_mtime t).
Definition xattr_set (p : Place) (name value : bytes) : M Disk () := on_target p (with_attrs (<[name := value]>)).
Definition set_symlink_file_times (p : Place) (time : Z * Z) : M Disk () :=
  d ← get;
  i ← lift (symlink_metadata p d);
  t ← tick;
  modify (change_inode (ino i) (λ i, with_ctime t (with_mtime time i))).

Definition unlink (p : Place) : M Disk () :=
  _ ← enter p; _ ← modify (set_nodes (delete p)); touch (parent p).
Definition remove_file (p : Place) : M Disk () :=
  d ← get;
  i ← lift (symlink_metadata p d);
  _ ← mensure (negb (is_folder i)) EISDIR;
  unlink p.
(** Depth first, in an order a directory listing may have; what was removed
    before an error stays removed. *)
Definition below (p : Place) (d : Disk) : list Place :=
  merge_sort longer (base.filter (λ q, p `prefix_of` q) (map_to_list (nodes d)).*1).
Definition remove_dir_all (p : Place) : M Disk () := d ← get; mfor (below p d) unlink.

(** ** Temporary files

    A temporary file is made in the directory it will end in, under a name of
    its own that nothing else uses; the model keeps its inode in hand. *)
Definition new_temp (dir : Place) : M Disk Inode :=
  _ ← enter (dir ++ [b_ ".tmp"]);
  n ← fresh;
  t ← tick;
  _ ← touch dir;
  mret (mkInode n (Regular []) 0x8180 t t ∅).
Definition persist (temp : Inode) (p : Place) : M Disk () :=
  _ ← enter p;
  d ← get;
  _ ← mensure (match nodes d !! p with Some i => negb (is_folder i) | None => true end) EISDIR;
  t ← tick;
  _ ← modify (set_nodes (<[p := with_ctime t temp]>));
  touch (parent p).

Definition hard_link (from to : Place) : M Disk () :=
  d ← get;
  i ← lift (symlink_metadata from d);
  _ ← mensure (negb (is_folder i)) EACCES;
  _ ← enter to;
  _ ← mensure (match nodes d !! to with None => true | Some _ => false end) EEXIST;
  _ ← modify (set_nodes (<[to := i]>));
  touch (parent to).
(** [rename(2)] of a file: nothing happens when both names are one file. *)
Definition rename (from to : Place) : M Disk () :=
  d ← get;
  i ← lift (symlink_metadata from d);
  _ ← enter from;
  _ ← enter to;
  _ ← mensure (match nodes d !! to with Some j => negb (is_folder j) | None => true end) EISDIR;
  if match nodes d !! to with Some j => ino j =? ino i | None => false end then mret ()
  else
    _ ← modify (set_nodes (λ ns, <[to := i]> (delete from ns)));
    _ ← touch (parent from);
    touch (parent to).

Definition read_file_at (p : Place) (d : Disk) : Res bytes :=
  i ← symlink_metadata p d;
  match body i with Regular data => Ok data | Folder => Err EISDIR | _ => Err ELOOP end.
Definition read_link (p : Place) (d : Disk) : Res bytes :=
  i ← symlink_metadata p d;
  match body i with Link dest => Ok dest | _ => Err "Invalid argument" end.
End Disk.
