(* ===== verification/Policy.v ===== *)
(** * Policy: what a capture leaves out ([furrow-core/src/policy.rs])

    [.furrowpolicy] names literal subtrees to exclude; its [gitignore] line adds
    the rules of [furrow-core/src/gitignore.rs], which are an interface here. *)

From S2P Require Import Prelude Model Paths.
#[local] Open Scope Z_scope.

Definition POLICY_FILE : bytes := b_ ".furrowpolicy".
Definition MAX_POLICY_BYTES : Z := 64 * 1024.
Definition MAX_RULES : Z := 1024.
Definition MAX_OMISSION_GROUPS : nat := 20.

(** ** Text *)

(** Well-formed UTF-8: the lead byte fixes the length and the range of the byte
    after it. *)
Definition in_range (lo hi : Z) (b : Corelib.Init.Byte.byte) : bool := (lo <=? byte.unsigned b) && (byte.unsigned b <=? hi).
Definition continuation : Corelib.Init.Byte.byte → bool := in_range 0x80 0xbf.
Fixpoint utf8_valid (fuel : nat) (b : bytes) : bool :=
  match fuel with
  | O => bool_decide (b = [])
  | S fuel =>
    match b with
    | [] => true
    | x :: b =>
      if in_range 0 0x7f x then utf8_valid fuel b
      else if in_range 0xc2 0xdf x then
        match b with y :: b => continuation y && utf8_valid fuel b | _ => false end
      else if in_range 0xe0 0xef x then
        match b with
        | y :: z :: b =>
          (if byte.unsigned x =? 0xe0 then in_range 0xa0 0xbf y
           else if byte.unsigned x =? 0xed then in_range 0x80 0x9f y else continuation y)
          && continuation z && utf8_valid fuel b
        | _ => false
        end
      else if in_range 0xf0 0xf4 x then
        match b with
        | y :: z :: w :: b =>
          (if byte.unsigned x =? 0xf0 then in_range 0x90 0xbf y
           else if byte.unsigned x =? 0xf4 then in_range 0x80 0x8f y else continuation y)
          && continuation z && continuation w && utf8_valid fuel b
        | _ => false
        end
      else false
    end
  end.

(** The encodings of the characters [str::trim] takes off. *)
Definition WHITESPACE : list bytes :=
  [[Byte.x09]; [Byte.x0a]; [Byte.x0b]; [Byte.x0c]; [Byte.x0d]; [Byte.x20]; [Byte.xc2; Byte.x85]; [Byte.xc2; Byte.xa0];
   [Byte.xe1; Byte.x9a; Byte.x80]; [Byte.xe2; Byte.x80; Byte.x80]; [Byte.xe2; Byte.x80; Byte.x81]; [Byte.xe2; Byte.x80; Byte.x82];
   [Byte.xe2; Byte.x80; Byte.x83]; [Byte.xe2; Byte.x80; Byte.x84]; [Byte.xe2; Byte.x80; Byte.x85]; [Byte.xe2; Byte.x80; Byte.x86];
   [Byte.xe2; Byte.x80; Byte.x87]; [Byte.xe2; Byte.x80; Byte.x88]; [Byte.xe2; Byte.x80; Byte.x89]; [Byte.xe2; Byte.x80; Byte.x8a];
   [Byte.xe2; Byte.x80; Byte.xa8]; [Byte.xe2; Byte.x80; Byte.xa9]; [Byte.xe2; Byte.x80; Byte.xaf]; [Byte.xe2; Byte.x81; Byte.x9f];
   [Byte.xe3; Byte.x80; Byte.x80]].
Fixpoint trim_with (spaces : list bytes) (fuel : nat) (b : bytes) : bytes :=
  match fuel with
  | O => b
  | S fuel => match omap (λ w, strip_prefix w b) spaces with
              | rest :: _ => trim_with spaces fuel rest
              | [] => b
              end
  end.
Definition trim (b : bytes) : bytes :=
  let b := trim_with WHITESPACE (length b) b in
  reverse (trim_with (map reverse WHITESPACE) (length b) (reverse b)).
(** [trim_end_matches('/')] *)
Definition trim_end_slashes (b : bytes) : bytes := reverse (trim_with [[slash]] (length b) (reverse b)).
(** [str::lines]: a final line end ends no empty line; a carriage return before
    one goes, as trimming does anyway. *)
Definition lines (b : bytes) : list bytes :=
  let ls := split_on Byte.x0a b in
  match last ls with Some [] => removelast ls | _ => ls end.

(** ** Rules *)

Definition validate_rule (rule : bytes) : Res () :=
  _ ← ensure (negb (bool_decide (rule = []))) "exclude path cannot be empty";
  _ ← ensure (negb (starts_with rule [slash])) "exclude path must be relative";
  _ ← ensure (negb (bool_decide (Byte.x00 ∈ rule))) "exclude path contains NUL";
  _ ← ensure (forallb (λ part, negb (bool_decide (part = [])) && negb (bool_decide (part = b_ ".")) && negb (bool_decide (part = b_ "..")))
                (split_on slash rule)) "exclude path contains an unsafe component";
  let first := default [] (head (split_on slash rule)) in
  ensure (negb (bool_decide (first = b_ ".git")) && negb (bool_decide (first = b_ ".furrow")) && negb (bool_decide (rule = POLICY_FILE)))
    "Git and furrow control state cannot be excluded".

(** The ignore rules of a Git working tree. *)
Record Matcher := mkMatcher {
  m_excludes : bytes → bool; m_ignored_directory : bytes → bool; m_contains_ignored : bytes → bool;
  m_tracked_children : bytes → option (list bytes); m_is_directory : bytes → bool;
}.

Record CapturePolicy := mkPolicy {
  excluded : list bytes; gitignore : bool; matcher : option Matcher;
  omitted : gmap bytes bool; full_capture : bool; virtual_subtree : option bytes;
}.
Definition no_policy : CapturePolicy := mkPolicy [] false None ∅ false None.
Definition with_rules (rules : list bytes) (git : bool) : CapturePolicy := mkPolicy rules git None ∅ false None.

(** [sort] and [dedup]. *)
Fixpoint dedup (l : list bytes) : list bytes :=
  match l with
  | x :: ((y :: _) as l') => if decide (x = y) then dedup l' else x :: dedup l'
  | _ => l
  end.
Definition sort_dedup (l : list bytes) : list bytes := dedup (merge_sort ble l).

Fixpoint parse_lines (ls : list bytes) (acc : list bytes) (git : bool) : Res (list bytes * bool) :=
  match ls with
  | [] => Ok (acc, git)
  | line :: ls =>
    let line := trim line in
    if bool_decide (line = []) || starts_with line (b_ "#") then parse_lines ls acc git
    else if bool_decide (line = b_ "gitignore") then parse_lines ls acc true
    else
      value ← with_context (strip_prefix (b_ "exclude ") line) ".furrowpolicy line must use `exclude <relative-subtree>` or `gitignore`";
      let value := trim_end_slashes (trim value) in
      _ ← validate_rule value;
      let acc := acc ++ [value] in
      _ ← ensure (Z.of_nat (length acc) <=? MAX_RULES) ".furrowpolicy exceeds 1024 rules";
      parse_lines ls acc git
  end.

(** What is at [.furrowpolicy]: nothing, something that is no regular file, or
    its content. *)
Inductive PolicyFile := NoPolicyFile | NotRegular | PolicyText (content : bytes).
Definition load (file : PolicyFile) : Res CapturePolicy :=
  match file with
  | NoPolicyFile => Ok no_policy
  | NotRegular => Err ".furrowpolicy must be a regular file"
  | PolicyText content =>
    _ ← ensure (blen content <=? MAX_POLICY_BYTES) ".furrowpolicy exceeds 64 KiB";
    _ ← ensure (utf8_valid (length content) content) ".furrowpolicy must be valid UTF-8";
    '(rules, git) ← parse_lines (lines content) [] false;
    Ok (with_rules (sort_dedup rules) git)
  end.

Definition from_rules (rules : list bytes) : Res CapturePolicy :=
  _ ← ensure (Z.of_nat (length rules) <=? MAX_RULES) "snapshot policy exceeds 1024 rules";
  _ ← res_map validate_rule rules;
  Ok (with_rules (sort_dedup rules) false).

Definition union (a b : CapturePolicy) : CapturePolicy :=
  mkPolicy (sort_dedup (excluded a ++ excluded b)) (gitignore a || gitignore b)
    (match matcher a with Some m => Some m | None => matcher b end) (omitted a) (full_capture a)
    (match virtual_subtree a with Some v => Some v | None => virtual_subtree b end).

(** [relative] is [prefix] or lies inside it. *)
Definition inside (relative prefix : bytes) : bool :=
  bool_decide (relative = prefix) || match strip_prefix prefix relative with Some (x :: _) => bool_decide (x = slash) | _ => false end.
Definition is_virtual (p : CapturePolicy) (relative : bytes) : bool :=
  match virtual_subtree p with Some prefix => inside relative prefix | None => false end.

(** [excludes_bytes] with what it notes: the first component of an omitted path
    and whether that is a directory. *)
Definition note_omission (m : Matcher) (relative : bytes) : M CapturePolicy () :=
  let first := default relative (head (split_on slash relative)) in
  modify (λ p, mkPolicy (excluded p) (gitignore p) (matcher p) (<[first := m_is_directory m first]> (omitted p)) (full_capture p) (virtual_subtree p)).
Definition excludes_bytes (relative : bytes) : M CapturePolicy bool :=
  p ← get;
  if existsb (inside relative) (excluded p) then mret true
  else if is_virtual p relative then mret false
  else match matcher p with
       | None => mret false
       | Some m =>
         let ignored := m_excludes m relative in
         _ ← (if ignored || m_ignored_directory m relative then note_omission m relative else mret ());
         mret ignored
       end.
(** Its answer. *)
Definition excludes (p : CapturePolicy) (relative : bytes) : bool :=
  existsb (inside relative) (excluded p)
  || negb (is_virtual p relative) && match matcher p with Some m => m_excludes m relative | None => false end.
Definition contains_ignored (p : CapturePolicy) (relative : bytes) : bool :=
  negb (is_virtual p relative) && match matcher p with Some m => m_contains_ignored m relative | None => false end.
Definition tracked_children (p : CapturePolicy) (relative : bytes) : option (list bytes) :=
  if is_virtual p relative then None else m ← matcher p; m_tracked_children m relative.
Definition with_virtual_subtree (prefix : bytes) (p : CapturePolicy) : CapturePolicy :=
  mkPolicy (excluded p) (gitignore p) (matcher p) (omitted p) (full_capture p) (Some prefix).
Definition begin_full_capture : M CapturePolicy () :=
  modify (λ p, mkPolicy (excluded p) (gitignore p) (matcher p) ∅ true (virtual_subtree p)).

(** [ignored_summary]: the first groups by name, and how many more. *)
Definition ignored_summary (p : CapturePolicy) : option (list (bytes * bool) * Z) :=
  _ ← matcher p;
  Some (take MAX_OMISSION_GROUPS (btree_iter (omitted p)), Z.of_nat (base.size (omitted p) - MAX_OMISSION_GROUPS)).
