(* ===== verification/PolicyTheory.v ===== *)
(** * PolicyTheory: the rules of a policy are well-formed, and reach downwards *)

From S2P Require Import Prelude Model Paths Policy Concrete.
#[local] Open Scope Z_scope.

(** A relative path of plain names, one or more, that does not lead into [.git] or
    the program's own directory and is not the policy's own file. *)
Definition safe_rule (r : bytes) : Prop := ∃ first rest, r = join_with slash (first :: rest)
  ∧ Forall (λ name, name ≠ [] ∧ name ≠ b_ "." ∧ name ≠ b_ ".." ∧ slash ∉ name ∧ Byte.x00 ∉ name) (first :: rest)
  ∧ first ≠ b_ ".git" ∧ first ≠ b_ ".furrow" ∧ r ≠ b_ ".furrowpolicy".
(** Rules in strict order, each safe. *)
Definition well_formed (p : CapturePolicy) : Prop := StronglySorted blt (excluded p) ∧ Forall safe_rule (excluded p).

(** ** Validation *)

Lemma elem_of_join x p : x ∈ join_with slash p → x ≠ slash → ∃ name, name ∈ p ∧ x ∈ name.
Proof.
  induction p as [|n p IH]; [by intros ?%not_elem_of_nil |]. destruct p as [|m p].
  { intros Hx _. exists n. split; [by left | done]. }
  change (join_with slash (n :: m :: p)) with (n ++ slash :: join_with slash (m :: p)).
  intros [Hx|[->|Hx]%elem_of_cons]%elem_of_app Hne; [exists n; split; [by left | done] | done |].
  destruct (IH Hx Hne) as (name & ? & ?). exists name. split; [by right | done].
Qed.
Lemma split_on_pieces r : Forall (slash ∉.) (split_on slash r) ∧ ∀ name x, name ∈ split_on slash r → x ∈ name → x ∈ r.
Proof.
  induction r as [|x r [IH1 IH2]]; cbn [split_on].
  { split; [apply Forall_singleton; apply not_elem_of_nil | intros name y ->%list_elem_of_singleton; done]. }
  case_decide as Hx.
  - split; [constructor; [apply not_elem_of_nil | done] |]. intros name y [->|Hn]%elem_of_cons Hy; [by apply not_elem_of_nil in Hy |].
    right. by eapply IH2.
  - destruct (split_on slash r) as [|p ps] eqn:E; [by apply split_on_not_nil in E |]. apply Forall_cons in IH1 as [Hp Hps]. split.
    + constructor; [| done]. by intros [?|?]%elem_of_cons.
    + intros name y [->|Hn]%elem_of_cons Hy; [| right; eapply IH2; [by right | done]].
      apply elem_of_cons in Hy as [->|Hy]; [by left |]. right. by eapply IH2; [left |].
Qed.
Lemma validate_rule_safe r : validate_rule r = Ok () ↔ safe_rule r.
Proof.
  unfold validate_rule, safe_rule. split.
  - intros (? & Hne%ensure_ok & (? & Hrel%ensure_ok & (? & Hnul%ensure_ok & (? & Hparts%ensure_ok & Hown%ensure_ok)%Res_bind_ok)%Res_bind_ok)%Res_bind_ok)%Res_bind_ok.
    rewrite negb_true_iff, bool_decide_eq_false in Hnul. rewrite !andb_true_iff, !negb_true_iff, !bool_decide_eq_false in Hown.
    destruct (split_on slash r) as [|first rest] eqn:E; [by apply split_on_not_nil in E |]. cbn in Hown. exists first, rest.
    rewrite <- E, join_split. split; [done |]. split; [| tauto]. destruct (split_on_pieces r) as [Hs Hin]. rewrite E in *.
    rewrite forallb_forall in Hparts. apply Forall_forall. intros name Hn.
    specialize (Hparts name (proj1 (list_elem_of_In _ _) Hn)). rewrite !andb_true_iff, !negb_true_iff, !bool_decide_eq_false in Hparts.
    rewrite Forall_forall in Hs. split_and!; [tauto.. | by apply Hs |]. intros H0. apply Hnul. by eapply Hin.
  - intros (first & rest & -> & Hnames & Hgit & Hfur & Hfile).
    assert (split_on slash (join_with slash (first :: rest)) = first :: rest) as E.
    { apply split_join_slash; [done |]. eapply Forall_impl; [exact Hnames |]. by intros name (_ & _ & _ & ? & _). }
    apply Forall_cons in Hnames as Hf. destruct Hf as [(Hf1 & _ & _ & Hf4 & _) _].
    assert (∃ x l, join_with slash (first :: rest) = x :: l ∧ x ≠ slash) as (x & l & Ej & Hx).
    { destruct first as [|x first]; [done |]. assert (x ≠ slash) as Hx by (intros ->; apply Hf4; left). by destruct rest; eexists _, _. }
    rewrite E. rewrite (bool_decide_eq_false_2 (join_with slash (first :: rest) = [])) by by rewrite Ej. cbn [negb ensure mbind Res_bind].
    assert (starts_with (join_with slash (first :: rest)) [slash] = false) as ->.
    { rewrite Ej. apply not_true_is_false. rewrite starts_with_spec. by intros [t [=]]. }
    cbn [negb ensure mbind Res_bind]. rewrite (bool_decide_eq_false_2 (Byte.x00 ∈ _)).
    2: { intros (name & Hn & H0)%elem_of_join; [| done]. rewrite Forall_forall in Hnames. by apply (Hnames name). }
    cbn [negb ensure mbind Res_bind]. assert (forallb (λ part, negb (bool_decide (part = [])) && negb (bool_decide (part = b_ ".")) && negb (bool_decide (part = b_ ".."))) (first :: rest) = true) as ->.
    { apply forallb_forall. intros name Hn%list_elem_of_In. rewrite Forall_forall in Hnames. destruct (Hnames name Hn) as (? & ? & ? & _).
      by rewrite !bool_decide_eq_false_2 by done. }
    cbn [ensure mbind Res_bind head default]. by rewrite !bool_decide_eq_false_2 by done.
Qed.
Lemma validated_safe l : Forall (λ r, validate_rule r = Ok ()) l ↔ Forall safe_rule l.
Proof. apply Forall_iff. intros r. apply validate_rule_safe. Qed.

(** ** Sorting *)

Lemma dedup_cons y z l : dedup (y :: z :: l) = if decide (y = z) then dedup (z :: l) else y :: dedup (z :: l).
Proof. done. Qed.
Lemma elem_of_dedup l x : x ∈ dedup l ↔ x ∈ l.
Proof.
  induction l as [|y l IH]; [done |]. destruct l as [|z l]; [done |]. rewrite dedup_cons.
  destruct (decide (y = z)) as [->|]; rewrite ?elem_of_cons in *; rewrite ?IH, ?elem_of_cons; naive_solver.
Qed.
Lemma dedup_length l : (length (dedup l) ≤ length l)%nat.
Proof.
  induction l as [|y l IH]; [done |]. destruct l as [|z l]; [done |]. rewrite dedup_cons.
  destruct (decide (y = z)); simpl in *; lia.
Qed.
Lemma dedup_strict l : StronglySorted ble l → StronglySorted blt (dedup l).
Proof.
  induction l as [|y l IH]; [by constructor |]. destruct l as [|z l]; [by repeat constructor |].
  intros [Hs Hy]%StronglySorted_inv. specialize (IH Hs). rewrite dedup_cons. destruct (decide (y = z)) as [->|Hne]; [done |].
  constructor; [done |]. rewrite Forall_forall in *. intros x Hx. rewrite elem_of_dedup in Hx.
  apply StronglySorted_inv in Hs as [_ Hz]. rewrite Forall_forall in Hz.
  assert (blt y z) as Hyz by (destruct (proj1 (ble_lteq y z) (Hy z ltac:(left))); done).
  apply elem_of_cons in Hx as [->|Hx]; [done |]. eapply blt_ble_trans; [exact Hyz | by apply Hz].
Qed.
Lemma dedup_same l : StronglySorted blt l → dedup l = l.
Proof.
  induction 1 as [|y l Hs IH Hy]; [done |]. destruct l as [|z l]; [done |]. rewrite dedup_cons.
  destruct (decide (y = z)) as [->|]; [| by rewrite IH]. apply Forall_cons in Hy as [Hy _]. by apply blt_irrefl in Hy.
Qed.

Lemma elem_of_sort_dedup l x : x ∈ sort_dedup l ↔ x ∈ l.
Proof. unfold sort_dedup. by rewrite elem_of_dedup, (merge_sort_Permutation ble). Qed.
Lemma sort_dedup_strict l : StronglySorted blt (sort_dedup l).
Proof. apply dedup_strict, (StronglySorted_merge_sort ble). Qed.
Lemma sort_dedup_length l : (length (sort_dedup l) ≤ length l)%nat.
Proof. etrans; [apply dedup_length |]. by rewrite (merge_sort_Permutation ble). Qed.
Lemma sort_dedup_same l : StronglySorted blt l → sort_dedup l = l.
Proof.
  intros Hs. unfold sort_dedup. replace (merge_sort ble l) with l; [by apply dedup_same |].
  apply (StronglySorted_unique ble); [| apply (StronglySorted_merge_sort ble) | by rewrite (merge_sort_Permutation ble)].
  clear -Hs. induction Hs as [|y l Hs IH Hy]; constructor; [done |]. eapply List.Forall_impl; [| exact Hy]. intros x. apply blt_ble.
Qed.

(** ** Loading *)

Lemma parse_lines_ok ls acc git rules git' :
  parse_lines ls acc git = Ok (rules, git') → Forall (λ r, validate_rule r = Ok ()) acc → Z.of_nat (length acc) ≤ MAX_RULES →
  Forall (λ r, validate_rule r = Ok ()) rules ∧ Z.of_nat (length rules) ≤ MAX_RULES.
Proof.
  revert acc git. induction ls as [|line ls IH]; intros acc git; cbn [parse_lines]; [by intros [= <- <-] |].
  destruct (_ || _); [apply IH |]. destruct (bool_decide _); [apply IH |].
  intros Hrun Hacc Hlen. apply Res_bind_ok in Hrun as (value & _ & Hrun). apply Res_bind_ok in Hrun as ([] & Hval & Hrun).
  apply Res_bind_ok in Hrun as (u & Hmax%ensure_ok & Hrun). apply Z.leb_le in Hmax. apply (IH _ _ Hrun); [| done].
  apply Forall_app. split; [done |]. by constructor.
Qed.

Lemma load_ok file p :
  load file = Ok p → well_formed p ∧ Z.of_nat (length (excluded p)) ≤ MAX_RULES ∧ matcher p = None ∧ virtual_subtree p = None.
Proof.
  unfold load. destruct file as [| |content]; [intros [= <-]; split; [split; constructor | done] | done |].
  intros Hrun. apply Res_bind_ok in Hrun as (u1 & _ & Hrun). apply Res_bind_ok in Hrun as (u2 & _ & Hrun).
  apply Res_bind_ok in Hrun as ([rules git] & Hp & [= <-]). apply parse_lines_ok in Hp as [Hv Hl]; [| constructor | vm_compute; congruence].
  split; [split; [apply sort_dedup_strict |] | split; [| done]].
  - apply validated_safe in Hv. cbn [excluded with_rules]. rewrite Forall_forall in Hv |- *. intros r Hr. apply Hv. by rewrite elem_of_sort_dedup in Hr.
  - cbn. pose proof (sort_dedup_length rules). lia.
Qed.
Lemma res_map_unit {A} (check : A → Res ()) l : Forall (λ x, check x = Ok ()) l → ∃ us, res_map check l = Ok us.
Proof. induction 1 as [|x l Hx _ [us IH]]; [by exists [] |]. cbn. rewrite Hx, IH. by eexists. Qed.

(** ** Exclusion *)

Lemma raw_below p q : valid_place q → p `prefix_of` q → p ≠ [] → p ≠ q → ∃ r, raw q = raw p ++ slash :: r.
Proof.
  intros Hq [t ->] Hp Hne. destruct t as [|n t]; [by rewrite app_nil_r in Hne |]. clear Hne Hq.
  induction p as [|m p IH]; [done |]. destruct p as [|m' p]; [by eexists |].
  destruct IH as [r E]; [done |]. exists r. change (raw ((m :: m' :: p) ++ n :: t)) with (m ++ slash :: raw ((m' :: p) ++ n :: t)).
  change (raw (m :: m' :: p)) with (m ++ slash :: raw (m' :: p)). rewrite E. by rewrite <- app_assoc.
Qed.
Lemma inside_spec relative prefix : inside relative prefix = true ↔ relative = prefix ∨ ∃ r, relative = prefix ++ slash :: r.
Proof.
  unfold inside. rewrite orb_true_iff, bool_decide_eq_true. apply or_iff_compat_l.
  destruct (strip_prefix prefix relative) as [[|x r]|] eqn:E.
  - apply strip_prefix_Some in E as ->. split; [done |]. intros [r E]. by apply app_inv_head in E.
  - apply strip_prefix_Some in E as ->. rewrite bool_decide_eq_true. split; [intros ->; eauto |].
    intros [r' E]. apply app_inv_head in E. by injection E.
  - split; [done |]. intros [r Hr%strip_prefix_Some]. congruence.
Qed.
Lemma inside_below p q prefix :
  valid_place q → p `prefix_of` q → prefix ≠ [] → inside (raw p) prefix = true → inside (raw q) prefix = true.
Proof.
  intros Hq Hpq Hne. rewrite !inside_spec. destruct (decide (p = q)) as [->|Hpne]; [done |].
  destruct (decide (p = [])) as [->|Hpn].
  { intros [E|[r E]]; [by destruct Hne | by destruct prefix]. }
  destruct (raw_below p q Hq Hpq Hpn Hpne) as [r ->]. intros [->|[r' ->]]; right; eexists; [done |]. by rewrite <- app_assoc.
Qed.
Lemma excludes_rules p relative : matcher p = None → excludes p relative = true ↔ ∃ r, r ∈ excluded p ∧ inside relative r = true.
Proof.
  intros Hm. unfold excludes. rewrite Hm, andb_false_r, orb_false_r, existsb_exists. by setoid_rewrite list_elem_of_In.
Qed.
Lemma rule_not_nil r : safe_rule r → r ≠ [].
Proof. by intros H%validate_rule_safe ->. Qed.
Lemma excludes_below p a b :
  well_formed p → matcher p = None → valid_place b → a `prefix_of` b → excludes p (raw a) = true → excludes p (raw b) = true.
Proof.
  intros [_ Hv] Hm Hb Hab. rewrite !excludes_rules by done. intros (r & Hr & Hi). exists r. split; [done |].
  rewrite Forall_forall in Hv. by apply (inside_below a b r Hb Hab (rule_not_nil r (Hv r Hr))).
Qed.

Lemma union_formed p q : well_formed p → well_formed q → well_formed (union p q).
Proof.
  intros [_ Hv] [_ Hvq]. split; [apply sort_dedup_strict |]. rewrite Forall_forall in *. intros r Hr. cbn in Hr.
  rewrite elem_of_sort_dedup in Hr. apply elem_of_app in Hr as [?|?]; auto.
Qed.
Lemma excludes_union p q relative : matcher p = None → matcher q = None → excludes (union p q) relative = excludes p relative || excludes q relative.
Proof.
  intros Hm Hmq. apply eq_true_iff_eq. rewrite orb_true_iff, !excludes_rules by (done || cbn; by rewrite Hm).
  cbn [excluded union]. setoid_rewrite elem_of_sort_dedup. setoid_rewrite elem_of_app. naive_solver.
Qed.
Lemma res_map_all (check : bytes → Res ()) l us : res_map check l = Ok us → Forall (λ r, check r = Ok ()) l.
Proof.
  revert us. induction l as [|r l IH]; intros us; cbn [res_map]; [constructor |].
  intros ([] & Hr & (us' & Hl & _)%Res_bind_ok)%Res_bind_ok. constructor; eauto.
Qed.
Lemma from_rules_formed rules p : from_rules rules = Ok p → well_formed p ∧ matcher p = None.
Proof.
  unfold from_rules. intros (u & _ & (us & Hv%res_map_all%validated_safe & [= <-])%Res_bind_ok)%Res_bind_ok. split; [| done].
  split; [apply sort_dedup_strict |]. rewrite Forall_forall in *. intros r Hr. cbn in Hr. rewrite elem_of_sort_dedup in Hr. auto.
Qed.
Lemma rules_read_back p : well_formed p → Z.of_nat (length (excluded p)) ≤ MAX_RULES → from_rules (excluded p) = Ok (with_rules (excluded p) false).
Proof.
  intros [Hs Hv] Hlen. unfold from_rules. rewrite (proj2 (Z.leb_le _ _) Hlen). cbn [ensure mbind Res_bind].
  destruct (res_map_unit validate_rule (excluded p) (proj2 (validated_safe _) Hv)) as [us ->]. cbn [mbind Res_bind]. by rewrite sort_dedup_same.
Qed.
Lemma identity_inside path : is_identity_path path = inside path (b_ ".furrow").
Proof.
  apply eq_true_iff_eq. unfold is_identity_path. rewrite inside_spec, orb_true_iff, bool_decide_eq_true, starts_with_spec. apply or_iff_compat_l.
  split; intros [r ->]; exists r; done.
Qed.

(** ** Properties *)

(** The rule a line of the policy file names. *)
Definition named_by (line r : bytes) : Prop := ∃ v, trim line = b_ "exclude " ++ v ∧ r = trim_end_slashes (trim v).
Lemma parse_lines_named ls acc git rules git' : parse_lines ls acc git = Ok (rules, git') →
  (∀ r, r ∈ rules ↔ r ∈ acc ∨ ∃ line, line ∈ ls ∧ named_by line r)
  ∧ (git' = true ↔ git = true ∨ ∃ line, line ∈ ls ∧ trim line = b_ "gitignore").
Proof.
  revert acc git. induction ls as [|line ls IH]; intros acc git; cbn [parse_lines].
  { intros [= <- <-]. split; [intros r |]; (split; [by left | intros [?|(? & ?%not_elem_of_nil & _)]; done]). }
  assert (∀ (P : bytes → Prop), (∃ l, l ∈ line :: ls ∧ P l) ↔ P line ∨ ∃ l, l ∈ ls ∧ P l) as Hcons.
  { intros P. setoid_rewrite elem_of_cons. naive_solver. }
  setoid_rewrite Hcons. destruct (bool_decide (trim line = []) || starts_with (trim line) (b_ "#")) eqn:Eskip.
  { intros (H1 & H2)%IH. split; [intros r; rewrite H1 | rewrite H2]; (split; [tauto |]); (intros [?|[Hl|?]]; [by left | exfalso | by right]).
    - destruct Hl as (v & Hl & _). rewrite Hl in Eskip. done.
    - rewrite Hl in Eskip. done. }
  destruct (bool_decide_reflect (trim line = b_ "gitignore")) as [Eg|Eg].
  { intros (H1 & H2)%IH. split; [intros r; rewrite H1; split; [tauto |]; intros [?|[(v & Hl & _)|?]]; [by left | | by right]; by rewrite Eg in Hl |].
    rewrite H2. tauto. }
  intros (value & Hv & (u1 & _ & (u2 & _ & Hrun)%Res_bind_ok)%Res_bind_ok)%Res_bind_ok.
  apply IH in Hrun as [H1 H2]. assert (trim line = b_ "exclude " ++ value) as Hl.
  { destruct (strip_prefix (b_ "exclude ") (trim line)) as [v|] eqn:E; [| done]. injection Hv as <-. by apply strip_prefix_Some in E. }
  split.
  - intros r. rewrite H1, elem_of_app, list_elem_of_singleton.
    assert (named_by line r ↔ r = trim_end_slashes (trim value)) as ->; [| tauto].
    split; [intros (v & Hv' & ->) | intros ->; by exists value]. rewrite Hl in Hv'. by apply app_inv_head in Hv' as ->.
  - rewrite H2. tauto.
Qed.

(** C40 A policy that loads has at most 1024 rules, strictly sorted: those its
    [exclude] lines name, each a relative path of plain names that is none of Git's
    or the program's own. It excludes exactly the rules and what lies below them;
    its rules read back from a snapshot that recorded them; its union with another
    well-formed policy is well-formed and excludes what either does. *)
Theorem policy_well_formed file p :
  load file = Ok p →
  StronglySorted blt (excluded p) ∧ Forall safe_rule (excluded p) ∧ Z.of_nat (length (excluded p)) ≤ 1024
  ∧ (∀ content, file = PolicyText content →
       (∀ r, r ∈ excluded p ↔ ∃ line, line ∈ lines content ∧ named_by line r)
       ∧ (gitignore p = true ↔ ∃ line, line ∈ lines content ∧ trim line = b_ "gitignore"))
  ∧ from_rules (excluded p) = Ok (with_rules (excluded p) false)
  ∧ (∀ relative, excludes p relative = true ↔ ∃ r, r ∈ excluded p ∧ (relative = r ∨ ∃ below, relative = r ++ slash :: below))
  ∧ ∀ q, well_formed q → matcher q = None →
      well_formed (union p q) ∧ ∀ relative, excludes (union p q) relative = excludes p relative || excludes q relative.
Proof.
  intros Hload. pose proof Hload as (Hwf & Hlen & Hm & Hvirt)%load_ok. pose proof Hwf as [Hs Hv]. split_and!; [done.. | | | |].
  - intros content ->. unfold load in Hload. apply Res_bind_ok in Hload as (u1 & _ & (u2 & _ & ([rules git] & Hp & [= <-])%Res_bind_ok)%Res_bind_ok).
    apply parse_lines_named in Hp as [H1 H2]. split.
    + intros r. cbn [excluded with_rules]. rewrite elem_of_sort_dedup, H1. split; [intros [?%not_elem_of_nil|?]; done | by right].
    + cbn [gitignore with_rules]. rewrite H2. split; [intros [?|?]; done | by right].
  - by apply rules_read_back.
  - intros relative. rewrite excludes_rules by done. by setoid_rewrite inside_spec.
  - intros q Hq Hmq. split; [by apply union_formed |]. intros relative. by apply excludes_union.
Qed.

Module PolicyExample.
Definition text : bytes := b_ "# local" ++ [Byte.x0a] ++ b_ "exclude target/" ++ [Byte.x0a] ++ b_ "exclude build/out" ++ [Byte.x0d; Byte.x0a] ++ b_ "exclude target".
Lemma policy_well_formed_witness :
  load (PolicyText text) = Ok (with_rules [b_ "build/out"; b_ "target"] false)
  ∧ from_rules [b_ "build/out"; b_ "target"] = Ok (with_rules [b_ "build/out"; b_ "target"] false).
Proof.
  assert (load (PolicyText text) = Ok (with_rules [b_ "build/out"; b_ "target"] false)) as E by by vm_compute.
  destruct (policy_well_formed _ _ E) as (_ & _ & _ & _ & Hr & _). exact (conj E Hr).
Defined.
End PolicyExample.
