(* ===== verification/Files.v ===== *)
(** * Files: one file into the store and back ([furrow-core/src/repository.rs])

    A file is read as content-defined chunks, its blob names them in order; a
    restore writes the chunks to a temporary file beside the destination and
    renames it over. Extended attributes travel along, those of the system
    excepted ([furrow-core/src/system_attrs.rs]). *)

From S2P Require Import Prelude Model Tree Chunker Paths Disk.
From S2P Require Catalog.
#[local] Open Scope Z_scope.

Definition as_u32 (x : Z) : Z := x mod 2 ^ 32.

(** ** System attributes *)

Definition MANAGED_NAMES : list bytes :=
  [b_ "com.apple.provenance"; b_ "com.apple.quarantine"; b_ "com.apple.macl"; b_ "com.apple.lastuseddate#PS"].
Definition MANAGED_PREFIXES : list bytes := [b_ "com.apple.metadata:"; b_ "com.apple.diskimages."].
Definition is_system_managed (name : bytes) : bool :=
  bool_decide (name ∈ MANAGED_NAMES) || existsb (starts_with name) MANAGED_PREFIXES.

(** [sqlite_adapter::has_header] *)
Definition SQLITE_HEADER : bytes := b_ "SQLite format 3" ++ [Byte.x00].
Definition has_header (b : bytes) : bool := starts_with b SQLITE_HEADER.

(** The objects and the disk of a workspace. *)
Record Work (St : Type) := mkWork { store : St; disk : Disk }.
Arguments mkWork {_} _ _.
Arguments store {_} _.
Arguments disk {_} _.

Definition on_objects {St A} (m : M St A) : M (Work St) A := λ w,
  let '(r, s) := m (store w) in (r, mkWork s (disk w)).
Definition on_disk {St A} (m : M Disk A) : M (Work St) A := λ w,
  let '(r, d) := m (disk w) in (r, mkWork (store w) d).

Record Chunked := mkChunked { ck_chunks : list ChunkRef; ck_total_len : Z; ck_sqlite : bool }.

Record FileRead := mkFileRead {
  fr_blob : ObjectId; fr_xattrs : option ObjectId; fr_sqlite : bool; fr_stat : Inode; read_at_nanos : Z;
}.

Section Files.
Context `{Platform} {St : Type} `{ObjectStore St, Json Blob, Json Xattrs}.
(** What the reads of an open file return, and the disk when they are done:
    others may write meanwhile. *)
Variable reading : Place → Disk → list (Res bytes) * Disk.

(** ** Reading a file *)

(** Each turn takes a chunk, which is not empty. *)
Fixpoint store_loop (fuel : nat) (stream : ChunkStream) (chunked : Chunked) : M St Chunked :=
  match fuel with
  | O => fail "fuel"
  | S fuel =>
    match next_chunk stream with
    | (Err e, _) => fail e
    | (Ok None, _) => mret chunked
    | (Ok (Some chunk), stream) =>
      id ← put_object Chunk chunk;
      store_loop fuel stream
        (mkChunked (ck_chunks chunked ++ [mkChunkRef id (as_u32 (blen chunk))]) (as_u64 (ck_total_len chunked + blen chunk))
           (if bool_decide (ck_chunks chunked = []) then has_header chunk else ck_sqlite chunked))
    end
  end.
(** No more chunks than bytes come. *)
Definition store_chunks (reads : list (Res bytes)) : M St Chunked :=
  store_loop (S (sum_list_with (λ r, match r with Ok b => length b | Err _ => 0%nat end) reads)) (new reads) (mkChunked [] 0 false).

(** The attributes of a file, by name; [None] when there are none. *)
Definition capture_xattrs (i : Inode) : M St (option ObjectId) :=
  let entries := map (λ '(name, value), mkXattr name value)
                   (base.filter (λ '(name, _), is_system_managed name = false) (btree_iter (attrs i))) in
  if bool_decide (entries = []) then mret None
  else id ← put_object XattrsKind (to_vec (mkXattrs entries)); mret (Some id).

(** [stable_metadata] *)
Definition stable_metadata (before after : Inode) : bool :=
  (ino before =? ino after)
  && match body before, body after with Regular b, Regular a => blen b =? blen a | _, _ => false end
  && bool_decide (mtime before = mtime after) && bool_decide (ctime before = ctime after)
  && (st_mode before =? st_mode after).

(** One attempt; [wall] is what the wall clock shows at a tick of the disk. *)
Definition read_attempt (wall : nat → Z) (p : Place) : M (Work St) (option FileRead) :=
  w ← get;
  let now := wall (ticks (disk w)) in
  before ← lift (symlink_metadata p (disk w));
  _ ← lift (read_file_at p (disk w));
  xattrs ← on_objects (capture_xattrs before);
  reads ← on_disk (λ d, let '(reads, d) := reading p d in (Ok reads, d));
  chunked ← on_objects (store_chunks reads);
  w ← get;
  after ← lift (symlink_metadata p (disk w));
  if stable_metadata before after then
    blob ← on_objects (put_object BlobKind (to_vec (mkBlob (ck_chunks chunked) (ck_total_len chunked))));
    mret (Some (mkFileRead blob xattrs (ck_sqlite chunked) after now))
  else mret None.
Fixpoint read_retry (attempts : nat) (wall : nat → Z) (p : Place) : M (Work St) FileRead :=
  match attempts with
  | O => fail "file changed repeatedly while being captured"
  | S attempts =>
    r ← read_attempt wall p;
    match r with Some read => mret read | None => read_retry attempts wall p end
  end.
Definition read_file (wall : nat → Z) (p : Place) : M (Work St) FileRead := read_retry 3 wall p.
Definition capture_file (wall : nat → Z) (p : Place) : M (Work St) ObjectId := read ← read_file wall p; mret (fr_blob read).

(** ** Restoring a file *)

Definition restorable_xattrs (es : list XattrEntry) : list XattrEntry :=
  base.filter (λ x, is_system_managed (xattr_name x) = false) es.

Definition read_struct_at {A} `{Json A} (k : ObjectKind) (id : ObjectId) (s : St) : Res A :=
  b ← read_object k id s; with_context (from_slice b) "decode object".

Fixpoint fetch_chunks (s : St) (cs : list ChunkRef) (out : bytes) : Res bytes :=
  match cs with
  | [] => Ok out
  | c :: cs =>
    b ← read_object Chunk (cr_id c) s;
    _ ← ensure (blen b =? cr_len c) "chunk length mismatch";
    fetch_chunks s cs (out ++ b)
  end.

Definition set_xattrs (xs : list XattrEntry) (i : Inode) : Inode :=
  foldl (λ i x, with_attrs (<[xattr_name x := xattr_value x]>) i) i xs.
Definition with_data (data : bytes) (i : Inode) : Inode := mkInode (ino i) (Regular data) (st_mode i) (mtime i) (ctime i) (attrs i).

Definition restore_file (destination : Place) (entry : TreeEntry) : M (Work St) () :=
  w ← get;
  id ← lift (with_context (target entry) "file missing blob ID");
  blob ← lift (read_struct_at BlobKind id (store w) : Res Blob);
  temp ← on_disk (new_temp (parent destination));
  data ← lift (fetch_chunks (store w) (chunks blob) []);
  let temp := chmod (mode entry) (with_data data temp) in
  temp ← match xattrs entry with
         | None => mret temp
         | Some id => xs ← lift (read_struct_at XattrsKind id (store w) : Res Xattrs);
                      mret (set_xattrs (restorable_xattrs (xattr_entries xs)) temp)
         end;
  _ ← on_disk (persist temp destination);
  on_disk (set_file_mtime destination (mtime_secs entry, mtime_nanos entry)).
End Files.
