(* ===== verification/Rewind.v ===== *)
(** * Rewind: a snapshot back onto the disk ([furrow-core/src/repository.rs])

    The difference between what is on disk and the snapshot is planned path by
    path, checked against the disk, carried out directories first, files next,
    removals deepest first, directory times last, and checked again. On an error
    the state before is planned and carried out in the same way. The workspace is
    an ordinary one, without a composed directory. *)

From S2P Require Import Prelude Model Tree Paths Disk Files Policy.
#[local] Open Scope Z_scope.

Inductive Action := Restore | Remove | Replace.
#[export] Instance Action_eq_dec : EqDecision Action.
Proof. solve_decision. Defined.
(** [path] only displays [raw_path]. *)
Record RewindChange := mkRewindChange { change_action : Action; raw_path : bytes }.
#[export] Instance RewindChange_eq_dec : EqDecision RewindChange.
Proof. solve_decision. Defined.
Record HeldPath := mkHeld { held_path : bytes; held_twin : bytes }.
Definition covers_path (h : HeldPath) (path : bytes) : bool := inside path (held_path h).
(** Without the digests, which are for display. *)
Record RewindPlan := mkRewindPlan { plan_changes : list RewindChange; plan_held : list HeldPath }.

(** How the file system folds names: whether it does, and the spelling the
    names of one group share. *)
Record NameFolding := mkFolding { fold_active : bool; fold_key : bytes → bytes }.

Section Rewind.
Context `{Platform} {St : Type} `{ObjectStore St, Json Blob, Json Xattrs, Json TreeEntry, Json TreePage, Json Tree, Json Snapshot}.
Variable reading : Place → Disk → list (Res bytes) * Disk.
(** The names of the temporary links, by a counter of the process. *)
Variable link_name : nat → bytes.
(** For the walks over a directory's pages, and how deep directories nest. *)
Variable fuel depth : nat.

(** ** Planning *)

Definition directory_target_only_difference (before after : option TreeEntry) : bool :=
  match before, after with
  | Some b, Some a =>
    let bare e := mkTreeEntry (name e) (kind e) None (link_target e) (mode e) (size e) (mtime_secs e) (mtime_nanos e) (xattrs e) (class e) in
    bool_decide (kind b = Directory) && bool_decide (kind a = Directory) && bool_decide (bare b = bare a)
  | _, _ => false
  end.
Definition subtree_of (o : option TreeEntry) : option ObjectId :=
  e ← o; if decide (kind e = Directory) then target e else None.
Definition action_of (before after : option TreeEntry) : Action :=
  match before with None => Restore | Some _ => match after with None => Remove | Some _ => Replace end end.

(** [rec] compares the subtrees. *)
Definition record_tree_difference
    (rec : option ObjectId → option ObjectId → bytes → list RewindChange → Res (list RewindChange))
    (prefix : bytes) (selections : list bytes) (before after : option TreeEntry) (changes : list RewindChange)
    : Res (list RewindChange) :=
  entry ← with_context (match before with Some b => Some b | None => after end) "tree difference has no entry";
  _ ← validate_name (name entry);
  let path := key_under prefix (name entry) in
  if bool_decide (before = None) && match after with Some a => bool_decide (kind a = SocketMarker) | None => false end then Ok changes
  else
    let parent_selected := selected path selections in
    let change_start := length changes in
    let changes := if parent_selected then changes ++ [mkRewindChange (action_of before after) path] else changes in
    changes ← (if subtree_intersects path selections then
                 match subtree_of before, subtree_of after with
                 | None, None => Ok changes
                 | b, a => rec b a path changes
                 end
               else Ok changes);
    Ok (if parent_selected && (length changes =? change_start + 1)%nat && directory_target_only_difference before after
        then removelast changes else changes).

Fixpoint diff_directory (depth : nat) (s : St) (selections : list bytes) (before after : option ObjectId) (prefix : bytes)
    (changes : list RewindChange) : Res (list RewindChange) :=
  match depth with
  | O => Err "fuel"
  | S depth =>
    let visit b a := record_tree_difference (diff_directory depth s selections) prefix selections b a in
    match before, after with
    | Some before, Some after => diff_entries visit fuel fuel s before after changes
    | Some before, None => for_each_entry (λ e, visit (Some e) None) fuel s before changes
    | None, Some after => for_each_entry (λ e, visit None (Some e)) fuel s after changes
    | None, None => Ok changes
    end
  end.

Fixpoint lookup_components (s : St) (tree_id : ObjectId) (names : list bytes) : Res (option TreeEntry) :=
  match names with
  | [] => Ok None
  | name :: names =>
    _ ← validate_name name;
    o ← find_entry fuel s tree_id name;
    match o with
    | None => Ok None
    | Some entry =>
      if bool_decide (names = []) then Ok (Some entry)
      else if decide (kind entry = Directory) then
        t ← with_context (target entry) "directory missing tree ID"; lookup_components s t names
      else Ok None
    end
  end.
Definition lookup_tree_path (s : St) (root : ObjectId) (path : bytes) : Res (option TreeEntry) :=
  lookup_components s root (split_on slash path).

(** [BTreeMap<Vec<u8>, FlatEntry>] *)
Abbreviation Entries := (gmap bytes TreeEntry).

Fixpoint flatten_into (depth : nat) (s : St) (tree_id : ObjectId) (prefix : bytes) (output : Entries) : Res Entries :=
  match depth with
  | O => Err "fuel"
  | S depth =>
    for_each_entry (λ entry output,
      _ ← validate_name (name entry);
      let path := key_under prefix (name entry) in
      let output := <[path := entry]> output in
      if decide (kind entry = Directory) then
        t ← with_context (target entry) "directory missing tree ID"; flatten_into depth s t path output
      else Ok output) fuel s tree_id output
  end.
Definition flatten_tree (s : St) (root : ObjectId) : Res Entries := flatten_into depth s root [] ∅.

(** The name kept of each folded group of a directory of the target. *)
Definition kept_names (s : St) (target_root : ObjectId) (parent : bytes) (folding : NameFolding) : Res (gmap bytes bytes) :=
  tree ← (if bool_decide (parent = []) then Ok (Some target_root)
          else o ← lookup_tree_path s target_root parent; Ok (e ← o; target e));
  match tree with
  | None => Ok ∅
  | Some tree =>
    for_each_entry (λ entry kept,
      let key := fold_key folding (name entry) in
      Ok (match kept !! key with Some _ => kept | None => <[key := name entry]> kept end)) fuel s tree ∅
  end.
(** With the directories seen so far. *)
Fixpoint colliding_loop (s : St) (folding : NameFolding) (target_root : ObjectId) (changes : list RewindChange)
    (directories : gmap bytes (gmap bytes bytes)) (held : list HeldPath) : Res (list HeldPath) :=
  match changes with
  | [] => Ok held
  | change :: changes =>
    if decide (change_action change = Remove) then colliding_loop s folding target_root changes directories held
    else
      let '(parent, name) := split_parent (raw_path change) in
      directories ← (match directories !! parent with
                     | Some _ => Ok directories
                     | None => kept ← kept_names s target_root parent folding; Ok (<[parent := kept]> directories)
                     end);
      let kept := default ∅ (directories !! parent) in
      let held := match kept !! fold_key folding name with
                  | Some twin => if decide (twin = name) then held else held ++ [mkHeld (raw_path change) twin]
                  | None => held
                  end in
      colliding_loop s folding target_root changes directories held
  end.
Definition colliding_paths (s : St) (folding : NameFolding) (target_root : ObjectId) (changes : list RewindChange) : Res (list HeldPath) :=
  if negb (fold_active folding) then Ok [] else colliding_loop s folding target_root changes ∅ [].

(** What [plan_rewind] does once the disk is captured as [current]: paths of the
    furrow directory and of what either policy leaves out are not planned. *)
Definition plan_changes_of (s : St) (folding : NameFolding) (protected : CapturePolicy) (current target_root : ObjectId) (paths : list bytes)
    : Res RewindPlan :=
  changes ← diff_directory depth s paths (Some current) (Some target_root) [] [];
  let changes := base.filter (λ change,
    negb (bool_decide (raw_path change = b_ ".furrow")) && negb (is_identity_path (raw_path change))
    && negb (excludes protected (raw_path change)) && negb (contains_ignored protected (raw_path change)) = true) changes in
  held ← colliding_paths s folding target_root changes;
  let changes := base.filter (λ change, existsb (λ h, covers_path h (raw_path change)) held = false) changes in
  Ok (mkRewindPlan changes held).

Fixpoint entries_for_plan (s : St) (root : ObjectId) (changes : list RewindChange) (entries : Entries) : Res Entries :=
  match changes with
  | [] => Ok entries
  | change :: changes =>
    if decide (change_action change = Remove) then entries_for_plan s root changes entries
    else
      o ← lookup_tree_path s root (raw_path change);
      entry ← with_context o "target snapshot is missing a path";
      entries_for_plan s root changes (<[raw_path change := entry]> entries)
  end.
Fixpoint entries_for_changed_paths (s : St) (root : ObjectId) (changes : list RewindChange) (entries : Entries) : Res Entries :=
  match changes with
  | [] => Ok entries
  | change :: changes =>
    o ← lookup_tree_path s root (raw_path change);
    entries_for_changed_paths s root changes (match o with Some entry => <[raw_path change := entry]> entries | None => entries end)
  end.

(** ** Checking *)

Fixpoint no_links (pre : Place) (rest : Place) (d : Disk) : Res () :=
  match rest with
  | [] => Ok ()
  | name :: rest =>
    _ ← match symlink_metadata (pre ++ [name]) d with
        | Ok i => ensure (negb (is_link i)) "refusing to traverse symlink parent during rewind"
        | Err _ => Ok ()
        end;
    no_links (pre ++ [name]) rest d
  end.
Definition ensure_safe_parent (destination : Place) (d : Disk) : Res () := no_links [] (parent destination) d.

(** Attributes the file system can hold; those that differ are set. *)
Fixpoint match_xattrs (p : Place) (xs : list XattrEntry) : M Disk () :=
  match xs with
  | [] => mret ()
  | x :: xs =>
    d ← get;
    i ← lift (symlink_metadata p d);
    _ ← (if bool_decide (attrs i !! xattr_name x = Some (xattr_value x)) then mret ()
         else xattr_set p (xattr_name x) (xattr_value x));
    match_xattrs p xs
  end.
Definition xattrs_match_best_effort (p : Place) (expected : option ObjectId) : M (Work St) bool :=
  match expected with
  | None => mret true
  | Some id =>
    w ← get;
    xs ← lift (read_struct_at XattrsKind id (store w) : Res Xattrs);
    _ ← on_disk (match_xattrs p (restorable_xattrs (xattr_entries xs)));
    mret true
  end.

Definition kind_matches (k : EntryKind) (b : Body) : bool :=
  match k, b with
  | File, Regular _ | Directory, Folder | Symlink, Link _ | Fifo, Pipe | SocketMarker, _ => true
  | _, _ => false
  end.
(** Modes and times of a place are those of the entry. *)
Definition times_match (i : Inode) (entry : TreeEntry) : bool :=
  (st_mode i =? mode entry) && ((mtime i).1 =? mtime_secs entry) && (Z.max (mtime i).2 0 =? mtime_nanos entry).
Definition path_matches_entry (wall : nat → Z) (p : Place) (entry : TreeEntry) : M (Work St) bool :=
  w ← get;
  match symlink_metadata p (disk w) with
  | Err e => if bool_decide (e = ENOENT) then mret (bool_decide (kind entry = SocketMarker)) else fail e
  | Ok i =>
    if bool_decide (kind entry = SocketMarker) then mret true
    else if negb (kind_matches (kind entry) (body i)) then mret false
    else match body i with
    | Link dest => mret (bool_decide (dest = link_target entry))
    | b =>
      if negb (times_match i entry) then mret false
      else
        same ← match b with
               | Regular data =>
                 if negb (blen data =? size entry) then mret false
                 else blob ← capture_file reading wall p; mret (bool_decide (target entry = Some blob))
               | _ => mret true
               end;
        if negb (same : bool) then mret false
        else match kind entry with
             | File | Directory => xattrs_match_best_effort p (xattrs entry)
             | _ => mret true
             end
    end
  end.

Definition absent (p : Place) (d : Disk) : bool :=
  match symlink_metadata p d with Ok _ => false | Err e => bool_decide (e = ENOENT) || bool_decide (e = ENOTDIR) end.
Definition verify_change (wall : nat → Z) (expected : Entries) (selections : list bytes) (change : RewindChange) : M (Work St) () :=
  let path := raw_path change in
  if bool_decide (path = b_ ".furrow") || is_identity_path path then mret ()
  else if negb (selected path selections) then mret ()
  else
    p ← lift (safe_join path);
    w ← get;
    _ ← lift (ensure_safe_parent p (disk w));
    matches ← match expected !! path with
              | Some entry => path_matches_entry wall p entry
              | None => mret (absent p (disk w))
              end;
    mensure matches "workspace path changed during rewind".
Definition verify_plan_state (wall : nat → Z) (expected : Entries) (plan : RewindPlan) (selections : list bytes) : M (Work St) () :=
  mfor (plan_changes plan) (verify_change wall expected selections).

(** ** Carrying out *)

Definition OWNER_WRITABLE_DIR : Z := 0x1c0.
Definition prepare_directory (p : Place) (entry : TreeEntry) : M Disk () :=
  _ ← create_dir_all p; set_mode p (Z.lor (mode entry) OWNER_WRITABLE_DIR).
Definition finish_directory (p : Place) (entry : TreeEntry) : M Disk () :=
  _ ← set_mode p (mode entry); set_file_mtime p (mtime_secs entry, mtime_nanos entry).
Definition remove_path (p : Place) : M Disk () :=
  d ← get;
  i ← lift (symlink_metadata p d);
  if is_folder i then remove_dir_all p else remove_file p.

Definition directory_step (path : bytes) (entry : TreeEntry) : M Disk () :=
  p ← lift (safe_join path);
  d ← get;
  _ ← lift (ensure_safe_parent p d);
  _ ← match symlink_metadata p d with
      | Ok i => if is_folder i then mret () else remove_path p
      | Err _ => mret ()
      end;
  prepare_directory p entry.

Definition file_step (path : bytes) (entry : TreeEntry) : M (Work St) () :=
  p ← lift (safe_join path);
  w ← get;
  _ ← lift (ensure_safe_parent p (disk w));
  _ ← on_disk (create_dir_all (parent p));
  w ← get;
  let must_remove := match symlink_metadata p (disk w) with
                     | Ok i => is_folder i || negb (bool_decide (kind entry = File)) || is_link i
                     | Err _ => false
                     end in
  _ ← (if must_remove then on_disk (remove_path p) else mret ());
  match kind entry with
  | File => restore_file p entry
  | Symlink => on_disk (_ ← symlink (link_target entry) p;
                        set_symlink_file_times p (mtime_secs entry, mtime_nanos entry))
  | Fifo => on_disk (create_fifo p (mode entry))
  | SocketMarker | Directory => mret ()
  end.

Definition removal_step (path : bytes) : M Disk () :=
  p ← lift (safe_join path);
  d ← get;
  _ ← lift (ensure_safe_parent p d);
  if exists_at p d then remove_path p else mret ().

Definition finish_step (path : bytes) (entry : TreeEntry) : M Disk () := p ← lift (safe_join path); finish_directory p entry.

(** [sort_by_key(|path| Reverse(path.len()))], which is stable. *)
Definition removals (plan : RewindPlan) : list bytes :=
  merge_sort longer
    (map raw_path (base.filter (λ c, change_action c = Remove) (plan_changes plan))).

(** *** Hard links *)

Definition stat_matches_entry (i : Inode) (entry : TreeEntry) : bool :=
  match body i with Regular data => times_match i entry && (blen data =? size entry) | _ => false end.
Definition intact_member (root_tree : ObjectId) (selections : list bytes) (path : bytes) (w : Work St) : Res (option Place) :=
  if negb (selected path selections) then Ok None
  else
    place ← safe_join path;
    o ← lookup_tree_path (store w) root_tree path;
    match o with
    | Some entry =>
      if decide (kind entry = File) then
        Ok (match symlink_metadata place (disk w) with
            | Ok i => if stat_matches_entry i entry then Some place else None
            | Err _ => None
            end)
      else Ok None
    | None => Ok None
    end.
(** The link is made beside the member and renamed over it. *)
Definition relink (counter : nat) (anchor member : Place) : M Disk () :=
  let beside := parent member ++ [link_name counter] in
  _ ← hard_link anchor beside;
  r ← try_ (rename beside member);
  match r with
  | Ok _ => mret ()
  | Err e => _ ← try_ (remove_file beside); fail e
  end.

Fixpoint intact_members (members : list bytes) (intact : bytes → Work St → Res (option Place)) : M (Work St) (list (bytes * Place)) :=
  match members with
  | [] => mret []
  | path :: members =>
    w ← get;
    o ← lift (intact path w);
    rest ← intact_members members intact;
    mret (match o with Some place => (path, place) :: rest | None => rest end)
  end.
Fixpoint link_members (counter : nat) (anchor : Place) (rest : list (bytes * Place)) : M Disk (list bytes) :=
  match rest with
  | [] => mret []
  | (path, place) :: rest =>
    d ← get;
    a ← lift (symlink_metadata anchor d);
    m ← lift (symlink_metadata place d);
    unlinked ← (if ino a =? ino m then mret []
                else r ← try_ (relink counter anchor place); mret (match r with Ok _ => [] | Err _ => [path] end));
    more ← link_members (S counter) anchor rest;
    mret (unlinked ++ more)
  end.
Fixpoint restore_groups (counter : nat) (groups : list LinkGroup) (intact : bytes → Work St → Res (option Place)) : M (Work St) (list bytes) :=
  match groups with
  | [] => mret []
  | group :: groups =>
    members ← intact_members (link_paths group) intact;
    unlinked ← match members with
               | [] => mret []
               | (_, anchor) :: rest => on_disk (link_members counter anchor rest)
               end;
    more ← restore_groups (counter + length members) groups intact;
    mret (unlinked ++ more)
  end.
(** [restore_links]; what stays unlinked is only warned of. *)
Definition restore_links (snapshot : Snapshot) (selections : list bytes) (protected : CapturePolicy) : M (Work St) () :=
  _ ← restore_groups 0 (hardlinks snapshot)
        (λ path w, if excludes protected path then Ok None else intact_member (root_tree snapshot) selections path w);
  mret ().

(** *** The whole plan *)

Definition apply_plan (target_ : Entries) (plan : RewindPlan) (selections : list bytes) (links : option Snapshot) (protected : CapturePolicy)
    : M (Work St) () :=
  let changed := list_to_set (C := gset bytes) (map raw_path (plan_changes plan)) in
  let chosen := base.filter (λ '(path, _), path ∈ changed ∧ selected path selections = true) (btree_iter target_) in
  let directories := base.filter (λ '(_, entry), kind entry = Directory) chosen in
  let others := base.filter (λ '(_, entry), kind entry ≠ Directory) chosen in
  _ ← mfor directories (λ '(path, entry), on_disk (directory_step path entry));
  _ ← mfor others (λ '(path, entry), file_step path entry);
  _ ← mfor (base.filter (λ path, selected path selections = true) (removals plan)) (λ path, on_disk (removal_step path));
  _ ← match links with Some snapshot => restore_links snapshot selections protected | None => mret () end;
  mfor (reverse directories) (λ '(path, entry), on_disk (finish_step path entry)).
End Rewind.
