(* ===== verification/DiskTheory.v ===== *)
(** * DiskTheory: what the calls do to a well-formed disk

    Every call changes what is at one place, and the times of the directory
    above it. *)

From S2P Require Import Prelude Paths Disk.
#[local] Open Scope Z_scope.

(** An inode without its times. *)
Definition core (i : Inode) := (ino i, body i, st_mode i, attrs i).

(** Every entry lies in a directory; a directory has one place; inode numbers
    to come are new. *)
Record disk_ok (d : Disk) : Prop := {
  in_folder p i : p ≠ [] → nodes d !! p = Some i → ∃ j, nodes d !! parent p = Some j ∧ body j = Folder;
  one_place p q i j : nodes d !! p = Some i → nodes d !! q = Some j → ino i = ino j → p = q ∨ body i ≠ Folder ∧ body j ≠ Folder;
  ino_used p i : nodes d !! p = Some i → ino i < next_ino d;
}.

(** Nothing but [p] differs, and the times of the directory above it. *)
Definition only_at (p : Place) (d d' : Disk) : Prop :=
  (∀ q, q ≠ p → q ≠ parent p → nodes d' !! q = nodes d !! q)
  ∧ core <$> nodes d' !! parent p = core <$> nodes d !! parent p
  ∧ next_ino d ≤ next_ino d'.

Lemma only_at_trans p d d1 d2 : only_at p d d1 → only_at p d1 d2 → only_at p d d2.
Proof.
  intros (Ho & Hc & Hn) (Ho' & Hc' & Hn'). split_and!; [| by rewrite Hc' | lia].
  intros q Hq Hqp. by rewrite Ho', Ho.
Qed.

Section DiskTheory.
Context `{Platform}.

Definition searchable (i : Inode) : Prop := body i = Folder ∧ may_search (st_mode i) = true.
(** A directory whose entries may come and go. *)
Definition open_folder (i : Inode) : Prop := searchable i ∧ may_write (st_mode i) = true.
(** Every directory on the way to [p] can be searched. *)
Definition reach (d : Disk) (p : Place) : Prop :=
  ∀ a, a `prefix_of` p → a ≠ p → ∃ i, nodes d !! a = Some i ∧ searchable i.
Definition may_change (d : Disk) (p : Place) : Prop :=
  p ≠ [] ∧ reach d p ∧ ∃ i, nodes d !! parent p = Some i ∧ may_write (st_mode i) = true.

Lemma core_searchable i j : core i = core j → searchable i → searchable j.
Proof. unfold core, searchable. intros [= ? Hb Hm ?]. by rewrite Hb, Hm. Qed.
Lemma core_open i j : core i = core j → open_folder i → open_folder j.
Proof. intros Hc [? ?]. split; [by eapply core_searchable |]. injection Hc as ? ? <- ?. done. Qed.
Lemma core_lookup (o o' : option Inode) i : core <$> o' = core <$> o → o = Some i → ∃ j, o' = Some j ∧ core i = core j.
Proof. intros E ->. destruct o' as [j|]; [| done]. simpl in E. exists j. split; congruence. Qed.
Lemma core_none (o o' : option Inode) : core <$> o' = core <$> o → o = None → o' = None.
Proof. intros E ->. by destruct o'. Qed.

Lemma reach_core d d' p :
  (∀ a, a `prefix_of` p → a ≠ p → core <$> nodes d' !! a = core <$> nodes d !! a) → reach d p → reach d' p.
Proof.
  intros E Hr a Ha Hne. destruct (Hr a Ha Hne) as (i & Hi & Hs).
  destruct (core_lookup _ _ i (E a Ha Hne) Hi) as (j & Hj & Hc). exists j. eauto using core_searchable.
Qed.
Lemma reach_prefix d a p : a `prefix_of` p → reach d p → reach d a.
Proof.
  intros Ha Hr b Hb Hne. apply Hr; [by trans a |]. intros ->. apply Hne, (anti_symm prefix); done.
Qed.
Lemma reach_below d p q i : reach d p → nodes d !! p = Some i → searchable i → q ≠ [] → parent q = p → reach d q.
Proof.
  intros Hr Hi Hs Hq Hp a Ha Hne. apply strict_prefix_parent in Ha; [| done]. rewrite Hp in Ha.
  destruct (decide (a = p)) as [->|]; eauto.
Qed.
Lemma reach_nil d : reach d [].
Proof. intros a Ha Hne. by apply prefix_nil_inv in Ha. Qed.

(** ** Resolving *)

Lemma search_from d pre rest :
  (∀ a, pre `prefix_of` a → a `prefix_of` pre ++ rest → a ≠ pre ++ rest → ∃ i, nodes d !! a = Some i ∧ searchable i) →
  search d pre rest = Ok ().
Proof.
  revert pre. induction rest as [|n rest IH]; intros pre Hr; [done |]. cbn [search].
  destruct (Hr pre) as (i & -> & Hb & Hm); [done | by apply prefix_app_r | |].
  { intros E. rewrite <- (app_nil_r pre) in E at 1. by apply app_inv_head in E. }
  rewrite Hb, Hm. cbn. apply IH. intros a Ha Hap Hne. rewrite <- app_assoc in Hap, Hne. apply Hr; [| done..].
  trans (pre ++ [n]); [by apply prefix_app_r | done].
Qed.
Lemma search_reach d p : reach d p → search d [] p = Ok ().
Proof. intros Hr. apply search_from. intros a _. apply Hr. Qed.
Lemma search_folders d pre rest u :
  search d pre rest = Ok u →
  ∀ a, pre `prefix_of` a → a `prefix_of` pre ++ rest → a ≠ pre ++ rest → ∃ i, nodes d !! a = Some i ∧ searchable i.
Proof.
  revert pre. induction rest as [|n rest IH]; intros pre; cbn [search].
  { intros _ a Ha Hb Hne. rewrite app_nil_r in *. destruct Hne. by apply (anti_symm prefix). }
  destruct (nodes d !! pre) as [i|] eqn:Hi; [| done]. destruct (body i) eqn:Hb; try done. intros Hs. res_inv.
  intros a Ha Hap Hne. destruct (decide (a = pre)) as [->|Hap'].
  { exists i. done. }
  assert (pre ++ n :: rest = (pre ++ [n]) ++ rest) as E by by rewrite <- app_assoc. rewrite E in *.
  eapply IH; [done | | done..].
  destruct Ha as [t ->]. destruct t as [|m t]; [by rewrite app_nil_r in Hap' |].
  destruct Hap as [u' E']. rewrite <- !app_assoc in E'. apply app_inv_head in E'. simplify_eq/=.
  exists t. by rewrite <- app_assoc.
Qed.
Lemma reach_search d p u : search d [] p = Ok u → reach d p.
Proof. intros Hs a Ha Hne. eapply search_folders; [done | apply prefix_nil | done..]. Qed.

Lemma metadata_reach d p i : reach d p → nodes d !! p = Some i → symlink_metadata p d = Ok i.
Proof. intros Hr Hi. unfold symlink_metadata. by rewrite search_reach, Hi. Qed.
Lemma metadata_node d p i : symlink_metadata p d = Ok i → nodes d !! p = Some i.
Proof. unfold symlink_metadata. intros Hm. res_inv. done. Qed.
Lemma metadata_absent d p : reach d p → nodes d !! p = None → symlink_metadata p d = Err ENOENT.
Proof. intros Hr Hi. unfold symlink_metadata. by rewrite search_reach, Hi. Qed.
Lemma exists_at_false d p : nodes d !! p = None → exists_at p d = false.
Proof.
  unfold exists_at. destruct (symlink_metadata p d) eqn:E; [| done]. apply metadata_node in E. congruence.
Qed.
Lemma exists_at_true d p i : reach d p → nodes d !! p = Some i → exists_at p d = true.
Proof. intros Hr Hi. unfold exists_at. by rewrite (metadata_reach d p i). Qed.

(** ** The disk stays well-formed *)

Lemma only_at_core p d d' q : q ≠ p → only_at p d d' → core <$> nodes d' !! q = core <$> nodes d !! q.
Proof. intros Hq (Ho & Hp & _). destruct (decide (q = parent p)) as [->|]; [done |]. by rewrite Ho. Qed.

Lemma core_ino_body (o o' : option Inode) i :
  core <$> o' = core <$> o → o' = Some i → ∃ j, o = Some j ∧ ino j = ino i ∧ body j = body i.
Proof. intros E ->. destruct o as [j|]; [| done]. simpl in E. unfold core in E. simplify_eq. eauto. Qed.

Lemma disk_ok_only p d d' :
  p ≠ [] → disk_ok d → only_at p d d' →
  match nodes d' !! p with
  | None => ∀ q, p `prefix_of` q → q ≠ p → nodes d !! q = None
  | Some i =>
    (∃ j, nodes d !! parent p = Some j ∧ body j = Folder)
    ∧ (body i = Folder ∨ ∀ q, p `prefix_of` q → q ≠ p → nodes d !! q = None)
    ∧ (next_ino d ≤ ino i < next_ino d' ∨ ∃ i0, nodes d !! p = Some i0 ∧ ino i0 = ino i ∧ body i0 = Folder ∧ body i = Folder)
  end → disk_ok d'.
Proof.
  intros Hne [Hf Ho Hu] Hd Hp.
  assert (∀ q i, q ≠ p → nodes d' !! q = Some i → ∃ j, nodes d !! q = Some j ∧ ino j = ino i ∧ body j = body i) as Hc.
  { intros q i Hq. apply core_ino_body. by apply (only_at_core p). }
  pose proof Hd as (Hod & Hpd & Hn).
  assert (parent p ≠ p) as Hpp by by apply parent_ne.
  constructor.
  - intros q i Hq Hi. destruct (decide (q = p)) as [->|Hqp].
    + rewrite Hi in Hp. destruct Hp as [(j & Hj & Hb) _]. symmetry in Hpd.
      destruct (nodes d' !! parent p) as [j'|]; rewrite Hj in Hpd; simplify_eq/=. unfold core in Hpd. simplify_eq. exists j'. split; [done | congruence].
    + destruct (Hc q i Hqp Hi) as (j & Hj & _). destruct (Hf q j Hq Hj) as (k & Hk & Hkb).
      destruct (decide (parent q = p)) as [E|Hqpp].
      * rewrite E in *. assert (p `prefix_of` q) as Hpre by (rewrite <- E; apply parent_prefix).
        destruct (nodes d' !! p) as [i'|].
        -- destruct Hp as (_ & [?|Hno] & _); [by exists i' |]. rewrite Hno in Hj by done. done.
        -- rewrite Hp in Hj by done. done.
      * pose proof (only_at_core p d d' (parent q) Hqpp Hd) as E.
        destruct (core_lookup _ _ _ E Hk) as (k' & -> & Ek). exists k'. split; [done |].
        unfold core in Ek. congruence.
  - assert (∀ q i i', q ≠ p → nodes d' !! p = Some i → nodes d' !! q = Some i' → ino i = ino i' → body i ≠ Folder ∧ body i' ≠ Folder) as Hpq.
    { intros q i i' Hq Hi Hi' E. rewrite Hi in Hp. destruct (Hc q i' Hq Hi') as (j & Hj & Ej & Ebj).
      destruct Hp as (_ & _ & [Hr|(i0 & Hi0 & E0 & Hb0 & Hb)]); [pose proof (Hu q j Hj); lia |].
      destruct (Ho p q i0 j Hi0 Hj) as [?|[? ?]]; congruence. }
    intros q r i j Hi Hj E. destruct (decide (q = p)) as [->|Hq], (decide (r = p)) as [->|Hr].
    + by left.
    + right. by eapply Hpq.
    + right. apply and_comm. by eapply Hpq.
    + destruct (Hc q i Hq Hi) as (i0 & Hi0 & Ei & Ebi), (Hc r j Hr Hj) as (j0 & Hj0 & Ej & Ebj).
      rewrite <- Ebi, <- Ebj. apply (Ho q r i0 j0 Hi0 Hj0). congruence.
  - intros q i Hi. destruct (decide (q = p)) as [->|Hq].
    + rewrite Hi in Hp. destruct Hp as (_ & _ & [?|(i0 & Hi0 & E0 & _)]); [lia |]. pose proof (Hu p i0 Hi0). lia.
    + destruct (Hc q i Hq Hi) as (j & Hj & Ej & _). pose proof (Hu q j Hj). lia.
Qed.

(** ** Entries come and go *)

Lemma parent_reach d p : may_change d p → ∃ i, nodes d !! parent p = Some i ∧ open_folder i.
Proof.
  intros (Hne & Hr & i & Hi & Hw). exists i. split; [done |].
  destruct (Hr (parent p)) as (j & Hj & Hs); [apply parent_prefix | by apply parent_ne |].
  rewrite Hi in Hj. simplify_eq. by split.
Qed.
Lemma may_change_open d p i : p ≠ [] → reach d p → nodes d !! parent p = Some i → open_folder i → may_change d p.
Proof. intros ? ? ? [? ?]. split_and!; eauto. Qed.
Lemma may_change_core d d' p :
  (∀ a, a `prefix_of` p → a ≠ p → core <$> nodes d' !! a = core <$> nodes d !! a) → may_change d p → may_change d' p.
Proof.
  intros E Hc. pose proof Hc as (Hne & Hr & _). destruct (parent_reach d p Hc) as (i & Hi & Ho).
  destruct (core_lookup _ _ i (E (parent p) (parent_prefix p) (parent_ne p Hne)) Hi) as (j & Hj & Ec).
  apply (may_change_open d' p j); [done | by apply (reach_core d) | done | by eapply core_open].
Qed.

Lemma enter_run d p : may_change d p → enter p d = (Ok (), d).
Proof.
  intros (_ & Hr & i & Hi & Hw). unfold enter. mpure. rewrite search_reach by done. mpure. by rewrite Hi, Hw.
Qed.

Lemma fresh_bind {B} (f : Z → M Disk B) d : (fresh ≫= f) d = f (next_ino d) (mkDisk (nodes d) (next_ino d + 1) (ticks d)).
Proof. done. Qed.
Lemma tick_bind {B} (f : Z * Z → M Disk B) d : (tick ≫= f) d = f (clock (ticks d)) (mkDisk (nodes d) (next_ino d) (S (ticks d))).
Proof. done. Qed.

(** The entry at [p] has changed from [d] to [d1]; its directory is touched. *)
Lemma touch_entry p d d1 :
  p ≠ [] → (∀ q, q ≠ p → nodes d1 !! q = nodes d !! q) → next_ino d ≤ next_ino d1 →
  ∃ d', touch (parent p) d1 = (Ok (), d') ∧ only_at p d d' ∧ nodes d' !! p = nodes d1 !! p ∧ next_ino d' = next_ino d1.
Proof.
  intros Hne Hns Hn. pose proof (parent_ne p Hne) as Hp. eexists. split; [reflexivity |].
  unfold only_at, set_nodes. cbn [nodes next_ino]. split_and!; [| | done | | done].
  - intros q Hq Hqp. rewrite lookup_alter_ne by done. by apply Hns.
  - rewrite lookup_alter_eq, Hns by done. by destruct (nodes d !! parent p).
  - by rewrite lookup_alter_ne.
Qed.

(** What lies above an entry are directories; nothing lies below what is none. *)
Lemma above_folder d a q j : disk_ok d → nodes d !! q = Some j → a `prefix_of` q → a ≠ q → ∃ i, nodes d !! a = Some i ∧ body i = Folder.
Proof.
  intros Hok. revert j. induction q as [|n q IH] using rev_ind; intros j Hj Ha Hne; [by apply prefix_nil_inv in Ha |].
  apply strict_prefix_parent in Ha; [| done]. rewrite parent_snoc in Ha.
  destruct (in_folder d Hok (q ++ [n]) j) as (k & Hk & Hb); [by destruct q | done |]. rewrite parent_snoc in Hk.
  destruct (decide (a = q)) as [->|]; eauto.
Qed.
Lemma none_below d p q : disk_ok d → (∀ i, nodes d !! p = Some i → body i ≠ Folder) → p `prefix_of` q → q ≠ p → nodes d !! q = None.
Proof.
  intros Hok Hp Hq Hne. destruct (nodes d !! q) as [j|] eqn:Hj; [| done].
  destruct (above_folder d p q j) as (i & Hi & Hb); [done.. |]. by destruct (Hp i Hi).
Qed.

Lemma create_run d p b m :
  may_change d p → nodes d !! p = None →
  ∃ d' i, create p b m d = (Ok (), d') ∧ only_at p d d' ∧ nodes d' !! p = Some i ∧ next_ino d' = next_ino d + 1
    ∧ ino i = next_ino d ∧ body i = b ∧ st_mode i = m ∧ attrs i = ∅ ∧ mtime i = clock (ticks d).
Proof.
  intros Hc Hp. pose proof (proj1 Hc) as Hne. unfold create. mrun (enter_run d p Hc). mpure. rewrite Hp.
  rewrite mensure_bind by done. rewrite fresh_bind, tick_bind. mpure.
  match goal with |- context [touch (parent p) ?D1] => destruct (touch_entry p d D1) as (d' & -> & Ho & Hl & Hn) end;
    [done | intros q Hq; by apply lookup_insert_ne | unfold set_nodes; simpl; lia |].
  eexists d', _. split; [done |]. split; [done |]. split; [rewrite Hl; apply lookup_insert_eq | done].
Qed.
Lemma create_inv d p b m d' :
  p ≠ [] → create p b m d = (Ok (), d') → may_change d p ∧ nodes d !! p = None.
Proof.
  intros Hne Hrun. unfold create in Hrun. apply M_bind_ok in Hrun as ([] & d1 & Henter & Hrun).
  assert (may_change d p ∧ d1 = d) as [Hc ->].
  { unfold enter in Henter. mpure. rewrite get_bind in Henter. destruct (search d [] p) as [[]|] eqn:Es; [| done].
    rewrite lift_ok_bind in Henter. destruct (nodes d !! parent p) as [i|] eqn:Hi; [| done].
    unfold mensure, lift, ensure in Henter. destruct (may_write (st_mode i)) eqn:Hw; simplify_eq. split; [| done].
    split; [done |]. split; [by eapply reach_search | eauto]. }
  split; [done |]. rewrite get_bind in Hrun. destruct (nodes d !! p); [done | done].
Qed.
Lemma create_ok d d' p i :
  disk_ok d → may_change d p → nodes d !! p = None → only_at p d d' → nodes d' !! p = Some i →
  next_ino d' = next_ino d + 1 → ino i = next_ino d → disk_ok d'.
Proof.
  intros Hok Hc Hp Ho Hi Hn Hin. apply (disk_ok_only p d d'); [apply Hc | done | done |]. rewrite Hi. split_and!.
  - destruct (parent_reach d p Hc) as (j & Hj & [Hb _] & _). eauto.
  - right. intros q Hq Hne. apply (none_below d p); [done | congruence | done..].
  - left. lia.
Qed.

Lemma unlink_run d p :
  may_change d p → ∃ d', unlink p d = (Ok (), d') ∧ only_at p d d' ∧ nodes d' !! p = None.
Proof.
  intros Hc. pose proof (proj1 Hc) as Hne. unfold unlink. mrun (enter_run d p Hc). mpure.
  match goal with |- context [touch (parent p) ?D1] => destruct (touch_entry p d D1) as (d' & -> & Ho & Hl & _) end;
    [done | intros q Hq; by apply lookup_delete_ne | done |].
  exists d'. split_and!; [done.. |]. rewrite Hl. apply lookup_delete_eq.
Qed.

(** Everything at and below [p] is gone. *)
Definition cleared (p : Place) (d d' : Disk) : Prop :=
  (∀ q, p `prefix_of` q → nodes d' !! q = None)
  ∧ (∀ q, ¬ p `prefix_of` q → q ≠ parent p → nodes d' !! q = nodes d !! q)
  ∧ core <$> nodes d' !! parent p = core <$> nodes d !! parent p
  ∧ next_ino d ≤ next_ino d'.

Lemma cleared_core p d d' q : cleared p d d' → ¬ p `prefix_of` q → core <$> nodes d' !! q = core <$> nodes d !! q.
Proof. intros (_ & Ho & Hp & _) Hq. destruct (decide (q = parent p)) as [->|]; [done |]. by rewrite Ho. Qed.

Lemma unlink_cleared d p :
  disk_ok d → may_change d p → (∀ q, p `prefix_of` q → q ≠ p → nodes d !! q = None) →
  ∃ d', unlink p d = (Ok (), d') ∧ cleared p d d' ∧ disk_ok d'.
Proof.
  intros Hok Hc Hno. destruct (unlink_run d p Hc) as (d' & Hrun & Hd & Hp). exists d'. split; [done |].
  pose proof (proj1 Hc) as Hne. pose proof Hd as (Ho & Hcp & Hn). split; [split_and! |].
  - intros q Hq. destruct (decide (q = p)) as [->|Hqp]; [done |]. rewrite Ho; [by apply Hno | done |].
    intros ->. apply (parent_ne p Hne). apply (anti_symm prefix); [apply parent_prefix | done].
  - intros q Hq Hqp. apply Ho; [| done]. by intros ->.
  - done.
  - done.
  - apply (disk_ok_only p d d'); [done.. |]. by rewrite Hp.
Qed.

#[local] Instance longer_trans {A} : Transitive (@longer A).
Proof. unfold longer. intros x y z. lia. Qed.
#[local] Instance longer_total {A} : Total (@longer A).
Proof. unfold longer. intros x y. lia. Qed.

Lemma elem_of_below p d q : q ∈ below p d ↔ p `prefix_of` q ∧ is_Some (nodes d !! q).
Proof.
  unfold below. rewrite (merge_sort_Permutation longer), list_elem_of_filter, list_elem_of_fmap.
  split; intros [Hq Hex]; (split; [done |]).
  - destruct Hex as ([q' i] & -> & Hi%elem_of_map_to_list). eauto.
  - destruct Hex as [i Hi]. exists (q, i). split; [done |]. by apply elem_of_map_to_list.
Qed.
Lemma below_sorted p d : StronglySorted longer (below p d).
Proof. apply (StronglySorted_merge_sort longer). Qed.
Lemma below_NoDup p d : NoDup (below p d).
Proof.
  unfold below. rewrite (merge_sort_Permutation longer). apply NoDup_filter, NoDup_fst_map_to_list.
Qed.

(** The places of [l] are still to be removed. *)
Lemma remove_each p d l e :
  p ≠ [] → may_change d p →
  (∀ q i, p `prefix_of` q → nodes d !! q = Some i → body i = Folder → open_folder i) →
  StronglySorted longer l → NoDup l → (∀ q, q ∈ l → p `prefix_of` q) →
  disk_ok e → next_ino d ≤ next_ino e →
  (∀ q, ¬ p `prefix_of` q → core <$> nodes e !! q = core <$> nodes d !! q) →
  (∀ q, ¬ p `prefix_of` q → q ≠ parent p → nodes e !! q = nodes d !! q) →
  (∀ q, p `prefix_of` q → if decide (q ∈ l) then core <$> nodes e !! q = core <$> nodes d !! q ∧ is_Some (nodes d !! q) else nodes e !! q = None) →
  ∃ d', mfor l unlink e = (Ok (), d') ∧ cleared p d d' ∧ disk_ok d'.
Proof.
  intros Hpne Hc Hopen. revert e. induction l as [|h l IH]; intros e Hs Hnd Hl Hok Hn Hcore Hsame Hin.
  { exists e. split; [done |]. split; [| done]. split_and!; [| done | | done].
    - intros q Hq. specialize (Hin q Hq). rewrite decide_False in Hin by apply not_elem_of_nil. done.
    - by apply Hcore, parent_above. }
  apply StronglySorted_inv in Hs as [Hs Hh]. apply NoDup_cons in Hnd as [Hhl Hnd].
  assert (p `prefix_of` h) as Hph by (apply Hl; left).
  assert (h ≠ []) as Hhne. { intros ->. by apply prefix_nil_inv in Hph. }
  pose proof (Hin h Hph) as Hinh. rewrite decide_True in Hinh by left. destruct Hinh as [Hch [ih Hih]].
  destruct (core_lookup _ _ ih Hch Hih) as (jh & Hjh & _).
  assert (∀ a, a `prefix_of` h → a ≠ h → ∃ i, nodes e !! a = Some i ∧ (p `prefix_of` a → open_folder i) ∧ searchable i) as Hup.
  { intros a Ha Hane. destruct (above_folder e a h jh Hok Hjh Ha Hane) as (i & Hi & Hb). exists i. split; [done |].
    destruct (decide (p `prefix_of` a)) as [Hpa|Hpa].
    - assert (open_folder i) as Hoi; [| split; [done | apply Hoi]].
      specialize (Hin a Hpa). case_decide; [| congruence]. destruct Hin as [Hca [i0 Hi0]].
      rewrite Hi, Hi0 in Hca. simpl in Hca. apply (core_open i0); [congruence |]. apply (Hopen a); [done.. |].
      unfold core in Hca. congruence.
    - split; [done |]. apply (core_searchable (default i (nodes d !! a))).
      + pose proof (Hcore a Hpa) as E. rewrite Hi in E. destruct (nodes d !! a); [| done]. simpl in *. congruence.
      + destruct Hc as (_ & Hr & _). destruct (prefix_weak_total a p h Ha Hph) as [Hap|?]; [| done].
        destruct (Hr a Hap) as (i0 & -> & Hs0); [by intros -> | done]. }
  assert (may_change e h) as Hce.
  { destruct (Hup (parent h) (parent_prefix h) (parent_ne h Hhne)) as (i & Hi & Ho & Hsi).
    split; [done |]. split; [intros a Ha Hane; destruct (Hup a Ha Hane) as (k & ? & _ & ?); eauto |].
    exists i. split; [done |]. destruct (decide (h = p)) as [->|Hhp].
    - pose proof (parent_above p Hpne) as Hnp.
      destruct (parent_reach d p Hc) as (i0 & Hi0 & [_ Hw]). pose proof (Hcore _ Hnp) as E.
      rewrite Hi, Hi0 in E. simpl in E. unfold core in E. congruence.
    - apply Ho. by apply strict_prefix_parent. }
  destruct (unlink_cleared e h Hok Hce) as (e' & Hrun & Hcl & Hok').
  { intros q Hq Hqh. assert (p `prefix_of` q) as Hpq by by trans h. specialize (Hin q Hpq). case_decide as Hql; [| done].
    apply elem_of_cons in Hql as [?|Hql]; [done |]. rewrite Forall_forall in Hh. specialize (Hh q Hql). unfold longer in Hh.
    destruct Hq as [t ->]. rewrite length_app in Hh. destruct t; [by rewrite app_nil_r in Hqh | simpl in Hh; lia]. }
  cbn [mfor]. mrun Hrun. destruct Hcl as (Hgone & Hsm & Hcp & Hn').
  pose proof (parent_above h Hhne) as Hhp.
  assert (∀ q, ¬ h `prefix_of` q → core <$> nodes e' !! q = core <$> nodes e !! q) as Hce'.
  { intros q Hq. destruct (decide (q = parent h)) as [->|]; [done |]. by rewrite Hsm. }
  apply IH; [done.. | | done | lia | | |].
  - intros q Hq. apply Hl. by right.
  - intros q Hq. rewrite Hce'; [by apply Hcore |]. intros ?. apply Hq. by trans h.
  - intros q Hq Hqp. rewrite Hsm; [by apply Hsame | intros ?; apply Hq; by trans h |].
    intros ->. destruct (decide (h = p)) as [->|Hhp']; [done |]. apply Hq. by apply strict_prefix_parent.
  - intros q Hq. specialize (Hin q Hq). destruct (decide (h `prefix_of` q)) as [Hhq|Hhq].
    + rewrite (Hgone q Hhq). destruct (decide (q ∈ l)) as [Hql|]; [| done]. exfalso.
      rewrite Forall_forall in Hh. specialize (Hh q Hql). unfold longer in Hh.
      destruct Hhq as [t ->]. rewrite length_app in Hh. destruct t; [by rewrite app_nil_r in Hql | simpl in Hh; lia].
    + rewrite Hce' by done. destruct (decide (q ∈ l)) as [Hql|Hql].
      * rewrite decide_True in Hin by by right. done.
      * rewrite decide_False in Hin; [destruct (nodes e' !! q) eqn:E; [| done] |].
        -- pose proof (Hce' q Hhq) as Ec. rewrite E, Hin in Ec. done.
        -- intros [->|?]%elem_of_cons; [by apply Hhq | done].
Qed.

Lemma remove_dir_all_run d p :
  disk_ok d → may_change d p →
  (∀ q i, p `prefix_of` q → nodes d !! q = Some i → body i = Folder → open_folder i) →
  ∃ d', remove_dir_all p d = (Ok (), d') ∧ cleared p d d' ∧ disk_ok d'.
Proof.
  intros Hok Hc Hopen. unfold remove_dir_all. mpure.
  apply remove_each; [apply Hc | done | done | apply below_sorted | apply below_NoDup | | done | lia | done | done |].
  - by intros q [? _]%elem_of_below.
  - intros q Hq. case_decide as Hql; [by apply elem_of_below in Hql as [_ ?] |].
    destruct (nodes d !! q) eqn:E; [| done]. destruct Hql. apply elem_of_below. eauto.
Qed.
Lemma remove_file_run d p i :
  disk_ok d → may_change d p → nodes d !! p = Some i → body i ≠ Folder →
  ∃ d', remove_file p d = (Ok (), d') ∧ cleared p d d' ∧ disk_ok d'.
Proof.
  intros Hok Hc Hi Hb. unfold remove_file. mpure. rewrite (metadata_reach d p i) by (done || apply Hc). mpure.
  rewrite mensure_bind by (unfold is_folder; by destruct (body i)).
  apply unlink_cleared; [done.. |]. intros q. apply none_below; [done |]. intros j Hj. congruence.
Qed.

(** ** Modes and times *)

Lemma disk_ok_same d d' :
  (∀ q, (λ i, (ino i, body i)) <$> nodes d' !! q = (λ i, (ino i, body i)) <$> nodes d !! q) →
  next_ino d' = next_ino d → disk_ok d → disk_ok d'.
Proof.
  intros E En [Hf Ho Hu].
  assert (∀ q i, nodes d' !! q = Some i → ∃ j, nodes d !! q = Some j ∧ ino j = ino i ∧ body j = body i) as Hc.
  { intros q i Hi. specialize (E q). rewrite Hi in E. destruct (nodes d !! q) as [j|]; simplify_eq/=. eauto. }
  constructor.
  - intros p i Hp Hi. destruct (Hc p i Hi) as (j & Hj & _). destruct (Hf p j Hp Hj) as (k & Hk & Hb).
    specialize (E (parent p)). rewrite Hk in E. destruct (nodes d' !! parent p) as [k'|]; simplify_eq/=. exists k'. split; congruence.
  - intros p q i j Hi Hj Eij. destruct (Hc p i Hi) as (i0 & Hi0 & ? & ?), (Hc q j Hj) as (j0 & Hj0 & ? & ?).
    destruct (Ho p q i0 j0 Hi0 Hj0) as [?|[? ?]]; [congruence | by left |]. right. split; congruence.
  - intros p i Hi. destruct (Hc p i Hi) as (j & Hj & ? & _). pose proof (Hu p j Hj). lia.
Qed.

(** No other place names the inode at [p]. *)
Definition alone (d : Disk) (p : Place) (i : Inode) : Prop := ∀ q j, q ≠ p → nodes d !! q = Some j → ino j ≠ ino i.
Lemma folder_alone d p i : disk_ok d → nodes d !! p = Some i → body i = Folder → alone d p i.
Proof. intros Hok Hi Hb q j Hq Hj E. destruct (one_place d Hok q p j i Hj Hi E) as [?|[_ ?]]; done. Qed.

Lemma change_alone d p i f : nodes d !! p = Some i → alone d p i → change_inode (ino i) f d = set_nodes <[p := f i]> d.
Proof.
  intros Hi Ha. unfold change_inode, set_nodes. f_equal. apply map_eq. intros q. rewrite lookup_fmap.
  destruct (decide (q = p)) as [->|Hq].
  - rewrite lookup_insert_eq, Hi. simpl. by rewrite Z.eqb_refl.
  - rewrite lookup_insert_ne by done. destruct (nodes d !! q) as [j|] eqn:Hj; [| done]. simpl.
    by rewrite (proj2 (Z.eqb_neq _ _)) by by eapply Ha.
Qed.

(** The inode at [p] is [j] now; its number and kind are as before. *)
Definition renewed (p : Place) (j : Inode) (d d' : Disk) : Prop :=
  nodes d' = <[p := j]> (nodes d) ∧ next_ino d' = next_ino d.
Lemma renewed_ok p i j d d' :
  disk_ok d → nodes d !! p = Some i → ino j = ino i → body j = body i → renewed p j d d' → disk_ok d'.
Proof.
  intros Hok Hi En Eb [E En']. apply (disk_ok_same d d'); [| done | done]. intros q. rewrite E.
  destruct (decide (q = p)) as [->|Hq]; [rewrite lookup_insert_eq, Hi; simpl; congruence | by rewrite lookup_insert_ne].
Qed.

Lemma on_target_run d p i f :
  reach d p → nodes d !! p = Some i → is_link i = false → alone d p i →
  ∃ d' t, on_target p f d = (Ok (), d') ∧ renewed p (with_ctime t (f i)) d d'.
Proof.
  intros Hr Hi Hl Ha. unfold on_target. mpure. rewrite (metadata_reach d p i) by done. mpure.
  rewrite mensure_bind by by rewrite Hl. rewrite tick_bind. eexists _, _. split; [reflexivity |].
  rewrite (change_alone (mkDisk (nodes d) (next_ino d) (S (ticks d))) p i) by done. done.
Qed.
Lemma set_symlink_file_times_run d p i time :
  reach d p → nodes d !! p = Some i → alone d p i →
  ∃ d' t, set_symlink_file_times p time d = (Ok (), d') ∧ renewed p (with_ctime t (with_mtime time i)) d d'.
Proof.
  intros Hr Hi Ha. unfold set_symlink_file_times. mpure. rewrite (metadata_reach d p i) by done. mpure.
  rewrite tick_bind. eexists _, _. split; [reflexivity |].
  rewrite (change_alone (mkDisk (nodes d) (next_ino d) (S (ticks d))) p i) by done. done.
Qed.

(** ** Directories on the way *)

Lemma create_dirs_app pre l k d : create_dirs pre (l ++ k) d = (_ ← create_dirs pre l; create_dirs (pre ++ l) k) d.
Proof.
  revert pre d. induction l as [|n l IH]; intros pre d; [by rewrite app_nil_r |].
  cbn [app create_dirs]. mpure. rewrite !M_bind_assoc. mpure. rewrite M_bind_assoc.
  apply M_bind_ext. intros [] d'. rewrite IH. by rewrite <- app_assoc.
Qed.
Lemma create_dirs_there pre l d :
  (∀ a, a `prefix_of` l → a ≠ [] → ∃ i, nodes d !! (pre ++ a) = Some i ∧ body i = Folder) → create_dirs pre l d = (Ok (), d).
Proof.
  revert pre. induction l as [|n l IH]; intros pre Hl; [done |]. cbn [create_dirs]. mpure.
  destruct (Hl [n]) as (i & -> & Hb); [by exists l | done |].
  rewrite mensure_bind by (unfold is_folder; by rewrite Hb). apply IH. intros a Ha Hne.
  rewrite <- app_assoc. apply Hl; [by apply (prefix_app [n]) | done].
Qed.

(** The directory [p] is made, or left as it is. *)
Lemma create_dir_all_run d p :
  p ≠ [] → reach d p →
  match nodes d !! p with
  | Some i => body i = Folder
  | None => may_change d p
  end →
  create_dir_all p d = match nodes d !! p with Some _ => (Ok (), d) | None => mkdir p d end.
Proof.
  intros Hne Hr Hp. destruct (place_cases p) as [->|(q & n & ->)]; [done |].
  unfold create_dir_all. rewrite create_dirs_app.
  rewrite (M_bind_run _ _ _ tt d).
  2:{ apply create_dirs_there. intros a Ha _. destruct (Hr a) as (i & Hi & Hb & _); [by apply prefix_app_r | |].
      - intros ->. destruct Ha as [t E]. apply (f_equal length) in E. rewrite !length_app in E. simpl in E. lia.
      - by exists i. }
  cbn [create_dirs app]. mpure. destruct (nodes d !! (q ++ [n])) as [i|].
  - rewrite mensure_bind by (unfold is_folder; by rewrite Hp). done.
  - by destruct (mkdir (q ++ [n]) d) as [[[]|e] d'] eqn:E; unfold mbind, M_bind; rewrite E.
Qed.
Lemma create_dir_all_there d p : reach d p → (p = [] ∨ ∃ i, nodes d !! p = Some i ∧ body i = Folder) → create_dir_all p d = (Ok (), d).
Proof.
  intros Hr Hp. apply create_dirs_there. intros a Ha Hne. simpl. destruct (decide (a = p)) as [->|Hap].
  - by destruct Hp as [->|?].
  - destruct (Hr a Ha Hap) as (i & Hi & Hb & _). eauto.
Qed.

(** ** Temporary files *)

Lemma new_temp_run d p :
  may_change d p →
  ∃ d' i, new_temp (parent p) d = (Ok i, d')
    ∧ (∀ q, q ≠ parent p → nodes d' !! q = nodes d !! q) ∧ core <$> nodes d' !! parent p = core <$> nodes d !! parent p
    ∧ next_ino d' = next_ino d + 1 ∧ ino i = next_ino d ∧ st_mode i = 0x8180 ∧ attrs i = ∅.
Proof.
  intros Hc. assert (may_change d (parent p ++ [b_ ".tmp"])) as Hc'.
  { destruct (parent_reach d p Hc) as (i & Hi & Hs & Hw). destruct Hc as (Hne & Hr & _). split; [by destruct (parent p) |].
    rewrite parent_snoc. split; [| eauto]. intros a Ha Hane. apply strict_prefix_parent in Ha; [| done].
    rewrite parent_snoc in Ha. by apply Hr; apply prefix_parent. }
  unfold new_temp. mrun (enter_run d _ Hc'). rewrite fresh_bind, tick_bind. unfold touch. rewrite M_bind_assoc, tick_bind. mpure.
  eexists _, _. split; [reflexivity |]. cbn -[alter]. split_and!; try done.
  - intros q Hq. by rewrite lookup_alter_ne.
  - rewrite lookup_alter_eq. by destruct (nodes d !! parent p).
Qed.
Lemma persist_run d p temp :
  may_change d p → (∀ i, nodes d !! p = Some i → body i ≠ Folder) →
  ∃ d' t, persist temp p d = (Ok (), d') ∧ only_at p d d' ∧ nodes d' !! p = Some (with_ctime t temp) ∧ next_ino d' = next_ino d.
Proof.
  intros Hc Hp. pose proof (proj1 Hc) as Hne. unfold persist. mrun (enter_run d p Hc). mpure.
  rewrite mensure_bind by (unfold is_folder; destruct (nodes d !! p) as [i|]; [specialize (Hp i eq_refl); by destruct (body i) | done]).
  rewrite tick_bind. mpure.
  match goal with |- context [touch (parent p) ?D1] => destruct (touch_entry p d D1) as (d' & -> & Ho & Hl & Hn) end;
    [done | intros q Hq; by apply lookup_insert_ne | done |].
  eexists d', _. split; [done |]. split; [done |]. split; [rewrite Hl; apply lookup_insert_eq | done].
Qed.
End DiskTheory.
