(* ===== verification/PlanTheory.v ===== *)
(** * PlanTheory: a plan holds exactly the paths two trees differ at

    A directory object stands for a map from the places below it to entries.
    Looking a path up reads that map; the difference of two directories lists,
    with what to do, the selected paths at or above which the maps differ. *)

From S2P Require Import Prelude Model Tree TreeTheory Paths Disk Files Policy Rewind.
#[local] Open Scope Z_scope.

(** What a tree says is at each place. *)
Abbreviation View := (Place → option TreeEntry).

Section Plan.
Context {St : Type} {OS : ObjectStore St} {OSok : ObjectStoreOk St}.
Context {JT : Json Tree} {JTok : JsonOk Tree} {JE : Json TreeEntry} {JP : Json TreePage}.
Variable fuel : nat.

(** ** The map of a directory *)

(** What a view shows below one name. *)
Definition under (f : View) (nm : bytes) : View := λ q, match q with [] => None | _ => f (nm :: q) end.

(** The directory [id], whose subdirectories nest at most [n] deep, and its
    view. The walks have fuel enough for its pages. *)
Fixpoint holds (n : nat) (s : St) (id : ObjectId) (f : View) : Prop :=
  match n with
  | O => False
  | S n => ∃ d es,
    node d s id es ∧ sorted es ∧ (2 * (d + length es) + 3 < fuel)%nat ∧ Forall (λ e, valid_name (name e)) es
    ∧ f [] = None ∧ (∀ nm, found es nm (f [nm]))
    ∧ ∀ nm, match f [nm] with
            | Some e => if decide (kind e = Directory) then ∃ t, target e = Some t ∧ holds n s t (under f nm)
                        else ∀ q, under f nm q = None
            | None => ∀ q, under f nm q = None
            end
  end.
Definition holds_opt (n : nat) (s : St) (o : option ObjectId) (f : View) : Prop :=
  match o with Some id => holds n s id f | None => ∀ q, f q = None end.

Lemma holds_ext n s id f g : (∀ p, f p = g p) → holds n s id f → holds n s id g.
Proof.
  revert id f g. induction n as [|n IH]; intros id f g E; [done |].
  intros (d & es & Hn & Hs & Hf & Hv & Hnil & Hfound & Hsub). exists d, es. split_and!; try done.
  - by rewrite <- E.
  - intros nm. rewrite <- E. apply Hfound.
  - assert (∀ nm q, under f nm q = under g nm q) as Eu by (intros nm [|x q]; [done | apply E]).
    intros nm. specialize (Hsub nm). rewrite <- E. destruct (f [nm]) as [e|]; [case_decide |].
    + destruct Hsub as (t & Ht & Hh). exists t. split; [done |]. by apply (IH t (under f nm)).
    + intros q. by rewrite <- Eu.
    + intros q. by rewrite <- Eu.
Qed.

Lemma holds_mono n m s id f : (n ≤ m)%nat → holds n s id f → holds m s id f.
Proof.
  revert m id f. induction n as [|n IH]; intros [|m] id f Hle; [done | done | lia |].
  intros (d & es & Hn & Hs & Hf & Hv & Hnil & Hfound & Hsub). exists d, es. split_and!; try done.
  intros nm. specialize (Hsub nm). destruct (f [nm]) as [e|]; [case_decide |]; try done.
  destruct Hsub as (t & Ht & Hh). exists t. split; [done |]. apply IH; [lia | done].
Qed.

(** A directory has one view. *)
Lemma found_det es nm o o' : found es nm o → found es nm o' → o = o'.
Proof.
  intros Ho Ho'. apply option_eq. intros e. by rewrite (Ho e), (Ho' e).
Qed.
Lemma holds_det n m s id f g : holds n s id f → holds m s id g → ∀ p, f p = g p.
Proof.
  revert m id f g. induction n as [|n IH]; intros [|m] id f g; try done.
  intros (d & es & Hn & _ & _ & _ & Hnil & Hfound & Hsub) (d' & es' & Hn' & _ & _ & _ & Hnil' & Hfound' & Hsub') p.
  rewrite <- (node_det _ _ _ _ _ _ Hn Hn') in *. destruct p as [|nm q]; [congruence |].
  pose proof (found_det _ _ _ _ (Hfound nm) (Hfound' nm)) as E. specialize (Hsub nm). specialize (Hsub' nm). rewrite <- E in Hsub'.
  destruct q as [|x q]; [done |]. assert (under f nm (x :: q) = under g nm (x :: q)) as Eu; [| done].
  destruct (f [nm]) as [e|]; [case_decide |].
  - destruct Hsub as (t & Ht & Hh), Hsub' as (t' & Ht' & Hh'). rewrite Ht in Ht'. injection Ht' as <-. by apply (IH m t).
  - by rewrite Hsub, Hsub'.
  - by rewrite Hsub, Hsub'.
Qed.

(** What is in a view has a valid name, and lies in directories. *)
Lemma holds_valid n s id f p e : holds n s id f → f p = Some e → valid_place p ∧ p ≠ [].
Proof.
  revert id f p. induction n as [|n IH]; intros id f p; [done |].
  intros (d & es & _ & _ & _ & Hv & Hnil & Hfound & Hsub) He. destruct p as [|nm q]; [congruence |]. split; [| done].
  specialize (Hsub nm). destruct (f [nm]) as [e0|] eqn:E0.
  2: { destruct q as [|x q]; [congruence |]. specialize (Hsub (x :: q)). cbn in Hsub. congruence. }
  assert (valid_name nm) as Hnm.
  { apply Hfound in E0 as [Hin <-]. rewrite Forall_forall in Hv. by apply Hv. }
  destruct q as [|x q]; [by repeat constructor |]. constructor; [done |].
  case_decide; [| specialize (Hsub (x :: q)); cbn in Hsub; congruence].
  destruct Hsub as (t & _ & Hh). by apply (IH t (under f nm) (x :: q)).
Qed.
Lemma holds_above n s id f p e a :
  holds n s id f → f p = Some e → a `prefix_of` p → a ≠ p → a ≠ [] → ∃ e', f a = Some e' ∧ kind e' = Directory.
Proof.
  revert id f p a. induction n as [|n IH]; intros id f p a; [done |].
  intros (d & es & _ & _ & _ & _ & Hnil & _ & Hsub) He Ha Hne Han. destruct a as [|nm a]; [done |].
  destruct p as [|nm' q]; [by apply prefix_nil_inv in Ha |]. pose proof (prefix_cons_inv_1 _ _ _ _ Ha) as <-.
  apply prefix_cons_inv_2 in Ha. specialize (Hsub nm). destruct q as [|x q].
  { apply prefix_nil_inv in Ha as ->. done. }
  destruct (f [nm]) as [e0|] eqn:E0; [case_decide as Hk |]; try (specialize (Hsub (x :: q)); cbn in Hsub; congruence).
  destruct Hsub as (t & _ & Hh). destruct a as [|y a]; [eauto |].
  destruct (IH t (under f nm) (x :: q) (y :: a)) as (e' & ? & ?); [done.. | congruence | done |]. eauto.
Qed.

(** The view of a directory of one page. *)
Definition entry_named (es : list TreeEntry) (nm : bytes) : option TreeEntry := head (base.filter (λ e, name e = nm) es).
Definition page_view (es : list TreeEntry) (sub : bytes → View) : View := λ p,
  match p with
  | [] => None
  | nm :: q => e ← entry_named es nm;
               match q with [] => Some e | _ => if decide (kind e = Directory) then sub nm q else None end
  end.
Lemma entry_named_found es nm : sorted es → found es nm (entry_named es nm).
Proof.
  intros Hs e. unfold entry_named. destruct (base.filter (λ e, name e = nm) es) as [|e0 l] eqn:E; cbn [head].
  - split; [done |]. intros [He Hn]. assert (e ∈ base.filter (λ e, name e = nm) es) as Hin by by apply list_elem_of_filter.
    rewrite E in Hin. by apply not_elem_of_nil in Hin.
  - assert (e0 ∈ base.filter (λ e, name e = nm) es) as [Hn0 He0]%list_elem_of_filter by (rewrite E; left). split; [by intros [= <-] |].
    intros [He Hn]. f_equal. apply (sorted_NoDup_names es); congruence.
Qed.
Lemma holds_page n s id es sub :
  node 0 s id es → sorted es → (2 * length es + 3 < fuel)%nat → Forall (λ e, valid_name (name e)) es →
  (∀ e, e ∈ es → kind e = Directory → sub (name e) [] = None ∧ ∃ t, target e = Some t ∧ holds n s t (sub (name e))) →
  holds (S n) s id (page_view es sub).
Proof.
  intros Hn Hs Hfu Hv Hsub. exists 0%nat, es. split_and!; try done.
  - intros nm. assert (page_view es sub [nm] = entry_named es nm) as ->; [| by apply entry_named_found].
    unfold page_view. by destruct (entry_named es nm).
  - intros nm. pose proof (entry_named_found es nm Hs) as Hf. assert (page_view es sub [nm] = entry_named es nm) as ->
      by (unfold page_view; by destruct (entry_named es nm)).
    destruct (entry_named es nm) as [e|] eqn:E; [| intros [|x q]; [done |]; cbn; by rewrite E].
    destruct (proj1 (Hf e) eq_refl) as [He <-]. case_decide as Hk; [| intros [|x q]; [done |]; cbn; rewrite E; cbn; by rewrite decide_False].
    destruct (Hsub e He Hk) as (Hnil & t & Ht & Hh). exists t. split; [done |]. apply (holds_ext n s t (sub (name e))); [| done].
    intros [|x q]; [done |]. cbn. rewrite E. cbn. by rewrite decide_True.
Qed.

(** ** Looking a path up *)

Lemma lookup_components_ok n s id f p :
  holds n s id f → valid_place p → p ≠ [] → lookup_components fuel s id p = Ok (f p).
Proof.
  revert id f p. induction n as [|n IH]; intros id f p; [done |].
  intros (d & es & Hn & Hs & Hfuel & _ & Hnil & Hfound & Hsub) Hv Hne. destruct p as [|nm q]; [done |].
  inversion_clear Hv as [|?? Hnm Hq]. cbn [lookup_components]. rewrite Hnm. cbn [mbind Res_bind].
  destruct (find_entry_ok d fuel s id es nm Hn Hs ltac:(lia)) as (o & -> & Ho).
  rewrite (found_det _ _ _ _ Ho (Hfound nm)). cbn [mbind Res_bind]. specialize (Hsub nm).
  destruct q as [|x q].
  - destruct (f [nm]) as [e|]; [| done]. by rewrite bool_decide_eq_true_2.
  - assert (under f nm (x :: q) = f (nm :: x :: q)) as <- by done.
    destruct (f [nm]) as [e|]; [| by rewrite Hsub]. rewrite bool_decide_eq_false_2 by done.
    case_decide; [| by rewrite Hsub]. destruct Hsub as (t & -> & Hh). cbn [with_context mbind Res_bind]. by apply (IH t (under f nm)).
Qed.
Lemma lookup_tree_path_ok n s id f p :
  holds n s id f → valid_place p → p ≠ [] → lookup_tree_path fuel s id (raw p) = Ok (f p).
Proof. intros Hh Hv Hne. unfold lookup_tree_path. rewrite split_raw by done. by eapply lookup_components_ok. Qed.

(** ** The difference *)

(** Entries that differ in more than what a directory holds; a socket that is
    only in the target is nothing to restore. *)
Definition plain_difference (before after : option TreeEntry) : Prop :=
  before ≠ after ∧ directory_target_only_difference before after = false
  ∧ (before = None → ∀ e, after = Some e → kind e ≠ SocketMarker).
Definition changed (f g : View) (p : Place) : Prop := ∃ q, p `prefix_of` q ∧ plain_difference (f q) (g q).

Lemma target_only_self e : kind e = Directory → directory_target_only_difference (Some e) (Some e) = true.
Proof. intros Hk. unfold directory_target_only_difference. by rewrite Hk, !bool_decide_eq_true_2. Qed.
Lemma target_only_dirs o o' : directory_target_only_difference o o' = true →
  ∃ b a, o = Some b ∧ o' = Some a ∧ kind b = Directory ∧ kind a = Directory.
Proof.
  destruct o as [b|], o' as [a|]; try done. unfold directory_target_only_difference.
  intros [[?%bool_decide_eq_true ?%bool_decide_eq_true]%andb_true_iff _]%andb_true_iff. eauto 7.
Qed.

Lemma for_each_entry_ok {A} (visit : TreeEntry → A → Res A) d s id es a :
  node d s id es → (d + length es + 3 < fuel)%nat → for_each_entry visit fuel s id a = visit_all visit es a.
Proof.
  intros Hn Hf. unfold for_each_entry. destruct fuel as [|fu]; [lia |]. cbn [for_each_loop].
  destruct (next_entry_root d d (S fu) s id es Hn ltac:(lia) ltac:(lia)) as (st' & -> & Hst).
  destruct es as [|e es]; [done |]. cbn [head tail mbind Res_bind visit_all] in *.
  destruct (visit e a) as [a'|]; [| done]. cbn [mbind Res_bind].
  apply (for_each_loop_ok visit d); [done | lia | cbn in *; lia].
Qed.

Lemma visit_all_map {A B C} (h : B → C) (visit : C → A → Res A) l a :
  visit_all (λ b, visit (h b)) l a = visit_all visit (map h l) a.
Proof. revert a. induction l as [|b l IH]; intros a; [done |]. cbn. destruct (visit (h b) a); [apply IH | done]. Qed.

(** The pairs of entries of two directories that differ. *)
Lemma diff_pairs n m depth s sels o o' f g prefix changes :
  holds_opt (S n) s o f → holds_opt (S m) s o' g →
  ∃ ds, diff_directory fuel (S depth) s sels o o' prefix changes =
        visit_all (visit_pair (record_tree_difference (diff_directory fuel depth s sels) prefix sels)) ds changes
    ∧ ∀ pr, pr ∈ ds ↔ ∃ nm, pr = (f [nm], g [nm]) ∧ f [nm] ≠ g [nm].
Proof.
  set (visit := record_tree_difference (diff_directory fuel depth s sels) prefix sels).
  assert (∀ es h, (∀ nm, found es nm (h [nm])) → ∀ e, e ∈ es → h [name e] = Some e) as Hmem.
  { intros es h Hf e He. apply Hf. done. }
  destruct o as [b|], o' as [a|]; intros Hf Hg.
  - destruct Hf as (d & l & Hn & Hs & Hfu & _ & _ & Hfo & _), Hg as (d' & r & Hn' & Hs' & Hfu' & _ & _ & Hfo' & _).
    exists (diff_list l r). split.
    + cbn [diff_directory]. apply (diff_entries_ok visit fuel d d' (d + d')); try done; lia.
    + intros pr. rewrite diff_list_differ by done. split.
      * intros (nm & H1 & H2 & Hne). exists nm. rewrite <- (found_det _ _ _ _ H1 (Hfo nm)), <- (found_det _ _ _ _ H2 (Hfo' nm)).
        split; [by destruct pr | done].
      * intros (nm & -> & Hne). exists nm. done.
  - destruct Hf as (d & l & Hn & _ & Hfu & _ & _ & Hfo & _). exists (map (λ e, (Some e, None)) l). split.
    + cbn [diff_directory]. rewrite (for_each_entry_ok _ d s b l) by (done || lia). apply (visit_all_map (λ e, (Some e, None)) (visit_pair visit)).
    + intros pr. rewrite list_elem_of_fmap. split.
      * intros (e & -> & He). exists (name e). cbn in Hg. by rewrite (Hmem l f Hfo e He), Hg.
      * intros (nm & -> & Hne). cbn in Hg. rewrite Hg in *. destruct (f [nm]) as [e|] eqn:E; [| done].
        apply Hfo in E as [? _]. eauto.
  - destruct Hg as (d & l & Hn & _ & Hfu & _ & _ & Hfo & _). exists (map (λ e, (None, Some e)) l). split.
    + cbn [diff_directory]. rewrite (for_each_entry_ok _ d s a l) by (done || lia). apply (visit_all_map (λ e, (None, Some e)) (visit_pair visit)).
    + intros pr. rewrite list_elem_of_fmap. split.
      * intros (e & -> & He). exists (name e). cbn in Hf. by rewrite (Hmem l g Hfo e He), Hf.
      * intros (nm & -> & Hne). cbn in Hf. rewrite Hf in *. destruct (g [nm]) as [e|] eqn:E; [| done].
        apply Hfo in E as [? _]. eauto.
  - exists []. split; [done |]. intros pr. split; [by intros ?%not_elem_of_nil |]. intros (nm & _ & Hne). cbn in *. by rewrite Hf, Hg in Hne.
Qed.

Lemma under_holds n s id f nm :
  holds (S n) s id f → holds_opt n s (subtree_of (f [nm])) (under f nm) ∧ (∀ e, f [nm] = Some e → name e = nm ∧ valid_name nm).
Proof.
  intros (d & es & _ & _ & _ & Hv & _ & Hfound & Hsub). specialize (Hsub nm). split.
  - unfold subtree_of. destruct (f [nm]) as [e|]; [| done]. cbn. case_decide; [| done].
    destruct Hsub as (t & -> & Hh). done.
  - intros e He. apply Hfound in He as [Hin <-]. split; [done |]. rewrite Forall_forall in Hv. by apply Hv.
Qed.
Lemma under_holds_opt n s o f nm :
  holds_opt (S n) s o f → holds_opt n s (subtree_of (f [nm])) (under f nm) ∧ (∀ e, f [nm] = Some e → name e = nm ∧ valid_name nm).
Proof.
  destruct o as [id|]; [apply under_holds |]. cbn. intros Hf. rewrite Hf. split; [| done]. intros [|x q]; [done | apply Hf].
Qed.
(** Directories with one entry at a name have one view below it. *)
Lemma same_entry_same n s o o' f g nm q :
  holds_opt (S n) s o f → holds_opt (S n) s o' g → f [nm] = g [nm] → f (nm :: q) = g (nm :: q).
Proof.
  intros Hf Hg E. destruct q as [|x q]; [done |]. change (under f nm (x :: q) = under g nm (x :: q)).
  destruct (under_holds_opt n s o f nm Hf) as [Hf' _], (under_holds_opt n s o' g nm Hg) as [Hg' _]. rewrite <- E in Hg'.
  destruct (subtree_of (f [nm])) as [t|]; cbn in Hf', Hg'; [by apply (holds_det n n s t) | by rewrite Hf', Hg'].
Qed.

Lemma changed_under f g nm x q : changed f g (nm :: x :: q) ↔ changed (under f nm) (under g nm) (x :: q).
Proof.
  split.
  - intros (p & Hp & Hd). destruct p as [|nm' p]; [by apply prefix_nil_inv in Hp |].
    pose proof (prefix_cons_inv_1 _ _ _ _ Hp) as <-. apply prefix_cons_inv_2 in Hp.
    destruct p as [|y p]; [by apply prefix_nil_inv in Hp |]. exists (y :: p). done.
  - intros (p & Hp & Hd). destruct p as [|y p]; [by apply prefix_nil_inv in Hp |]. exists (nm :: y :: p). split; [by apply prefix_cons | done].
Qed.
Lemma changed_head f g nm : changed f g [nm] ↔ plain_difference (f [nm]) (g [nm]) ∨ ∃ x q, changed (under f nm) (under g nm) (x :: q).
Proof.
  split.
  - intros (p & [t ->] & Hd). destruct t as [|x t]; [by left |]. right. exists x, t. exists (x :: t). done.
  - intros [Hd|(x & q & Hc)]; [by exists [nm] |]. apply changed_under in Hc as (p & Hp & Hd). exists p.
    split; [| done]. trans (nm :: x :: q); [by exists (x :: q) | done].
Qed.

(** The changes a plan lists for the places that satisfy [on]. *)
Definition lists (sels : list bytes) (P : Place) (f g : View) (on : Place → Prop) (new : list RewindChange) : Prop :=
  ∀ c, c ∈ new ↔ ∃ p, on p ∧ c = mkRewindChange (action_of (f p) (g p)) (raw (P ++ p))
                      ∧ selected (raw (P ++ p)) sels = true ∧ changed f g p.

Lemma holds_opt_valid n s o f p e : holds_opt n s o f → f p = Some e → valid_place p.
Proof. destruct o; cbn; intros Hf E; [by eapply holds_valid in E as [? _] | by rewrite Hf in E]. Qed.
Lemma changed_valid n s o o' f g p : holds_opt n s o f → holds_opt n s o' g → changed f g p → valid_place p.
Proof.
  intros Hf Hg (q & Hq & Hd). apply (valid_prefix _ _ Hq). destruct (f q) eqn:Ef; [exact (holds_opt_valid _ _ _ _ _ _ Hf Ef) |].
  destruct (g q) eqn:Eg; [exact (holds_opt_valid _ _ _ _ _ _ Hg Eg) | by destruct Hd].
Qed.

Lemma lists_nil sels P f g on : (∀ p, on p → selected (raw (P ++ p)) sels = true → ¬ changed f g p) → lists sels P f g on [].
Proof. intros Hno c. split; [by intros ?%not_elem_of_nil |]. intros (p & Hp & _ & Hs & Hc). by destruct (Hno p). Qed.

Section Record.
Variables (k : nat) (s : St) (sels : list bytes) (o o' : option ObjectId) (f g : View) (P : Place) (nm : bytes).
(** The comparison of subdirectories is right already. *)
Hypothesis IH : ∀ o o' f g P changes, (o ≠ None ∨ o' ≠ None) → holds_opt k s o f → holds_opt k s o' g → valid_place P →
  ∃ new, diff_directory fuel k s sels o o' (raw P) changes = Ok (changes ++ new) ∧ lists sels P f g (λ p, p ≠ []) new.
Hypothesis Hf : holds_opt (S k) s o f.
Hypothesis Hg : holds_opt (S k) s o' g.
Hypothesis HP : valid_place (P ++ [nm]).

Lemma app_under x q : P ++ nm :: x :: q = (P ++ [nm]) ++ x :: q.
Proof. by rewrite <- app_assoc. Qed.
Lemma changed_place x q : changed f g (nm :: x :: q) → valid_place ((P ++ [nm]) ++ x :: q).
Proof.
  intros Hc. apply valid_place_app. split; [done |]. apply (changed_valid _ _ _ _ _ _ _ Hf Hg) in Hc. by inversion_clear Hc.
Qed.

(** What lies below the name. *)
Lemma sub_lists changes :
  ∃ sub, (if subtree_intersects (raw (P ++ [nm])) sels then
            match subtree_of (f [nm]), subtree_of (g [nm]) with
            | None, None => Ok changes
            | b, a => diff_directory fuel k s sels b a (raw (P ++ [nm])) changes
            end
          else Ok changes) = Ok (changes ++ sub)
    ∧ lists sels P f g (λ p, ∃ x q, p = nm :: x :: q) sub.
Proof.
  destruct (under_holds_opt k s o f nm Hf) as [Hfu _], (under_holds_opt k s o' g nm Hg) as [Hgu _].
  destruct (subtree_intersects (raw (P ++ [nm])) sels) eqn:Ei.
  2: { exists []. split; [by rewrite app_nil_r |]. apply lists_nil. intros p (x & q & ->) Hsel Hch. rewrite app_under in Hsel.
       rewrite (selected_intersects (P ++ [nm]) _ sels (changed_place x q Hch)) in Ei; [done | by apply prefix_app_r | done]. }
  destruct (decide (subtree_of (f [nm]) = None ∧ subtree_of (g [nm]) = None)) as [[E1 E2]|Hsome].
  - rewrite E1, E2 in *. cbn in Hfu, Hgu. exists []. split; [by rewrite app_nil_r |]. apply lists_nil.
    intros p (x & q & ->) _ (p' & _ & Hd & _)%changed_under. by rewrite Hfu, Hgu in Hd.
  - destruct (IH (subtree_of (f [nm])) (subtree_of (g [nm])) (under f nm) (under g nm) (P ++ [nm]) changes) as (sub & Hrun & Hl); [| done.. |].
    { destruct (subtree_of (f [nm])); [by left |]. destruct (subtree_of (g [nm])); [by right | by destruct Hsome]. }
    exists sub. split; [destruct (subtree_of (f [nm])), (subtree_of (g [nm])); done || by destruct Hsome |].
    intros c. rewrite (Hl c). split.
    + intros (p & Hp & -> & Hsel & Hch). destruct p as [|x q]; [done |]. exists (nm :: x :: q).
      rewrite app_under. split; [eauto |]. split; [done |]. split; [done |]. by apply changed_under.
    + intros (p & (x & q & ->) & -> & Hsel & Hch). exists (x :: q). rewrite app_under in *.
      split; [done |]. split; [done |]. split; [done |]. by apply changed_under.
Qed.

Lemma socket_lists :
  f [nm] = None → (∃ e, g [nm] = Some e ∧ kind e = SocketMarker) → ∀ q, ¬ changed f g (nm :: q).
Proof.
  intros Ef (e & Eg & Hk). destruct (under_holds_opt k s o f nm Hf) as [Hfu _], (under_holds_opt k s o' g nm Hg) as [Hgu _].
  rewrite Ef in Hfu. rewrite Eg in Hgu. unfold subtree_of in Hgu. cbn in Hfu, Hgu. rewrite decide_False in Hgu by congruence. cbn in Hgu.
  assert (∀ x q, ¬ changed f g (nm :: x :: q)) as Hno.
  { intros x q (p & _ & Hd & _)%changed_under. by rewrite Hfu, Hgu in Hd. }
  intros [|x q]; [| by apply Hno]. intros [(_ & _ & Hs)|(x & q & Hch)]%changed_head; [| by eapply Hno, changed_under].
  rewrite Ef, Eg in Hs. by apply (Hs eq_refl e).
Qed.

(** The name itself is listed unless only what the directory holds could
    differ, and nothing of that is listed. *)
Lemma changed_here sub :
  f [nm] ≠ g [nm] → (f [nm] = None → ∀ e, g [nm] = Some e → kind e ≠ SocketMarker) →
  selected (raw (P ++ [nm])) sels = true → lists sels P f g (λ p, ∃ x q, p = nm :: x :: q) sub →
  changed f g [nm] ↔ directory_target_only_difference (f [nm]) (g [nm]) = false ∨ sub ≠ [].
Proof.
  intros Hne Hsock Hsel Hl. rewrite changed_head. split.
  - intros [(_ & ? & _)|(x & q & Hc)]; [by left |]. right. apply changed_under in Hc.
    assert (mkRewindChange (action_of (f (nm :: x :: q)) (g (nm :: x :: q))) (raw (P ++ nm :: x :: q)) ∈ sub) as Hin; [| by intros ->; apply not_elem_of_nil in Hin].
    apply Hl. exists (nm :: x :: q). split; [eauto |]. split; [done |]. split; [| done]. rewrite app_under.
    apply (selected_below (P ++ [nm])); [by apply changed_place | by apply prefix_app_r | done].
  - intros [Hdt|Hsubne]; [by left |]. right. destruct sub as [|c sub]; [done |].
    destruct (proj1 (Hl c)) as (p & (x & q & ->) & _ & _ & Hc); [left |]. exists x, q. by apply changed_under.
Qed.

Lemma record_difference_ok changes :
  f [nm] ≠ g [nm] →
  ∃ new, record_tree_difference (diff_directory fuel k s sels) (raw P) sels (f [nm]) (g [nm]) changes = Ok (changes ++ new)
    ∧ lists sels P f g (λ p, ∃ q, p = nm :: q) new.
Proof.
  intros Hne. destruct (under_holds_opt k s o f nm Hf) as [_ Hfn], (under_holds_opt k s o' g nm Hg) as [_ Hgn].
  assert (∃ entry, match f [nm] with Some b => Some b | None => g [nm] end = Some entry ∧ name entry = nm ∧ valid_name nm) as (entry & Hentry & Hname & Hvn).
  { destruct (f [nm]) as [e|] eqn:Ef; [exists e; split; [done | by apply Hfn] |].
    destruct (g [nm]) as [e|] eqn:Eg; [exists e; split; [done | by apply Hgn] | done]. }
  unfold record_tree_difference. rewrite Hentry. cbn [with_context mbind Res_bind]. rewrite Hname, Hvn. cbn [mbind Res_bind].
  rewrite key_under_raw by by apply valid_place_app in HP as [? _].
  destruct (bool_decide (f [nm] = None) && _) eqn:Esock.
  { apply andb_true_iff in Esock as [Ef%bool_decide_eq_true Ek]. exists []. split; [by rewrite app_nil_r |].
    apply lists_nil. intros p (q & ->) _. apply socket_lists; [done |].
    destruct (g [nm]) as [e|]; [| done]. apply bool_decide_eq_true in Ek. eauto. }
  assert (f [nm] = None → ∀ e, g [nm] = Some e → kind e ≠ SocketMarker) as Hsock.
  { intros E e Ee Hk. rewrite E, Ee in Esock. cbn in Esock. by rewrite bool_decide_eq_true_2 in Esock. }
  set (this := mkRewindChange (action_of (f [nm]) (g [nm])) (raw (P ++ [nm]))).
  destruct (sub_lists (if selected (raw (P ++ [nm])) sels then changes ++ [this] else changes)) as (sub & -> & Hl). cbn [mbind Res_bind].
  destruct (selected (raw (P ++ [nm])) sels) eqn:Esel; cbn [andb].
  2: { exists sub. split; [done |]. intros c. rewrite (Hl c). split.
       - intros (p & (x & q & ->) & Hc). exists (nm :: x :: q). eauto.
       - intros (p & (q & ->) & -> & Hs & Hc). destruct q as [|x q]; [congruence |]. exists (nm :: x :: q). eauto 6. }
  pose proof (changed_here sub Hne Hsock Esel Hl) as Hch.
  destruct ((_ =? _)%nat && _) eqn:Eprune.
  - apply andb_true_iff in Eprune as [Elen%Nat.eqb_eq Edt]. rewrite !length_app in Elen. destruct sub; [| simpl in Elen; lia].
    rewrite app_nil_r, removelast_last. exists []. split; [by rewrite app_nil_r |].
    intros c. split; [by intros ?%not_elem_of_nil |]. intros (p & (q & ->) & Hc & Hs & Hcp). destruct q as [|x q].
    + apply Hch in Hcp as [?|?]; congruence.
    + apply Hl. exists (nm :: x :: q). eauto 6.
  - exists (this :: sub). rewrite <- app_assoc. split; [done |]. intros c. rewrite elem_of_cons, (Hl c). split.
    + intros [->|(p & (x & q & ->) & Hc)]; [| exists (nm :: x :: q); eauto]. exists [nm]. split; [eauto |]. split; [done |]. split; [done |].
      apply Hch. destruct (directory_target_only_difference (f [nm]) (g [nm])); [right | by left]. rewrite andb_true_r in Eprune.
      intros ->. rewrite app_nil_r, length_app in Eprune. by rewrite Nat.eqb_refl in Eprune.
    + intros (p & (q & ->) & -> & Hs & Hcp). destruct q as [|x q]; [by left | right]. exists (nm :: x :: q). eauto 6.
Qed.
End Record.

Lemma lists_app sels P f g on on' new new' :
  lists sels P f g on new → lists sels P f g on' new' → lists sels P f g (λ p, on p ∨ on' p) (new ++ new').
Proof. intros Hl Hl' c. rewrite elem_of_app, (Hl c), (Hl' c). naive_solver. Qed.
Lemma lists_iff sels P f g on on' new :
  (∀ p, changed f g p → on p ↔ on' p) → lists sels P f g on new → lists sels P f g on' new.
Proof. intros Hon Hl c. rewrite (Hl c). split; intros (p & Hp & Hc & Hs & Hch); exists p; (split; [by apply Hon | done]). Qed.

(** The names of a list of pairs, one after the other. *)
Lemma pairs_listed k s sels o o' f g P ds changes :
  (∀ nm changes, f [nm] ≠ g [nm] → ∃ new,
     record_tree_difference (diff_directory fuel k s sels) (raw P) sels (f [nm]) (g [nm]) changes = Ok (changes ++ new)
     ∧ lists sels P f g (λ p, ∃ q, p = nm :: q) new) →
  holds_opt (S k) s o f → holds_opt (S k) s o' g →
  (∀ pr, pr ∈ ds → ∃ nm, pr = (f [nm], g [nm]) ∧ f [nm] ≠ g [nm]) →
  ∃ new, visit_all (visit_pair (record_tree_difference (diff_directory fuel k s sels) (raw P) sels)) ds changes = Ok (changes ++ new)
    ∧ lists sels P f g (λ p, ∃ nm q, p = nm :: q ∧ (f [nm], g [nm]) ∈ ds) new.
Proof.
  intros Hrec Hf Hg. revert changes. induction ds as [|pr ds IH]; intros changes Hds.
  { exists []. split; [by rewrite app_nil_r |]. apply lists_nil. by intros p (nm & q & _ & ?%not_elem_of_nil). }
  destruct (Hds pr) as (nm & -> & Hne); [left |]. cbn [visit_all]. rewrite visit_pair_eq.
  destruct (Hrec nm changes Hne) as (new & -> & Hl). cbn [mbind Res_bind].
  destruct (IH (changes ++ new)) as (rest & -> & Hr); [intros pr Hpr; apply Hds; by right |].
  exists (new ++ rest). rewrite app_assoc. split; [done |]. apply (lists_iff _ _ _ _ _ _ _) with (2 := lists_app _ _ _ _ _ _ _ _ Hl Hr).
  intros p _. split.
  - intros [(q & ->)|(nm' & q & -> & ?)]; [exists nm, q; split; [done | left] | exists nm', q; split; [done | by right]].
  - intros (nm' & q & -> & [E|?]%elem_of_cons); [left | right; eauto]. exists q. f_equal. injection E as E1 E2.
    destruct (under_holds_opt k s o f nm Hf) as [_ Hfn], (under_holds_opt k s o' g nm Hg) as [_ Hgn].
    destruct (under_holds_opt k s o f nm' Hf) as [_ Hfn'], (under_holds_opt k s o' g nm' Hg) as [_ Hgn'].
    destruct (f [nm]) as [e|] eqn:Ef; [destruct (Hfn e eq_refl) as [<- _], (Hfn' e E1) as [<- _]; done |].
    destruct (g [nm]) as [e|] eqn:Eg; [destruct (Hgn e eq_refl) as [<- _], (Hgn' e E2) as [<- _]; done | done].
Qed.

Lemma diff_directory_ok k : ∀ s sels o o' f g P changes,
  (o ≠ None ∨ o' ≠ None) → holds_opt k s o f → holds_opt k s o' g → valid_place P →
  ∃ new, diff_directory fuel k s sels o o' (raw P) changes = Ok (changes ++ new) ∧ lists sels P f g (λ p, p ≠ []) new.
Proof.
  induction k as [|k IH]; intros s sels o o' f g P changes Hsome Hf Hg HP.
  { destruct o, o'; cbn in *; try done. by destruct Hsome. }
  destruct (diff_pairs k k k s sels o o' f g (raw P) changes Hf Hg) as (ds & -> & Hds).
  destruct (pairs_listed k s sels o o' f g P ds changes) as (new & Hrun & Hl); [| done | done | by intros pr ?%Hds |].
  { intros nm ch Hne. apply (record_difference_ok k s sels o o' f g P nm); try done; [by apply IH |].
    destruct (under_holds_opt k s o f nm Hf) as [_ Hfn], (under_holds_opt k s o' g nm Hg) as [_ Hgn]. apply valid_place_snoc. split; [done |].
    destruct (f [nm]) as [e|]; [by destruct (Hfn e) |]. destruct (g [nm]) as [e|]; [by destruct (Hgn e) | done]. }
  exists new. split; [done |]. apply (lists_iff _ _ _ _ _ _ _) with (2 := Hl). intros p Hch. split.
  - by intros (nm & q & -> & _).
  - intros Hp. destruct p as [|nm q]; [done |]. exists nm, q. split; [done |]. apply Hds. exists nm. split; [done |]. intros E.
    destruct Hch as (p & Hpre & Hd & _). destruct p as [|nm' p]; [by apply prefix_nil_inv in Hpre |].
    pose proof (prefix_cons_inv_1 _ _ _ _ Hpre) as <-. apply Hd. by apply (same_entry_same k s o o').
Qed.

(** ** Plans *)

Lemma elem_of_plan k s current target_root f g changes c :
  holds k s current f → holds k s target_root g →
  diff_directory fuel k s [] (Some current) (Some target_root) [] [] = Ok changes →
  c ∈ changes ↔ ∃ p, p ≠ [] ∧ c = mkRewindChange (action_of (f p) (g p)) (raw p) ∧ changed f g p.
Proof.
  intros Hf Hg Hrun. destruct (diff_directory_ok k s [] (Some current) (Some target_root) f g [] []) as (new & Hrun' & Hl); [by left | done | done | constructor |].
  cbn [raw join_with app] in Hrun'. rewrite Hrun in Hrun'. injection Hrun' as ->. cbn [app]. rewrite (Hl c). cbn [app]. naive_solver.
Qed.
End Plan.
