(* ===== verification/RewindTheory.v ===== *)
(** * RewindTheory: what carrying out a plan leaves on disk

    Whatever was on disk, the steps of a plan that covers every difference leave
    exactly the snapshot there. Each step changes the place it is for, what lies
    below it and the times of the directory above it. *)

From S2P Require Import Prelude Model Tree Paths Disk Files Policy Rewind DiskTheory.
#[local] Open Scope Z_scope.

(** ** Modes *)

Definition kind_bits (k : EntryKind) : Z :=
  match k with File => 0x8000 | Directory => 0x4000 | Symlink => 0xa000 | Fifo => 0x1000 | SocketMarker => 0xc000 end.
(** The mode of an entry is the mode of an inode of its kind. *)
Definition well_moded (e : TreeEntry) : Prop := 0 ≤ mode e < 0x10000 ∧ Z.land (mode e) 0xf000 = kind_bits (kind e).

Lemma mode_split m : 0 ≤ m < 0x10000 → Z.lor (Z.land m 0xf000) (Z.land m 0xfff) = m.
Proof.
  intros Hm. rewrite <- Z.land_lor_distr_r. change (Z.lor 0xf000 0xfff) with (Z.ones 16).
  rewrite Z.land_ones by lia. by apply Z.mod_small.
Qed.
Lemma chmod_exact e i : well_moded e → Z.land (st_mode i) 0xf000 = kind_bits (kind e) → st_mode (chmod (mode e) i) = mode e.
Proof. intros [Hr Hk] Hi. simpl. unfold S_IFMT. rewrite Hi, <- Hk. by apply mode_split. Qed.

(** A directory a plan may fill. *)
Definition prepared (o : option Inode) : Prop :=
  ∃ i, o = Some i ∧ body i = Folder ∧ Z.land (st_mode i) 0xf000 = 0x4000 ∧ Z.land (st_mode i) 0x1c0 = 0x1c0.
Lemma prepared_core o o' : core <$> o' = core <$> o → prepared o → prepared o'.
Proof.
  intros E (i & Hi & Hb & Hm & Hw). destruct (core_lookup _ _ i E Hi) as (j & -> & Ec). exists j.
  unfold core in Ec. injection Ec as ? Eb Em ?. rewrite <- Eb, <- Em. done.
Qed.
Lemma chmod_prepared e i :
  Z.land (st_mode i) 0xf000 = 0x4000 →
  Z.land (st_mode (chmod (Z.lor (mode e) OWNER_WRITABLE_DIR) i)) 0xf000 = 0x4000
  ∧ Z.land (st_mode (chmod (Z.lor (mode e) OWNER_WRITABLE_DIR) i)) 0x1c0 = 0x1c0.
Proof.
  intros Hi. simpl. unfold S_IFMT, OWNER_WRITABLE_DIR. rewrite Hi. set (m := mode e). split.
  - rewrite Z.land_lor_distr_l, <- Z.land_assoc. change (Z.land 0xfff 0xf000) with 0. by rewrite Z.land_0_r.
  - rewrite Z.land_lor_distr_l, <- Z.land_assoc. change (Z.land 0xfff 0x1c0) with 0x1c0. change (Z.land 0x4000 0x1c0) with 0.
    rewrite Z.lor_0_l, Z.land_lor_distr_l, Z.land_diag. apply Z.bits_inj'. intros k Hk.
    rewrite Z.lor_spec, Z.land_spec. destruct (Z.testbit 0x1c0 k); [by rewrite orb_true_r | by rewrite andb_false_r].
Qed.

Section Shows.
Context {St : Type} `{ObjectStore St, Json Blob, Json Xattrs}.

(** ** What an entry says of an inode *)

Definition file_data (s : St) (e : TreeEntry) : Res bytes :=
  id ← with_context (target e) "file missing blob ID";
  blob ← (read_struct_at BlobKind id s : Res Blob);
  fetch_chunks s (chunks blob) [].
Definition attrs_of (xs : list XattrEntry) : gmap bytes bytes :=
  foldl (λ m x, <[xattr_name x := xattr_value x]> m) ∅ (restorable_xattrs xs).
Definition file_attrs (s : St) (e : TreeEntry) : Res (gmap bytes bytes) :=
  match xattrs e with
  | None => Ok ∅
  | Some id => xs ← (read_struct_at XattrsKind id s : Res Xattrs); Ok (attrs_of (xattr_entries xs))
  end.
(** The attributes a capture sees. *)
Definition visible_attrs (i : Inode) : gmap bytes bytes :=
  base.filter (λ '(name, _), is_system_managed name = false) (attrs i).

Definition recorded_times (i : Inode) (e : TreeEntry) : Prop := st_mode i = mode e ∧ mtime i = (mtime_secs e, mtime_nanos e).
Definition inode_shows (s : St) (i : Inode) (e : TreeEntry) : Prop :=
  match kind e with
  | File => ∃ data, body i = Regular data ∧ file_data s e = Ok data ∧ file_attrs s e = Ok (visible_attrs i) ∧ recorded_times i e
  | Directory => body i = Folder ∧ recorded_times i e
  | Symlink => body i = Link (link_target e) ∧ mtime i = (mtime_secs e, mtime_nanos e)
  | Fifo => body i = Pipe ∧ recorded_times i e
  | SocketMarker => body i = Sock
  end.
(** What is at a place, and what a tree says is there: a socket is only noted. *)
Definition shows (s : St) (o : option Inode) (e : option TreeEntry) : Prop :=
  match o, e with
  | None, None => True
  | Some i, Some e => inode_shows s i e
  | None, Some e => kind e = SocketMarker
  | Some _, None => False
  end.

(** An entry a restore can write. *)
Definition restorable (s : St) (e : TreeEntry) : Prop :=
  match kind e with
  | File => well_moded e ∧ is_Some (target e) ∧ is_ok (file_data s e) = true ∧ is_ok (file_attrs s e) = true
  | Directory => well_moded e
  | Symlink | SocketMarker => True
  | Fifo => False
  end.

Lemma shows_folder s i e : shows s (Some i) (Some e) → body i = Folder → kind e = Directory.
Proof. simpl. unfold inode_shows. intros Hs Hb. destruct (kind e); naive_solver congruence. Qed.
Lemma shows_link s i e : shows s (Some i) (Some e) → is_link i = true → kind e = Symlink.
Proof.
  simpl. unfold inode_shows, is_link. intros Hs. destruct (kind e), (body i) eqn:E; try done; naive_solver congruence.
Qed.
End Shows.

(** ** One step *)

(** Only [p] and what is below it differ, and the times above. *)
Definition stepped (p : Place) (d d' : Disk) : Prop :=
  (∀ q, ¬ p `prefix_of` q → q ≠ parent p → nodes d' !! q = nodes d !! q)
  ∧ core <$> nodes d' !! parent p = core <$> nodes d !! parent p
  ∧ (∀ q, p `prefix_of` q → q ≠ p → nodes d' !! q = nodes d !! q ∨ nodes d' !! q = None).

Lemma stepped_only p d d' : p ≠ [] → only_at p d d' → stepped p d d'.
Proof.
  intros Hne (Ho & Hc & _). split_and!; [| done |].
  - intros q Hq Hqp. apply Ho; [by intros -> | done].
  - intros q Hq Hqp. left. apply Ho; [done |]. intros ->. by eapply parent_above.
Qed.
Lemma stepped_cleared p d d' : cleared p d d' → stepped p d d'.
Proof. intros (Hg & Ho & Hc & _). split_and!; [done..|]. intros q Hq _. right. by apply Hg. Qed.
Lemma stepped_renewed p i d d' : p ≠ [] → renewed p i d d' → stepped p d d'.
Proof.
  intros Hne [E _]. pose proof (parent_above p Hne) as Hp. split_and!; rewrite E.
  - intros q Hq _. apply lookup_insert_ne. by intros ->.
  - rewrite lookup_insert_ne; [done |]. intros Ep. apply Hp. by rewrite <- Ep.
  - intros q _ Hq. left. by apply lookup_insert_ne.
Qed.
Lemma stepped_trans p d d1 d2 : stepped p d d1 → stepped p d1 d2 → stepped p d d2.
Proof.
  intros (Ho & Hc & Hb) (Ho' & Hc' & Hb'). split_and!.
  - intros q Hq Hqp. by rewrite Ho', Ho.
  - by rewrite Hc'.
  - intros q Hq Hqp. destruct (Hb' q Hq Hqp) as [->|?]; auto.
Qed.
Lemma stepped_refl p d : stepped p d d.
Proof. split_and!; auto. Qed.
(** What is above is as before but for times. *)
Lemma stepped_above p d d' a : stepped p d d' → a `prefix_of` p → a ≠ p → core <$> nodes d' !! a = core <$> nodes d !! a.
Proof.
  intros (Ho & Hc & _) Ha Hne. destruct (decide (a = parent p)) as [->|]; [done |]. rewrite Ho; [done | | done].
  intros ?. apply Hne. by apply (anti_symm prefix).
Qed.

Section Steps.
Context `{Platform} {St : Type} `{ObjectStore St, Json Blob, Json Xattrs}.
Context {PL : PlatformLaws _}.

Lemma prepared_open o : prepared o → ∃ i, o = Some i ∧ open_folder i.
Proof.
  intros (i & -> & Hb & _ & Hm). exists i. split; [done |].
  split; [split; [done | by apply owner_searches] | by apply owner_writes].
Qed.

Lemma no_links_ok pre rest d :
  (∀ a i, a `prefix_of` rest → a ≠ [] → nodes d !! (pre ++ a) = Some i → is_link i = false) → no_links pre rest d = Ok ().
Proof.
  revert pre. induction rest as [|n rest IH]; intros pre Hl; [done |]. cbn [no_links].
  assert (∀ i, nodes d !! (pre ++ [n]) = Some i → is_link i = false) as Hn by by (intros i; apply Hl; [exists rest |]).
  destruct (symlink_metadata (pre ++ [n]) d) as [i|e] eqn:E.
  - rewrite (Hn i) by by apply metadata_node. cbn. apply IH. intros a j Ha Hne. rewrite <- app_assoc.
    apply Hl; [by apply (prefix_app [n]) | done].
  - cbn. apply IH. intros a j Ha Hne. rewrite <- app_assoc. apply Hl; [by apply (prefix_app [n]) | done].
Qed.
Lemma safe_parent_ok p d :
  (∀ a i, a `prefix_of` p → a ≠ p → a ≠ [] → nodes d !! a = Some i → is_link i = false) → ensure_safe_parent p d = Ok ().
Proof.
  intros Hl. apply no_links_ok. intros a i Ha Hne. simpl. destruct (decide (p = [])) as [->|Hp].
  - by apply prefix_nil_inv in Ha.
  - apply (prefix_parent a p Hp) in Ha as [? ?]. by apply Hl.
Qed.
Lemma safe_parent_reach p d : reach d p → ensure_safe_parent p d = Ok ().
Proof.
  intros Hr. apply safe_parent_ok. intros a i Ha Hne _ Hi. destruct (Hr a Ha Hne) as (j & Hj & Hb & _).
  rewrite Hi in Hj. simplify_eq. unfold is_link. by rewrite Hb.
Qed.

Lemma remove_path_run d p i :
  disk_ok d → may_change d p → nodes d !! p = Some i →
  (∀ q j, p `prefix_of` q → nodes d !! q = Some j → body j = Folder → open_folder j) →
  ∃ d', remove_path p d = (Ok (), d') ∧ cleared p d d' ∧ disk_ok d'.
Proof.
  intros Hok Hc Hi Ho. unfold remove_path. mpure. rewrite (metadata_reach d p i) by (done || apply Hc). mpure.
  destruct (is_folder i) eqn:Hf; [by apply remove_dir_all_run |].
  apply (remove_file_run d p i); [done.. |]. unfold is_folder in Hf. intros E. by rewrite E in Hf.
Qed.

(** The directory is there, with the owner's bits. *)
Lemma prepare_directory_run d p e :
  disk_ok d → may_change d p →
  (∀ i, nodes d !! p = Some i → body i = Folder ∧ Z.land (st_mode i) 0xf000 = 0x4000) →
  ∃ d', prepare_directory p e d = (Ok (), d') ∧ disk_ok d' ∧ stepped p d d' ∧ prepared (nodes d' !! p)
    ∧ (∀ q, p `prefix_of` q → q ≠ p → nodes d' !! q = nodes d !! q).
Proof.
  intros Hok Hc Hp. pose proof Hc as (Hne & Hr & _).
  assert (∃ d1 i, create_dir_all p d = (Ok (), d1) ∧ disk_ok d1 ∧ only_at p d d1 ∧ nodes d1 !! p = Some i
            ∧ body i = Folder ∧ Z.land (st_mode i) 0xf000 = 0x4000) as (d1 & i & Hrun & Hok1 & Ho1 & Hi1 & Hb & Hm).
  { rewrite create_dir_all_run; [| done | done | destruct (nodes d !! p); [by apply Hp | done]].
    destruct (nodes d !! p) as [i|] eqn:Hi.
    - exists d, i. destruct (Hp i eq_refl). split_and!; try done. 
    - unfold mkdir. destruct (create_run d p Folder (Z.lor 0x4000 (Z.land 0x1ff (Z.lnot umask))) Hc Hi)
        as (d1 & i & Hrun & Ho & Hi1 & Hn & Hin & Hb & Hm & _).
      exists d1, i. split_and!; [done | by eapply create_ok | done.. |].
      rewrite Hm, Z.land_lor_distr_l, (Z.land_comm 0x1ff), <- Z.land_assoc.
      change (Z.land 0x1ff 0xf000) with 0. by rewrite Z.land_0_r. }
  unfold prepare_directory. mrun Hrun.
  assert (reach d1 p) as Hr1.
  { apply (reach_core d); [| done]. intros a Ha Hane. by apply (only_at_core p). }
  destruct (on_target_run d1 p i (chmod (Z.lor (mode e) OWNER_WRITABLE_DIR)) Hr1 Hi1) as (d2 & t & Hrun2 & Hre).
  { unfold is_link. by rewrite Hb. } { by apply folder_alone. }
  exists d2. split; [done |]. split; [by apply (renewed_ok p i _ d1 d2 Hok1 Hi1) in Hre |].
  split; [apply (stepped_trans p d d1); [by apply stepped_only | by apply stepped_renewed in Hre] |].
  destruct Hre as [E _]. rewrite E. split.
  - rewrite lookup_insert_eq. eexists. split; [done |]. split; [done |]. by apply chmod_prepared.
  - intros q Hq Hqp. rewrite lookup_insert_ne by done. apply Ho1; [done |]. intros ->. by eapply parent_above.
Qed.

Lemma directory_step_run d p e :
  disk_ok d → valid_place p → may_change d p →
  (∀ i, nodes d !! p = Some i → body i = Folder → Z.land (st_mode i) 0xf000 = 0x4000) →
  ∃ d', directory_step (raw p) e d = (Ok (), d') ∧ disk_ok d' ∧ stepped p d d' ∧ prepared (nodes d' !! p)
    ∧ (∀ q, p `prefix_of` q → q ≠ p → nodes d' !! q = nodes d !! q).
Proof.
  intros Hok Hv Hc Hp. pose proof Hc as (Hne & Hr & _).
  unfold directory_step. rewrite safe_join_raw by done. mpure. rewrite safe_parent_reach by done. mpure.
  destruct (nodes d !! p) as [i|] eqn:Hi.
  - rewrite (metadata_reach d p i) by done. destruct (is_folder i) eqn:Hf.
    + mpure. apply prepare_directory_run; [done.. |]. intros j Hj. rewrite Hi in Hj. simplify_eq.
      unfold is_folder in Hf. destruct (body j) eqn:Hb; try done. auto.
    + assert (body i ≠ Folder) as Hb. { unfold is_folder in Hf. intros E. by rewrite E in Hf. }
      assert (∀ q, p `prefix_of` q → q ≠ p → nodes d !! q = None) as Hno.
      { intros q. apply none_below; [done |]. intros j Hj. congruence. }
      destruct (remove_path_run d p i) as (d1 & Hrun & Hcl & Hok1); [done.. | |].
      { intros q j Hq Hj Hjb. destruct (decide (q = p)) as [->|]; [congruence |]. by rewrite Hno in Hj. }
      mrun Hrun. pose proof Hcl as (Hg & _).
      destruct (prepare_directory_run d1 p e) as (d' & Hrun' & Hok' & Hst & Hpr & Hbe); [done | | |].
      { apply (may_change_core d); [| done]. intros a Ha Hane. apply (cleared_core p); [done |]. intros ?.
        apply Hane. by apply (anti_symm prefix). }
      { intros j Hj. by rewrite Hg in Hj. }
      exists d'. split_and!; [done.. | | done |].
      * apply (stepped_trans p d d1); [by apply stepped_cleared | done].
      * intros q Hq Hqp. by rewrite Hbe, Hg, Hno.
  - rewrite metadata_absent by done. mpure. apply prepare_directory_run; [done.. |]. intros i Hi'. congruence.
Qed.

(** *** Files *)

Lemma on_disk_run {A} (m : M Disk A) s d r d' : m d = (r, d') → on_disk m (mkWork (St := St) s d) = (r, mkWork s d').
Proof. intros E. unfold on_disk. cbn [disk]. by rewrite E. Qed.

Lemma set_xattrs_fields xs i :
  ino (set_xattrs xs i) = ino i ∧ body (set_xattrs xs i) = body i ∧ st_mode (set_xattrs xs i) = st_mode i
  ∧ attrs (set_xattrs xs i) = foldl (λ m x, <[xattr_name x := xattr_value x]> m) (attrs i) xs.
Proof.
  revert i. induction xs as [|x xs IH]; intros i; [done |].
  change (set_xattrs (x :: xs) i) with (set_xattrs xs (with_attrs (<[xattr_name x := xattr_value x]>) i)).
  by destruct (IH (with_attrs (<[xattr_name x := xattr_value x]>) i)) as (-> & -> & -> & ->).
Qed.
Lemma attrs_of_visible xs : base.filter (λ '(name, _), is_system_managed name = false) (attrs_of xs) = attrs_of xs.
Proof.
  apply map_filter_id. intros k v. unfold attrs_of.
  assert (∀ x, x ∈ restorable_xattrs xs → is_system_managed (xattr_name x) = false) as Hr.
  { intros x Hx. by apply list_elem_of_filter in Hx as [? _]. }
  assert (∀ v, (∅ : gmap bytes bytes) !! k = Some v → is_system_managed k = false) as Hm by done.
  revert Hr Hm v. generalize (∅ : gmap bytes bytes). induction (restorable_xattrs xs) as [|x l IH]; intros m Hr Hm v; [apply Hm |].
  simpl. apply IH; [intros y Hy; apply Hr; by right |]. intros v'. destruct (decide (k = xattr_name x)) as [->|].
  - intros _. apply Hr. left.
  - rewrite lookup_insert_ne by done. apply Hm.
Qed.

(** A file is written whole, beside its place, and moved there. *)
Lemma restore_file_run s d p e :
  disk_ok d → may_change d p → (∀ i, nodes d !! p = Some i → body i ≠ Folder) → restorable s e → kind e = File →
  ∃ d', restore_file p e (mkWork s d) = (Ok (), mkWork s d') ∧ disk_ok d' ∧ only_at p d d' ∧ shows s (nodes d' !! p) (Some e).
Proof.
  intros Hok Hc Hp Hre Hk. pose proof Hc as (Hne & Hr & _). unfold restorable in Hre. rewrite Hk in Hre.
  destruct Hre as (Hmode & [id Hid] & Hdata & Hattrs).
  destruct (file_data s e) as [data|] eqn:Ed; [| done]. destruct (file_attrs s e) as [at_|] eqn:Ea; [| done].
  pose proof Ed as Ed'. unfold file_data in Ed'. rewrite Hid in Ed'. cbn in Ed'. apply Res_bind_ok in Ed' as (blob & Hblob & Hfetch).
  destruct (new_temp_run d p Hc) as (d1 & i1 & Ht & Hf1 & Hc1 & Hn1 & Hin1 & Hm1 & Ha1).
  pose proof (parent_ne p Hne) as Hpne.
  assert (only_at p d d1) as Ho1 by (split_and!; [intros q _ ?; by apply Hf1 | done | lia]).
  assert (∃ temp, ino temp = next_ino d ∧ body temp = Regular data ∧ st_mode temp = mode e ∧ attrs temp = at_ ∧
    match xattrs e with
    | None => temp = chmod (mode e) (with_data data i1)
    | Some id => ∃ xs, (read_struct_at XattrsKind id s : Res Xattrs) = Ok xs ∧ temp = set_xattrs (restorable_xattrs (xattr_entries xs)) (chmod (mode e) (with_data data i1))
    end) as (temp & Hti & Htb & Htm & Hta & Hxs).
  { assert (st_mode (chmod (mode e) (with_data data i1)) = mode e) as Hmm.
    { apply chmod_exact; [done |]. rewrite Hk. simpl. by rewrite Hm1. }
    unfold file_attrs in Ea. destruct (xattrs e) as [xid|].
    - destruct (read_struct_at XattrsKind xid s) as [xs|]; [| done]. cbn in Ea. injection Ea as <-.
      eexists. destruct (set_xattrs_fields (restorable_xattrs (xattr_entries xs)) (chmod (mode e) (with_data data i1))) as (Ei & Eb & Em & Ex).
      split; [by rewrite Ei |]. split; [by rewrite Eb |]. split; [by rewrite Em |].
      split; [| by exists xs]. rewrite Ex. simpl. by rewrite Ha1.
    - injection Ea as <-. eexists. split_and!; [| | | | reflexivity]; [done.. | by rewrite <- Ha1]. }
  assert (may_change d1 p) as Hc1'.
  { apply (may_change_core d); [| done]. intros a _ Hane. by apply (only_at_core p). }
  destruct (persist_run d1 p temp Hc1') as (d2 & t & Hper & Ho2 & Hp2 & Hn2).
  { intros i. rewrite Hf1 by done. apply Hp. }
  assert (only_at p d d2) as Ho12 by by apply (only_at_trans p d d1).
  assert (disk_ok d2) as Hok2.
  { apply (disk_ok_only p d d2); [done.. |]. rewrite Hp2. split_and!.
    - destruct (parent_reach d p Hc) as (j & Hj & [Hb _] & _). eauto.
    - right. intros q Hq Hqp. by apply (none_below d p).
    - left. simpl. lia. }
  destruct (on_target_run d2 p (with_ctime t temp) (with_mtime (mtime_secs e, mtime_nanos e))) as (d3 & t3 & Hset & Hren).
  { apply (reach_core d); [| done]. intros a _ Hane. by apply (only_at_core p). } { done. }
  { unfold is_link. simpl. by rewrite Htb. }
  { intros q j Hq Hj. pose proof (only_at_core p d d2 q Hq Ho12) as E. rewrite Hj in E.
    destruct (core_ino_body _ _ j E eq_refl) as (j0 & Hj0 & Ej & _). pose proof (ino_used d Hok q j0 Hj0). simpl. lia. }
  exists d3. split; [| split; [| split]].
  - unfold restore_file. mpure. cbn [store disk]. rewrite Hid. cbn [with_context]. mpure. rewrite Hblob. mpure.
    rewrite (M_bind_run _ _ _ _ _ (on_disk_run _ s d _ _ Ht)). rewrite Hfetch. mpure.
    destruct (xattrs e) as [xid|].
    + destruct Hxs as (xs & Hxs & ->). rewrite Hxs, M_bind_assoc. mpure.
      rewrite (M_bind_run _ _ _ _ _ (on_disk_run _ s d1 _ _ Hper)). by apply on_disk_run.
    + subst temp. mpure. rewrite (M_bind_run _ _ _ _ _ (on_disk_run _ s d1 _ _ Hper)). by apply on_disk_run.
  - by apply (renewed_ok p (with_ctime t temp) _ d2 d3 Hok2 Hp2) in Hren.
  - destruct Hren as [E En]. apply (only_at_trans p d d2); [done |]. split_and!; rewrite ?E, ?En; [| | lia].
    + intros q Hq _. by apply lookup_insert_ne.
    + by rewrite lookup_insert_ne.
  - destruct Hren as [E _]. rewrite E, lookup_insert_eq. unfold shows, inode_shows. rewrite Hk. exists data.
    split_and!; simpl; try done. rewrite Ea. f_equal. rewrite <- Hta in *. unfold visible_attrs. simpl.
    unfold file_attrs in Ea. destruct (xattrs e).
    + destruct Hxs as (xs & Hxs & _). rewrite Hxs in Ea. cbn in Ea. injection Ea as <-. symmetry. apply attrs_of_visible.
    + injection Ea as <-. done.
Qed.

(** What is in the way goes first. *)
Definition must_remove (o : option Inode) (e : TreeEntry) : bool :=
  match o with Some i => is_folder i || negb (bool_decide (kind e = File)) || is_link i | None => false end.
Lemma clear_way_run d p e :
  disk_ok d → may_change d p →
  (∀ q j, p `prefix_of` q → nodes d !! q = Some j → body j = Folder → open_folder j) →
  ∃ d', (if must_remove (nodes d !! p) e then remove_path p else mret ()) d = (Ok (), d')
    ∧ disk_ok d' ∧ stepped p d d' ∧ (∀ q, p `prefix_of` q → q ≠ p → nodes d' !! q = None)
    ∧ (nodes d' !! p = None ∨ kind e = File ∧ ∀ i, nodes d' !! p = Some i → body i ≠ Folder).
Proof.
  intros Hok Hc Ho. destruct (must_remove (nodes d !! p) e) eqn:Em.
  - unfold must_remove in Em. destruct (nodes d !! p) as [i|] eqn:Hi; [| done].
    destruct (remove_path_run d p i Hok Hc Hi Ho) as (d' & Hrun & Hcl & Hok'). exists d'.
    pose proof Hcl as (Hg & _). split_and!; [done.. | by apply stepped_cleared | |].
    + intros q Hq _. by apply Hg.
    + left. by apply Hg.
  - exists d. split; [done |]. split; [done |]. split; [apply stepped_refl |].
    destruct (nodes d !! p) as [i|] eqn:Hi; cbn in Em.
    + rewrite !orb_false_iff, negb_false_iff, bool_decide_eq_true in Em. destruct Em as [[Hf Hk] _].
      assert (body i ≠ Folder) as Hb. { unfold is_folder in Hf. intros E. by rewrite E in Hf. }
      split; [intros q; apply none_below; [done |]; intros j Hj; congruence |].
      right. split; [done |]. intros j Hj. congruence.
    + split; [intros q; apply none_below; [done |]; intros j Hj; congruence | by left].
Qed.

(** A link is made, and its times set. *)
Lemma symlink_run d p e :
  disk_ok d → may_change d p → nodes d !! p = None → kind e = Symlink →
  ∃ d', (_ ← symlink (link_target e) p; set_symlink_file_times p (mtime_secs e, mtime_nanos e)) d = (Ok (), d')
    ∧ disk_ok d' ∧ stepped p d d' ∧ ∀ (s : St), shows s (nodes d' !! p) (Some e).
Proof.
  intros Hok Hc Hn Hk. pose proof Hc as (Hne & Hr & _).
  destruct (create_run d p (Link (link_target e)) 0xa1ff Hc Hn) as (d1 & i & Hrun & Ho & Hi & Hnx & Hin & Hb & _).
  pose proof (create_ok d d1 p i Hok Hc Hn Ho Hi Hnx Hin) as Hok1. unfold symlink. mrun Hrun.
  destruct (set_symlink_file_times_run d1 p i (mtime_secs e, mtime_nanos e)) as (d' & t & Hset & Hren).
  { apply (reach_core d); [| done]. intros a _ Hane. by apply (only_at_core p). } { done. }
  { intros q j Hq Hj. pose proof (only_at_core p d d1 q Hq Ho) as E. rewrite Hj in E.
    destruct (core_ino_body _ _ j E eq_refl) as (j0 & Hj0 & Ej & _). pose proof (ino_used d Hok q j0 Hj0). lia. }
  exists d'. split; [done |]. split; [by apply (renewed_ok p i _ d1 d' Hok1 Hi) in Hren |].
  split; [apply (stepped_trans p d d1); [by apply stepped_only | by apply stepped_renewed in Hren] |].
  intros s. destruct Hren as [E _]. rewrite E, lookup_insert_eq. unfold shows, inode_shows. rewrite Hk. split; [done |]. done.
Qed.

Lemma file_step_run s d p e :
  disk_ok d → valid_place p → may_change d p →
  (∀ q j, p `prefix_of` q → nodes d !! q = Some j → body j = Folder → open_folder j) →
  restorable s e → kind e ≠ Directory →
  ∃ d', file_step (raw p) e (mkWork s d) = (Ok (), mkWork s d') ∧ disk_ok d' ∧ stepped p d d'
    ∧ shows s (nodes d' !! p) (Some e) ∧ (∀ q, p `prefix_of` q → q ≠ p → nodes d' !! q = None).
Proof.
  intros Hok Hv Hc Ho Hre Hnd. pose proof Hc as (Hne & Hr & _).
  destruct (clear_way_run d p e Hok Hc Ho) as (d1 & Hclr & Hok1 & Hst & Hbe & Hp1).
  assert (may_change d1 p) as Hc1.
  { apply (may_change_core d); [| done]. intros a. by apply stepped_above. }
  assert (∀ (k : M (Work St) ()) r, k (mkWork s d1) = r → file_step (raw p) e (mkWork s d) =
      match kind e with
      | File => restore_file p e
      | Symlink => on_disk (_ ← symlink (link_target e) p; set_symlink_file_times p (mtime_secs e, mtime_nanos e))
      | Fifo => on_disk (create_fifo p (mode e))
      | SocketMarker | Directory => mret ()
      end (mkWork s d1)) as Hrun.
  { intros _ _ _. unfold file_step. rewrite safe_join_raw by done. mpure. cbn [disk]. rewrite safe_parent_reach by done. mpure.
    rewrite (M_bind_run _ _ _ _ _ (on_disk_run _ s d _ _ (create_dir_all_there d (parent p) (reach_prefix d _ p (parent_prefix p) Hr)
      (or_intror (let '(ex_intro _ i (conj Hi (conj (conj Hb _) _))) := parent_reach d p Hc in ex_intro _ i (conj Hi Hb)))))).
    mpure. cbn [disk].
    assert (match symlink_metadata p d with
            | Ok i => is_folder i || negb (bool_decide (kind e = File)) || is_link i
            | Err _ => false
            end = must_remove (nodes d !! p) e) as ->.
    { destruct (nodes d !! p) as [i|] eqn:Hi; [by rewrite (metadata_reach d p i) | by rewrite metadata_absent]. }
    destruct (must_remove (nodes d !! p) e).
    - by rewrite (M_bind_run _ _ _ _ _ (on_disk_run _ s d _ _ Hclr)).
    - injection Hclr as <-. by mpure. }
  specialize (Hrun (mret ()) _ eq_refl). rewrite Hrun. clear Hrun.
  unfold restorable in Hre. destruct (kind e) eqn:Hk; [| done | | done |].
  - destruct (restore_file_run s d1 p e) as (d' & Hrun & Hok' & Ho' & Hs); [done.. | | | done |].
    { intros i Hi. destruct Hp1 as [E|[_ Hf]]; [congruence | by apply Hf]. } { unfold restorable. by rewrite Hk. }
    exists d'. split; [done |]. split; [done |]. split; [apply (stepped_trans p d d1); [done | by apply stepped_only] |].
    split; [done |]. intros q Hq Hqp. rewrite (proj1 Ho'); [by apply Hbe | done |]. intros ->. by eapply parent_above.
  - destruct Hp1 as [Hn|[? _]]; [| done].
    destruct (symlink_run d1 p e Hok1 Hc1 Hn Hk) as (d' & Hrun & Hok' & Hst' & Hs).
    exists d'. split; [by apply on_disk_run |]. split; [done |]. split; [by apply (stepped_trans p d d1) |]. split; [done |].
    intros q Hq Hqp. destruct Hst' as (_ & _ & Hb'). destruct (Hb' q Hq Hqp) as [->|?]; auto.
  - destruct Hp1 as [Hn|[? _]]; [| done]. exists d1. split_and!; try done. rewrite Hn. done.
Qed.

(** *** Removals *)

Lemma removal_step_run d p :
  disk_ok d → valid_place p → p ≠ [] →
  (∀ a i, a `prefix_of` p → a ≠ p → a ≠ [] → nodes d !! a = Some i → is_link i = false) →
  (is_Some (nodes d !! p) → may_change d p) →
  (∀ q j, p `prefix_of` q → nodes d !! q = Some j → body j = Folder → open_folder j) →
  ∃ d', removal_step (raw p) d = (Ok (), d') ∧ disk_ok d' ∧ stepped p d d' ∧ (∀ q, p `prefix_of` q → nodes d' !! q = None)
    ∧ (nodes d !! p = None → d' = d).
Proof.
  intros Hok Hv Hne Hl Hc Ho. unfold removal_step. rewrite safe_join_raw by done. mpure.
  rewrite safe_parent_ok by done. mpure. destruct (nodes d !! p) as [i|] eqn:Hi.
  - assert (may_change d p) as Hc' by eauto. rewrite (exists_at_true d p i) by (done || apply Hc').
    destruct (remove_path_run d p i Hok Hc' Hi Ho) as (d' & Hrun & Hcl & Hok'). exists d'.
    split_and!; [done.. | by apply stepped_cleared | apply Hcl | done].
  - rewrite exists_at_false by done. exists d. split_and!; [done.. | apply stepped_refl | | done].
    intros q Hq. destruct (decide (q = p)) as [->|Hqp]; [done |]. apply (none_below d p); [done | | done..].
    intros j Hj. congruence.
Qed.

(** *** The last step of a directory *)

Lemma finish_step_run (s : St) d p e :
  disk_ok d → valid_place p → reach d p → prepared (nodes d !! p) → well_moded e → kind e = Directory →
  ∃ d', finish_step (raw p) e d = (Ok (), d') ∧ disk_ok d' ∧ shows s (nodes d' !! p) (Some e)
    ∧ (∀ q, q ≠ p → nodes d' !! q = nodes d !! q).
Proof.
  intros Hok Hv Hr (i & Hi & Hb & Hm & _) Hmode Hk. unfold finish_step. rewrite safe_join_raw by done. mpure.
  unfold finish_directory.
  destruct (on_target_run d p i (chmod (mode e)) Hr Hi) as (d1 & t1 & Hrun1 & Hren1).
  { unfold is_link. by rewrite Hb. } { by apply folder_alone. }
  unfold set_mode. mrun Hrun1. pose proof (renewed_ok p i (with_ctime t1 (chmod (mode e) i)) d d1 Hok Hi eq_refl eq_refl Hren1) as Hok1.
  destruct Hren1 as [E1 En1].
  destruct (on_target_run d1 p (with_ctime t1 (chmod (mode e) i)) (with_mtime (mtime_secs e, mtime_nanos e))) as (d2 & t2 & Hrun2 & Hren2).
  { intros a Ha Hane. rewrite E1, lookup_insert_ne by done. by apply Hr. } { by rewrite E1, lookup_insert_eq. }
  { unfold is_link. simpl. by rewrite Hb. } { apply folder_alone; [done | by rewrite E1, lookup_insert_eq | done]. }
  exists d2. split; [done |].
  split; [apply (renewed_ok p (with_ctime t1 (chmod (mode e) i)) _ d1 d2 Hok1) in Hren2; [done | by rewrite E1, lookup_insert_eq | done..] |].
  destruct Hren2 as [E2 En2]. split.
  - rewrite E2, lookup_insert_eq. unfold shows, inode_shows. rewrite Hk. split; [done |]. split; [| done].
    simpl. apply (chmod_exact e i); [done |]. by rewrite Hk.
  - intros q Hq. by rewrite E2, lookup_insert_ne, E1, lookup_insert_ne.
Qed.
End Steps.

(** ** The whole plan *)

Section Apply.
Context `{Platform} {St : Type} `{ObjectStore St, Json Blob, Json Xattrs, Json TreeEntry, Json TreePage, Json Tree, Json Snapshot}.
Context {PL : PlatformLaws _}.

(** The disk [d0], the tree [goal] and the paths planned fit each other: what is
    not planned is as it should be, or hidden from captures; what is planned can
    be written; what has to go can be removed and hides nothing. *)
Record plan_fits (s : St) (d0 : Disk) (goal : Place → option TreeEntry) (planned hidden : Place → Prop) : Prop := {
  fit_disk : disk_ok d0;
  fit_root : ∃ i, nodes d0 !! [] = Some i ∧ open_folder i;
  fit_valid p : planned p → valid_place p ∧ p ≠ [];
  fit_up p a : planned p → a `prefix_of` p → a ≠ [] → planned a;
  fit_goal p e a : goal p = Some e → a `prefix_of` p → a ≠ p → a ≠ [] → ∃ e', goal a = Some e' ∧ kind e' = Directory;
  fit_rest p : p ≠ [] → ¬ planned p → ¬ hidden p → shows s (nodes d0 !! p) (goal p);
  fit_hidden p q : planned p → (∀ e, goal p = Some e → kind e ≠ Directory) → p `prefix_of` q → hidden q → nodes d0 !! q = None;
  fit_gone p a : planned p → goal p = None → a `prefix_of` p → a ≠ p → a ≠ [] →
    (∃ i, nodes d0 !! a = Some i ∧ body i = Folder) ∧ (∀ e, goal a = Some e → kind e ≠ Symlink);
  fit_open p i : p ≠ [] → ¬ hidden p → nodes d0 !! p = Some i → body i = Folder →
    (∀ e, goal p = Some e → kind e ≠ Directory) → open_folder i;
  fit_seen p : planned p → ¬ hidden p;
  fit_typed p i : planned p → nodes d0 !! p = Some i → body i = Folder → Z.land (st_mode i) 0xf000 = 0x4000;
  fit_restorable p e : planned p → goal p = Some e → restorable s e;
}.

Section Phases.
Variables (s : St) (d0 : Disk) (goal : Place → option TreeEntry) (planned hidden : Place → Prop).
Context `{∀ p, Decision (planned p), ∀ p, Decision (hidden p)}.
Hypothesis FIT : plan_fits s d0 goal planned hidden.

(** A planned place before its step, and after it (a directory is finished
    last). *)
Definition waiting (d : Disk) (p : Place) : Prop :=
  nodes d !! p = None ∨ core <$> nodes d !! p = core <$> nodes d0 !! p.
Definition stepped_to (d : Disk) (p : Place) : Prop :=
  match goal p with
  | Some e => if decide (kind e = Directory) then prepared (nodes d !! p) else shows s (nodes d !! p) (Some e)
  | None => nodes d !! p = None
  end.
Record progress (done_ : Place → Prop) (d : Disk) : Prop := {
  pr_disk : disk_ok d;
  pr_root : core <$> nodes d !! [] = core <$> nodes d0 !! [];
  pr_rest p : p ≠ [] → ¬ planned p → nodes d !! p = nodes d0 !! p;
  pr_planned p : planned p → waiting d p ∨ stepped_to d p;
  pr_done p : planned p → done_ p → stepped_to d p;
}.

Lemma progress_start : progress (λ _, False) d0.
Proof. constructor; [apply FIT | done | done | | done]. intros p _. left. by right. Qed.

(** What takes the place of [p] is no directory: nothing stays below it. *)
Definition unkept (p : Place) : Prop := ∀ e, goal p = Some e → kind e ≠ Directory.
Lemma unplanned_gone p q :
  planned p → unkept p → p `prefix_of` q → q ≠ [] → ¬ planned q → goal q = None → nodes d0 !! q = None.
Proof.
  intros Hp Hu Hq Hne Hnp Hg. destruct (decide (hidden q)) as [Hh|Hh]; [by apply (fit_hidden _ _ _ _ _ FIT p) |].
  pose proof (fit_rest _ _ _ _ _ FIT q Hne Hnp Hh) as Hs. rewrite Hg in Hs. by destruct (nodes d0 !! q).
Qed.

Lemma progress_step done_ d d' p :
  progress done_ d → planned p → disk_ok d' → stepped p d d' → stepped_to d' p →
  (d' = d ∨ ∃ i, nodes d !! parent p = Some i ∧ body i = Folder) →
  (∀ q, p `prefix_of` q → q ≠ p → nodes d' !! q = nodes d !! q ∨ nodes d' !! q = None ∧ goal q = None ∧ unkept p) →
  progress (λ q, done_ q ∨ q = p) d'.
Proof.
  intros Hpr Hp Hok Hst Hto Hpar Hbe. pose proof (proj2 (fit_valid _ _ _ _ _ FIT p Hp)) as Hne.
  destruct Hpar as [->|(ip & Hip & Hib)].
  { destruct Hpr as [? ? ? ? Hd]. constructor; [done..|]. intros q Hq [?| ->]; auto. }
  pose proof Hst as (Ho & Hc & _).
  assert (∀ q, planned q → q ≠ p → waiting d q → waiting d' q) as Hw.
  { intros q Hq Hqp [E|E]; unfold waiting.
    - left. destruct (decide (p `prefix_of` q)) as [Hpq|Hpq]; [destruct (Hbe q Hpq Hqp) as [->|(? & _)]; done |].
      destruct (decide (q = parent p)) as [->|]; [congruence |]. by rewrite Ho.
    - destruct (decide (p `prefix_of` q)) as [Hpq|Hpq]; [destruct (Hbe q Hpq Hqp) as [->|(? & _)]; auto |].
      destruct (decide (q = parent p)) as [->|]; [right; by rewrite Hc | rewrite Ho by done; auto]. }
  assert (∀ q, planned q → q ≠ p → stepped_to d q → stepped_to d' q) as Hs.
  { intros q Hq Hqp. unfold stepped_to.
    destruct (decide (p `prefix_of` q)) as [Hpq|Hpq].
    { destruct (Hbe q Hpq Hqp) as [->|(-> & -> & _)]; done. }
    destruct (decide (q = parent p)) as [->|Hqpar]; [| by rewrite Ho].
    destruct (core_lookup _ _ ip Hc Hip) as (j & Hj & Ecore). rewrite Hj, Hip. destruct (goal (parent p)) as [e|]; [| done].
    case_decide as Hk; [| intros Hsh; by destruct Hk; apply (shows_folder s ip)].
    apply prepared_core. simpl. congruence. }
  destruct Hpr as [_ Hroot Hrest Hpl Hd]. constructor; [done | | | |].
  - destruct (decide ([] = parent p)) as [E|E]; [by rewrite E, Hc, <- E |]. rewrite Ho; [done | | done].
    intros ?%prefix_nil_inv. done.
  - intros q Hq Hqp. rewrite <- Hrest by done. assert (q ≠ p) as Hne' by by intros ->.
    destruct (decide (p `prefix_of` q)) as [Hpq|Hpq].
    + destruct (Hbe q Hpq Hne') as [->|(E & G & U)]; [done |]. rewrite E, Hrest by done. symmetry. by apply (unplanned_gone p).
    + apply Ho; [done |]. intros ->. apply Hqp. apply (fit_up _ _ _ _ _ FIT p); [done | apply parent_prefix | done].
  - intros q Hq. destruct (decide (q = p)) as [->|Hqp]; [by right |]. destruct (Hpl q Hq); auto.
  - intros q Hq Hdq. destruct (decide (q = p)) as [->|Hqp]; [done |]. destruct Hdq as [?|?]; [auto | done].
Qed.

(** What lies above the place of a step is prepared. *)
Lemma progress_open done_ d p a :
  progress done_ d → planned p → (goal p = None → is_Some (nodes d !! p)) →
  (∀ e, goal p = Some e → ∀ a, a `prefix_of` p → a ≠ p → a ≠ [] → done_ a) →
  (goal p = None → ∀ a, planned a → is_Some (goal a) → done_ a) →
  a `prefix_of` p → a ≠ p → ∃ i, nodes d !! a = Some i ∧ open_folder i.
Proof.
  intros Hpr Hp Hex Hup Hall Ha Hne. destruct (decide (a = [])) as [->|Hane].
  { destruct (fit_root _ _ _ _ _ FIT) as (i & Hi & Hio). destruct (core_lookup _ _ i (pr_root _ _ Hpr) Hi) as (j & Hj & Ec).
    exists j. split; [done | by eapply core_open]. }
  assert (planned a) as Hpa by by eapply (fit_up _ _ _ _ _ FIT p).
  destruct (goal p) as [e|] eqn:Hg.
  - destruct (fit_goal _ _ _ _ _ FIT p e a Hg Ha Hne Hane) as (e' & Hga & Hk).
    pose proof (pr_done _ _ Hpr a Hpa (Hup e eq_refl a Ha Hne Hane)) as Hs. unfold stepped_to in Hs.
    rewrite Hga, decide_True in Hs by done. by apply prepared_open.
  - destruct (Hex eq_refl) as [ip Hip]. destruct (above_folder d a p ip (pr_disk _ _ Hpr) Hip Ha Hne) as (i & Hi & Hb).
    destruct (goal a) as [e|] eqn:Hga.
    + pose proof (pr_done _ _ Hpr a Hpa (Hall eq_refl a Hpa ltac:(by rewrite Hga))) as Hs. unfold stepped_to in Hs.
      rewrite Hga in Hs. case_decide as Hk; [by apply prepared_open |]. rewrite Hi in Hs.
      by apply shows_folder in Hs.
    + exists i. split; [done |].
      assert (core <$> nodes d !! a = core <$> nodes d0 !! a) as E.
      { destruct (pr_planned _ _ Hpr a Hpa) as [[E|E]|E]; [congruence | done |]. unfold stepped_to in E. rewrite Hga in E. congruence. }
      rewrite Hi in E. destruct (nodes d0 !! a) as [i0|] eqn:Hi0; [| done]. simpl in E.
      apply (core_open i0); [congruence |]. apply (fit_open _ _ _ _ _ FIT a i0 Hane (fit_seen _ _ _ _ _ FIT a Hpa) Hi0); [unfold core in E; congruence |].
      by rewrite Hga.
Qed.
Lemma progress_change done_ d p :
  progress done_ d → planned p → (goal p = None → is_Some (nodes d !! p)) →
  (∀ e, goal p = Some e → ∀ a, a `prefix_of` p → a ≠ p → a ≠ [] → done_ a) →
  (goal p = None → ∀ a, planned a → is_Some (goal a) → done_ a) → may_change d p.
Proof.
  intros Hpr Hp Hex Hup Hall. pose proof (proj2 (fit_valid _ _ _ _ _ FIT p Hp)) as Hne.
  assert (∀ a, a `prefix_of` p → a ≠ p → ∃ i, nodes d !! a = Some i ∧ open_folder i) as Ho.
  { intros a. by apply (progress_open done_ d p). }
  destruct (Ho (parent p) (parent_prefix p) (parent_ne p Hne)) as (i & Hi & Hio).
  apply (may_change_open d p i); [done | | done..]. intros a Ha Hane. destruct (Ho a Ha Hane) as (j & Hj & [? _]). eauto.
Qed.
(** What a step removes can be removed. *)
Lemma progress_removable done_ d p q j :
  progress done_ d → planned p → (∀ e, goal p = Some e → kind e ≠ Directory) →
  p `prefix_of` q → nodes d !! q = Some j → body j = Folder → open_folder j.
Proof.
  intros Hpr Hp Hg Hq Hj Hb. pose proof (proj2 (fit_valid _ _ _ _ _ FIT p Hp)) as Hne.
  assert (q ≠ []) as Hqne. { intros ->. by apply prefix_nil_inv in Hq. }
  assert (∀ e, goal q = Some e → kind e ≠ Directory) as Hgq.
  { intros e He. destruct (decide (q = p)) as [->|Hqp]; [by apply Hg |].
    destruct (fit_goal _ _ _ _ _ FIT q e p He Hq) as (e' & He' & Hk); [congruence | done |]. by destruct (Hg e' He'). }
  assert (core <$> nodes d !! q = core <$> nodes d0 !! q) as E.
  { destruct (decide (planned q)) as [Hpq|Hpq]; [| by rewrite (pr_rest _ _ Hpr)].
    destruct (pr_planned _ _ Hpr q Hpq) as [[E|E]|E]; [congruence | done |]. unfold stepped_to in E. rewrite Hj in E.
    destruct (goal q) as [e|]; [| done]. rewrite decide_False in E by by apply Hgq.
    destruct (Hgq e eq_refl). by apply (shows_folder s j). }
  rewrite Hj in E. destruct (nodes d0 !! q) as [j0|] eqn:Hj0; [| done]. simpl in E.
  apply (core_open j0); [congruence |]. apply (fit_open _ _ _ _ _ FIT q j0 Hqne); [| done | unfold core in E; congruence | done].
  intros Hh. rewrite (fit_hidden _ _ _ _ _ FIT p q Hp Hg Hq Hh) in Hj0. done.
Qed.

(** *** The phases *)

(** The keys and entries of a phase: planned places with the entries of the
    goal, parents first. *)
Definition phase_list (l : list (bytes * TreeEntry)) : Prop :=
  StronglySorted blt l.*1 ∧ ∀ k e, (k, e) ∈ l → ∃ p, k = raw p ∧ planned p ∧ goal p = Some e.
Definition listed (l : list (bytes * TreeEntry)) (p : Place) : Prop := raw p ∈ l.*1.

Lemma phase_cons k e l : phase_list ((k, e) :: l) →
  ∃ p, k = raw p ∧ planned p ∧ goal p = Some e ∧ phase_list l ∧ ∀ a, listed l a → blt (raw p) (raw a).
Proof.
  intros [Hs Hl]. destruct (Hl k e) as (p & -> & Hp & Hg); [left |]. exists p. split_and!; try done.
  - cbn in Hs. apply StronglySorted_inv in Hs as [Hs _]. split; [done |]. intros k e' He. apply Hl. by right.
  - cbn in Hs. apply StronglySorted_inv in Hs as [_ Hs]. rewrite Forall_forall in Hs. intros a Ha. by apply Hs.
Qed.

Lemma listed_cons p q e l : planned p → planned q → listed ((raw p, e) :: l) q → q = p ∨ listed l q.
Proof.
  intros Hp Hq [E|Hl]%elem_of_cons; [left | by right].
  apply raw_inj; [apply (fit_valid _ _ _ _ _ FIT q Hq) | apply (fit_valid _ _ _ _ _ FIT p Hp) | done].
Qed.
Lemma progress_weaken done_ done' d :
  progress done_ d → (∀ q, planned q → done' q → done_ q) → progress done' d.
Proof. intros [? ? ? ? Hd] Hw. constructor; [done..|]. intros q Hq Hq'. by apply Hd, Hw. Qed.

(** What is planned above a listed place comes earlier, or was done before. *)
Definition parents_first (done_ : Place → Prop) (l : list (bytes * TreeEntry)) : Prop :=
  ∀ p a, listed l p → planned p → a `prefix_of` p → a ≠ p → a ≠ [] → done_ a ∨ listed l a.

Lemma parents_head done_ p e l :
  phase_list ((raw p, e) :: l) → planned p → parents_first done_ ((raw p, e) :: l) →
  (∀ a, a `prefix_of` p → a ≠ p → a ≠ [] → done_ a) ∧ parents_first (λ q, done_ q ∨ q = p) l.
Proof.
  intros Hl Hp Hpar. destruct (phase_cons _ _ _ Hl) as (p' & E & Hp' & _ & _ & Hlt).
  pose proof (proj1 (fit_valid _ _ _ _ _ FIT p Hp)) as Hv. pose proof (proj1 (fit_valid _ _ _ _ _ FIT p' Hp')) as Hv'.
  apply (raw_inj p p' Hv Hv') in E as <-. split.
  - intros a Ha Hne Hane. destruct (Hpar p a) as [?|Hla]; [left | done.. |]. unfold listed in Hla.
    apply elem_of_cons in Hla as [E|Hla].
    + destruct Hne. apply raw_inj; eauto using valid_prefix.
    + exfalso. apply (blt_asym (raw a) (raw p)); [by apply raw_blt | by apply Hlt].
  - intros q a Hq Hpq Ha Hne Hane. destruct (Hpar q a) as [?|Hla]; [by right | done.. | by left; left |].
    assert (planned a) as Hpa by by apply (fit_up _ _ _ _ _ FIT q). destruct (listed_cons p a e l Hp Hpa Hla); auto.
Qed.

Lemma directories_run l done_ d :
  progress done_ d → phase_list l → (∀ k e, (k, e) ∈ l → kind e = Directory) → parents_first done_ l →
  ∃ d', mfor l (λ '(path, entry), on_disk (directory_step path entry)) (mkWork s d) = (Ok (), mkWork s d')
    ∧ progress (λ q, done_ q ∨ planned q ∧ listed l q) d'.
Proof.
  revert done_ d. induction l as [|[k e] l IH]; intros done_ d Hpr Hl Hk Hpar.
  { exists d. split; [done |]. apply (progress_weaken done_); [done |]. intros q _ [?|[_ Hn]]; [done | by apply not_elem_of_nil in Hn]. }
  destruct (phase_cons k e l Hl) as (p & -> & Hp & Hg & Hl' & _).
  destruct (parents_head done_ p e l Hl Hp Hpar) as [Hup Hpar']. destruct (fit_valid _ _ _ _ _ FIT p Hp) as [Hv Hne].
  assert (kind e = Directory) as Hke by (apply (Hk (raw p)); left).
  assert (may_change d p) as Hc.
  { apply (progress_change done_); [done.. | congruence | by intros ? _ | congruence]. }
  destruct (directory_step_run d p e) as (d1 & Hrun & Hok1 & Hst & Hprep & Hbe); [apply Hpr | done | done | |].
  { intros i Hi Hb. destruct (pr_planned _ _ Hpr p Hp) as [[E|E]|E].
    - congruence.
    - rewrite Hi in E. destruct (nodes d0 !! p) as [i0|] eqn:Hi0; [| done]. simpl in E. unfold core in E. simplify_eq.
      eapply (fit_typed _ _ _ _ _ FIT p i0) in Hp; [congruence | done | congruence].
    - unfold stepped_to in E. rewrite Hg, decide_True in E by done. destruct E as (i' & E & _ & Hm & _). congruence. }
  cbn [mfor]. rewrite (M_bind_run _ _ _ _ _ (on_disk_run _ s d _ _ Hrun)).
  destruct (IH (λ q, done_ q ∨ q = p) d1) as (d' & Hrun' & Hpr').
  { apply (progress_step done_ d d1 p); [done.. | | |].
    - unfold stepped_to. rewrite Hg, decide_True by done. done.
    - right. destruct (parent_reach d p Hc) as (i & Hi & [Hb _] & _). eauto.
    - intros q Hq Hqp. left. by apply Hbe. }
  { done. } { intros k' e' He. apply (Hk k'). by right. } { done. }
  exists d'. split; [done |]. apply (progress_weaken _ _ d' Hpr').
  intros q Hq [?|[_ Hlq]]; [by left; left |]. destruct (listed_cons p q e l Hp Hq Hlq); auto.
Qed.

Lemma files_run l done_ d :
  progress done_ d → phase_list l → (∀ k e, (k, e) ∈ l → kind e ≠ Directory) →
  (∀ a e, planned a → goal a = Some e → kind e = Directory → done_ a) →
  ∃ d', mfor l (λ '(path, entry), file_step path entry) (mkWork s d) = (Ok (), mkWork s d')
    ∧ progress (λ q, done_ q ∨ planned q ∧ listed l q) d'.
Proof.
  revert done_ d. induction l as [|[k e] l IH]; intros done_ d Hpr Hl Hk Hdirs.
  { exists d. split; [done |]. apply (progress_weaken done_); [done |]. intros q _ [?|[_ Hn]]; [done | by apply not_elem_of_nil in Hn]. }
  destruct (phase_cons k e l Hl) as (p & -> & Hp & Hg & Hl' & _). destruct (fit_valid _ _ _ _ _ FIT p Hp) as [Hv Hne].
  assert (kind e ≠ Directory) as Hke by (apply (Hk (raw p)); left).
  assert (may_change d p) as Hc.
  { apply (progress_change done_); [done.. | congruence | | congruence].
    intros e' He' a Ha Hane Hn. destruct (fit_goal _ _ _ _ _ FIT p e' a He' Ha Hane Hn) as (e'' & Hga & Hka).
    apply (Hdirs a e''); [by apply (fit_up _ _ _ _ _ FIT p) | done..]. }
  destruct (file_step_run s d p e) as (d1 & Hrun & Hok1 & Hst & Hsh & Hbe); [apply Hpr | done | done | | by apply (fit_restorable _ _ _ _ _ FIT p) | done |].
  { intros q j. apply (progress_removable done_ d p q j Hpr Hp). intros e' He'. congruence. }
  cbn [mfor]. mrun Hrun.
  destruct (IH (λ q, done_ q ∨ q = p) d1) as (d' & Hrun' & Hpr').
  { apply (progress_step done_ d d1 p); [done.. | | |].
    - unfold stepped_to. rewrite Hg, decide_False by done. done.
    - right. destruct (parent_reach d p Hc) as (i & Hi & [Hb _] & _). eauto.
    - intros q Hq Hqp. right. split; [by apply Hbe |]. split; [| intros ?; congruence]. destruct (goal q) as [e'|] eqn:He'; [| done].
      destruct (fit_goal _ _ _ _ _ FIT q e' p He' Hq) as (e'' & Hga & Hka); [congruence | done | congruence]. }
  { done. } { intros k' e' He. apply (Hk k'). by right. } { intros a e' Ha He' Hk'. left. by apply (Hdirs a e'). }
  exists d'. split; [done |]. apply (progress_weaken _ _ d' Hpr').
  intros q Hq [?|[_ Hlq]]; [by left; left |]. destruct (listed_cons p q e l Hp Hq Hlq); auto.
Qed.

Lemma removals_run l done_ d :
  progress done_ d → (∀ k, k ∈ l → ∃ p, k = raw p ∧ planned p ∧ goal p = None) →
  (∀ a, planned a → is_Some (goal a) → done_ a) →
  ∃ d', mfor l (λ path, on_disk (removal_step path)) (mkWork s d) = (Ok (), mkWork s d')
    ∧ progress (λ q, done_ q ∨ raw q ∈ l) d'.
Proof.
  revert done_ d. induction l as [|k l IH]; intros done_ d Hpr Hl Hall.
  { exists d. split; [done |]. apply (progress_weaken done_); [done |]. intros q _ [?|Hn]; [done | by apply not_elem_of_nil in Hn]. }
  destruct (Hl k) as (p & -> & Hp & Hg); [left |]. destruct (fit_valid _ _ _ _ _ FIT p Hp) as [Hv Hne].
  assert (∀ e, goal p = Some e → kind e ≠ Directory) as Hnd by congruence.
  assert (is_Some (nodes d !! p) → may_change d p) as Hc.
  { intros Hex. apply (progress_change done_); [done.. | congruence | done]. }
  destruct (removal_step_run d p) as (d1 & Hrun & Hok1 & Hst & Hgone & Hsame); [apply Hpr | done | done | | done | |].
  { intros a i Ha Hane Hn Hi. assert (planned a) as Hpa by by apply (fit_up _ _ _ _ _ FIT p).
    destruct (fit_gone _ _ _ _ _ FIT p a Hp Hg Ha Hane Hn) as [(i0 & Hi0 & Hb0) Hsym].
    destruct (goal a) as [e|] eqn:Hga.
    - pose proof (pr_done _ _ Hpr a Hpa (Hall a Hpa ltac:(by rewrite Hga))) as Hs. unfold stepped_to in Hs. rewrite Hga, Hi in Hs.
      case_decide as Hk.
      + destruct Hs as (i' & E & Hb & _). simplify_eq. unfold is_link. by rewrite Hb.
      + destruct (is_link i) eqn:Hli; [| done]. destruct (Hsym e eq_refl). by eapply shows_link.
    - destruct (pr_planned _ _ Hpr a Hpa) as [[E|E]|E]; [congruence | | unfold stepped_to in E; rewrite Hga in E; congruence].
      rewrite Hi, Hi0 in E. simpl in E. unfold is_link. assert (body i = body i0) as -> by (unfold core in E; congruence). by rewrite Hb0. }
  { intros q j. by apply (progress_removable done_ d p q j Hpr Hp). }
  cbn [mfor]. rewrite (M_bind_run _ _ _ _ _ (on_disk_run _ s d _ _ Hrun)).
  destruct (IH (λ q, done_ q ∨ q = p) d1) as (d' & Hrun' & Hpr').
  { apply (progress_step done_ d d1 p); [done.. | | |].
    - unfold stepped_to. rewrite Hg. by apply Hgone.
    - destruct (nodes d !! p) as [ip|] eqn:Hi; [right | left; auto]. destruct (parent_reach d p) as (i & Hi' & [Hb _] & _); [eauto |]. eauto.
    - intros q Hq Hqp. right. split; [by apply Hgone |]. split; [| intros ?; congruence]. destruct (goal q) as [e'|] eqn:He'; [| done].
      destruct (fit_goal _ _ _ _ _ FIT q e' p He' Hq) as (e'' & Hga & Hka); [congruence | done | congruence]. }
  { intros k Hk. apply Hl. by right. } { intros a Ha Hs. left. by apply Hall. }
  exists d'. split; [done |]. apply (progress_weaken _ _ d' Hpr').
  intros q Hq [?|[E|Hlq]%elem_of_cons]; [by left; left | | by right]. left. right.
  apply raw_inj; [apply (fit_valid _ _ _ _ _ FIT q Hq) | done | done].
Qed.

(** Directories are finished deepest first, each while those above it can still
    be searched. *)
Lemma finish_run l d :
  StronglySorted (flip blt) l.*1 →
  (∀ k e, (k, e) ∈ l → ∃ p, k = raw p ∧ planned p ∧ goal p = Some e ∧ kind e = Directory) →
  (∀ p a, planned p → listed l p → a `prefix_of` p → a ≠ [] → listed l a) →
  disk_ok d → (∃ i, nodes d !! [] = Some i ∧ open_folder i) →
  (∀ p, planned p → listed l p → prepared (nodes d !! p)) →
  ∃ d', mfor l (λ '(path, entry), on_disk (finish_step path entry)) (mkWork s d) = (Ok (), mkWork s d')
    ∧ disk_ok d' ∧ (∀ p, planned p → listed l p → shows s (nodes d' !! p) (goal p))
    ∧ (∀ q, ¬ (planned q ∧ listed l q) → nodes d' !! q = nodes d !! q).
Proof.
  revert d. induction l as [|[k e] l IH]; intros d Hs Hl Hup Hok Hroot Hprep.
  { exists d. split_and!; try done. intros p _ Hn. by apply not_elem_of_nil in Hn. }
  destruct (Hl k e) as (p & -> & Hp & Hg & Hk); [left |]. destruct (fit_valid _ _ _ _ _ FIT p Hp) as [Hv Hne].
  cbn in Hs. apply StronglySorted_inv in Hs as [Hs Hlt]. rewrite Forall_forall in Hlt.
  assert (¬ listed l p) as Hpl. { intros Hpl. specialize (Hlt _ Hpl). by apply blt_irrefl in Hlt. }
  assert (listed ((raw p, e) :: l) p) as Hlp by left.
  destruct (finish_step_run s d p e) as (d1 & Hrun & Hok1 & Hsh & Hsame); [done | done | | by apply Hprep | | done |].
  { intros a Ha Hane. destruct (decide (a = [])) as [->|Hn]; [destruct Hroot as (i & ? & [? _]); eauto |].
    destruct (prepared_open _ (Hprep a (fit_up _ _ _ _ _ FIT p a Hp Ha Hn) (Hup p a Hp Hlp Ha Hn))) as (i & Hi & [? _]). eauto. }
  { pose proof (fit_restorable _ _ _ _ _ FIT p e Hp Hg) as Hr. unfold restorable in Hr. by rewrite Hk in Hr. }
  destruct (IH d1) as (d' & Hrun' & Hok' & Hsh' & Hsame').
  - done.
  - intros k' e' He. apply Hl. by right.
  - intros q a Hq Hql Ha Hn. assert (planned a) as Hpa by by apply (fit_up _ _ _ _ _ FIT q).
    assert (listed ((raw p, e) :: l) a) as Hla by by (apply (Hup q); [| right | |]).
    destruct (listed_cons p a e l Hp Hpa Hla) as [->|?]; [| done]. exfalso.
    destruct (decide (p = q)) as [->|Hpq]; [done |]. specialize (Hlt _ Hql). cbn in Hlt.
    apply (blt_asym (raw q) (raw p)); [done |]. apply raw_blt; [apply (fit_valid _ _ _ _ _ FIT q Hq) | done..].
  - done.
  - rewrite Hsame by by intros <-. done.
  - intros q Hq Hql. rewrite Hsame; [by apply Hprep; [| right] | by intros ->].
  - exists d'. cbn [mfor]. rewrite (M_bind_run _ _ _ _ _ (on_disk_run _ s d _ _ Hrun)). split_and!; [done..| |].
    + intros q Hq Hql. destruct (listed_cons p q e l Hp Hq Hql) as [->|?]; [| by apply Hsh'].
      rewrite Hsame' by by intros [_ ?]. by rewrite Hg.
    + intros q Hq. rewrite Hsame'; [| intros [? ?]; apply Hq; split; [done | by right]]. apply Hsame. intros ->. by apply Hq.
Qed.

(** The entries of a phase are those of the goal its filter keeps. *)
Lemma listed_chosen (P : bytes * TreeEntry → Prop) `{∀ x, Decision (P x)} chosen p :
  (∀ k e, (k, e) ∈ chosen ↔ ∃ p, k = raw p ∧ planned p ∧ goal p = Some e) → planned p →
  listed (base.filter P chosen) p ↔ ∃ e, goal p = Some e ∧ P (raw p, e).
Proof.
  intros Hch Hp. unfold listed. rewrite list_elem_of_fmap. split.
  - intros ([k e] & E & [HP He]%list_elem_of_filter). apply Hch in He as (p' & -> & Hp' & Hg). cbn in E.
    apply raw_inj in E as <-; [eauto | by apply (fit_valid _ _ _ _ _ FIT) ..].
  - intros (e & Hg & HP). exists (raw p, e). split; [done |]. apply list_elem_of_filter. split; [done |]. apply Hch. eauto.
Qed.

(** After its step a place that is no directory is as it should be. *)
Lemma progress_settled done_ d p :
  progress done_ d → p ≠ [] → ¬ hidden p → (planned p → done_ p) →
  (planned p → ∀ e, goal p = Some e → kind e ≠ Directory) → shows s (nodes d !! p) (goal p).
Proof.
  intros Hpr Hne Hseen Hd Hnd. destruct (decide (planned p)) as [Hp|Hp].
  - pose proof (pr_done _ _ Hpr p Hp (Hd Hp)) as Hto. unfold stepped_to in Hto. destruct (goal p) as [e|]; [| by rewrite Hto].
    rewrite decide_False in Hto; [done | by apply Hnd].
  - rewrite (pr_rest _ _ Hpr) by done. by apply (fit_rest _ _ _ _ _ FIT).
Qed.
End Phases.

(** The plan names the planned places, and removes those the goal lacks. *)
Definition plan_for (plan : RewindPlan) (goal : Place → option TreeEntry) (planned : Place → Prop) : Prop :=
  (∀ c, c ∈ plan_changes plan → ∃ p, raw_path c = raw p ∧ planned p ∧ (change_action c = Remove ↔ goal p = None))
  ∧ (∀ p, planned p → ∃ c, c ∈ plan_changes plan ∧ raw_path c = raw p).

Lemma elem_of_removals plan k :
  k ∈ removals plan ↔ ∃ c, c ∈ plan_changes plan ∧ change_action c = Remove ∧ raw_path c = k.
Proof.
  unfold removals. rewrite (merge_sort_Permutation longer), list_elem_of_fmap. setoid_rewrite list_elem_of_filter.
  naive_solver.
Qed.

Lemma StronglySorted_filter_keys {V} (P : bytes * V → Prop) `{∀ x, Decision (P x)} l :
  StronglySorted blt l.*1 → StronglySorted blt (base.filter P l).*1.
Proof.
  intros Hs. induction l as [|x l IH]; [constructor |]. cbn in Hs. apply StronglySorted_inv in Hs as [Hs Hx].
  rewrite filter_cons. case_decide; [| by apply IH]. cbn. constructor; [by apply IH |].
  rewrite Forall_forall in Hx |- *. intros k (y & -> & Hy%list_elem_of_filter)%list_elem_of_fmap. apply Hx.
  apply list_elem_of_fmap. exists y. naive_solver.
Qed.
Lemma chosen_phase {goal planned} (P : bytes * TreeEntry → Prop) `{∀ x, Decision (P x)} (l : list (bytes * TreeEntry)) :
  StronglySorted blt l.*1 → (∀ k e, (k, e) ∈ l → ∃ p, k = raw p ∧ planned p ∧ goal p = Some e) → phase_list goal planned (base.filter P l).
Proof.
  intros Hs Hl. split; [by apply StronglySorted_filter_keys |].
  intros k e [_ He]%list_elem_of_filter. by apply Hl.
Qed.

Lemma btree_iter_sorted {V} (m : gmap bytes V) : StronglySorted blt (btree_iter m).*1.
Proof. rewrite btree_iter_keys. apply sorted_keys_strict. Qed.
Lemma StronglySorted_reverse_flip (l : list bytes) : StronglySorted blt l → StronglySorted (flip blt) (reverse l).
Proof.
  induction 1 as [|x l Hs IH Hx]; [constructor |]. rewrite reverse_cons. apply StronglySorted_app_2; [| done | by repeat constructor].
  intros y z Hy ->%list_elem_of_singleton. rewrite Forall_forall in Hx. apply Hx. by apply elem_of_reverse.
Qed.

Variable link_name : nat → bytes.
Variable fuel : nat.

Lemma plan_apply_run s d0 goal planned hidden plan target_ protected :
  plan_fits s d0 goal planned hidden → plan_for plan goal planned → (∀ p, Decision (planned p)) → (∀ p, Decision (hidden p)) →
  (∀ p, planned p → target_ !! raw p = goal p) →
  ∃ d', apply_plan link_name fuel target_ plan [] None protected (mkWork s d0) = (Ok (), mkWork s d')
    ∧ disk_ok d' ∧ (∀ p, p ≠ [] → ¬ hidden p → shows s (nodes d' !! p) (goal p))
    ∧ (∀ p, p ≠ [] → ¬ planned p → nodes d' !! p = nodes d0 !! p)
    ∧ core <$> nodes d' !! [] = core <$> nodes d0 !! [].
Proof.
  intros FIT [Hplan Hcover] Hdec Hdec' Htarget. unfold apply_plan.
  set (chosen := base.filter _ (btree_iter target_)).
  assert (StronglySorted blt chosen.*1) as Hsorted by by apply StronglySorted_filter_keys, btree_iter_sorted.
  assert (∀ k e, (k, e) ∈ chosen ↔ ∃ p, k = raw p ∧ planned p ∧ goal p = Some e) as Hchosen.
  { intros k e. unfold chosen. rewrite list_elem_of_filter, elem_of_btree_iter, elem_of_list_to_set, list_elem_of_fmap. split.
    - intros [[(c & -> & Hc) _] He]. destruct (Hplan c Hc) as (p & E & Hp & _). exists p. rewrite <- (Htarget p Hp), <- E. done.
    - intros (p & -> & Hp & Hg). rewrite (Htarget p Hp). split; [split; [| done] | done].
      destruct (Hcover p Hp) as (c & Hc & E). by exists c. }
  clearbody chosen. set (dirs := base.filter (λ '(_, entry), kind entry = Directory) chosen).
  set (others := base.filter (λ '(_, entry), kind entry ≠ Directory) chosen).
  pose proof (λ p Hp, listed_chosen s d0 goal planned hidden FIT (λ '(_, entry), kind entry = Directory) chosen p Hchosen Hp) as Hdirs.
  pose proof (λ p Hp, listed_chosen s d0 goal planned hidden FIT (λ '(_, entry), kind entry ≠ Directory) chosen p Hchosen Hp) as Hothers.
  fold dirs in Hdirs. fold others in Hothers.
  assert (∀ p a, planned p → listed dirs p → a `prefix_of` p → a ≠ [] → listed dirs a) as Hup.
  { intros p a Hp Hlp Ha Hn. destruct (decide (a = p)) as [->|Hne]; [done |]. apply Hdirs in Hlp as (e & Hg & _); [| done].
    apply Hdirs; [by apply (fit_up _ _ _ _ _ FIT p) |]. by apply (fit_goal _ _ _ _ _ FIT p e). }
  destruct (directories_run s d0 goal planned hidden FIT dirs (λ _, False) d0) as (d1 & Hrun1 & Hpr1).
  { by apply (progress_start s d0 goal planned hidden). } { apply (chosen_phase _ _ Hsorted). intros k e. apply Hchosen. }
  { by intros k e [? _]%list_elem_of_filter. } { intros p a Hlp Hp Ha Hne Hn. right. by apply (Hup p). }
  mrun Hrun1. destruct (files_run s d0 goal planned hidden FIT others _ d1 Hpr1) as (d2 & Hrun2 & Hpr2).
  { apply (chosen_phase _ _ Hsorted). intros k e. apply Hchosen. } { by intros k e [? _]%list_elem_of_filter. }
  { intros a e Ha Hg Hk. right. split; [done |]. apply Hdirs; eauto. }
  assert (∀ a, planned a → is_Some (goal a) → (False ∨ planned a ∧ listed dirs a) ∨ planned a ∧ listed others a) as Hall.
  { intros a Ha [e Hg]. destruct (decide (kind e = Directory)); [left; right | right]; (split; [done |]);
      [apply Hdirs | apply Hothers]; eauto. }
  mrun Hrun2.
  destruct (removals_run s d0 goal planned hidden FIT (base.filter (λ path, selected path [] = true) (removals plan)) _ d2 Hpr2) as (d3 & Hrun3 & Hpr3).
  { intros k [_ (c & Hc & Hact & <-)%elem_of_removals]%list_elem_of_filter. destruct (Hplan c Hc) as (p & E & Hp & Hiff). exists p. naive_solver. }
  { done. }
  assert (∀ a, listed (reverse dirs) a ↔ listed dirs a) as Hrev by (intros a; unfold listed; by rewrite fmap_reverse, elem_of_reverse).
  mrun Hrun3. mpure. destruct (finish_run s d0 goal planned hidden FIT (reverse dirs) d3) as (d4 & Hrun4 & Hok4 & Hsh4 & Hsame4).
  { rewrite fmap_reverse. by apply StronglySorted_reverse_flip, StronglySorted_filter_keys. }
  { intros k e [Hk He]%elem_of_reverse%list_elem_of_filter. apply Hchosen in He as (p & -> & Hp & Hg). eauto. }
  { setoid_rewrite Hrev. done. } { apply Hpr3. }
  { destruct (fit_root _ _ _ _ _ FIT) as (i & Hi & Hio). destruct (core_lookup _ _ i (pr_root _ _ _ _ _ _ Hpr3) Hi) as (j & Hj & Ec).
    exists j. split; [done | by eapply core_open]. }
  { intros p Hp Hlp%Hrev. pose proof Hlp as (e & Hg & Hk)%Hdirs; [| done].
    pose proof (pr_done _ _ _ _ _ _ Hpr3 p Hp ltac:(left; left; right; done)) as Hto. unfold stepped_to in Hto.
    by rewrite Hg, decide_True in Hto. }
  exists d4. split; [done |]. split; [done |]. split.
  2: { split; [intros p Hne Hp; rewrite Hsame4 by (by intros [? _]); by apply Hpr3 |].
       rewrite Hsame4; [apply (pr_root _ _ _ _ _ _ Hpr3) |]. intros [Hp _]. by destruct (fit_valid _ _ _ _ _ FIT [] Hp). }
  intros p Hne Hseen. destruct (decide (planned p ∧ raw p ∈ dirs.*1)) as [[Hp Hd]|Hd].
  { by apply Hsh4, Hrev. }
  rewrite Hsame4 by by rewrite Hrev. apply (progress_settled s d0 goal planned hidden FIT _ d3 p Hpr3 Hne Hseen).
  - intros Hp. destruct (goal p) as [e|] eqn:Hg; [left; apply Hall; [done | by rewrite Hg] |].
    right. apply list_elem_of_filter. split; [done |]. apply elem_of_removals. destruct (Hcover p Hp) as (c & Hc & E).
    exists c. destruct (Hplan c Hc) as (p' & E' & Hp' & Hiff). split_and!; [done | | done].
    apply Hiff. rewrite E in E'. apply raw_inj in E' as <-; [done | by apply (fit_valid _ _ _ _ _ FIT)..].
  - intros Hp e Hg Hk. apply Hd. split; [done |]. apply Hdirs; eauto.
Qed.
End Apply.
