(* ===== verification/RewindRestores.v ===== *)
(** * RewindRestores: planning and carrying out, together

    From a disk that shows the current tree, planning against any snapshot and
    carrying the plan out leaves a disk that shows the snapshot. *)

From S2P Require Import Prelude Model Tree TreeTheory Paths Disk Files Policy Rewind PolicyTheory DiskTheory PlanTheory RewindTheory Concrete.
#[local] Open Scope Z_scope.

Section Restores.
Context `{Platform} {PL : PlatformLaws _} {St : Type} {OS : ObjectStore St} {OSok : ObjectStoreOk St}.
Context {JT : Json Tree} {JTok : JsonOk Tree} {JE : Json TreeEntry} {JP : Json TreePage} `{Json Blob, Json Xattrs, Json Snapshot}.
Variables fuel depth : nat.

Lemma entries_for_plan_ok n s root g changes entries :
  holds fuel n s root g →
  (∀ c, c ∈ changes → ∃ p, raw_path c = raw p ∧ valid_place p ∧ p ≠ [] ∧ (change_action c ≠ Remove → is_Some (g p))) →
  ∃ es, entries_for_plan fuel s root changes entries = Ok es
    ∧ ∀ p, valid_place p → p ≠ [] →
        es !! raw p = if decide (Exists (λ c, raw_path c = raw p ∧ change_action c ≠ Remove) changes) then g p else entries !! raw p.
Proof.
  intros Hg. revert entries. induction changes as [|c changes IH]; intros entries Hc.
  { exists entries. split; [done |]. intros p _ _. rewrite decide_False; [done |]. by intros ?%Exists_nil. }
  destruct (Hc c) as (p & Hp & Hv & Hne & Hsome); [left |]. cbn [entries_for_plan].
  assert (∀ c, c ∈ changes → ∃ p, raw_path c = raw p ∧ valid_place p ∧ p ≠ [] ∧ (change_action c ≠ Remove → is_Some (g p))) as Hc'
    by (intros c' Hc'; apply Hc; by right).
  destruct (decide (change_action c = Remove)) as [Ea|Ea].
  - destruct (IH entries Hc') as (es & -> & Hes). exists es. split; [done |]. intros q Hvq Hq. rewrite Hes by done.
    apply decide_ext. rewrite Exists_cons. naive_solver.
  - rewrite Hp, (lookup_tree_path_ok fuel n s root g p Hg Hv Hne). destruct (Hsome Ea) as [e He]. rewrite He.
    cbn [mbind Res_bind with_context]. destruct (IH (<[raw p := e]> entries) Hc') as (es & -> & Hes). exists es. split; [done |].
    intros q Hvq Hq. rewrite Hes by done. destruct (decide (Exists _ changes)) as [Hx|Hx].
    + rewrite decide_True; [done |]. by right.
    + destruct (decide (p = q)) as [->|Hpq].
      * rewrite lookup_insert_eq, decide_True; [done |]. by left.
      * rewrite lookup_insert_ne by (intros E; apply Hpq; by apply raw_inj). rewrite decide_False; [done |].
        intros [[E _]|?]%Exists_cons; [| done]. rewrite Hp in E. by apply Hpq, raw_inj.
Qed.

(** ** What a rewind may take for granted *)

(** The path of a change is not kept back for what it is or holds. *)
Definition allowed (protected : CapturePolicy) (path : bytes) : Prop :=
  path ≠ b_ ".furrow" ∧ is_identity_path path = false ∧ contains_ignored protected path = false.
(** The policy leaves the place out, or it is the program's own. *)
Definition hidden (protected : CapturePolicy) (p : Place) : Prop := excludes protected (raw p) || is_identity_path (raw p) = true.
#[export] Instance hidden_dec protected p : Decision (hidden protected p) := decide (_ = true).
Lemma hidden_below protected p q : well_formed protected → matcher protected = None → hidden protected p → p `prefix_of` q → valid_place q → hidden protected q.
Proof.
  unfold hidden. intros Hw Hm Hp Hpq Hq. rewrite !orb_true_iff in *. destruct Hp as [Hp|Hp].
  - left. by apply (excludes_below protected p q).
  - right. rewrite identity_inside in *. by apply (inside_below p q).
Qed.

(** The disk shows the tree [f], what the policy hides aside; directories that
    have to go let their entries go; no socket, pipe or directory change the
    program does not handle is asked for. *)
Record rewindable (s : St) (protected : CapturePolicy) (d0 : Disk) (f g : View) : Prop := {
  rw_disk : disk_ok d0;
  rw_root : ∃ i, nodes d0 !! [] = Some i ∧ open_folder i;
  rw_shown p : p ≠ [] → ¬ hidden protected p → shows s (nodes d0 !! p) (f p);
  rw_seen p : is_Some (f p) ∨ is_Some (g p) → ¬ hidden protected p → allowed protected (raw p);
  rw_below p q : hidden protected p → p `prefix_of` q → valid_place q → hidden protected q;
  rw_kept p q : p ≠ [] → ¬ hidden protected p → changed f g p → (∀ e, g p = Some e → kind e ≠ Directory) → p `prefix_of` q → hidden protected q → nodes d0 !! q = None;
  rw_moded p e : ¬ hidden protected p → f p = Some e → kind e = Directory → well_moded e;
  rw_open p e : ¬ hidden protected p → f p = Some e → kind e = Directory → (∀ e', g p = Some e' → kind e' ≠ Directory) →
    may_search (mode e) = true ∧ may_write (mode e) = true;
  rw_link p nm e : ¬ hidden protected p → is_Some (f (p ++ [nm])) → g p = Some e → kind e ≠ Symlink;
  rw_writable p e : ¬ hidden protected p → changed f g p → g p = Some e → restorable s e;
}.

Lemma plain_present (f g : View) q : plain_difference (f q) (g q) → is_Some (f q) ∨ is_Some (g q).
Proof. intros [Hne _]. destruct (f q); [left; eauto |]. destruct (g q); [right; eauto | done]. Qed.
Lemma view_above n s id f p a : holds fuel n s id f → is_Some (f p) → a `prefix_of` p → a ≠ [] → is_Some (f a).
Proof.
  intros Hh [e He] Ha Hn. destruct (decide (a = p)) as [->|Hne]; [eauto |].
  destruct (holds_above fuel n s id f p e a Hh He Ha Hne Hn) as (e' & ? & _). eauto.
Qed.
Lemma changed_present n s id id' f g p :
  holds fuel n s id f → holds fuel n s id' g → p ≠ [] → changed f g p → is_Some (f p) ∨ is_Some (g p).
Proof.
  intros Hf Hg Hne (q & Hq & [Hs|Hs]%plain_present); [left | right]; by eapply view_above.
Qed.

(** Where no difference is listed the two trees say the same of the disk. *)
Lemma unchanged_shows s o f g p : ¬ changed f g p → shows s o (f p) → shows s o (g p).
Proof.
  intros Hch Hs. destruct (decide (f p = g p)) as [E|E]; [by rewrite <- E |].
  destruct (directory_target_only_difference (f p) (g p)) eqn:Ed.
  - apply target_only_dirs in Ed as Hd. destruct Hd as (b & a & Eb & Ea & Hkb & Hka). rewrite Eb, Ea in *.
    unfold directory_target_only_difference in Ed. apply andb_true_iff in Ed as [_ Ed%bool_decide_eq_true]. injection Ed as ? _ _ ? _ ? ? _ _.
    destruct o as [i|]; cbn in *; [| congruence]. unfold inode_shows, recorded_times in *. rewrite Hkb, Hka in *. naive_solver congruence.
  - destruct (f p) as [b|] eqn:Ef.
    + destruct Hch. exists p. split; [done |]. rewrite Ef. split_and!; done.
    + destruct (g p) as [a|] eqn:Eg; [| done]. destruct o; [done |]. cbn. destruct (decide (kind a = SocketMarker)) as [|Hk]; [done |].
      destruct Hch. exists p. split; [done |]. rewrite Ef, Eg. split_and!; [done.. |]. intros _ e [= ->]. done.
Qed.

Lemma rewindable_fits n s protected d0 current target_root f g :
  holds fuel n s current f → holds fuel n s target_root g → rewindable s protected d0 f g →
  plan_fits s d0 g (λ p, p ≠ [] ∧ changed f g p ∧ ¬ hidden protected p) (hidden protected).
Proof.
  intros Hf Hg RW. pose proof (λ p, changed_present n s current target_root f g p Hf Hg) as Hpres. constructor; try apply RW.
  - intros p (Hne & Hch & _). split; [| done]. by apply (changed_valid fuel n s (Some current) (Some target_root) f g).
  - intros p a (_ & (q & Hq & Hd) & Hseen) Ha Hn. split; [done |]. split; [exists q; split; [by trans p | done] |].
    intros Hh. apply Hseen. apply (rw_below _ _ _ _ _ RW a); [done.. |].
    apply (changed_valid fuel n s (Some current) (Some target_root) f g); [done.. | by exists q].
  - intros p e a Hp. by apply (holds_above fuel n s target_root g p e).
  - intros p Hne Hnp Hseen. apply (unchanged_shows s _ f g); [by intros ?; apply Hnp | by apply (rw_shown _ _ _ _ _ RW)].
  - intros p q (Hne & Hch & Hseen). by apply (rw_kept _ _ _ _ _ RW).
  - intros p a (Hne & Hch & Hseen) Hgp Ha Hane Hn. destruct (Hpres p Hne Hch) as [[e He]|[e He]]; [| congruence].
    destruct (holds_above fuel n s current f p e a Hf He Ha Hane Hn) as (e' & He' & Hk).
    assert (¬ hidden protected a) as Hseen'.
    { intros Hh. apply Hseen. apply (rw_below _ _ _ _ _ RW a); [done.. |].
      by apply (changed_valid fuel n s (Some current) (Some target_root) f g). }
    split.
    + pose proof (rw_shown _ _ _ _ _ RW a Hn Hseen') as Hs. rewrite He' in Hs. destruct (nodes d0 !! a) as [i|]; [| cbn in Hs; congruence].
      exists i. split; [done |]. cbn in Hs. unfold inode_shows in Hs. rewrite Hk in Hs. apply Hs.
    + intros e'' Hga. destruct Ha as [t ->]. destruct t as [|x t]; [by rewrite app_nil_r in Hane |].
      apply (rw_link _ _ _ _ _ RW a x); [done | | done]. apply (view_above n s current f (a ++ x :: t)); [done | eauto | | by destruct a].
      exists t. by rewrite <- app_assoc.
  - intros p i Hne Hseen Hi Hb Hgp. pose proof (rw_shown _ _ _ _ _ RW p Hne Hseen) as Hs. rewrite Hi in Hs.
    destruct (f p) as [e|] eqn:Hfp; [| done]. pose proof (shows_folder s i e Hs Hb) as Hk.
    destruct (rw_open _ _ _ _ _ RW p e Hseen Hfp Hk Hgp) as [Hse Hwr]. cbn in Hs. unfold inode_shows, recorded_times in Hs.
    rewrite Hk in Hs. destruct Hs as (_ & Em & _). rewrite <- Em in Hse, Hwr. done.
  - by intros p (_ & _ & ?).
  - intros p i (Hne & Hch & Hseen) Hi Hb.
    pose proof (rw_shown _ _ _ _ _ RW p Hne Hseen) as Hs. rewrite Hi in Hs. destruct (f p) as [e|] eqn:Hfp; [| done].
    pose proof (shows_folder s i e Hs Hb) as Hk. destruct (rw_moded _ _ _ _ _ RW p e Hseen Hfp Hk) as [_ Hm]. cbn in Hs.
    unfold inode_shows, recorded_times in Hs. rewrite Hk in Hs, Hm. destruct Hs as (_ & Em & _). by rewrite Em.
  - intros p e (Hne & Hch & Hseen). by apply (rw_writable _ _ _ _ _ RW).
Qed.

(** The plan of two trees is for the places they differ at, those kept back
    aside. *)
Lemma plan_of_views s folding protected current target_root f g :
  holds fuel depth s current f → holds fuel depth s target_root g → fold_active folding = false →
  ∃ plan, plan_changes_of fuel depth s folding protected current target_root [] = Ok plan
    ∧ plan_held plan = []
    ∧ ∀ c, c ∈ plan_changes plan ↔ ∃ p, p ≠ [] ∧ c = mkRewindChange (action_of (f p) (g p)) (raw p) ∧ changed f g p
                                         ∧ ¬ hidden protected p ∧ allowed protected (raw p).
Proof.
  intros Hf Hg Hfold. unfold plan_changes_of.
  destruct (diff_directory_ok fuel depth s [] (Some current) (Some target_root) f g [] []) as (changes & Hrun & _); [by left | done | done | constructor |].
  cbn [raw join_with app] in Hrun. rewrite Hrun. cbn [mbind Res_bind]. pose proof (λ c, elem_of_plan fuel depth s current target_root f g changes c Hf Hg Hrun) as Hc.
  unfold colliding_paths. rewrite Hfold. cbn [negb mbind Res_bind existsb].
  eexists. split; [reflexivity |]. split; [done |]. intros c. cbn [plan_changes]. rewrite !list_elem_of_filter, Hc. unfold hidden, allowed.
  assert (∀ p, negb (bool_decide (raw p = b_ ".furrow")) && negb (is_identity_path (raw p)) && negb (excludes protected (raw p))
            && negb (contains_ignored protected (raw p)) = true
          ↔ ¬ (excludes protected (raw p) || is_identity_path (raw p) = true) ∧ raw p ≠ b_ ".furrow" ∧ is_identity_path (raw p) = false ∧ contains_ignored protected (raw p) = false) as Hkeep.
  { intros p. rewrite !andb_true_iff, !negb_true_iff, bool_decide_eq_false, not_true_iff_false, orb_false_iff. tauto. }
  split.
  - intros (_ & Hk & p & Hne & -> & Hch). exists p. split; [done |]. split; [done |]. split; [done |]. by apply Hkeep.
  - intros (p & Hne & -> & Hch & Hk). split; [done |]. split; [by apply Hkeep | eauto].
Qed.

(** A plan of the two trees, those kept back aside, and its entries of the second. *)
Definition planned_for (protected : CapturePolicy) (f g : View) (plan : RewindPlan) : Prop :=
  ∀ c, c ∈ plan_changes plan ↔ ∃ p, p ≠ [] ∧ c = mkRewindChange (action_of (f p) (g p)) (raw p) ∧ changed f g p ∧ ¬ hidden protected p.
Definition entries_of (protected : CapturePolicy) (f g h : View) (entries : gmap bytes TreeEntry) : Prop :=
  ∀ p, p ≠ [] → changed f g p → ¬ hidden protected p → entries !! raw p = h p.

Lemma planned_run s folding protected current target_root f g :
  holds fuel depth s current f → holds fuel depth s target_root g → fold_active folding = false →
  (∀ p, is_Some (f p) ∨ is_Some (g p) → ¬ hidden protected p → allowed protected (raw p)) →
  ∃ plan, plan_changes_of fuel depth s folding protected current target_root [] = Ok plan ∧ plan_held plan = [] ∧ planned_for protected f g plan.
Proof.
  intros Hf Hg Hfold Hall. destruct (plan_of_views s folding protected current target_root f g Hf Hg Hfold) as (plan & Hplan & Hheld & Hc).
  exists plan. split; [done |]. split; [done |]. intros c. rewrite Hc. split; [naive_solver |].
  intros (p & Hne & -> & Hch & Hseen). exists p. split_and!; try done.
  all: by apply (Hall p (changed_present depth s current target_root f g p Hf Hg Hne Hch)).
Qed.
Lemma plan_entries_run s s' protected current target_root f g plan :
  holds fuel depth s current f → holds fuel depth s target_root g → holds fuel depth s' target_root g → planned_for protected f g plan →
  ∃ entries, entries_for_plan fuel s' target_root (plan_changes plan) ∅ = Ok entries ∧ entries_of protected f g g entries.
Proof.
  intros Hf Hg Hg' Hc. pose proof (λ p, changed_valid fuel depth s (Some current) (Some target_root) f g p Hf Hg) as Hval.
  destruct (entries_for_plan_ok depth s' target_root g (plan_changes plan) ∅ Hg') as (entries & Hent & Hes).
  { intros c (p & Hne & -> & Hch & _)%Hc. exists p. cbn. split; [done |]. split; [by apply Hval |]. split; [done |].
    destruct (changed_present depth s current target_root f g p Hf Hg Hne Hch) as [[e ->]|[e ->]]; [| eauto].
    destruct (g p); [eauto | done]. }
  exists entries. split; [done |]. intros p Hne Hch Hseen. rewrite Hes by auto. case_decide as Hx; [done |]. rewrite lookup_empty.
  destruct (g p) as [e|] eqn:Eg; [| done]. destruct Hx. apply Exists_exists. eexists. split; [apply Hc; eauto |]. cbn. rewrite Eg. by destruct (f p).
Qed.

Variable link_name : nat → bytes.

Lemma apply_views_run s protected current target_root f g d0 plan entries pol :
  holds fuel depth s current f → holds fuel depth s target_root g → rewindable s protected d0 f g →
  planned_for protected f g plan → entries_of protected f g g entries →
  ∃ d', apply_plan link_name fuel entries plan [] None pol (mkWork s d0) = (Ok (), mkWork s d')
    ∧ disk_ok d'
    ∧ (∀ p, p ≠ [] → ¬ hidden protected p → shows s (nodes d' !! p) (g p))
    ∧ (∀ p, p ≠ [] → (∀ c, c ∈ plan_changes plan → raw_path c ≠ raw p) → nodes d' !! p = nodes d0 !! p)
    ∧ core <$> nodes d' !! [] = core <$> nodes d0 !! [].
Proof.
  intros Hf Hg RW Hc Hes. pose proof (λ p, changed_valid fuel depth s (Some current) (Some target_root) f g p Hf Hg) as Hval.
  set (planned := λ p, p ≠ [] ∧ changed f g p ∧ ¬ hidden protected p) in *.
  assert (∀ p, planned p ↔ ∃ c, c ∈ plan_changes plan ∧ raw_path c = raw p ∧ p ≠ [] ∧ valid_place p) as Hnamed.
  { intros p. split.
    - intros (Hne & Hch & Hseen). eexists. split; [apply Hc; eauto |]. split_and!; [done.. |]. by apply Hval.
    - intros (c & (q & Hq & -> & Hch & Hseen)%Hc & E & Hne & Hv). cbn in E. by apply raw_inj in E as ->; [| apply Hval |]. }
  assert (∀ p, Decision (planned p)) as Hdec.
  { intros p. destruct (decide (p ≠ [] ∧ valid_place p ∧ raw p ∈ raw_path <$> plan_changes plan)) as [Hd|Hd].
    - left. apply Hnamed. destruct Hd as (? & ? & (c & ? & ?)%list_elem_of_fmap). eauto.
    - right. intros (c & ? & ? & ? & ?)%Hnamed. apply Hd. split_and!; [done.. |]. apply list_elem_of_fmap. eauto. }
  destruct (plan_apply_run link_name fuel s d0 g planned (hidden protected) plan entries pol) as (d' & Hrun & Hok & Hsh & Hrest & Hroot).
  - by eapply (rewindable_fits depth s protected d0 current target_root f g).
  - split.
    + intros c (p & Hne & -> & Hch & Hseen)%Hc. exists p. split; [done |]. split; [done |]. cbn.
      destruct (changed_present depth s current target_root f g p Hf Hg Hne Hch) as [[e E]|[e E]]; rewrite E; [| destruct (f p); done].
      destruct (g p); done.
    + intros p (Hne & Hch & Hseen). eexists. split; [apply Hc; eauto |]. done.
  - done.
  - apply _.
  - intros p (Hne & Hch & Hseen). by apply Hes.
  - exists d'. split_and!; try done. intros p Hne Hno. apply Hrest; [done |]. intros (_ & Hch & Hseen).
    apply (Hno (mkRewindChange (action_of (f p) (g p)) (raw p))); [apply Hc; eauto | done].
Qed.

(** C4 A rewind restores, where it can be carried out: on a well-formed disk that
    shows a tree [f] (what the policy hides aside), when what goes holds nothing
    hidden and can be removed, what comes can be stored there and no link takes the
    place of a directory with content ([rewindable]), and names do not fold,
    planning against a snapshot's tree [g] and carrying the whole plan out, no link
    groups asked for, does not fail and leaves a well-formed disk that shows [g]
    exactly: kinds, contents, modes, times, attributes of files, link targets,
    nothing more. Every place the plan does not name is as it was, times included. *)
Theorem rewind_restores s folding protected current target_root f g d0 :
  holds fuel depth s current f → holds fuel depth s target_root g →
  rewindable s protected d0 f g → fold_active folding = false →
  ∃ plan entries d',
    plan_changes_of fuel depth s folding protected current target_root [] = Ok plan
    ∧ entries_for_plan fuel s target_root (plan_changes plan) ∅ = Ok entries
    ∧ apply_plan link_name fuel entries plan [] None protected (mkWork s d0) = (Ok (), mkWork s d')
    ∧ disk_ok d'
    ∧ (∀ p, p ≠ [] → ¬ hidden protected p → shows s (nodes d' !! p) (g p))
    ∧ (∀ p, p ≠ [] → (∀ c, c ∈ plan_changes plan → raw_path c ≠ raw p) → nodes d' !! p = nodes d0 !! p).
Proof.
  intros Hf Hg RW Hfold.
  destruct (planned_run s folding protected current target_root f g Hf Hg Hfold (rw_seen _ _ _ _ _ RW)) as (plan & Hplan & _ & Hc).
  destruct (plan_entries_run s s protected current target_root f g plan Hf Hg Hg Hc) as (entries & Hent & Hes).
  destruct (apply_views_run s protected current target_root f g d0 plan entries protected Hf Hg RW Hc Hes) as (d' & Hrun & Hok & Hsh & Hrest & _).
  by exists plan, entries, d'.
Qed.

(** C39 What a plan lists: for any two stored directories and any selection,
    [diff_directory] does not fail and lists exactly the selected paths at or
    above which the directories differ in more than what a directory holds, each
    with what is to be done there. *)
Theorem diff_directory_spec s sels o o' f g :
  (o ≠ None ∨ o' ≠ None) → holds_opt fuel depth s o f → holds_opt fuel depth s o' g →
  ∃ changes, diff_directory fuel depth s sels o o' [] [] = Ok changes
    ∧ ∀ c, c ∈ changes ↔ ∃ p, p ≠ [] ∧ c = mkRewindChange (action_of (f p) (g p)) (raw p)
                               ∧ selected (raw p) sels = true ∧ changed f g p.
Proof.
  intros Hs Hf Hg. destruct (diff_directory_ok fuel depth s sels o o' f g [] [] Hs Hf Hg) as (changes & Hrun & Hl); [constructor |].
  exists changes. split; [exact Hrun | exact Hl].
Qed.

(** ** What a rewind does not handle *)

Lemma link_parent_refused d a nm i :
  reach d a → nodes d !! a = Some i → is_link i = true → a ≠ [] →
  ensure_safe_parent (a ++ [nm]) d = Err "refusing to traverse symlink parent during rewind".
Proof.
  intros Hr Hi Hl Hne. unfold ensure_safe_parent. rewrite parent_snoc.
  assert (∀ rest pre, pre ++ rest = a → rest ≠ [] → no_links pre rest d = Err "refusing to traverse symlink parent during rewind") as Hno; [| by apply Hno].
  induction rest as [|x rest IH]; intros pre E Hrne; [done |]. cbn [no_links].
  destruct (decide (rest = [])) as [->|Hrest].
  - rewrite E, (metadata_reach d a i) by done. by rewrite Hl.
  - destruct (Hr (pre ++ [x])) as (j & Hj & Hb & _).
    { exists rest. by rewrite <- E, <- app_assoc. }
    { rewrite <- E. intros E'. apply app_inv_head in E'. by destruct rest. }
    rewrite (metadata_reach d (pre ++ [x]) j); [| | done].
    + unfold is_link. rewrite Hb. cbn. apply IH; [by rewrite <- app_assoc | done].
    + apply (reach_prefix d _ a); [| done]. exists rest. by rewrite <- E, <- app_assoc.
Qed.

(** A path below what is a symbolic link, now or in the target, is planned,
    and then refused: by the check before anything is changed when the link is
    there now, by its removal when the link has just been restored. So a
    directory with content never rewinds to a link, nor a link to one. *)
Theorem link_swap_refused s folding protected current target_root f g plan a nm now expected reading :
  holds fuel depth s current f → holds fuel depth s target_root g → fold_active folding = false →
  plan_changes_of fuel depth s folding protected current target_root [] = Ok plan →
  plain_difference (f (a ++ [nm])) (g (a ++ [nm])) → a ≠ [] →
  ¬ hidden protected (a ++ [nm]) → allowed protected (raw (a ++ [nm])) →
  ∃ c, c ∈ plan_changes plan ∧ raw_path c = raw (a ++ [nm])
    ∧ ∀ d i, reach d a → nodes d !! a = Some i → is_link i = true →
        verify_change reading now expected [] c (mkWork s d) = (Err "refusing to traverse symlink parent during rewind", mkWork s d)
        ∧ removal_step (raw (a ++ [nm])) d = (Err "refusing to traverse symlink parent during rewind", d).
Proof.
  intros Hf Hg Hfold Hplan Hd Ha Hseen Hall.
  destruct (plan_of_views s folding protected current target_root f g Hf Hg Hfold) as (plan' & Hplan' & _ & Hc).
  rewrite Hplan in Hplan'. injection Hplan' as <-. assert (changed f g (a ++ [nm])) as Hch by by exists (a ++ [nm]).
  pose proof (changed_valid fuel depth s (Some current) (Some target_root) f g _ Hf Hg Hch) as Hv.
  eexists. split; [apply Hc; exists (a ++ [nm]); split_and!; try done; by destruct a |]. split; [done |].
  intros d i Hr Hi Hl. assert (ensure_safe_parent (a ++ [nm]) d = Err "refusing to traverse symlink parent during rewind") as Hsafe
    by by apply (link_parent_refused d a nm i).
  pose proof Hall as (E1 & E2 & _). split.
  - unfold verify_change. cbn [raw_path]. rewrite bool_decide_eq_false_2, E2 by done. cbn [orb negb selected].
    rewrite safe_join_raw by done. mpure. cbn [disk]. by rewrite Hsafe.
  - unfold removal_step. rewrite safe_join_raw by done. mpure. by rewrite Hsafe.
Qed.

(** A pipe that a rewind made never passes the check that follows: [mkfifo]
    leaves the time of its making, and nothing sets the recorded one. Such a
    rewind is rolled back, always. *)
Theorem fifo_never_verifies s d p e act now expected reading w' :
  kind e = Fifo → valid_place p → p ≠ [] → allowed no_policy (raw p) → expected !! raw p = Some e →
  (∀ n, ¬ ((clock n).1 = mtime_secs e ∧ Z.max (clock n).2 0 = mtime_nanos e)) →
  file_step (raw p) e (mkWork s d) = (Ok (), w') →
  verify_change reading now expected [] (mkRewindChange act (raw p)) w' = (Err "workspace path changed during rewind", w').
Proof.
  intros Hk Hv Hne (E1 & E2 & _) Hexp Hclock Hrun.
  assert (∃ w1, on_disk (create_fifo p (mode e)) w1 = (Ok (), w')) as ([s1 d1] & Hfifo).
  { unfold file_step in Hrun. rewrite safe_join_raw in Hrun by done. rewrite Hk in Hrun. res_inv. eauto. }
  unfold on_disk in Hfifo. cbn [disk] in Hfifo. destruct (create_fifo p (mode e) d1) as [r d'] eqn:Ec. injection Hfifo as -> <-.
  destruct (create_inv d1 p _ _ d' Hne Ec) as [Hc Hnone].
  destruct (create_run d1 p Pipe (Z.lor 0x1000 (Z.land (Z.land (mode e) 0xfff) (Z.lnot umask))) Hc Hnone)
    as (d2 & i & Hrun' & Ho & Hi & _ & _ & Hb & _ & _ & Hm).
  unfold create_fifo in Ec. rewrite Ec in Hrun'. injection Hrun' as <-.
  assert (reach d' p) as Hr.
  { apply (reach_core d1); [| apply Hc]. intros a _ Hane. by apply (only_at_core p). }
  unfold verify_change. cbn [raw_path]. rewrite bool_decide_eq_false_2, E2 by done. cbn [orb negb selected].
  rewrite safe_join_raw by done. mpure. cbn [disk]. rewrite safe_parent_reach by done. mpure. rewrite Hexp.
  unfold path_matches_entry. rewrite M_bind_assoc. mpure. cbn [disk]. rewrite (metadata_reach d' p i) by done.
  rewrite bool_decide_eq_false_2 by congruence. rewrite Hk, Hb. cbn [kind_matches negb].
  assert (times_match i e = false) as ->; [| done].
  unfold times_match. rewrite Hm. destruct ((clock (ticks d1)).1 =? mtime_secs e) eqn:Et; [| by rewrite andb_false_r].
  rewrite andb_true_r. destruct (st_mode i =? mode e); [| done]. cbn [andb]. apply not_true_is_false. intros En.
  apply (Hclock (ticks d1)). lia.
Qed.

(** What a policy leaves out goes with its directory: the plan removes a
    directory the target lacks whatever is excluded in it, for only Git's ignored
    files hold a directory back, and the removal takes all of it. *)
Theorem rewind_removes_excluded s folding protected current target_root f g p e :
  holds fuel depth s current f → holds fuel depth s target_root g → fold_active folding = false → matcher protected = None →
  f p = Some e → g p = None → ¬ hidden protected p → raw p ≠ b_ ".furrow" → is_identity_path (raw p) = false →
  ∃ plan, plan_changes_of fuel depth s folding protected current target_root [] = Ok plan
    ∧ mkRewindChange Remove (raw p) ∈ plan_changes plan
    ∧ ∀ d, disk_ok d → may_change d p →
        (∀ q i, p `prefix_of` q → nodes d !! q = Some i → body i = Folder → open_folder i) →
        ∃ d', removal_step (raw p) d = (Ok (), d') ∧ ∀ q, p `prefix_of` q → nodes d' !! q = None.
Proof.
  intros Hf Hg Hfold Hmat He Hgp Hseen E1 E2.
  destruct (holds_valid fuel depth s current f p e Hf He) as [Hv Hne].
  destruct (plan_of_views s folding protected current target_root f g Hf Hg Hfold) as (plan & Hplan & _ & Hc).
  exists plan. split; [done |]. split.
  - apply Hc. exists p. rewrite He, Hgp. split_and!; try done.
    + exists p. split; [done |]. rewrite He, Hgp. done.
    + unfold allowed, contains_ignored. by rewrite Hmat, andb_false_r.
  - intros d Hok Hch Hopen. destruct (removal_step_run d p Hok Hv Hne) as (d' & Hrun & _ & _ & Hgone & _).
    + intros a i Ha Hane _ Hi. destruct Hch as (_ & Hr & _). destruct (Hr a Ha Hane) as (j & Hj & Hb & _).
      rewrite Hi in Hj. simplify_eq. unfold is_link. by rewrite Hb.
    + done.
    + done.
    + eauto.
Qed.
End Restores.

(** ** Witnesses *)

Module RewindExample.
#[local] Existing Instances toy_json toy_json_ok.

(** A POSIX owner with umask 022, and a clock that counts from 1000. *)
#[local] Instance owner : Platform := {
  clock n := (1000 + Z.of_nat n, 0); umask := 0x12;
  may_write m := Z.testbit m 7 && Z.testbit m 6; may_search m := Z.testbit m 6;
}.
#[local] Instance owner_laws : PlatformLaws owner.
Proof.
  assert (∀ m k, Z.land m 0x1c0 = 0x1c0 → Z.testbit 0x1c0 k = true → Z.testbit m k = true) as Hb.
  { intros m k E Hk. pose proof (Z.land_spec m 0x1c0 k) as Hs. rewrite E, Hk in Hs. by destruct (Z.testbit m k). }
  split; intros m E; [change (Z.testbit m 7 && Z.testbit m 6 = true) | change (Z.testbit m 6 = true)].
  - by rewrite (Hb m 7 E eq_refl), (Hb m 6 E eq_refl).
  - by apply (Hb m 6 E).
Qed.

(** A store to read from. *)
Definition Shelf : Type := list (ObjectKind * ObjectId * bytes).
#[local] Instance Shelf_store : ObjectStore Shelf := {
  put_object k b s := (Err "read-only store", s);
  read_object k id s :=
    with_context (snd <$> head (base.filter (λ '(k', id', _), k' = k ∧ id' = id) s)) "object does not exist";
}.
#[local] Instance Shelf_ok : ObjectStoreOk Shelf.
Proof. split; [done |]. intros k b s r s' [= _ <-] k' id b' Hr. done. Qed.

Definition entry (n : bytes) (k : EntryKind) (t : option ObjectId) (link : bytes) (m size secs : Z) : TreeEntry :=
  mkTreeEntry n k t link m size secs 0 None Source.
Definition kept : TreeEntry := entry (b_ "k") File (Some (b_ "f0")) [] 0x81a4 4 50.
(** The tree on disk, with the directory [a]; the target, with the file [b]. *)
Definition a_dir : TreeEntry := entry (b_ "a") Directory (Some (b_ "s1")) [] 0x41ed 0 60.
Definition x_file : TreeEntry := entry (b_ "x") File (Some (b_ "f1")) [] 0x81a4 3 61.
Definition b_file : TreeEntry := entry (b_ "b") File (Some (b_ "f2")) [] 0x8124 3 62.
Definition root1 : list TreeEntry := [a_dir; kept].
Definition sub1 : list TreeEntry := [x_file].
Definition root2 : list TreeEntry := [b_file; kept].
Definition shelf : Shelf := [
  (TreeKind, b_ "r1", to_vec (mkTree root1 [])); (TreeKind, b_ "s1", to_vec (mkTree sub1 [])); (TreeKind, b_ "r2", to_vec (mkTree root2 []));
  (BlobKind, b_ "f0", to_vec (mkBlob [mkChunkRef (b_ "c0") 4] 4)); (BlobKind, b_ "f1", to_vec (mkBlob [mkChunkRef (b_ "c1") 3] 3));
  (BlobKind, b_ "f2", to_vec (mkBlob [mkChunkRef (b_ "c2") 3] 3));
  (Chunk, b_ "c0", b_ "kept"); (Chunk, b_ "c1", b_ "old"); (Chunk, b_ "c2", b_ "new")].
Definition nothing : bytes → View := λ _ _, None.
Definition f : View := page_view root1 (λ _, page_view sub1 nothing).
Definition g : View := page_view root2 nothing.

(** The disk also has a file the policy leaves out. *)
Definition inode (n : Z) (b : Body) (m secs : Z) : Inode := mkInode n b m (secs, 0) (0, 0) ∅.
Definition disk1 : Disk := mkDisk (list_to_map [
  ([], inode 1 Folder 0x41ed 1); ([b_ "a"], inode 2 Folder 0x41ed 60); ([b_ "a"; b_ "x"], inode 3 (Regular (b_ "old")) 0x81a4 61);
  ([b_ "k"], inode 4 (Regular (b_ "kept")) 0x81a4 50); ([b_ "secret"], inode 5 (Regular (b_ "key")) 0x8180 51)]) 6 0.
Definition policy : CapturePolicy := with_rules [b_ "secret"] false.
Definition no_folding : NameFolding := mkFolding false (λ n, n).

Lemma root1_holds : holds 20 2 shelf (b_ "r1") f.
Proof.
  apply holds_page; [| | simpl; lia | |].
  - eexists. split; [by vm_compute | done].
  - by repeat constructor.
  - by repeat constructor.
  - intros e [->|[->|[]%elem_of_nil]%elem_of_cons]%elem_of_cons; [| done]. intros _. split; [done |]. exists (b_ "s1"). split; [done |].
    apply holds_page; [| by repeat constructor | simpl; lia | by repeat constructor |].
    + eexists. split; [by vm_compute | done].
    + by intros e ->%list_elem_of_singleton.
Qed.
Lemma root2_holds : holds 20 2 shelf (b_ "r2") g.
Proof.
  apply (holds_mono 20 1); [lia |]. apply holds_page; [| by repeat constructor | simpl; lia | by repeat constructor |].
  - eexists. split; [by vm_compute | done].
  - by intros e [->|[->|[]%elem_of_nil]%elem_of_cons]%elem_of_cons.
Qed.

(** The places anything is at. *)
Lemma f_places p e : f p = Some e → (p = [b_ "a"] ∧ e = a_dir) ∨ (p = [b_ "a"; b_ "x"] ∧ e = x_file) ∨ (p = [b_ "k"] ∧ e = kept).
Proof.
  destruct p as [|nm q]; [done |]. unfold f, page_view at 1, entry_named, root1. rewrite !filter_cons, filter_nil.
  repeat case_decide; simplify_eq/=; try done.
  - destruct q as [|nm q]; [intros [= <-]; auto |]. unfold page_view, entry_named, sub1. rewrite filter_cons, filter_nil.
    case_decide; simplify_eq/=; [| done]. destruct q; [intros [= <-]; auto | done].
  - destruct q; [intros [= <-]; auto | done].
Qed.
Lemma g_places p e : g p = Some e → (p = [b_ "b"] ∧ e = b_file) ∨ (p = [b_ "k"] ∧ e = kept).
Proof.
  destruct p as [|nm q]; [done |]. unfold g, page_view at 1, entry_named, root2. rewrite !filter_cons, filter_nil.
  repeat case_decide; simplify_eq/=; try done; destruct q; naive_solver.
Qed.
Lemma disk1_places p i : nodes disk1 !! p = Some i → p ∈ [[]; [b_ "a"]; [b_ "a"; b_ "x"]; [b_ "k"]; [b_ "secret"]].
Proof.
  intros Hi. apply elem_of_list_to_map_2, (list_elem_of_fmap_2 fst) in Hi. by vm_compute in Hi |- *.
Qed.

Lemma policy_formed : well_formed policy.
Proof. split; [by repeat constructor |]. apply validated_safe. by repeat constructor. Qed.
Lemma listed_seen p : p ∈ [[b_ "a"]; [b_ "a"; b_ "x"]; [b_ "k"]; [b_ "b"]] →
  valid_place p ∧ ¬ hidden policy p ∧ allowed policy (raw p).
Proof.
  intros Hp. assert (bool_decide (valid_place p ∧ ¬ hidden policy p ∧
    (raw p ≠ b_ ".furrow" ∧ is_identity_path (raw p) = false ∧ contains_ignored policy (raw p) = false)) = true) as E; [| by apply bool_decide_eq_true in E].
  repeat (apply elem_of_cons in Hp as [->|Hp]; [by vm_compute |]). by apply not_elem_of_nil in Hp.
Qed.
Lemma hidden_root : ¬ hidden policy [].
Proof. by vm_compute. Qed.

Lemma view_listed p : is_Some (f p) ∨ is_Some (g p) → p ∈ [[b_ "a"]; [b_ "a"; b_ "x"]; [b_ "k"]; [b_ "b"]].
Proof.
  intros [[e [[-> _]|[[-> _]|[-> _]]]%f_places]|[e [[-> _]|[-> _]]%g_places]]; apply (bool_decide_eq_true_1 _); by vm_compute.
Qed.

(** A disk of a few places can be checked. *)
Definition disk_check (d : Disk) : bool :=
  bool_decide (map_Forall (λ p i,
    (p = [] ∨ body <$> nodes d !! parent p = Some Folder) ∧ ino i < next_ino d
    ∧ map_Forall (λ q j, ino i = ino j → p = q ∨ body i ≠ Folder ∧ body j ≠ Folder) (nodes d)) (nodes d)).
Lemma disk_check_ok d : disk_check d = true → disk_ok d.
Proof.
  intros Hc%bool_decide_eq_true. constructor.
  - intros p i Hne Hi. destruct (Hc p i Hi) as ([?|Hp] & _); [done |].
    destruct (nodes d !! parent p) as [j|]; [| done]. exists j. split; [done |]. by injection Hp.
  - intros p q i j Hi Hj. by apply (Hc p i Hi).
  - intros p i Hi. by apply (Hc p i Hi).
Qed.
Lemma disk1_ok : disk_ok disk1.
Proof. apply disk_check_ok. by vm_compute. Qed.

Lemma disk1_shown p : p ≠ [] → ¬ hidden policy p → shows shelf (nodes disk1 !! p) (f p).
Proof.
  intros Hne Hseen. destruct (f p) as [e|] eqn:Hf.
  - apply f_places in Hf as [[-> ->]|[[-> ->]|[-> ->]]].
    + by vm_compute.
    + exists (b_ "old"). by vm_compute.
    + exists (b_ "kept"). by vm_compute.
  - destruct (nodes disk1 !! p) as [i|] eqn:Hi; [| done]. pose proof (disk1_places p i Hi) as Hp.
    repeat (apply elem_of_cons in Hp as [->|Hp]); [done | by vm_compute in Hf.. | by destruct Hseen; vm_compute | by apply not_elem_of_nil in Hp].
Qed.
Lemma hidden_places q i : nodes disk1 !! q = Some i → hidden policy q → q = [b_ "secret"].
Proof.
  intros Hi Hh. pose proof (disk1_places q i Hi) as Hq.
  repeat (apply elem_of_cons in Hq as [->|Hq]); [by vm_compute in Hh.. | done | by apply not_elem_of_nil in Hq].
Qed.
Lemma restorable_file e : e = b_file ∨ e = kept → restorable shelf e.
Proof. intros [->| ->]; (split; [split; [split; by vm_compute | by vm_compute] | split; [by eexists | by vm_compute]]). Qed.

Lemma disk1_rewindable : rewindable shelf policy disk1 f g.
Proof.
  constructor.
  - apply disk1_ok.
  - eexists. split; [by vm_compute | by vm_compute].
  - apply disk1_shown.
  - intros p Hp _. by apply listed_seen, view_listed.
  - intros p q Hh Hpq Hv. by apply (hidden_below policy p q policy_formed).
  - intros p q Hne Hseen _ _ Hpq Hh. destruct (nodes disk1 !! q) as [i|] eqn:Hi; [| done].
    pose proof (hidden_places q i Hi Hh) as ->. destruct p as [|nm p]; [done |].
    pose proof (prefix_cons_inv_1 _ _ _ _ Hpq) as ->. apply prefix_cons_inv_2, prefix_nil_inv in Hpq as ->. done.
  - intros p e _ [[_ ->]|[[_ ->]|[_ ->]]]%f_places; [| done..]. intros _. split; [split; by vm_compute | by vm_compute].
  - intros p e _ [[_ ->]|[[_ ->]|[_ ->]]]%f_places; [| done..]. intros _ _. by vm_compute.
  - by intros p nm e _ _ [[_ ->]|[_ ->]]%g_places.
  - intros p e _ _ [[_ ->]|[_ ->]]%g_places; apply restorable_file; auto.
Qed.

Lemma rewind_restores_witness :
  ∃ plan entries d',
    plan_changes_of 20 2 shelf no_folding policy (b_ "r1") (b_ "r2") [] = Ok plan
    ∧ entries_for_plan 20 shelf (b_ "r2") (plan_changes plan) ∅ = Ok entries
    ∧ apply_plan (λ n, b_ "link") 20 entries plan [] None policy (mkWork shelf disk1) = (Ok (), mkWork shelf d')
    ∧ disk_ok d' ∧ (∀ p, p ≠ [] → ¬ hidden policy p → shows shelf (nodes d' !! p) (g p))
    ∧ (∀ p, p ≠ [] → (∀ c, c ∈ plan_changes plan → raw_path c ≠ raw p) → nodes d' !! p = nodes disk1 !! p).
Proof. exact (rewind_restores 20 2 (λ n, b_ "link") shelf no_folding policy (b_ "r1") (b_ "r2") f g disk1 root1_holds root2_holds disk1_rewindable eq_refl). Defined.

Lemma diff_directory_spec_witness :
  ∃ changes, diff_directory 20 2 shelf [b_ "a"] (Some (b_ "r1")) (Some (b_ "r2")) [] [] = Ok changes
    ∧ ∀ c, c ∈ changes ↔ ∃ p, p ≠ [] ∧ c = mkRewindChange (action_of (f p) (g p)) (raw p)
                               ∧ selected (raw p) [b_ "a"] = true ∧ changed f g p.
Proof.
  apply (diff_directory_spec 20 2 shelf [b_ "a"] (Some (b_ "r1")) (Some (b_ "r2")) f g); [by left | exact root1_holds | exact root2_holds].
Defined.

(** The same directory, as a link. *)
Definition a_link : TreeEntry := entry (b_ "a") Symlink None (b_ "k") 0xa1ff 0 60.
Definition root3 : list TreeEntry := [a_link; kept].
Definition shelf3 : Shelf := (TreeKind, b_ "r3", to_vec (mkTree root3 [])) :: shelf.
Lemma root3_holds : holds 20 2 shelf3 (b_ "r3") (page_view root3 nothing).
Proof.
  apply (holds_mono 20 1); [lia |]. apply holds_page; [| by repeat constructor | simpl; lia | by repeat constructor |].
  - eexists. split; [by vm_compute | done].
  - by intros e [->|[->|[]%elem_of_nil]%elem_of_cons]%elem_of_cons.
Qed.
Lemma root1_holds3 : holds 20 2 shelf3 (b_ "r1") f.
Proof.
  apply holds_page; [| by repeat constructor | simpl; lia | by repeat constructor |].
  - eexists. split; [by vm_compute | done].
  - intros e [->|[->|[]%elem_of_nil]%elem_of_cons]%elem_of_cons; [| done]. intros _. split; [done |]. exists (b_ "s1"). split; [done |].
    apply holds_page; [| by repeat constructor | simpl; lia | by repeat constructor |].
    + eexists. split; [by vm_compute | done].
    + by intros e ->%list_elem_of_singleton.
Qed.
Definition link_disk : Disk := mkDisk (list_to_map [([], inode 1 Folder 0x41ed 1); ([b_ "a"], inode 2 (Link (b_ "k")) 0xa1ff 60)]) 3 0.
Definition quiet : Place → Disk → list (Res bytes) * Disk := λ p d, (match read_file_at p d with Ok b => [Ok b] | Err e => [Err e] end, d).
Lemma a_reached d i : nodes d !! [] = Some i → searchable i → reach d [b_ "a"].
Proof.
  intros Hi Hs a Ha Hne. destruct a as [|x a]; [by exists i |].
  pose proof (prefix_cons_inv_1 _ _ _ _ Ha) as ->. by apply prefix_cons_inv_2, prefix_nil_inv in Ha as ->.
Qed.
Lemma link_reached : reach link_disk [b_ "a"].
Proof. eapply a_reached; [by vm_compute | by vm_compute]. Qed.
Lemma link_swap_refused_witness :
  ∃ plan c, plan_changes_of 20 2 shelf3 no_folding policy (b_ "r3") (b_ "r1") [] = Ok plan ∧ c ∈ plan_changes plan
    ∧ verify_change quiet (λ _, 0) ∅ [] c (mkWork shelf3 link_disk) = (Err "refusing to traverse symlink parent during rewind", mkWork shelf3 link_disk).
Proof.
  destruct (plan_of_views 20 2 shelf3 no_folding policy _ _ _ _ root3_holds root1_holds3 eq_refl) as (plan & Hplan & _).
  assert (plain_difference (page_view root3 nothing [b_ "a"; b_ "x"]) (f [b_ "a"; b_ "x"])) as Hplain.
  { change (plain_difference None (Some x_file)). split_and!; [done | done |]. by intros _ e [= <-]. }
  assert (¬ hidden policy [b_ "a"; b_ "x"] ∧ allowed policy (b_ "a/x")) as [Hseen Hall]
    by (apply (listed_seen [b_ "a"; b_ "x"]); right; left).
  destruct (link_swap_refused 20 2 shelf3 no_folding policy (b_ "r3") (b_ "r1") (page_view root3 nothing) f plan [b_ "a"] (b_ "x") (λ _, 0) ∅ quiet
    root3_holds root1_holds3 eq_refl Hplan Hplain ltac:(done) Hseen Hall) as (c & Hc & _ & Hd).
  exists plan, c. destruct (Hd link_disk (inode 2 (Link (b_ "k")) 0xa1ff 60) link_reached eq_refl eq_refl) as [Hv _].
  exact (conj Hplan (conj Hc Hv)).
Defined.

(** A pipe recorded at second 5. *)
Definition pipe : TreeEntry := entry (b_ "p") Fifo None [] 0x11a4 0 5.
Definition empty_disk : Disk := mkDisk (list_to_map [([], inode 1 Folder 0x41ed 1)]) 2 0.
Lemma fifo_never_verifies_witness :
  ∃ w', file_step (b_ "p") pipe (mkWork shelf empty_disk) = (Ok (), w')
    ∧ verify_change quiet (λ _, 0) {[b_ "p" := pipe]} [] (mkRewindChange Restore (b_ "p")) w' = (Err "workspace path changed during rewind", w').
Proof.
  destruct (file_step (b_ "p") pipe (mkWork shelf empty_disk)) as [r w'] eqn:E.
  assert (r = Ok ()) as ->.
  { replace r with (file_step (b_ "p") pipe (mkWork shelf empty_disk)).1 by by rewrite E. by vm_compute. }
  exists w'. split; [done |].
  apply (fifo_never_verifies shelf empty_disk [b_ "p"] pipe Restore (λ _, 0) {[b_ "p" := pipe]} quiet w'); [done | by repeat constructor | done | by vm_compute | done | | exact E].
  intros n [Hs _]. cbn in Hs. lia.
Defined.

(** A file the policy leaves out inside the directory the target lacks. *)
Definition inner_policy : CapturePolicy := with_rules [b_ "a/secret"] false.
Definition disk2 : Disk := set_nodes <[[b_ "a"; b_ "secret"] := inode 6 (Regular (b_ "key")) 0x8180 51]> (mkDisk (nodes disk1) 7 0).
Lemma disk2_ok : disk_ok disk2.
Proof. apply disk_check_ok. by vm_compute. Qed.
Lemma disk2_change : may_change disk2 [b_ "a"].
Proof.
  split; [done |]. split; [eapply a_reached; by vm_compute |]. eexists. split; [by vm_compute | by vm_compute].
Qed.
Lemma disk2_open q j : nodes disk2 !! q = Some j → body j = Folder → open_folder j.
Proof.
  intros Hj Hb. assert (bool_decide (map_Forall (λ _ i, body i = Folder → (body i = Folder ∧ may_search (st_mode i) = true) ∧ may_write (st_mode i) = true) (nodes disk2)) = true) as Hall by by vm_compute.
  apply bool_decide_eq_true in Hall. by apply (Hall q j).
Qed.
Lemma rewind_removes_excluded_witness :
  ∃ plan d', plan_changes_of 20 2 shelf no_folding inner_policy (b_ "r1") (b_ "r2") [] = Ok plan
    ∧ mkRewindChange Remove (b_ "a") ∈ plan_changes plan
    ∧ excludes inner_policy (b_ "a/secret") = true ∧ is_Some (nodes disk2 !! [b_ "a"; b_ "secret"])
    ∧ removal_step (b_ "a") disk2 = (Ok (), d') ∧ nodes d' !! [b_ "a"; b_ "secret"] = None.
Proof.
  destruct (rewind_removes_excluded 20 2 shelf no_folding inner_policy _ _ f g [b_ "a"] a_dir root1_holds root2_holds eq_refl eq_refl eq_refl eq_refl)
    as (plan & Hplan & Hin & Hrun); [by vm_compute | done | done |].
  destruct (Hrun disk2 disk2_ok disk2_change (λ q j _, disk2_open q j)) as (d' & Hd' & Hgone).
  exists plan, d'.
  assert (excludes inner_policy (b_ "a/secret") = true ∧ is_Some (nodes disk2 !! [b_ "a"; b_ "secret"])) as [He Hs].
  { clear. split; [by vm_compute | by eexists; vm_compute]. }
  refine (conj Hplan (conj Hin (conj He (conj Hs (conj Hd' _))))). apply Hgone. by exists [b_ "secret"].
Defined.
End RewindExample.
