(* ===== verification/RefStore.v ===== *)
(** * RefStore: the reference log, as a client of it sees it

    What a capture and a seal need of a workspace's log of references
    ([RefLog] of [furrow-core/src/refs.rs]): its newest record, and an append
    that does nothing when the newest record already names the snapshot. The
    client's theorems are proved against the interface; the log of [Refs]
    keeps it in any state a crash leaves. *)

From S2P Require Import Prelude Model.
From S2P Require Refs RefsTheory.
#[local] Open Scope Z_scope.

Class RefStore (L : Type) := {
  ref_head : M L (option Refs.RefRecord);
  ref_append : ObjectId → Z → option bytes → SnapshotTrigger → M L Refs.RefRecord;
}.
Class RefStoreOk (L : Type) `{RefStore L} := {
  (** The log holds these records. *)
  says : L → list Refs.RefRecord → Prop;
  (** A record of this snapshot can follow them. *)
  room : list Refs.RefRecord → ObjectId → Z → option bytes → SnapshotTrigger → Prop;
  head_says : ∀ l rs, says l rs → ∃ l', ref_head l = (Ok (last rs), l') ∧ says l' rs;
  append_says : ∀ l rs id at_ lab trg, says l rs → room rs id at_ lab trg →
    (∀ r, last rs = Some r → Refs.snapshot_id r ≠ id) →
    ∃ r l', ref_append id at_ lab trg l = (Ok r, l') ∧ says l' (rs ++ [r])
      ∧ Refs.snapshot_id r = id ∧ Refs.sealed_at r = at_ ∧ Refs.label r = lab ∧ Refs.trigger r = trg;
  append_again : ∀ l rs r at_ lab trg, says l rs → last rs = Some r → room rs (Refs.snapshot_id r) at_ lab trg →
    ∃ l', ref_append (Refs.snapshot_id r) at_ lab trg l = (Ok r, l') ∧ says l' rs;
}.

#[export] Instance reflog `{Blake3, Json Refs.RefRecord} : RefStore Refs.RefLog :=
  {| ref_head := Refs.head_; ref_append := Refs.append |}.

Section RefLog.
Context `{Blake3Ok, JsonOk Refs.RefRecord}.
#[local] Abbreviation next_record := RefsTheory.next_record.

Definition reflog_says (l : Refs.RefLog) (rs : list Refs.RefRecord) : Prop :=
  RefsTheory.well_chained rs ∧ RefsTheory.recoverable l rs.
Definition reflog_room (rs : list Refs.RefRecord) (id : ObjectId) (at_ : Z) (lab : option bytes) (trg : SnapshotTrigger) : Prop :=
  blen (to_vec (next_record rs id at_ lab trg)) ≤ Refs.MAX_RECORD
  ∧ blen (RefsTheory.log_bytes (rs ++ [next_record rs id at_ lab trg])) < 2 ^ 62.

#[export] Program Instance reflog_ok : RefStoreOk Refs.RefLog := {| says := reflog_says; room := reflog_room |}.
Next Obligation.
  intros l rs [Hc Hr]. destruct (RefsTheory.head_run l rs Hc Hr) as (l' & Hrun & Hco). exists l'. split; [exact Hrun |].
  split; [done |]. by apply RefsTheory.coherent_recoverable.
Qed.
Next Obligation.
  intros l rs id at_ lab trg [Hc Hr] [Hfit Hlen] Hnew. destruct (RefsTheory.log_append_run l rs id at_ lab trg Hr Hc Hlen) as (l' & Hrun).
  assert (RefsTheory.head_is rs id = None) as E.
  { unfold RefsTheory.head_is. destruct (last rs) as [r|]; [| done]. rewrite decide_False; [done |]. by apply Hnew. }
  rewrite E, decide_True in Hrun by done. destruct Hrun as [Hrun Hco]. eexists _, l'. split; [exact Hrun |].
  split_and!; [| done..]. split; [by apply RefsTheory.well_chained_snoc | by apply RefsTheory.coherent_recoverable].
Qed.
Next Obligation.
  intros l rs r at_ lab trg [Hc Hr] Hlast [_ Hlen]. destruct (RefsTheory.log_append_run l rs (Refs.snapshot_id r) at_ lab trg Hr Hc Hlen) as (l' & Hrun).
  unfold RefsTheory.head_is in Hrun. rewrite Hlast, decide_True in Hrun by done. destruct Hrun as [Hrun Hco]. exists l'. split; [exact Hrun |].
  split; [done |]. by apply RefsTheory.coherent_recoverable.
Qed.
End RefLog.
