(* ===== verification/PathIndex.v ===== *)
(** * PathIndex: the working path state of a session ([furrow-core/src/path_index.rs])

    Three SQL tables: the entry at each captured path under its directory's path,
    the paths that share a file with another, and the root tree they make up. The
    entry column's JSON reads back as what was written, so it is left decoded;
    unsigned numbers keep their value through the signed SQL integers. *)

From S2P Require Import Prelude Model.
#[local] Open Scope Z_scope.

Definition CHILD_BATCH : nat := 512.

Record Row := mkRow { row_parent : bytes; row_name : bytes; row_entry : TreeEntry }.
#[export] Instance Row_eq_dec : EqDecision Row.
Proof. solve_decision. Defined.
(** Device and inode. *)
Abbreviation FileIdentity := (Z * Z)%type.

Record Tables := mkTables { rows : gmap bytes Row; links : gmap bytes FileIdentity; state : option (ObjectId * bytes) }.
Definition no_tables : Tables := mkTables ∅ ∅ None.
Definition set_rows f t := mkTables (f (rows t)) (links t) (state t).
Definition set_links f t := mkTables (rows t) (f (links t)) (state t).

(** [saved] is what the tables were when the active transaction began. *)
Record PathIndex := mkIndex { tables : Tables; saved : option Tables }.
Definition new_index : PathIndex := mkIndex no_tables None.
Definition update (f : Tables → Tables) : M PathIndex () := modify (λ x, mkIndex (f (tables x)) (saved x)).

Record PathUsage := mkUsage {
  u_files : Z; u_directories : Z; u_symlinks : Z; u_fifos : Z; u_special : Z; u_logical_bytes : Z;
}.

(** ** Transactions *)

Definition transaction_active (x : PathIndex) : bool := match saved x with Some _ => true | None => false end.
Definition begin_ : M PathIndex () :=
  x ← get;
  _ ← mensure (negb (transaction_active x)) "path-index transaction is active";
  put (mkIndex (tables x) (Some (tables x))).
Definition commit : M PathIndex () :=
  x ← get;
  _ ← mensure (transaction_active x) "path-index transaction is not active";
  put (mkIndex (tables x) None).
Definition rollback : M PathIndex () := modify (λ x, mkIndex (default (tables x) (saved x)) None).

(** ** Entries *)

Definition reset : M PathIndex () := update (λ _, no_tables).
Definition upsert (path parent : bytes) (entry : TreeEntry) : M PathIndex () :=
  update (set_rows (<[path := mkRow parent (name entry) entry]>)).
Definition entry (path : bytes) (t : Tables) : option TreeEntry := row_entry <$> rows t !! path.

(** [WITH RECURSIVE descendants]: the rows whose parent is among the last ones
    found. No path is its own ancestor, so there are no more rounds than rows. *)
Definition children_of (ps : list bytes) (t : Tables) : list bytes :=
  (base.filter (λ '(_, r), row_parent r ∈ ps) (map_to_list (rows t))).*1.
Fixpoint descend (fuel : nat) (t : Tables) (frontier : list bytes) : list bytes :=
  match fuel with
  | O => frontier
  | S fuel => frontier ++ match children_of frontier t with [] => [] | found => descend fuel t found end
  end.
Definition descendants (path : bytes) (t : Tables) : list bytes :=
  match rows t !! path with None => [] | Some _ => descend (base.size (rows t)) t [path] end.
(** The link rows go first, while the entries that name the subtree exist. *)
Definition remove_subtree (path : bytes) : M PathIndex Z :=
  t ← gets tables;
  _ ← update (set_links (base.filter (λ '(p, _), p ∉ descendants path t)));
  t ← gets tables;
  let gone := descendants path t in
  _ ← update (set_rows (base.filter (λ '(p, _), p ∉ gone)));
  mret (Z.of_nat (base.size (base.filter (λ '(p, _), p ∈ gone) (rows t)))).
Definition remove (path : bytes) : M PathIndex bool :=
  _ ← update (set_links (delete path));
  t ← gets tables;
  _ ← update (set_rows (delete path));
  mret (bool_decide (is_Some (rows t !! path))).

(** [WHERE parent = .. AND name > .. ORDER BY name LIMIT ..]; no name is empty. *)
Definition by_name (a b : Row) : Prop := ble (row_name a) (row_name b).
#[export] Instance by_name_dec : RelDecision by_name := λ a b, decide (ble (row_name a) (row_name b)).
Definition children_after (parent : bytes) (after_name : option bytes) (limit : nat) (t : Tables) : list TreeEntry :=
  let after_name := default [] after_name in
  let found := base.filter (λ r, row_parent r = parent ∧ blt after_name (row_name r)) (map_to_list (rows t)).*2 in
  map row_entry (take limit (merge_sort by_name found)).
Definition entries_after (after_path : option bytes) (limit : nat) (t : Tables) : list (bytes * TreeEntry) :=
  let after_path := default [] after_path in
  take limit (map (λ '(path, r), (path, row_entry r)) (base.filter (λ '(path, _), blt after_path path) (btree_iter (rows t)))).

(** ** Shared files *)

Definition note_link (path : bytes) (identity : option FileIdentity) : M PathIndex () :=
  update (set_links (match identity with Some id => <[path := id]> | None => delete path end)).
Definition link_identity (path : bytes) (t : Tables) : option FileIdentity := links t !! path.
Definition link_has_no_known_sibling (path : bytes) (t : Tables) : bool :=
  match links t !! path with
  | None => false
  | Some mine => forallb (λ '(p, other), bool_decide (p = path) || negb (bool_decide (other = mine))) (map_to_list (links t))
  end.

(** [groups.sort()]: lists of paths in lexicographic order. *)
Fixpoint paths_le (a b : list bytes) : bool :=
  match a, b with
  | [], _ => true
  | _, [] => false
  | x :: a, y :: b => match bytes_cmp x y with Lt => true | Gt => false | Eq => paths_le a b end
  end.
#[export] Instance paths_le_dec : RelDecision (λ a b, paths_le a b = true) := λ a b, decide (paths_le a b = true).
(** The paths of one file, in path order. *)
Definition members (t : Tables) (id : FileIdentity) : list bytes :=
  (base.filter (λ '(_, other), other = id) (btree_iter (links t))).*1.
Definition link_groups (t : Tables) : list (list bytes) :=
  let identities := remove_dups (map_to_list (links t)).*2 in
  merge_sort (λ a b, paths_le a b = true)
    (base.filter (λ group, (1 < length group)%nat) (map (members t) identities)).

(** ** The root and counts *)

Definition set_root (root : ObjectId) (generation : bytes) : M PathIndex () :=
  update (λ t, mkTables (rows t) (links t) (Some (root, generation))).
Definition root (generation : bytes) (t : Tables) : option ObjectId :=
  '(id, g) ← state t; if decide (g = generation) then Some id else None.
Definition count (t : Tables) : Z := Z.of_nat (base.size (rows t)).

Definition use (u : PathUsage) (e : TreeEntry) : PathUsage :=
  let '(mkUsage f d l p s b) := u in
  match kind e with
  | File => mkUsage (sat_add f 1) d l p s (sat_add b (size e))
  | Directory => mkUsage f (sat_add d 1) l p s b
  | Symlink => mkUsage f d (sat_add l 1) p s b
  | Fifo => mkUsage f d l (sat_add p 1) s b
  | SocketMarker => mkUsage f d l p (sat_add s 1) b
  end.
Definition usage (t : Tables) : PathUsage :=
  foldl (λ u '(_, r), use u (row_entry r)) (mkUsage 0 1 0 0 0 0) (map_to_list (rows t)).
