(* ===== verification/Capture.v ===== *)
(** * Capture: the disk into a tree ([furrow-core/src/repository.rs])

    A capture walks directories in name order, writes what it finds as a tree and
    notes every entry in the path index; a file whose stat still matches its row
    in the capture cache is not read again. Told which paths changed, it walks only
    those and rebuilds the directories above them from the index. The workspace
    has no composed directory and no capture plan is in force; a reported path
    below a symbolic link, which the system would follow, is outside Disk.v. *)

From S2P Require Import Prelude Model Tree Paths Disk Files Policy RefStore.
From S2P Require PathIndex Catalog Refs.
#[local] Open Scope Z_scope.

Definition WORKSPACE_FILE : Place := [b_ ".furrow"; b_ "workspace-id"].
Definition FAMILY_FILE : Place := [b_ ".furrow"; b_ "family-id"].
Definition FORK_FILE : Place := [b_ ".furrow"; b_ "fork-id"].

(** ** The state of a capture

    The objects and the disk, the index once it is open, the store's catalog with
    its capture cache, the policy in use, the content of [paths.head], and the log
    of the workspace's references. *)
Record Session (St L : Type) := mkSession {
  work : Work St;
  index : option PathIndex.PathIndex;
  catalog : Catalog.Catalog;
  policy : CapturePolicy;
  paths_head : option bytes;
  ref_log : L;
}.
Arguments mkSession {_ _}.
Arguments work {_ _}.
Arguments index {_ _}.
Arguments catalog {_ _}.
Arguments policy {_ _}.
Arguments paths_head {_ _}.
Arguments ref_log {_ _}.

Definition on_work {St L A} (m : M (Work St) A) : M (Session St L) A := λ s,
  let '(r, w) := m (work s) in (r, mkSession w (index s) (catalog s) (policy s) (paths_head s) (ref_log s)).
Definition on_index {St L A} (m : M PathIndex.PathIndex A) : M (Session St L) A := λ s,
  match index s with
  | Some x => let '(r, x) := m x in (r, mkSession (work s) (Some x) (catalog s) (policy s) (paths_head s) (ref_log s))
  | None => (Err "the path index is not open", s)
  end.
Definition on_catalog {St L A} (m : M Catalog.Catalog A) : M (Session St L) A := λ s,
  let '(r, c) := m (catalog s) in (r, mkSession (work s) (index s) c (policy s) (paths_head s) (ref_log s)).
Definition on_log {St L A} (m : M L A) : M (Session St L) A := λ s,
  let '(r, l) := m (ref_log s) in (r, mkSession (work s) (index s) (catalog s) (policy s) (paths_head s) l).
Definition on_policy {St L A} (m : M CapturePolicy A) : M (Session St L) A := λ s,
  let '(r, p) := m (policy s) in (r, mkSession (work s) (index s) (catalog s) p (paths_head s) (ref_log s)).
Definition index_tables {St L A} (f : PathIndex.Tables → A) : M (Session St L) A := on_index (gets (λ x, f (PathIndex.tables x))).
Definition set_index {St L} (x : PathIndex.PathIndex) : M (Session St L) () := modify (λ s,
  mkSession (work s) (Some x) (catalog s) (policy s) (paths_head s) (ref_log s)).
Definition write_paths_head {St L} (content : bytes) : M (Session St L) () := modify (λ s,
  mkSession (work s) (index s) (catalog s) (policy s) (Some content) (ref_log s)).

(** ** Paths as the hints give them *)

(** [Path::parent] of a relative path without a trailing separator: what is before
    the last component, its own trailing separators and dots taken off. *)
Fixpoint trim_front (reversed : bytes) : bytes :=
  match reversed with
  | x :: rest =>
    if decide (x = slash) then trim_front rest
    else match rest with
         | y :: rest' => if decide (x = Byte.x2e ∧ y = slash) then trim_front rest' else reversed
         | [] => reversed
         end
  | [] => []
  end.
Definition relative_parent (path : bytes) : bytes := reverse (trim_front (reverse (split_parent path).1)).
Definition path_depth (path : bytes) : nat := length (components path).
(** What the hint names in the tree, if that is inside: see [logical_path]; of
    another path, whether it ends in [.gitignore] or goes through [.git]. *)
Inductive Hint := Inside (relative : bytes) | Outside (names_rules : bool).

Definition capture_rules_changed (path : Hint) : bool :=
  match path with
  | Outside names_rules => names_rules
  | Inside path =>
    bool_decide (path = POLICY_FILE)
    || match last (components path) with Some (Normal nm) => bool_decide (nm = b_ ".gitignore") | _ => false end
    || bool_decide (path = b_ ".git/index") || bool_decide (path = b_ ".git/info/exclude")
    || bool_decide (Normal (b_ ".git") ∈ components path)
  end.

(** Deepest first, then by descending path. *)
Definition dirty_first (a b : bytes) : Prop := (path_depth b < path_depth a)%nat ∨ path_depth a = path_depth b ∧ ble b a.
#[export] Instance dirty_first_dec : RelDecision dirty_first.
Proof. intros a b. unfold dirty_first. apply _. Defined.

(** ** Entries *)

Definition metadata_time (i : Inode) : Z * Z := ((mtime i).1, Z.max (mtime i).2 0).
Definition stat_len (i : Inode) : Z :=
  match body i with Regular data => blen data | Link dest => blen dest | _ => 0 end.
Definition special_entry (name : bytes) (k : EntryKind) (mode secs nanos : Z) : TreeEntry :=
  mkTreeEntry name k None [] mode 0 secs nanos None Scratch.
Definition file_entry (name : bytes) (class : ContentClass) (row : Catalog.CachedFile) : TreeEntry :=
  mkTreeEntry name File (Some (Catalog.blob_id row)) [] (Catalog.mode row) (Catalog.size row)
    (Catalog.mtime_secs row) (Z.max (Catalog.mtime_nanos row) 0) (Catalog.xattrs row) class.
Definition is_not_found (e : string) : bool := bool_decide (e = ENOENT).

Section Capture.
Context `{Platform} {St : Type} `{ObjectStore St, Json Blob, Json Xattrs, Json TreeEntry, Json TreePage, Json Tree, Json Snapshot, Hex} {L : Type} `{RefStore L}.
Variable reading : Place → Disk → list (Res bytes) * Disk.
Variable wall : nat → Z.
(** The device of the workspace, and which of its inodes have a name outside. *)
Variable device : Z.
Variable linked_outside : Z → bool.
Variable workspace_id : bytes.
(** Where the object store lies, if that is inside the workspace. *)
Variable store_root : option Place.
(** The pack generation of the store. *)
Variable generation : bytes.
(** For the levels of a tree that is written, and the walk of one that is read. *)
Variables rounds fuel : nat.

(** [hardlink::identity]: a regular file with another directory entry. *)
Definition names_of (n : Z) (d : Disk) : nat := base.size (base.filter (λ '(_, i), ino i = n) (nodes d)).
Definition identity (d : Disk) (i : Inode) : option PathIndex.FileIdentity :=
  if is_regular i && (linked_outside (ino i) || (1 <? names_of (ino i) d)%nat) then Some (device, ino i) else None.

(** [SortedDirectory]: the names in a directory, in bytewise order. *)
Definition names_in (p : Place) (d : Disk) : list bytes :=
  merge_sort ble (omap (λ q, if decide (q ≠ [] ∧ parent q = p) then last q else None) (map_to_list (nodes d)).*1).
Definition children (p : Place) (d : Disk) : Res (list bytes) :=
  i ← symlink_metadata p d;
  _ ← ensure (is_folder i) ENOTDIR;
  Ok (names_in p d).

Definition is_own (p : Place) : bool :=
  match store_root with Some r => bool_decide (r `prefix_of` p) | None => false end
  || bool_decide (p = [b_ ".furrow"])
  || bool_decide (p = WORKSPACE_FILE) || bool_decide (p = FAMILY_FILE) || bool_decide (p = FORK_FILE).

(** ** Files *)

Definition cached_matches (row : Catalog.CachedFile) (i : Inode) : bool :=
  (Catalog.device row =? device) && (Catalog.inode row =? ino i) && (Catalog.size row =? stat_len i)
  && (Catalog.mtime_secs row =? (mtime i).1) && (Catalog.mtime_nanos row =? (mtime i).2)
  && (Catalog.ctime_secs row =? (ctime i).1) && (Catalog.ctime_nanos row =? (ctime i).2)
  && (Catalog.mode row =? st_mode i).
Definition unchanged_row (relative : bytes) (i : Inode) : M Catalog.Catalog (option Catalog.CachedFile) :=
  o ← Catalog.cached_file workspace_id relative;
  mret (row ← o; if cached_matches row i && negb (Catalog.is_racy row) then Some row else None).
Definition cached_from_read (read : FileRead) : Catalog.CachedFile :=
  let i := fr_stat read in
  Catalog.mkCachedFile device (ino i) (stat_len i) (mtime i).1 (mtime i).2 (ctime i).1 (ctime i).2 (st_mode i)
    (fr_blob read) (fr_xattrs read) (fr_sqlite read) (read_at_nanos read).
Definition cache_read (relative : bytes) (read : FileRead) : M Catalog.Catalog Catalog.CachedFile :=
  let row := cached_from_read read in
  _ ← Catalog.cache_file workspace_id relative row;
  mret row.

Definition capture_file_entry (p : Place) (name : bytes) (class : ContentClass) (i : Inode) : M (Session St L) TreeEntry :=
  o ← on_catalog (unchanged_row (raw p) i);
  row ← match o with
        | Some row => mret row
        | None => read ← on_work (read_file reading wall p); on_catalog (cache_read (raw p) read)
        end;
  mret (file_entry name class row).

(** ** The walk *)

Definition last_name (p : Place) : bytes := default [] (last p).

(** What is at [p]; [walk] captures a directory. *)
Definition capture_path_entry (walk : Place → M (Session St L) ObjectId) (p : Place) : M (Session St L) (option TreeEntry) :=
  s ← get;
  i ← lift (symlink_metadata p (disk (work s)));
  let '(secs, nanos) := metadata_time i in
  let name := last_name p in
  let class := classify (raw p) in
  match body i with
  | Regular _ =>
    _ ← on_index (PathIndex.note_link (raw p) (identity (disk (work s)) i));
    e ← capture_file_entry p name class i;
    mret (Some e)
  | Folder =>
    xattrs ← on_work (on_objects (capture_xattrs i));
    target ← walk p;
    mret (Some (mkTreeEntry name Directory (Some target) [] (st_mode i) 0 secs nanos xattrs class))
  | Link dest => mret (Some (mkTreeEntry name Symlink None dest (st_mode i) (stat_len i) secs nanos None class))
  | Pipe => mret (Some (special_entry name Fifo (st_mode i) secs nanos))
  | Sock => mret (Some (special_entry name SocketMarker (st_mode i) secs nanos))
  | Device => mret None
  end.

(** One child: not what is the program's own, excluded, or, among names that came
    from Git's index, gone. *)
Definition capture_child (walk : Place → M (Session St L) ObjectId) (tracked_only : bool) (p : Place) (b : Builder) (name : bytes)
    : M (Session St L) Builder :=
  let child := p ++ [name] in
  if is_own child then mret b
  else
    excluded ← on_policy (excludes_bytes (raw child));
    if (excluded : bool) then mret b
    else
      s ← get;
      if tracked_only && match symlink_metadata child (disk (work s)) with Err e => is_not_found e | Ok _ => false end then mret b
      else
        o ← capture_path_entry walk child;
        match o with
        | None => mret b
        | Some entry =>
          _ ← on_index (PathIndex.upsert (raw child) (raw p) entry);
          on_work (on_objects (push b entry))
        end.
Fixpoint capture_children (walk : Place → M (Session St L) ObjectId) (tracked_only : bool) (p : Place) (names : list bytes) (b : Builder)
    : M (Session St L) Builder :=
  match names with
  | [] => mret b
  | name :: names => b ← capture_child walk tracked_only p b name; capture_children walk tracked_only p names b
  end.

Definition finish_tree (b : Builder) : M (Session St L) ObjectId :=
  o ← on_work (on_objects (finish rounds b));
  lift (with_context o "fuel").

(** [depth] is more than directories nest. *)
Fixpoint capture_directory (depth : nat) (p : Place) : M (Session St L) ObjectId :=
  match depth with
  | O => fail "fuel"
  | S depth =>
    s ← get;
    let tracked := tracked_children (policy s) (raw p) in
    names ← lift (match tracked with Some names => Ok names | None => children p (disk (work s)) end);
    b ← capture_children (capture_directory depth) (bool_decide (is_Some tracked)) p names Builder_new;
    finish_tree b
  end.
Variable depth : nat.
Definition capture_entry : Place → M (Session St L) (option TreeEntry) := capture_path_entry (capture_directory depth).

(** ** Directories from the index *)

Fixpoint rebuild_loop (rounds : nat) (relative : bytes) (after_name : option bytes) (b : Builder) : M (Session St L) Builder :=
  match rounds with
  | O => fail "fuel"
  | S rounds =>
    entries ← index_tables (PathIndex.children_after relative after_name PathIndex.CHILD_BATCH);
    match last entries with
    | None => mret b
    | Some entry => b ← on_work (on_objects (push_all b entries)); rebuild_loop rounds relative (Some (name entry)) b
    end
  end.
(** Every round but the last reads at least one row. *)
Definition rebuild_indexed_directory (relative : bytes) : M (Session St L) ObjectId :=
  rows ← index_tables (λ t, base.size (PathIndex.rows t));
  b ← rebuild_loop (S rows) relative None Builder_new;
  finish_tree b.
Definition directory_entry (p : Place) (target : ObjectId) : M (Session St L) TreeEntry :=
  s ← get;
  i ← lift (symlink_metadata p (disk (work s)));
  let '(secs, nanos) := metadata_time i in
  xattrs ← on_work (on_objects (capture_xattrs i));
  mret (mkTreeEntry (last_name p) Directory (Some target) [] (st_mode i) 0 secs nanos xattrs (classify (raw p))).

(** ** The index and the head *)

Fixpoint load_tree_index (depth : nat) (s : St) (root : ObjectId) (parent : bytes) (t : PathIndex.Tables) : Res PathIndex.Tables :=
  match depth with
  | O => Err "fuel"
  | S depth =>
    for_each_entry (λ entry t,
      let path := key_under parent (name entry) in
      let t := PathIndex.set_rows (<[path := PathIndex.mkRow parent (name entry) entry]>) t in
      if decide (kind entry = Directory) then
        root ← with_context (target entry) "directory has no tree"; load_tree_index depth s root path t
      else Ok t) fuel s root t
  end.

Definition indexed_head_token (head : ObjectId) : bytes := id_hex head ++ b_ ":" ++ generation ++ [Byte.x0a].
Definition indexed_head_matches (head : ObjectId) (s : Session St L) : bool :=
  match paths_head s with Some content => bool_decide (content = indexed_head_token head) | None => false end.
Definition remember_indexed_head (head : ObjectId) : M (Session St L) () := write_paths_head (indexed_head_token head).

Definition workspace_head : M (Session St L) (option ObjectId) :=
  r ← on_log ref_head; mret (Refs.snapshot_id <$> r).
(** The links of a snapshot get identities no file has. *)
Definition u64_MAX : Z := 2 ^ 64 - 1.
Definition note_groups (groups : list LinkGroup) : M PathIndex.PathIndex () :=
  mfor (zip (seq 0 (length groups)) groups) (λ '(number, group),
    mfor (link_paths group) (λ path, PathIndex.note_link path (Some (u64_MAX, Z.of_nat number)))).
Definition load_head_index (snapshot : Snapshot) : M (Session St L) () :=
  s ← get;
  _ ← on_index PathIndex.begin_;
  s ← get;
  t ← index_tables (λ t, t);
  t ← lift (load_tree_index depth (store (work s)) (root_tree snapshot) [] t);
  _ ← on_index (PathIndex.update (λ _, t));
  _ ← on_index (note_groups (hardlinks snapshot));
  _ ← on_index (PathIndex.set_root (root_tree snapshot) generation);
  on_index PathIndex.commit.
(** An index that fails to load is not kept. *)
Definition open_path_index (load_head : bool) : M (Session St L) () :=
  s ← get;
  match index s with
  | Some _ => mret ()
  | None =>
    head ← workspace_head;
    _ ← set_index PathIndex.new_index;
    match (if load_head then head else None) with
    | None => mret ()
    | Some head =>
      if negb (indexed_head_matches head s) then mret ()
      else
        r ← try_ (snapshot ← lift (read_struct_at SnapshotKind head (store (work s)) : Res Snapshot); load_head_index snapshot);
        match r with
        | Ok _ => mret ()
        | Err e => _ ← modify (λ s, mkSession (work s) None (catalog s) (policy s) (paths_head s) (ref_log s)); fail e
        end
    end
  end.
Definition index_matches_head : M (Session St L) bool :=
  o ← index_tables (PathIndex.root generation);
  match o with
  | None => mret false
  | Some root =>
    o ← workspace_head;
    match o with
    | None => mret false
    | Some head =>
      s ← get;
      snapshot ← lift (read_struct_at SnapshotKind head (store (work s)) : Res Snapshot);
      mret (indexed_head_matches head s && bool_decide (root = root_tree snapshot)
            && bool_decide (excluded_paths snapshot = excluded (policy s))
            && eqb (bool_decide (is_Some (ignored snapshot))) (bool_decide (is_Some (ignored_summary (policy s)))))
    end
  end.
Definition invalidate_path_index : M (Session St L) () :=
  _ ← write_paths_head (b_ "invalid" ++ [Byte.x0a]);
  _ ← open_path_index false;
  _ ← on_index PathIndex.begin_;
  _ ← on_index PathIndex.reset;
  on_index PathIndex.commit.

(** ** A capture and its retries

    What vanished between a listing and its stat starts the walk over, three times
    at most; the index keeps what it had unless the walk ends. *)
Fixpoint attempts (n : nat) (message : string) (walk : M (Session St L) ObjectId) : M (Session St L) ObjectId :=
  match n with
  | O => fail message
  | S n =>
    _ ← on_index PathIndex.begin_;
    r ← try_ walk;
    match r with
    | Ok id =>
      _ ← on_index (PathIndex.set_root id generation);
      _ ← on_index PathIndex.commit;
      mret id
    | Err e =>
      _ ← on_index PathIndex.rollback;
      if is_not_found e then attempts n message walk else fail e
    end
  end.

Definition capture_root_retry : M (Session St L) ObjectId :=
  _ ← on_policy begin_full_capture;
  _ ← write_paths_head (b_ "invalid" ++ [Byte.x0a]);
  _ ← open_path_index false;
  attempts 3 "workspace kept changing while it was captured" (_ ← on_index PathIndex.reset; capture_directory depth []).

(** *** What changed, and the directories above it *)

(** The paths to look at; [None] when the root itself is named. *)
Fixpoint hinted (hints : list Hint) : Res (option (list bytes)) :=
  match hints with
  | [] => Ok (Some [])
  | Outside _ :: hints => hinted hints
  | Inside relative :: hints =>
    if bool_decide (relative = []) then Ok None
    else if is_identity_path relative then hinted hints
    else
      _ ← validate_relative_path relative;
      rest ← hinted hints;
      Ok (rest ← rest; Some (relative :: rest))
  end.

Definition found_new_link (relative : bytes) (linked_before : option PathIndex.FileIdentity) : M (Session St L) bool :=
  index_tables (λ t, negb (bool_decide (PathIndex.link_identity relative t = linked_before))
                     && PathIndex.link_has_no_known_sibling relative t).
(** Whether its file turned out to have a name the index does not know. *)
Definition changed_path (relative : bytes) : M (Session St L) bool :=
  linked_before ← index_tables (PathIndex.link_identity relative);
  _ ← on_index (PathIndex.remove_subtree relative);
  p ← lift (safe_join relative);
  excluded ← on_policy (excludes_bytes relative);
  s ← get;
  _ ← (if negb (excluded : bool) && exists_at p (disk (work s)) then
         o ← capture_entry p;
         match o with
         | Some entry => on_index (PathIndex.upsert relative (relative_parent relative) entry)
         | None => mret ()
         end
       else mret ());
  found_new_link relative linked_before.
(** The directories above a path, up to the root. *)
Fixpoint parents (n : nat) (path : bytes) : list bytes :=
  match n with
  | O => []
  | S n => let up := relative_parent path in up :: (if bool_decide (up = []) then [] else parents n up)
  end.
(** [None] when a new link calls for the whole walk. *)
Fixpoint changed_loop (paths : list bytes) (dirty : list bytes) : M (Session St L) (option (list bytes)) :=
  match paths with
  | [] => mret (Some dirty)
  | relative :: paths =>
    new ← changed_path relative;
    if (new : bool) then mret None else changed_loop paths (dirty ++ parents (length relative) relative)
  end.

Definition dirty_directory (root_tree : ObjectId) (relative : bytes) : M (Session St L) ObjectId :=
  excluded ← on_policy (excludes_bytes relative);
  if (excluded : bool) then _ ← on_index (PathIndex.remove_subtree relative); mret root_tree
  else
    p ← lift (safe_join relative);
    s ← get;
    match symlink_metadata p (disk (work s)) with
    | Err e =>
      if is_not_found e then
        _ ← (if bool_decide (relative = []) then mret () else _ ← on_index (PathIndex.remove_subtree relative); mret ());
        mret root_tree
      else fail e
    | Ok i =>
      if negb (is_folder i) then mret root_tree
      else
        tree_id ← rebuild_indexed_directory relative;
        if bool_decide (relative = []) then mret tree_id
        else
          entry ← directory_entry p tree_id;
          _ ← on_index (PathIndex.upsert relative (relative_parent relative) entry);
          mret root_tree
    end.
Fixpoint dirty_loop (root_tree : ObjectId) (dirty : list bytes) : M (Session St L) ObjectId :=
  match dirty with
  | [] => mret root_tree
  | relative :: dirty => root_tree ← dirty_directory root_tree relative; dirty_loop root_tree dirty
  end.

Definition full_walk : M (Session St L) ObjectId := _ ← on_index PathIndex.reset; capture_directory depth [].
Definition capture_changed_paths_impl (hints : list Hint) : M (Session St L) ObjectId :=
  paths ← lift (hinted hints);
  match paths with
  | None => full_walk
  | Some paths =>
    existing ← index_tables (PathIndex.root generation);
    existing_root ← lift (with_context existing "path index was invalidated during incremental capture");
    if bool_decide (paths = []) then mret existing_root
    else
      o ← changed_loop (sort_dedup paths) [];
      match o with
      | None => full_walk
      | Some dirty => dirty_loop existing_root (merge_sort dirty_first (sort_dedup dirty))
      end
  end.
Definition capture_changed_paths_retry (hints : list Hint) : M (Session St L) ObjectId :=
  _ ← open_path_index true;
  matches ← index_matches_head;
  if negb (matches : bool) then capture_root_retry
  else attempts 3 "workspace kept changing while its delta was captured" (capture_changed_paths_impl hints).

(** A changed file that has, or had, another name in the tree asks for the whole
    walk. *)
Fixpoint delta_needs_link_walk (hints : list Hint) : M (Session St L) bool :=
  match hints with
  | [] => mret false
  | Outside _ :: hints => delta_needs_link_walk hints
  | Inside relative :: hints =>
    excluded ← (if is_identity_path relative then mret true else on_policy (excludes_bytes relative));
    if (excluded : bool) then delta_needs_link_walk hints
    else
      s ← get;
      match p ← safe_join relative; symlink_metadata p (disk (work s)) with
      | Err _ => delta_needs_link_walk hints
      | Ok i =>
        t ← index_tables (λ t, t);
        if is_regular i
           && (bool_decide (is_Some (identity (disk (work s)) i))
               || bool_decide (is_Some (PathIndex.link_identity relative t)) && negb (PathIndex.link_has_no_known_sibling relative t))
        then mret true
        else delta_needs_link_walk hints
      end
  end.
Definition capture_tree (changed : option (list Hint)) : M (Session St L) ObjectId :=
  match changed with
  | None => capture_root_retry
  | Some hints =>
    if existsb capture_rules_changed hints then capture_root_retry
    else
      _ ← open_path_index true;
      walk ← delta_needs_link_walk hints;
      if (walk : bool) then capture_root_retry else capture_changed_paths_retry hints
  end.
End Capture.
