(* ===== verification/CaptureLog.v ===== *)
(** * CaptureLog: a capture leaves the log of references alone

    Every operation of a capture keeps what the workspace's log says; only a read
    of its head may settle the log. *)

From S2P Require Import Prelude Model Tree Paths Disk Files Policy RefStore Capture.
From S2P Require PathIndex Catalog Refs.
#[local] Open Scope Z_scope.

Create HintDb leaves.

(** The rows of files are read and written within whatever is open. *)
Definition keeps {A} (m : M Catalog.Catalog A) : Prop := ∀ c, Catalog.saved (m c).2 = Catalog.saved c.
Lemma keeps_bind {A B} (m : M Catalog.Catalog A) (f : A → M Catalog.Catalog B) : keeps m → (∀ a, keeps (f a)) → keeps (m ≫= f).
Proof.
  intros Hm Hf c. unfold mbind, M_bind. specialize (Hm c). destruct (m c) as [[a|e] c1]; [| done]. by rewrite (Hf a c1).
Qed.
Lemma keeps_modify f : (∀ c, Catalog.saved (f c) = Catalog.saved c) → keeps (modify f).
Proof. intros Hf c. apply Hf. Qed.
Lemma keeps_refresh c : keeps (if Catalog.is_idle c then Catalog.refresh_file_cache else mret ()).
Proof. destruct (Catalog.is_idle c); [| done]. apply keeps_modify. intros c'. by destruct (negb _). Qed.
Lemma keeps_cached_file ws path : keeps (Catalog.cached_file ws path).
Proof.
  unfold Catalog.cached_file. apply keeps_bind; [done |]. intros c. destruct (negb _); [done |].
  apply keeps_bind; [apply keeps_refresh |]. intros _. apply keeps_bind; [| done]. apply keeps_modify. intros c'. by destruct (_ !! _).
Qed.
Lemma keeps_cache_file ws path f : keeps (Catalog.cache_file ws path f).
Proof.
  unfold Catalog.cache_file. apply keeps_bind; [done |]. intros c. apply keeps_bind; [apply keeps_refresh |]. intros _.
  apply keeps_bind; [done |]. intros c'. destruct (decide _); [done |]. by apply keeps_bind.
Qed.
Lemma keeps_unchanged_row device ws path i : keeps (unchanged_row device ws path i).
Proof. apply keeps_bind; [apply keeps_cached_file | done]. Qed.
Lemma keeps_cache_read device ws path read : keeps (cache_read device ws path read).
Proof. apply keeps_bind; [apply keeps_cache_file | done]. Qed.

Section Leaves.
Context {St L : Type} {RL : RefStore L} {RLok : RefStoreOk L}.

Definition with_log (l : L) (s : Session St L) : Session St L :=
  mkSession (work s) (index s) (catalog s) (policy s) (paths_head s) l.

(** Whatever the log said of its records, it still says, and a transaction of the
    catalog is open after if one was before. *)
Definition leaves {A} (m : M (Session St L) A) : Prop := ∀ s rs, says (ref_log s) rs →
  says (ref_log (m s).2) rs ∧ Catalog.saved (catalog (m s).2) = Catalog.saved (catalog s).

Lemma leaves_pure {A} (r : Res A) : leaves (λ s, (r, s)).
Proof. by intros s rs. Qed.
Lemma leaves_bind {A B} (m : M (Session St L) A) (f : A → M (Session St L) B) : leaves m → (∀ a, leaves (f a)) → leaves (m ≫= f).
Proof.
  intros Hm Hf s rs Hs. unfold mbind, M_bind. specialize (Hm s rs Hs). destruct (m s) as [[a|e] s1]; [| done].
  destruct Hm as [Hl Hc]. destruct (Hf a s1 rs Hl) as [Hl' Hc']. split; [done |]. by rewrite Hc'.
Qed.
Lemma leaves_get {A} (f : Session St L → M (Session St L) A) : (∀ s, leaves (f s)) → leaves (s ← get; f s).
Proof. intros Hf s rs Hs. by apply Hf. Qed.
Lemma leaves_modify f : (∀ s, ref_log (f s) = ref_log s ∧ catalog (f s) = catalog s) → leaves (modify f).
Proof. intros Hf s rs Hs. cbn. by destruct (Hf s) as [-> ->]. Qed.
Lemma leaves_try {A} (m : M (Session St L) A) : leaves m → leaves (try_ m).
Proof. intros Hm s rs Hs. specialize (Hm s rs Hs). unfold try_. by destruct (m s). Qed.
Lemma leaves_mfor {A} (f : A → M (Session St L) ()) : (∀ a, leaves (f a)) → ∀ l, leaves (mfor l f).
Proof. intros Hf l. induction l as [|x l IH]; [exact (leaves_pure _) |]. by apply leaves_bind. Qed.

Lemma leaves_work {A} (m : M (Work St) A) : leaves (on_work m).
Proof. intros s rs Hs. unfold on_work. by destruct (m (work s)). Qed.
Lemma leaves_index {A} (m : M PathIndex.PathIndex A) : leaves (on_index m).
Proof. intros s rs Hs. unfold on_index. destruct (index s) as [x|]; [by destruct (m x) | done]. Qed.
Lemma leaves_catalog {A} (m : M Catalog.Catalog A) : keeps m → leaves (on_catalog m).
Proof. intros Hm s rs Hs. unfold on_catalog. specialize (Hm (catalog s)). by destruct (m (catalog s)). Qed.
Lemma leaves_policy {A} (m : M CapturePolicy A) : leaves (on_policy m).
Proof. intros s rs Hs. unfold on_policy. by destruct (m (policy s)). Qed.

Lemma workspace_head_run s rs : says (ref_log s) rs →
  ∃ l, workspace_head s = (Ok (Refs.snapshot_id <$> last rs), with_log l s) ∧ says l rs.
Proof.
  intros Hs. destruct (head_says _ _ Hs) as (l & Hrun & Hl). exists l. split; [| done].
  unfold workspace_head. erewrite M_bind_run by (unfold on_log; rewrite Hrun; done). done.
Qed.
Lemma leaves_head : leaves workspace_head.
Proof. intros s rs Hs. destruct (workspace_head_run s rs Hs) as (l & -> & Hl). done. Qed.
End Leaves.

#[export] Hint Resolve leaves_pure leaves_work leaves_index leaves_catalog leaves_policy leaves_head keeps_unchanged_row keeps_cache_read : leaves.

(** Take a run apart down to the operations it is made of. *)
Ltac leave_step :=
  lazymatch goal with
  | |- leaves (mbind _ get) => apply leaves_get; intros ?
  | |- leaves (mbind _ _) => apply leaves_bind; [| intros ?]
  | |- leaves (modify _) => apply leaves_modify; intros ?
  | |- leaves (try_ _) => apply leaves_try
  | |- leaves (mfor _ _) => apply leaves_mfor; intros ?
  | |- leaves (if _ then _ else _) => case_match
  | |- leaves (match _ with _ => _ end) => case_match
  | |- leaves (let '(_, _) := _ in _) => case_match
  | |- leaves (mret _) => exact (leaves_pure _)
  | |- leaves (lift _) => exact (leaves_pure _)
  | |- leaves (fail _) => exact (leaves_pure _)
  | |- leaves (index_tables _) => apply leaves_index
  | |- leaves _ => eauto with leaves
  end.
Ltac leave := repeat (leave_step; try done).

Section CaptureLeaves.
Context `{Platform} {St : Type} `{ObjectStore St, Json Blob, Json Xattrs, Json TreeEntry, Json TreePage, Json Tree, Json Snapshot, Hex}.
Context {L : Type} {RL : RefStore L} {RLok : RefStoreOk L}.
Variable reading : Place → Disk → list (Res bytes) * Disk.
Variable wall : nat → Z.
Variable device : Z.
Variable linked_outside : Z → bool.
Variable workspace_id : bytes.
Variable store_root : option Place.
Variable generation : bytes.
Variables rounds fuel depth : nat.
#[local] Abbreviation leaves := (leaves (St := St) (L := L)).

Lemma leaves_file p name class i : leaves (capture_file_entry reading wall device workspace_id p name class i).
Proof. unfold capture_file_entry. leave. Qed.
#[local] Hint Resolve leaves_file : leaves.
Lemma leaves_path_entry walk : (∀ p, leaves (walk p)) → ∀ p, leaves (capture_path_entry reading wall device linked_outside workspace_id walk p).
Proof. intros Hw p. unfold capture_path_entry. leave. Qed.
#[local] Hint Resolve leaves_path_entry : leaves.
Lemma leaves_child walk : (∀ p, leaves (walk p)) → ∀ tracked_only p b name,
  leaves (capture_child reading wall device linked_outside workspace_id store_root walk tracked_only p b name).
Proof. intros Hw ????. unfold capture_child. leave. Qed.
#[local] Hint Resolve leaves_child : leaves.
Lemma leaves_children walk : (∀ p, leaves (walk p)) → ∀ tracked_only p names b,
  leaves (capture_children reading wall device linked_outside workspace_id store_root walk tracked_only p names b).
Proof. intros Hw ?? names. induction names as [|name names IH]; intros b; cbn [capture_children]; leave. Qed.
#[local] Hint Resolve leaves_children : leaves.
Lemma leaves_finish b : leaves (finish_tree rounds b).
Proof. unfold finish_tree. leave. Qed.
#[local] Hint Resolve leaves_finish : leaves.
Lemma leaves_directory n : ∀ p, leaves (capture_directory reading wall device linked_outside workspace_id store_root rounds n p).
Proof. induction n as [|n IH]; intros p; cbn [capture_directory]; leave. Qed.
#[local] Hint Resolve leaves_directory : leaves.

Lemma leaves_rebuild relative : leaves (rebuild_indexed_directory rounds relative).
Proof.
  unfold rebuild_indexed_directory. leave. generalize (@None bytes) Builder_new. induction (S _) as [|n IH]; intros after b; cbn [rebuild_loop]; leave.
Qed.
Lemma leaves_entry_of p t : leaves (directory_entry p t).
Proof. unfold directory_entry. leave. Qed.
#[local] Hint Resolve leaves_rebuild leaves_entry_of : leaves.

Lemma leaves_load snapshot : leaves (load_head_index generation fuel depth snapshot).
Proof. unfold load_head_index. leave. Qed.
#[local] Hint Resolve leaves_load : leaves.
Lemma leaves_open load : leaves (open_path_index generation fuel depth load).
Proof. unfold open_path_index, set_index. leave. Qed.
Lemma leaves_matches : leaves (index_matches_head generation).
Proof. unfold index_matches_head. leave. Qed.
#[local] Hint Resolve leaves_open leaves_matches : leaves.
Lemma leaves_attempts message walk : leaves walk → ∀ n, leaves (attempts generation n message walk).
Proof. intros Hw n. induction n as [|n IH]; cbn [attempts]; leave. Qed.
#[local] Hint Resolve leaves_attempts : leaves.

Lemma leaves_full_walk : leaves (full_walk reading wall device linked_outside workspace_id store_root rounds depth).
Proof. unfold full_walk. leave. Qed.
#[local] Hint Resolve leaves_full_walk : leaves.
Lemma leaves_full : leaves (capture_root_retry reading wall device linked_outside workspace_id store_root generation rounds fuel depth).
Proof. unfold capture_root_retry, write_paths_head. leave. Qed.
#[local] Hint Resolve leaves_full : leaves.

Lemma leaves_changed relative : leaves (changed_path reading wall device linked_outside workspace_id store_root rounds depth relative).
Proof. unfold changed_path, found_new_link, capture_entry. leave. Qed.
#[local] Hint Resolve leaves_changed : leaves.
Lemma leaves_changed_loop paths : ∀ dirty, leaves (changed_loop reading wall device linked_outside workspace_id store_root rounds depth paths dirty).
Proof. induction paths as [|p paths IH]; intros dirty; cbn [changed_loop]; leave. Qed.
#[local] Hint Resolve leaves_changed_loop : leaves.
Lemma leaves_dirty_loop dirty : ∀ root, leaves (dirty_loop rounds root dirty).
Proof. induction dirty as [|p dirty IH]; intros root; cbn [dirty_loop]; [leave |]. unfold dirty_directory. leave. Qed.
#[local] Hint Resolve leaves_dirty_loop : leaves.
Lemma leaves_impl hints : leaves (capture_changed_paths_impl reading wall device linked_outside workspace_id store_root generation rounds depth hints).
Proof. unfold capture_changed_paths_impl. leave. Qed.
#[local] Hint Resolve leaves_impl : leaves.
Lemma leaves_delta hints : leaves (capture_changed_paths_retry reading wall device linked_outside workspace_id store_root generation rounds fuel depth hints).
Proof. unfold capture_changed_paths_retry. leave. Qed.
#[local] Hint Resolve leaves_delta : leaves.
Lemma leaves_link_walk hints : leaves (delta_needs_link_walk device linked_outside hints).
Proof. induction hints as [|[relative|] hints IH]; cbn [delta_needs_link_walk]; leave. Qed.
#[local] Hint Resolve leaves_link_walk : leaves.

(** A capture reads the log's head at most. *)
Lemma leaves_tree changed : leaves (capture_tree reading wall device linked_outside workspace_id store_root generation rounds fuel depth changed).
Proof. unfold capture_tree. leave. Qed.
End CaptureLeaves.
