(* ===== verification/PathIndexTheory.v ===== *)
(** * PathIndexTheory: the index as a view of the tree

    An index whose rows are exactly the entries of a view: what removing a subtree
    leaves of it, and what reading a directory's rows back gives. *)

From S2P Require Import Prelude Model Tree TreeTheory Paths.
From Stdlib Require Finite.
From S2P Require PathIndex.
#[local] Open Scope Z_scope.
#[local] Existing Instance PathIndex.Row_eq_dec.
#[local] Existing Instance PathIndex.by_name_dec.
#[local] Abbreviation View := (Place → option TreeEntry).

Definition row_of (q : Place) (e : TreeEntry) : PathIndex.Row := PathIndex.mkRow (raw (parent q)) (name e) e.

(** Entries lie below the root, under the names they carry. *)
Definition well_placed (v : View) : Prop :=
  ∀ q e, v q = Some e → q ≠ [] ∧ valid_place q ∧ last q = Some (name e).
Definition exact (v : View) (r : gmap bytes PathIndex.Row) : Prop :=
  ∀ k row, r !! k = Some row ↔ ∃ q e, v q = Some e ∧ k = raw q ∧ row = row_of q e.

Section Exact.
Variable v : View.
Hypothesis Hv : well_placed v.
Lemma placed q e : v q = Some e → q = parent q ++ [name e].
Proof.
  intros He. destruct (Hv q e He) as (Hne & _ & Hl). destruct (place_cases q) as [->|(p & nm & ->)]; [done |].
  rewrite last_snoc in Hl. injection Hl as ->. by rewrite parent_snoc.
Qed.
Variable r : gmap bytes PathIndex.Row.
Hypothesis Hr : exact v r.

Lemma exact_lookup q : valid_place q → r !! raw q = row_of q <$> v q.
Proof.
  intros Hq. destruct (v q) as [e|] eqn:E.
  - apply Hr. by exists q, e.
  - cbn. destruct (r !! raw q) as [row|] eqn:Er; [| done]. apply Hr in Er as (q' & e & He & Hk & _).
    destruct (Hv q' e He) as (_ & Hq' & _). apply (raw_inj q q') in Hk as ->; [congruence | done..].
Qed.
Lemma exact_child p e : valid_place p →
  (∃ row, row ∈ (map_to_list r).*2 ∧ PathIndex.row_parent row = raw p ∧ PathIndex.row_entry row = e ∧ PathIndex.row_name row = name e)
  ↔ v (p ++ [name e]) = Some e.
Proof.
  intros Hp. split.
  - intros (row & ([k row'] & -> & Hin)%list_elem_of_fmap & Hpar & Hent & Hname). cbn in *.
    apply elem_of_map_to_list, Hr in Hin as (q & e' & He & -> & ->). cbn in *. subst e'.
    destruct (Hv q e He) as (_ & Hq & _). assert (parent q = p) as <-.
    { apply raw_inj; [| done..]. eapply valid_prefix; [apply parent_prefix | done]. }
    by rewrite <- (placed q e).
  - intros He. exists (row_of (p ++ [name e]) e). unfold row_of. rewrite parent_snoc. split_and!; [| done..].
    apply list_elem_of_fmap. exists (raw (p ++ [name e]), PathIndex.mkRow (raw p) (name e) e). split; [done |].
    apply elem_of_map_to_list, Hr. exists (p ++ [name e]), e. unfold row_of. by rewrite parent_snoc.
Qed.

(** ** The subtree of a path *)

Section Subtree.
Variable p : Place.
Hypothesis Hp : valid_place p.
(** Nothing is in the view without the directories from [p] down to it. *)
Hypothesis Hclosed : ∀ q a, is_Some (v q) → p `prefix_of` a → a `prefix_of` q → is_Some (v a).
Variable t : PathIndex.Tables.
Hypothesis Ht : PathIndex.rows t = r.

Definition reached (k : nat) (q : Place) : Prop := is_Some (v q) ∧ p `prefix_of` q ∧ length q = (k + length p)%nat.

Lemma children_step k F :
  (∀ x, x ∈ F ↔ ∃ q, reached k q ∧ x = raw q) →
  ∀ x, x ∈ PathIndex.children_of F t ↔ ∃ q, reached (S k) q ∧ x = raw q.
Proof.
  intros HF x. unfold PathIndex.children_of. rewrite Ht, list_elem_of_fmap. split.
  - intros ([k' row] & -> & [Hpar Hin]%list_elem_of_filter). cbn. apply elem_of_map_to_list, Hr in Hin as (q & e & He & -> & ->).
    cbn in Hpar. apply HF in Hpar as (a & (Ha & Hpa & Hl) & E). destruct (Hv q e He) as (Hne & Hq & _).
    assert (valid_place (parent q)) as Hvp by (eapply valid_prefix; [apply parent_prefix | done]).
    assert (parent q = a) as <-.
    { apply raw_inj; [done | | done]. destruct Ha as [e' Ha]. by destruct (Hv a e' Ha) as (_ & ? & _). }
    exists q. split; [| done]. split; [by eexists |]. split; [trans (parent q); [done | apply parent_prefix] |].
    rewrite (placed q e He), length_app, Hl. cbn. lia.
  - intros (q & ([e He] & Hpre & Hl) & ->). exists (raw q, row_of q e). split; [done |]. apply list_elem_of_filter. split.
    + cbn. apply HF. exists (parent q). split; [| done]. assert (p `prefix_of` parent q) as Hpp.
      { apply strict_prefix_parent; [done |]. intros ->. lia. }
      split; [eapply Hclosed; [by rewrite He | done | apply parent_prefix] |]. split; [done |].
      rewrite (placed q e He), length_app in Hl. cbn in Hl. lia.
    + apply elem_of_map_to_list, Hr. by exists q, e.
Qed.
Lemma descend_reached fuel : ∀ k F,
  (∀ x, x ∈ F ↔ ∃ q, reached k q ∧ x = raw q) →
  ∀ x, x ∈ PathIndex.descend fuel t F ↔ ∃ q j, (k ≤ j ≤ k + fuel)%nat ∧ reached j q ∧ x = raw q.
Proof.
  induction fuel as [|n IH]; intros k F HF x; cbn [PathIndex.descend].
  - rewrite HF. split.
    + intros (q & Hq & ->). exists q, k. split; [lia | done].
    + intros (q & j & Hj & Hq & ->). assert (j = k) as -> by lia. eauto.
  - pose proof (children_step k F HF) as Hc. rewrite elem_of_app, HF.
    destruct (PathIndex.children_of F t) as [|y F'] eqn:E.
    + split.
      * intros [(q & Hq & ->)|?%not_elem_of_nil]; [| done]. exists q, k. split; [lia | done].
      * intros (q & j & Hj & Hq & ->). left. destruct (decide (j = k)) as [->|]; [eauto |]. exfalso.
        destruct Hq as (Hs & [u ->] & Hl). rewrite length_app in Hl.
        assert (reached (S k) (p ++ take (S k) u)) as Hk.
        { split; [eapply Hclosed; [exact Hs | by apply prefix_app_r | apply prefix_app, prefix_take] |]. split; [by apply prefix_app_r |].
          rewrite length_app, length_take. lia. }
        eapply not_elem_of_nil. apply (Hc (raw (p ++ take (S k) u))). eauto.
    + rewrite (IH (S k) _ Hc). split.
      * intros [(q & Hq & ->)|(q & j & Hj & Hq & ->)]; [exists q, k | exists q, j]; (split; [lia | done]).
      * intros (q & j & Hj & Hq & ->). destruct (decide (j = k)) as [->|]; [left; eauto | right; exists q, j; split; [lia | done]].
Qed.

(** No more levels than rows: the places on the way to [q] have a row each. *)
Lemma levels_fit k q : reached k q → (k < base.size r)%nat.
Proof.
  intros (Hs & [u ->] & Hl). rewrite length_app in Hl.
  set (l := map (λ i, raw (p ++ take i u)) (seq 0 (S k))).
  assert (∀ i, (i ≤ k)%nat → is_Some (v (p ++ take i u))) as Hi.
  { intros i Hi. eapply Hclosed; [exact Hs | by apply prefix_app_r | apply prefix_app, prefix_take]. }
  assert (NoDup l) as Hnd.
  { apply NoDup_ListNoDup. apply (Finite.Injective_map_NoDup_in (λ i, raw (p ++ take i u))); [| apply seq_NoDup]. intros i j Hin Hjn E.
    apply in_seq in Hin, Hjn. destruct (Hi i) as [e He]; [lia |]. destruct (Hi j) as [e' He']; [lia |].
    apply raw_inj in E; [| by destruct (Hv _ _ He) as (_ & ? & _) | by destruct (Hv _ _ He') as (_ & ? & _)].
    apply app_inv_head in E. apply (f_equal length) in E. rewrite !length_take in E. lia. }
  assert (list_to_set l ⊆@{gset bytes} dom r) as Hsub.
  { intros x Hx. apply elem_of_list_to_set, list_elem_of_In, in_map_iff in Hx as (i & <- & Hin%in_seq). destruct (Hi i) as [e He]; [lia |].
    apply elem_of_dom. destruct (Hv _ _ He) as (_ & Hq & _). rewrite exact_lookup by done. by rewrite He. }
  apply subseteq_size in Hsub. rewrite size_list_to_set in Hsub by done. rewrite size_dom in Hsub.
  assert (length l = S k) as Hll by (subst l; by rewrite length_map, length_seq). lia.
Qed.
Lemma elem_of_descendants q : valid_place q → raw q ∈ PathIndex.descendants (raw p) t ↔ is_Some (v q) ∧ p `prefix_of` q.
Proof.
  intros Hq. unfold PathIndex.descendants. rewrite Ht, exact_lookup by done.
  destruct (v p) as [e|] eqn:Ep; cbn [fmap option_fmap option_map].
  - rewrite (descend_reached (base.size r) 0 [raw p]).
    + split.
      * intros (q' & j & _ & (Hs & Hpre & _) & E). apply raw_inj in E as <-; [done.. |].
        destruct Hs as [e' He']. by destruct (Hv _ _ He') as (_ & ? & _).
      * intros [Hs Hpre]. exists q, (length q - length p)%nat. pose proof (prefix_length _ _ Hpre).
        assert (reached (length q - length p) q) as Hk by (split_and!; [done.. | lia]). split_and!; [lia | | done | done].
        pose proof (levels_fit _ _ Hk). lia.
    + intros x. rewrite list_elem_of_singleton. split.
      * intros ->. exists p. split; [| done]. split_and!; [by eexists | done | lia].
      * intros (q' & (_ & [u ->] & Hl) & ->). rewrite length_app in Hl. destruct u; [by rewrite app_nil_r | cbn in Hl; lia].
  - split; [by intros ?%not_elem_of_nil |]. intros [Hs Hpre]. exfalso.
    destruct (Hclosed q p Hs) as [e He]; [done | done | congruence].
Qed.
End Subtree.
End Exact.

(** ** Removing a subtree, adding an entry *)

Definition without (p : Place) (v : View) : View := λ q, if decide (p `prefix_of` q) then None else v q.
Definition put_at (p : Place) (o : option TreeEntry) (v : View) : View := λ q, if decide (q = p) then o else v q.

Lemma well_placed_without p v : well_placed v → well_placed (without p v).
Proof. intros Hv q e. unfold without. case_decide; [done | apply Hv]. Qed.
Lemma exact_ext v v' r : (∀ q, v q = v' q) → exact v r → exact v' r.
Proof. intros E Hr k row. rewrite (Hr k row). by setoid_rewrite E. Qed.

Lemma remove_subtree_ok v x p :
  well_placed v → exact v (PathIndex.rows (PathIndex.tables x)) → valid_place p →
  (∀ q a, is_Some (v q) → p `prefix_of` a → a `prefix_of` q → is_Some (v a)) →
  ∃ n x', PathIndex.remove_subtree (raw p) x = (Ok n, x') ∧ PathIndex.saved x' = PathIndex.saved x
    ∧ PathIndex.state (PathIndex.tables x') = PathIndex.state (PathIndex.tables x)
    ∧ exact (without p v) (PathIndex.rows (PathIndex.tables x')).
Proof.
  intros Hv Hr Hp Hc. unfold PathIndex.remove_subtree. eexists _, _. split; [done |]. split; [done |]. split; [done |].
  cbn. intros k row. rewrite map_lookup_filter_Some. match goal with |- context [PathIndex.descendants _ ?u] => set (t := u) end.
  assert (∀ q, valid_place q → raw q ∈ PathIndex.descendants (raw p) t ↔ is_Some (v q) ∧ p `prefix_of` q) as Hd.
  { intros q. by apply (elem_of_descendants v Hv (PathIndex.rows (PathIndex.tables x)) Hr p Hp Hc t eq_refl). }
  rewrite (Hr k row). unfold without. split.
  - intros [(q & e & He & -> & ->) Hn]. destruct (Hv q e He) as (_ & Hq & _). exists q, e. split; [| done].
    rewrite decide_False; [done |]. intros Hpre. apply Hn, Hd; [done |]. split; [by eexists | done].
  - intros (q & e & He & -> & ->). case_decide as Hpre; [done |]. split; [by exists q, e |].
    destruct (Hv q e He) as (_ & Hq & _). intros [_ ?]%Hd; done.
Qed.
Lemma upsert_exact v q e r :
  well_placed v → exact v r → valid_place q → last q = Some (name e) →
  exact (put_at q (Some e) v) (<[raw q := row_of q e]> r).
Proof.
  intros Hv Hr Hq Hl k row. rewrite lookup_insert_Some, (Hr k row). unfold put_at. split.
  - intros [[<- <-]|[Hne (q' & e' & He' & -> & ->)]]; [exists q, e | exists q', e']; (split; [| done]).
    + by rewrite decide_True.
    + rewrite decide_False; [done |]. by intros ->.
  - intros (q' & e' & He' & -> & ->). case_decide as E.
    + left. subst q'. by injection He' as ->.
    + right. split; [| by exists q', e']. intros Ek. destruct (Hv q' e' He') as (_ & Hq' & _). by apply raw_inj in Ek.
Qed.

(** ** Reading a directory back *)

Lemma sorted_unique es es' : sorted es → sorted es' → (∀ e, e ∈ es ↔ e ∈ es') → es = es'.
Proof.
  revert es'. induction es as [|e es IH]; intros [|e' es'] Hs Hs' He.
  - done.
  - exfalso. eapply not_elem_of_nil, He. left.
  - exfalso. eapply not_elem_of_nil, He. left.
  - apply StronglySorted_inv in Hs as [Hs Hx], Hs' as [Hs' Hx']. fold (map name es) in *. fold (map name es') in *.
    rewrite Forall_forall in Hx, Hx'.
    assert (∀ l y, y ∈ l → name y ∈ map name l) as Hin by (intros l y; apply list_elem_of_fmap_2).
    assert (e = e') as <-.
    { pose proof (proj1 (He e) ltac:(left)) as H1. pose proof (proj2 (He e') ltac:(left)) as H2.
      apply elem_of_cons in H1 as [->|H1], H2 as [E|H2]; try done. exfalso. apply (blt_asym (name e) (name e')); [by apply Hx, Hin | by apply Hx', Hin]. }
    f_equal. apply IH; [done.. |]. intros y. specialize (He y). rewrite !elem_of_cons in He.
    assert (∀ l, (∀ z, z ∈ map name l → blt (name e) z) → y ∈ l → y ≠ e) as Hne.
    { intros l Hl Hy ->. apply (blt_irrefl (name e)). by apply Hl, Hin. }
    split; intros Hy; [pose proof (Hne _ Hx Hy) | pose proof (Hne _ Hx' Hy)]; naive_solver.
Qed.

#[local] Instance by_name_total : Total PathIndex.by_name.
Proof. intros a b. apply (total ble). Qed.
#[local] Instance by_name_trans : Transitive PathIndex.by_name.
Proof. intros a b c. unfold PathIndex.by_name. apply (transitivity (R := ble)). Qed.

Section Children.
Variable v : View.
Hypothesis Hv : well_placed v.
Variable t : PathIndex.Tables.
Hypothesis Hr : exact v (PathIndex.rows t).
Variable p : Place.
Hypothesis Hp : valid_place p.
Variable es : list TreeEntry.
Hypothesis Hs : sorted es.
Hypothesis Hes : ∀ e, e ∈ es ↔ v (p ++ [name e]) = Some e.

Lemma row_names k row : PathIndex.rows t !! k = Some row → PathIndex.row_name row = name (PathIndex.row_entry row).
Proof. intros (q & e & _ & _ & ->)%Hr. done. Qed.
Lemma sorted_filter (P : TreeEntry → Prop) `{∀ x, Decision (P x)} l : sorted l → sorted (base.filter P l).
Proof.
  induction l as [|e l IH]; intros Hl; [done |]. apply StronglySorted_inv in Hl as [Hl Hx]. rewrite filter_cons. case_decide; [| by apply IH].
  constructor; [by apply IH |]. rewrite Forall_forall in *. intros n (y & -> & [_ Hy]%list_elem_of_filter)%list_elem_of_fmap.
  by apply Hx, list_elem_of_fmap_2.
Qed.
Lemma filter_snd {A B} (P : B → Prop) `{∀ x, Decision (P x)} (l : list (A * B)) : base.filter P l.*2 = (base.filter (λ x, P x.2) l).*2.
Proof. induction l as [|[a b] l IH]; [done |]. change (((a, b) :: l).*2) with (b :: l.*2). rewrite !filter_cons. cbn [snd]. case_decide; rewrite IH; done. Qed.
Lemma children_after_ok after_name limit :
  PathIndex.children_after (raw p) after_name limit t = take limit (base.filter (λ e, blt (default [] after_name) (name e)) es).
Proof.
  unfold PathIndex.children_after. rewrite <- firstn_map. f_equal. set (a := default [] after_name).
  set (found := base.filter _ (map_to_list _).*2). change (map PathIndex.row_entry (merge_sort PathIndex.by_name found)) with (PathIndex.row_entry <$> merge_sort PathIndex.by_name found).
  assert (∀ e, e ∈ PathIndex.row_entry <$> merge_sort PathIndex.by_name found ↔ e ∈ base.filter (λ e, blt a (name e)) es) as Hel.
  { intros e. rewrite list_elem_of_filter, Hes, <- (exact_child v Hv (PathIndex.rows t) Hr p e Hp), list_elem_of_fmap.
    setoid_rewrite merge_sort_Permutation. subst found. setoid_rewrite list_elem_of_filter. split.
    - intros (row & -> & [Hpar Hlt] & Hin). pose proof Hin as ([k row'] & -> & Hk%elem_of_map_to_list)%list_elem_of_fmap. cbn in *.
      pose proof (row_names k row' Hk) as En. rewrite <- En. split; [done |]. by exists row'.
    - intros [Hlt (row & Hin & Hpar & Hent & Hname)]. exists row. rewrite Hname. done. }
  apply sorted_unique; [| by apply sorted_filter | done].
  apply StronglySorted_strict.
  - assert (map name (PathIndex.row_entry <$> merge_sort PathIndex.by_name found) = PathIndex.row_name <$> merge_sort PathIndex.by_name found) as ->.
    { assert (∀ row, row ∈ merge_sort PathIndex.by_name found → PathIndex.row_name row = name (PathIndex.row_entry row)) as Hrow.
      { intros row. rewrite merge_sort_Permutation. intros [_ Hin]%list_elem_of_filter. apply list_elem_of_fmap in Hin as ([k row'] & -> & Hk%elem_of_map_to_list).
        by eapply row_names. }
      revert Hrow. generalize (merge_sort PathIndex.by_name found). clear. induction l as [|row l IH]; intros Hl; [done |]. cbn.
      rewrite (Hl row) by left. f_equal. apply IH. intros row' Hin. apply Hl. by right. }
    pose proof (StronglySorted_merge_sort PathIndex.by_name found) as Hms. revert Hms. generalize (merge_sort PathIndex.by_name found).
    clear. induction 1 as [|row l _ IH Hx]; [constructor |]. constructor; [done |]. apply Forall_forall. intros n (y & -> & Hy)%list_elem_of_fmap.
    rewrite Forall_forall in Hx. by apply (Hx y).
  - change (map name ?l) with (name <$> l). rewrite <- list_fmap_compose.
    rewrite (merge_sort_Permutation PathIndex.by_name found). subst found. rewrite filter_snd, <- list_fmap_compose.
    apply NoDup_fmap_2_strong; [| by apply NoDup_filter, NoDup_map_to_list].
    intros [k row] [k' row'] [[Hpar _] Hk%elem_of_map_to_list]%list_elem_of_filter [[Hpar' _] Hk'%elem_of_map_to_list]%list_elem_of_filter. cbn in *.
    intros E. apply Hr in Hk as (q & e & He & -> & ->), Hk' as (q' & e' & He' & -> & ->). cbn in *.
    destruct (Hv q e He) as (_ & Hq & _), (Hv q' e' He') as (_ & Hq' & _).
    assert (parent q = parent q') as Ep.
    { apply raw_inj; [by eapply valid_prefix, Hq; apply parent_prefix | by eapply valid_prefix, Hq'; apply parent_prefix | congruence]. }
    assert (q = q') as -> by (rewrite (placed v Hv q e He), (placed v Hv q' e' He'), Ep; congruence).
    by rewrite He in He'; injection He' as ->.
Qed.
End Children.
