(* ===== verification/CaptureSpec.v ===== *)
(** * CaptureSpec: what a capture of a disk is

    A reference with no index, no cache and no order of events: the entry an inode
    is recorded as, the tree of a directory, and the view of a whole disk. *)

From S2P Require Import Prelude Model Tree TreeTheory Bundle Chunker ChunkerTheory Paths Disk Files Policy DiskTheory PlanTheory RewindTheory Capture.
#[local] Open Scope Z_scope.

(** ** Runs that do not depend on the store *)

Section Oblivious.
Context {St : Type} {OS : ObjectStore St} `{Blake3} {CS : ContentStoreOk St}.
Context {JE : Json TreeEntry} {JP : Json TreePage} {JT : Json Tree}.

Definition oblivious {A} (m : M St A) : Prop := ∀ s1 s2, (m s1).1 = (m s2).1.

Lemma oblivious_ret {A} (a : A) : oblivious (mret a).
Proof. by intros ??. Qed.
Lemma oblivious_lift {A} (r : Res A) : oblivious (lift r).
Proof. by intros ??. Qed.
Lemma oblivious_bind {A B} (m : M St A) (f : A → M St B) :
  oblivious m → (∀ a, oblivious (f a)) → oblivious (m ≫= f).
Proof.
  intros Hm Hf s1 s2. specialize (Hm s1 s2). unfold mbind, M_bind. destruct (m s1) as [[a|e] s1'], (m s2) as [[a'|e'] s2']; cbn in Hm; try done.
  - injection Hm as <-. apply Hf.
  - by injection Hm as <-.
Qed.
Lemma oblivious_put k b : blen b ≤ MAX_OBJECT_LEN → oblivious (put_object k b).
Proof.
  intros Hl s1 s2. destruct (put_stores k b s1 Hl) as (s1' & -> & _), (put_stores k b s2 Hl) as (s2' & -> & _). done.
Qed.
(** A page that passed its check is small. *)
Lemma oblivious_checked {B} t msg (f : ObjectId → M St B) :
  (∀ a, oblivious (f a)) →
  oblivious (_ ← mensure (blen (to_vec t) <=? MAX_TREE_PAGE_BYTES) msg; id ← put_struct t; f id).
Proof.
  intros Hf. destruct (Z.leb_spec (blen (to_vec t)) MAX_TREE_PAGE_BYTES) as [Hl|]; [| by intros ??].
  change (oblivious (id ← put_struct t; f id)). apply oblivious_bind; [| done]. apply oblivious_put.
  trans MAX_TREE_PAGE_BYTES; [done |]. by vm_compute.
Qed.

Lemma oblivious_store_leaf es : oblivious (store_leaf es).
Proof.
  unfold store_leaf. apply oblivious_bind; [apply oblivious_lift |]. intros first.
  apply oblivious_bind; [apply oblivious_lift |]. intros last_. apply oblivious_checked. intros id. apply oblivious_ret.
Qed.
Lemma oblivious_store_branch ps : oblivious (store_branch ps).
Proof.
  unfold store_branch. apply oblivious_bind; [apply oblivious_lift |]. intros first.
  apply oblivious_bind; [apply oblivious_lift |]. intros last_. apply oblivious_checked. intros id. apply oblivious_ret.
Qed.
Lemma oblivious_flush_leaf b : oblivious (flush_leaf b).
Proof. apply oblivious_bind; [apply oblivious_store_leaf | intros; apply oblivious_ret]. Qed.
Lemma oblivious_push b e : oblivious (push b e).
Proof.
  unfold push. apply oblivious_bind; [repeat case_match; apply oblivious_lift || apply oblivious_ret |]. intros _.
  apply oblivious_bind; [case_match; [apply oblivious_flush_leaf | apply oblivious_ret] |]. intros b'.
  apply oblivious_bind; [apply oblivious_lift | intros; apply oblivious_ret].
Qed.
Lemma oblivious_branch_loop ps : ∀ output branch n, oblivious (branch_loop ps output branch n).
Proof.
  induction ps as [|p ps IH]; intros output branch n; cbn [branch_loop].
  - destruct branch; [apply oblivious_ret |]. apply oblivious_bind; [apply oblivious_store_branch | intros; apply oblivious_ret].
  - apply oblivious_bind.
    + case_match; [| apply oblivious_ret]. apply oblivious_bind; [apply oblivious_store_branch | intros; apply oblivious_ret].
    + intros [[output' branch'] n']. apply oblivious_bind; [apply oblivious_lift | intros; apply IH].
Qed.
Lemma oblivious_levels n : ∀ level, oblivious (levels n level).
Proof.
  induction n as [|n IH]; intros level; cbn [levels]; [apply oblivious_ret |]. case_match; [| apply oblivious_ret].
  apply oblivious_bind; [apply oblivious_branch_loop | apply IH].
Qed.
(** The one page that is put unchecked. *)
Lemma oblivious_finish n b : blen (to_vec (mkTree [] [])) ≤ MAX_OBJECT_LEN → oblivious (finish n b).
Proof.
  intros He. unfold finish. apply oblivious_bind; [case_match; [apply oblivious_ret | apply oblivious_flush_leaf] |]. intros b'.
  destruct (leaves b') as [|leaf [|leaf' ls]].
  - apply oblivious_bind; [by apply oblivious_put | intros; apply oblivious_ret].
  - apply oblivious_ret.
  - apply oblivious_bind; [apply oblivious_levels |]. intros [level|]; [| apply oblivious_ret].
    apply oblivious_bind; [apply oblivious_lift | intros; apply oblivious_ret].
Qed.

Lemma oblivious_run {A} (m : M St A) s1 a s1' : oblivious m → m s1 = (Ok a, s1') → ∀ s2, ∃ s2', m s2 = (Ok a, s2').
Proof. intros Hm H1 s2. pose proof (Hm s1 s2) as E. rewrite H1 in E. destruct (m s2) as [r s2']. cbn in E. subst r. eauto. Qed.

(** ** The tree of a list of entries, in any store *)

Variable rounds : nat.

Fixpoint pushes (b : Builder) (es : list TreeEntry) (b' : Builder) : Prop :=
  match es with
  | [] => b = b'
  | e :: es => ∃ b1, (∀ s : St, ∃ s', push b e s = (Ok b1, s')) ∧ pushes b1 es b'
  end.
Definition writes (es : list TreeEntry) (t : ObjectId) : Prop :=
  ∃ b, pushes Builder_new es b ∧ ∀ s : St, ∃ s', finish rounds b s = (Ok (Some t), s').

Lemma pushes_of_run es : ∀ b b' s s', push_all b es s = (Ok b', s') → pushes b es b'.
Proof.
  induction es as [|e es IH]; intros b b' s s' Hrun; cbn [push_all pushes] in *; [by injection Hrun as <- <- |].
  apply M_bind_ok in Hrun as (b1 & s1 & Hp & Hrun). exists b1. split; [| by eapply IH].
  eapply oblivious_run; [apply oblivious_push | done].
Qed.
Lemma pushes_run es : ∀ b b' s, pushes b es b' → ∃ s', push_all b es s = (Ok b', s').
Proof.
  induction es as [|e es IH]; intros b b' s; cbn [pushes push_all]; [intros <-; by exists s |].
  intros (b1 & Hp & Hes). destruct (Hp s) as (s1 & Hp1). rewrite (M_bind_run _ _ _ _ _ Hp1). by apply IH.
Qed.
Lemma pushes_app es es' b b' : pushes b (es ++ es') b' ↔ ∃ b1, pushes b es b1 ∧ pushes b1 es' b'.
Proof.
  revert b. induction es as [|e es IH]; intros b; cbn [app pushes].
  - split; [eauto | by intros (b1 & <- & ?)].
  - setoid_rewrite IH. naive_solver.
Qed.
Lemma writes_of_run es t s s' :
  blen (to_vec (mkTree [] [])) ≤ MAX_OBJECT_LEN → write rounds es s = (Ok (Some t), s') → writes es t.
Proof.
  intros He Hrun. unfold write in Hrun. apply M_bind_ok in Hrun as (b & s1 & Hp & Hf). exists b. split; [by eapply pushes_of_run |].
  eapply oblivious_run; [by apply oblivious_finish | done].
Qed.
Lemma writes_det es t t' (s : St) : writes es t → writes es t' → t = t'.
Proof.
  intros (b & Hp & Hf) (b' & Hp' & Hf'). destruct (pushes_run _ _ _ s Hp) as (s1 & E), (pushes_run _ _ _ s Hp') as (s1' & E').
  rewrite E in E'. injection E' as <- <-. destruct (Hf s) as (? & E1), (Hf' s) as (? & E2). congruence.
Qed.
End Oblivious.

(** ** What is recorded of an inode *)

Section Spec.
Context `{Platform} {St : Type} {OS : ObjectStore St} `{Blake3} {CS : ContentStoreOk St}.
Context {JE : Json TreeEntry} {JP : Json TreePage} {JT : Json Tree} {JB : Json Blob} {JX : Json Xattrs}.
Variable store_root : option Place.
Variable rounds : nat.

Definition chunk_refs (data : bytes) : list ChunkRef := map (λ c, mkChunkRef (object_id Chunk c) (blen c)) (chunks_of data).
Definition blob_of (data : bytes) : Blob := mkBlob (chunk_refs data) (as_u64 (blen data)).
Definition blob_id_of (data : bytes) : ObjectId := object_id BlobKind (to_vec (blob_of data)).
Definition recorded_xattrs (i : Inode) : list XattrEntry :=
  map (λ '(name, value), mkXattr name value) (base.filter (λ '(name, _), is_system_managed name = false) (btree_iter (attrs i))).
Definition xattrs_id (i : Inode) : option ObjectId :=
  if bool_decide (recorded_xattrs i = []) then None else Some (object_id XattrsKind (to_vec (mkXattrs (recorded_xattrs i)))).

(** [t] is the tree of a directory. *)
Definition entry_of (p : Place) (i : Inode) (t : option ObjectId) : option TreeEntry :=
  let '(secs, nanos) := metadata_time i in
  match body i with
  | Regular data =>
    Some (mkTreeEntry (last_name p) File (Some (blob_id_of data)) [] (st_mode i) (blen data) secs nanos (xattrs_id i) (classify (raw p)))
  | Folder => Some (mkTreeEntry (last_name p) Directory t [] (st_mode i) 0 secs nanos (xattrs_id i) (classify (raw p)))
  | Link dest => Some (mkTreeEntry (last_name p) Symlink None dest (st_mode i) (blen dest) secs nanos None (classify (raw p)))
  | Pipe => Some (special_entry (last_name p) Fifo (st_mode i) secs nanos)
  | Sock => Some (special_entry (last_name p) SocketMarker (st_mode i) secs nanos)
  | Device => None
  end.
(** What is written for it fits in objects. *)
Definition storable (i : Inode) : bool :=
  match body i with
  | Regular data => (blen (to_vec (blob_of data)) <=? MAX_OBJECT_LEN) && (blen (to_vec (mkXattrs (recorded_xattrs i))) <=? MAX_OBJECT_LEN)
  | Folder => blen (to_vec (mkXattrs (recorded_xattrs i))) <=? MAX_OBJECT_LEN
  | _ => true
  end.

(** ** What a walk looks at *)

Definition passed_over (pol : CapturePolicy) (p : Place) : bool := is_own store_root p || excludes pol (raw p).
Definition gone (d : Disk) (p : Place) : bool := match symlink_metadata p d with Err e => is_not_found e | Ok _ => false end.
Definition listed (pol : CapturePolicy) (d : Disk) (p : Place) : list bytes :=
  match tracked_children pol (raw p) with
  | Some names => base.filter (λ nm, passed_over pol (p ++ [nm]) = false ∧ gone d (p ++ [nm]) = false) names
  | None => base.filter (λ nm, passed_over pol (p ++ [nm]) = false) (names_in p d)
  end.

Definition entries_in (pol : CapturePolicy) (d : Disk) (f : View) (p : Place) : list TreeEntry := omap (λ nm, f (p ++ [nm])) (listed pol d p).
(** A directory of the view, the root counted. *)
Definition dir_of (f : View) (p : Place) : Prop := p = [] ∨ ∃ e, f p = Some e ∧ kind e = Directory.

(** [f] with root tree [root] is what a capture of [d] records: each entry is
    that of the inode there, each directory holds what is listed in it. *)
Record captured (depth : nat) (pol : CapturePolicy) (d : Disk) (f : View) (root : ObjectId) : Prop := {
  cp_nil : f [] = None;
  cp_root : ∃ i, nodes d !! [] = Some i ∧ body i = Folder;
  cp_tree : writes (St := St) rounds (entries_in pol d f []) root;
  cp_some p e : f p = Some e → p ≠ [] ∧ ∃ i, reach d p ∧ nodes d !! p = Some i ∧ storable i = true
    ∧ if is_folder i then ∃ t, entry_of p i (Some t) = Some e ∧ writes (St := St) rounds (entries_in pol d f p) t
      else entry_of p i None = Some e;
  cp_parent p nm : is_Some (f (p ++ [nm])) → dir_of f p ∧ nm ∈ listed pol d p;
  cp_listed p nm : dir_of f p → nm ∈ listed pol d p → f (p ++ [nm]) = None →
    ∃ i, reach d (p ++ [nm]) ∧ nodes d !! (p ++ [nm]) = Some i ∧ body i = Device;
  cp_nested p : dir_of f p → (length p < depth)%nat;
}.

(** ** Computing it *)

Fixpoint res_omap {A B} (f : A → Res (option B)) (l : list A) : Res (list B) :=
  match l with
  | [] => Ok []
  | x :: l => o ← f x; ys ← res_omap f l; Ok (match o with Some y => y :: ys | None => ys end)
  end.
Definition write_id (s : St) (es : list TreeEntry) : Res ObjectId :=
  o ← (write rounds es s).1; with_context (o : option ObjectId) "fuel".
Definition entry_at (walk : Place → Res ObjectId) (d : Disk) (p : Place) : Res (option TreeEntry) :=
  i ← symlink_metadata p d;
  _ ← ensure (storable i) "object exceeds size limit";
  t ← (if is_folder i then t ← walk p; Ok (Some t) else Ok None);
  Ok (entry_of p i t).
Fixpoint tree_of (depth : nat) (s : St) (pol : CapturePolicy) (d : Disk) (p : Place) : Res ObjectId :=
  match depth with
  | O => Err "fuel"
  | S depth =>
    i ← symlink_metadata p d;
    _ ← ensure (is_folder i) ENOTDIR;
    es ← res_omap (λ nm, entry_at (tree_of depth s pol d) d (p ++ [nm])) (listed pol d p);
    write_id s es
  end.
Fixpoint seen_from (pol : CapturePolicy) (d : Disk) (pre rest : Place) : bool :=
  match rest with
  | [] => true
  | nm :: rest =>
    match nodes d !! pre with Some i => is_folder i | None => false end
    && bool_decide (nm ∈ listed pol d pre) && seen_from pol d (pre ++ [nm]) rest
  end.
Definition view_of (depth : nat) (s : St) (pol : CapturePolicy) (d : Disk) : View := λ q,
  if negb (bool_decide (q = [])) && seen_from pol d [] q then
    match entry_at (tree_of depth s pol d) d q with Ok o => o | Err _ => None end
  else None.

Lemma res_omap_ok {A B} (f : A → Res (option B)) l ys :
  res_omap f l = Ok ys → ∀ x, x ∈ l → ∃ o, f x = Ok o.
Proof.
  revert ys. induction l as [|a l IH]; intros ys Hrun x; [by intros ?%not_elem_of_nil |]. cbn [res_omap] in Hrun. res_inv.
  intros [->|Hx]%elem_of_cons; eauto.
Qed.
Lemma res_omap_omap {A B} (f : A → Res (option B)) (g : A → option B) l ys :
  res_omap f l = Ok ys → (∀ x o, x ∈ l → f x = Ok o → g x = o) → ys = omap g l.
Proof.
  revert ys. induction l as [|a l IH]; intros ys Hrun Hg; cbn [res_omap omap list_omap] in *; [by injection Hrun |]. res_inv.
  rewrite (Hg a _ ltac:(left) ltac:(done)). erewrite <- IH; [done | done |]. intros y o Hy. apply Hg. by right.
Qed.
Lemma res_omap_mono {A B} (f f' : A → Res (option B)) l ys :
  (∀ x o, f x = Ok o → f' x = Ok o) → res_omap f l = Ok ys → res_omap f' l = Ok ys.
Proof.
  intros Hf. revert ys. induction l as [|a l IH]; intros ys Hrun; cbn [res_omap] in *; [done |]. res_inv.
  erewrite Hf by done. cbn. erewrite IH by done. done.
Qed.

Lemma entry_at_mono walk walk' d p o :
  (∀ q t, walk q = Ok t → walk' q = Ok t) → entry_at walk d p = Ok o → entry_at walk' d p = Ok o.
Proof.
  intros Hw. unfold entry_at. destruct (symlink_metadata p d) as [i|]; [| done]. cbn [mbind Res_bind].
  destruct (storable i); [| done]. cbn [ensure mbind Res_bind]. destruct (is_folder i); [| done].
  destruct (walk p) as [t|] eqn:Et; [| done]. by rewrite (Hw p t Et).
Qed.

Lemma tree_of_mono n m s pol d p t : tree_of n s pol d p = Ok t → (n ≤ m)%nat → tree_of m s pol d p = Ok t.
Proof.
  revert m p t. induction n as [|n IH]; intros [|m] p t Hrun Hle; [done | done | lia |]. cbn [tree_of] in *.
  destruct (symlink_metadata p d) as [i|]; [| done]. cbn [mbind Res_bind] in *.
  destruct (is_folder i); [| done]. cbn [ensure mbind Res_bind] in *.
  destruct (res_omap _ _) as [es|] eqn:E; [| done]. erewrite res_omap_mono; [exact Hrun | | exact E].
  intros nm o. apply entry_at_mono. intros q t' Hq. apply IH; [done | lia].
Qed.

(** Where the walk of a tree comes by. *)
Lemma tree_of_at n s pol d : ∀ rest p t,
  tree_of n s pol d p = Ok t → seen_from pol d p rest = true →
  ∀ i, nodes d !! (p ++ rest) = Some i → is_folder i = true → ∃ m t', n = (m + length rest)%nat ∧ tree_of m s pol d (p ++ rest) = Ok t'.
Proof.
  intros rest. revert n. induction rest as [|nm rest IH]; intros n p t Hrun Hseen i Hi Hf.
  { rewrite app_nil_r in *. exists n, t. cbn. split; [lia | done]. }
  cbn [seen_from] in Hseen. apply andb_true_iff in Hseen as [[Hfp Hnm%bool_decide_eq_true]%andb_true_iff Hseen].
  destruct n as [|n]; [done |]. cbn [tree_of] in Hrun. res_inv.
  match goal with Hes : res_omap _ _ = Ok _ |- _ => destruct (res_omap_ok _ _ _ Hes nm Hnm) as (o & Ho) end.
  assert (nodes d !! (p ++ [nm] ++ rest) = Some i) as Hi' by by rewrite app_assoc, <- app_assoc.
  rewrite app_assoc in Hi'.
  assert (∃ t', tree_of n s pol d (p ++ [nm]) = Ok t') as (t' & Ht').
  { unfold entry_at in Ho. destruct (symlink_metadata (p ++ [nm]) d) as [j|] eqn:Ej; [| done]. cbn [mbind Res_bind] in Ho.
    destruct (storable j); [| done]. cbn [ensure mbind Res_bind] in Ho. destruct (is_folder j) eqn:Efj.
    - destruct (tree_of n s pol d (p ++ [nm])); [eauto | done].
    - apply metadata_node in Ej. destruct rest as [|nm' rest].
      + rewrite app_nil_r in Hi'. congruence.
      + cbn [seen_from] in Hseen. rewrite Ej, Efj in Hseen. done. }
  destruct (IH n (p ++ [nm]) t' Ht' Hseen i Hi' Hf) as (m & t'' & -> & Hm). exists m, t''. rewrite <- app_assoc in Hm. cbn. split; [lia | done].
Qed.
Lemma seen_from_app pol d pre rest rest' :
  seen_from pol d pre (rest ++ rest') = seen_from pol d pre rest && seen_from pol d (pre ++ rest) rest'.
Proof.
  revert pre. induction rest as [|nm rest IH]; intros pre; cbn [app seen_from]; [by rewrite app_nil_r |].
  rewrite IH, <- app_assoc. by rewrite !andb_assoc.
Qed.
(** ** What is computed is captured *)

Lemma entry_of_kind p i t e : entry_of p i t = Some e → kind e = Directory ↔ body i = Folder.
Proof. unfold entry_of. destruct (metadata_time i), (body i); naive_solver. Qed.
Lemma metadata_ok p d i : symlink_metadata p d = Ok i → reach d p ∧ nodes d !! p = Some i.
Proof.
  intros Hm. split; [| by apply metadata_node]. unfold symlink_metadata in Hm. res_inv. by eapply reach_search.
Qed.

Section Computed.
Hypothesis empty_fits : blen (to_vec (mkTree [] [])) ≤ MAX_OBJECT_LEN.
Variables (depth : nat) (s : St) (pol : CapturePolicy) (d : Disk) (root : ObjectId).
Hypothesis computed : tree_of depth s pol d [] = Ok root.
#[local] Abbreviation V := (view_of depth s pol d).
Definition walked (p : Place) : Prop := seen_from pol d [] p = true ∧ ∃ i, nodes d !! p = Some i ∧ is_folder i = true.

Lemma walked_run p : walked p → ∃ m t, depth = (S m + length p)%nat ∧ tree_of (S m) s pol d p = Ok t.
Proof.
  intros (Hs & i & Hi & Hf). destruct (tree_of_at depth s pol d p [] root computed Hs i Hi Hf) as (m & t & -> & Hm).
  destruct m as [|m]; [done |]. by exists m, t.
Qed.
Lemma view_child p nm m o :
  walked p → nm ∈ listed pol d p → depth = (S m + length p)%nat → entry_at (tree_of m s pol d) d (p ++ [nm]) = Ok o →
  V (p ++ [nm]) = o.
Proof.
  intros (Hs & i & Hi & Hf) Hnm Hd Ho. unfold view_of. rewrite bool_decide_eq_false_2 by (by destruct p). cbn [negb andb].
  rewrite seen_from_app, Hs. cbn [andb app seen_from]. rewrite Hi, Hf, bool_decide_eq_true_2 by done. cbn [andb].
  erewrite entry_at_mono; [done | | exact Ho]. intros q t Hq. eapply tree_of_mono; [done | lia].
Qed.
Lemma walked_child p : walked p → ∀ nm, nm ∈ listed pol d p → ∃ m o,
  depth = (S m + length p)%nat ∧ entry_at (tree_of m s pol d) d (p ++ [nm]) = Ok o ∧ V (p ++ [nm]) = o.
Proof.
  intros Hw nm Hnm. destruct (walked_run p Hw) as (m & t & Hd & Hrun). cbn [tree_of] in Hrun. res_inv.
  match goal with Hes : res_omap _ _ = Ok _ |- _ => destruct (res_omap_ok _ _ _ Hes nm Hnm) as (o & Ho) end.
  exists m, o. split_and!; [done.. |]. by eapply view_child.
Qed.
Lemma view_walked q e : V q = Some e →
  q ≠ [] ∧ seen_from pol d [] q = true ∧ ∃ i t, symlink_metadata q d = Ok i ∧ storable i = true
    ∧ (if is_folder i then ∃ u, tree_of depth s pol d q = Ok u ∧ t = Some u else t = None) ∧ entry_of q i t = Some e.
Proof.
  unfold view_of. intros He. destruct (bool_decide_reflect (q = [])) as [|Hne]; [done |]. cbn [negb andb] in He.
  destruct (seen_from pol d [] q); [| done]. split_and!; [done.. |]. unfold entry_at in He.
  destruct (symlink_metadata q d) as [i|]; [| done]. cbn [mbind Res_bind] in He.
  destruct (storable i) eqn:Es; [| done]. cbn [ensure mbind Res_bind] in He. exists i. destruct (is_folder i).
  - destruct (tree_of depth s pol d q) as [u|]; [| done]. exists (Some u). split_and!; eauto.
  - by exists None.
Qed.
Lemma dir_walked p : dir_of V p ↔ walked p.
Proof.
  split.
  - intros [->|(e & He & Hk)].
    + split; [done |]. destruct depth as [|n]; [done |]. cbn [tree_of] in computed. res_inv.
      match goal with Hm : symlink_metadata [] d = Ok ?i |- _ => apply metadata_node in Hm; by exists i end.
    + destruct (view_walked p e He) as (_ & Hs & i & t & Hm & _ & _ & Ho). split; [done |]. exists i.
      split; [by apply metadata_node |]. apply (entry_of_kind _ _ _ _ Ho) in Hk. unfold is_folder. by rewrite Hk.
  - intros Hw. destruct (decide (p = [])) as [->|Hne]; [by left |]. right. destruct Hw as (Hs & i & Hi & Hf).
    destruct (exists_last Hne) as (q & nm & ->). assert (walked q ∧ nm ∈ listed pol d q) as [Hq Hnm].
    { rewrite seen_from_app in Hs. apply andb_true_iff in Hs as [Hs Hc]. cbn [seen_from app] in Hc.
      apply andb_true_iff in Hc as [[Hq Hnm%bool_decide_eq_true]%andb_true_iff _]. split; [| done]. split; [done |].
      destruct (nodes d !! q) as [j|]; [by exists j | done]. }
    destruct (walked_child q Hq nm Hnm) as (m & o & _ & Ho & ->). unfold entry_at in Ho.
    destruct (symlink_metadata (q ++ [nm]) d) as [j|] eqn:Ej; [| done]. apply metadata_node in Ej. rewrite Hi in Ej. injection Ej as <-.
    cbn [mbind Res_bind] in Ho. destruct (storable i); [| done]. cbn [ensure mbind Res_bind] in Ho. rewrite Hf in Ho. res_inv.
    unfold entry_of, is_folder in *. destruct (metadata_time i), (body i); try done. by eexists.
Qed.
Lemma walked_writes p t m : depth = (S m + length p)%nat → walked p → tree_of (S m) s pol d p = Ok t →
  writes (St := St) rounds (entries_in pol d V p) t.
Proof.
  intros Hd Hw Hrun. cbn [tree_of] in Hrun. res_inv.
  match goal with Hes : res_omap _ _ = Ok ?es |- _ => rename Hes into Hes'; rename es into es' end.
  assert (es' = entries_in pol d V p) as ->.
  { eapply res_omap_omap; [exact Hes' |]. intros nm o Hnm Ho. by apply (view_child p nm m). }
  unfold write_id in Hrun. destruct (write rounds _ s) as [[o|] s'] eqn:Ew; [| done]. cbn in Hrun. apply with_context_ok in Hrun as ->.
  by eapply writes_of_run.
Qed.

Lemma captured_of : captured depth pol d V root.
Proof.
  pose proof (proj1 (dir_walked []) ltac:(by left)) as Hroot. constructor.
  - done.
  - destruct Hroot as (_ & i & Hi & Hf). exists i. split; [done |]. unfold is_folder in Hf. by destruct (body i).
  - destruct (walked_run [] Hroot) as (m & t & Hd & Hrun). assert (t = root) as ->.
    { pose proof (tree_of_mono (S m) depth s pol d [] t Hrun ltac:(lia)) as E. rewrite computed in E. congruence. }
    by eapply walked_writes.
  - intros p e He. destruct (view_walked p e He) as (Hne & Hs & i & t & Hm & Hst & Ht & Ho). split; [done |]. exists i.
    destruct (metadata_ok p d i Hm) as [Hr Hi]. split_and!; [done.. |]. destruct (is_folder i) eqn:Hf; [| by rewrite Ht in Ho].
    destruct Ht as (u & Hu & ->). exists u. split; [done |]. assert (walked p) as Hw by (split; [done | by exists i]).
    destruct (walked_run p Hw) as (m & t & Hd & Hrun). assert (t = u) as ->.
    { pose proof (tree_of_mono (S m) depth s pol d p t Hrun ltac:(lia)). congruence. }
    by eapply walked_writes.
  - intros p nm [e He]. destruct (view_walked _ e He) as (_ & Hs & _). rewrite seen_from_app in Hs.
    apply andb_true_iff in Hs as [Hs Hc]. cbn [seen_from app] in Hc.
    apply andb_true_iff in Hc as [[Hq Hnm%bool_decide_eq_true]%andb_true_iff _]. split; [| done]. apply dir_walked. split; [done |].
    destruct (nodes d !! p) as [j|]; [by exists j | done].
  - intros p nm Hw%dir_walked Hnm Hn. destruct (walked_child p Hw nm Hnm) as (m & o & _ & Ho & E). rewrite Hn in E. subst o.
    unfold entry_at in Ho. destruct (symlink_metadata (p ++ [nm]) d) as [i|] eqn:Em; [| done]. destruct (metadata_ok _ _ _ Em) as [Hr Hi].
    exists i. split_and!; [done.. |]. cbn [mbind Res_bind] in Ho. destruct (storable i); [| done]. cbn [ensure mbind Res_bind] in Ho.
    destruct (if is_folder i then _ else _); [| done]. injection Ho as Ho. unfold entry_of in Ho. destruct (metadata_time i), (body i); done.
  - intros p Hw%dir_walked. destruct (walked_run p Hw) as (m & t & -> & _). lia.
Qed.
End Computed.
End Spec.
