(* ===== verification/CaptureTheory.v ===== *)
(** * CaptureTheory: a capture computes the view of the disk

    The walk, with its index, its cache and its pages written as it goes, ends
    with the tree of the reference, and leaves in the store what the tree names. *)

From S2P Require Import Prelude Model Tree TreeTheory Bundle Chunker ChunkerTheory Paths Disk Files Policy DiskTheory PlanTheory RewindTheory Capture CaptureSpec.
From S2P Require PathIndex Catalog CatalogTheory.
#[local] Open Scope Z_scope.
#[local] Existing Instance Catalog.CachedFile_eq_dec.

(** ** One file *)

Section Files.
Context `{Platform} {St L : Type} {OS : ObjectStore St} {OSok : ObjectStoreOk St} `{Blake3} {CS : ContentStoreOk St}.
Context {JB : Json Blob} {JBok : JsonOk Blob} {JX : Json Xattrs} {JXok : JsonOk Xattrs}.

Lemma put_ok k b (s : St) : blen b ≤ MAX_OBJECT_LEN →
  ∃ s', put_object k b s = (Ok (object_id k b), s') ∧ extends s s' ∧ read_object k (object_id k b) s' = Ok b.
Proof.
  intros Hl. destruct (put_stores k b s Hl) as (s' & Hput & _). exists s'. split_and!; [done | by eapply put_extends | by eapply put_reads].
Qed.

(** The bytes of [data] are in the store, chunk by chunk. *)
Definition has_chunks (s : St) (data : bytes) : Prop := ∀ c, c ∈ chunks_of data → read_object Chunk (object_id Chunk c) s = Ok c.

Lemma store_loop_run n : ∀ stream chunked (s : St),
  stream_ok stream → (length (pending stream) < n)%nat → as_u64 (ck_total_len chunked) = ck_total_len chunked →
  ∃ sq s', store_loop n stream chunked s
    = (Ok (mkChunked (ck_chunks chunked ++ chunk_refs (pending stream)) (as_u64 (ck_total_len chunked + blen (pending stream))) sq), s')
    ∧ extends s s' ∧ has_chunks s' (pending stream).
Proof.
  induction n as [|n IH]; intros stream chunked s Hok Hn Htot; [lia |]. cbn [store_loop].
  destruct (next_chunk_run stream Hok) as (stream' & -> & Hok' & Hp).
  destruct (first_chunk (pending stream)) as [c|] eqn:E; cbn iota beta in *.
  - destruct (first_chunk_Some _ _ E) as (Heq & Hc & Hmax & _). pose proof (chunks_of_cons _ _ E) as Ecs.
    assert (blen c ≤ MAX_OBJECT_LEN) as Hl by (trans MAX_CHUNK; [done | by vm_compute]).
    destruct (put_ok Chunk c s Hl) as (s1 & Hput & He1 & Hr1). rewrite (M_bind_run _ _ _ _ _ Hput).
    assert (length (pending stream) = length c + length (pending stream'))%nat as Hlen by (rewrite Heq at 1; rewrite length_app, Hp; done).
    set (chunked' := mkChunked _ _ _). destruct (IH stream' chunked' s1 Hok') as (sq & s' & Hrun & He & Hh).
    { destruct c; [done |]. cbn [length] in Hlen. lia. }
    { cbn [ck_total_len chunked']. unfold as_u64. apply Zmod_mod. }
    exists sq, s'. rewrite Hrun. split_and!.
    + subst chunked'. cbn [ck_chunks ck_total_len]. rewrite <- app_assoc.
      assert (chunk_refs (pending stream) = [mkChunkRef (object_id Chunk c) (as_u32 (blen c))] ++ chunk_refs (pending stream')) as ->.
      { unfold chunk_refs. rewrite Ecs, <- Hp. cbn [map app]. do 2 f_equal. unfold as_u32. rewrite Z.mod_small; [done |].
        pose proof (blen_nonneg c). assert (MAX_CHUNK < 2 ^ 32) by by vm_compute. lia. }
      do 3 f_equal. assert (blen (pending stream) = blen c + blen (pending stream')) as -> by (unfold blen; lia).
      unfold as_u64. rewrite Zplus_mod_idemp_l. f_equal. lia.
    + by eapply extends_trans.
    + intros c' Hc'. rewrite Ecs, <- Hp in Hc'. apply elem_of_cons in Hc' as [->|Hc']; [by apply He | by apply Hh].
  - apply first_chunk_None in E as Hnil. exists (ck_sqlite chunked), s. rewrite Hnil. unfold chunk_refs.
    change (chunks_of []) with (@nil bytes). cbn [map]. rewrite app_nil_r, Z.add_0_r. split_and!; [| by intros ??? | by intros ??%not_elem_of_nil].
    rewrite Htot. by destruct chunked.
Qed.

Lemma pending_new rs : pending (new rs) = read_bytes rs.
Proof. done. Qed.
Lemma new_ok rs : Forall gives_bytes rs → stream_ok (new rs).
Proof. intros Hrs. split; [done |]. cbn. split; [done |]. apply blen_nonneg. Qed.
Lemma reads_length rs : Forall gives_bytes rs →
  sum_list_with (λ r : Res bytes, match r with Ok b => length b | Err _ => 0%nat end) rs = length (read_bytes rs).
Proof. induction 1 as [|r rs (b & -> & _) _ IH]; [done |]. cbn. rewrite length_app. by f_equal. Qed.
Lemma store_chunks_ok rs data (s : St) : Forall gives_bytes rs → read_bytes rs = data →
  ∃ sq s', store_chunks rs s = (Ok (mkChunked (chunk_refs data) (as_u64 (blen data)) sq), s') ∧ extends s s' ∧ has_chunks s' data.
Proof.
  intros Hrs <-. unfold store_chunks. rewrite reads_length by done.
  destruct (store_loop_run (S (length (read_bytes rs))) (new rs) (mkChunked [] 0 false) s (new_ok rs Hrs)) as (sq & s' & Hrun & He & Hh);
    [rewrite pending_new; lia | done |]. exists sq, s'. rewrite pending_new in *. rewrite Hrun. split_and!; done.
Qed.

(** What the store holds of an inode that was captured. *)
Definition has_xattrs (s : St) (i : Inode) : Prop :=
  ∀ id, xattrs_id i = Some id → read_object XattrsKind id s = Ok (to_vec (mkXattrs (recorded_xattrs i))).
Definition recorded (s : St) (i : Inode) : Prop :=
  match body i with
  | Regular data => read_object BlobKind (blob_id_of data) s = Ok (to_vec (blob_of data)) ∧ has_chunks s data ∧ has_xattrs s i
  | Folder => has_xattrs s i
  | _ => True
  end.
Lemma has_xattrs_extends s s' i : extends s s' → has_xattrs s i → has_xattrs s' i.
Proof. intros He Hx id E. by apply He, Hx. Qed.
Lemma recorded_extends s s' i : extends s s' → recorded s i → recorded s' i.
Proof.
  intros He. unfold recorded. case_match; try done; [| by apply has_xattrs_extends].
  intros (Hb & Hc & Hx). split_and!; [by apply He | intros c Hcs; by apply He, Hc | by eapply has_xattrs_extends].
Qed.

Lemma capture_xattrs_ok i (s : St) : blen (to_vec (mkXattrs (recorded_xattrs i))) ≤ MAX_OBJECT_LEN →
  ∃ s', capture_xattrs i s = (Ok (xattrs_id i), s') ∧ extends s s' ∧ has_xattrs s' i.
Proof.
  intros Hl. unfold capture_xattrs, xattrs_id, has_xattrs. fold (recorded_xattrs i). unfold xattrs_id.
  destruct (bool_decide_reflect (recorded_xattrs i = [])).
  - exists s. split_and!; [done | by intros ??? | done].
  - destruct (put_ok XattrsKind (to_vec (mkXattrs (recorded_xattrs i))) s Hl) as (s' & Hput & He & Hr).
    exists s'. rewrite (M_bind_run _ _ _ _ _ Hput). split_and!; [done.. |]. by intros id [= <-].
Qed.

(** ** Reading it *)

Variable reading : Place → Disk → list (Res bytes) * Disk.
Variable wall : nat → Z.
(** The disk holds still while a file is read. *)
Definition still : Prop := ∀ p d i data, nodes d !! p = Some i → body i = Regular data →
  ∃ rs, reading p d = (rs, d) ∧ Forall gives_bytes rs ∧ read_bytes rs = data.

Lemma stable_same i data : body i = Regular data → stable_metadata i i = true.
Proof. intros Hb. unfold stable_metadata. rewrite Hb, !Z.eqb_refl, !bool_decide_eq_true_2 by done. done. Qed.

Lemma read_file_ok p d i data s :
  still → reach d p → nodes d !! p = Some i → body i = Regular data → storable i = true →
  ∃ sq s', read_file reading wall p (mkWork s d)
      = (Ok (mkFileRead (blob_id_of data) (xattrs_id i) sq i (wall (ticks d))), mkWork s' d)
    ∧ extends s s' ∧ recorded s' i.
Proof.
  intros Hstill Hr Hi Hb Hst. unfold storable in Hst. rewrite Hb in Hst. apply andb_true_iff in Hst as [Hs1%Z.leb_le Hs2%Z.leb_le].
  destruct (Hstill p d i data Hi Hb) as (rs & Hrd & Hrs & Hdata).
  destruct (capture_xattrs_ok i s Hs2) as (s1 & Hx & He1 & Hhx).
  destruct (store_chunks_ok rs data s1 Hrs Hdata) as (sq & s2 & Hc & He2 & Hh).
  destruct (put_ok BlobKind (to_vec (blob_of data)) s2 Hs1) as (s3 & Hput & He3 & Hrb).
  exists sq, s3. unfold read_file. cbn [read_retry]. unfold read_attempt. rewrite !M_bind_assoc, get_bind. cbn [disk].
  rewrite (metadata_reach d p i Hr Hi). rewrite !M_bind_assoc, lift_ok_bind. rewrite !M_bind_assoc.
  assert (read_file_at p d = Ok data) as -> by (unfold read_file_at; rewrite (metadata_reach d p i Hr Hi); cbn; by rewrite Hb).
  rewrite lift_ok_bind, !M_bind_assoc.
  rewrite (M_bind_run _ _ _ (xattrs_id i) (mkWork s1 d)) by (unfold on_objects; cbn [store disk]; by rewrite Hx).
  rewrite !M_bind_assoc, (M_bind_run _ _ _ rs (mkWork s1 d)) by (unfold on_disk; cbn [store disk]; by rewrite Hrd).
  rewrite !M_bind_assoc, (M_bind_run _ _ _ (mkChunked (chunk_refs data) (as_u64 (blen data)) sq) (mkWork s2 d)) by (unfold on_objects; cbn [store disk]; by rewrite Hc).
  rewrite !M_bind_assoc, get_bind. cbn [disk]. rewrite (metadata_reach d p i Hr Hi), !M_bind_assoc, lift_ok_bind.
  rewrite (stable_same i data Hb). rewrite !M_bind_assoc. cbn [ck_chunks ck_total_len ck_sqlite].
  rewrite (M_bind_run _ _ _ (blob_id_of data) (mkWork s3 d)) by (unfold on_objects; cbn [store disk]; unfold blob_of in Hput; by rewrite Hput).
  split_and!; [done | |].
  - eapply extends_trans; [exact He1 |]. by eapply extends_trans.
  - unfold recorded. rewrite Hb. split_and!; [done | intros c Hcs; by apply He3, Hh |].
    eapply has_xattrs_extends; [| exact Hhx]. by eapply extends_trans.
Qed.

(** ** The capture cache *)

Variable device : Z.
Variable workspace_id : bytes.

(** A row says what reading the file would. *)
Definition row_right (s : St) (i : Inode) (data : bytes) (row : Catalog.CachedFile) : Prop :=
  Catalog.blob_id row = blob_id_of data ∧ Catalog.xattrs row = xattrs_id i ∧ recorded s i.
(** Every row that is not racy was read before now, and a file of [d] it would be
    taken for is the one it was read from. *)
Definition row_sound (s : St) (d : Disk) (row : Catalog.CachedFile) : Prop :=
  (∃ n, (n ≤ ticks d)%nat ∧ Catalog.cached_at_nanos row = wall n) ∧
  ∀ p i data, nodes d !! p = Some i → body i = Regular data → cached_matches device row i = true → row_right s i data row.
Definition cache_right (s : St) (d : Disk) (c : Catalog.Catalog) : Prop :=
  CatalogTheory.conn_ok c ∧
  ∀ key row, Catalog.stat_cache (Catalog.tables c) !! (workspace_id, key) = Some row → Catalog.is_racy row = false → row_sound s d row.

Lemma cache_right_extends s s' d c : extends s s' → cache_right s d c → cache_right s' d c.
Proof.
  intros He [Hok Hr]. split; [done |]. intros key row H1 H2. destruct (Hr key row H1 H2) as [Hn Hs]. split; [done |].
  intros p i data H3 H4 H5. destruct (Hs p i data H3 H4 H5) as (? & ? & ?). split_and!; [done.. |]. by eapply recorded_extends.
Qed.

Lemma cached_file_tables ws path c : CatalogTheory.conn_ok c →
  Catalog.tables (Catalog.cached_file ws path c).2 = Catalog.tables c.
Proof.
  intros Hok. unfold Catalog.cached_file. mpure. destruct (Catalog.retain_files c) eqn:Er; cbn [negb]; [| done].
  destruct (Catalog.is_idle c) eqn:Ei.
  - unfold Catalog.refresh_file_cache. mpure. rewrite Er. cbn [negb]. set (c1 := Catalog.mkCatalog _ _ _ _ _ _).
    assert (Catalog.tables c1 = Catalog.tables c) as E by done. unfold gets, modify. cbn [snd]. destruct (Catalog.files c1 !! ws); done.
  - mpure. unfold gets, modify. cbn [snd]. destruct (Catalog.files c !! ws); done.
Qed.
Lemma unchanged_row_ok s d c p i data :
  cache_right s d c → nodes d !! p = Some i → body i = Regular data →
  ∃ o c', unchanged_row device workspace_id (raw p) i c = (Ok o, c') ∧ cache_right s d c'
    ∧ Catalog.tables c' = Catalog.tables c
    ∧ ∀ row, o = Some row → row_right s i data row ∧ cached_matches device row i = true.
Proof.
  intros [Hok Hr] Hi Hb. unfold unchanged_row. destruct (CatalogTheory.cached_file_ok workspace_id (raw p) c Hok) as [Hok' Ho].
  pose proof (cached_file_tables workspace_id (raw p) c Hok) as Et.
  destruct (Catalog.cached_file workspace_id (raw p) c) as [r c'] eqn:Ec. cbn [fst snd] in *. subst r.
  rewrite (M_bind_run _ _ _ _ _ Ec). eexists _, c'. split; [done |]. split_and!; [| done |].
  - split; [done |]. by rewrite Et.
  - intros row. destruct (Catalog.stat_cache (Catalog.tables c) !! (workspace_id, raw p)) as [row'|] eqn:Er; [| done]. cbn.
    destruct (cached_matches device row' i) eqn:Em; [| done]. destruct (Catalog.is_racy row') eqn:Eq; [done |].
    cbn. intros [= <-]. split; [| done]. by apply (Hr (raw p) row' Er Eq) with p.
Qed.

Lemma cache_file_tables ws path row c : CatalogTheory.conn_ok c →
  ∃ c', Catalog.cache_file ws path row c = (Ok (), c')
    ∧ (Catalog.tables c' = Catalog.tables c
       ∨ Catalog.tables c' = Catalog.set_stat_cache (<[(ws, path) := row]>) (Catalog.tables c)).
Proof.
  intros Hok. assert (∀ c1, Catalog.tables c1 = Catalog.tables c → ∃ c',
      (c2 ← get; if decide ((rows ← Catalog.files c2 !! ws; rows !! path) = Some row) then mret ()
       else _ ← Catalog.update (Catalog.set_stat_cache (<[(ws, path) := row]>));
            modify (Catalog.with_files (alter (<[path := row]>) ws))) c1 = (Ok (), c')
      ∧ (Catalog.tables c' = Catalog.tables c
         ∨ Catalog.tables c' = Catalog.set_stat_cache (<[(ws, path) := row]>) (Catalog.tables c))) as Hw.
  { intros c1 E. rewrite get_bind. destruct (decide _); [exists c1; split; [done | by left] |].
    eexists. split; [done |]. right. cbn. by rewrite E. }
  unfold Catalog.cache_file. rewrite get_bind. destruct (Catalog.is_idle c); [| by apply Hw].
  unfold Catalog.refresh_file_cache. rewrite modify_bind. apply Hw. by destruct (Catalog.retain_files c).
Qed.

Lemma cached_matches_len row i data : cached_matches device row i = true → body i = Regular data →
  Catalog.size row = blen data ∧ Catalog.mode row = st_mode i ∧ Catalog.mtime_secs row = (mtime i).1 ∧ Catalog.mtime_nanos row = (mtime i).2.
Proof.
  unfold cached_matches, stat_len. intros Hm Hb. rewrite Hb in Hm. rewrite !andb_true_iff, !Z.eqb_eq in Hm. tauto.
Qed.
Lemma file_entry_right s p i data row nm : row_right s i data row → cached_matches device row i = true → body i = Regular data →
  last_name p = nm → entry_of p i None = Some (file_entry nm (classify (raw p)) row).
Proof.
  intros (Hb & Hx & _) Hm Hbody <-. destruct (cached_matches_len row i data Hm Hbody) as (E1 & E2 & E3 & E4).
  unfold entry_of, file_entry, metadata_time. rewrite Hbody, Hb, Hx, E1, E2, E3, E4. done.
Qed.

(** One inode at each of its names. *)
Definition one_inode (d : Disk) : Prop := ∀ p q i j, nodes d !! p = Some i → nodes d !! q = Some j → ino i = ino j → i = j.

(** A new row of the file itself is right, and stays right beside the others. *)
Lemma cache_right_insert s d c c' p i data row :
  cache_right s d c → CatalogTheory.conn_ok c' → one_inode d →
  nodes d !! p = Some i → body i = Regular data → row_right s i data row →
  Catalog.inode row = ino i → Catalog.cached_at_nanos row = wall (ticks d) →
  (Catalog.tables c' = Catalog.tables c ∨ Catalog.tables c' = Catalog.set_stat_cache (<[(workspace_id, raw p) := row]>) (Catalog.tables c)) →
  cache_right s d c'.
Proof.
  intros [_ Hr] Hok Hone Hi Hb Hrow Hino Hat Ht. split; [done |]. intros key row' Hl Hra.
  destruct Ht as [Ht|Ht]; rewrite Ht in Hl; [by apply (Hr key row') |]. cbn in Hl.
  apply lookup_insert_Some in Hl as [[_ <-]|[_ Hl]]; [| by apply (Hr key row')]. split; [by exists (ticks d) |].
  intros q j data' Hj Hbj Hm. assert (j = i) as ->.
  { apply (Hone q p); [done.. |]. unfold cached_matches in Hm. rewrite !andb_true_iff, !Z.eqb_eq in Hm. rewrite <- Hino. symmetry. apply Hm. }
  rewrite Hb in Hbj. by injection Hbj as <-.
Qed.

(** ** The cache as time goes by

    Between two moments the disk changes as a kernel lets it: what is there was
    there before, or was given the time of a tick in between as its [ctime]. *)
Definition honest (d d' : Disk) : Prop :=
  (ticks d ≤ ticks d')%nat ∧
  ∀ q j, nodes d' !! q = Some j →
    (∃ p, nodes d !! p = Some j) ∨ ∃ n, (ticks d ≤ n < ticks d')%nat ∧ ctime j = clock n.
(** The wall clock is a 64-bit number of nanoseconds, and no time a later change
    is stamped with is further behind it than the racy window. *)
Definition wall_close : Prop :=
  (∀ n, wall n ≤ i64_max) ∧
  ∀ n m, (n ≤ m)%nat → 0 ≤ (clock m).2 ∧ wall n ≤ (clock m).1 * 1000000000 + (clock m).2 + Catalog.RACY_WINDOW_NANOS.

Lemma fresh_is_racy row n m :
  wall_close → (n ≤ m)%nat → Catalog.cached_at_nanos row = wall n →
  (Catalog.ctime_secs row, Catalog.ctime_nanos row) = clock m → Catalog.is_racy row = true.
Proof.
  intros [Hmax Hw] Hle Hat Hc. specialize (Hmax n). destruct (Hw n m Hle) as [Hns Hw']. rewrite <- Hc in Hns, Hw'. cbn in Hns, Hw'.
  unfold Catalog.is_racy, Catalog.ctime_nanos_total, i64_sat_add, Catalog.i64_sat_mul. rewrite Hat. apply Z.leb_le.
  unfold i64_min, i64_max in *. unfold Catalog.RACY_WINDOW_NANOS in *. lia.
Qed.
Lemma cache_right_honest s d d' c : wall_close → honest d d' → cache_right s d c → cache_right s d' c.
Proof.
  intros Hw [Hle Hd] [Hok Hr]. split; [done |]. intros key row Hl Hra. destruct (Hr key row Hl Hra) as [(n & Hn & Hat) Hs]. split.
  - exists n. split; [lia | done].
  - intros q j data Hj Hb Hm. destruct (Hd q j Hj) as [[p Hp]|(m & Hm' & Hc)]; [by apply (Hs p j data) |]. exfalso.
    rewrite (fresh_is_racy row n m) in Hra; [done | done | lia | done |]. rewrite <- Hc.
    unfold cached_matches in Hm. rewrite !andb_true_iff, !Z.eqb_eq in Hm. destruct (ctime j). cbn in Hm. by destruct Hm as [[[? ->] ->] _].
Qed.
End Files.
