(* ===== verification/CaptureWalk.v ===== *)
(** * CaptureWalk: what the walk of a capture leaves

    The walk answers the entries of the view, stores what they name, and sets the
    rows of the index at the places it comes by. *)

From S2P Require Import Prelude Model Tree TreeTheory Bundle Chunker ChunkerTheory Paths Disk Files Policy DiskTheory PlanTheory RewindTheory Capture PathIndexTheory CaptureSpec CaptureTheory.
From S2P Require PathIndex Catalog CatalogTheory.
#[local] Open Scope Z_scope.
#[local] Existing Instance PathIndex.Row_eq_dec.

(** ** The policy, its notes aside *)

Definition rules (p : CapturePolicy) := (excluded p, gitignore p, matcher p, virtual_subtree p).
Lemma rules_excludes p p' rel : rules p = rules p' → excludes p rel = excludes p' rel.
Proof. unfold rules, excludes, is_virtual. by intros [= -> _ -> ->]. Qed.
Lemma rules_tracked p p' rel : rules p = rules p' → tracked_children p rel = tracked_children p' rel.
Proof. unfold rules, tracked_children, is_virtual. by intros [= _ _ -> ->]. Qed.
Lemma excludes_bytes_run rel p : ∃ p', excludes_bytes rel p = (Ok (excludes p rel), p') ∧ rules p' = rules p.
Proof.
  unfold excludes_bytes, excludes. rewrite get_bind. destruct (existsb _ _); [by exists p |].
  destruct (is_virtual p rel); [by exists p |]. cbn [orb negb andb]. destruct (matcher p) as [m|]; [| by exists p].
  destruct (_ || _).
  - unfold note_omission. eexists. rewrite modify_bind. done.
  - by exists p.
Qed.

Lemma in_filter {A} (P : A → Prop) `{∀ x, Decision (P x)} x (l : list A) : x ∈ l → x ∈ base.filter P l ↔ P x.
Proof. intros Hx. rewrite list_elem_of_filter. tauto. Qed.

Definition below (p q : Place) : Prop := p `prefix_of` q ∧ q ≠ p.

Section Walk.
Context `{Platform} {St L : Type} {OS : ObjectStore St} {OSok : ObjectStoreOk St} `{Blake3} {CS : ContentStoreOk St}.
Context {JE : Json TreeEntry} {JP : Json TreePage} {JT : Json Tree} {JTok : JsonOk Tree}.
Context {JB : Json Blob} {JBok : JsonOk Blob} {JX : Json Xattrs} {JXok : JsonOk Xattrs}.
Variable wall : nat → Z.
Variable device : Z.
Variable workspace_id : bytes.
Variable store_root : option Place.
Variables rounds depth : nat.
Variable pol : CapturePolicy.
Variable d : Disk.
Variable f : View.
Variable root : ObjectId.

#[local] Abbreviation entries_in p := (entries_in store_root pol d f p).
#[local] Abbreviation listed p := (listed store_root pol d p).

(** ** The invariant of the walk *)

(** The rows of the places in [P] are set, the others are as they were. *)
Definition rows_set (P : Place → Prop) (r r' : gmap bytes PathIndex.Row) : Prop :=
  (∀ q e, P q → f q = Some e → r' !! raw q = Some (row_of q e))
  ∧ (∀ k, (∀ q e, P q → f q = Some e → raw q ≠ k) → r' !! k = r !! k).
(** What the tree names at a place is in the store. *)
Definition place_ok (s : St) (q : Place) : Prop :=
  ∃ i, nodes d !! q = Some i ∧ recorded s i
    ∧ (is_folder i = true → ∃ e t h, f q = Some e ∧ target e = Some t ∧ (h ≤ rounds)%nat ∧ node h s t (entries_in q)).
Record ready (s : Session St L) : Prop := {
  rd_disk : disk (work s) = d;
  rd_rules : rules (policy s) = rules pol;
  rd_cache : cache_right wall device workspace_id (store (work s)) d (catalog s);
  rd_index : is_Some (index s);
}.
Definition same_heads (c c' : Catalog.Catalog) : Prop := Catalog.workspaces (Catalog.tables c') = Catalog.workspaces (Catalog.tables c).
Record after (P : Place → Prop) (s s' : Session St L) : Prop := {
  af_ready : ready s';
  af_extends : extends (store (work s)) (store (work s'));
  af_paths_head : paths_head s' = paths_head s;
  af_heads : same_heads (catalog s) (catalog s');
  af_index : ∃ x x', index s = Some x ∧ index s' = Some x' ∧ PathIndex.saved x' = PathIndex.saved x
    ∧ PathIndex.state (PathIndex.tables x') = PathIndex.state (PathIndex.tables x)
    ∧ rows_set P (PathIndex.rows (PathIndex.tables x)) (PathIndex.rows (PathIndex.tables x'));
  af_places q e : P q → f q = Some e → place_ok (store (work s')) q;
}.

Hypothesis Hcap : captured (St := St) store_root rounds depth pol d f root.
Hypothesis Hnames : ∀ p i, nodes d !! p = Some i → valid_place p.

Lemma view_place q e : f q = Some e → q ≠ [] ∧ valid_place q ∧ name e = last_name q
  ∧ ∃ i, reach d q ∧ nodes d !! q = Some i ∧ storable i = true ∧ (kind e = Directory ↔ is_folder i = true).
Proof.
  intros He. destruct (cp_some _ _ _ _ _ _ _ Hcap q e He) as (Hne & i & Hr & Hi & Hs & Ho). split; [done |].
  split; [by eapply Hnames |].
  assert (∃ t, entry_of q i t = Some e) as (t & Ht) by (destruct (is_folder i); [destruct Ho as (t & ? & _); eauto | eauto]).
  split.
  - unfold entry_of in Ht. destruct (metadata_time i), (body i); by simplify_eq.
  - exists i. split_and!; [done.. |]. rewrite (entry_of_kind _ _ _ _ Ht). unfold is_folder. by destruct (body i).
Qed.

Lemma nothing_below q : (∀ e, f q = Some e → kind e ≠ Directory) → q ≠ [] → ∀ q' e', f q' = Some e' → ¬ below q q'.
Proof.
  intros Hq Hne q' e' He' [[u ->] Hneq]. assert (∃ nm, is_Some (f (q ++ [nm]))) as (nm & Hnm).
  { revert e' He' Hneq. induction u as [|nm u IH] using rev_ind; intros e' He' Hneq; [by rewrite app_nil_r in Hneq |].
    destruct (decide (u = [])) as [->|Hu]; [by exists nm |]. rewrite app_assoc in He'.
    destruct (cp_parent _ _ _ _ _ _ _ Hcap (q ++ u) nm) as [[E|(e1 & He1 & _)] _]; [by rewrite He' | by destruct q |].
    apply (IH e1 He1). intros E. rewrite <- (app_nil_r q) in E at 2. by apply app_inv_head in E. }
  destruct (cp_parent _ _ _ _ _ _ _ Hcap q nm Hnm) as [[->|(e & He & Hk)] _]; [done |]. by destruct (Hq e He).
Qed.
Lemma view_over q e a : f q = Some e → a `prefix_of` q → a ≠ [] → is_Some (f a) ∧ (a ≠ q → dir_of f a).
Proof.
  intros He [u ->] Hne. revert e He. induction u as [|nm u IH] using rev_ind; intros e He.
  { rewrite app_nil_r in *. split; [by eexists | done]. }
  rewrite app_assoc in He. destruct (cp_parent _ _ _ _ _ _ _ Hcap (a ++ u) nm) as [[E|(e1 & He1 & Hk)] _]; [by rewrite He | by destruct a |].
  destruct (IH e1 He1) as [Hs Hd]. split; [done |]. intros _. destruct (decide (u = [])) as [->|Hu].
  - rewrite app_nil_r in He1. right. eauto.
  - apply Hd. intros E. rewrite <- (app_nil_r a) in E at 1. apply app_inv_head in E. by subst u.
Qed.
Lemma builds_extends s s' b es : extends s s' → builds s b es → builds s' b es.
Proof. intros He (Hs & ess & Hl & Hc). split; [done |]. exists ess. split; [by eapply goods_extends | done]. Qed.
Lemma unlisted p nm : nm ∉ listed p → f (p ++ [nm]) = None.
Proof.
  intros Hn. destruct (f (p ++ [nm])) eqn:E; [| done]. destruct (cp_parent _ _ _ _ _ _ _ Hcap p nm) as [_ ?]; [by rewrite E | done].
Qed.
Lemma nothing_under p nm q e : f (p ++ [nm]) = None → f q = Some e → ¬ (p ++ [nm]) `prefix_of` q.
Proof. intros Hn He Hp. destruct (view_over q e _ He Hp) as [[? ?] _]; [by destruct p | congruence]. Qed.
Definition looked_at (tracked : bool) (p : Place) (nm : bytes) : Prop :=
  passed_over store_root pol (p ++ [nm]) = false ∧ (tracked = true → gone d (p ++ [nm]) = false).
Lemma listed_names p : ∃ names,
  match tracked_children pol (raw p) with Some names' => names = names' | None => names = names_in p d end
  ∧ (∀ nm, nm ∈ names → nm ∈ listed p ↔ looked_at (bool_decide (is_Some (tracked_children pol (raw p)))) p nm)
  ∧ entries_in p = omap (λ nm, f (p ++ [nm])) names.
Proof.
  assert (∀ (P : bytes → Prop) `{∀ x, Decision (P x)} (names : list bytes), (∀ nm, nm ∈ names → ¬ P nm → f (p ++ [nm]) = None) →
            omap (λ nm, f (p ++ [nm])) (base.filter P names : list bytes) = omap (λ nm, f (p ++ [nm])) names) as Hfil.
  { clear. intros P HP names. induction names as [|nm names IH]; intros Hn; [done |]. rewrite filter_cons.
    assert (∀ nm', nm' ∈ names → ¬ P nm' → f (p ++ [nm']) = None) as Hn' by (intros nm' Hin; apply Hn; by right).
    case_decide; cbn [omap list_omap]; [by rewrite <- (IH Hn') |]. rewrite (Hn nm) by (left || done). by apply IH. }
  unfold looked_at, CaptureSpec.entries_in. pose proof (unlisted p) as Hun. revert Hun. unfold CaptureSpec.listed.
  destruct (tracked_children pol (raw p)) as [names|]; cbn; intros Hun; eexists; (split; [done |]); split.
  - intros nm Hin. rewrite in_filter by done. split; [by intros [? ?] |]. intros [? Hg]. split; [done | by apply Hg].
  - apply Hfil. intros nm Hin Hn. apply Hun. by rewrite in_filter.
  - intros nm Hin. rewrite in_filter by done. split; [done | by intros [? _]].
  - apply Hfil. intros nm Hin Hn. apply Hun. by rewrite in_filter.
Qed.
Lemma view_target q e t : f q = Some e → kind e = Directory → target e = Some t → writes (St := St) rounds (entries_in q) t.
Proof.
  intros He Hk Ht. destruct (cp_some _ _ _ _ _ _ _ Hcap q e He) as (_ & i & _ & _ & _ & Ho).
  destruct (view_place q e He) as (_ & _ & _ & i' & _ & Hi' & _ & Hk').
  destruct (is_folder i) eqn:Hf.
  - destruct Ho as (t' & Ho & Hw). unfold entry_of in Ho. destruct (metadata_time i), (body i) eqn:Hb; unfold is_folder in Hf; rewrite Hb in Hf; try done.
    injection Ho as <-. cbn in Ht. by injection Ht as ->.
  - apply (entry_of_kind _ _ _ _ Ho) in Hk. unfold is_folder in Hf. by rewrite Hk in Hf.
Qed.
Lemma dir_children p : dir_of f p → children p d = Ok (names_in p d).
Proof.
  intros Hdir. assert (∃ i, reach d p ∧ nodes d !! p = Some i ∧ is_folder i = true) as (i & Hreach & Hi & Hf).
  { destruct Hdir as [->|(e & He & Hk)].
    - destruct (cp_root _ _ _ _ _ _ _ Hcap) as (i & Hi & Hb). exists i. split; [apply reach_nil |]. unfold is_folder. by rewrite Hb.
    - destruct (view_place p e He) as (_ & _ & _ & i & ? & ? & _ & Hk'). exists i. split_and!; [done.. | by apply Hk']. }
  unfold children. rewrite (metadata_reach d p i Hreach Hi). cbn. by rewrite Hf.
Qed.

Lemma place_ok_extends s s' q : extends s s' → place_ok s q → place_ok s' q.
Proof.
  intros He (i & Hi & Hr & Hn). exists i. split_and!; [done | by eapply recorded_extends |].
  intros Hf. destruct (Hn Hf) as (e & t & h & ? & ? & ? & ?). exists e, t, h. split_and!; try done. by eapply node_extends.
Qed.

Lemma rows_set_trans P Q r r1 r2 : rows_set P r r1 → rows_set Q r1 r2 → rows_set (λ q, P q ∨ Q q) r r2.
Proof.
  intros [H1 H2] [H3 H4]. split.
  - intros q e [HP|HQ] He; [| by apply H3]. destruct (view_place q e He) as (_ & Hv & _).
    destruct (decide (r2 !! raw q = Some (row_of q e))) as [|Hn]; [done |]. rewrite H4; [by apply H1 |].
    intros q' e' HQ He' E. destruct (view_place q' e' He') as (_ & Hv' & _). apply (raw_inj _ _ Hv' Hv) in E as ->.
    rewrite He in He'. injection He' as <-. apply Hn. by apply H3.
  - intros k Hk. rewrite H4, H2; [done | |]; intros q e Hq He; (apply (Hk q e); [| done]); [by left | by right].
Qed.
Lemma rows_set_none P r : (∀ q, ¬ P q) → rows_set P r r.
Proof. intros HP. split; [intros q e Hq; by destruct (HP q) | done]. Qed.
Lemma rows_set_one q e r : f q = Some e → rows_set (λ q', q' = q) r (<[raw q := row_of q e]> r).
Proof.
  intros He. split.
  - intros q' e' -> He'. rewrite He in He'. injection He' as <-. apply lookup_insert_eq.
  - intros k Hk. apply lookup_insert_ne. by apply (Hk q e).
Qed.
Lemma rows_set_iff P Q r r' : (∀ q e, f q = Some e → P q ↔ Q q) → rows_set P r r' → rows_set Q r r'.
Proof.
  intros E [H1 H2]. split; [intros q e Hq He; apply H1; [by eapply E | done] |].
  intros k Hk. apply H2. intros q e Hq He. apply (Hk q e); [by eapply E | done].
Qed.

Lemma after_refl s : ready s → after (λ _, False) s s.
Proof.
  intros Hr. destruct (rd_index s Hr) as [x Hx]. constructor; [done | by intros ??? | done | done | | done].
  exists x, x. do 4 (split; [done |]). apply rows_set_none. by intros ? [].
Qed.
Lemma after_trans P Q s s1 s2 : after P s s1 → after Q s1 s2 → after (λ q, P q ∨ Q q) s s2.
Proof.
  intros H1 H2. constructor.
  - apply H2.
  - eapply extends_trans; [apply H1 | apply H2].
  - rewrite (af_paths_head _ _ _ H2). apply H1.
  - unfold same_heads. rewrite (af_heads _ _ _ H2). apply H1.
  - destruct (af_index _ _ _ H1) as (x & x1 & Hx & Hx1 & ? & ? & ?), (af_index _ _ _ H2) as (x1' & x2 & Hx1' & Hx2 & ? & ? & ?).
    rewrite Hx1 in Hx1'. injection Hx1' as <-. exists x, x2. do 2 (split; [done |]). do 2 (split; [congruence |]). by eapply rows_set_trans.
  - intros q e [HP|HQ] He; [| by eapply af_places]. eapply place_ok_extends; [apply H2 | by eapply af_places].
Qed.
Lemma after_iff P Q s s' : (∀ q e, f q = Some e → P q ↔ Q q) → after P s s' → after Q s s'.
Proof.
  intros E Ha. constructor; try apply Ha.
  - destruct (af_index _ _ _ Ha) as (x & x' & ? & ? & ? & ? & ?). exists x, x'. do 4 (split; [done |]). by eapply rows_set_iff.
  - intros q e Hq He. eapply (af_places _ _ _ Ha); [by eapply E | done].
Qed.
Lemma after_then P s s1 s2 : after (λ _, False) s s1 → after P s1 s2 → after P s s2.
Proof. intros H1 H2. eapply after_iff; [| eapply after_trans; [exact H1 | exact H2]]. naive_solver. Qed.
Lemma after_snd P s s1 s2 : after P s s1 → after (λ _, False) s1 s2 → after P s s2.
Proof. intros H1 H2. eapply after_iff; [| eapply after_trans; [exact H1 | exact H2]]. naive_solver. Qed.

(** ** The small steps *)

Lemma policy_step rel s : ready s → ∃ s', on_policy (excludes_bytes rel) s = (Ok (excludes pol rel), s') ∧ after (λ _, False) s s'.
Proof.
  intros Hr. destruct (excludes_bytes_run rel (policy s)) as (p' & Hrun & Hp). unfold on_policy. rewrite Hrun.
  eexists. rewrite (rules_excludes (policy s) pol) by apply Hr. split; [done |]. pose proof (after_refl s Hr) as Ha. destruct Hr as [H1 H2 H3 H4].
  constructor; try apply Ha. constructor; cbn; [done | by rewrite Hp | done | done].
Qed.
Lemma catalog_step {A} (m : M Catalog.Catalog A) r c' s :
  ready s → m (catalog s) = (r, c') → cache_right wall device workspace_id (store (work s)) d c' → same_heads (catalog s) c' →
  ∃ s', on_catalog m s = (r, s') ∧ after (λ _, False) s s' ∧ work s' = work s ∧ catalog s' = c'.
Proof.
  intros Hr Hm Hc Hh. unfold on_catalog. rewrite Hm. eexists. split; [done |]. split; [| done]. pose proof (after_refl s Hr) as Ha.
  destruct Hr as [H1 H2 H3 H4]. constructor; try apply Ha; [| done]. by constructor.
Qed.
Lemma objects_step {A} (m : M St A) r st' s :
  ready s → m (store (work s)) = (r, st') → extends (store (work s)) st' →
  ∃ s', on_work (on_objects m) s = (r, s') ∧ after (λ _, False) s s' ∧ store (work s') = st'.
Proof.
  intros Hr Hm He. unfold on_work, on_objects. rewrite Hm. eexists. split; [done |]. split; [| done]. pose proof (after_refl s Hr) as Ha.
  destruct Hr as [H1 H2 H3 H4]. constructor; try apply Ha; [| done | done].
  constructor; cbn; [done | done | by eapply cache_right_extends | done].
Qed.
Lemma note_link_step k id s : ready s → ∃ s', on_index (PathIndex.note_link k id) s = (Ok (), s') ∧ after (λ _, False) s s'.
Proof.
  intros Hr. destruct (rd_index s Hr) as [x Hx]. unfold on_index. rewrite Hx. eexists. split; [done |]. destruct Hr as [H1 H2 H3 H4].
  constructor; cbn; [by constructor | by intros ??? | done | done | | done].
  exists x. eexists. do 4 (split; [done |]). apply rows_set_none. by intros ? [].
Qed.
Lemma upsert_step q e s : ready s → f q = Some e → place_ok (store (work s)) q →
  ∃ s', on_index (PathIndex.upsert (raw q) (raw (parent q)) e) s = (Ok (), s') ∧ after (λ q', q' = q) s s'.
Proof.
  intros Hr He Hp. destruct (rd_index s Hr) as [x Hx]. unfold on_index. rewrite Hx. eexists. split; [done |]. destruct Hr as [H1 H2 H3 H4].
  constructor; cbn; [by constructor | by intros ??? | done | done | | by intros q' e' -> ?].
  exists x. eexists. do 4 (split; [done |]). by apply rows_set_one.
Qed.

(** ** Files *)

Variable reading : Place → Disk → list (Res bytes) * Disk.
Variable linked_outside : Z → bool.
Hypothesis Hstill : still reading.
Hypothesis Hone : one_inode d.

Lemma capture_file_entry_ok q i data e s :
  ready s → f q = Some e → nodes d !! q = Some i → body i = Regular data → reach d q → storable i = true → entry_of q i None = Some e →
  ∃ s', capture_file_entry reading wall device workspace_id q (last_name q) (classify (raw q)) i s = (Ok e, s')
    ∧ after (λ _, False) s s' ∧ recorded (store (work s')) i.
Proof.
  intros Hr He Hi Hb Hreach Hst Ho. pose proof Hr as [H1 H2 H3 H4]. unfold capture_file_entry.
  destruct (unchanged_row_ok wall device workspace_id _ d (catalog s) q i data H3 Hi Hb) as (o & c1 & Hrun & Hc1 & Ht1 & Hrow).
  destruct (catalog_step _ _ c1 s Hr Hrun Hc1) as (s1 & Hrun1 & Ha1 & Hw1 & Hcat1); [unfold same_heads; by rewrite Ht1 |].
  rewrite (M_bind_run _ _ _ _ _ Hrun1). destruct o as [row|].
  - destruct (Hrow row eq_refl) as [Hright Hm]. rewrite mret_bind. exists s1. split_and!; [| done |].
    + rewrite (file_entry_right device _ q i data row (last_name q) Hright Hm Hb eq_refl) in Ho. by injection Ho as ->.
    + rewrite Hw1. apply Hright.
  - rewrite M_bind_assoc. destruct (read_file_ok reading wall q d i data (store (work s1)) Hstill Hreach Hi Hb Hst) as (sq & st2 & Hread & He2 & Hrec).
    assert (ready s1) as Hr1 by apply Ha1.
    assert (work s1 = mkWork (store (work s1)) d) as Ew by (rewrite <- (rd_disk s1 Hr1); by destruct (work s1)).
    set (read := mkFileRead _ _ _ _ _) in Hread.
    rewrite (M_bind_run _ _ _ read (mkSession (mkWork st2 d) (index s1) (catalog s1) (policy s1) (paths_head s1) (ref_log s1)))
      by (unfold on_work; rewrite Ew; cbn [store] in *; by rewrite Hread).
    set (s2 := mkSession _ _ _ _ _ _).
    assert (after (λ _, False) s1 s2) as Ha2.
    { pose proof (after_refl s1 Hr1) as Ha. destruct Hr1 as [R1 R2 R3 R4].
      constructor; try apply Ha; [| done | done]. constructor; cbn; [done | done | by eapply cache_right_extends | done]. }
    assert (ready s2) as Hr2 by apply Ha2. set (row := cached_from_read device read).
    assert (row_right st2 i data row) as Hright by done.
    destruct (cache_file_tables workspace_id (raw q) row (catalog s2)) as (c3 & Hc & Ht3); [apply Hr2 |].
    assert (CatalogTheory.conn_ok c3) as Hok3.
    { pose proof (CatalogTheory.cache_file_ok workspace_id (raw q) row (catalog s2) ltac:(apply Hr2)) as Hok. by rewrite Hc in Hok. }
    assert (cache_read device workspace_id (raw q) read (catalog s2) = (Ok row, c3)) as Hcr.
    { unfold cache_read. fold row. by rewrite (M_bind_run _ _ _ _ _ Hc). }
    destruct (catalog_step _ _ c3 s2 Hr2 Hcr) as (s3 & Hrun3 & Ha3 & Hw3 & _).
    { eapply (cache_right_insert wall device workspace_id st2 d (catalog s2) c3 q i data row); try done. apply Hr2. }
    { unfold same_heads. by destruct Ht3 as [-> | ->]. }
    rewrite (M_bind_run _ _ _ _ _ Hrun3). exists s3. split_and!.
    + assert (cached_matches device row i = true) as Hm.
      { unfold cached_matches, row, read. cbn. by rewrite !Z.eqb_refl. }
      rewrite (file_entry_right device st2 q i data row (last_name q) Hright Hm Hb eq_refl) in Ho. by injection Ho as ->.
    + eapply after_then; [done |]. by eapply after_then.
    + rewrite Hw3. exact Hrec.
Qed.

(** ** Entries and directories *)

(** A walk of the directory at [q] answers its tree [t]. *)
Definition walks (walk : Place → M (Session St L) ObjectId) (q : Place) (t : ObjectId) : Prop :=
  ∀ s, ready s → ∃ s', walk q s = (Ok t, s') ∧ after (below q) s s' ∧ ∃ h, (h ≤ rounds)%nat ∧ node h (store (work s')) t (entries_in q).

Lemma capture_path_entry_ok walk q e s :
  ready s → f q = Some e → (∀ t, kind e = Directory → target e = Some t → walks walk q t) →
  ∃ s', capture_path_entry reading wall device linked_outside workspace_id walk q s = (Ok (Some e), s')
    ∧ after (below q) s s' ∧ place_ok (store (work s')) q.
Proof.
  intros Hr He Hwalk. destruct (cp_some _ _ _ _ _ _ _ Hcap q e He) as (Hne & i & Hreach & Hi & Hst & Ho).
  unfold capture_path_entry. rewrite get_bind, (rd_disk s Hr), (metadata_reach d q i Hreach Hi), lift_ok_bind.
  assert (∀ s', after (λ _, False) s s' → kind e ≠ Directory → after (below q) s s') as Hleaf.
  { intros s' Ha Hk. eapply after_iff; [| exact Ha]. intros q' e' He'. split; [done |].
    eapply nothing_below; [| done | exact He']. intros e0 He0. congruence. }
  destruct (metadata_time i) as [secs nanos] eqn:Et. destruct (body i) as [data| |dest| | |] eqn:Hb.
  - unfold is_folder in Ho. rewrite Hb in Ho.
    destruct (note_link_step (raw q) (identity device linked_outside d i) s Hr) as (s1 & Hn & Ha1). rewrite (M_bind_run _ _ _ _ _ Hn).
    destruct (capture_file_entry_ok q i data e s1 ltac:(apply Ha1) He Hi Hb Hreach Hst Ho) as (s2 & Hc & Ha2 & Hrec).
    rewrite (M_bind_run _ _ _ _ _ Hc). exists s2. split; [done |]. split.
    + apply Hleaf; [by eapply after_then |]. rewrite (entry_of_kind _ _ _ _ Ho). by rewrite Hb.
    + exists i. split_and!; [done.. |]. unfold is_folder. by rewrite Hb.
  - unfold is_folder in Ho. rewrite Hb in Ho. destruct Ho as (t & Ho & Hwr).
    unfold storable in Hst. rewrite Hb in Hst. apply Z.leb_le in Hst.
    destruct (capture_xattrs_ok i (store (work s)) Hst) as (st1 & Hx & He1 & Hhx).
    destruct (objects_step _ _ st1 s Hr Hx He1) as (s1 & Hrun1 & Ha1 & Hst1). rewrite (M_bind_run _ _ _ _ _ Hrun1).
    unfold entry_of in Ho. rewrite Et, Hb in Ho. injection Ho as Ho.
    destruct (Hwalk t ltac:(by rewrite <- Ho) ltac:(by rewrite <- Ho) s1 ltac:(apply Ha1)) as (s2 & Hrun2 & Ha2 & h & Hh & Hn).
    rewrite (M_bind_run _ _ _ _ _ Hrun2). exists s2. split; [by rewrite Ho |]. split; [by eapply after_then |].
    exists i. split_and!; [done | |].
    + unfold recorded. rewrite Hb. eapply has_xattrs_extends; [apply Ha2 |]. by rewrite Hst1.
    + intros _. exists e, t, h. split_and!; try done. by rewrite <- Ho.
  - unfold is_folder, entry_of in Ho. rewrite Hb, Et in Ho. injection Ho as Ho. exists s. split; [unfold stat_len; by rewrite Hb, Ho |]. split.
    + apply Hleaf; [by apply after_refl | by rewrite <- Ho].
    + exists i. unfold recorded, is_folder. by rewrite Hb.
  - unfold is_folder, entry_of in Ho. rewrite Hb, Et in Ho. injection Ho as Ho. exists s. split; [by rewrite Ho |]. split.
    + apply Hleaf; [by apply after_refl | by rewrite <- Ho].
    + exists i. unfold recorded, is_folder. by rewrite Hb.
  - unfold is_folder, entry_of in Ho. rewrite Hb, Et in Ho. injection Ho as Ho. exists s. split; [by rewrite Ho |]. split.
    + apply Hleaf; [by apply after_refl | by rewrite <- Ho].
    + exists i. unfold recorded, is_folder. by rewrite Hb.
  - unfold is_folder, entry_of in Ho. rewrite Hb, Et in Ho. done.
Qed.
Lemma capture_device walk q i s :
  ready s → reach d q → nodes d !! q = Some i → body i = Device →
  capture_path_entry reading wall device linked_outside workspace_id walk q s = (Ok None, s).
Proof.
  intros Hr Hreach Hi Hb. unfold capture_path_entry. rewrite get_bind, (rd_disk s Hr), (metadata_reach d q i Hreach Hi), lift_ok_bind.
  destruct (metadata_time i). by rewrite Hb.
Qed.

(** ** Directories *)



Lemma capture_child_ok walk tracked p nm b b' s done :
  ready s → dir_of f p → (nm ∈ listed p ↔ looked_at tracked p nm) →
  (∀ e t, f (p ++ [nm]) = Some e → kind e = Directory → target e = Some t → walks walk (p ++ [nm]) t) →
  pushes (St := St) b (option_list (f (p ++ [nm]))) b' → builds (store (work s)) b done →
  ∃ s', capture_child reading wall device linked_outside workspace_id store_root walk tracked p b nm s = (Ok b', s')
    ∧ after (prefix (p ++ [nm])) s s' ∧ builds (store (work s')) b' (done ++ option_list (f (p ++ [nm]))).
Proof.
  intros Hr Hdir Hl Hwalk Hpush Hb. unfold capture_child.
  assert (f (p ++ [nm]) = None → ∀ s', after (λ _, False) s s' →
    b' = b ∧ after (prefix (p ++ [nm])) s s' ∧ builds (store (work s')) b' (done ++ option_list (f (p ++ [nm])))) as Hskip.
  { intros Hn s' Ha. rewrite Hn in *. cbn in Hpush. split; [done |]. split.
    - eapply after_iff; [| exact Ha]. intros q e He. split; [done |]. by eapply nothing_under.
    - cbn. rewrite app_nil_r. subst b'. eapply builds_extends; [apply Ha | done]. }
  destruct (is_own store_root (p ++ [nm])) eqn:Eown.
  { exists s. destruct (Hskip ltac:(apply unlisted; rewrite Hl; unfold looked_at, passed_over; rewrite Eown; naive_solver) s (after_refl s Hr)) as (-> & ? & ?). done. }
  destruct (policy_step (raw (p ++ [nm])) s Hr) as (s1 & Hrun1 & Ha1). rewrite (M_bind_run _ _ _ _ _ Hrun1).
  destruct (excludes pol (raw (p ++ [nm]))) eqn:Eex.
  { exists s1. destruct (Hskip ltac:(apply unlisted; rewrite Hl; unfold looked_at, passed_over; rewrite Eex, orb_true_r; naive_solver) s1 Ha1) as (-> & ? & ?). done. }
  assert (ready s1) as Hr1 by apply Ha1. rewrite get_bind, (rd_disk s1 Hr1). fold (gone d (p ++ [nm])).
  destruct (tracked && gone d (p ++ [nm])) eqn:Egone.
  { apply andb_true_iff in Egone as [-> Egone].
    exists s1. destruct (Hskip ltac:(apply unlisted; rewrite Hl; unfold looked_at; rewrite Egone; naive_solver) s1 Ha1) as (-> & ? & ?). done. }
  assert (nm ∈ listed p) as Hin.
  { apply Hl. unfold looked_at, passed_over. rewrite Eown, Eex. split; [done |]. intros ->. done. }
  destruct (f (p ++ [nm])) as [e|] eqn:He.
  - destruct (capture_path_entry_ok walk (p ++ [nm]) e s1 Hr1 He) as (s2 & Hrun2 & Ha2 & Hp2); [intros t; by apply Hwalk |].
    rewrite (M_bind_run _ _ _ _ _ Hrun2). destruct (upsert_step (p ++ [nm]) e s2 ltac:(apply Ha2) He Hp2) as (s3 & Hrun3 & Ha3).
    assert (parent (p ++ [nm]) = p) as Ep.
    { unfold parent. rewrite length_app. cbn. rewrite Nat.add_1_r. cbn. apply take_app_length. }
    rewrite Ep in Hrun3. rewrite (M_bind_run _ _ _ _ _ Hrun3). cbn [option_list pushes] in Hpush. destruct Hpush as (b1 & Hpush & <-).
    destruct (Hpush (store (work s3))) as (st4 & Hp4).
    assert (builds (store (work s3)) b done) as Hb3.
    { eapply builds_extends; [| exact Hb]. eapply extends_trans; [apply Ha1 |]. eapply extends_trans; [apply Ha2 | apply Ha3]. }
    destruct (push_ok _ _ _ _ _ _ Hb3 Hp4) as [Hb4 He4]. destruct (objects_step _ _ st4 s3 ltac:(apply Ha3) Hp4 He4) as (s4 & Hrun4 & Ha4 & Hst4).
    exists s4. split; [done |]. split; [| by rewrite Hst4].
    eapply after_snd; [| exact Ha4]. eapply after_then; [exact Ha1 |]. eapply after_iff; [| by eapply after_trans].
    intros q e' _. unfold below. cbn. destruct (decide (q = p ++ [nm])) as [->|]; naive_solver.
  - destruct (cp_listed _ _ _ _ _ _ _ Hcap p nm Hdir Hin He) as (i & Hreach & Hi & Hbody).
    assert (capture_path_entry reading wall device linked_outside workspace_id walk (p ++ [nm]) s1 = (Ok None, s1)) as Hrun2
      by by apply (capture_device walk (p ++ [nm]) i).
    rewrite (M_bind_run _ _ _ _ _ Hrun2). exists s1. destruct (Hskip ltac:(done) s1 Ha1) as (-> & ? & ?). done.
Qed.
Lemma capture_children_ok walk tracked p names : ∀ b b' s done,
  ready s → dir_of f p → (∀ nm, nm ∈ names → nm ∈ listed p ↔ looked_at tracked p nm) →
  (∀ nm e t, f (p ++ [nm]) = Some e → kind e = Directory → target e = Some t → walks walk (p ++ [nm]) t) →
  pushes (St := St) b (omap (λ nm, f (p ++ [nm])) names) b' → builds (store (work s)) b done →
  ∃ s', capture_children reading wall device linked_outside workspace_id store_root walk tracked p names b s = (Ok b', s')
    ∧ after (λ q, ∃ nm, nm ∈ names ∧ (p ++ [nm]) `prefix_of` q) s s'
    ∧ builds (store (work s')) b' (done ++ omap (λ nm, f (p ++ [nm])) names).
Proof.
  induction names as [|nm names IH]; intros b b' s done Hr Hdir Hl Hwalk Hpush Hb.
  - cbn in Hpush |- *. subst b'. exists s. split; [done |]. rewrite app_nil_r. split; [| done].
    eapply after_iff; [| by apply after_refl]. intros q e _. split; [done |]. by intros (? & ?%not_elem_of_nil & _).
  - assert (omap (λ nm, f (p ++ [nm])) (nm :: names) = option_list (f (p ++ [nm])) ++ omap (λ nm, f (p ++ [nm])) names) as Ees
      by (cbn; by destruct (f (p ++ [nm]))).
    rewrite Ees in *. apply pushes_app in Hpush as (b1 & Hpush1 & Hpush2).
    destruct (capture_child_ok walk tracked p nm b b1 s done Hr Hdir ltac:(apply Hl; left) (Hwalk nm) Hpush1 Hb) as (s1 & Hrun1 & Ha1 & Hb1).
    destruct (IH b1 b' s1 _ ltac:(apply Ha1) Hdir ltac:(intros; apply Hl; by right) Hwalk Hpush2 Hb1) as (s2 & Hrun2 & Ha2 & Hb2).
    exists s2. cbn [capture_children]. rewrite (M_bind_run _ _ _ _ _ Hrun1), Hrun2. split; [done |]. split; [| by rewrite app_assoc].
    eapply after_iff; [| by eapply after_trans]. intros q e _. cbn. setoid_rewrite elem_of_cons. naive_solver.
Qed.

Lemma capture_directory_ok n : ∀ p t,
  dir_of f p → (∀ q, dir_of f q → p `prefix_of` q → (length q < n + length p)%nat) → writes (St := St) rounds (entries_in p) t →
  walks (capture_directory reading wall device linked_outside workspace_id store_root rounds n) p t.
Proof.
  induction n as [|n IH]; intros p t Hdir Hn Hw s Hr; [specialize (Hn p Hdir ltac:(done)); lia |].
  cbn [capture_directory]. rewrite get_bind, (rules_tracked (policy s) pol) by apply Hr. rewrite (rd_disk s Hr), (dir_children p Hdir).
  destruct (listed_names p) as (names & Hnames' & Hl & Hes).
  assert ((match tracked_children pol (raw p) with Some names => Ok names | None => Ok (names_in p d) end : Res (list bytes)) = Ok names) as ->
    by (destruct (tracked_children pol (raw p)); by subst).
  rewrite lift_ok_bind. rewrite Hes in Hw. destruct Hw as (b & Hpush & Hfin).
  destruct (capture_children_ok (capture_directory reading wall device linked_outside workspace_id store_root rounds n)
              (bool_decide (is_Some (tracked_children pol (raw p)))) p names Builder_new b s []) as (s1 & Hrun1 & Ha1 & Hb1); try done.
  { intros nm e t' He Hk Ht. apply IH; [right; eauto | | by eapply view_target].
    intros q Hq Hp. specialize (Hn q Hq). rewrite length_app. cbn. assert (p `prefix_of` q) as Hpq by (trans (p ++ [nm]); [by apply prefix_app_r | done]).
    specialize (Hn Hpq). lia. }
  { apply builds_new. }
  rewrite (M_bind_run _ _ _ _ _ Hrun1). unfold finish_tree. destruct (Hfin (store (work s1))) as (st2 & Hf2).
  destruct (finish_ok _ _ _ _ _ _ Hb1 Hf2) as [(h & Hh & Hnode) He2].
  destruct (objects_step _ _ st2 s1 ltac:(apply Ha1) Hf2 He2) as (s2 & Hrun2 & Ha2 & Hst2).
  rewrite (M_bind_run _ _ _ _ _ Hrun2). cbn [with_context lift]. exists s2. split; [done |]. split.
  - eapply after_snd; [| exact Ha2]. eapply after_iff; [| exact Ha1]. intros q e He. cbn. split.
    + intros (nm & _ & Hp). split; [trans (p ++ [nm]); [by apply prefix_app_r | done] |]. intros ->.
      apply prefix_length in Hp. rewrite length_app in Hp. cbn in Hp. lia.
    + intros [[u ->] Hne]. destruct u as [|nm u]; [by rewrite app_nil_r in Hne |]. exists nm. split; [| exists u; by rewrite <- app_assoc].
      destruct (view_over _ e (p ++ [nm]) He) as [Hs _]; [exists u; by rewrite <- app_assoc | by destruct p |].
      destruct (decide (nm ∈ names)) as [|Hni]; [done |]. destruct Hs as [e1 He1].
      destruct (cp_parent _ _ _ _ _ _ _ Hcap p nm) as [_ Hin]; [by rewrite He1 |]. destruct Hni.
      revert Hin. unfold CaptureSpec.listed. destruct (tracked_children pol (raw p)); intros [_ ?]%list_elem_of_filter; by subst.
  - exists h. split; [done |]. rewrite Hst2, Hes. done.
Qed.
End Walk.
