(* ===== verification/CaptureFull.v ===== *)
(** * CaptureFull: a full capture holds the view of the disk

    The first attempt of a capture ends with the tree of the reference; the store
    then holds that tree and what it names, and the index lists exactly it. *)

From S2P Require Import Prelude Model Tree TreeTheory Bundle Chunker ChunkerTheory Paths Disk Files Policy DiskTheory PlanTheory RewindTheory Capture PathIndexTheory CaptureSpec CaptureTheory CaptureWalk RefStore CaptureLog.
From S2P Require PathIndex Catalog CatalogTheory.
#[local] Open Scope Z_scope.

(** ** Attributes *)

Lemma foldl_xattrs_lookup (l : list XattrEntry) : ∀ m : gmap bytes bytes, NoDup (map xattr_name l) → ∀ k,
  foldl (λ m x, <[xattr_name x := xattr_value x]> m) m l !! k
  = match list_find (λ x, xattr_name x = k) l with Some (_, x) => Some (xattr_value x) | None => m !! k end.
Proof.
  induction l as [|x l IH]; intros m Hnd k; [done |]. cbn [map foldl list_find] in *. apply NoDup_cons in Hnd as [Hni Hnd].
  rewrite IH by done. destruct (decide (xattr_name x = k)) as [<-|Hne].
  - assert (list_find (λ y, xattr_name y = xattr_name x) l = None) as ->.
    { apply list_find_None, Forall_forall. intros y Hy E. apply Hni. apply list_elem_of_fmap. by exists y. }
    by rewrite lookup_insert_eq.
  - destruct (list_find (λ x, xattr_name x = k) l) as [[]|]; [done |]. by apply lookup_insert_ne.
Qed.
Lemma recorded_visible i : attrs_of (recorded_xattrs i) = visible_attrs i.
Proof.
  unfold attrs_of, restorable_xattrs, visible_attrs, recorded_xattrs.
  set (l := base.filter _ (btree_iter (attrs i))).
  assert (∀ k v, (k, v) ∈ l ↔ attrs i !! k = Some v ∧ is_system_managed k = false) as Hl.
  { intros k v. subst l. rewrite list_elem_of_filter, elem_of_btree_iter. tauto. }
  assert (NoDup l.*1) as Hnd.
  { subst l. pose proof (sorted_keys_NoDup (dom (attrs i))) as Hk. rewrite <- btree_iter_keys in Hk. revert Hk.
    generalize (btree_iter (attrs i)) as t. induction t as [|[k v] t IH]; intros Hk; [constructor |]. rewrite filter_cons.
    cbn [fmap list_fmap fst] in Hk. apply NoDup_cons in Hk as [Hni Hk]. case_decide; [| by apply IH].
    cbn. apply NoDup_cons. split; [| by apply IH]. intros ([k' v'] & E & [_ Hin]%list_elem_of_filter)%list_elem_of_fmap. cbn in E. subst k'.
    apply Hni. by apply (list_elem_of_fmap_2 fst) in Hin. }
  assert (base.filter (λ x, is_system_managed (xattr_name x) = false) (map (λ '(name, value), mkXattr name value) l)
          = map (λ '(name, value), mkXattr name value) l) as ->.
  { assert (Forall (λ '(k, _), is_system_managed k = false) l) as Hall by (apply Forall_forall; intros [k v] Hin; by destruct (proj1 (Hl k v) Hin)).
    clear -Hall. induction Hall as [|[k v] l Hk _ IH]; [done |]. cbn [map]. rewrite filter_cons. cbn. rewrite decide_True by done. by f_equal. }
  apply map_eq. intros k. rewrite foldl_xattrs_lookup.
  2: { rewrite map_map. erewrite map_ext; [exact Hnd |]. by intros []. }
  apply option_eq. intros v. rewrite lookup_empty, map_lookup_filter_Some, <- Hl.
  destruct (list_find _ _) as [[n x]|] eqn:E.
  - apply list_find_Some in E as (Hx & <- & _). apply list_elem_of_lookup_2, list_elem_of_fmap in Hx as ([k' v'] & -> & Hin). cbn. split.
    + by intros [= ->].
    + intros Hin'. f_equal. apply Hl in Hin as [Hin _]. apply Hl in Hin' as [Hin' _]. cbn in *. congruence.
  - split; [done |]. intros Hin. apply list_find_None in E. rewrite Forall_forall in E. exfalso. apply (E (mkXattr k v)); [| done].
    apply list_elem_of_fmap. by exists (k, v).
Qed.

(** Names are names, and no time is before its own second. *)
Definition names_ok (d : Disk) : Prop := ∀ p i, nodes d !! p = Some i → valid_place p ∧ 0 ≤ (mtime i).2.
Lemma names_valid d : names_ok d → ∀ p i, nodes d !! p = Some i → valid_place p.
Proof. intros Hn p i Hi. by destruct (Hn p i Hi). Qed.

Section Full.
Context `{Platform} {St L : Type} {OS : ObjectStore St} {OSok : ObjectStoreOk St} `{Blake3} {CS : ContentStoreOk St}.
Context {JE : Json TreeEntry} {JP : Json TreePage} {JT : Json Tree} {JTok : JsonOk Tree}.
Context {JB : Json Blob} {JBok : JsonOk Blob} {JX : Json Xattrs} {JXok : JsonOk Xattrs}.

(** ** What is recorded shows the inode *)

Lemma fetch_recorded (s : St) cs out :
  (∀ c, c ∈ cs → read_object Chunk (object_id Chunk c) s = Ok c) →
  fetch_chunks s (map (λ c, mkChunkRef (object_id Chunk c) (blen c)) cs) out = Ok (out ++ concat cs).
Proof.
  revert out. induction cs as [|c cs IH]; intros out Hc; cbn [map fetch_chunks concat]; [by rewrite app_nil_r |].
  cbn [cr_id cr_len]. rewrite (Hc c) by left. cbn [mbind Res_bind]. rewrite Z.eqb_refl. cbn [ensure mbind Res_bind].
  rewrite IH by (intros c' Hc'; apply Hc; by right). by rewrite app_assoc.
Qed.
Lemma recorded_shows (s : St) p i t e :
  recorded s i → entry_of p i t = Some e → 0 ≤ (mtime i).2 → inode_shows s i e.
Proof.
  intros Hr He Hn. assert (mtime i = (mtime_secs e, mtime_nanos e) ∧ (kind e ≠ Symlink → st_mode i = mode e)) as [Ht Hm].
  { unfold entry_of, metadata_time in He. destruct (body i); try done; injection He as <-; cbn;
      (split; [destruct (mtime i); cbn in *; f_equal; lia | done]). }
  unfold recorded in Hr. unfold inode_shows, recorded_times. unfold entry_of, metadata_time in He.
  destruct (body i) as [data| |dest| | |] eqn:Hb; try done; injection He as <-; cbn [kind target mtime_secs mtime_nanos mode] in *.
  - destruct Hr as (Hblob & Hc & Hx). exists data. split_and!; [done | | | by apply Hm | done].
    + unfold file_data. cbn [target with_context mbind Res_bind]. unfold read_struct_at. rewrite Hblob. cbn [mbind Res_bind].
      rewrite from_to. cbn [with_context mbind Res_bind chunks blob_of]. unfold chunk_refs. rewrite fetch_recorded by done.
      by rewrite chunks_join.
    + unfold file_attrs. cbn [xattrs]. unfold xattrs_id. rewrite <- recorded_visible. destruct (bool_decide_reflect (recorded_xattrs i = [])) as [->|Hne]; [done |].
      specialize (Hx (object_id XattrsKind (to_vec (mkXattrs (recorded_xattrs i))))). unfold xattrs_id in Hx. rewrite bool_decide_eq_false_2 in Hx by done.
      unfold read_struct_at. rewrite (Hx eq_refl). cbn [mbind Res_bind]. rewrite from_to. done.
  - split; [done |]. split; [by apply Hm | exact Ht].
  - split; [done | exact Ht].
  - split; [done |]. split; [by apply Hm | exact Ht].
  - done.
Qed.
Lemma writes_sorted rounds es t (s : St) : writes (St := St) rounds es t → sorted es.
Proof.
  intros (b & Hp & _). destruct (pushes_run _ _ _ s Hp) as (s' & Hrun).
  by destruct (push_all_ok _ _ _ _ _ _ (builds_new s) Hrun) as [[Hs _] _].
Qed.

Variable device : Z.
Variable workspace_id : bytes.
Variable store_root : option Place.
Variables rounds fuel depth : nat.
Variable pol : CapturePolicy.
Variable d : Disk.
Variable f : View.
Variable root : ObjectId.
#[local] Abbreviation entries_in p := (entries_in store_root pol d f p).
Hypothesis Hcap : captured (St := St) store_root rounds depth pol d f root.
Hypothesis Hnames : names_ok d.

#[local] Abbreviation valid_names := (names_valid d Hnames).
Lemma elem_of_entries p e : e ∈ entries_in p ↔ f (p ++ [name e]) = Some e.
Proof.
  unfold CaptureSpec.entries_in. rewrite list_elem_of_omap. split.
  - intros (nm & _ & He). destruct (view_place store_root rounds depth pol d f root Hcap valid_names _ e He) as (_ & _ & En & _).
    unfold last_name in En. rewrite last_snoc in En. cbn in En. by rewrite En.
  - intros He. exists (name e). split; [| done]. apply (cp_parent _ _ _ _ _ _ _ Hcap). by rewrite He.
Qed.
Lemma entries_found p nm : found (entries_in p) nm (f (p ++ [nm])).
Proof.
  intros e. rewrite elem_of_entries. split.
  - intros He. destruct (view_place store_root rounds depth pol d f root Hcap valid_names _ e He) as (_ & _ & En & _).
    unfold last_name in En. rewrite last_snoc in En. cbn in En. by rewrite En.
  - by intros [He <-].
Qed.

(** The tree of the directory [e] at [q] is in the store. *)
Definition dir_node (s : St) (q : Place) (e : TreeEntry) : Prop :=
  ∃ t h, target e = Some t ∧ (2 * (h + length (entries_in q)) + 3 < fuel)%nat ∧ node h s t (entries_in q).
(** What is below [p]. *)
Definition sub (p : Place) : View := λ q, match q with [] => None | _ => f (p ++ q) end.
Lemma captured_holds (s : St) n : ∀ p t h,
  dir_of f p → (∀ q, dir_of f q → p `prefix_of` q → (length q < n + length p)%nat) →
  (∀ q e, below p q → f q = Some e → kind e = Directory → dir_node s q e) →
  (2 * (h + length (entries_in p)) + 3 < fuel)%nat → node h s t (entries_in p) → writes (St := St) rounds (entries_in p) t → holds fuel n s t (sub p).
Proof.
  induction n as [|n IH]; intros p t h Hdir Hn Hok Hh Hnode Hw; [specialize (Hn p Hdir ltac:(done)); lia |].
  cbn [holds]. exists h, (entries_in p). split_and!.
  - done.
  - by eapply writes_sorted.
  - exact Hh.
  - apply Forall_forall. intros e He%elem_of_entries.
    destruct (view_place store_root rounds depth pol d f root Hcap valid_names _ e He) as (_ & Hv & _). apply valid_place_snoc in Hv as [_ Hv]. exact Hv.
  - done.
  - intros nm. apply entries_found.
  - intros nm. cbn [sub].
    assert (∀ e, f (p ++ [nm]) = Some e → kind e ≠ Directory → ∀ q, under (sub p) nm q = None) as Hleaf.
    { intros e He Hk [|x q]; [done |]. cbn. destruct (f (p ++ nm :: x :: q)) as [e'|] eqn:E; [| done]. exfalso.
      eapply (nothing_below store_root rounds depth pol d f root Hcap valid_names (p ++ [nm])); [| by destruct p | exact E |].
      - intros e0 He0. congruence.
      - split; [exists (x :: q); by rewrite <- app_assoc |]. intros E'. apply (f_equal length) in E'. rewrite !length_app in E'. cbn in E'. lia. }
    destruct (f (p ++ [nm])) as [e|] eqn:He.
    + case_decide as Hk; [| by apply (Hleaf e)].
      destruct (Hok (p ++ [nm]) e) as (t' & h' & Ht' & Hh' & Hnode'); [| done | done |].
      { split; [by apply prefix_app_r |]. intros E. apply (f_equal length) in E. rewrite length_app in E. cbn in E. lia. }
      exists t'. split; [done |]. eapply (holds_ext fuel _ _ _ (sub (p ++ [nm]))).
      { intros [|x q]; [done |]. cbn. by rewrite <- app_assoc. }
      apply (IH (p ++ [nm]) t' h').
      * right. eauto.
      * intros q Hq Hp. specialize (Hn q Hq). rewrite length_app. cbn. assert (p `prefix_of` q) as Hpq by (trans (p ++ [nm]); [by apply prefix_app_r | done]).
        specialize (Hn Hpq). lia.
      * intros q e0 [Hpre Hne] He0. apply (Hok q e0); [| done]. split; [trans (p ++ [nm]); [by apply prefix_app_r | done] |].
        intros ->. apply prefix_length in Hpre. rewrite length_app in Hpre. cbn in Hpre. lia.
      * done.
      * done.
      * by eapply (view_target store_root rounds depth pol d f root Hcap valid_names).
    + intros [|x q]; [done |]. cbn. destruct (f (p ++ nm :: x :: q)) as [e'|] eqn:E; [| done]. exfalso.
      eapply (nothing_under store_root rounds depth pol d f root Hcap valid_names p nm); [exact He | exact E |]. exists (x :: q). by rewrite <- app_assoc.
Qed.
Lemma view_placed : well_placed f.
Proof.
  intros q e He. destruct (view_place store_root rounds depth pol d f root Hcap valid_names q e He) as (Hne & Hq & En & _). split_and!; [done.. |].
  rewrite En. unfold last_name. destruct (place_cases q) as [->|(a & nm & ->)]; [done |]. by rewrite last_snoc.
Qed.
Lemma rows_set_exact r : rows_set f (λ _, True) ∅ r → exact f r.
Proof.
  intros [H1 H2] k row. split.
  - intros Hk. destruct (f (split_on slash k)) as [e|] eqn:E; [destruct (decide (raw (split_on slash k) = k)) as [Ek|Ek] |].
    + exists (split_on slash k), e. pose proof (H1 _ e I E) as Hrow. rewrite Ek, Hk in Hrow. injection Hrow as ->. done.
    + exfalso. rewrite (H2 k) in Hk; [done |]. intros q e' _ He' <-. destruct (view_placed q e' He') as (Hne & Hq & _).
      apply Ek. by rewrite split_raw.
    + exfalso. rewrite (H2 k) in Hk; [done |]. intros q e' _ He' <-. destruct (view_placed q e' He') as (Hne & Hq & _).
      rewrite split_raw in E by done. congruence.
  - intros (q & e & He & -> & ->). by apply H1.
Qed.
End Full.

(** ** The whole capture *)

Section Root.
Context `{Platform} {St : Type} {OS : ObjectStore St} {OSok : ObjectStoreOk St} `{Blake3} {CS : ContentStoreOk St}.
Context {L : Type} {RL : RefStore L} {RLok : RefStoreOk L}.
Context {JE : Json TreeEntry} {JP : Json TreePage} {JT : Json Tree} {JTok : JsonOk Tree}.
Context {JB : Json Blob} {JBok : JsonOk Blob} {JX : Json Xattrs} {JXok : JsonOk Xattrs} {JS : Json Snapshot} {HX : Hex}.
Variable reading : Place → Disk → list (Res bytes) * Disk.
Variable wall : nat → Z.
Variable device : Z.
Variable linked_outside : Z → bool.
Variable workspace_id : bytes.
Variable store_root : option Place.
Variable generation : bytes.
Variables rounds fuel depth : nat.

(** No transaction is open. *)
Definition idle (s : Session St L) : Prop := ∀ x, index s = Some x → PathIndex.saved x = None.
(** The index lists what [f] shows, [root] is its tree, and the store holds it. *)
Record indexed (f : View) (root : ObjectId) (s : Session St L) : Prop := {
  ix_placed : well_placed f;
  ix_lists : ∃ x, index s = Some x ∧ PathIndex.saved x = None ∧ PathIndex.state (PathIndex.tables x) = Some (root, generation)
    ∧ exact f (PathIndex.rows (PathIndex.tables x));
  ix_holds : holds fuel depth (store (work s)) root f;
  ix_written : ∃ es, writes (St := St) rounds es root ∧ ∀ e, e ∈ es ↔ f [name e] = Some e;
}.

Lemma begin_full_rules p : ∃ p', begin_full_capture p = (Ok (), p') ∧ rules p' = rules p.
Proof. unfold begin_full_capture. eexists. split; [done |]. done. Qed.

Definition started (x : PathIndex.PathIndex) : PathIndex.PathIndex := PathIndex.mkIndex (PathIndex.tables x) (Some (PathIndex.tables x)).
Definition ended (root : ObjectId) (x : PathIndex.PathIndex) : PathIndex.PathIndex :=
  PathIndex.mkIndex (PathIndex.mkTables (PathIndex.rows (PathIndex.tables x)) (PathIndex.links (PathIndex.tables x)) (Some (root, generation))) None.
Definition with_index (x : PathIndex.PathIndex) (s : Session St L) : Session St L :=
  mkSession (work s) (Some x) (catalog s) (policy s) (paths_head s) (ref_log s).
Lemma attempt_ok (n : nat) message (walk : M (Session St L) ObjectId) s x root s1 x1 :
  index s = Some x → PathIndex.saved x = None → walk (with_index (started x) s) = (Ok root, s1) →
  index s1 = Some x1 → is_Some (PathIndex.saved x1) →
  attempts generation (S n) message walk s = (Ok root, with_index (ended root x1) s1).
Proof.
  intros Hx Hs Hw Hx1 [t Ht]. cbn [attempts]. rewrite (M_bind_run _ _ _ () (with_index (started x) s)).
  2: { unfold on_index. rewrite Hx. unfold PathIndex.begin_. rewrite get_bind. unfold PathIndex.transaction_active. rewrite Hs. done. }
  rewrite (try_bind _ _ _ _ _ Hw). cbn iota beta.
  erewrite M_bind_run by (unfold on_index; rewrite Hx1; done). cbn.
  erewrite M_bind_run; [done |]. unfold on_index; cbn. unfold PathIndex.commit. rewrite get_bind.
  unfold PathIndex.transaction_active. cbn. by rewrite Ht.
Qed.

Section Whole.
Variable d : Disk.
Variable f : View.
Variable root : ObjectId.
Variable pol : CapturePolicy.
Hypothesis Hcap : captured (St := St) store_root rounds depth pol d f root.
Hypothesis Hnames : names_ok d.
Hypothesis Hfuel : ∀ p, dir_of f p → (2 * (rounds + length (entries_in store_root pol d f p)) + 3 < fuel)%nat.

Lemma captured_indexed s x :
  index s = Some x → PathIndex.saved x = None → PathIndex.state (PathIndex.tables x) = Some (root, generation) → exact f (PathIndex.rows (PathIndex.tables x)) →
  (∀ q e, f q = Some e → kind e = Directory → dir_node store_root fuel pol d f (store (work s)) q e) →
  (∃ h, (2 * (h + length (entries_in store_root pol d f [])) + 3 < fuel)%nat ∧ node h (store (work s)) root (entries_in store_root pol d f [])) →
  indexed f root s.
Proof.
  intros Hx Hsv Hst Hr Hdirs (h & Hh & Hnode). constructor.
  - eapply (view_placed store_root rounds depth pol d f root Hcap Hnames).
  - by exists x.
  - eapply (holds_ext _ _ _ _ (sub f [])).
    { intros [|y q]; [| done]. by rewrite (cp_nil _ _ _ _ _ _ _ Hcap). }
    eapply (captured_holds store_root rounds fuel depth pol d f root Hcap Hnames _ depth [] root h); [by left | | | done | done | apply Hcap].
    + intros q Hq _. cbn. rewrite Nat.add_0_r. by apply (cp_nested _ _ _ _ _ _ _ Hcap).
    + intros q e _. apply Hdirs.
  - exists (entries_in store_root pol d f []). split; [apply Hcap |]. intros e.
    apply (elem_of_entries store_root rounds depth pol d f root Hcap Hnames []).
Qed.
Lemma place_dir_node s q e : place_ok store_root rounds pol d f s q → f q = Some e → kind e = Directory → dir_node store_root fuel pol d f s q e.
Proof.
  intros (i & Hi & _ & Hn) He Hk.
  destruct (view_place store_root rounds depth pol d f root Hcap (names_valid d Hnames) q e He) as (_ & _ & _ & j & _ & Hj & _ & Hk').
  rewrite Hi in Hj. injection Hj as <-. destruct (Hn (proj1 Hk' Hk)) as (e' & t & h & He' & Ht & Hh & Hnode). rewrite He in He'. injection He' as <-.
  exists t, h. split_and!; [done | | done]. specialize (Hfuel q ltac:(right; eauto)). lia.
Qed.

Hypothesis Hstill : still reading.
Hypothesis Hone : one_inode d.

Lemma full_walk_ok (s : Session St L) : ready wall device workspace_id pol d s →
  ∃ s', full_walk reading wall device linked_outside workspace_id store_root rounds depth s = (Ok root, s')
    ∧ ready wall device workspace_id pol d s' ∧ extends (store (work s)) (store (work s'))
    ∧ paths_head s' = paths_head s ∧ same_heads (catalog s) (catalog s')
    ∧ (∃ x x', index s = Some x ∧ index s' = Some x' ∧ PathIndex.saved x' = PathIndex.saved x ∧ exact f (PathIndex.rows (PathIndex.tables x')))
    ∧ (∀ q e, f q = Some e → place_ok store_root rounds pol d f (store (work s')) q)
    ∧ ∃ h, (h ≤ rounds)%nat ∧ node h (store (work s')) root (entries_in store_root pol d f []).
Proof.
  intros Hr. destruct (rd_index _ _ _ _ _ _ Hr) as [x Hx]. unfold full_walk.
  set (s1 := with_index (PathIndex.mkIndex PathIndex.no_tables (PathIndex.saved x)) s).
  rewrite (M_bind_run _ _ _ () s1) by (unfold on_index; by rewrite Hx).
  assert (ready wall device workspace_id pol d s1) as Hr1 by (destruct Hr as [H1 H2 H3 H4]; by constructor).
  assert (∀ q e, f q = Some e → below [] q) as Hbelow.
  { intros q e He. split; [apply prefix_nil |]. intros ->. by rewrite (cp_nil _ _ _ _ _ _ _ Hcap) in He. }
  pose proof (names_valid d Hnames) as Hval.
  assert (walks (L := L) wall device workspace_id store_root rounds pol d f
            (capture_directory reading wall device linked_outside workspace_id store_root rounds depth) [] root) as Hwalk.
  { apply (capture_directory_ok wall device workspace_id store_root rounds depth pol d f root Hcap Hval
             reading linked_outside Hstill Hone depth [] root); [by left | | apply Hcap].
    intros q Hq _. cbn. rewrite Nat.add_0_r. by apply (cp_nested _ _ _ _ _ _ _ Hcap). }
  destruct (Hwalk s1 Hr1) as (s2 & Hrun & Ha & Hnode).
  exists s2. split; [exact Hrun |]. split; [apply Ha |]. split; [exact (af_extends _ _ _ _ _ _ _ _ _ _ _ Ha) |].
  split; [exact (af_paths_head _ _ _ _ _ _ _ _ _ _ _ Ha) |]. split; [exact (af_heads _ _ _ _ _ _ _ _ _ _ _ Ha) |]. split.
  - destruct (af_index _ _ _ _ _ _ _ _ _ _ _ Ha) as (y & x' & Hy & Hx' & Hs & _ & Hrows). injection Hy as <-.
    exists x, x'. split_and!; [done.. |]. apply (rows_set_exact store_root rounds depth pol d f root Hcap Hnames).
    eapply (rows_set_iff store_root rounds depth pol d f root Hcap Hval (below [])); [| exact Hrows].
    intros q e He. split; [done |]. intros _. by eapply Hbelow.
  - split; [| done]. intros q e He. eapply (af_places _ _ _ _ _ _ _ _ _ _ _ Ha); [by eapply Hbelow | exact He].
Qed.

Lemma capture_root_retry_ok (s : Session St L) rs : says (ref_log s) rs →
  disk (work s) = d → rules (policy s) = rules pol → cache_right wall device workspace_id (store (work s)) d (catalog s) → idle s →
  ∃ s', capture_root_retry reading wall device linked_outside workspace_id store_root generation rounds fuel depth s = (Ok root, s')
    ∧ ready wall device workspace_id pol d s' ∧ indexed f root s' ∧ (∀ q e, f q = Some e → place_ok store_root rounds pol d f (store (work s')) q)
    ∧ extends (store (work s)) (store (work s')) ∧ same_heads (catalog s) (catalog s').
Proof.
  intros Hlog H1 H2 H3 Hidle. unfold capture_root_retry.
  destruct (begin_full_rules (policy s)) as (p' & Hp & Hrules).
  rewrite (M_bind_run _ _ _ () (mkSession (work s) (index s) (catalog s) p' (paths_head s) (ref_log s))) by (unfold on_policy; by rewrite Hp).
  rewrite (M_bind_run _ _ _ () (mkSession (work s) (index s) (catalog s) p' (Some (b_ "invalid" ++ [Byte.x0a])) (ref_log s))) by done.
  set (s2 := mkSession _ _ _ _ _ _).
  assert (∃ x l, PathIndex.saved x = None ∧ open_path_index generation fuel depth false s2 = (Ok (), with_index x (with_log l s2))) as (x & l & Hx & Hopen).
  { unfold open_path_index. rewrite get_bind. unfold with_index. cbn [index s2]. destruct (index s) as [x|] eqn:Ex.
    - exists x, (ref_log s). split; [by apply Hidle | done].
    - destruct (workspace_head_run s2 rs Hlog) as (l & Hrun & _). rewrite (M_bind_run _ _ _ _ _ Hrun). by exists PathIndex.new_index, l. }
  rewrite (M_bind_run _ _ _ _ _ Hopen). clear Hopen.
  destruct (full_walk_ok (with_index (started x) (with_index x (with_log l s2)))) as (s4 & Hwalk & Hr4 & He4 & _ & Hh4 & (x1 & x4 & Ex1 & Hx4 & Hsv & Hrows) & Hpl & h & Hh & Hnode).
  { constructor; cbn; [done | by rewrite Hrules | done | by eexists]. }
  injection Ex1 as <-. cbn in Hsv. eexists. split; [eapply (attempt_ok 2); [done | done | exact Hwalk | done | by rewrite Hsv] |].
  destruct Hr4 as [R1 R2 R3 R4]. split; [constructor; cbn; [done | done | done | by eexists] |]. split; [| done].
  eapply captured_indexed; [done | done | done | exact Hrows | |].
  - intros q e He Hk. apply place_dir_node; [by eapply Hpl | done | done].
  - exists h. split; [| done]. specialize (Hfuel [] ltac:(by left)). lia.
Qed.
End Whole.
(** What a capture needs of the session and the disk it starts with. *)
Record capturable (s : Session St L) : Prop := {
  cb_names : names_ok (disk (work s));
  cb_inodes : one_inode (disk (work s));
  cb_cache : cache_right wall device workspace_id (store (work s)) (disk (work s)) (catalog s);
  cb_idle : idle s;
}.
(** Enough rounds to read every directory back. *)
Definition readable (pol : CapturePolicy) (d : Disk) (f : View) : Prop :=
  ∀ p, dir_of f p → (2 * (rounds + length (entries_in store_root pol d f p)) + 3 < fuel)%nat.
Definition empty_fits : Prop := blen (to_vec (mkTree [] [])) ≤ MAX_OBJECT_LEN.

(** [e] is what is recorded of [i], and the store holds what it names. *)
Definition noted (s : St) (q : Place) (i : Inode) (e : TreeEntry) : Prop :=
  (∃ t, entry_of q i t = Some e) ∧ storable i = true ∧ recorded s i ∧ 0 ≤ (mtime i).2.
Lemma noted_extends s s' q i e : extends s s' → noted s q i e → noted s' q i e.
Proof. intros He (Ht & Hs & Hr & Hm). split_and!; try done. by eapply recorded_extends. Qed.
Lemma noted_shows s q i e : noted s q i e → inode_shows s i e.
Proof. intros ([t Ht] & _ & Hr & Hm). by eapply recorded_shows. Qed.

(** Every entry is that of an inode once captured, with what it names stored. *)
Definition kept_whole (s : St) (f : View) : Prop := ∀ p e, f p = Some e → ∃ i, noted s p i e.
Lemma kept_extends s s' f : extends s s' → kept_whole s f → kept_whole s' f.
Proof. intros He Hf p e Hp. destruct (Hf p e Hp) as [i Hi]. exists i. by eapply noted_extends. Qed.

#[local] Abbreviation capture := (capture_root_retry reading wall device linked_outside workspace_id store_root generation rounds fuel depth).
#[local] Abbreviation view s0 s := (view_of store_root rounds depth s0 (policy s) (disk (work s))).
#[local] Abbreviation reference s0 s := (tree_of store_root rounds depth s0 (policy s) (disk (work s)) []).

Lemma capturable_after s s' pol f root :
  capturable s → ready wall device workspace_id pol (disk (work s)) s' → indexed f root s' → capturable s'.
Proof.
  intros [H1 H2 H3 H4] [R1 R2 R3 R4] Hix. constructor; rewrite ?R1; try done.
  intros y Hy. destruct (ix_lists _ _ _ Hix) as (x & Hx & Hs & _). rewrite Hx in Hy. by injection Hy as <-.
Qed.

Lemma capture_full_run s rs s0 root : says (ref_log s) rs →
  still reading → empty_fits → capturable s → reference s0 s = Ok root →
  readable (policy s) (disk (work s)) (view s0 s) →
  ∃ s', capture s = (Ok root, s') ∧ disk (work s') = disk (work s) ∧ extends (store (work s)) (store (work s'))
    ∧ indexed (view s0 s) root s'
    ∧ (∀ q e, view s0 s q = Some e → ∃ i, nodes (disk (work s)) !! q = Some i ∧ inode_shows (store (work s')) i e)
    ∧ capturable s' ∧ says (ref_log s') rs ∧ rules (policy s') = rules (policy s)
    ∧ Catalog.saved (catalog s') = Catalog.saved (catalog s)
    ∧ (∀ q e, view s0 s q = Some e → ∃ i, nodes (disk (work s)) !! q = Some i ∧ noted (store (work s')) q i e).
Proof.
  intros Hlog Hstill Hempty Hc Href Hread. pose proof (captured_of store_root rounds Hempty depth s0 (policy s) (disk (work s)) root Href) as Hcap.
  pose proof Hc as [H1 H2 H3 H4].
  destruct (capture_root_retry_ok _ _ _ _ Hcap H1 Hread Hstill H2 s rs Hlog) as (s' & Hrun & Hr & Hix & Hpl & He & _); [done.. |].
  exists s'. split; [done |]. split; [apply Hr |]. split; [done |]. split; [done |].
  pose proof (leaves_full reading wall device linked_outside workspace_id store_root generation rounds fuel depth s rs Hlog) as [Hl Hsv].
  rewrite Hrun in Hl, Hsv. assert (∀ q e, view s0 s q = Some e → ∃ i, nodes (disk (work s)) !! q = Some i ∧ noted (store (work s')) q i e) as Hnoted.
  { intros q e Hq. destruct (Hpl q e Hq) as (i & Hi & Hrec & _). exists i. split; [done |].
    destruct (cp_some _ _ _ _ _ _ _ Hcap q e Hq) as (_ & i' & _ & Hi' & Hst & Ho). rewrite Hi in Hi'. injection Hi' as <-.
    split_and!; [| done | done | by apply (H1 q i)]. destruct (is_folder i); [destruct Ho as (t & ? & _); eauto | eauto]. }
  split; [| split_and!; [by eapply capturable_after | done | apply Hr | done | done]].
  intros q e Hq. destruct (Hnoted q e Hq) as (i & Hi & Hn). exists i. split; [done | by eapply noted_shows].
Qed.

(** C8 A full capture of a still disk answers the tree of the reference, whatever
    the cache and the index held before; the store then holds that tree and the
    content of every file in it, and the index lists exactly its entries. *)
Theorem capture_full_spec s rs s0 root : says (ref_log s) rs →
  still reading → empty_fits → capturable s → reference s0 s = Ok root →
  readable (policy s) (disk (work s)) (view s0 s) →
  ∃ s', capture s = (Ok root, s') ∧ disk (work s') = disk (work s) ∧ extends (store (work s)) (store (work s'))
    ∧ indexed (view s0 s) root s'
    ∧ (∀ q e, view s0 s q = Some e → ∃ i, nodes (disk (work s)) !! q = Some i ∧ inode_shows (store (work s')) i e)
    ∧ capturable s' ∧ says (ref_log s') rs.
Proof.
  intros Hlog H1 H2 H3 H4 H5. destruct (capture_full_run s rs s0 root) as (s' & ? & ? & ? & ? & ? & ? & ? & _); [done.. |]. by exists s'.
Qed.

(** C7 The cache is sound as time goes by: a capture with the rows of earlier ones,
    of a disk that has changed since as a kernel lets it change, answers the tree
    of the reference for the disk as it is now. *)
Theorem recapture_spec s rs s0 root d' : says (ref_log s) rs →
  wall_close wall → honest (disk (work s)) d' → names_ok d' → one_inode d' →
  still reading → empty_fits → capturable s →
  let s1 := mkSession (mkWork (store (work s)) d') (index s) (catalog s) (policy s) (paths_head s) (ref_log s) in
  reference s0 s1 = Ok root → readable (policy s) d' (view s0 s1) →
  ∃ s', capture s1 = (Ok root, s') ∧ indexed (view s0 s1) root s'
    ∧ (∀ q e, view s0 s1 q = Some e → ∃ i, nodes d' !! q = Some i ∧ inode_shows (store (work s')) i e).
Proof.
  intros Hlog Hw Hd Hn Hone Hstill Hempty [H1 H2 H3 H4] s1 Href Hread.
  destruct (capture_full_run s1 rs s0 root Hlog Hstill Hempty) as (s' & Hrun & _ & _ & Hh & Hs & _); [| done | done | by exists s'].
  constructor; cbn; try done. by eapply cache_right_honest.
Qed.
End Root.
