(* ===== verification/DeltaPaths.v ===== *)
(** * DeltaPaths: the paths an incremental capture works through

    The parents of a hint, the order the directories above the hints are rebuilt
    in, and what the index reads back of a directory. *)

From S2P Require Import Prelude Model Tree TreeTheory Bundle Paths Disk Files Policy PathIndexTheory Capture CaptureSpec.
From S2P Require PathIndex.
#[local] Open Scope Z_scope.
#[local] Abbreviation View := (Place → option TreeEntry).

(** ** Parents *)

Lemma rposition_none l : slash ∉ l → rposition l = None.
Proof.
  induction l as [|x l IH]; intros Hn; [done |]. cbn. rewrite IH by (intros ?; apply Hn; by right).
  rewrite decide_False; [done |]. intros ->. apply Hn. left.
Qed.
Lemma rposition_last l nm : slash ∉ nm → rposition (l ++ slash :: nm) = Some (length l).
Proof.
  intros Hn. induction l as [|x l IH]; cbn.
  - by rewrite rposition_none, decide_True.
  - by rewrite IH.
Qed.
Lemma split_parent_raw p nm : valid_place (p ++ [nm]) → split_parent (raw (p ++ [nm])) = (raw p, nm).
Proof.
  intros [Hp Hn]%valid_place_snoc. apply valid_no_slash in Hn. unfold split_parent.
  destruct (decide (p = [])) as [->|Hne].
  - change (raw ([] ++ [nm])) with nm. by rewrite rposition_none.
  - unfold raw. rewrite join_snoc by done. rewrite rposition_last by done. f_equal.
    + apply take_app_length.
    + change (slash :: nm) with ([slash] ++ nm). rewrite app_assoc, drop_app_length'; [done |]. rewrite length_app. cbn. lia.
Qed.
(** The last component of a path keeps [Path::parent] from taking more off. *)
Lemma trim_front_raw p : valid_place p → trim_front (reverse (raw p)) = reverse (raw p).
Proof.
  intros Hv. destruct (place_cases p) as [->|(q & nm & ->)]; [done |]. apply valid_place_snoc in Hv as [Hq Hn].
  apply validate_name_ok in Hn as (Hne & Hdot & _ & _ & Hs).
  assert (∃ pre, raw (q ++ [nm]) = pre ++ nm ∧ (pre = [] ∨ last pre = Some slash)) as (pre & -> & _).
  { destruct (decide (q = [])) as [->|Hqn]; [by exists []; split; [| left] |]. exists (raw q ++ [slash]). split; [| right; apply last_snoc].
    unfold raw. rewrite join_snoc by done. by rewrite <- app_assoc. }
  rewrite reverse_app. destruct nm as [|x nm _] using rev_ind; [done |]. rewrite reverse_snoc. cbn [app trim_front].
  rewrite decide_False by (intros ->; apply Hs, elem_of_app; right; left).
  destruct nm as [|y nm _] using rev_ind.
  - cbn [reverse rev_append app]. destruct (reverse pre) as [|z l]; [done |]. rewrite decide_False; [done |]. intros [-> _]. by apply Hdot.
  - rewrite reverse_snoc. cbn [app]. rewrite decide_False; [done |]. intros [_ ->]. apply Hs, elem_of_app. left. apply elem_of_app. right. left.
Qed.
Lemma relative_parent_raw p : valid_place p → relative_parent (raw p) = raw (parent p).
Proof.
  intros Hv. destruct (place_cases p) as [->|(q & nm & ->)]; [done |]. unfold relative_parent.
  rewrite split_parent_raw, parent_snoc by done. cbn [fst]. apply valid_place_snoc in Hv as [Hq _].
  by rewrite trim_front_raw, reverse_involutive.
Qed.
Lemma path_depth_raw p : valid_place p → path_depth (raw p) = length p.
Proof. intros Hv. unfold path_depth. by rewrite components_raw, length_map. Qed.

Lemma raw_length p : valid_place p → (length p ≤ length (raw p))%nat.
Proof.
  intros Hv. induction p as [|nm p IH] using rev_ind; [cbn; lia |]. pose proof Hv as Hv'. apply valid_place_snoc in Hv' as [Hp Hn].
  specialize (IH Hp). rewrite length_app. destruct (decide (p = [])) as [->|Hne].
  - change (raw ([] ++ [nm])) with nm. apply valid_not_nil in Hn. destruct nm; [done |]. cbn. lia.
  - unfold raw in *. rewrite join_snoc, length_app by done. cbn. lia.
Qed.
Lemma elem_of_parents n : ∀ p x, valid_place p → p ≠ [] → (length p ≤ n)%nat →
  x ∈ parents n (raw p) ↔ ∃ a, a `prefix_of` p ∧ a ≠ p ∧ x = raw a.
Proof.
  induction n as [|n IH]; intros p x Hv Hne Hn; [destruct p; [done | cbn in Hn; lia] |]. cbn [parents].
  rewrite relative_parent_raw by done. pose proof (valid_prefix _ _ (parent_prefix p) Hv) as Hvp. rewrite elem_of_cons. split.
  - intros [->|Hx]; [exists (parent p); split_and!; [apply parent_prefix | by apply parent_ne | done] |].
    case_bool_decide as E; [by apply not_elem_of_nil in Hx |]. assert (parent p ≠ []) as Hpn by (intros Ep; by rewrite Ep in E).
    apply IH in Hx as (a & Ha & Hna & ->); [| done | done |].
    + apply prefix_parent in Ha as Ha'; [| done]. exists a. split_and!; [apply Ha' | apply Ha' | done].
    + destruct (place_cases p) as [->|(q & nm & ->)]; [done |]. rewrite parent_snoc. rewrite length_app in Hn. cbn in Hn. lia.
  - intros (a & Ha & Hna & ->). destruct (decide (a = parent p)) as [->|Hnp]; [by left |]. right.
    pose proof (strict_prefix_parent a p Ha Hna) as Hap. assert (parent p ≠ []) as Hpn.
    { intros E. apply Hnp. rewrite E in Hap |- *. by apply prefix_nil_inv in Hap. }
    rewrite bool_decide_eq_false_2 by (intros E; by apply raw_nil in E). apply IH; [done | done | |].
    + destruct (place_cases p) as [->|(q & nm & ->)]; [done |]. rewrite parent_snoc. rewrite length_app in Hn. cbn in Hn. lia.
    + by exists a.
Qed.

(** ** The batches of a directory *)

Lemma sorted_app_inv es es' : sorted (es ++ es') → sorted es ∧ sorted es' ∧ ∀ e e', e ∈ es → e' ∈ es' → blt (name e) (name e').
Proof.
  unfold sorted. rewrite map_app. intros Hs. apply StronglySorted_app in Hs as (Hx & Hs1 & Hs2). split_and!; [done.. |].
  intros e e' He He'. apply Hx; by apply list_elem_of_fmap_2.
Qed.
Lemma list_filter_true {A} (P : A → Prop) `{∀ x, Decision (P x)} (l : list A) : (∀ x, x ∈ l → P x) → base.filter P l = l.
Proof.
  induction l as [|x l IH]; intros Hl; [done |]. rewrite filter_cons, decide_True by (apply Hl; left). f_equal. apply IH. intros y Hy. apply Hl. by right.
Qed.
Lemma list_filter_false {A} (P : A → Prop) `{∀ x, Decision (P x)} (l : list A) : (∀ x, x ∈ l → ¬ P x) → base.filter P l = [].
Proof.
  induction l as [|x l IH]; intros Hl; [done |]. rewrite filter_cons, decide_False by (apply Hl; left). apply IH. intros y Hy. apply Hl. by right.
Qed.
Lemma after_batch pre rest : sorted (pre ++ rest) → (∀ e, e ∈ rest → name e ≠ []) →
  base.filter (λ e, blt (default [] (name <$> last pre)) (name e)) (pre ++ rest) = rest.
Proof.
  intros Hs Hne. apply sorted_app_inv in Hs as (Hs & _ & Hlt). rewrite filter_app.
  assert (base.filter (λ e, blt (default [] (name <$> last pre)) (name e)) rest = rest) as ->.
  { apply list_filter_true. intros e He. destruct (last pre) as [l|] eqn:E; cbn.
    - apply Hlt; [by apply last_Some_elem_of | done].
    - specialize (Hne e He). destruct (name e); [done | by vm_compute]. }
  assert (base.filter (λ e, blt (default [] (name <$> last pre)) (name e)) pre = []) as ->; [| done].
  apply list_filter_false. intros e He Hb. destruct (last pre) as [l|] eqn:E; [| by apply last_None in E as ->; apply not_elem_of_nil in He].
  cbn in Hb. apply last_Some in E as [pre' ->]. apply sorted_app_inv in Hs as (_ & _ & Hlt').
  apply elem_of_app in He as [He|He%list_elem_of_singleton].
  - apply (blt_asym (name l) (name e)); [done |]. apply Hlt'; [done | left].
  - subst e. by apply blt_irrefl in Hb.
Qed.

(** ** The order of the work *)

#[export] Instance dirty_first_total : Total dirty_first.
Proof.
  intros a b. unfold dirty_first. destruct (total ble a b), (lt_eq_lt_dec (path_depth a) (path_depth b)) as [[|]|]; (left; lia || by auto) || (right; lia || by auto).
Qed.
#[export] Instance dirty_first_trans : Transitive dirty_first.
Proof.
  intros a b c. unfold dirty_first. intros [?|[? ?]] [?|[? ?]]; [left; lia | left; lia | left; lia | right]. split; [lia |]. by trans b.
Qed.

(** A list of the keys of some places. *)
Lemma raw_list (P : Place → Prop) l : (∀ x, x ∈ l → ∃ p, P p ∧ x = raw p) → ∃ ps, l = map raw ps ∧ ∀ p, p ∈ ps → P p.
Proof.
  induction l as [|x l IH]; intros Hl; [exists []; split; [done | by intros ? ?%not_elem_of_nil] |].
  destruct IH as (ps & -> & Hps); [intros y Hy; apply Hl; by right |]. destruct (Hl x ltac:(left)) as (p & Hp & ->).
  exists (p :: ps). split; [done |]. intros q [-> | Hq]%elem_of_cons; auto.
Qed.
Lemma raw_list_elem ps p : valid_place p → Forall valid_place ps → raw p ∈ map raw ps → p ∈ ps.
Proof.
  intros Hp Hps (q & E & Hq)%list_elem_of_fmap. rewrite Forall_forall in Hps. apply raw_inj in E as ->; [done | done | by apply Hps].
Qed.
