(* ===== verification/CaptureDelta.v ===== *)
(** * CaptureDelta: an incremental capture is a full one

    Told the paths that changed, a capture brings the index from the entries of
    the last tree to those the disk has now, one subtree and then one directory at
    a time, and answers the tree a full capture would. *)

From S2P Require Import Prelude Model Tree TreeTheory Bundle Chunker ChunkerTheory Paths Disk Files Policy PolicyTheory DiskTheory PlanTheory RewindTheory Capture.
From S2P Require Import PathIndexTheory CaptureSpec CaptureTheory CaptureWalk RefStore CaptureLog CaptureFull DeltaPaths.
From S2P Require PathIndex Catalog CatalogTheory Refs.
#[local] Open Scope Z_scope.
#[local] Existing Instance PathIndex.Row_eq_dec.

(** [f] at and below [p]. *)
Definition graft (f : View) (p : Place) (v : View) : View := λ q, if decide (p `prefix_of` q) then f q else v q.

Section Delta.
Context `{Platform} {St : Type} {OS : ObjectStore St} {OSok : ObjectStoreOk St} `{Blake3} {CS : ContentStoreOk St}.
Context {L : Type} {RL : RefStore L} {RLok : RefStoreOk L}.
Context {JE : Json TreeEntry} {JP : Json TreePage} {JT : Json Tree} {JTok : JsonOk Tree}.
Context {JB : Json Blob} {JBok : JsonOk Blob} {JX : Json Xattrs} {JXok : JsonOk Xattrs} {JS : Json Snapshot} {HX : Hex}.
Variable reading : Place → Disk → list (Res bytes) * Disk.
Variable wall : nat → Z.
Variable device : Z.
Variable linked_outside : Z → bool.
Variable workspace_id : bytes.
Variable store_root : option Place.
Variable generation : bytes.
Variables rounds fuel depth : nat.
Variable pol : CapturePolicy.
Variable d : Disk.
Variable f : View.
Variable root : ObjectId.
Hypothesis Hcap : captured (St := St) store_root rounds depth pol d f root.
Hypothesis Hnames : names_ok d.
Hypothesis Hfuel : ∀ p, dir_of f p → (2 * (rounds + length (entries_in store_root pol d f p)) + 3 < fuel)%nat.
Hypothesis Hstill : still reading.
Hypothesis Hone : one_inode d.
#[local] Abbreviation entries_in p := (entries_in store_root pol d f p).
#[local] Abbreviation ready := (ready wall device workspace_id pol d).
#[local] Abbreviation after := (after wall device workspace_id store_root rounds pol d f).
#[local] Abbreviation valid_names := (names_valid d Hnames).
#[local] Abbreviation placed_f := (view_placed store_root rounds depth pol d f root Hcap Hnames).

(** ** Where an incremental capture stands

    The index has exactly the entries of [v]; the directories of [f] it is done
    with are in the store. *)
Record stage (v : View) (done : Place → Prop) (s0 s : Session St L) : Prop := {
  sg_ready : ready s;
  sg_extends : extends (store (work s0)) (store (work s));
  sg_placed : well_placed v;
  sg_index : ∃ x0 x, index s0 = Some x0 ∧ index s = Some x ∧ PathIndex.saved x = PathIndex.saved x0
    ∧ PathIndex.state (PathIndex.tables x) = PathIndex.state (PathIndex.tables x0)
    ∧ exact v (PathIndex.rows (PathIndex.tables x));
  sg_dirs q e : done q → f q = Some e → kind e = Directory → dir_node store_root fuel pol d f (store (work s)) q e;
}.

Lemma dir_node_extends s s' q e : extends s s' → dir_node store_root fuel pol d f s q e → dir_node store_root fuel pol d f s' q e.
Proof. intros He (t & h & ? & ? & ?). exists t, h. split_and!; [done.. | by eapply node_extends]. Qed.
Lemma exact_rows_ext v r r' : (∀ k, r' !! k = r !! k) → exact v r → exact v r'.
Proof. intros E Hr k row. rewrite E. apply Hr. Qed.

Lemma stage_after v done s0 s s' : stage v done s0 s → after (λ _, False) s s' → stage v done s0 s'.
Proof.
  intros [H1 H2 H3 (x0 & x & Hx0 & Hx & Hs & Hst & Hr) H5] Ha. constructor.
  - apply Ha.
  - eapply extends_trans; [exact H2 | apply Ha].
  - done.
  - destruct (af_index _ _ _ _ _ _ _ _ _ _ _ Ha) as (y & x' & Hy & Hx' & Hs' & Hst' & Hrows). rewrite Hx in Hy. injection Hy as <-.
    exists x0, x'. split_and!; [done | done | congruence | congruence |]. eapply exact_rows_ext; [| exact Hr].
    intros k. apply Hrows. by intros q e [].
  - intros q e Hq He Hk. eapply dir_node_extends; [apply Ha | by apply H5].
Qed.
Lemma stage_iff v v' (done done' : Place → Prop) s0 s :
  (∀ q, v q = v' q) → (∀ q e, f q = Some e → kind e = Directory → done' q → done q) → stage v done s0 s → stage v' done' s0 s.
Proof.
  intros Ev Ed [H1 H2 H3 (x0 & x & Hx0 & Hx & Hs & Hst & Hr) H5]. constructor; [done | done | | |].
  - intros q e He. apply H3. by rewrite Ev.
  - exists x0, x. split_and!; [done.. |]. by eapply exact_ext.
  - intros q e Hq He Hk. apply H5; [by eapply Ed | done | done].
Qed.
Lemma stage_index v done s0 s (m : M PathIndex.PathIndex ()) v' :
  stage v done s0 s → well_placed v' →
  (∀ x, exact v (PathIndex.rows (PathIndex.tables x)) → ∃ x', m x = (Ok (), x') ∧ PathIndex.saved x' = PathIndex.saved x
    ∧ PathIndex.state (PathIndex.tables x') = PathIndex.state (PathIndex.tables x) ∧ exact v' (PathIndex.rows (PathIndex.tables x'))) →
  ∃ s', on_index m s = (Ok (), s') ∧ stage v' done s0 s'.
Proof.
  intros [H1 H2 H3 (x0 & x & Hx0 & Hx & Hs & Hst & Hr) H5] Hv' Hm. destruct (Hm x Hr) as (x' & Hrun & Hs' & Hst' & Hr').
  unfold on_index. rewrite Hx, Hrun. eexists. split; [done |]. destruct H1 as [R1 R2 R3 R4]. constructor; cbn.
  - by constructor.
  - done.
  - done.
  - exists x0, x'. split_and!; [done | done | congruence | congruence | done].
  - done.
Qed.
Lemma stage_remove v done s0 s p :
  stage v done s0 s → valid_place p → (∀ q a, is_Some (v q) → p `prefix_of` a → a `prefix_of` q → is_Some (v a)) →
  ∃ n s', on_index (PathIndex.remove_subtree (raw p)) s = (Ok n, s') ∧ stage (without p v) done s0 s'.
Proof.
  intros [H1 H2 H3 (x0 & x & Hx0 & Hx & Hs & Hst & Hr) H5] Hp Hc.
  destruct (remove_subtree_ok v x p H3 Hr Hp Hc) as (n & x' & Hrun & Hs' & Hst' & Hr').
  unfold on_index. rewrite Hx, Hrun. eexists _, _. split; [done |]. destruct H1 as [R1 R2 R3 R4]. constructor; cbn.
  - by constructor.
  - done.
  - by apply well_placed_without.
  - exists x0, x'. split_and!; [done | done | congruence | congruence | done].
  - done.
Qed.
Lemma stage_upsert v done s0 s q e :
  stage v done s0 s → f q = Some e →
  ∃ s', on_index (PathIndex.upsert (raw q) (raw (parent q)) e) s = (Ok (), s') ∧ stage (put_at q (Some e) v) done s0 s'.
Proof.
  intros Hsg He. pose proof (placed_f q e He) as (Hne & Hq & Hl). pose proof (sg_placed _ _ _ _ Hsg) as Hv. apply (stage_index v done s0 s _ _ Hsg).
  - intros q' e'. unfold put_at. case_decide as E; [intros [= <-]; by subst q' | apply Hv].
  - intros x Hr. eexists. split; [done |]. split; [done |]. split; [done |]. cbn. by apply upsert_exact.
Qed.
(** What a walk of [p] leaves, where nothing was below it. *)
Lemma stage_walk v done s0 s s' p :
  stage v done s0 s → after (CaptureWalk.below p) s s' → (∀ q, CaptureWalk.below p q → v q = None) →
  stage (λ q, if decide (CaptureWalk.below p q) then f q else v q) (λ q, done q ∨ CaptureWalk.below p q) s0 s'.
Proof.
  intros [H1 H2 H3 (x0 & x & Hx0 & Hx & Hs & Hst & Hr) H5] Ha Hnone. constructor.
  - apply Ha.
  - eapply extends_trans; [exact H2 | apply Ha].
  - intros q e. case_decide; [apply placed_f | apply H3].
  - destruct (af_index _ _ _ _ _ _ _ _ _ _ _ Ha) as (y & x' & Hy & Hx' & Hs' & Hst' & Hrows1 & Hrows2). rewrite Hx in Hy. injection Hy as <-.
    exists x0, x'. split_and!; [done | done | congruence | congruence |]. intros k row. split.
    + intros Hk. assert ((∃ q e, CaptureWalk.below p q ∧ f q = Some e ∧ raw q = k) ∨ (∀ q e, CaptureWalk.below p q → f q = Some e → raw q ≠ k)) as [(q & e & Hb & He & <-)|Hno].
      { destruct (decide (raw (split_on slash k) = k ∧ CaptureWalk.below p (split_on slash k) ∧ is_Some (f (split_on slash k)))) as [(Ek & Hb & e & He)|Hn].
        - left. by exists (split_on slash k), e.
        - right. intros q e Hb He <-. destruct (placed_f q e He) as (Hne & Hq & _). apply Hn. rewrite split_raw by done. split_and!; [done.. | by eexists]. }
      * exists q, e. rewrite decide_True by done. pose proof (Hrows1 q e Hb He) as E. rewrite Hk in E. by injection E as ->.
      * rewrite Hrows2 in Hk by done. apply Hr in Hk as (q & e & He & -> & ->). exists q, e. rewrite decide_False; [done |]. intros Hb. by rewrite (Hnone q Hb) in He.
    + intros (q & e & He & -> & ->). case_decide as Hb; [by apply Hrows1 |]. rewrite Hrows2; [apply Hr; by exists q, e |].
      intros q' e' Hb' He' E. destruct (placed_f q' e' He') as (_ & Hq' & _), (H3 q e He) as (_ & Hq & _). apply raw_inj in E as ->; done.
  - intros q e [Hq|Hq] He Hk.
    + eapply dir_node_extends; [apply Ha | by apply H5].
    + eapply (place_dir_node store_root rounds fuel depth d f root pol Hcap Hnames Hfuel); [| done | done]. by eapply (af_places _ _ _ _ _ _ _ _ _ _ _ Ha).
Qed.

(** ** One hint *)

Lemma view_not_excluded q e : f q = Some e → excludes pol (raw q) = false.
Proof.
  intros He. destruct (placed_f q e He) as (Hne & _ & _). destruct (place_cases q) as [->|(p & nm & ->)]; [done |].
  destruct (cp_parent _ _ _ _ _ _ _ Hcap p nm) as [_ Hin]; [by rewrite He |]. revert Hin. unfold listed, passed_over.
  destruct (tracked_children pol (raw p)); intros [Ha _]%list_elem_of_filter; [destruct Ha as [Ha _] |]; by apply orb_false_iff in Ha as [_ ?].
Qed.
Lemma view_reach q e : f q = Some e → ∃ i, symlink_metadata q d = Ok i ∧ storable i = true ∧ nodes d !! q = Some i ∧ (kind e = Directory ↔ is_folder i = true).
Proof.
  intros He. destruct (view_place store_root rounds depth pol d f root Hcap valid_names q e He) as (_ & _ & _ & i & Hr & Hi & Hs & Hk).
  exists i. split_and!; [by apply metadata_reach | done..].
Qed.
Lemma view_closed q a : is_Some (f q) → a `prefix_of` q → a ≠ [] → is_Some (f a).
Proof. intros [e He] Ha Hne. by eapply (view_over store_root rounds depth pol d f root Hcap valid_names). Qed.
Lemma view_directory q e t : f q = Some e → kind e = Directory → target e = Some t →
  walks (L := L) wall device workspace_id store_root rounds pol d f (capture_directory reading wall device linked_outside workspace_id store_root rounds depth) q t.
Proof.
  intros He Hk Ht. apply (capture_directory_ok wall device workspace_id store_root rounds depth pol d f root Hcap valid_names reading linked_outside Hstill Hone).
  - right. eauto.
  - intros q' Hq' _. pose proof (cp_nested _ _ _ _ _ _ _ Hcap q' Hq'). lia.
  - by eapply (view_target store_root rounds depth pol d f root Hcap valid_names).
Qed.

(** What a hint names is in the tree, excluded, or not there. *)
Definition hint_ok (p : Place) : Prop :=
  valid_place p ∧ p ≠ [] ∧ (is_Some (f p) ∨ excludes pol (raw p) = true ∨ exists_at p d = false).

#[local] Abbreviation changed_path := (changed_path reading wall device linked_outside workspace_id store_root rounds depth).

Lemma stage_table {A} v done s0 s (g : PathIndex.Tables → A) : stage v done s0 s → ∃ a, index_tables g s = (Ok a, s).
Proof.
  intros Hsg. destruct (sg_index _ _ _ _ Hsg) as (x0 & x & _ & Hx & _). exists (g (PathIndex.tables x)).
  unfold index_tables, on_index. rewrite Hx. destruct s. cbn in Hx. subst. done.
Qed.
Lemma stage_add_done v done s0 s p :
  (∀ e, f p = Some e → kind e = Directory → dir_node store_root fuel pol d f (store (work s)) p e) →
  stage v done s0 s → stage v (λ q, done q ∨ q = p) s0 s.
Proof. intros Hd [H1 H2 H3 H4 H5]. constructor; [done.. |]. intros q e [Hq | ->] He Hk; [by apply H5 | by apply Hd]. Qed.
Lemma changed_path_ok v done s0 s p :
  stage v done s0 s → hint_ok p → (∀ q a, is_Some (v q) → p `prefix_of` a → a `prefix_of` q → is_Some (v a)) →
  ∃ b s', changed_path (raw p) s = (Ok b, s') ∧ stage (graft f p v) (λ q, done q ∨ p `prefix_of` q) s0 s'.
Proof.
  intros Hsg (Hp & Hne & Hh) Hc. unfold Capture.changed_path, found_new_link.
  destruct (stage_table v done s0 s (PathIndex.link_identity (raw p)) Hsg) as (before & Hbefore). rewrite (M_bind_run _ _ _ _ _ Hbefore).
  destruct (stage_remove v done s0 s p Hsg Hp Hc) as (n & s1 & Hrun1 & Hsg1). rewrite (M_bind_run _ _ _ _ _ Hrun1).
  rewrite (safe_join_raw p Hp), lift_ok_bind.
  destruct (policy_step wall device workspace_id store_root rounds depth pol d f root Hcap valid_names (raw p) s1 ltac:(apply Hsg1)) as (s2 & Hrun2 & Ha2).
  rewrite (M_bind_run _ _ _ _ _ Hrun2), get_bind. pose proof (stage_after _ _ _ _ _ Hsg1 Ha2) as Hsg2.
  assert (disk (work s2) = d) as Hd2 by apply Hsg2. rewrite Hd2.
  assert (∀ s', stage (graft f p v) (λ q, done q ∨ p `prefix_of` q) s0 s' → ∃ b s'', (found_new_link (raw p) before s') = (Ok b, s'') ∧ stage (graft f p v) (λ q, done q ∨ p `prefix_of` q) s0 s'') as Hend.
  { intros s' Hsg'. unfold found_new_link. destruct (stage_table _ _ _ _ (λ t, negb (bool_decide (PathIndex.link_identity (raw p) t = before)) && PathIndex.link_has_no_known_sibling (raw p) t) Hsg') as (b & ?). eauto. }
  destruct (f p) as [e|] eqn:He.
  - rewrite (view_not_excluded p e He). destruct (view_reach p e He) as (i & Hm & _ & Hi & Hk). unfold exists_at. rewrite Hm. cbn [negb is_ok andb].
    destruct (capture_path_entry_ok wall device workspace_id store_root rounds depth pol d f root Hcap valid_names reading linked_outside Hstill Hone
                (capture_directory reading wall device linked_outside workspace_id store_root rounds depth) p e s2 ltac:(apply Hsg2) He) as (s3 & Hrun3 & Ha3 & Hp3);
      [intros t Hk' Ht; by eapply view_directory |].
    unfold capture_entry. rewrite !M_bind_assoc, (M_bind_run _ _ _ _ _ Hrun3). rewrite relative_parent_raw by done.
    assert (stage (λ q, if decide (CaptureWalk.below p q) then f q else without p v q) (λ q, done q ∨ CaptureWalk.below p q) s0 s3) as Hsg3.
    { apply (stage_walk _ _ _ _ _ _ Hsg2 Ha3). intros q [Hq _]. unfold without. by rewrite decide_True. }
    destruct (stage_upsert _ _ _ _ p e Hsg3 He) as (s4 & Hrun4 & Hsg4). rewrite (M_bind_run _ _ _ _ _ Hrun4). apply Hend.
    assert (extends (store (work s3)) (store (work s4))) as He4.
    { unfold on_index in Hrun4. destruct (index s3); [| done]. injection Hrun4 as <-. by intros ???. }
    apply (stage_add_done _ _ _ _ p) in Hsg4.
    2: { intros e' He' Hk'. eapply dir_node_extends; [exact He4 |].
         eapply (place_dir_node store_root rounds fuel depth d f root pol Hcap Hnames Hfuel); [exact Hp3 | done | done]. }
    eapply stage_iff; [| | exact Hsg4].
    + intros q. unfold put_at, graft, without. destruct (decide (q = p)) as [->|Hqp]; [by rewrite decide_True |].
      destruct (decide (p `prefix_of` q)) as [Hpre|Hpre]; destruct (decide (CaptureWalk.below p q)) as [Hb|Hb]; try done.
      * by destruct Hb.
      * by destruct Hb.
    + intros q e' _ _. unfold CaptureWalk.below. destruct (decide (q = p)); naive_solver.
  - assert (negb (excludes pol (raw p)) && exists_at p d = false) as ->.
    { destruct Hh as [[e He']|[-> | ->]]; [congruence | done | apply andb_false_r]. }
    rewrite mret_bind. apply Hend. assert (∀ q e, p `prefix_of` q → f q ≠ Some e) as Hno.
    { intros q e Hpre E. destruct (view_closed q p) as [? ?]; [by eexists | done | done | congruence]. }
    eapply stage_iff; [| | exact Hsg2].
    + intros q. unfold without, graft. case_decide as Hpre; [| done]. destruct (f q) eqn:E; [by eapply Hno in E | done].
    + intros q e E _ [?|Hpre]; [done |]. by eapply Hno in E.
Qed.

(** ** Every hint *)

Variable f0 : View.
Hypothesis Hclosed0 : ∀ q a, is_Some (f0 q) → a `prefix_of` q → a ≠ [] → is_Some (f0 a).

Definition hinted_by (hs : list Place) (q : Place) : Prop := Exists (λ h, h `prefix_of` q) hs.
#[local] Instance hinted_by_dec hs q : Decision (hinted_by hs q) := _.
(** The old entries, the new ones under the hints. *)
Definition mixed (hs : list Place) : View := λ q, if decide (hinted_by hs q) then f q else f0 q.

Lemma hinted_snoc hs h q : hinted_by (hs ++ [h]) q ↔ hinted_by hs q ∨ h `prefix_of` q.
Proof. unfold hinted_by. rewrite Exists_app, (Exists_cons _ h []), Exists_nil. split; [intros [?|[?|[]]]; by auto | intros [?|?]; by auto]. Qed.
Lemma mixed_snoc hs h q : graft f h (mixed hs) q = mixed (hs ++ [h]) q.
Proof.
  unfold graft, mixed. destruct (decide (h `prefix_of` q)) as [Hh|Hh], (decide (hinted_by (hs ++ [h]) q)) as [Hs|Hs], (decide (hinted_by hs q)) as [Hq|Hq]; try done;
    exfalso; rewrite hinted_snoc in Hs; clear -Hh Hs Hq; tauto.
Qed.
(** Hints come in byte order, so none is below a later one. *)
Lemma mixed_closed hs p : valid_place p → p ≠ [] → (∀ h, h ∈ hs → valid_place h ∧ blt (raw h) (raw p)) →
  ∀ q a, is_Some (mixed hs q) → p `prefix_of` a → a `prefix_of` q → is_Some (mixed hs a).
Proof.
  intros Hp Hne Hlt q a Hq Hpa Haq. assert (a ≠ []) as Hna by (intros ->; by apply prefix_nil_inv in Hpa).
  unfold mixed in *. destruct (decide (hinted_by hs q)) as [Hhq|Hhq].
  - assert (hinted_by hs a) as Hha.
    { apply Exists_exists in Hhq as (h & Hin & Hh). apply Exists_exists. exists h. split; [done |]. destruct (Hlt h Hin) as [Hv Hl].
      destruct (prefix_weak_total h p q) as [Hhp|Hph]; [done | by trans a | by trans p |]. exfalso.
      destruct (decide (p = h)) as [->|Hneq]; [by apply blt_irrefl in Hl |]. apply (blt_asym _ _ Hl). by apply raw_blt. }
    rewrite decide_True by done. by eapply view_closed.
  - rewrite decide_False; [by eapply Hclosed0 |]. intros Hha. apply Hhq. apply Exists_exists in Hha as (h & Hin & Hh).
    apply Exists_exists. exists h. split; [done | by trans a].
Qed.

#[local] Abbreviation changed_loop := (changed_loop reading wall device linked_outside workspace_id store_root rounds depth).

Lemma changed_loop_ok ps : ∀ hs dirty s0 s,
  Forall hint_ok ps → StronglySorted blt (map raw ps) → (∀ h, h ∈ hs → valid_place h ∧ ∀ p, p ∈ ps → blt (raw h) (raw p)) →
  stage (mixed hs) (hinted_by hs) s0 s →
  ∃ o s', changed_loop (map raw ps) dirty s = (Ok o, s') ∧
    match o with
    | None => ∃ v done, stage v done s0 s'
    | Some dirty' => stage (mixed (hs ++ ps)) (hinted_by (hs ++ ps)) s0 s'
                     ∧ dirty' = dirty ++ concat (map (λ p, parents (length (raw p)) (raw p)) ps)
    end.
Proof.
  induction ps as [|p ps IH]; intros hs dirty s0 s Hok Hs Hhs Hsg; cbn [map Capture.changed_loop concat].
  - exists (Some dirty), s. split; [done |]. by rewrite !app_nil_r.
  - apply Forall_cons in Hok as [Hp Hok]. apply StronglySorted_inv in Hs as [Hs Hx]. pose proof Hp as (Hv & Hne & _).
    destruct (changed_path_ok _ _ s0 s p Hsg Hp) as (b & s1 & Hrun1 & Hsg1).
    { apply mixed_closed; [done | done |]. intros h Hh. destruct (Hhs h Hh) as [? Hl]. split; [done |]. apply Hl. left. }
    rewrite (M_bind_run _ _ _ _ _ Hrun1). destruct b; [exists None, s1; split; [done | by eexists _, _] |].
    assert (stage (mixed (hs ++ [p])) (hinted_by (hs ++ [p])) s0 s1) as Hsg2.
    { eapply stage_iff; [apply mixed_snoc | | exact Hsg1]. intros q e _ _. by rewrite hinted_snoc. }
    destruct (IH (hs ++ [p]) (dirty ++ parents (length (raw p)) (raw p)) s0 s1 Hok Hs) as (o & s' & Hrun & Ho); [| exact Hsg2 |].
    { intros h [Hh | ->%list_elem_of_singleton]%elem_of_app.
      - destruct (Hhs h Hh) as [? Hl]. split; [done |]. intros p' Hp'. apply Hl. by right.
      - split; [done |]. intros p' Hp'. rewrite Forall_forall in Hx. by apply Hx, list_elem_of_fmap_2. }
    exists o, s'. rewrite Hrun. split; [done |]. destruct o as [dirty'|]; [| done]. by rewrite <- !app_assoc in Ho.
Qed.

(** ** One directory *)

Lemma stage_tables v done s0 s : stage v done s0 s → ∃ x, index s = Some x ∧ exact v (PathIndex.rows (PathIndex.tables x))
  ∧ ∀ A (g : PathIndex.Tables → A), index_tables g s = (Ok (g (PathIndex.tables x)), s).
Proof.
  intros Hsg. destruct (sg_index _ _ _ _ Hsg) as (x0 & x & _ & Hx & _ & _ & Hr). exists x. split_and!; [done.. |].
  intros A g. unfold index_tables, on_index. rewrite Hx. destruct s. cbn in Hx. by subst.
Qed.
#[local] Abbreviation objects_step := (objects_step wall device workspace_id store_root rounds depth pol d f root Hcap valid_names).

Lemma children_fit v r p es :
  well_placed v → exact v r → valid_place p → sorted es → (∀ e, e ∈ es → v (p ++ [name e]) = Some e) → (length es ≤ base.size r)%nat.
Proof.
  intros Hv Hr Hp Hs Hes. set (l := map (λ n, raw (p ++ [n])) (map name es)).
  assert (NoDup l) as Hnd.
  { apply NoDup_ListNoDup. apply (Finite.Injective_map_NoDup_in (λ n, raw (p ++ [n]))).
    - intros n n' (e & <- & He%list_elem_of_In)%in_map_iff (e' & <- & He'%list_elem_of_In)%in_map_iff E.
      destruct (Hv _ _ (Hes e He)) as (_ & Hq & _), (Hv _ _ (Hes e' He')) as (_ & Hq' & _).
      apply raw_inj in E; [| done..]. by apply app_inj_tail in E as [_ ?].
    - apply NoDup_ListNoDup. clear -Hs. unfold sorted in Hs. induction Hs as [|n l _ IH Hx]; [constructor |]. constructor; [| done].
      intros Hin. rewrite Forall_forall in Hx. apply (blt_irrefl n), Hx, Hin. }
  assert (list_to_set l ⊆@{gset bytes} dom r) as Hsub.
  { intros k (n & <- & (e & <- & He%list_elem_of_In)%in_map_iff)%elem_of_list_to_set%list_elem_of_In%in_map_iff. apply elem_of_dom.
    exists (row_of (p ++ [name e]) e). apply Hr. exists (p ++ [name e]), e. split; [by apply Hes | done]. }
  apply subseteq_size in Hsub. rewrite size_list_to_set in Hsub by done. rewrite size_dom in Hsub. unfold l in Hsub. by rewrite !length_map in Hsub.
Qed.

Lemma rebuild_loop_ok n : ∀ v done s0 s p pre rest b b',
  stage v done s0 s → valid_place p → sorted (pre ++ rest) → (∀ e, e ∈ pre ++ rest ↔ v (p ++ [name e]) = Some e) →
  (length rest < n)%nat → pushes (St := St) b rest b' → builds (store (work s)) b pre →
  ∃ s', rebuild_loop n (raw p) (name <$> last pre) b s = (Ok b', s') ∧ stage v done s0 s' ∧ builds (store (work s')) b' (pre ++ rest).
Proof.
  induction n as [|n IH]; intros v done s0 s p pre rest b b' Hsg Hp Hs Hes Hn Hpush Hb; [lia |]. cbn [rebuild_loop].
  destruct (stage_tables _ _ _ _ Hsg) as (x & Hx & Hr & Htab). rewrite (M_bind_run _ _ _ _ _ (Htab _ _)).
  pose proof (sg_placed _ _ _ _ Hsg) as Hv.
  rewrite (children_after_ok v Hv (PathIndex.tables x) Hr p Hp (pre ++ rest) Hs Hes), after_batch; [| done |].
  2: { intros e He. destruct (Hv (p ++ [name e]) e) as (_ & Hq & _); [apply Hes, elem_of_app; by right |].
       apply valid_place_snoc in Hq as [_ Hq]. by apply valid_not_nil. }
  set (batch := take PathIndex.CHILD_BATCH rest). assert (rest = batch ++ drop PathIndex.CHILD_BATCH rest) as Erest by (unfold batch; by rewrite take_drop).
  destruct (last batch) as [e|] eqn:Elast.
  - rewrite Erest in Hpush. apply pushes_app in Hpush as (b1 & Hp1 & Hp2).
    destruct (pushes_run batch b b1 (store (work s)) Hp1) as (st1 & Hrun1). destruct (push_all_ok _ _ _ _ _ _ Hb Hrun1) as [Hb1 He1].
    destruct (objects_step _ _ st1 s ltac:(apply Hsg) Hrun1 He1) as (s1 & Hrun & Ha & Hst1). rewrite (M_bind_run _ _ _ _ _ Hrun).
    destruct (IH v done s0 s1 p (pre ++ batch) (drop PathIndex.CHILD_BATCH rest) b1 b') as (s2 & Hrun2 & Hsg2 & Hb2).
    + by eapply stage_after.
    + done.
    + by rewrite <- app_assoc, <- Erest.
    + by rewrite <- app_assoc, <- Erest.
    + rewrite length_drop. assert (0 < length rest)%nat by (unfold batch in Elast; destruct rest; [by rewrite take_nil in Elast | cbn; lia]). assert (0 < PathIndex.CHILD_BATCH)%nat by (vm_compute; lia). lia.
    + done.
    + by rewrite Hst1.
    + exists s2. rewrite last_app, Elast in Hrun2. split; [exact Hrun2 |]. split; [done |]. by rewrite <- app_assoc, <- Erest in Hb2.
  - apply last_None in Elast. assert (rest = []) as ->.
    { destruct rest as [|y rest]; [done |]. exfalso. revert Elast. unfold batch, PathIndex.CHILD_BATCH. by rewrite <- (Nat2Z.id 512). }
    cbn [pushes] in Hpush. subst b'. exists s. rewrite app_nil_r. done.
Qed.
Lemma rebuild_ok v done s0 s p es t :
  stage v done s0 s → valid_place p → sorted es → (∀ e, e ∈ es ↔ v (p ++ [name e]) = Some e) → writes (St := St) rounds es t →
  ∃ s' h, rebuild_indexed_directory rounds (raw p) s = (Ok t, s') ∧ stage v done s0 s' ∧ (h ≤ rounds)%nat ∧ node h (store (work s')) t es.
Proof.
  intros Hsg Hp Hs Hes (b & Hpush & Hfin). unfold rebuild_indexed_directory.
  destruct (stage_tables _ _ _ _ Hsg) as (x & Hx & Hr & Htab). rewrite (M_bind_run _ _ _ _ _ (Htab _ _)).
  destruct (rebuild_loop_ok (S (base.size (PathIndex.rows (PathIndex.tables x)))) v done s0 s p [] es Builder_new b Hsg Hp Hs Hes) as (s1 & Hrun1 & Hsg1 & Hb1);
    [| done | apply builds_new |].
  { pose proof (children_fit v _ p es (sg_placed _ _ _ _ Hsg) Hr Hp Hs ltac:(intros e; apply Hes)). lia. }
  rewrite (M_bind_run _ _ _ _ _ Hrun1). unfold finish_tree. destruct (Hfin (store (work s1))) as (st2 & Hf2).
  destruct (finish_ok _ _ _ _ _ _ Hb1 Hf2) as [(h & Hh & Hnode) He2].
  destruct (objects_step _ _ st2 s1 ltac:(apply Hsg1) Hf2 He2) as (s2 & Hrun2 & Ha2 & Hst2). rewrite (M_bind_run _ _ _ _ _ Hrun2).
  exists s2, h. split; [done |]. split; [by eapply stage_after |]. rewrite Hst2. done.
Qed.

(** ** The directories above *)

(** What is above a hint is a directory of the tree, excluded, or not there. *)
Definition above_ok (a : Place) : Prop := valid_place a ∧ (dir_of f a ∨ excludes pol (raw a) = true ∨ gone d a = true).
Hypothesis Hroot_kept : excludes pol [] = false.

#[local] Abbreviation elem_of_entries := (elem_of_entries store_root rounds depth pol d f root Hcap Hnames).
Lemma view_dir q e : f q = Some e → kind e = Directory → ∃ i t,
  symlink_metadata q d = Ok i ∧ body i = Folder ∧ storable i = true ∧ entry_of q i (Some t) = Some e ∧ target e = Some t
  ∧ writes (St := St) rounds (entries_in q) t.
Proof.
  intros He Hk. destruct (cp_some _ _ _ _ _ _ _ Hcap q e He) as (_ & i & Hr & Hi & Hs & Ho).
  destruct (view_reach q e He) as (i' & Hm & _ & Hi' & Hk'). rewrite Hi in Hi'. injection Hi' as <-. rewrite (proj1 Hk' Hk) in Ho.
  destruct Ho as (t & Ho & Hw). exists i, t. assert (body i = Folder) as Hb by by apply (entry_of_kind _ _ _ _ Ho).
  split_and!; [done | done | done | done | | done]. unfold entry_of in Ho. rewrite Hb in Ho. destruct (metadata_time i). by injection Ho as <-.
Qed.

Lemma directory_entry_ok v done s0 s a e i t :
  stage v done s0 s → symlink_metadata a d = Ok i → body i = Folder → storable i = true → entry_of a i (Some t) = Some e →
  ∃ s', directory_entry a t s = (Ok e, s') ∧ stage v done s0 s' ∧ extends (store (work s)) (store (work s')).
Proof.
  intros Hsg Hm Hb Hs Ho. unfold directory_entry. rewrite get_bind. assert (disk (work s) = d) as -> by apply Hsg. rewrite Hm, lift_ok_bind.
  unfold entry_of in Ho. rewrite Hb in Ho. destruct (metadata_time i) as [secs nanos]. injection Ho as <-.
  unfold storable in Hs. rewrite Hb in Hs. apply Z.leb_le in Hs. destruct (capture_xattrs_ok i (store (work s)) Hs) as (st1 & Hx & He1 & _).
  destruct (objects_step _ _ st1 s ltac:(apply Hsg) Hx He1) as (s1 & Hrun1 & Ha1 & Hst1). rewrite (M_bind_run _ _ _ _ _ Hrun1).
  exists s1. split; [done |]. split; [by eapply stage_after | by rewrite Hst1].
Qed.

Definition root_held (s : Session St L) : Prop := ∃ h, (h ≤ rounds)%nat ∧ node h (store (work s)) root (entries_in []).

Lemma rebuild_view v done s0 s a t :
  stage v done s0 s → valid_place a → dir_of f a → (∀ q, a `prefix_of` q → q ≠ a → v q = f q) → writes (St := St) rounds (entries_in a) t →
  ∃ s' h, rebuild_indexed_directory rounds (raw a) s = (Ok t, s') ∧ stage v done s0 s' ∧ (h ≤ rounds)%nat ∧ node h (store (work s')) t (entries_in a).
Proof.
  intros Hsg Ha Hdir Hset Hw. apply (rebuild_ok v done s0 s a (entries_in a) t Hsg Ha); [by eapply writes_sorted, Hw; exact (store (work s)) | | done].
  intros e. rewrite elem_of_entries, Hset; [done | by apply prefix_app_r |]. intros E. apply (f_equal length) in E. rewrite length_app in E. cbn in E. lia.
Qed.

Lemma stage_gone v done s0 s a :
  stage v done s0 s → valid_place a → f a = None → a ≠ [] → (∀ q, a `prefix_of` q → q ≠ a → v q = f q) →
  ∃ n s', on_index (PathIndex.remove_subtree (raw a)) s = (Ok n, s') ∧ stage (put_at a (f a) v) (λ q, done q ∨ q = a) s0 s'.
Proof.
  intros Hsg Ha Hn Hne Hset. assert (∀ q, a `prefix_of` q → f q = None) as Hno.
  { intros q Hq. destruct (f q) as [e|] eqn:E; [| done]. destruct (view_closed q a) as [? ?]; [by eexists | done | done | congruence]. }
  destruct (stage_remove v done s0 s a Hsg Ha) as (n & s' & Hrun & Hsg').
  { intros q b Hq Hab Hbq. destruct (decide (q = a)) as [->|Hqa].
    - assert (b = a) as ->; [| done]. apply (anti_symm prefix); done.
    - exfalso. rewrite Hset, Hno in Hq by (done || by trans b). by destruct Hq. }
  exists n, s'. split; [done |]. apply stage_add_done; [congruence |]. eapply stage_iff; [| | exact Hsg'].
  - intros q. unfold without, put_at. destruct (decide (q = a)) as [->|Hqa]; [by rewrite decide_True, Hn |].
    destruct (decide (a `prefix_of` q)) as [Hp|Hp]; [| done]. by rewrite Hset, Hno.
  - done.
Qed.

Lemma dirty_directory_ok v done s0 s a tree :
  stage v done s0 s → above_ok a → (∀ q, a `prefix_of` q → q ≠ a → v q = f q) →
  ∃ s', dirty_directory rounds tree (raw a) s = (Ok (if decide (a = []) then root else tree), s')
    ∧ stage (put_at a (f a) v) (λ q, done q ∨ q = a) s0 s' ∧ (a = [] → root_held s').
Proof.
  intros Hsg [Ha Hab] Hset. unfold dirty_directory.
  destruct (policy_step wall device workspace_id store_root rounds depth pol d f root Hcap valid_names (raw a) s ltac:(apply Hsg)) as (s1 & Hrun1 & Ha1).
  rewrite (M_bind_run _ _ _ _ _ Hrun1). pose proof (stage_after _ _ _ _ _ Hsg Ha1) as Hsg1.
  destruct (excludes pol (raw a)) eqn:Eex.
  { assert (a ≠ []) as Hne by (intros ->; change (raw []) with (@nil byte) in Eex; congruence).
    destruct (f a) as [e|] eqn:Hf; [by rewrite (view_not_excluded a e Hf) in Eex |].
    destruct (stage_gone v done s0 s1 a Hsg1 Ha Hf Hne Hset) as (n & s2 & Hrun2 & Hsg2). rewrite (M_bind_run _ _ _ _ _ Hrun2).
    exists s2. rewrite decide_False by done. rewrite <- Hf. split_and!; [done.. |]. by intros ->. }
  rewrite (safe_join_raw a Ha), lift_ok_bind, get_bind. assert (disk (work s1) = d) as -> by apply Hsg1.
  assert (raw a = [] ↔ a = []) as Enil by (split; [by apply raw_nil | by intros ->]).
  destruct Hab as [Hdir|[?|Hg]]; [| congruence |].
  - destruct (decide (a = [])) as [->|Hne].
    + destruct (cp_root _ _ _ _ _ _ _ Hcap) as (i & Hi & Hb). rewrite (metadata_reach d [] i (reach_nil d) Hi).
      unfold is_folder. rewrite Hb. cbn [negb]. destruct (rebuild_view v done s0 s1 [] root Hsg1 Ha Hdir Hset) as (s2 & h & Hrun2 & Hsg2 & Hh & Hnode); [apply Hcap |].
      rewrite (M_bind_run _ _ _ _ _ Hrun2). exists s2. split; [done |]. split; [| intros _; by exists h].
      apply stage_add_done; [intros e He; by rewrite (cp_nil _ _ _ _ _ _ _ Hcap) in He |]. eapply stage_iff; [| | exact Hsg2]; [| done].
      intros q. unfold put_at. case_decide as E; [| done]. subst q. rewrite (cp_nil _ _ _ _ _ _ _ Hcap).
      destruct (v []) as [e|] eqn:Ev; [| done]. by destruct (sg_placed _ _ _ _ Hsg _ _ Ev).
    + destruct Hdir as [?|(e & He & Hk)]; [done |]. destruct (view_dir a e He Hk) as (i & t & Hm & Hb & Hs & Ho & Ht & Hw). rewrite Hm.
      unfold is_folder. rewrite Hb. cbn [negb].
      destruct (rebuild_view v done s0 s1 a t Hsg1 Ha ltac:(right; eauto) Hset Hw) as (s2 & h & Hrun2 & Hsg2 & Hh & Hnode).
      rewrite (M_bind_run _ _ _ _ _ Hrun2). rewrite bool_decide_eq_false_2 by (by rewrite Enil).
      destruct (directory_entry_ok v done s0 s2 a e i t Hsg2 Hm Hb Hs Ho) as (s3 & Hrun3 & Hsg3 & He3). rewrite (M_bind_run _ _ _ _ _ Hrun3).
      rewrite relative_parent_raw by done. destruct (stage_upsert _ _ _ _ a e Hsg3 He) as (s4 & Hrun4 & Hsg4). rewrite (M_bind_run _ _ _ _ _ Hrun4).
      exists s4. split; [done |]. split; [| done]. rewrite He. apply stage_add_done; [| done]. intros e' He' _. rewrite He in He'. injection He' as <-.
      exists t, h. split_and!; [done | specialize (Hfuel a ltac:(right; eauto)); lia |].
      assert (extends (store (work s3)) (store (work s4))) as He4.
      { unfold on_index in Hrun4. destruct (index s3); [| done]. injection Hrun4 as <-. by intros ???. }
      eapply node_extends; [exact He4 |]. by eapply node_extends.
  - unfold gone in Hg. destruct (symlink_metadata a d) as [i|err] eqn:Hm; [done |]. rewrite Hg.
    assert (a ≠ []) as Hne.
    { intros ->. destruct (cp_root _ _ _ _ _ _ _ Hcap) as (i & Hi & _). by rewrite (metadata_reach d [] i (reach_nil d) Hi) in Hm. }
    assert (f a = None) as Hf.
    { destruct (f a) as [e|] eqn:He; [| done]. destruct (view_reach a e He) as (i & Hm' & _). congruence. }
    rewrite bool_decide_eq_false_2 by (by rewrite Enil). rewrite decide_False by done.
    destruct (stage_gone v done s0 s1 a Hsg1 Ha Hf Hne Hset) as (n & s2 & Hrun2 & Hsg2). rewrite !M_bind_assoc, (M_bind_run _ _ _ _ _ Hrun2).
    exists s2. split_and!; [done.. |]. by intros ->.
Qed.

Lemma stage_settle v done s0 s v' done' : stage v done s0 s → (∀ q, valid_place q → v q = v' q) → (∀ q, ¬ valid_place q → v' q = None) →
  (∀ q e, f q = Some e → kind e = Directory → done' q → done q) → stage v' done' s0 s.
Proof.
  intros Hsg Ev Hno Ed. eapply stage_iff; [| exact Ed | exact Hsg]. intros q. destruct (decide (valid_place q)) as [Hq|Hq]; [by apply Ev |].
  rewrite Hno by done. destruct (v q) as [e|] eqn:E; [| done]. by destruct (sg_placed _ _ _ _ Hsg q e E) as (_ & ? & _).
Qed.
Lemma view_invalid q : ¬ valid_place q → f q = None.
Proof. intros Hq. destruct (f q) as [e|] eqn:E; [| done]. by destruct (placed_f q e E) as (_ & ? & _). Qed.

Lemma stage_self v done s0 s : stage v done s0 s → stage v done s s.
Proof. intros [H1 H2 H3 (x0 & x & _ & Hx & _ & _ & Hr) H5]. constructor; [done | by intros ??? | done | by exists x, x | done]. Qed.
Lemma stage_trans v done v' done' s0 s1 s : stage v done s0 s1 → stage v' done' s1 s → stage v' done' s0 s.
Proof.
  intros [_ H2 _ (x0 & x1 & Hx0 & Hx1 & Hs1 & Hst1 & _) _] [R1 R2 R3 (y & x & Hy & Hx & Hs & Hst & Hr) R5]. rewrite Hx1 in Hy. injection Hy as <-.
  constructor; [done | by eapply extends_trans | done | exists x0, x; split_and!; [done | done | congruence | congruence | done] | done].
Qed.
Lemma dirty_loop_ok rest : ∀ v s0 s tree,
  NoDup rest → StronglySorted dirty_first (map raw rest) → Forall above_ok rest →
  stage v (λ q, q ∉ rest) s0 s → (∀ q, v q = f q ∨ q ∈ rest) →
  ∃ s', dirty_loop rounds tree (map raw rest) s = (Ok (if decide ([] ∈ rest) then root else tree), s')
    ∧ stage f (λ _, True) s0 s' ∧ ([] ∈ rest → root_held s').
Proof.
  induction rest as [|a rest IH]; intros v s0 s tree Hnd Hs Hok Hsg Hv; cbn [map dirty_loop].
  - exists s. rewrite decide_False by apply not_elem_of_nil. split; [done |]. split; [| by intros ?%not_elem_of_nil].
    eapply stage_iff; [| | exact Hsg]; [| intros; apply not_elem_of_nil]. intros q. destruct (Hv q) as [?|?%not_elem_of_nil]; done.
  - apply NoDup_cons in Hnd as [Hni Hnd]. apply StronglySorted_inv in Hs as [Hs Hx]. apply Forall_cons in Hok as [Ha Hok]. pose proof Ha as [Hva _].
    destruct (dirty_directory_ok v _ s0 s a tree Hsg Ha) as (s1 & Hrun1 & Hsg1 & Hroot1).
    { intros q Hpre Hne. destruct (decide (valid_place q)) as [Hq|Hq].
      - destruct (Hv q) as [?|[->|Hin]%elem_of_cons]; [done | done |]. exfalso. rewrite Forall_forall in Hx.
        specialize (Hx (raw q) ltac:(by apply list_elem_of_fmap_2)). unfold dirty_first in Hx. rewrite !path_depth_raw in Hx by done.
        destruct Hpre as [u ->]. rewrite length_app in Hx. destruct u; [by rewrite app_nil_r in Hne | cbn in Hx; lia].
      - rewrite view_invalid by done. destruct (v q) as [e|] eqn:E; [| done]. by destruct (sg_placed _ _ _ _ Hsg q e E) as (_ & ? & _). }
    rewrite (M_bind_run _ _ _ _ _ Hrun1).
    destruct (IH (put_at a (f a) v) s1 s1 (if decide (a = []) then root else tree) Hnd Hs Hok) as (s2 & Hrun2 & Hsg2 & Hroot2).
    { eapply stage_iff; [done | | eapply stage_self, Hsg1]. intros q e _ _ Hq. destruct (decide (q = a)) as [->|]; [by right | left]. by intros [?|?]%elem_of_cons. }
    { intros q. unfold put_at. destruct (decide (q = a)) as [->|Hqa]; [by left |]. destruct (Hv q) as [?|[?|?]%elem_of_cons]; [by left | done | by right]. }
    exists s2. split; [rewrite Hrun2; do 2 f_equal |].
    { destruct (decide ([] ∈ rest)) as [Hin|Hin]; [by rewrite decide_True by (by right) |]. destruct (decide (a = [])) as [->|Hne].
      - by rewrite decide_True by left.
      - rewrite decide_False; [done |]. intros [?|?]%elem_of_cons; done. }
    split; [by eapply stage_trans |]. intros Hin. destruct (decide ([] ∈ rest)) as [Hin'|Hin']; [by apply Hroot2 |].
    apply elem_of_cons in Hin as [<-|?]; [| done]. destruct (Hroot1 eq_refl) as (h & Hh & Hnode). exists h. split; [done |].
    eapply node_extends; [apply Hsg2 | exact Hnode].
Qed.

(** ** The whole of it *)

Definition old_dir (s : St) (q : Place) (e : TreeEntry) : Prop :=
  ∃ t h es, target e = Some t ∧ (2 * (h + length es) + 3 < fuel)%nat ∧ node h s t es ∧ sorted es ∧ ∀ c, c ∈ es ↔ f0 (q ++ [name c]) = Some c.
(** The hints name every place where the trees differ, or something below it. *)
Definition covers (ps : list Place) : Prop := ∀ q, f0 q ≠ f q → ∃ p, p ∈ ps ∧ (p `prefix_of` q ∨ q `prefix_of` p).
Definition hints_for (ps : list Place) : Prop :=
  Forall hint_ok ps ∧ (∀ p a, p ∈ ps → a `prefix_of` p → a ≠ p → above_ok a) ∧ covers ps.

Section Hints.
Variables (ps : list Place) (As : list Place).
Hypothesis Hps : hints_for ps.
Hypothesis HAs : ∀ a, a ∈ As ↔ ∃ p, p ∈ ps ∧ a `prefix_of` p ∧ a ≠ p.

Lemma place_dec (a p : Place) : a = p ∨ a ≠ p.
Proof. destruct (decide (a = p)); auto. Qed.
Lemma untouched q : ¬ hinted_by ps q → q ∉ As → f0 q = f q.
Proof.
  intros Hh Ha. destruct (decide (f0 q = f q)) as [|Hne]; [done |]. destruct Hps as (_ & _ & Hc). destruct (Hc q Hne) as (p & Hin & [Hp|Hp]).
  - destruct Hh. apply Exists_exists. eauto.
  - destruct (place_dec q p) as [->|Hqp]; [destruct Hh; apply Exists_exists; eauto |]. destruct Ha. apply HAs. eauto.
Qed.
Lemma untouched_child q nm : ¬ hinted_by ps q → q ∉ As → f0 (q ++ [nm]) = f (q ++ [nm]).
Proof.
  intros Hh Ha. apply untouched.
  - intros (p & Hin & Hp)%Exists_exists. destruct (place_dec p (q ++ [nm])) as [->|Hne].
    + apply Ha, HAs. exists (q ++ [nm]). split_and!; [done | by apply prefix_app_r |]. intros E. apply (f_equal length) in E. rewrite length_app in E. cbn in E. lia.
    + apply Hh, Exists_exists. exists p. split; [done |]. pose proof (strict_prefix_parent _ _ Hp Hne) as Hpp. by rewrite parent_snoc in Hpp.
  - intros (p & Hin & Hp & Hne)%HAs. apply Ha, HAs. exists p. split_and!; [done | trans (q ++ [nm]); [by apply prefix_app_r | done] |].
    intros ->. apply prefix_length in Hp. rewrite length_app in Hp. cbn in Hp. lia.
Qed.
Lemma mixed_settled q : mixed ps q = f q ∨ q ∈ As.
Proof.
  unfold mixed. case_decide as Hh; [by left |]. destruct (decide (q ∈ As)) as [|Ha]; [by right | left; by apply untouched].
Qed.
Lemma stage_settled s0 s :
  (∀ q e, f0 q = Some e → kind e = Directory → old_dir (store (work s0)) q e) →
  stage (mixed ps) (hinted_by ps) s0 s → stage (mixed ps) (λ q, q ∉ As) s0 s.
Proof.
  intros Hold [H1 H2 H3 H4 H5]. constructor; [done.. |]. intros q e Ha He Hk. destruct (decide (hinted_by ps q)) as [Hh|Hh]; [by apply H5 |].
  destruct (Hold q e) as (t & h & es & Ht & Hb & Hn & Hs & Hes); [by rewrite untouched | done |].
  destruct (view_dir q e He Hk) as (_ & t' & _ & _ & _ & _ & _ & Hw).
  assert (es = entries_in q) as ->.
  { apply sorted_unique; [done | eapply writes_sorted, Hw; exact (store (work s)) |]. intros c. by rewrite Hes, elem_of_entries, untouched_child. }
  exists t, h. split_and!; [done | done | by eapply node_extends].
Qed.
End Hints.

(** The index lists [f], and the store holds its tree. *)
Record arrived (s0 s : Session St L) : Prop := {
  ar_ready : ready s;
  ar_extends : extends (store (work s0)) (store (work s));
  ar_index : ∃ x0 x, index s0 = Some x0 ∧ index s = Some x ∧ PathIndex.saved x = PathIndex.saved x0 ∧ exact f (PathIndex.rows (PathIndex.tables x));
  ar_dirs q e : f q = Some e → kind e = Directory → dir_node store_root fuel pol d f (store (work s)) q e;
  ar_root : ∃ h, (2 * (h + length (entries_in [])) + 3 < fuel)%nat ∧ node h (store (work s)) root (entries_in []);
}.
Lemma root_bound s : root_held s → ∃ h, (2 * (h + length (entries_in [])) + 3 < fuel)%nat ∧ node h (store (work s)) root (entries_in []).
Proof. intros (h & Hh & Hn). exists h. split; [| done]. specialize (Hfuel [] ltac:(by left)). lia. Qed.
Lemma arrived_stage s0 s : stage f (λ _, True) s0 s → (∃ h, (2 * (h + length (entries_in [])) + 3 < fuel)%nat ∧ node h (store (work s)) root (entries_in [])) → arrived s0 s.
Proof.
  intros [H1 H2 H3 (x0 & x & Hx0 & Hx & Hs & _ & Hr) H5] Hroot. constructor; [done | done | by exists x0, x | | done]. intros q e. by apply H5.
Qed.

#[local] Abbreviation full_walk := (full_walk reading wall device linked_outside workspace_id store_root rounds depth).
#[local] Abbreviation impl := (capture_changed_paths_impl reading wall device linked_outside workspace_id store_root generation rounds depth).

Lemma full_walk_arrives s0 s : ready s → extends (store (work s0)) (store (work s)) →
  (∃ x0 x, index s0 = Some x0 ∧ index s = Some x ∧ PathIndex.saved x = PathIndex.saved x0) → ∃ s', full_walk s = (Ok root, s') ∧ arrived s0 s'.
Proof.
  intros Hr He (x0 & x & Hx0 & Hx & Hs).
  destruct (full_walk_ok reading wall device linked_outside workspace_id store_root rounds fuel depth d f root pol Hcap Hnames Hfuel Hstill Hone s Hr)
    as (s' & Hrun & Hr' & He' & _ & _ & (y & x' & Hy & Hx' & Hs' & Hrows) & Hpl & Hroot). rewrite Hx in Hy. injection Hy as <-.
  exists s'. split; [done |]. constructor.
  - done.
  - by eapply extends_trans.
  - exists x0, x'. split_and!; [done | done | congruence | done].
  - intros q e Hq Hk. eapply (place_dir_node store_root rounds fuel depth d f root pol Hcap Hnames Hfuel); [by eapply Hpl | done | done].
  - by apply root_bound.
Qed.

Lemma sort_dedup_NoDup l : NoDup (sort_dedup l).
Proof.
  pose proof (sort_dedup_strict l) as Hs. induction Hs as [|y l' _ IH Hx]; [constructor |]. constructor; [| done].
  intros Hin. rewrite Forall_forall in Hx. apply (blt_irrefl y), Hx, Hin.
Qed.
(** The tree the index was left with. *)
Definition old_root (s : St) (root0 : ObjectId) : Prop :=
  ∃ h es, (2 * (h + length es) + 3 < fuel)%nat ∧ node h s root0 es ∧ writes (St := St) rounds es root0 ∧ ∀ c, c ∈ es ↔ f0 [name c] = Some c.

Lemma same_view_root s root0 : (∀ q, f0 q = f q) → old_root s root0 →
  root0 = root ∧ ∃ h, (2 * (h + length (entries_in [])) + 3 < fuel)%nat ∧ node h s root (entries_in []).
Proof.
  intros Hsame (h & es & Hb & Hn & Hw & Hes). pose proof (cp_tree _ _ _ _ _ _ _ Hcap) as Hw'.
  assert (es = entries_in []) as ->.
  { apply sorted_unique; [by eapply (writes_sorted _ _ _ s) | by eapply (writes_sorted _ _ _ s) |]. intros c. by rewrite Hes, elem_of_entries, Hsame. }
  assert (root0 = root) as -> by by apply (writes_det rounds _ _ _ s Hw Hw'). split; [done |]. by exists h.
Qed.

Lemma hint_places_work s x root0 ps :
  ready s → index s = Some x → exact f0 (PathIndex.rows (PathIndex.tables x)) → well_placed f0 →
  (∀ q e, f0 q = Some e → kind e = Directory → old_dir (store (work s)) q e) → hints_for ps → ps ≠ [] →
  ∃ o s1, changed_loop (sort_dedup (map raw ps)) [] s = (Ok o, s1) ∧
    match o with
    | None => ∃ v done, stage v done s s1
    | Some dirty => ∃ s2, dirty_loop rounds root0 (merge_sort dirty_first (sort_dedup dirty)) s1 = (Ok root, s2) ∧ arrived s s2
    end.
Proof.
  intros Hr Hx Hrows Hv0 Hold Hps Hne. pose proof Hps as (Hok & Habove & Hcov). rewrite Forall_forall in Hok.
  destruct (raw_list (λ p, p ∈ ps) (sort_dedup (map raw ps))) as (ps' & Eps & Hps').
  { intros y. rewrite elem_of_sort_dedup. intros (p & -> & Hp)%list_elem_of_fmap. eauto. }
  assert (∀ p, p ∈ ps' ↔ p ∈ ps) as Hiff.
  { intros p. split; [apply Hps' |]. intros Hp. apply raw_list_elem; [by apply Hok | apply Forall_forall; intros p' Hp'; by apply Hok, Hps' |].
    rewrite <- Eps, elem_of_sort_dedup. by apply list_elem_of_fmap_2. }
  rewrite Eps. assert (stage (mixed []) (hinted_by []) s s) as Hsg0.
  { assert (∀ q, f0 q = mixed [] q) as E0 by (intros q; unfold mixed; by rewrite decide_False by by intros ?%Exists_nil). constructor.
    - done.
    - by intros ???.
    - intros q e. rewrite <- E0. apply Hv0.
    - exists x, x. split_and!; [done.. |]. by eapply exact_ext.
    - intros q e Hq. by apply Exists_nil in Hq. }
  destruct (changed_loop_ok ps' [] [] s s) as (o & s1 & Hrun & Ho); [| | | exact Hsg0 |].
  { apply Forall_forall. intros p Hp. by apply Hok, Hps'. }
  { rewrite <- Eps. apply sort_dedup_strict. }
  { by intros h ?%not_elem_of_nil. }
  exists o, s1. split; [done |]. destruct o as [dirty'|]; [| done]. destruct Ho as [Hsg1 ->]. cbn [app] in *.
  set (dl := merge_sort dirty_first _).
  assert (∀ y, y ∈ dl ↔ ∃ a p, p ∈ ps ∧ a `prefix_of` p ∧ a ≠ p ∧ y = raw a) as Hdl.
  { intros y. subst dl. rewrite merge_sort_Permutation, elem_of_sort_dedup, list_elem_of_In, in_concat. split.
    - intros (l & (p & <- & Hp%list_elem_of_In)%in_map_iff & Hy%list_elem_of_In). destruct (Hok p (Hps' p Hp)) as (Hv & Hn & _).
      apply elem_of_parents in Hy as (a & ? & ? & ->); [| done | done | by apply raw_length]. exists a, p. split_and!; auto.
    - intros (a & p & Hp & Ha & Hna & ->). destruct (Hok p Hp) as (Hv & Hn & _). exists (parents (length (raw p)) (raw p)). split.
      + apply in_map_iff. exists p. split; [done |]. by apply list_elem_of_In, Hiff.
      + apply list_elem_of_In, elem_of_parents; [done | done | by apply raw_length | eauto]. }
  destruct (raw_list (λ a, ∃ p, p ∈ ps ∧ a `prefix_of` p ∧ a ≠ p) dl) as (As & EAs & HAs).
  { intros y (a & p & Hp & Ha & Hna & ->)%Hdl. exists a. split; [eauto | done]. }
  assert (∀ a, a ∈ As ↔ ∃ p, p ∈ ps ∧ a `prefix_of` p ∧ a ≠ p) as HAs'.
  { intros a. split; [apply HAs |]. intros (p & Hp & Ha & Hna). destruct (Hok p Hp) as (Hv & _).
    apply raw_list_elem; [by eapply valid_prefix | | rewrite <- EAs; apply Hdl; by exists a, p].
    apply Forall_forall. intros b Hb. destruct (HAs b Hb) as (p' & Hp' & Hb' & _). destruct (Hok p' Hp') as (Hv' & _). by eapply valid_prefix. }
  assert (∀ q, hinted_by ps' q ↔ hinted_by ps q) as Hh by (intros q; unfold hinted_by; rewrite !Exists_exists; by setoid_rewrite Hiff).
  assert (stage (mixed ps) (hinted_by ps) s s1) as Hsg2.
  { eapply stage_iff; [| | exact Hsg1].
    - intros q. unfold mixed. destruct (decide (hinted_by ps' q)) as [H1|H1], (decide (hinted_by ps q)) as [H2|H2]; rewrite Hh in H1; done.
    - intros q e _ _. apply Hh. }
  apply (stage_settled ps As Hps HAs' s s1 Hold) in Hsg2.
  destruct (dirty_loop_ok As (mixed ps) s s1 root0) as (s2 & Hrun2 & Hsg3 & Hroot); [| | | exact Hsg2 | |].
  { apply (NoDup_fmap_1 raw). change (NoDup (map raw As)). rewrite <- EAs. subst dl. rewrite merge_sort_Permutation. apply sort_dedup_NoDup. }
  { rewrite <- EAs. apply (StronglySorted_merge_sort dirty_first). }
  { apply Forall_forall. intros a (p & Hp & Ha & Hna)%HAs'. by eapply Habove. }
  { intros q. by apply mixed_settled. }
  assert ([] ∈ As) as Hnil.
  { destruct ps as [|p ps0]; [done |]. apply HAs'. exists p. split_and!; [left | apply prefix_nil |]. destruct (Hok p ltac:(left)) as (_ & ? & _). congruence. }
  exists s2. rewrite EAs, Hrun2, decide_True by done. split; [done |]. apply arrived_stage; [done |]. by apply root_bound, Hroot.
Qed.

(** The hints of a capture: the root itself, or places it has to look at. *)
Definition hints_ok (hints : list Hint) : Prop :=
  ∃ o, hinted hints = Ok o ∧ ∀ paths, o = Some paths → ∃ ps, paths = map raw ps ∧ hints_for ps.

Lemma impl_ok hints s x root0 :
  ready s → index s = Some x → exact f0 (PathIndex.rows (PathIndex.tables x)) → well_placed f0 →
  PathIndex.state (PathIndex.tables x) = Some (root0, generation) →
  (∀ q e, f0 q = Some e → kind e = Directory → old_dir (store (work s)) q e) → old_root (store (work s)) root0 → hints_ok hints →
  ∃ s', impl hints s = (Ok root, s') ∧ arrived s s'.
Proof.
  intros Hr Hx Hrows Hv0 Hst Hold Hroot0 (o & Ho & Hps). unfold capture_changed_paths_impl. rewrite Ho, lift_ok_bind.
  assert (∃ x0 x1, index s = Some x0 ∧ index s = Some x1 ∧ PathIndex.saved x1 = PathIndex.saved x0) as Hidx by by exists x, x.
  destruct o as [paths|]; [| apply full_walk_arrives; [done | by intros ??? | done]].
  destruct (Hps paths eq_refl) as (ps & -> & Hhf). clear Hps.
  assert (index_tables (PathIndex.root generation) s = (Ok (Some root0), s)) as Hroot.
  { unfold index_tables, on_index. rewrite Hx. unfold gets, PathIndex.root. cbn. rewrite Hst. cbn. rewrite decide_True by done. destruct s. cbn in Hx. by subst. }
  rewrite (M_bind_run _ _ _ _ _ Hroot). cbn [with_context]. rewrite lift_ok_bind. case_bool_decide as Enil.
  - assert (ps = []) as -> by by destruct ps. destruct Hhf as (_ & _ & Hcov). assert (∀ q, f0 q = f q) as Hsame.
    { intros q. destruct (decide (f0 q = f q)) as [|Hne]; [done |]. by destruct (Hcov q Hne) as (p & ?%not_elem_of_nil & _). }
    destruct (same_view_root (store (work s)) root0 Hsame Hroot0) as [-> Hnode]. exists s. split; [done |]. apply arrived_stage; [| done]. constructor.
    + done.
    + by intros ???.
    + intros q e. rewrite <- Hsame. apply Hv0.
    + exists x, x. split_and!; [done.. |]. by eapply exact_ext.
    + intros q e _ He Hk. destruct (Hold q e) as (t & h & es & Ht & Hb & Hn & Hs & Hes); [by rewrite Hsame | done |].
      destruct (view_dir q e He Hk) as (_ & t' & _ & _ & _ & _ & _ & Hw). assert (es = entries_in q) as ->.
      { apply sorted_unique; [done | eapply writes_sorted, Hw; exact (store (work s)) |]. intros c. by rewrite Hes, elem_of_entries, Hsame. }
      by exists t, h.
  - destruct (hint_places_work s x root0 ps Hr Hx Hrows Hv0 Hold Hhf) as (o & s1 & Hrun & Hcase); [by intros -> |].
    rewrite (M_bind_run _ _ _ _ _ Hrun). destruct o as [dirty|]; [done |]. destruct Hcase as (v & done_ & Hsg).
    apply full_walk_arrives; [apply Hsg | apply Hsg |]. destruct (sg_index _ _ _ _ Hsg) as (y0 & y & ? & ? & ? & _). by exists y0, y.
Qed.
End Delta.

(** ** From one capture to the next *)

Section Next.
Context `{Platform} {St : Type} {OS : ObjectStore St} {OSok : ObjectStoreOk St} `{Blake3} {CS : ContentStoreOk St}.
Context {L : Type} {RL : RefStore L} {RLok : RefStoreOk L}.
Context {JE : Json TreeEntry} {JP : Json TreePage} {JT : Json Tree} {JTok : JsonOk Tree}.
Context {JB : Json Blob} {JBok : JsonOk Blob} {JX : Json Xattrs} {JXok : JsonOk Xattrs} {JS : Json Snapshot} {HX : Hex}.
Variable reading : Place → Disk → list (Res bytes) * Disk.
Variable wall : nat → Z.
Variable device : Z.
Variable linked_outside : Z → bool.
Variable workspace_id : bytes.
Variable store_root : option Place.
Variable generation : bytes.
Variables rounds fuel depth : nat.

(** What a tree the store holds says of its directories. *)
Lemma holds_dirs n (s : St) t f : holds fuel n s t f → ∀ q,
  (q = [] ∨ ∃ e, f q = Some e ∧ kind e = Directory) →
  ∃ t' h es, (q = [] → t' = t) ∧ (∀ e, f q = Some e → target e = Some t')
    ∧ (2 * (h + length es) + 3 < fuel)%nat ∧ node h s t' es ∧ sorted es ∧ ∀ c, c ∈ es ↔ f (q ++ [name c]) = Some c.
Proof.
  revert t f. induction n as [|n IH]; intros t f; [done |]. intros (h & es & Hn & Hs & Hb & Hv & Hnil & Hfound & Hsub) q Hq. destruct q as [|nm q].
  - exists t, h, es. split_and!; [done | congruence | done | done | done |]. intros c. cbn. split.
    + intros Hc. by apply Hfound.
    + intros Hc. by apply Hfound in Hc as [? _].
  - destruct Hq as [?|(e & He & Hk)]; [done |]. specialize (Hsub nm). destruct (f [nm]) as [e0|] eqn:E0.
    2: { destruct q as [|y q]; [congruence |]. specialize (Hsub (y :: q)). cbn in Hsub. congruence. }
    case_decide as Hk0.
    2: { destruct q as [|y q]; [congruence |]. specialize (Hsub (y :: q)). cbn in Hsub. congruence. }
    destruct Hsub as (t0 & Ht0 & Hh0). destruct (IH t0 (under f nm) Hh0 q) as (t' & h' & es' & H1 & H2 & H3 & H4 & H5 & H6).
    { destruct q as [|y q]; [by left | right]. by exists e. }
    exists t', h', es'. split_and!; [done | | done | done | done |].
    + intros e' He'. destruct q as [|y q]; [| by apply H2]. rewrite H1 by done. congruence.
    + intros c. rewrite H6. by destruct q.
Qed.
Lemma holds_closed n (s : St) t f q a : holds fuel n s t f → is_Some (f q) → a `prefix_of` q → a ≠ [] → is_Some (f a).
Proof.
  intros Hh [e He] Ha Hne. destruct (decide (a = q)) as [->|Hneq]; [by eexists |].
  destruct (holds_above fuel n s t f q e a Hh He Ha Hneq Hne) as (e' & ? & _). by eexists.
Qed.

(** Only notes of the policy change, and the log may settle. *)
Record quiet (rs : list Refs.RefRecord) (s s' : Session St L) : Prop := {
  qt_work : work s' = work s;
  qt_index : index s' = index s;
  qt_catalog : catalog s' = catalog s;
  qt_head : paths_head s' = paths_head s;
  qt_rules : rules (policy s') = rules (policy s);
  qt_log : says (ref_log s) rs → says (ref_log s') rs;
}.
Lemma quiet_refl rs s : quiet rs s s.
Proof. done. Qed.
Lemma quiet_trans rs s s1 s2 : quiet rs s s1 → quiet rs s1 s2 → quiet rs s s2.
Proof. intros [] []. constructor; (congruence || eauto). Qed.

Lemma link_walk_ok rs hints : ∀ s, is_Some (index s) →
  ∃ b s', delta_needs_link_walk device linked_outside hints s = (Ok b, s') ∧ quiet rs s s'.
Proof.
  induction hints as [|[relative|outside] hints IH]; intros s [x Hx]; cbn [delta_needs_link_walk]; [exists false, s; by split | | apply IH; by exists x].
  assert (∃ b s1, (if is_identity_path relative then mret true else on_policy (excludes_bytes relative)) s = (Ok b, s1) ∧ quiet rs s s1) as (b & s1 & Hrun1 & Hq1).
  { destruct (is_identity_path relative); [exists true, s; by split |].
    destruct (excludes_bytes_run relative (policy s)) as (p' & Hrun & Hp). unfold on_policy. rewrite Hrun. by eexists _, _. }
  rewrite (M_bind_run _ _ _ _ _ Hrun1). assert (is_Some (index s1)) as Hs1 by (rewrite (qt_index _ _ _ Hq1); by exists x).
  assert (∃ b' s', delta_needs_link_walk device linked_outside hints s1 = (Ok b', s') ∧ quiet rs s s') as Hrest.
  { destruct (IH s1 Hs1) as (b' & s' & Hrun & Hq). exists b', s'. split; [done | by eapply quiet_trans]. }
  destruct b; [done |]. rewrite get_bind. destruct (p ← safe_join relative; symlink_metadata p (disk (work s1))) as [i|e]; [| done].
  rewrite (M_bind_run _ _ _ (PathIndex.tables x) s1).
  2: { unfold index_tables, on_index. rewrite (qt_index _ _ _ Hq1), Hx. pose proof (qt_index _ _ _ Hq1) as E. rewrite Hx in E. destruct s1. cbn in *. by subst. }
  destruct (is_regular i && _); [by exists true, s1 | done].
Qed.

(** The log holds these records, and the snapshot of the newest can be read. *)
Definition head_ok (rs : list Refs.RefRecord) (s : Session St L) : Prop :=
  says (ref_log s) rs ∧ ∀ r, last rs = Some r → ∃ snapshot : Snapshot, read_struct_at SnapshotKind (Refs.snapshot_id r) (store (work s)) = Ok snapshot.
Lemma matches_ok rs s : is_Some (index s) → head_ok rs s → ∃ b s', index_matches_head generation s = (Ok b, s') ∧ quiet rs s s'.
Proof.
  intros [x Hx] [Hl Hh]. unfold index_matches_head.
  assert (index_tables (PathIndex.root generation) s = (Ok (PathIndex.root generation (PathIndex.tables x)), s)) as Hr.
  { unfold index_tables, on_index. rewrite Hx. destruct s. cbn in *. by subst. }
  rewrite (M_bind_run _ _ _ _ _ Hr). destruct (PathIndex.root generation (PathIndex.tables x)) as [r|]; [| by exists false, s].
  destruct (workspace_head_run s rs Hl) as (l & Hrun & Hl'). rewrite (M_bind_run _ _ _ _ _ Hrun).
  assert (quiet rs s (with_log l s)) as Hq by by constructor.
  destruct (last rs) as [r'|]; cbn [fmap option_fmap option_map]; [| by exists false, (with_log l s)].
  rewrite get_bind. destruct (Hh r' eq_refl) as (snapshot & Hs). cbn [work with_log]. rewrite Hs, lift_ok_bind. eauto.
Qed.

#[local] Abbreviation capturable := (capturable wall device workspace_id).
#[local] Abbreviation indexed := (indexed generation rounds fuel depth).
#[local] Abbreviation view s0 s := (view_of store_root rounds depth s0 (policy s) (disk (work s))).
#[local] Abbreviation reference s0 s := (tree_of store_root rounds depth s0 (policy s) (disk (work s)) []).
#[local] Abbreviation capture_tree := (capture_tree reading wall device linked_outside workspace_id store_root generation rounds fuel depth).
#[local] Abbreviation capture_root_retry := (capture_root_retry reading wall device linked_outside workspace_id store_root generation rounds fuel depth).

Section Step.
Variables (s : Session St L) (rs : list Refs.RefRecord) (f0 : View) (root0 : ObjectId) (f : View) (root : ObjectId) (hints : list Hint).
Hypothesis Hcap : captured (St := St) store_root rounds depth (policy s) (disk (work s)) f root.
Hypothesis Hstill : still reading.
Hypothesis Hready : capturable s.
Hypothesis Hread : readable store_root rounds fuel (policy s) (disk (work s)) f.
Hypothesis Hidx : indexed f0 root0 s.
Hypothesis Hkept : excludes (policy s) [] = false.
Hypothesis Hhints : hints_ok (policy s) (disk (work s)) f f0 hints.
Hypothesis Hhead : head_ok rs s.

Definition next_ok (m : M (Session St L) ObjectId) (s1 : Session St L) : Prop :=
  ∃ s', m s1 = (Ok root, s') ∧ disk (work s') = disk (work s) ∧ extends (store (work s)) (store (work s')) ∧ indexed f root s' ∧ capturable s' ∧ rules (policy s') = rules (policy s).

Lemma next_full s1 : quiet rs s s1 → next_ok capture_root_retry s1.
Proof.
  intros [Q1 Q2 Q3 Q4 Q5 Q6]. pose proof Hready as [H1 H2 H3 H4].
  destruct (capture_root_retry_ok reading wall device linked_outside workspace_id store_root generation rounds fuel depth _ _ _ _ Hcap H1 Hread Hstill H2 s1 rs (Q6 (proj1 Hhead)))
    as (s' & Hrun & Hr & Hix & _ & He & _); [by rewrite Q1 | done | by rewrite Q1, Q3 | intros x; rewrite Q2; apply H4 |].
  rewrite Q1 in He. exists s'. split_and!; [done | apply Hr | done | done | by eapply capturable_after | apply Hr].
Qed.
Lemma next_delta s1 : quiet rs s s1 →
  next_ok (attempts generation 3 "workspace kept changing while its delta was captured"
             (capture_changed_paths_impl reading wall device linked_outside workspace_id store_root generation rounds depth hints)) s1.
Proof.
  intros [Q1 Q2 Q3 Q4 Q5 Q6]. pose proof Hready as [H1 H2 H3 H4]. destruct Hidx as [Hpl0 (x & Hx & Hsv & Hst & Hrows) Hh0 (es0 & Hw0 & Hes0)].
  destruct (impl_ok reading wall device linked_outside workspace_id store_root generation rounds fuel depth _ _ _ _ Hcap H1 Hread Hstill H2 f0
              ltac:(intros q a; by eapply holds_closed) Hkept hints (with_index (started x) s1) (started x) root0) as (s2 & Hrun & Har); try done.
  - constructor; cbn; rewrite ?Q1, ?Q3; [done | done | done | by eexists].
  - intros q e He Hk. destruct (holds_dirs depth (store (work s)) root0 f0 Hh0 q) as (t & h & es & _ & Ht & Hb & Hn & Hs & Hes); [right; eauto |].
    exists t, h, es. cbn. rewrite Q1. split_and!; [by apply Ht | done..].
  - destruct (holds_dirs depth (store (work s)) root0 f0 Hh0 []) as (t & h & es & Ht & _ & Hb & Hn & Hs & Hes); [by left |]. rewrite Ht in Hn by done.
    assert (es = es0) as ->.
    { apply sorted_unique; [done | by eapply (writes_sorted _ _ _ (store (work s))) |]. intros c. by rewrite Hes, Hes0. }
    exists h, es0. cbn. by rewrite Q1.
  - destruct (ar_index _ _ _ _ _ _ _ _ _ _ _ Har) as (y & x2 & Hy & Hx2 & Hsv2 & Hrows2). injection Hy as <-. cbn in Hsv2.
    exists (with_index (ended generation root x2) s2). split.
    { eapply attempt_ok; [by rewrite Q2 | done | exact Hrun | done | by rewrite Hsv2]. }
    pose proof (ar_ready _ _ _ _ _ _ _ _ _ _ _ Har) as [R1 R2 R3 R4]. pose proof (ar_extends _ _ _ _ _ _ _ _ _ _ _ Har) as He. cbn in He. rewrite Q1 in He.
    assert (indexed f root (with_index (ended generation root x2) s2)) as Hix.
    { eapply (captured_indexed store_root generation rounds fuel depth _ _ _ _ Hcap H1 Hread); [done | done | done | exact Hrows2 | |].
      - exact (ar_dirs _ _ _ _ _ _ _ _ _ _ _ Har).
      - exact (ar_root _ _ _ _ _ _ _ _ _ _ _ Har). }
    split_and!; [done | done | done | | done]. eapply capturable_after; [exact Hready | | exact Hix]. constructor; [done | exact R2 | done | by eexists].
Qed.
Lemma next_tree : next_ok (capture_tree (Some hints)) s.
Proof.
  assert (is_Some (index s)) as Hsome by (destruct (ix_lists _ _ _ _ _ _ _ Hidx) as (x & ? & _); by exists x).
  assert (∀ s1, quiet rs s s1 → open_path_index generation fuel depth true s1 = (Ok (), s1)) as Hopen.
  { intros s1 Hq. unfold open_path_index. rewrite get_bind, (qt_index _ _ _ Hq). destruct Hsome as [x ->]. done. }
  assert (quiet rs s s) as Hqs by done. unfold Capture.capture_tree. destruct (existsb capture_rules_changed hints); [by apply next_full |].
  destruct (link_walk_ok rs hints s Hsome) as (b & s1 & Hrun1 & Hq1). unfold next_ok. rewrite (M_bind_run _ _ _ _ _ (Hopen s Hqs)), (M_bind_run _ _ _ _ _ Hrun1).
  destruct b; [by apply next_full |]. unfold capture_changed_paths_retry. rewrite (M_bind_run _ _ _ _ _ (Hopen s1 Hq1)).
  destruct (matches_ok rs s1) as (b & s2 & Hb & Hq2); [by rewrite (qt_index _ _ _ Hq1) | |].
  { destruct Hhead as [Hl Hh]. split; [by apply (qt_log _ _ _ Hq1) |]. by rewrite (qt_work _ _ _ Hq1). }
  pose proof (quiet_trans _ _ _ _ Hq1 Hq2) as Hq. rewrite (M_bind_run _ _ _ _ _ Hb). destruct b; [by apply next_delta | by apply next_full].
Qed.
End Step.

Lemma capture_delta_run s rs s0 f0 root0 root hints :
  still reading → empty_fits → capturable s → indexed f0 root0 s → head_ok rs s →
  reference s0 s = Ok root → readable store_root rounds fuel (policy s) (disk (work s)) (view s0 s) →
  excludes (policy s) [] = false → hints_ok (policy s) (disk (work s)) (view s0 s) f0 hints →
  ∃ s', capture_tree (Some hints) s = (Ok root, s') ∧ disk (work s') = disk (work s) ∧ extends (store (work s)) (store (work s'))
    ∧ indexed (view s0 s) root s' ∧ capturable s' ∧ says (ref_log s') rs ∧ rules (policy s') = rules (policy s).
Proof.
  intros Hstill Hempty Hc Hidx Hhead Href Hread Hkept Hhints.
  destruct (next_tree s rs f0 root0 (view s0 s) root hints) as (s' & Hrun & Hd & He & Hix & Hcs & Hrules); try done; [by apply captured_of |].
  exists s'. split_and!; [done.. | | done].
  pose proof (leaves_tree reading wall device linked_outside workspace_id store_root generation rounds fuel depth (Some hints) s rs (proj1 Hhead)) as [Hl _]. by rewrite Hrun in Hl.
Qed.

(** C5 An incremental capture answers what a full one would: from an index of the
    last tree and hints that cover what changed since, it ends with the tree of
    the reference for the disk as it is now, which the store then holds, and with
    the index of that tree. *)
Theorem capture_delta_spec s rs s0 f0 root0 root hints :
  still reading → empty_fits → capturable s → indexed f0 root0 s → head_ok rs s →
  reference s0 s = Ok root → readable store_root rounds fuel (policy s) (disk (work s)) (view s0 s) →
  excludes (policy s) [] = false → hints_ok (policy s) (disk (work s)) (view s0 s) f0 hints →
  ∃ s', capture_tree (Some hints) s = (Ok root, s') ∧ disk (work s') = disk (work s) ∧ extends (store (work s)) (store (work s'))
    ∧ indexed (view s0 s) root s' ∧ capturable s' ∧ says (ref_log s') rs.
Proof.
  intros H1 H2 H3 H4 H5 H6 H7 H8 H9. destruct (capture_delta_run s rs s0 f0 root0 root hints) as (s' & ? & ? & ? & ? & ? & ? & _); [done.. |]. by exists s'.
Qed.
End Next.
