(* ===== verification/CaptureReload.v ===== *)
(** * CaptureReload: a later process picks the index up from the head

    A session that has no index yet loads it from the tree of the workspace's
    head, when the note beside the repository says the head was indexed. The
    loaded index lists that tree, so an incremental capture may go on from it. *)

From S2P Require Import Prelude Model Tree TreeTheory Bundle Chunker ChunkerTheory Paths Disk Files Policy PolicyTheory DiskTheory PlanTheory RewindTheory Capture.
From S2P Require Import PathIndexTheory CaptureSpec CaptureTheory CaptureWalk RefStore CaptureLog CaptureFull DeltaPaths CaptureDelta.
From S2P Require PathIndex Catalog CatalogTheory Refs.
#[local] Open Scope Z_scope.
#[local] Existing Instance PathIndex.Row_eq_dec.

(** [v] with the entries of [f] set under [p]. *)
Definition under_at (p : Place) (f : View) (v : View) : View := λ q,
  if decide (p `prefix_of` q) then match f (drop (length p) q) with Some e => Some e | None => v q end else v q.

Lemma under_at_nil f v q : (∀ q, v q = None) → under_at [] f v q = f q.
Proof. intros Hv. unfold under_at. rewrite decide_True by apply prefix_nil. cbn [length]. rewrite drop_0, Hv. by destruct (f q). Qed.
Lemma child_drop (p q : Place) nm : (p ++ [nm]) `prefix_of` q → drop (length p) q = nm :: drop (length (p ++ [nm])) q.
Proof. intros [u ->]. rewrite drop_app_length, <- app_assoc, drop_app_length. done. Qed.

(** [v] with those of the names [done] set. *)
Definition named_at (p : Place) (f : View) (v : View) (done : list bytes) : View := λ q,
  if decide (p `prefix_of` q) then
    match drop (length p) q with
    | nm :: r => if decide (nm ∈ done) then match f (nm :: r) with Some e => Some e | None => v q end else v q
    | [] => v q
    end
  else v q.
Lemma named_at_nil p f v q : named_at p f v [] q = v q.
Proof. unfold named_at. case_decide; [| done]. by destruct (drop (length p) q). Qed.
Lemma named_at_snoc p f v done nm e q : f [nm] = Some e →
  named_at p f v (done ++ [nm]) q = under_at (p ++ [nm]) (under f nm) (put_at (p ++ [nm]) (Some e) (named_at p f v done)) q.
Proof.
  intros Hf. unfold under_at. destruct (decide ((p ++ [nm]) `prefix_of` q)) as [Hpre|Hpre].
  - pose proof (child_drop p q nm Hpre) as Ed. unfold named_at, put_at. assert (p `prefix_of` q) as Hp by (trans (p ++ [nm]); [by apply prefix_app_r | done]).
    rewrite !decide_True by (done || by apply elem_of_app; right; left). rewrite Ed, decide_True by (apply elem_of_app; right; left).
    destruct (drop (length (p ++ [nm])) q) as [|y r] eqn:Er.
    + cbn [under]. assert (q = p ++ [nm]) as -> by (destruct Hpre as [u ->]; rewrite drop_app_length in Er; subst u; by rewrite app_nil_r).
      by rewrite Hf, decide_True.
    + cbn [under]. destruct (f (nm :: y :: r)); [done |]. destruct (decide (q = p ++ [nm])) as [->|]; [by rewrite drop_all in Er |].
      destruct (decide (nm ∈ done)); by destruct (decide (p `prefix_of` q)).
  - unfold put_at. rewrite decide_False by by intros ->. unfold named_at. destruct (decide (p `prefix_of` q)) as [Hp|Hp]; [| done].
    destruct (drop (length p) q) as [|y r] eqn:Er; [done |]. assert (y ≠ nm) as Hy.
    { intros ->. apply Hpre. exists r. destruct Hp as [u ->]. rewrite drop_app_length in Er. subst u. by rewrite <- app_assoc. }
    destruct (decide (y ∈ done)) as [Hin|Hin], (decide (y ∈ done ++ [nm])) as [Hin'|Hin']; try done; exfalso.
    + apply Hin', elem_of_app. by left.
    + apply elem_of_app in Hin' as [?|?%list_elem_of_singleton]; done.
Qed.

Section Reload.
Context {St L : Type} {OS : ObjectStore St} {OSok : ObjectStoreOk St}.
Context {JE : Json TreeEntry} {JP : Json TreePage} {JT : Json Tree} {JTok : JsonOk Tree} {JS : Json Snapshot} {HX : Hex}.
Variable fuel : nat.

Definition keeps (tab tab' : PathIndex.Tables) : Prop := PathIndex.links tab' = PathIndex.links tab ∧ PathIndex.state tab' = PathIndex.state tab.

Lemma load_tree_ok n (s : St) : ∀ t f p tab v,
  holds fuel n s t f → valid_place p → well_placed v → exact v (PathIndex.rows tab) →
  ∃ tab', load_tree_index fuel n s t (raw p) tab = Ok tab' ∧ keeps tab tab'
    ∧ well_placed (under_at p f v) ∧ exact (under_at p f v) (PathIndex.rows tab').
Proof.
  induction n as [|n IH]; intros t f p tab v; [done |]. intros (h & es & Hnode & _ & Hb & Hnm & Hnil & Hfound & Hsub) Hp Hv Hr. cbn [load_tree_index].
  rewrite (for_each_entry_ok fuel _ h s t es) by (done || lia).
  assert (∀ es1 done tab1, (∀ e, e ∈ es1 → e ∈ es) → well_placed (named_at p f v done) → exact (named_at p f v done) (PathIndex.rows tab1) →
    ∃ tab', visit_all (λ e t, let path := key_under (raw p) (name e) in let t := PathIndex.set_rows (<[path := PathIndex.mkRow (raw p) (name e) e]>) t in
        if decide (kind e = Directory) then root ← with_context (target e) "directory has no tree"; load_tree_index fuel n s root path t else Ok t) es1 tab1 = Ok tab'
      ∧ keeps tab1 tab' ∧ well_placed (named_at p f v (done ++ map name es1)) ∧ exact (named_at p f v (done ++ map name es1)) (PathIndex.rows tab')) as Hall.
  { induction es1 as [|e es1 IHes]; intros done tab1 Hin Hg Htab; cbn [visit_all map]; [exists tab1; by rewrite app_nil_r |].
    pose proof (Hin e ltac:(left)) as He. assert (f [name e] = Some e) as Hfe by (by apply Hfound).
    rewrite Forall_forall in Hnm. assert (valid_place (p ++ [name e])) as Hq by (apply valid_place_snoc; split; [done | by apply Hnm]).
    rewrite key_under_raw by done. set (tab2 := PathIndex.set_rows _ tab1).
    assert (well_placed (put_at (p ++ [name e]) (Some e) (named_at p f v done)) ∧ exact (put_at (p ++ [name e]) (Some e) (named_at p f v done)) (PathIndex.rows tab2)) as [Hg2 Htab2].
    { split.
      - intros q e0. unfold put_at. case_decide as E; [intros [= <-] | apply Hg]. subst q. split_and!; [by destruct p | done | apply last_snoc].
      - cbn. pose proof (upsert_exact (named_at p f v done) (p ++ [name e]) e (PathIndex.rows tab1) Hg Htab Hq ltac:(apply last_snoc)) as Hu.
        unfold row_of in Hu. by rewrite parent_snoc in Hu. }
    assert (∃ tab3, (if decide (kind e = Directory) then root ← with_context (target e) "directory has no tree"; load_tree_index fuel n s root (raw (p ++ [name e])) tab2 else Ok tab2) = Ok tab3
      ∧ keeps tab1 tab3 ∧ well_placed (named_at p f v (done ++ [name e])) ∧ exact (named_at p f v (done ++ [name e])) (PathIndex.rows tab3)) as (tab3 & Hrun & Hk & Hg3 & Htab3).
    { pose proof (named_at_snoc p f v done (name e) e) as Eg. specialize (Hsub (name e)). rewrite Hfe in Hsub. case_decide as Hk.
      - destruct Hsub as (t' & -> & Hh). cbn [with_context mbind Res_bind]. destruct (IH t' _ _ tab2 _ Hh Hq Hg2 Htab2) as (tab3 & Hrun & Hk3 & Hg3 & Htab3).
        exists tab3. split; [done |]. split; [done |]. split; [intros q e0; rewrite Eg by done; apply Hg3 |]. eapply exact_ext; [| exact Htab3]. intros q. by rewrite Eg.
      - exists tab2. split; [done |]. split; [done |].
        assert (∀ q, put_at (p ++ [name e]) (Some e) (named_at p f v done) q = named_at p f v (done ++ [name e]) q) as E.
        { intros q. rewrite Eg by done. unfold under_at. rewrite Hsub. by case_decide. }
        split; [intros q e0; rewrite <- E; apply Hg2 | by eapply exact_ext]. }
    rewrite Hrun. cbn [mbind Res_bind]. destruct (IHes (done ++ [name e]) tab3 ltac:(intros; apply Hin; by right) Hg3 Htab3) as (tab' & Hrun' & Hk' & Hg' & Htab').
    exists tab'. rewrite <- app_assoc in Hg', Htab'. split; [done |]. split; [| done]. destruct Hk as [E1 E2], Hk' as [E3 E4]. split; congruence. }
  destruct (Hall es [] tab ltac:(done)) as (tab' & Hrun & Hk & Hg & Htab); [intros q e; rewrite named_at_nil; apply Hv | |].
  { eapply exact_ext; [| exact Hr]. intros q. by rewrite named_at_nil. }
  cbn [app] in *. assert (∀ q, named_at p f v (map name es) q = under_at p f v q) as E.
  { intros q. unfold named_at, under_at. case_decide as Hpre; [| done]. destruct (drop (length p) q) as [|x r]; [by rewrite Hnil |].
    case_decide as Hx; [done |]. assert (f (x :: r) = None) as ->; [| done]. assert (f [x] = None) as Hfx.
    { destruct (f [x]) as [e|] eqn:Ef; [| done]. apply Hfound in Ef as [Hin <-]. destruct Hx. by apply list_elem_of_fmap_2. }
    specialize (Hsub x). rewrite Hfx in Hsub. destruct r as [|y r]; [done | apply (Hsub (y :: r))]. }
  exists tab'. split; [exact Hrun |]. split; [done |]. split; [intros q e; rewrite <- E; apply Hg | by eapply exact_ext].
Qed.

Lemma holds_placed n (s : St) : ∀ t f, holds fuel n s t f → well_placed f.
Proof.
  intros t f Hh q e He. destruct (holds_valid fuel n s t f q e Hh He) as [Hq Hne]. split; [done |]. split; [done |]. clear Hq Hne.
  revert t f q Hh He. induction n as [|n IH]; intros t f q; [done |]. intros (h & es & _ & _ & _ & _ & Hnil & Hfound & Hsub) He.
  destruct q as [|nm q]; [congruence |]. specialize (Hsub nm). destruct q as [|y q]; [by apply Hfound in He as [_ <-] |].
  destruct (f [nm]) as [e0|]; [case_decide |]; [| specialize (Hsub (y :: q)); cbn in Hsub; congruence..].
  destruct Hsub as (t' & _ & Hh). rewrite <- (IH t' (under f nm) (y :: q) Hh He). done.
Qed.

Definition same_but_links (x x' : PathIndex.PathIndex) : Prop :=
  PathIndex.saved x' = PathIndex.saved x ∧ PathIndex.rows (PathIndex.tables x') = PathIndex.rows (PathIndex.tables x)
  ∧ PathIndex.state (PathIndex.tables x') = PathIndex.state (PathIndex.tables x).
Lemma same_but_links_trans x y z : same_but_links x y → same_but_links y z → same_but_links x z.
Proof. intros (? & ? & ?) (? & ? & ?). split_and!; congruence. Qed.
Lemma note_groups_ok groups : ∀ x, ∃ x', note_groups groups x = (Ok (), x') ∧ same_but_links x x'.
Proof.
  unfold note_groups. generalize (zip (seq 0 (length groups)) groups) as l. induction l as [|[number group] l IH]; intros x; cbn [mfor]; [by exists x |].
  assert (∀ ps x, ∃ x', mfor ps (λ path, PathIndex.note_link path (Some (u64_MAX, Z.of_nat number))) x = (Ok (), x') ∧ same_but_links x x') as Hin.
  { induction ps as [|path ps IHp]; intros y; cbn [mfor]; [by exists y |].
    assert (∃ y', PathIndex.note_link path (Some (u64_MAX, Z.of_nat number)) y = (Ok (), y') ∧ same_but_links y y') as (y' & Hrun & Hy) by by eexists.
    rewrite (M_bind_run _ _ _ _ _ Hrun). destruct (IHp y') as (x' & -> & Hs). exists x'. split; [done | by eapply same_but_links_trans]. }
  destruct (Hin (link_paths group) x) as (x1 & Hrun1 & Hs1). rewrite (M_bind_run _ _ _ _ _ Hrun1). destruct (IH x1) as (x2 & -> & Hs2).
  exists x2. split; [done | by eapply same_but_links_trans].
Qed.

Variable workspace_id : bytes.
Variable generation : bytes.
Variable depth : nat.

Lemma load_head_ok (s : Session St L) f snapshot :
  index s = Some PathIndex.new_index → holds fuel depth (store (work s)) (root_tree snapshot) f →
  ∃ x, load_head_index generation fuel depth snapshot s = (Ok (), with_index x s) ∧ PathIndex.saved x = None
    ∧ PathIndex.state (PathIndex.tables x) = Some (root_tree snapshot, generation) ∧ exact f (PathIndex.rows (PathIndex.tables x)).
Proof.
  intros Hx Hh. unfold load_head_index. rewrite get_bind. set (x1 := started PathIndex.new_index).
  rewrite (M_bind_run _ _ _ () (with_index x1 s)) by (unfold on_index; by rewrite Hx). rewrite get_bind.
  rewrite (M_bind_run _ _ _ (PathIndex.tables x1) (with_index x1 s)) by done. cbn [work with_index].
  destruct (load_tree_ok depth (store (work s)) (root_tree snapshot) f [] (PathIndex.tables x1) (λ _, None) Hh) as (tab & Hload & _ & _ & Hexact); [constructor | done | |].
  { intros k row. cbn. rewrite lookup_empty. split; [done | by intros (q & e & ? & _)]. }
  change (raw []) with (@nil byte) in Hload. rewrite Hload, lift_ok_bind. set (x2 := PathIndex.mkIndex tab (PathIndex.saved x1)).
  rewrite (M_bind_run _ _ _ () (with_index x2 s)) by done. destruct (note_groups_ok (hardlinks snapshot) x2) as (x3 & Hnote & Hs3 & Hr3 & Hst3).
  rewrite (M_bind_run _ _ _ () (with_index x3 s)) by (unfold on_index; cbn [index with_index]; by rewrite Hnote).
  eexists. split.
  - erewrite M_bind_run by done. unfold on_index. cbn [index with_index]. unfold PathIndex.commit. rewrite get_bind.
    unfold PathIndex.transaction_active. cbn. rewrite Hs3. done.
  - cbn. split; [done |]. split; [done |]. rewrite Hr3. eapply exact_ext; [| exact Hexact]. intros q. by apply under_at_nil.
Qed.
End Reload.

(** ** The next capture of a new process *)

Section Resume.
Context `{Platform} {St : Type} {OS : ObjectStore St} {OSok : ObjectStoreOk St} `{Blake3} {CS : ContentStoreOk St}.
Context {L : Type} {RL : RefStore L} {RLok : RefStoreOk L}.
Context {JE : Json TreeEntry} {JP : Json TreePage} {JT : Json Tree} {JTok : JsonOk Tree}.
Context {JB : Json Blob} {JBok : JsonOk Blob} {JX : Json Xattrs} {JXok : JsonOk Xattrs} {JS : Json Snapshot} {HX : Hex}.
Variable reading : Place → Disk → list (Res bytes) * Disk.
Variable wall : nat → Z.
Variable device : Z.
Variable linked_outside : Z → bool.
Variable workspace_id : bytes.
Variable store_root : option Place.
Variable generation : bytes.
Variables rounds fuel depth : nat.

(** A session with no index whose head is the snapshot of a tree that was indexed
    under this generation of the store. *)
Record resumable (rs : list Refs.RefRecord) (f0 : View) (root0 : ObjectId) (s : Session St L) : Prop := {
  rs_index : index s = None;
  rs_log : says (ref_log s) rs;
  rs_head : ∃ r (snapshot : Snapshot), last rs = Some r ∧ paths_head s = Some (indexed_head_token generation (Refs.snapshot_id r))
    ∧ read_struct_at SnapshotKind (Refs.snapshot_id r) (store (work s)) = Ok snapshot ∧ root_tree snapshot = root0;
  rs_holds : holds fuel depth (store (work s)) root0 f0;
  rs_written : ∃ es, writes (St := St) rounds es root0 ∧ ∀ e, e ∈ es ↔ f0 [name e] = Some e;
}.

Lemma resume_ok s rs f0 root0 : resumable rs f0 root0 s →
  ∃ x l, open_path_index generation fuel depth true s = (Ok (), with_index x (with_log l s))
    ∧ indexed generation rounds fuel depth f0 root0 (with_index x (with_log l s)) ∧ head_ok rs (with_index x (with_log l s)).
Proof.
  intros [Hx Hlog (r & snapshot & Hhead & Htoken & Hread & <-) Hh Hw]. unfold open_path_index. rewrite get_bind, Hx.
  destruct (workspace_head_run s rs Hlog) as (l & Hrun0 & Hl). rewrite (M_bind_run _ _ _ _ _ Hrun0). clear Hrun0.
  set (s1 := with_index PathIndex.new_index (with_log l s)). rewrite (M_bind_run _ _ _ () s1) by done. rewrite Hhead. cbn [fmap option_fmap option_map].
  unfold indexed_head_matches. rewrite Htoken, bool_decide_eq_true_2 by done. cbn [negb].
  destruct (load_head_ok fuel generation depth s1 f0 snapshot eq_refl Hh) as (x & Hload & Hsv & Hst & Hrows).
  assert ((snapshot ← lift (read_struct_at SnapshotKind (Refs.snapshot_id r) (store (work s)) : Res Snapshot); load_head_index generation fuel depth snapshot) s1
          = (Ok (), with_index x s1)) as Hrun by (rewrite Hread, lift_ok_bind; exact Hload).
  rewrite (try_bind _ _ _ _ _ Hrun). exists x, l. split; [done |]. split.
  - constructor; [by eapply holds_placed | by exists x | done | done].
  - split; [done |]. intros r'. rewrite Hhead. intros [= <-]. by exists snapshot.
Qed.

#[local] Abbreviation capturable := (capturable wall device workspace_id).
#[local] Abbreviation view s0 s := (view_of store_root rounds depth s0 (policy s) (disk (work s))).
#[local] Abbreviation reference s0 s := (tree_of store_root rounds depth s0 (policy s) (disk (work s)) []).
#[local] Abbreviation capture_tree := (capture_tree reading wall device linked_outside workspace_id store_root generation rounds fuel depth).

Lemma capture_resumed_run s rs s0 f0 root0 root hints :
  still reading → empty_fits → capturable s → resumable rs f0 root0 s →
  reference s0 s = Ok root → readable store_root rounds fuel (policy s) (disk (work s)) (view s0 s) →
  excludes (policy s) [] = false → hints_ok (policy s) (disk (work s)) (view s0 s) f0 hints →
  ∃ s', capture_tree (Some hints) s = (Ok root, s') ∧ disk (work s') = disk (work s) ∧ extends (store (work s)) (store (work s'))
    ∧ indexed generation rounds fuel depth (view s0 s) root s' ∧ capturable s' ∧ says (ref_log s') rs ∧ rules (policy s') = rules (policy s).
Proof.
  intros Hstill Hempty Hc Hres Href Hread Hkept Hhints. pose proof (captured_of store_root rounds Hempty depth s0 (policy s) (disk (work s)) root Href) as Hcap.
  pose proof (rs_log _ _ _ _ Hres) as Hlog.
  pose proof (leaves_tree reading wall device linked_outside workspace_id store_root generation rounds fuel depth (Some hints) s rs Hlog) as [Hleft _].
  enough (∃ s', capture_tree (Some hints) s = (Ok root, s') ∧ disk (work s') = disk (work s) ∧ extends (store (work s)) (store (work s'))
    ∧ indexed generation rounds fuel depth (view s0 s) root s' ∧ capturable s' ∧ rules (policy s') = rules (policy s)) as (s' & Hrun & Hrest).
  { exists s'. rewrite Hrun in Hleft. tauto. }
  destruct (resume_ok s rs f0 root0 Hres) as (x & l & Hopen & Hidx & Hhead). set (s1 := with_index x (with_log l s)) in *.
  assert (capturable s1) as Hc1.
  { destruct Hc as [H1 H2 H3 H4]. constructor; [done | done | done |]. intros y [= <-]. destruct (ix_lists _ _ _ _ _ _ _ Hidx) as (z & Hz & Hs & _). by injection Hz as ->. }
  destruct (existsb capture_rules_changed hints) eqn:Erules.
  - pose proof Hc as [H1 H2 H3 H4].
    destruct (capture_root_retry_ok reading wall device linked_outside workspace_id store_root generation rounds fuel depth _ _ _ _ Hcap H1 Hread Hstill H2 s rs Hlog)
      as (s' & Hrun & Hr & Hix & _ & He & _); [done | done | done | done |].
    exists s'. unfold Capture.capture_tree. rewrite Erules. split; [exact Hrun |]. split; [apply Hr |]. split; [done |]. split; [done |]. split; [by eapply capturable_after | apply Hr].
  - destruct (next_tree reading wall device linked_outside workspace_id store_root generation rounds fuel depth s1 rs f0 root0 (view s0 s) root hints) as (s' & Hrun & Hd & He & Hix & Hcs); [done.. |].
    exists s'. split; [| done]. revert Hrun. unfold Capture.capture_tree. rewrite Erules.
    assert (open_path_index generation fuel depth true s1 = (Ok (), s1)) as Hopen1 by done.
    rewrite (M_bind_run _ _ _ _ _ Hopen), (M_bind_run _ _ _ _ _ Hopen1). done.
Qed.

(** C10 A new process goes on where the last one stopped: its index comes from the
    head's tree, and its first incremental capture, too, ends with the tree of
    the reference, the store holding it and the index listing it. *)
Theorem capture_resumed_spec s rs s0 f0 root0 root hints :
  still reading → empty_fits → capturable s → resumable rs f0 root0 s →
  reference s0 s = Ok root → readable store_root rounds fuel (policy s) (disk (work s)) (view s0 s) →
  excludes (policy s) [] = false → hints_ok (policy s) (disk (work s)) (view s0 s) f0 hints →
  ∃ s', capture_tree (Some hints) s = (Ok root, s') ∧ disk (work s') = disk (work s)
    ∧ indexed generation rounds fuel depth (view s0 s) root s' ∧ capturable s' ∧ says (ref_log s') rs.
Proof.
  intros H1 H2 H3 H4 H5 H6 H7 H8. destruct (capture_resumed_run s rs s0 f0 root0 root hints) as (s' & ? & ? & _ & ? & ? & ? & _); [done.. |]. by exists s'.
Qed.
End Resume.
