(* ===== verification/Seal.v ===== *)
(** * Seal: a capture becomes a snapshot of the timeline ([furrow-core/src/repository.rs])

    [snapshot_internal_with_parent]: the policy is read anew, the folder captured
    within one transaction of the catalog, the snapshot written, its reference
    appended to the log, its row to the catalog, and the head noted as indexed.
    The change tracker is off and the store has no byte budget. *)

From S2P Require Import Prelude Model Tree Paths Disk Files Policy RefStore Capture.
From S2P Require PathIndex Catalog Refs.
#[local] Open Scope Z_scope.

(** ** Text for people *)

(** [String::from_utf8_lossy]: the longest start of a character that is not one
    becomes U+FFFD. *)
Definition REPLACEMENT : bytes := [Byte.xef; Byte.xbf; Byte.xbd].
(** What may follow the lead byte [x], and how many bytes follow it in all. *)
Definition second_byte (x : Byte.byte) : Byte.byte → bool :=
  let n := byte.unsigned x in
  if n =? 0xe0 then in_range 0xa0 0xbf else if n =? 0xed then in_range 0x80 0x9f
  else if n =? 0xf0 then in_range 0x90 0xbf else if n =? 0xf4 then in_range 0x80 0x8f else continuation.
Definition following (x : Byte.byte) : nat :=
  if in_range 0xc2 0xdf x then 1 else if in_range 0xe0 0xef x then 2 else if in_range 0xf0 0xf4 x then 3 else 0.
Fixpoint lossy (fuel : nat) (b : bytes) : bytes :=
  match fuel, b with
  | S fuel, x :: b =>
    if in_range 0 0x7f x then x :: lossy fuel b
    else
      match following x, b with
      | 1%nat, y :: b' => if continuation y then [x; y] ++ lossy fuel b' else REPLACEMENT ++ lossy fuel b
      | 2%nat, y :: b' =>
        if second_byte x y then
          match b' with
          | z :: b'' => if continuation z then [x; y; z] ++ lossy fuel b'' else REPLACEMENT ++ lossy fuel b'
          | [] => REPLACEMENT
          end
        else REPLACEMENT ++ lossy fuel b
      | 3%nat, y :: b' =>
        if second_byte x y then
          match b' with
          | z :: b'' =>
            if continuation z then
              match b'' with
              | w :: b''' => if continuation w then [x; y; z; w] ++ lossy fuel b''' else REPLACEMENT ++ lossy fuel b''
              | [] => REPLACEMENT
              end
            else REPLACEMENT ++ lossy fuel b'
          | [] => REPLACEMENT
          end
        else REPLACEMENT ++ lossy fuel b
      | _, _ => REPLACEMENT ++ lossy fuel b
      end
  | _, _ => []
  end.
Definition from_utf8_lossy (b : bytes) : bytes := lossy (length b) b.
Definition ignored_report (p : CapturePolicy) : option IgnoredSummary :=
  '(names, more) ← ignored_summary p;
  Some (mkIgnored (map (λ '(nm, directory), from_utf8_lossy nm ++ (if (directory : bool) then [slash] else [])) names) more).

Definition trigger_name (t : SnapshotTrigger) : bytes :=
  b_ match t with
     | Initial => "initial" | Manual => "manual" | Watcher => "watcher" | PreRewind => "pre_rewind"
     | ForkBase => "fork_base" | AgentRun => "agent_run" | MergeSource => "merge_source" | PreMerge => "pre_merge"
     | Merge => "merge" | SyncLocal => "sync_local" | SyncPush => "sync_push" | SyncPull => "sync_pull"
     | Inspection => "inspection" | Claim => "claim" | Release => "release" | Coord => "coord"
     end.

(** [hardlink::groups] *)
Definition groups (noted : list (list bytes)) : list LinkGroup := map mkLinkGroup noted.

#[export] Instance session_catalog {St L} : Catalog.HasCatalog (Session St L) := {|
  Catalog.catalog_of := catalog;
  Catalog.with_catalog c s := mkSession (work s) (index s) c (policy s) (paths_head s) (ref_log s);
|}.

(** What is at [.furrowpolicy]. *)
Definition policy_file `{Platform} (d : Disk) : Res PolicyFile :=
  match symlink_metadata [POLICY_FILE] d with
  | Err e => if is_not_found e then Ok NoPolicyFile else Err e
  | Ok i => Ok (match body i with Regular content => PolicyText content | _ => NotRegular end)
  end.
Definition resolve_gitignore (discover : Disk → Res (option Matcher)) (d : Disk) (p : CapturePolicy) : Res CapturePolicy :=
  if gitignore p then
    m ← discover d;
    Ok (mkPolicy (excluded p) (gitignore p) m (omitted p) (full_capture p) (virtual_subtree p))
  else Ok p.

Section Seal.
Context `{Platform} {St : Type} `{ObjectStore St, Json Blob, Json Xattrs, Json TreeEntry, Json TreePage, Json Tree, Json Snapshot, Hex}.
Context {L : Type} `{RefStore L}.
Variable reading : Place → Disk → list (Res bytes) * Disk.
Variable wall : nat → Z.
Variable device : Z.
Variable linked_outside : Z → bool.
Variable workspace_id : bytes.
Variable store_root : option Place.
Variable generation : bytes.
Variables rounds fuel depth : nat.
(** [gitignore::Rules::discover] *)
Variable discover : Disk → Res (option Matcher).
(** [capture_sqlite_backups] and what the claims registry has in force. *)
Variable capture_sqlite_backups : M (Session St L) (list SqliteBackup).
Variable active_claims : Session St L → Res (list ClaimRecord).
(** The time of day, in seconds and nanoseconds. *)
Variable now : Z * Z.

#[local] Abbreviation capture_tree := (capture_tree reading wall device linked_outside workspace_id store_root generation rounds fuel depth).

Definition load_policy (d : Disk) : Res CapturePolicy :=
  file ← policy_file d; own ← load file; resolve_gitignore discover d own.
Definition use_policy (p : CapturePolicy) : M (Session St L) () := on_policy (put p).

Definition snapshot_ignored (id : ObjectId) : M (Session St L) (option IgnoredSummary) :=
  s ← get;
  snapshot ← lift (read_struct_at SnapshotKind id (store (work s)) : Res Snapshot);
  mret (ignored snapshot).
(** What a walk saw, else what the parent's capture had seen. *)
Definition seal_ignored (parent : option ObjectId) : M (Session St L) (option IgnoredSummary) :=
  s ← get;
  if full_capture (policy s) then mret (ignored_report (policy s))
  else
    match ignored_report (policy s), parent with
    | Some report, Some id =>
      before ← snapshot_ignored id;
      mret (match before with Some r => Some r | None => Some report end)
    | o, _ => mret o
    end.

(** The snapshot of what [capture_tree] finds. *)
Definition draft (label : option bytes) (trigger : SnapshotTrigger) (changed : option (list Hint)) (merge_parents : list ObjectId)
    (parent : option ObjectId) : M (Session St L) Snapshot :=
  root_tree ← capture_tree changed;
  sqlite_backups ← (if decide (trigger = Watcher) then mret [] else capture_sqlite_backups);
  s ← get;
  claims ← lift (active_claims s);
  _ ← open_path_index generation fuel depth true;
  noted ← index_tables PathIndex.link_groups;
  s ← get;
  let excluded_paths := excluded (policy s) in
  ignored ← seal_ignored parent;
  mret (mkSnapshot root_tree parent merge_parents now.1 now.2 Quiescent trigger label sqlite_backups claims excluded_paths (groups noted) ignored).

Definition index_ref_record (r : Refs.RefRecord) : M (Session St L) () :=
  on_catalog (Catalog.commit_snapshot workspace_id (Refs.snapshot_id r) (Refs.sealed_at r) (Refs.label r) (trigger_name (Refs.trigger r))).
Definition publish_snapshot (id : ObjectId) (sealed_at : Z) (label : option bytes) (trigger : SnapshotTrigger) : M (Session St L) () :=
  record ← on_log (ref_append id sealed_at label trigger);
  index_ref_record record.

Definition put_snapshot (snapshot : Snapshot) : M (Session St L) ObjectId :=
  on_work (on_objects (put_object SnapshotKind (to_vec snapshot))).
Definition snapshot_internal_with_parent (label : option bytes) (trigger : SnapshotTrigger) (changed : option (list Hint))
    (merge_parents : list ObjectId) (parent_override : option ObjectId) : M (Session St L) ObjectId :=
  parent ← match parent_override with Some p => mret (Some p) | None => workspace_head end;
  s ← get;
  policy ← lift (load_policy (disk (work s)));
  _ ← use_policy policy;
  id ← Catalog.batch (snapshot ← draft label trigger changed merge_parents parent; put_snapshot snapshot);
  _ ← publish_snapshot id now.1 label trigger;
  _ ← remember_indexed_head generation id;
  mret id.
Definition snapshot_internal (label : option bytes) (trigger : SnapshotTrigger) (changed : option (list Hint)) (merge_parents : list ObjectId)
    : M (Session St L) ObjectId :=
  snapshot_internal_with_parent label trigger changed merge_parents None.
Definition snapshot (label : option bytes) (trigger : SnapshotTrigger) : M (Session St L) ObjectId :=
  snapshot_internal label trigger None [].
Definition snapshot_changed_paths (label : option bytes) (trigger : SnapshotTrigger) (changed : list Hint) : M (Session St L) ObjectId :=
  snapshot_internal label trigger (Some changed) [].
End Seal.
