(* ===== verification/SealTheory.v ===== *)
(** * SealTheory: the life of a timeline

    A seal succeeds where its capture does, and its snapshot is of the tree of the
    reference. What it leaves is what the next seal needs, of this process or of
    one started later, after the disk has changed: the invariant of the runs of a
    workspace, in which sealing, changing the folder and restarting alternate. *)

From S2P Require Import Prelude Model Tree TreeTheory Bundle Chunker ChunkerTheory Paths Disk Files Policy PolicyTheory DiskTheory PlanTheory RewindTheory Capture.
From S2P Require Import PathIndexTheory CaptureSpec CaptureTheory CaptureWalk RefStore CaptureLog CaptureFull DeltaPaths CaptureDelta CaptureReload Seal.
From S2P Require PathIndex Catalog CatalogTheory Refs.
From stdpp Require Import relations.
#[local] Open Scope Z_scope.

(** ** A transaction of the catalog *)

Section Batch.
Context {St L : Type}.
Definition with_cat (c : Catalog.Catalog) (s : Session St L) : Session St L := Catalog.with_catalog c s.
Definition begun (c : Catalog.Catalog) : Catalog.Catalog := (Catalog.refresh_file_cache (Catalog.begin_ c).2).2.
Lemma in_batch_run {A} (write : M (Session St L) A) s a s' :
  Catalog.is_idle (catalog s) = true → write (with_cat (begun (catalog s)) s) = (Ok a, s') →
  Catalog.batch write s = (Ok a, with_cat (Catalog.with_saved None (catalog s')) s').
Proof.
  intros Hi Hw. unfold Catalog.batch. rewrite gets_bind. cbn [Catalog.catalog_of session_catalog]. rewrite Hi. cbn [negb].
  erewrite (M_bind_run (Catalog.zoom Catalog.begin_)) by done. erewrite (M_bind_run (Catalog.zoom Catalog.refresh_file_cache)) by done.
  erewrite try_bind by exact Hw. done.
Qed.
Lemma begun_tables c : Catalog.tables (begun c) = Catalog.tables c.
Proof. unfold begun, Catalog.refresh_file_cache, Catalog.begin_. cbn. by case_match. Qed.
Lemma begun_ok c : CatalogTheory.conn_ok c → Catalog.is_idle c = true → CatalogTheory.conn_ok (begun c).
Proof. intros Hc Hi. eapply CatalogTheory.conn_step_ok; [exact Hc | by apply CatalogTheory.step_begin]. Qed.
Lemma committed_ok c : CatalogTheory.conn_ok c → CatalogTheory.conn_ok (Catalog.with_saved None c).
Proof.
  intros Hc. destruct (Catalog.is_idle c) eqn:E.
  - destruct c as [t [sv|] fs dv v rf]; [done |]. exact Hc.
  - exact (CatalogTheory.conn_step_ok _ _ Hc (CatalogTheory.step_commit c E)).
Qed.
Lemma commit_snapshot_run ws id at_ lab trg c : ∃ c', Catalog.commit_snapshot ws id at_ lab trg c = (Ok (), c')
  ∧ (CatalogTheory.conn_ok c → CatalogTheory.conn_ok c') ∧ Catalog.stat_cache (Catalog.tables c') = Catalog.stat_cache (Catalog.tables c)
  ∧ Catalog.saved c' = Catalog.saved c.
Proof.
  eexists. split; [done |]. split; [| done]. intros Hc. do 2 (eapply CatalogTheory.conn_step_ok; [| by apply CatalogTheory.step_other]). exact Hc.
Qed.
End Batch.

Section SealOk.
Context `{Platform} {St : Type} {OS : ObjectStore St} {OSok : ObjectStoreOk St} `{Blake3} {CS : ContentStoreOk St}.
Context {L : Type} {RL : RefStore L} {RLok : RefStoreOk L}.
Context {JE : Json TreeEntry} {JP : Json TreePage} {JT : Json Tree} {JTok : JsonOk Tree}.
Context {JB : Json Blob} {JBok : JsonOk Blob} {JX : Json Xattrs} {JXok : JsonOk Xattrs} {JS : Json Snapshot} {JSok : JsonOk Snapshot} {HX : Hex}.
Variable reading : Place → Disk → list (Res bytes) * Disk.
Variable wall : nat → Z.
Variable device : Z.
Variable linked_outside : Z → bool.
Variable workspace_id : bytes.
Variable store_root : option Place.
Variable generation : bytes.
Variables rounds fuel depth : nat.

#[local] Abbreviation capturable := (capturable wall device workspace_id).
#[local] Abbreviation cache_right := (cache_right wall device workspace_id).
#[local] Abbreviation indexed := (indexed generation rounds fuel depth).
#[local] Abbreviation capture_tree := (capture_tree reading wall device linked_outside workspace_id store_root generation rounds fuel depth).

(** What a seal leaves: the head is a snapshot of [root], which the store holds,
    and the index, if the process has it yet, lists it. *)
Record sealed (rs : list Refs.RefRecord) (f : View) (root : ObjectId) (s : Session St L) : Prop := {
  sd_capturable : capturable s;
  sd_idle : Catalog.is_idle (catalog s) = true;
  sd_log : says (ref_log s) rs;
  sd_head : ∃ r (snapshot : Snapshot), last rs = Some r ∧ paths_head s = Some (indexed_head_token generation (Refs.snapshot_id r))
    ∧ read_struct_at SnapshotKind (Refs.snapshot_id r) (store (work s)) = Ok snapshot ∧ root_tree snapshot = root;
  sd_holds : holds fuel depth (store (work s)) root f;
  sd_written : ∃ es, writes (St := St) rounds es root ∧ ∀ e, e ∈ es ↔ f [name e] = Some e;
  sd_index : is_Some (index s) → indexed f root s;
}.
Lemma sealed_head rs f root s : sealed rs f root s → head_ok rs s.
Proof. intros [_ _ Hl (r & snapshot & Hr & _ & Hs & _) _ _ _]. split; [done |]. intros r'. rewrite Hr. intros [= <-]. eauto. Qed.

(** ** The folder changes, a new process starts *)

Definition with_disk (d : Disk) (s : Session St L) : Session St L :=
  mkSession (mkWork (store (work s)) d) (index s) (catalog s) (policy s) (paths_head s) (ref_log s).
Definition restarted (v : Z) (s : Session St L) : Session St L :=
  mkSession (work s) None (CatalogTheory.opened (Catalog.tables (catalog s)) v) no_policy (paths_head s) (ref_log s).

Lemma sealed_moved rs f root s s' : sealed rs f root s → capturable s' → Catalog.is_idle (catalog s') = true →
  ref_log s' = ref_log s → paths_head s' = paths_head s → store (work s') = store (work s) → (index s' = index s ∨ index s' = None) →
  sealed rs f root s'.
Proof.
  intros [S1 S2 S3 S4 S5 S6 S7] Hc Hi El Ep Es Ex. constructor; try done; [by rewrite El | by rewrite Ep, Es | by rewrite Es |].
  intros [x Hx]. destruct Ex as [Ex|Ex]; [| congruence]. rewrite Ex in Hx. destruct (S7 ltac:(by exists x)) as [I1 I2 I3 I4].
  constructor; [done | by rewrite Ex | by rewrite Es | done].
Qed.
Lemma capturable_changed s d : wall_close wall → capturable s → honest (disk (work s)) d → names_ok d → one_inode d → capturable (with_disk d s).
Proof. intros Hclose [H1 H2 H3 H4] Hh Hn Ho. constructor; [done | done | by eapply cache_right_honest | done]. Qed.
Lemma capturable_restarted s v : 0 ≤ v → capturable s → capturable (restarted v s).
Proof.
  intros Hv [H1 H2 [_ H3] H4]. constructor; [done | done | split; [| exact H3] | done].
  split; cbn; [done | lia |]. intros _. by apply CatalogTheory.coherent_empty.
Qed.
(** ** The steps of one seal *)

Lemma read_put (k : ObjectKind) (a : Snapshot) (s : St) : blen (to_vec a) ≤ MAX_OBJECT_LEN →
  ∃ s', put_object k (to_vec a) s = (Ok (object_id k (to_vec a)), s') ∧ extends s s' ∧ read_struct_at k (object_id k (to_vec a)) s' = Ok a.
Proof.
  intros Hl. destruct (put_ok k (to_vec a) s Hl) as (s' & Hput & He & Hr). exists s'. split; [done |]. split; [done |].
  unfold read_struct_at. rewrite Hr. cbn. by rewrite from_to.
Qed.
Lemma read_extends (k : ObjectKind) (id : ObjectId) (a : Snapshot) (s s' : St) : extends s s' → read_struct_at k id s = Ok a → read_struct_at k id s' = Ok a.
Proof. intros He (b & Hb & Ha)%Res_bind_ok. unfold read_struct_at. by rewrite (He _ _ _ Hb). Qed.
Lemma holds_extends n (s s' : St) t f : extends s s' → holds fuel n s t f → holds fuel n s' t f.
Proof.
  intros He. revert t f. induction n as [|n IH]; intros t f; [done |]. intros (h & es & Hn & Hs & Hb & Hv & Hnil & Hfound & Hsub).
  exists h, es. split_and!; try done; [by eapply node_extends |]. intros nm. specialize (Hsub nm). destruct (f [nm]); [| done].
  case_decide; [| done]. destruct Hsub as (t' & ? & ?). exists t'. split; [done | by apply IH].
Qed.

Lemma seal_ignored_run parent (s : Session St L) :
  (∀ id, parent = Some id → ∃ snapshot : Snapshot, read_struct_at SnapshotKind id (store (work s)) = Ok snapshot) →
  ∃ o, seal_ignored parent s = (Ok o, s).
Proof.
  intros Hp. unfold seal_ignored. rewrite get_bind. destruct (full_capture (policy s)); [by eexists |].
  destruct (ignored_report (policy s)) as [report|]; [| by eexists]. destruct parent as [id|]; [| by eexists].
  destruct (Hp id eq_refl) as (snapshot & Hs). unfold snapshot_ignored. eexists.
  erewrite M_bind_run by (rewrite get_bind, Hs, lift_ok_bind; done). done.
Qed.

Variable discover : Disk → Res (option Matcher).
Variable capture_sqlite_backups : M (Session St L) (list SqliteBackup).
Variable active_claims : Session St L → Res (list ClaimRecord).
(** The claims registry can be read. *)
Hypothesis claims_read : ∀ s, ∃ claims, active_claims s = Ok claims.
#[local] Abbreviation load_policy := (load_policy discover).
#[local] Abbreviation draft now := (draft reading wall device linked_outside workspace_id store_root generation rounds fuel depth capture_sqlite_backups active_claims now).
#[local] Abbreviation seal now := (snapshot_internal reading wall device linked_outside workspace_id store_root generation rounds fuel depth discover
  capture_sqlite_backups active_claims now).

(** The backups of databases add objects and nothing else. *)
Definition backups_ok : Prop := ∀ s, ∃ bs st, capture_sqlite_backups s
    = (Ok bs, mkSession (mkWork st (disk (work s))) (index s) (catalog s) (policy s) (paths_head s) (ref_log s))
  ∧ extends (store (work s)) st.

(** Whoever runs the capture finds [root], the tree [f] shows; one of the whole
    folder stores what every entry names. *)
Definition captures (changed : option (list Hint)) (rs : list Refs.RefRecord) (pol : CapturePolicy) (f : View) (root : ObjectId) (s : Session St L) : Prop :=
  ∀ c l, cache_right (store (work s)) (disk (work s)) c → says l rs →
  ∃ s', capture_tree changed (mkSession (work s) (index s) c pol (paths_head s) l) = (Ok root, s')
    ∧ disk (work s') = disk (work s) ∧ extends (store (work s)) (store (work s')) ∧ indexed f root s' ∧ capturable s'
    ∧ says (ref_log s') rs ∧ rules (policy s') = rules pol
    ∧ (changed = None → kept_whole (store (work s')) f).

Lemma draft_run now label trigger changed merge_parents parent s1 s2 rs f root :
  (trigger = Watcher ∨ backups_ok) → capture_tree changed s1 = (Ok root, s2) → indexed f root s2 → says (ref_log s2) rs →
  (∀ id, parent = Some id → ∃ snapshot : Snapshot, read_struct_at SnapshotKind id (store (work s2)) = Ok snapshot) →
  ∃ snapshot st, draft now label trigger changed merge_parents parent s1
      = (Ok snapshot, mkSession (mkWork st (disk (work s2))) (index s2) (catalog s2) (policy s2) (paths_head s2) (ref_log s2))
    ∧ extends (store (work s2)) st ∧ root_tree snapshot = root ∧ Model.parent snapshot = parent ∧ excluded_paths snapshot = excluded (policy s2).
Proof.
  intros Hb Hrun Hix Hlog Hp. unfold Seal.draft. rewrite (M_bind_run _ _ _ _ _ Hrun).
  assert (∃ bs st, (if decide (trigger = Watcher) then mret [] else capture_sqlite_backups) s2
      = (Ok bs, mkSession (mkWork st (disk (work s2))) (index s2) (catalog s2) (policy s2) (paths_head s2) (ref_log s2))
    ∧ extends (store (work s2)) st) as (bs & st & Hbs & He).
  { case_decide as Ht; [| destruct Hb as [?|Hb]; [done | apply Hb]]. exists [], (store (work s2)). split; [| apply extends_refl]. by destruct s2 as [[] ? ? ? ? ?]. }
  rewrite (M_bind_run _ _ _ _ _ Hbs). set (s3 := mkSession _ _ _ _ _ _). rewrite get_bind.
  destruct (claims_read s3) as [claims ->]. rewrite lift_ok_bind.
  destruct (ix_lists _ _ _ _ _ _ _ Hix) as (x & Hx & _).
  rewrite (M_bind_run _ _ _ () s3) by (unfold open_path_index; rewrite get_bind; cbn [index s3]; by rewrite Hx).
  rewrite (M_bind_run _ _ _ (PathIndex.link_groups (PathIndex.tables x)) s3).
  2: { unfold index_tables, on_index. cbn [index s3]. subst s3. rewrite Hx. done. }
  rewrite get_bind. destruct (seal_ignored_run parent s3) as (o & Ho).
  { intros id Hid. destruct (Hp id Hid) as (snapshot & Hs). exists snapshot. by eapply read_extends. }
  rewrite (M_bind_run _ _ _ _ _ Ho). eexists _, st. split; [done |]. done.
Qed.

(** What of a seal comes before its snapshot is written. *)
Definition drafted (now : Z * Z) (label : option bytes) (trigger : SnapshotTrigger) (changed : option (list Hint)) (merge_parents : list ObjectId)
    : M (Session St L) Snapshot :=
  parent ← workspace_head;
  s ← get;
  policy ← lift (load_policy (disk (work s)));
  _ ← use_policy policy;
  Catalog.batch (draft now label trigger changed merge_parents parent).
(** The snapshot can be stored and referred to. *)
Definition fits (now : Z * Z) (label : option bytes) (trigger : SnapshotTrigger) (changed : option (list Hint)) (merge_parents : list ObjectId)
    (rs : list Refs.RefRecord) (s : Session St L) : Prop :=
  match (drafted now label trigger changed merge_parents s).1 with
  | Ok snapshot => blen (to_vec snapshot) ≤ MAX_OBJECT_LEN ∧ room rs (object_id SnapshotKind (to_vec snapshot)) now.1 label trigger
  | Err _ => True
  end.

Lemma refer_run now label trigger rs id l : says l rs → room rs id now label trigger →
  ∃ r l' rs', ref_append id now label trigger l = (Ok r, l') ∧ says l' rs' ∧ last rs' = Some r ∧ Refs.snapshot_id r = id
    ∧ (rs' = rs ∨ rs' = rs ++ [r]).
Proof.
  intros Hl Hroom. destruct (last rs) as [r|] eqn:Er; [destruct (decide (Refs.snapshot_id r = id)) as [<-|Hne] |].
  - destruct (append_again l rs r now label trigger Hl Er Hroom) as (l' & Hrun & Hl'). exists r, l', rs. split_and!; try done. by left.
  - destruct (append_says l rs id now label trigger Hl Hroom) as (r' & l' & Hrun & Hl' & Hid & _); [rewrite Er; by intros ? [= <-] |].
    exists r', l', (rs ++ [r']). split_and!; [done | done | by rewrite last_snoc | done | by right].
  - destruct (append_says l rs id now label trigger Hl Hroom) as (r' & l' & Hrun & Hl' & Hid & _); [by rewrite Er |].
    exists r', l', (rs ++ [r']). split_and!; [done | done | by rewrite last_snoc | done | by right].
Qed.

(** The snapshot a seal wrote, and the log and the session it left. *)
Definition seals (changed : option (list Hint)) (now : Z * Z) label trigger (rs : list Refs.RefRecord) (pol : CapturePolicy) (f : View) (root : ObjectId)
    (s : Session St L) : Prop :=
  ∃ snapshot id r rs' s', seal now label trigger changed [] s = (Ok id, s') ∧ disk (work s') = disk (work s)
    ∧ extends (store (work s)) (store (work s'))
    ∧ read_struct_at SnapshotKind id (store (work s')) = Ok snapshot ∧ root_tree snapshot = root
    ∧ Model.parent snapshot = Refs.snapshot_id <$> last rs ∧ excluded_paths snapshot = excluded pol
    ∧ last rs' = Some r ∧ Refs.snapshot_id r = id ∧ (rs' = rs ∨ rs' = rs ++ [r]) ∧ is_Some (index s') ∧ sealed rs' f root s'
    ∧ (changed = None → kept_whole (store (work s')) f).

Lemma seal_run changed now label trigger rs pol f root s :
  capturable s → Catalog.is_idle (catalog s) = true → head_ok rs s → (trigger = Watcher ∨ backups_ok) →
  load_policy (disk (work s)) = Ok pol → captures changed rs pol f root s → fits now label trigger changed [] rs s →
  seals changed now label trigger rs pol f root s.
Proof.
  intros Hc Hi [Hlog Hhead] Hb Hpol Hcap Hfits. pose proof Hc as [H1 H2 [H3 H3'] H4].
  destruct (workspace_head_run s rs Hlog) as (l & Hhd & Hl). set (s1 := mkSession (work s) (index s) (catalog s) pol (paths_head s) l).
  destruct (Hcap (begun (catalog s)) l) as (s2 & Hrun & Hd2 & He2 & Hix2 & Hc2 & Hl2 & Hr2 & Hk2); [| done |].
  { split; [by apply begun_ok | by rewrite begun_tables]. }
  destruct (draft_run now label trigger changed [] (Refs.snapshot_id <$> last rs) (with_cat (begun (catalog s1)) s1) s2 rs f root Hb Hrun Hix2 Hl2)
    as (snapshot & st & Hdraft & He3 & Hroot & Hparent & Hex).
  { intros id. destruct (last rs) as [r|] eqn:Er; [| done]. intros [= <-]. destruct (Hhead r eq_refl) as (snapshot & Hs). exists snapshot. by eapply read_extends. }
  set (s3 := mkSession _ _ _ _ _ _) in Hdraft.
  assert (blen (to_vec snapshot) ≤ MAX_OBJECT_LEN ∧ room rs (object_id SnapshotKind (to_vec snapshot)) now.1 label trigger) as [Hlen Hroom].
  { revert Hfits. unfold fits, drafted. rewrite (M_bind_run _ _ _ _ _ Hhd), get_bind. cbn [work with_log]. rewrite Hpol, lift_ok_bind.
    rewrite (M_bind_run _ _ _ () s1) by done. rewrite (in_batch_run _ s1 _ _ Hi Hdraft). done. }
  destruct (read_put SnapshotKind snapshot st Hlen) as (st4 & Hput & He4 & Hread). set (id := object_id _ _) in *.
  set (s4 := mkSession (mkWork st4 (disk (work s2))) (index s2) (catalog s2) (policy s2) (paths_head s2) (ref_log s2)).
  set (s5 := with_cat (Catalog.with_saved None (catalog s4)) s4).
  destruct (refer_run now.1 label trigger rs id (ref_log s2) Hl2 Hroom) as (r & l' & rs' & Happ & Hl' & Hlast & Hid & Hrs').
  destruct (commit_snapshot_run workspace_id (Refs.snapshot_id r) (Refs.sealed_at r) (Refs.label r) (trigger_name (Refs.trigger r)) (catalog s5)) as (c' & Hcommit & Hcok & Hcrows & Hcs).
  set (s' := mkSession (work s5) (index s5) c' (policy s5) (Some (indexed_head_token generation id)) l').
  assert (extends (store (work s2)) st4) as He24 by by eapply extends_trans.
  assert (seal now label trigger changed [] s = (Ok id, s')) as Hseal.
  { unfold snapshot_internal, snapshot_internal_with_parent. rewrite (M_bind_run _ _ _ _ _ Hhd), get_bind. cbn [work with_log]. rewrite Hpol, lift_ok_bind.
    rewrite (M_bind_run _ _ _ () s1) by done.
    rewrite (M_bind_run _ _ _ id s5).
    2: { apply (in_batch_run _ s1 id s4 Hi). rewrite (M_bind_run _ _ _ _ _ Hdraft). unfold put_snapshot, on_work, on_objects. cbn [work store s3 s4]. by rewrite Hput. }
    rewrite (M_bind_run _ _ _ () (mkSession (work s5) (index s5) c' (policy s5) (paths_head s5) l')); [done |].
    unfold publish_snapshot. rewrite (M_bind_run _ _ _ r (mkSession (work s5) (index s5) (catalog s5) (policy s5) (paths_head s5) l')).
    - unfold index_ref_record, on_catalog. cbn [catalog]. by rewrite Hcommit.
    - unfold on_log. cbn [ref_log s5 s4 with_cat Catalog.with_catalog session_catalog]. by rewrite Happ. }
  exists snapshot, id, r, rs', s'. split; [done |]. split; [done |]. split; [by eapply extends_trans |]. split; [done |]. split; [done |].
  split; [done |]. split; [rewrite Hex; by injection Hr2 |]. split; [done |]. split; [done |]. split; [done |].
  assert (capturable s') as Hc'.
  { destruct Hc2 as [C1 C2 [C3 C3'] C4]. constructor; cbn; [done | done | | done].
    apply (cache_right_extends wall device workspace_id (store (work s2))); [exact He24 |]. split.
    - apply Hcok. by apply committed_ok.
    - intros key row. rewrite Hcrows. apply C3'. }
  assert (indexed f root s') as Hix'.
  { destruct Hix2 as [I1 I2 I3 I4]. constructor; [done | exact I2 | | done]. by eapply holds_extends. }
  split; [by destruct (ix_lists _ _ _ _ _ _ _ Hix') as (x & Hx & _); exists x |].
  split; [| intros E; eapply kept_extends; [exact He24 | by apply Hk2]].
  constructor; [done | | done | | apply Hix' | apply Hix' | done].
  - unfold s'. cbn [catalog]. unfold Catalog.is_idle. rewrite Hcs. done.
  - exists r, snapshot. rewrite Hid. split_and!; [done | done | exact Hread | done].
Qed.

(** ** The captures a seal makes *)

#[local] Abbreviation view s0 pol d := (view_of store_root rounds depth s0 pol d).
#[local] Abbreviation reference s0 pol d := (tree_of store_root rounds depth s0 pol d []).
(** A capture of the disk under this policy can be made and read back. *)
Record in_reach (s0 : St) (pol : CapturePolicy) (d : Disk) (root : ObjectId) : Prop := {
  ir_policy : load_policy d = Ok pol;
  ir_tree : reference s0 pol d = Ok root;
  ir_readable : readable store_root rounds fuel pol d (view s0 pol d);
}.

Hypothesis Hstill : still reading.
Hypothesis Hempty : empty_fits.

Lemma captures_full rs s s0 pol root : capturable s → in_reach s0 pol (disk (work s)) root →
  captures None rs pol (view s0 pol (disk (work s))) root s.
Proof.
  intros [H1 H2 _ H4] [_ Href Hread] c l Hc Hl. set (s1 := mkSession _ _ _ _ _ _).
  destruct (capture_full_run reading wall device linked_outside workspace_id store_root generation rounds fuel depth s1 rs s0 root Hl Hstill Hempty)
    as (s' & Hrun & Hd & He & Hix & _ & Hcs & Hls & Hr & _ & Hn); [by constructor | done | done |].
  exists s'. split_and!; try done. intros _ q e Hq. destruct (Hn q e Hq) as (i & _ & Hi). by exists i.
Qed.
Lemma captures_hints rs s s0 pol root f0 root0 hints : sealed rs f0 root0 s → in_reach s0 pol (disk (work s)) root →
  excludes pol [] = false → hints_ok pol (disk (work s)) (view s0 pol (disk (work s))) f0 hints →
  captures (Some hints) rs pol (view s0 pol (disk (work s))) root s.
Proof.
  intros Hs [_ Href Hread] Hkept Hhints c l Hc Hl. pose proof (sd_capturable _ _ _ _ Hs) as [H1 H2 _ H4]. set (s1 := mkSession _ _ _ _ _ _).
  pose proof Hs as [_ _ _ Hhead Hholds Hw Hix]. assert (capturable s1) as Hc1 by by constructor.
  destruct (index s) as [x|] eqn:Ex.
  - destruct (capture_delta_run reading wall device linked_outside workspace_id store_root generation rounds fuel depth s1 rs s0 f0 root0 root hints Hstill Hempty Hc1)
      as (s' & Hrun & Hd & He & Hix' & Hcs & Hls & Hr); try done.
    + destruct (Hix ltac:(done)) as [I1 (y & Hy & I2) I3 I4]. constructor; [done | exists y; split; [cbn; congruence | done] | done | done].
    + split; [done |]. apply (sealed_head _ _ _ _ Hs).
    + by exists s'.
  - destruct (capture_resumed_run reading wall device linked_outside workspace_id store_root generation rounds fuel depth s1 rs s0 f0 root0 root hints Hstill Hempty Hc1)
      as (s' & Hrun & Hd & He & Hix' & Hcs & Hls & Hr); try done; by exists s'.
Qed.

(** C9 A seal of the whole folder succeeds: its snapshot is of the reference's tree
    and descends from the head; it is the new head, and the store holds its tree. *)
Theorem seal_spec rs s s0 pol root now label trigger :
  capturable s → Catalog.is_idle (catalog s) = true → head_ok rs s → in_reach s0 pol (disk (work s)) root →
  (trigger = Watcher ∨ backups_ok) → fits now label trigger None [] rs s →
  seals None now label trigger rs pol (view s0 pol (disk (work s))) root s.
Proof. intros Hc Hi Hh Hr Hb Hf. apply seal_run; try done; [apply Hr | by apply captures_full]. Qed.

(** ** The life of a workspace

    Seals of the whole folder, seals of what is said to have changed since the
    last one, changes to the folder, and new processes, in any order. Beside the
    session goes what the last seal saw. *)
Definition seal_fits (now : Z * Z) label trigger changed (s : Session St L) : Prop :=
  (trigger = Watcher ∨ backups_ok) ∧ ∀ rs, says (ref_log s) rs → fits now label trigger changed [] rs s.

Inductive lives : Session St L * option (View * ObjectId) → Session St L * option (View * ObjectId) → Prop :=
| life_change s g d : honest (disk (work s)) d → names_ok d → one_inode d → lives (s, g) (with_disk d s, g)
| life_restart s g v : 0 ≤ v → lives (s, g) (restarted v s, g)
| life_full s g s0 pol root now label trigger id s' :
    in_reach s0 pol (disk (work s)) root → seal_fits now label trigger None s →
    seal now label trigger None [] s = (Ok id, s') → lives (s, g) (s', Some (view s0 pol (disk (work s)), root))
| life_hints s f0 root0 s0 pol root hints now label trigger id s' :
    in_reach s0 pol (disk (work s)) root → seal_fits now label trigger (Some hints) s →
    excludes pol [] = false → hints_ok pol (disk (work s)) (view s0 pol (disk (work s))) f0 hints →
    seal now label trigger (Some hints) [] s = (Ok id, s') →
    lives (s, Some (f0, root0)) (s', Some (view s0 pol (disk (work s)), root)).

Definition alive (rs : list Refs.RefRecord) (m : Session St L * option (View * ObjectId)) : Prop :=
  let '(s, g) := m in
  capturable s ∧ Catalog.is_idle (catalog s) = true ∧ head_ok rs s ∧ match g with Some (f, root) => sealed rs f root s | None => True end.

Hypothesis Hclose : wall_close wall.
Lemma lives_alive rs m m' : alive rs m → lives m m' → ∃ rs', alive rs' m' ∧ rs `prefix_of` rs'.
Proof.
  intros Ha Hs. destruct Hs as [s g d Hh Hn Ho|s g v Hv|s g s0 pol root now label trigger id s' Hr [Hb Hf] Hseal
      |s f0 root0 s0 pol root hints now label trigger id s' Hr [Hb Hf] Hk Hhints Hseal]; destruct Ha as (Hc & Hi & Hhd & Hg).
  - exists rs. split; [| done]. pose proof (capturable_changed s d Hclose Hc Hh Hn Ho) as Hc'. split_and!; [done.. |].
    destruct g as [[f root]|]; [| done]. eapply sealed_moved; try done. by left.
  - exists rs. split; [| done]. pose proof (capturable_restarted s v Hv Hc) as Hc'. split_and!; [done.. |].
    destruct g as [[f root]|]; [| done]. eapply sealed_moved; try done. by right.
  - destruct (seal_run None now label trigger rs pol (view s0 pol (disk (work s))) root s)
      as (snapshot & id' & r & rs' & s1 & Hrun & _ & _ & _ & _ & _ & _ & _ & _ & Hrs & _ & Hsd & _); try done; [apply Hr | by apply captures_full | apply Hf, Hhd |].
    rewrite Hseal in Hrun. injection Hrun as <- <-. exists rs'. split; [| destruct Hrs as [->| ->]; [done | by apply prefix_app_r]].
    split_and!; [apply Hsd | apply Hsd | by eapply sealed_head | done].
  - destruct (seal_run (Some hints) now label trigger rs pol (view s0 pol (disk (work s))) root s)
      as (snapshot & id' & r & rs' & s1 & Hrun & _ & _ & _ & _ & _ & _ & _ & _ & Hrs & _ & Hsd & _); try done; [apply Hr | by eapply captures_hints | apply Hf, Hhd |].
    rewrite Hseal in Hrun. injection Hrun as <- <-. exists rs'. split; [| destruct Hrs as [->| ->]; [done | by apply prefix_app_r]].
    split_and!; [apply Hsd | apply Hsd | by eapply sealed_head | done].
Qed.

(** C6 However seals of the whole folder, seals told of the changes, changes and
    restarts alternated, the hints covering what changed and each seal having
    returned, the log only grew, its head
    is a snapshot of the tree the reference gave for the folder as it was at the
    last seal, and the store still holds all of that tree. *)
Theorem timeline_follows_folder rs s s' f root :
  alive rs (s, None) → rtc lives (s, None) (s', Some (f, root)) →
  ∃ rs' r (snapshot : Snapshot), rs `prefix_of` rs' ∧ says (ref_log s') rs' ∧ last rs' = Some r
    ∧ read_struct_at SnapshotKind (Refs.snapshot_id r) (store (work s')) = Ok snapshot ∧ root_tree snapshot = root
    ∧ holds fuel depth (store (work s')) root f.
Proof.
  intros Ha Hrun. assert (∃ rs', alive rs' (s', Some (f, root)) ∧ rs `prefix_of` rs') as (rs' & (_ & _ & _ & Hsd) & Hpre).
  { revert rs Ha. induction Hrun as [m|m1 m2 m3 Hs _ IH]; intros rs Ha; [by exists rs |].
    destruct (lives_alive _ _ _ Ha Hs) as (rs1 & Ha1 & H1). destruct (IH rs1 Ha1) as (rs2 & Ha2 & H2). exists rs2. split; [done | by trans rs1]. }
  destruct (sd_head _ _ _ _ Hsd) as (r & snapshot & ? & _ & ? & ?). exists rs', r, snapshot. split_and!; try done; apply Hsd.
Qed.
End SealOk.
