(* ===== verification/VerifyTheory.v ===== *)
(** * VerifyTheory: the check of a plan

    On a disk that shows what a tree records, the check agrees; all it changes are
    attributes of directories, which a rewind had not set. *)

From S2P Require Import Prelude Model Tree TreeTheory Bundle Chunker ChunkerTheory Paths Disk Files Policy Rewind PolicyTheory DiskTheory PlanTheory RewindTheory.
From S2P Require Import Capture CaptureSpec CaptureTheory RefStore CaptureFull.
#[local] Open Scope Z_scope.

(** ** Attributes of directories aside *)

Definition healed_inode (i j : Inode) : Prop :=
  j = i ∨ body i = Folder ∧ body j = Folder ∧ ino j = ino i ∧ st_mode j = st_mode i ∧ mtime j = mtime i.
Definition healed (d d' : Disk) : Prop :=
  (∀ p, option_Forall2 healed_inode (nodes d !! p) (nodes d' !! p)) ∧ next_ino d' = next_ino d.

Lemma healed_inode_fields i j : healed_inode i j → body j = body i ∧ ino j = ino i ∧ st_mode j = st_mode i ∧ mtime j = mtime i.
Proof. intros [->|(Hi & Hj & ? & ? & ?)]; [done | split_and!; congruence]. Qed.
Lemma healed_refl d : healed d d.
Proof. split; [| done]. intros p. destruct (nodes d !! p); constructor. by left. Qed.
Lemma healed_trans d d1 d2 : healed d d1 → healed d1 d2 → healed d d2.
Proof.
  intros [H1 E1] [H2 E2]. split; [| congruence]. intros p. specialize (H1 p). specialize (H2 p).
  inversion H1 as [i j Hij Ei Ej|Ei Ej]; rewrite <- Ej in H2; inversion H2 as [j' k Hjk Ej' Ek|]; subst; constructor.
  destruct Hij as [->|(? & ? & ? & ? & ?)]; [done |]. destruct Hjk as [->|(? & ? & ? & ? & ?)]; right; split_and!; congruence.
Qed.
Lemma healed_fwd d d' p i : healed d d' → nodes d !! p = Some i → ∃ j, nodes d' !! p = Some j ∧ healed_inode i j.
Proof. intros [Hh _] Hi. specialize (Hh p). rewrite Hi in Hh. inversion Hh; subst. eauto. Qed.
Lemma healed_back d d' p j : healed d d' → nodes d' !! p = Some j → ∃ i, nodes d !! p = Some i ∧ healed_inode i j.
Proof. intros [Hh _] Hj. specialize (Hh p). rewrite Hj in Hh. inversion Hh; subst. eauto. Qed.
Lemma healed_none d d' p : healed d d' → nodes d !! p = None → nodes d' !! p = None.
Proof. intros [Hh _] Hi. specialize (Hh p). rewrite Hi in Hh. by inversion Hh. Qed.

Lemma healed_ok d d' : healed d d' → disk_ok d → disk_ok d'.
Proof.
  intros Hh [H1 H2 H3]. constructor.
  - intros p j Hne Hj. destruct (healed_back _ _ _ _ Hh Hj) as (i & Hi & _). destruct (H1 p i Hne Hi) as (k & Hk & Hb).
    destruct (healed_fwd _ _ _ _ Hh Hk) as (k' & Hk' & (E & _)%healed_inode_fields). exists k'. split; [done | congruence].
  - intros p q j k Hj Hk E. destruct (healed_back _ _ _ _ Hh Hj) as (i & Hi & (Eb & Ei & _)%healed_inode_fields),
      (healed_back _ _ _ _ Hh Hk) as (i' & Hi' & (Eb' & Ei' & _)%healed_inode_fields).
    rewrite Eb, Eb'. apply (H2 p q i i'); [done.. | congruence].
  - intros p j Hj. destruct (healed_back _ _ _ _ Hh Hj) as (i & Hi & (_ & -> & _)%healed_inode_fields). destruct Hh as [_ ->]. eauto.
Qed.
Lemma renewed_healed d d' p i j : nodes d !! p = Some i → healed_inode i j → renewed p j d d' → healed d d'.
Proof.
  intros Hi Hij [E En]. split; [| done]. intros q. rewrite E. destruct (decide (q = p)) as [->|Hne].
  - rewrite lookup_insert_eq, Hi. by constructor.
  - rewrite lookup_insert_ne by done. destruct (nodes d !! q); constructor. by left.
Qed.

Lemma keyed_ext {V} (l1 l2 : list (bytes * V)) :
  StronglySorted blt l1.*1 → StronglySorted blt l2.*1 → (∀ x, x ∈ l1 ↔ x ∈ l2) → l1 = l2.
Proof.
  revert l2. induction l1 as [|x l1 IH]; intros l2 H1 H2 Hin.
  { destruct l2 as [|y l2]; [done |]. destruct (not_elem_of_nil y). apply Hin. left. }
  destruct l2 as [|y l2]; [destruct (not_elem_of_nil x); apply Hin; left |]. cbn in H1, H2.
  apply StronglySorted_inv in H1 as [H1 Hx], H2 as [H2 Hy]. rewrite Forall_forall in Hx, Hy.
  assert (∀ z, z ∈ l1 → blt x.1 z.1) as Hx' by (intros z Hz; apply Hx; by apply list_elem_of_fmap_2).
  assert (∀ z, z ∈ l2 → blt y.1 z.1) as Hy' by (intros z Hz; apply Hy; by apply list_elem_of_fmap_2).
  assert (x = y) as <-.
  { destruct (proj1 (elem_of_cons _ _ _) (proj1 (Hin x) ltac:(left))) as [?|Hxl]; [done |].
    destruct (proj1 (elem_of_cons _ _ _) (proj2 (Hin y) ltac:(left))) as [?|Hyl]; [done |].
    destruct (blt_irrefl x.1). eapply blt_trans; [by apply Hx' | by apply Hy']. }
  f_equal. apply IH; [done.. |]. intros z. specialize (Hin z). rewrite !elem_of_cons in Hin.
  assert (z ∈ l1 → z ≠ x) by (intros Hz ->; by destruct (blt_irrefl x.1); apply Hx').
  assert (z ∈ l2 → z ≠ x) by (intros Hz ->; by destruct (blt_irrefl x.1); apply Hy'). naive_solver.
Qed.

Section Healed.
Context `{Platform}.
Lemma healed_search d d' : healed d d' → ∀ rest pre, search d' pre rest = search d pre rest.
Proof.
  intros Hh rest. induction rest as [|nm rest IH]; intros pre; [done |]. cbn [search]. destruct Hh as [Hh En]. specialize (Hh pre).
  inversion Hh as [i j Hij Ei Ej|]; [| done]. destruct (healed_inode_fields _ _ Hij) as (-> & _ & -> & _). by rewrite IH.
Qed.
Lemma healed_reach d d' p : healed d d' → reach d p → reach d' p.
Proof.
  intros Hh Hr a Ha Hne. destruct (Hr a Ha Hne) as (i & Hi & Hb & Hm). destruct (healed_fwd _ _ _ _ Hh Hi) as (j & Hj & (E & _ & E' & _)%healed_inode_fields).
  exists j. split; [done |]. unfold searchable. by rewrite E, E'.
Qed.
Lemma healed_absent d d' p : healed d d' → absent p d = true → absent p d' = true.
Proof.
  intros Hh. unfold absent, symlink_metadata. rewrite (healed_search d d') by done. destruct (search d [] p) as [[]|e]; cbn [mbind Res_bind]; [| done].
  destruct (nodes d !! p) as [i|] eqn:Hi; [done |]. by rewrite (healed_none d d' p).
Qed.
End Healed.

Section Shown.
Context {St : Type} {OS : ObjectStore St} {JB : Json Blob} {JX : Json Xattrs}.
Lemma healed_inode_shows (s : St) i j e : healed_inode i j → inode_shows s i e → inode_shows s j e.
Proof.
  intros [->|(Hi & Hj & _ & Em & Et)]; [done |]. unfold inode_shows, recorded_times. rewrite Hj, Em, Et. destruct (kind e); naive_solver congruence.
Qed.
Lemma healed_shows (s : St) d d' p e : healed d d' → shows s (nodes d !! p) e → shows s (nodes d' !! p) e.
Proof.
  intros [Hh _]. specialize (Hh p). destruct Hh as [i j Hij|]; [| done]. cbn. destruct e; [| done]. by apply healed_inode_shows.
Qed.

(** What is shown stays shown as the store grows. *)
Lemma read_at_extends {A} `{Json A} (k : ObjectKind) (id : ObjectId) (a : A) (s s' : St) : extends s s' → read_struct_at k id s = Ok a → read_struct_at k id s' = Ok a.
Proof. intros He (b & Hb & Ha)%Res_bind_ok. unfold read_struct_at. by rewrite (He _ _ _ Hb). Qed.
Lemma fetch_extends (s s' : St) cs : extends s s' → ∀ out data, fetch_chunks s cs out = Ok data → fetch_chunks s' cs out = Ok data.
Proof.
  intros He. induction cs as [|c cs IH]; intros out data; [done |]. cbn [fetch_chunks]. intros (b & Hb & Hrun)%Res_bind_ok.
  rewrite (He _ _ _ Hb). cbn [mbind Res_bind]. apply Res_bind_ok in Hrun as (u & -> & Hrun). by apply IH.
Qed.
Lemma file_data_extends (s s' : St) e data : extends s s' → file_data s e = Ok data → file_data s' e = Ok data.
Proof.
  intros He. unfold file_data. intros (id & -> & (blob & Hb & Hf)%Res_bind_ok)%Res_bind_ok. cbn [mbind Res_bind].
  rewrite (read_at_extends _ _ _ _ _ He Hb). by eapply fetch_extends.
Qed.
Lemma file_attrs_extends (s s' : St) e m : extends s s' → file_attrs s e = Ok m → file_attrs s' e = Ok m.
Proof.
  intros He. unfold file_attrs. destruct (xattrs e); [| done]. intros (xs & Hx & Hm)%Res_bind_ok. by rewrite (read_at_extends _ _ _ _ _ He Hx).
Qed.
Lemma inode_shows_extends (s s' : St) i e : extends s s' → inode_shows s i e → inode_shows s' i e.
Proof.
  intros He. unfold inode_shows. destruct (kind e); try done. intros (data & ? & Hd & Ha & ?). exists data.
  split_and!; [done | by eapply file_data_extends | by eapply file_attrs_extends | done].
Qed.
Lemma shows_extends (s s' : St) o e : extends s s' → shows s o e → shows s' o e.
Proof. intros He. unfold shows. destruct o, e; try done. by apply inode_shows_extends. Qed.
End Shown.

(** ** One entry *)

#[local] Instance XattrEntry_eq_dec : EqDecision XattrEntry.
Proof. solve_decision. Defined.

Section Verify.
Context `{Platform} {PL : PlatformLaws _} {St L : Type} {OS : ObjectStore St} {OSok : ObjectStoreOk St} `{Blake3} {CS : ContentStoreOk St}.
Context {JB : Json Blob} {JBok : JsonOk Blob} {JX : Json Xattrs} {JXok : JsonOk Xattrs}.
Context {JE : Json TreeEntry} {JP : Json TreePage} {JT : Json Tree}.
Variable reading : Place → Disk → list (Res bytes) * Disk.
Variable wall : nat → Z.
Hypothesis Hstill : still reading.

Lemma match_folder p xs d i :
  disk_ok d → reach d p → nodes d !! p = Some i → body i = Folder → ∃ d', match_xattrs p xs d = (Ok (), d') ∧ healed d d'.
Proof.
  revert d i. induction xs as [|x xs IH]; intros d i Hok Hr Hi Hb; [exists d; split; [done | apply healed_refl] |].
  cbn [match_xattrs]. mpure. rewrite (metadata_reach d p i) by done. mpure. case_bool_decide; [by mpure; eapply IH |].
  destruct (on_target_run d p i (with_attrs (<[xattr_name x := xattr_value x]>)) Hr Hi) as (d1 & t & Hrun & Hren).
  { unfold is_link. by rewrite Hb. } { by apply folder_alone. }
  unfold xattr_set. mrun Hrun. set (j := with_ctime t _) in Hren. assert (healed_inode i j) as Hij by by right.
  pose proof (renewed_healed _ _ _ _ _ Hi Hij Hren) as Hh. destruct (healed_fwd _ _ _ _ Hh Hi) as (k & Hk & (Ek & _)%healed_inode_fields).
  destruct (IH d1 k) as (d' & -> & Hh'); [by eapply healed_ok | by eapply healed_reach | done | congruence |].
  exists d'. split; [done |]. by eapply healed_trans.
Qed.
Lemma match_same p xs d i :
  reach d p → nodes d !! p = Some i → (∀ x, x ∈ xs → attrs i !! xattr_name x = Some (xattr_value x)) → match_xattrs p xs d = (Ok (), d).
Proof.
  intros Hr Hi. induction xs as [|x xs IH]; intros Hx; [done |]. cbn [match_xattrs]. mpure. rewrite (metadata_reach d p i) by done. mpure.
  rewrite bool_decide_eq_true_2 by (apply Hx; left). mpure. apply IH. intros y Hy. apply Hx. by right.
Qed.

Lemma elem_of_recorded i x : x ∈ recorded_xattrs i ↔ visible_attrs i !! xattr_name x = Some (xattr_value x).
Proof.
  unfold recorded_xattrs, visible_attrs. rewrite map_lookup_filter_Some, list_elem_of_fmap. split.
  - intros ([nm v] & -> & [Hs Hin%elem_of_btree_iter]%list_elem_of_filter). done.
  - intros [Ha Hs]. exists (xattr_name x, xattr_value x). split; [by destruct x |]. apply list_elem_of_filter. split; [done |]. by apply elem_of_btree_iter.
Qed.
Lemma recorded_same i j : visible_attrs i = visible_attrs j → recorded_xattrs i = recorded_xattrs j.
Proof.
  intros E. unfold recorded_xattrs. f_equal. apply keyed_ext; [apply StronglySorted_filter_keys, btree_iter_sorted.. |].
  intros [nm v]. rewrite !list_elem_of_filter, !elem_of_btree_iter. unfold visible_attrs in E.
  assert (∀ i, is_system_managed nm = false ∧ attrs i !! nm = Some v ↔ base.filter (λ '(name, _), is_system_managed name = false) (attrs i) !! nm = Some v) as Hi
    by (intros k; rewrite map_lookup_filter_Some; tauto).
  by rewrite !Hi, E.
Qed.

(** The entry of a captured inode, and an inode that shows it. *)
Lemma noted_file s q i0 e i data : noted s q i0 e → kind e = File → inode_shows s i e → body i = Regular data →
  target e = Some (blob_id_of data) ∧ size e = blen data ∧ storable i = true ∧ recorded_xattrs i = recorded_xattrs i0 ∧ xattrs e = xattrs_id i0.
Proof.
  intros Hn Hk Hs Hb. pose proof (noted_shows s q i0 e Hn) as Hs0. destruct Hn as ([t Ht] & Hst & _ & _).
  unfold inode_shows in Hs, Hs0. rewrite Hk in Hs, Hs0. destruct Hs as (data1 & Hb1 & Hd1 & Ha1 & _), Hs0 as (data0 & Hb0 & Hd0 & Ha0 & _).
  assert (data1 = data) as -> by congruence. assert (data0 = data) as -> by congruence.
  assert (recorded_xattrs i = recorded_xattrs i0) as Ex by (apply recorded_same; congruence).
  unfold entry_of in Ht. destruct (metadata_time i0). rewrite Hb0 in Ht. injection Ht as <-. split_and!; try done.
  unfold storable in *. by rewrite Hb, Ex, Hb0 in *.
Qed.
Lemma noted_times s q i0 e i : noted s q i0 e → recorded_times i e → times_match i e = true.
Proof.
  intros ([t Ht] & _ & _ & Hm) [Em Et]. assert (0 ≤ mtime_nanos e) as Hn.
  { unfold entry_of, metadata_time in Ht. destruct (body i0); try done; injection Ht as <-; cbn; lia. }
  unfold times_match. rewrite Em, Et. cbn. rewrite !Z.eqb_refl. cbn. apply Z.eqb_eq. lia.
Qed.
Lemma noted_xattrs s q i0 e id : noted s q i0 e → xattrs e = Some id →
  (read_struct_at XattrsKind id s : Res Xattrs) = Ok (mkXattrs (recorded_xattrs i0)).
Proof.
  intros ([t Ht] & _ & Hr & _) Hx. assert (has_xattrs s i0 ∧ xattrs_id i0 = Some id) as [Hh Hid].
  { unfold entry_of in Ht. unfold recorded in Hr. destruct (metadata_time i0), (body i0); try done; injection Ht as <-; try done; cbn in Hx; split; tauto. }
  unfold read_struct_at. rewrite (Hh id Hid). cbn. by rewrite from_to.
Qed.
Lemma match_noted s d p q i0 e i : disk_ok d → reach d p → nodes d !! p = Some i → inode_shows s i e → noted s q i0 e →
  (kind e = File ∨ kind e = Directory) →
  ∃ d', xattrs_match_best_effort p (xattrs e) (mkWork s d) = (Ok true, mkWork s d') ∧ healed d d' ∧ (i0 = i → d' = d).
Proof.
  intros Hok Hr Hi Hs Hn Hk. unfold xattrs_match_best_effort. destruct (xattrs e) as [id|] eqn:Ex; [| exists d; split_and!; [done | apply healed_refl | done]].
  rewrite get_bind. cbn [store]. rewrite (noted_xattrs s q i0 e id Hn Ex), lift_ok_bind. cbn [xattr_entries].
  assert (recorded_xattrs i = recorded_xattrs i0 → match_xattrs p (restorable_xattrs (recorded_xattrs i0)) d = (Ok (), d)) as Hsame.
  { intros <-. apply (match_same p _ d i); [done.. |].
    intros x [_ Hx%elem_of_recorded]%list_elem_of_filter. by apply map_lookup_filter_Some in Hx as [? _]. }
  assert (∃ d', match_xattrs p (restorable_xattrs (recorded_xattrs i0)) d = (Ok (), d') ∧ healed d d' ∧ (i0 = i → d' = d)) as (d' & Hrun & Hh).
  { destruct Hk as [Hk|Hk].
    - exists d. split_and!; [apply Hsame | apply healed_refl | done].
      assert (∃ data, body i = Regular data) as [data Hb] by (unfold inode_shows in Hs; rewrite Hk in Hs; naive_solver).
      by destruct (noted_file s q i0 e i data Hn Hk Hs Hb) as (_ & _ & _ & ? & _).
    - destruct (decide (recorded_xattrs i = recorded_xattrs i0)) as [E|E].
      + exists d. split_and!; [by apply Hsame | apply healed_refl | done].
      + destruct (match_folder p (restorable_xattrs (recorded_xattrs i0)) d i) as (d' & Hrun & Hh); [done.. | |].
        * unfold inode_shows in Hs. rewrite Hk in Hs. apply Hs.
        * exists d'. split_and!; [done.. | by intros ->]. }
  exists d'. split; [| done]. unfold on_disk. rewrite (M_bind_run _ _ _ () (mkWork s d')) by (cbn; by rewrite Hrun). done.
Qed.

Lemma path_matches_run s d p q i0 e i :
  disk_ok d → reach d p → nodes d !! p = Some i → inode_shows s i e → noted s q i0 e →
  ∃ s' d', path_matches_entry reading wall p e (mkWork s d) = (Ok true, mkWork s' d') ∧ extends s s' ∧ healed d d' ∧ (i0 = i → d' = d).
Proof.
  intros Hok Hr Hi Hs Hn. unfold path_matches_entry. rewrite get_bind. cbn [disk]. rewrite (metadata_reach d p i) by done.
  case_bool_decide as Hsock; [exists s, d; split_and!; [done | apply extends_refl | apply healed_refl | done] |].
  pose proof Hs as Hs'. unfold inode_shows in Hs'.
  destruct (kind e) eqn:Hk; [| | | | done].
  - destruct Hs' as (data & Hb & _ & _ & Ht). rewrite Hb. cbn [kind_matches negb]. rewrite (noted_times s q i0 e i Hn Ht). cbn [negb].
    destruct (noted_file s q i0 e i data Hn Hk Hs Hb) as (Etgt & -> & Hst & _). rewrite Z.eqb_refl. cbn [negb].
    destruct (read_file_ok reading wall p d i data s Hstill Hr Hi Hb Hst) as (sq & s' & Hread & He & _).
    rewrite M_bind_assoc. unfold capture_file. rewrite M_bind_assoc. rewrite (M_bind_run _ _ _ _ _ Hread). cbn [fr_blob]. rewrite mret_bind, mret_bind.
    rewrite bool_decide_eq_true_2 by done. cbn [negb].
    destruct (match_noted s' d p q i0 e i) as (d' & Hrun & Hh); [done.. | | by eapply noted_extends | by left |].
    + eapply inode_shows_extends; [exact He | exact Hs].
    + exists s', d'. rewrite Hrun. done.
  - destruct Hs' as (Hb & Ht). rewrite Hb. cbn [kind_matches negb]. rewrite (noted_times s q i0 e i Hn Ht). cbn [negb]. rewrite mret_bind. cbn [negb].
    destruct (match_noted s d p q i0 e i) as (d' & Hrun & Hh); [done.. | by right |]. exists s, d'. rewrite Hrun. split_and!; [done | apply extends_refl | apply Hh..].
  - destruct Hs' as (Hb & Ht). rewrite Hb. cbn [kind_matches negb]. exists s, d. rewrite bool_decide_eq_true_2 by done. split_and!; [done | apply extends_refl | apply healed_refl | done].
  - destruct Hs' as (Hb & Ht). rewrite Hb. cbn [kind_matches negb]. rewrite (noted_times s q i0 e i Hn Ht). cbn [negb]. rewrite mret_bind. cbn [negb].
    exists s, d. split_and!; [done | apply extends_refl | apply healed_refl | done].
Qed.

(** ** A whole plan *)

(** The check of the place agrees: what is expected there is shown there, and is
    what was recorded of the very inode, if [same]. *)
Variable same : bool.
Definition checks (s : St) (d : Disk) (expected : gmap bytes TreeEntry) (p : Place) : Prop :=
  valid_place p ∧ (∀ a i, a `prefix_of` p → a ≠ p → a ≠ [] → nodes d !! a = Some i → is_link i = false)
  ∧ match expected !! raw p with
    | Some e => reach d p ∧ match nodes d !! p with
                           | Some i => inode_shows s i e ∧ ∃ q i0, noted s q i0 e ∧ (same = true → i0 = i)
                           | None => kind e = SocketMarker
                           end
    | None => absent p d = true
    end.
Lemma checks_later s s' d d' expected p : extends s s' → healed d d' → (same = true → d' = d) → checks s d expected p → checks s' d' expected p.
Proof.
  intros He Hh Hsame (Hv & Hl & Hx). split; [done |]. split.
  - intros a j Ha Hap Hne Hj. destruct (healed_back _ _ _ _ Hh Hj) as (i & Hi & (E & _)%healed_inode_fields).
    unfold is_link. rewrite E. by apply (Hl a i).
  - destruct (expected !! raw p) as [e|]; [| by eapply healed_absent]. destruct Hx as [Hr Hx]. split; [by eapply healed_reach |].
    destruct (nodes d !! p) as [i|] eqn:Hi.
    + destruct (healed_fwd _ _ _ _ Hh Hi) as (j & Hj & Hij). rewrite Hj. destruct Hx as (Hs & q & i0 & Hn & Hii). split.
      * eapply inode_shows_extends; [exact He |]. by eapply healed_inode_shows.
      * exists q, i0. split; [by eapply noted_extends |]. intros E. rewrite (Hsame E) in Hj. rewrite Hi in Hj. injection Hj as <-. by apply Hii.
    + by rewrite (healed_none d d').
Qed.
Lemma verify_change_run s d expected c p :
  raw_path c = raw p → disk_ok d → checks s d expected p →
  ∃ s' d', verify_change reading wall expected [] c (mkWork s d) = (Ok (), mkWork s' d') ∧ extends s s' ∧ healed d d' ∧ (same = true → d' = d).
Proof.
  intros E Hok (Hv & Hl & Hx). unfold verify_change. rewrite E.
  destruct (bool_decide (raw p = b_ ".furrow") || is_identity_path (raw p)); [exists s, d; split_and!; [done | apply extends_refl | apply healed_refl | done] |].
  cbn [selected negb]. rewrite safe_join_raw by done. rewrite lift_ok_bind, get_bind. cbn [disk].
  rewrite safe_parent_ok by done. rewrite lift_ok_bind. destruct (expected !! raw p) as [e|] eqn:Ee.
  - destruct Hx as [Hr Hx]. assert (∃ s' d', path_matches_entry reading wall p e (mkWork s d) = (Ok true, mkWork s' d') ∧ extends s s' ∧ healed d d' ∧ (same = true → d' = d))
      as (s' & d' & Hrun & He & Hh).
    { destruct (nodes d !! p) as [i|] eqn:Hi.
      - destruct Hx as (Hs & q & i0 & Hn & Hii). destruct (path_matches_run s d p q i0 e i) as (s' & d' & ? & ? & ? & ?); [done.. |].
        exists s', d'. split_and!; try done. auto.
      - exists s, d. split_and!; [| apply extends_refl | apply healed_refl | done]. unfold path_matches_entry. rewrite get_bind. cbn [disk].
        rewrite metadata_absent by done. rewrite !bool_decide_eq_true_2 by done. done. }
    exists s', d'. rewrite (M_bind_run _ _ _ _ _ Hrun). done.
  - rewrite mret_bind, Hx. exists s, d. split_and!; [done | apply extends_refl | apply healed_refl | done].
Qed.
Lemma verify_run s d expected plan :
  disk_ok d → (∀ c, c ∈ plan_changes plan → ∃ p, raw_path c = raw p ∧ checks s d expected p) →
  ∃ s' d', verify_plan_state reading wall expected plan [] (mkWork s d) = (Ok (), mkWork s' d') ∧ extends s s' ∧ healed d d' ∧ (same = true → d' = d).
Proof.
  unfold verify_plan_state. generalize (plan_changes plan) as cs. intros cs. revert s d. induction cs as [|c cs IH]; intros s d Hok Hc.
  { exists s, d. split_and!; [done | apply extends_refl | apply healed_refl | done]. }
  destruct (Hc c ltac:(left)) as (p & E & Hp). destruct (verify_change_run s d expected c p E Hok Hp) as (s1 & d1 & Hrun & He & Hh & Hsame).
  cbn [mfor]. rewrite (M_bind_run _ _ _ _ _ Hrun). destruct (IH s1 d1) as (s' & d' & Hrun' & He' & Hh' & Hsame').
  - by eapply healed_ok.
  - intros c' Hc'. destruct (Hc c' ltac:(by right)) as (p' & E' & Hp'). exists p'. split; [done |]. by eapply checks_later.
  - exists s', d'. rewrite Hrun'. split_and!; [done | by eapply extends_trans | by eapply healed_trans |].
    intros Es. by rewrite Hsame', Hsame.
Qed.
End Verify.
