(* ===== verification/RewindVerb.v ===== *)
(** * RewindVerb: the rewind a person asks for ([furrow-core/src/repository.rs])

    [rewind] plans, seals what is there, checks that it is still there, leaves a
    note of what it is about to do, carries the plan out and checks again; when
    that fails it goes back to what it sealed. [recover_interrupted_rewind] does
    so when a process finds the note of one that died. *)

From S2P Require Import Prelude Model Tree Paths Disk Files Policy RefStore Capture Rewind Seal.
From S2P Require PathIndex Catalog Refs Exchange.
#[local] Open Scope Z_scope.

(** ** What a snapshot lacks ([derive_materialization]) *)

Definition class_str (c : ContentClass) : bytes :=
  b_ match c with
     | Source => "source" | VcsMeta => "vcs-meta" | ConfigSecret => "config-secret" | Dependency => "dependency"
     | BuildOutput => "build-output" | Database => "database" | Lockfile => "lockfile" | Scratch => "scratch"
     end.
Definition ALL_CLASSES : list ContentClass := [Source; VcsMeta; ConfigSecret; Dependency; BuildOutput; Database; Lockfile; Scratch].
Definition recovery_route (c : ContentClass) : bytes :=
  b_ match c with
     | Dependency | BuildOutput | Scratch => "regenerate-or-fetch"
     | Database => "replica-or-database-backup"
     | Source | VcsMeta | ConfigSecret | Lockfile => "replica-or-none"
     end.

Record MissingMaterializationPath := mkMissing {
  missing_path : bytes; missing_class : bytes; missing_recovery : bytes; missing_raw : bytes;
}.
Record MaterializationReport := mkReport {
  grade : bytes; partial_classes : list bytes; missing_paths : list MissingMaterializationPath;
}.
Definition by_path (a b : MissingMaterializationPath) : Prop := ble (missing_path a) (missing_path b).
#[export] Instance by_path_dec : RelDecision by_path.
Proof. intros a b. unfold by_path. apply _. Defined.

(** What is left to walk, the missing paths and their classes so far. *)
Abbreviation Walk := (list (ObjectId * bytes) * list MissingMaterializationPath * list ContentClass)%type.

Section Materialization.
Context {St : Type} `{ObjectStore St, Exchange.ObjectIndex St, Json Blob, Json TreeEntry, Json TreePage, Json Tree, Json Snapshot}.
Variables turns fuel : nat.

Definition materialize_entry (s : St) (prefix : bytes) (entry : TreeEntry) (w : Walk) : Res Walk :=
  let '(stack, missing, classes) := w in
  let path := key_under prefix (name entry) in
  match kind entry, target entry with
  | Directory, Some target => Ok ((target, path) :: stack, missing, classes)
  | File, Some target =>
    blob ← (read_struct_at BlobKind target s : Res Blob);
    if existsb (λ chunk, negb (Exchange.contains_object (cr_id chunk) s)) (chunks blob) then
      Ok (stack, missing ++ [mkMissing (from_utf8_lossy path) (class_str (class entry)) (recovery_route (class entry)) path],
          classes ++ [class entry])
    else Ok w
  | _, _ => Ok w
  end.
Fixpoint materialize (turns : nat) (s : St) (w : Walk) : Res (list MissingMaterializationPath * list ContentClass) :=
  match turns with
  | O => Err "fuel"
  | S turns =>
    let '(stack, missing, classes) := w in
    match stack with
    | [] => Ok (missing, classes)
    | (tree_id, prefix) :: stack =>
      w ← for_each_entry (materialize_entry s prefix) fuel s tree_id (stack, missing, classes);
      materialize turns s w
    end
  end.
Definition derive_materialization (s : St) (snapshot_id : ObjectId) : Res MaterializationReport :=
  snapshot ← (read_struct_at SnapshotKind snapshot_id s : Res Snapshot);
  '(missing, classes) ← materialize turns s ([(root_tree snapshot, [])], [], []);
  Ok (mkReport (if bool_decide (missing = []) then b_ "exact" else b_ "partial")
        (map class_str (base.filter (λ c, c ∈ classes) ALL_CLASSES)) (merge_sort by_path missing)).
End Materialization.

(** ** The note of a rewind under way *)

Record RestoreIntent := mkIntent { pre_snapshot : ObjectId; target_snapshot : ObjectId; intent_paths : list bytes }.

(** A session and the content of [restore.intent]. *)
Record Workspace (St L : Type) := mkWorkspace { session : Session St L; intent : option bytes }.
Arguments mkWorkspace {_ _}.
Arguments session {_ _}.
Arguments intent {_ _}.
Definition in_session {St L A} (m : M (Session St L) A) : M (Workspace St L) A := λ w,
  let '(r, s) := m (session w) in (r, mkWorkspace s (intent w)).
Definition write_restore_intent `{Json RestoreIntent} {St L} (i : RestoreIntent) : M (Workspace St L) () :=
  modify (λ w, mkWorkspace (session w) (Some (to_vec i))).
Definition clear_restore_intent {St L} : M (Workspace St L) () := modify (λ w, mkWorkspace (session w) None).

Section Verb.
Context `{Platform} {St : Type} `{ObjectStore St, Exchange.ObjectIndex St, Json Blob, Json Xattrs, Json TreeEntry, Json TreePage, Json Tree, Json Snapshot, Hex}.
Context `{Json RestoreIntent} {L : Type} `{RefStore L}.
Variable reading : Place → Disk → list (Res bytes) * Disk.
Variable wall : nat → Z.
Variable device : Z.
Variable linked_outside : Z → bool.
Variable workspace_id : bytes.
Variable store_root : option Place.
Variable generation : bytes.
Variables rounds fuel depth turns : nat.
Variable discover : Disk → Res (option Matcher).
Variable capture_sqlite_backups : M (Session St L) (list SqliteBackup).
Variable active_claims : Session St L → Res (list ClaimRecord).
(** How names fold where the workspace lies ([NameFolding::probe]). *)
Variable folding : NameFolding.
(** The names of the temporary links. *)
Variable link_name : nat → bytes.
(** Whether the link at a place leads to something. *)
Variable leads : Place → Disk → bool.
(** The time of day at the seal before, and at the one after a failure. *)
Variables now later : Z * Z.

#[local] Abbreviation Entries := (gmap bytes TreeEntry).
#[local] Abbreviation snapshot now := (snapshot reading wall device linked_outside workspace_id store_root generation rounds fuel depth discover
  capture_sqlite_backups active_claims now).
#[local] Abbreviation capture_root_retry := (capture_root_retry reading wall device linked_outside workspace_id store_root generation rounds fuel depth).
#[local] Abbreviation invalidate_path_index := (invalidate_path_index generation fuel depth).
#[local] Abbreviation verify_plan_state := (verify_plan_state reading wall).
#[local] Abbreviation apply_plan := (apply_plan link_name fuel).

Definition read_snapshot (id : ObjectId) : M (Session St L) Snapshot :=
  s ← get; lift (read_struct_at SnapshotKind id (store (work s))).

Definition plan_rewind (target : ObjectId) (paths : list bytes) : M (Session St L) RewindPlan :=
  s ← get;
  report ← lift (derive_materialization turns fuel (store (work s)) target);
  _ ← mensure (forallb (λ m, negb (selected (missing_raw m) paths)) (missing_paths report)) "snapshot is partial and cannot restore selected path(s)";
  target_snapshot ← read_snapshot target;
  s ← get;
  current_policy ← lift (load_policy discover (disk (work s)));
  target_policy ← lift (from_rules (excluded_paths target_snapshot));
  let protected := union current_policy target_policy in
  _ ← use_policy current_policy;
  current_tree ← capture_root_retry;
  s ← get;
  lift (plan_changes_of fuel depth (store (work s)) folding protected current_tree (root_tree target_snapshot) paths).

(** What protects a place is read before anything is written. *)
Definition apply_plan_with (entries : Entries) (plan : RewindPlan) (paths : list bytes) (links : option Snapshot) : M (Session St L) () :=
  s ← get;
  protected ← lift (load_policy discover (disk (work s)));
  on_work (apply_plan entries plan paths links protected).

(** The content of each database as its backup has it, in place of the raw bytes. *)
Definition sidecar (p : Place) (suffix : bytes) : Place := parent p ++ [last_name p ++ suffix].
Definition remove_sidecar (protected : CapturePolicy) (p : Place) : M Disk () :=
  d ← get;
  let there := match symlink_metadata p d with Ok i => negb (is_link i) || leads p d | Err _ => false end in
  if there && negb (excludes protected (raw p)) then remove_file p else mret ().
Definition restore_sqlite_backup (protected : CapturePolicy) (paths : list bytes) (backup : SqliteBackup) : M (Work St) () :=
  if negb (selected (backup_path backup) paths) || excludes protected (backup_path backup) || contains_ignored protected (backup_path backup) then mret ()
  else
    _ ← mensure (integrity_ok backup) "refusing a SQLite backup that failed integrity_check";
    p ← lift (safe_join (backup_path backup));
    let entry := mkTreeEntry (last_name p) File (Some (backup_blob backup)) [] 0x8180 0 now.1 0 None Database in
    _ ← restore_file p entry;
    _ ← on_disk (remove_sidecar protected (sidecar p (b_ "-wal")));
    on_disk (remove_sidecar protected (sidecar p (b_ "-shm"))).
Definition restore_sqlite_backups (backups : list SqliteBackup) (paths : list bytes) (protected : CapturePolicy) : M (Work St) () :=
  mfor backups (restore_sqlite_backup protected paths).

Definition carry_out (target_entries : Entries) (plan : RewindPlan) (paths : list bytes) (target_snapshot : Snapshot) (sqlite_consistent : bool)
    (restore_policy : CapturePolicy) : M (Session St L) () :=
  _ ← apply_plan_with target_entries plan paths (Some target_snapshot);
  _ ← on_work (verify_plan_state target_entries plan paths);
  if sqlite_consistent then on_work (restore_sqlite_backups (sqlite_backups target_snapshot) paths restore_policy) else mret ().

(** Back to [pre]; whether the disk agrees in the end is checked in a rewind that
    failed, not in one that was cut short. *)
Definition go_back (pre : ObjectId) (pre_tree : ObjectId) (paths : list bytes) (check : bool) : M (Session St L) () :=
  plan ← plan_rewind pre paths;
  s ← get;
  entries ← lift (entries_for_plan fuel (store (work s)) pre_tree (plan_changes plan) ∅);
  _ ← apply_plan_with entries plan paths None;
  _ ← (if check then on_work (verify_plan_state entries plan paths) else mret ());
  invalidate_path_index.

(** Up to the note: nothing of the folder has changed yet. *)
Record Prepared := mkPrepared {
  p_pre : ObjectId; p_pre_tree : ObjectId; p_plan : RewindPlan; p_policy : CapturePolicy; p_target : Snapshot; p_entries : Entries;
}.
Definition prepare_rewind (target : ObjectId) (paths : list bytes) : M (Workspace St L) Prepared :=
  plan ← in_session (plan_rewind target paths);
  w ← get;
  restore_policy ← lift (load_policy discover (disk (work (session w))));
  pre ← in_session (snapshot now (Some (b_ "before rewind to " ++ take 12 (id_hex target))) PreRewind);
  pre_snapshot ← in_session (read_snapshot pre);
  target_snapshot ← in_session (read_snapshot target);
  w ← get;
  let s := store (work (session w)) in
  pre_entries ← lift (entries_for_changed_paths fuel s (root_tree pre_snapshot) (plan_changes plan) ∅);
  target_entries ← lift (entries_for_plan fuel s (root_tree target_snapshot) (plan_changes plan) ∅);
  _ ← in_session (on_work (verify_plan_state pre_entries plan paths));
  _ ← write_restore_intent (mkIntent pre target paths);
  mret (mkPrepared pre (root_tree pre_snapshot) plan restore_policy target_snapshot target_entries).
Definition rewind (target : ObjectId) (paths : list bytes) (sqlite_consistent : bool) : M (Workspace St L) (ObjectId * RewindPlan) :=
  p ← prepare_rewind target paths;
  r ← try_ (in_session (carry_out (p_entries p) (p_plan p) paths (p_target p) sqlite_consistent (p_policy p)));
  match r with
  | Err e =>
    _ ← in_session (try_ (snapshot later (Some (b_ "rewind interference rescue")) Inspection));
    _ ← in_session (go_back (p_pre p) (p_pre_tree p) paths true);
    _ ← clear_restore_intent;
    fail e
  | Ok _ =>
    _ ← in_session invalidate_path_index;
    _ ← clear_restore_intent;
    mret (p_pre p, p_plan p)
  end.

(** [recover_interrupted_rewind] *)
Definition recover_interrupted_rewind : M (Workspace St L) () :=
  w ← get;
  match intent w with
  | None => mret ()
  | Some content =>
    i ← lift (with_context (from_slice content) "decode restore intent");
    snapshot ← in_session (read_snapshot (pre_snapshot i));
    _ ← in_session (go_back (pre_snapshot i) (root_tree snapshot) (intent_paths i) false);
    clear_restore_intent
  end.
End Verb.
