(* ===== verification/RewindVerbTheory.v ===== *)
(** * RewindVerbTheory: the whole verb

    A rewind seals the folder, brings back the target and leaves no note; with the
    note it leaves in between, a process that finds it goes back to what was
    sealed. *)

From S2P Require Import Prelude Model Tree TreeTheory Bundle Chunker ChunkerTheory Paths Disk Files Policy Rewind PolicyTheory DiskTheory PlanTheory RewindTheory RewindRestores.
From S2P Require Import PathIndexTheory Capture CaptureSpec CaptureTheory RefStore CaptureLog CaptureFull Seal SealTheory VerifyTheory RewindVerb.
From S2P Require PathIndex Catalog CatalogTheory Refs Exchange ExchangeTheory.
#[local] Open Scope Z_scope.

(** ** A snapshot that lacks nothing *)

Section Materialization.
Context {St : Type} {OS : ObjectStore St} {OSok : ObjectStoreOk St} `{Exchange.ObjectIndex St} {IX : ExchangeTheory.IndexOk St}.
Context {JB : Json Blob} {JE : Json TreeEntry} {JP : Json TreePage} {JT : Json Tree} {JTok : JsonOk Tree} {JS : Json Snapshot}.
Variable fuel : nat.

(** The chunks of every file of the view are there. *)
Definition complete (s : St) (f : View) : Prop := ∀ p e t, f p = Some e → kind e = File → target e = Some t →
  ∃ blob : Blob, read_struct_at BlobKind t s = Ok blob ∧ ∀ c, c ∈ chunks blob → Exchange.contains_object (cr_id c) s = true.

(** So many turns at most, whatever else is left. *)
Definition walked_off (s : St) (todo : list (ObjectId * bytes)) (n : nat) : Prop := ∃ k, (k ≤ n)%nat ∧ ∀ turns stack missing classes,
  materialize fuel (k + turns) s (todo ++ stack, missing, classes) = materialize fuel turns s (stack, missing, classes).
(** What the walk asks of one entry of a directory, and the turns it takes. *)
Definition entry_walked (s : St) (n : nat) (e : TreeEntry) : Prop :=
  match kind e, target e with
  | Directory, Some t => ∀ prefix, walked_off s [(t, prefix)] n
  | File, Some t => ∃ blob : Blob, read_struct_at BlobKind t s = Ok blob ∧ ∀ c, c ∈ chunks blob → Exchange.contains_object (cr_id c) s = true
  | _, _ => True
  end.
Lemma visit_walked s prefix es m : (∀ e, e ∈ es → entry_walked s (m e) e) →
  ∃ todo, walked_off s todo (sum_list_with m es) ∧ ∀ stack missing classes,
    visit_all (materialize_entry s prefix) es (stack, missing, classes) = Ok (todo ++ stack, missing, classes).
Proof.
  induction es as [|e es IH]; intros He; [exists []; split; [by exists 0%nat | done] |].
  destruct IH as (todo & (n & Hle & Hn) & Hrun); [by intros e' He'; apply He; right |]. pose proof (He e ltac:(left)) as Hwe. cbn [sum_list_with].
  assert (∀ w, materialize_entry s prefix e w = Ok w → visit_all (materialize_entry s prefix) (e :: es) w = visit_all (materialize_entry s prefix) es w) as Hskip
    by (intros w Hw; cbn [visit_all]; by rewrite Hw).
  unfold entry_walked in Hwe. destruct (kind e) eqn:Ek, (target e) as [t|] eqn:Et;
    try (exists todo; split; [exists n; split; [lia | done] |]; intros; rewrite Hskip; [apply Hrun |]; unfold materialize_entry; by rewrite Ek, ?Et).
  - exists todo. split; [exists n; split; [lia | done] |]. intros stack missing classes. rewrite Hskip; [apply Hrun |]. unfold materialize_entry. rewrite Ek, Et.
    destruct Hwe as (blob & -> & Hc). cbn [mbind Res_bind].
    assert (existsb (λ chunk, negb (Exchange.contains_object (cr_id chunk) s)) (chunks blob) = false) as ->; [| done].
    apply not_true_is_false. intros (c & Hin%list_elem_of_In & Hno)%existsb_exists. by rewrite (Hc c Hin) in Hno.
  - destruct (Hwe (key_under prefix (name e))) as (k & Hk & Hwk). exists (todo ++ [(t, key_under prefix (name e))]). split.
    + exists (n + k)%nat. split; [lia |]. intros turns stack missing classes. rewrite <- app_assoc, <- Nat.add_assoc. rewrite Hn. apply Hwk.
    + intros stack missing classes. cbn [visit_all].
      assert (materialize_entry s prefix e (stack, missing, classes) = Ok ((t, key_under prefix (name e)) :: stack, missing, classes)) as -> by (unfold materialize_entry; by rewrite Ek, ?Et).
      cbn [mbind Res_bind]. rewrite Hrun. by rewrite <- app_assoc.
Qed.
Lemma bounds_for {A} `{EqDecision A} (l : list A) (P : A → nat → Prop) : (∀ x, x ∈ l → ∃ n, P x n) → ∃ m : A → nat, ∀ x, x ∈ l → P x (m x).
Proof.
  induction l as [|x l IH]; intros Hl; [exists (λ _, 0%nat); by intros ? ?%not_elem_of_nil |].
  destruct IH as [m Hm]; [by intros y Hy; apply Hl; right |]. destruct (Hl x ltac:(left)) as [n Hn].
  exists (λ y, if decide (y = x) then n else m y). intros y Hy. case_decide as E; [by subst | apply Hm]. by apply elem_of_cons in Hy as [?|?].
Qed.
(** As many turns do in every store that holds the tree. *)
Lemma holds_walked n : ∀ f s0 id0, holds fuel n s0 id0 f →
  ∃ m, ∀ s id, holds fuel n s id f → complete s f → ∀ prefix, walked_off s [(id, prefix)] m.
Proof.
  induction n as [|n IH]; intros f s0 id0; [done |]. intros (h0 & es0 & _ & Hs0 & _ & _ & _ & Hfound0 & Hsub0).
  assert (∀ e, e ∈ es0 → f [name e] = Some e) as Hfe by (intros e He; by apply (Hfound0 (name e))).
  destruct (bounds_for es0 (λ e m, ∀ s id, holds fuel (S n) s id f → complete s f → entry_walked s m e)) as (m & Hm).
  { intros e He. pose proof (Hsub0 (name e)) as Hd. rewrite (Hfe e He) in Hd. case_decide as Hk.
    - destruct Hd as (t0 & _ & Hh0). destruct (IH _ _ _ Hh0) as (m & Hm). exists m. intros s id (h & es & _ & _ & _ & _ & _ & _ & Hsub) Hc.
      specialize (Hsub (name e)). rewrite (Hfe e He), decide_True in Hsub by done. destruct Hsub as (t & Ht & Hh).
      unfold entry_walked. rewrite Hk, Ht. apply (Hm s t Hh). intros [|x p] e' t'; [done |]. apply (Hc (name e :: x :: p)).
    - exists 0%nat. intros s id _ Hc. unfold entry_walked. destruct (kind e) eqn:Ek; [| done..].
      destruct (target e) as [t|] eqn:Et; [| done]. apply (Hc [name e] e); auto. }
  exists (S (sum_list_with m es0)). intros s id Hh Hc prefix. pose proof Hh as (h & es & Hn & Hs & Hb & _ & _ & Hfound & _).
  assert (es = es0) as ->.
  { apply sorted_unique; [done.. |]. intros e. pose proof (Hfound (name e) e) as H1. pose proof (Hfound0 (name e) e) as H2. tauto. }
  destruct (visit_walked s prefix es0 m) as (todo & (k & Hk & Hwk) & Hrun); [intros e He; by apply (Hm e He s id) |].
  exists (S k). split; [lia |]. intros turns stack missing classes. cbn [plus materialize app].
  rewrite (for_each_entry_ok fuel _ h s id es0) by (done || lia). rewrite Hrun. apply Hwk.
Qed.
Lemma materialization_exact n f s0 id0 : holds fuel n s0 id0 f →
  ∃ m, ∀ turns s id (snapshot : Snapshot), (m ≤ turns)%nat → read_struct_at SnapshotKind id s = Ok snapshot → holds fuel n s (root_tree snapshot) f → complete s f →
    derive_materialization turns fuel s id = Ok (mkReport (b_ "exact") [] []).
Proof.
  intros Hh0. destruct (holds_walked n f s0 id0 Hh0) as [m Hm]. exists (S m). intros turns s id snapshot Hle Hs Hh Hc.
  destruct (Hm s _ Hh Hc []) as (k & Hk & Hwk). unfold derive_materialization. rewrite Hs. cbn [mbind Res_bind].
  assert (turns = k + S (turns - k - 1))%nat as -> by lia. specialize (Hwk (S (turns - k - 1)) [] [] []). cbn [app] in Hwk. rewrite Hwk. done.
Qed.
End Materialization.

(** ** The folder, seen through its capture *)

Section Seen.
Context `{Platform} {PL : PlatformLaws _} {St L : Type} {OS : ObjectStore St} {OSok : ObjectStoreOk St} `{Blake3} {CS : ContentStoreOk St}.
Context {JE : Json TreeEntry} {JP : Json TreePage} {JT : Json Tree} {JTok : JsonOk Tree}.
Context {JB : Json Blob} {JBok : JsonOk Blob} {JX : Json Xattrs} {JXok : JsonOk Xattrs}.
Variables rounds fuel depth : nat.

(** No Git rules, and rules as they are read. *)
Definition simple (pol : CapturePolicy) : Prop := well_formed pol ∧ matcher pol = None.
Lemma simple_union p q : simple p → simple q → simple (union p q).
Proof. intros [H1 H2] [H3 H4]. split; [by apply union_formed |]. cbn. by rewrite H2. Qed.
Lemma simple_below pol p q : simple pol → hidden pol p → p `prefix_of` q → valid_place q → hidden pol q.
Proof. intros [H1 H2]. by apply hidden_below. Qed.
Lemma simple_allowed pol p : simple pol → ¬ hidden pol p → allowed pol (raw p).
Proof.
  intros [_ Hm] Hh. unfold hidden in Hh. rewrite orb_true_iff in Hh. assert (is_identity_path (raw p) = false) as Hi by (destruct (is_identity_path _); tauto).
  split_and!; [| done | unfold contains_ignored; by rewrite Hm, andb_false_r]. intros E. by rewrite E in Hi.
Qed.
Lemma hidden_union p q r : simple p → simple q → hidden p r → hidden (union p q) r.
Proof. intros [_ H1] [_ H2]. unfold hidden. rewrite excludes_union, !orb_true_iff by done. tauto. Qed.

Section Disk.
Variables (pol protected : CapturePolicy) (d : Disk) (f : View) (root : ObjectId).
Hypothesis Hcap : captured (St := St) None rounds depth pol d f root.
Hypothesis Hok : disk_ok d.
Hypothesis Hnames : names_ok d.
Hypothesis Hpol : simple pol.
Hypothesis Hprot : simple protected.
Hypothesis Hmore : ∀ p, hidden pol p → hidden protected p.
Hypothesis Hdevices : ∀ p i, nodes d !! p = Some i → body i ≠ Device.

Lemma elem_of_names_in q nm i : nodes d !! (q ++ [nm]) = Some i → nm ∈ names_in q d.
Proof.
  intros Hi. unfold names_in. rewrite (merge_sort_Permutation ble), list_elem_of_omap. exists (q ++ [nm]). split.
  - apply list_elem_of_fmap. exists (q ++ [nm], i). split; [done |]. by apply elem_of_map_to_list.
  - rewrite decide_True by (split; [by destruct q | by rewrite parent_snoc]). by rewrite last_snoc.
Qed.
Lemma own_hidden p : is_own None p = true → hidden protected p.
Proof.
  unfold is_own, hidden. cbn [orb]. rewrite !orb_true_iff, !bool_decide_eq_true. intros [[[->| ->]| ->]| ->]; right; by vm_compute.
Qed.
(** What is on the disk and not hidden is in the view. *)
Lemma on_disk_seen p i : p ≠ [] → ¬ hidden protected p → nodes d !! p = Some i → is_Some (f p).
Proof.
  revert i. induction p as [|nm p IH] using rev_ind; intros i Hne Hseen Hi; [done |]. destruct (Hnames _ _ Hi) as [Hv _].
  destruct (f (p ++ [nm])) as [e|] eqn:Ef; [done |]. exfalso.
  assert (dir_of f p) as Hdir.
  { destruct (decide (p = [])) as [->|Hp]; [by left |]. right. destruct (in_folder d Hok (p ++ [nm]) i Hne Hi) as (j & Hj & Hb). rewrite parent_snoc in Hj.
    destruct (IH j Hp) as [e He]; [| done |].
    { intros Hh. apply Hseen. apply (simple_below protected p); [done.. | by apply prefix_app_r | done]. }
    exists e. split; [done |]. destruct (cp_some _ _ _ _ _ _ _ Hcap p e He) as (_ & j' & _ & Hj' & _ & Ho). rewrite Hj in Hj'. injection Hj' as <-.
    unfold is_folder in Ho. rewrite Hb in Ho. destruct Ho as (t & Ho & _). by apply (entry_of_kind _ _ _ _ Ho). }
  destruct (cp_listed _ _ _ _ _ _ _ Hcap p nm Hdir) as (j & _ & Hj & Hb); [| done | by apply (Hdevices _ _ Hj)].
  assert (tracked_children pol (raw p) = None) as Htr by (unfold tracked_children; rewrite (proj2 Hpol); by destruct (is_virtual _ _)).
  unfold CaptureSpec.listed. rewrite Htr.
  apply list_elem_of_filter. split; [| by eapply elem_of_names_in]. unfold passed_over. apply orb_false_iff. split; apply not_true_is_false; intros E; apply Hseen.
  - by apply own_hidden.
  - apply Hmore. unfold hidden. by rewrite E.
Qed.
Lemma disk_shows_view s p : (∀ q e, f q = Some e → ∃ i, nodes d !! q = Some i ∧ noted s q i e) → p ≠ [] → ¬ hidden protected p → shows s (nodes d !! p) (f p).
Proof.
  intros Hn Hne Hseen. destruct (f p) as [e|] eqn:Ef.
  - destruct (Hn p e Ef) as (i & -> & Hi). cbn. by eapply noted_shows.
  - destruct (nodes d !! p) as [i|] eqn:Hi; [| done]. destruct (on_disk_seen p i Hne Hseen Hi) as [e He]. congruence.
Qed.
End Disk.

(** ** Where a check agrees *)

Lemma search_kinds d rest : ∀ pre,
  (∀ a i, pre `prefix_of` a → a `prefix_of` pre ++ rest → a ≠ pre ++ rest → nodes d !! a = Some i → is_link i = false ∧ (body i = Folder → may_search (st_mode i) = true)) →
  search d pre rest = Ok () ∨ search d pre rest = Err ENOENT ∨ search d pre rest = Err ENOTDIR.
Proof.
  induction rest as [|nm rest IH]; intros pre Ha; [by left |]. cbn [search]. destruct (nodes d !! pre) as [i|] eqn:Hi; [| auto].
  destruct (Ha pre i) as [Hl Hm]; [done | by apply prefix_app_r | | done |].
  { intros E. rewrite <- (app_nil_r pre) in E at 1. by apply app_inv_head in E. }
  unfold is_link in Hl. destruct (body i); auto; [| done]. rewrite Hm by done. cbn [ensure mbind Res_bind]. apply IH.
  intros a j Hpa Hap Hne. rewrite <- app_assoc in Hap, Hne. apply Ha; [| done..]. by apply prefix_app_l in Hpa.
Qed.
Lemma absent_when d p : nodes d !! p = None →
  (∀ a i, a `prefix_of` p → a ≠ p → nodes d !! a = Some i → is_link i = false ∧ (body i = Folder → may_search (st_mode i) = true)) → absent p d = true.
Proof.
  intros Hp Ha. unfold absent, symlink_metadata. rewrite Hp. destruct (search_kinds d p []) as [->|[->| ->]]; [| done..].
  intros a i _. apply Ha.
Qed.

(** The disk shows the view, and every directory of it can be searched. *)
Lemma checks_shown same s d protected root (h : View) entries p :
  holds fuel depth s root h → kept_whole s h → simple protected →
  (∃ i, nodes d !! [] = Some i ∧ open_folder i) →
  (∀ q, q ≠ [] → ¬ hidden protected q → shows s (nodes d !! q) (h q)) →
  (∀ q e, h q = Some e → kind e = Directory → may_search (mode e) = true) →
  (∀ a e, a `prefix_of` p → a ≠ p → h a = Some e → kind e ≠ Symlink) →
  valid_place p → p ≠ [] → ¬ hidden protected p → entries !! raw p = h p →
  (same = true → ∀ i e, nodes d !! p = Some i → h p = Some e → ∃ q, noted s q i e) → checks same s d entries p.
Proof.
  intros Hh Hk Hprot (r & Hr & [Hrb Hrm] & _) Hsh Hsearch Hlink Hv Hne Hseen He Hsame.
  assert (∀ a, a `prefix_of` p → a ≠ [] → shows s (nodes d !! a) (h a)) as Habove.
  { intros a Ha Hane. apply Hsh; [done |]. intros Hha. apply Hseen. by apply (simple_below protected a). }
  assert (∀ a i, a `prefix_of` p → a ≠ p → nodes d !! a = Some i → is_link i = false ∧ (body i = Folder → may_search (st_mode i) = true)) as Hgood.
  { intros a i Ha Hap Hi. destruct (decide (a = [])) as [->|Hane].
    - rewrite Hr in Hi. injection Hi as <-. unfold is_link. by rewrite Hrb.
    - pose proof (Habove a Ha Hane) as Hs. rewrite Hi in Hs. destruct (h a) as [e|] eqn:Ea; [| done]. split.
      + apply not_true_is_false. intros Hl. apply (Hlink a e Ha Hap Ea). by apply (shows_link s i).
      + intros Hb. pose proof (shows_folder s i e Hs Hb) as Hke. cbn in Hs. unfold inode_shows, recorded_times in Hs. rewrite Hke in Hs.
        destruct Hs as (_ & Hm & _). rewrite Hm. by apply (Hsearch a). }
  split; [done |]. split; [intros a i Ha Hap _ Hi; by apply (Hgood a i) |]. rewrite He.
  pose proof (Habove p ltac:(done) Hne) as Hsp. destruct (h p) as [e|] eqn:Ep.
  - split.
    + intros a Ha Hap. destruct (decide (a = [])) as [->|Hane]; [exists r; done |].
      destruct (holds_above fuel depth s root h p e a Hh Ep Ha Hap Hane) as (e' & Ea & Hke).
      pose proof (Habove a Ha Hane) as Hs. rewrite Ea in Hs. destruct (nodes d !! a) as [i|] eqn:Hi; [| cbn in Hs; congruence].
      exists i. split; [done |]. cbn in Hs. unfold inode_shows in Hs. rewrite Hke in Hs. destruct Hs as [Hb _].
      split; [done |]. by apply (Hgood a i).
    + destruct (nodes d !! p) as [i|]; [| done]. split; [done |]. destruct same.
      * destruct (Hsame eq_refl i e eq_refl eq_refl) as [q Hq]. by exists q, i.
      * destruct (Hk p e Ep) as [i0 Hi0]. by exists p, i0.
  - apply absent_when; [by destruct (nodes d !! p) | done].
Qed.

(** ** What a rewind may take for granted *)

(** Modes are those of their kinds and directories can be searched; no link takes
    the place of a directory that holds something, nor a directory that of a
    link; a directory that has to go lets its entries go and hides none; no pipe is to be made. *)
Record returnable (protected : CapturePolicy) (d0 : Disk) (f g : View) : Prop := {
  rt_disk : disk_ok d0;
  rt_root : ∃ i, nodes d0 !! [] = Some i ∧ open_folder i;
  rt_moded p e : f p = Some e ∨ g p = Some e → kind e = File ∨ kind e = Directory → well_moded e;
  rt_search p e : f p = Some e ∨ g p = Some e → kind e = Directory → may_search (mode e) = true;
  rt_swap p nm e : is_Some (f (p ++ [nm])) ∧ g p = Some e ∨ is_Some (g (p ++ [nm])) ∧ f p = Some e → kind e ≠ Symlink;
  rt_open p e : ¬ hidden protected p → f p = Some e → kind e = Directory → (∀ e', g p = Some e' → kind e' ≠ Directory) → may_write (mode e) = true;
  rt_kept p q : p ≠ [] → ¬ hidden protected p → changed f g p → (∀ e, g p = Some e → kind e ≠ Directory) → p `prefix_of` q → hidden protected q → nodes d0 !! q = None;
  rt_fifo p e : changed f g p → g p = Some e → kind e ≠ Fifo;
}.
Lemma returnable_rewindable s protected d0 f g :
  returnable protected d0 f g → simple protected → kept_whole s g →
  (∀ p, p ≠ [] → ¬ hidden protected p → shows s (nodes d0 !! p) (f p)) → rewindable s protected d0 f g.
Proof.
  intros RT Hprot Hk Hsh. constructor; try apply RT; try done.
  - intros p _. by apply simple_allowed.
  - intros p q. by apply simple_below.
  - intros p e _ Hp Hd. apply (rt_moded _ _ _ _ RT p); auto.
  - intros p e Hseen Hp Hd Hg. split; [apply (rt_search _ _ _ _ RT p); auto | by apply (rt_open _ _ _ _ RT p)].
  - intros p nm e _ Hp Hg. apply (rt_swap _ _ _ _ RT p nm). by left.
  - intros p e _ Hch Hp. destruct (Hk p e Hp) as [i Hn]. pose proof (noted_shows s p i e Hn) as Hs. unfold restorable.
    destruct (kind e) eqn:Hke; [| | done | by destruct (rt_fifo _ _ _ _ RT p e Hch Hp) | done].
    + unfold inode_shows in Hs. rewrite Hke in Hs. destruct Hs as (data & _ & Hd & Ha & _). rewrite Hd, Ha.
      split; [apply (rt_moded _ _ _ _ RT p); auto |]. split; [| done]. unfold file_data in Hd. by destruct (target e).
    + apply (rt_moded _ _ _ _ RT p); auto.
Qed.
Lemma link_above s current target_root f g protected d0 p a : returnable protected d0 f g →
  holds fuel depth s current f → holds fuel depth s target_root g → p ≠ [] → changed f g p → a `prefix_of` p → a ≠ p →
  (∀ e, f a = Some e → kind e ≠ Symlink) ∧ (∀ e, g a = Some e → kind e ≠ Symlink).
Proof.
  intros RT Hf Hg Hne Hch Ha Hap. pose proof (changed_present fuel depth s current target_root f g p Hf Hg Hne Hch) as Hp.
  assert (∃ nm, (a ++ [nm]) `prefix_of` p) as [nm Hnm].
  { destruct Ha as [[|nm t] ->]; [by rewrite app_nil_r in Hap |]. exists nm. exists t. by rewrite <- app_assoc. }
  assert (a ++ [nm] ≠ []) as Hn by by destruct a.
  assert (a ≠ [] → ∀ n id h e, holds fuel n s id h → is_Some (h p) → h a = Some e → kind e ≠ Symlink) as Hdir.
  { intros Hane n id h e Hh [e' Hp'] He. destruct (holds_above fuel n s id h p e' a Hh Hp' Ha Hap Hane) as (e2 & E & Hk). congruence. }
  split; intros e He.
  all: assert (a ≠ []) as Hane by (intros ->; by (destruct (holds_valid fuel depth s current f [] e Hf He) || destruct (holds_valid fuel depth s target_root g [] e Hg He))).
  all: destruct Hp as [Hp|Hp].
  - by eapply (Hdir Hane depth current f).
  - apply (rt_swap _ _ _ _ RT a nm). right. split; [| done]. by eapply view_above.
  - apply (rt_swap _ _ _ _ RT a nm). left. split; [| done]. by eapply view_above.
  - by eapply (Hdir Hane depth target_root g).
Qed.
End Seen.
