(* ===== verification/RewindRuns.v ===== *)
(** * RewindRuns: rewinds that end, and rewinds that are cut short

    A rewind seals the folder, brings back the target and leaves no note. Cut
    short after it left one, it is undone by the next process: the folder shows
    again what was sealed. *)

From S2P Require Import Prelude Model Tree TreeTheory Bundle Chunker ChunkerTheory Paths Disk Files Policy Rewind PolicyTheory DiskTheory PlanTheory RewindTheory RewindRestores.
From S2P Require Import Capture CaptureSpec CaptureTheory RefStore CaptureLog CaptureFull CaptureDelta Seal SealTheory VerifyTheory RewindVerb RewindVerbTheory.
From S2P Require PathIndex Catalog CatalogTheory Refs Exchange ExchangeTheory.
#[local] Open Scope Z_scope.

Section Runs.
Context `{Platform} {PL : PlatformLaws _} {St : Type} {OS : ObjectStore St} {OSok : ObjectStoreOk St} `{Blake3} {CS : ContentStoreOk St}.
Context {OI : Exchange.ObjectIndex St} {IX : ExchangeTheory.IndexOk St}.
Context {L : Type} {RL : RefStore L} {RLok : RefStoreOk L}.
Context {JE : Json TreeEntry} {JP : Json TreePage} {JT : Json Tree} {JTok : JsonOk Tree}.
Context {JB : Json Blob} {JBok : JsonOk Blob} {JX : Json Xattrs} {JXok : JsonOk Xattrs} {JS : Json Snapshot} {JSok : JsonOk Snapshot} {HX : Hex}.
Context {JI : Json RestoreIntent} {JIok : JsonOk RestoreIntent}.
Variable reading : Place → Disk → list (Res bytes) * Disk.
Variable wall : nat → Z.
Variable device : Z.
Variable linked_outside : Z → bool.
Variable workspace_id : bytes.
Variable generation : bytes.
Variables rounds fuel depth : nat.
Variable discover : Disk → Res (option Matcher).
Variable folding : NameFolding.
Variable link_name : nat → bytes.

(** The store lies outside the folder. *)
#[local] Abbreviation capturable := (capturable wall device workspace_id).
#[local] Abbreviation indexed := (indexed generation rounds fuel depth).
#[local] Abbreviation sealed := (sealed wall device workspace_id generation rounds fuel depth).
#[local] Abbreviation in_reach := (in_reach None rounds fuel depth discover).
#[local] Abbreviation view s0 pol d := (view_of None rounds depth s0 pol d).
#[local] Abbreviation plan_rewind turns := (plan_rewind reading wall device linked_outside workspace_id None generation rounds fuel depth turns discover folding).
#[local] Abbreviation go_back turns := (go_back reading wall device linked_outside workspace_id None generation rounds fuel depth turns discover folding link_name).
#[local] Abbreviation invalidate := (invalidate_path_index generation fuel depth).
#[local] Abbreviation apply_plan_with := (apply_plan_with fuel discover link_name).

Hypothesis Hstill : still reading.
Hypothesis Hempty : empty_fits.
Hypothesis Hfold : fold_active folding = false.

(** ** Policies *)

Lemma policy_simple d pol : Seal.load_policy discover d = Ok pol → gitignore pol = false → simple pol.
Proof.
  unfold Seal.load_policy. intros (file & _ & (own & (Hwf & _ & Hm & _)%load_ok & Hr)%Res_bind_ok)%Res_bind_ok Hg.
  unfold resolve_gitignore in Hr. destruct (gitignore own) eqn:Eg; [| by injection Hr as <-].
  apply Res_bind_ok in Hr as (m & _ & [= <-]). done.
Qed.
Lemma load_policy_healed d d' pol : healed d d' → gitignore pol = false → Seal.load_policy discover d = Ok pol → Seal.load_policy discover d' = Ok pol.
Proof.
  intros Hh Hg. assert (policy_file d' = policy_file d) as E.
  { unfold policy_file, symlink_metadata. rewrite (healed_search d d') by done. destruct (search d [] [POLICY_FILE]) as [[]|e]; [| done].
    cbn [mbind Res_bind]. destruct Hh as [Hh _]. destruct (Hh [POLICY_FILE]) as [i j Hij|]; [| done]. cbn.
    by destruct (healed_inode_fields _ _ Hij) as (-> & _). }
  unfold Seal.load_policy. rewrite E. intros (file & -> & (own & Hown & Hr)%Res_bind_ok)%Res_bind_ok. cbn [mbind Res_bind]. rewrite Hown. cbn [mbind Res_bind].
  unfold resolve_gitignore in *. destruct (gitignore own) eqn:Eg; [| done]. apply Res_bind_ok in Hr as (m & _ & [= <-]). done.
Qed.

(** ** The target *)

(** A snapshot of the tree [g], whole in the store, without hard links. *)
Record targets (s : St) (id : ObjectId) (snapshot : Snapshot) (pol : CapturePolicy) (g : View) : Prop := {
  tg_read : read_struct_at SnapshotKind id s = Ok snapshot;
  tg_holds : holds fuel depth s (root_tree snapshot) g;
  tg_whole : kept_whole s g;
  tg_policy : from_rules (excluded_paths snapshot) = Ok pol;
}.
Lemma tg_simple s id snapshot pol g : targets s id snapshot pol g → simple pol.
Proof. intros [_ _ _ Hp]. by apply from_rules_formed in Hp. Qed.
Lemma targets_extends s s' id snapshot pol g : extends s s' → targets s id snapshot pol g → targets s' id snapshot pol g.
Proof.
  intros He [T1 T2 T3 T4]. constructor; [by eapply read_extends | by eapply holds_extends | by eapply kept_extends | done].
Qed.
(** Nothing of it is missing, once there are turns for all its directories. *)
Definition exact_in (turns : nat) (s : St) (id : ObjectId) : Prop := derive_materialization turns fuel s id = Ok (mkReport (b_ "exact") [] []).
Lemma noted_complete s f : kept_whole s f → complete s f.
Proof.
  intros Hf p e t Hp Hk Ht. destruct (Hf p e Hp) as (i & [tt He] & _ & Hr & _). unfold entry_of in He. unfold recorded in Hr.
  destruct (metadata_time i), (body i) as [data| | | | |]; try done; injection He as <-; try done. injection Ht as <-.
  destruct Hr as (Hb & Hc & _). exists (blob_of data). split; [unfold read_struct_at; rewrite Hb; cbn; by rewrite from_to |].
  intros c Hin. apply ExchangeTheory.contains_read. exists Chunk. cbn [blob_of chunks] in Hin. unfold chunk_refs in Hin.
  apply list_elem_of_fmap in Hin as (x & -> & Hx). exists x. by apply Hc.
Qed.
Lemma holds_exact s0 id0 g : holds fuel depth s0 id0 g →
  ∃ m, ∀ turns s id snapshot pol, (m ≤ turns)%nat → targets s id snapshot pol g → exact_in turns s id.
Proof.
  intros Hh. destruct (materialization_exact fuel depth g s0 id0 Hh) as (m & Hm). exists m. intros turns s id snapshot pol Hle [T1 T2 T3 _].
  by eapply Hm, noted_complete.
Qed.

(** ** Planning *)

Lemma plan_rewind_run turns s rs s0 pol root target snapshot tpol g :
  says (ref_log s) rs → capturable s → in_reach s0 pol (disk (work s)) root → gitignore pol = false →
  targets (store (work s)) target snapshot tpol g → exact_in turns (store (work s)) target →
  let f := view s0 pol (disk (work s)) in
  ∃ plan s', plan_rewind turns target [] s = (Ok plan, s') ∧ disk (work s') = disk (work s) ∧ extends (store (work s)) (store (work s'))
    ∧ capturable s' ∧ says (ref_log s') rs ∧ Catalog.saved (catalog s') = Catalog.saved (catalog s) ∧ is_Some (index s')
    ∧ holds fuel depth (store (work s')) root f
    ∧ (∀ q e, f q = Some e → ∃ i, nodes (disk (work s)) !! q = Some i ∧ noted (store (work s')) q i e)
    ∧ plan_held plan = [] ∧ planned_for (union pol tpol) f g plan.
Proof.
  intros Hlog Hc [Hpol Htree Hread] Hgit TG T5 f. pose proof (policy_simple _ _ Hpol Hgit) as Hsp. pose proof (tg_simple _ _ _ _ _ TG) as Hst.
  destruct TG as [T1 T2 T3 T4]. unfold exact_in in T5. set (s1 := mkSession (work s) (index s) (catalog s) pol (paths_head s) (ref_log s)).
  assert (capturable s1) as Hc1 by by destruct Hc.
  destruct (capture_full_run reading wall device linked_outside workspace_id None generation rounds fuel depth s1 rs s0 root Hlog Hstill Hempty Hc1)
    as (s2 & Hrun & Hd & He & Hix & _ & Hc2 & Hl2 & _ & Hsv & Hn); [done | done |]. cbn [work policy s1 store disk] in *. fold f in Hix, Hn.
  destruct (planned_run fuel depth (store (work s2)) folding (union pol tpol) root (root_tree snapshot) f g) as (plan & Hplan & Hheld & Hfor);
    [apply Hix | by eapply holds_extends | done | |].
  { intros p _ Hh. apply simple_allowed; [by apply simple_union | done]. }
  exists plan, s2. split_and!; try done; [| destruct (ix_lists _ _ _ _ _ _ _ Hix) as (x & Hx & _); by exists x | apply Hix].
  unfold plan_rewind. rewrite get_bind, T5, lift_ok_bind. cbn [missing_paths forallb]. rewrite mensure_bind by done.
  rewrite (M_bind_run (read_snapshot target) _ s snapshot s) by (unfold read_snapshot; by rewrite get_bind, T1).
  rewrite get_bind, Hpol, lift_ok_bind, T4, lift_ok_bind. rewrite (M_bind_run (use_policy pol) _ s () s1) by done.
  rewrite (M_bind_run _ _ _ _ _ Hrun), get_bind, Hplan. done.
Qed.

(** ** Carrying out and checking *)

Definition with_work (w : Work St) (s : Session St L) : Session St L := mkSession w (index s) (catalog s) (policy s) (paths_head s) (ref_log s).
Lemma on_work_run {A} (m : M (Work St) A) s r w : m (work s) = (r, w) → on_work m s = (r, with_work w s).
Proof. intros E. unfold on_work. by rewrite E. Qed.

(** The disk shows [f] and is to show [g]; the store holds both. *)
Record ready_for (protected : CapturePolicy) (f g : View) (current target : ObjectId) (w : Work St) : Prop := {
  rf_from : holds fuel depth (store w) current f;
  rf_to : holds fuel depth (store w) target g;
  rf_whole : kept_whole (store w) g;
  rf_simple : simple protected;
  rf_shows p : p ≠ [] → ¬ hidden protected p → shows (store w) (nodes (disk w) !! p) (f p);
  rf_return : returnable protected (disk w) f g;
}.
Lemma ready_extends protected f g current target st w : extends (store w) st →
  ready_for protected f g current target w → ready_for protected f g current target (mkWork st (disk w)).
Proof.
  intros He [R1 R2 R3 R4 R5 R6]. constructor; cbn; try done; [by eapply holds_extends | by eapply holds_extends | by eapply kept_extends |].
  intros p Hne Hh. eapply shows_extends; [exact He | by apply R5].
Qed.

(** The disk then shows [g]. *)
Definition brought (protected : CapturePolicy) (g : View) (w : Work St) : Prop :=
  disk_ok (disk w) ∧ (∃ i, nodes (disk w) !! [] = Some i ∧ open_folder i)
  ∧ ∀ p, p ≠ [] → ¬ hidden protected p → shows (store w) (nodes (disk w) !! p) (g p).

Lemma applied_run protected f g current target plan entries links pol (s : Session St L) :
  ready_for protected f g current target (work s) → planned_for protected f g plan → entries_of protected f g g entries →
  Seal.load_policy discover (disk (work s)) = Ok pol → (∀ snapshot, links = Some snapshot → hardlinks snapshot = []) →
  ∃ d', apply_plan_with entries plan [] links s = (Ok (), with_disk d' s) ∧ brought protected g (mkWork (store (work s)) d')
    ∧ ∀ p, p ≠ [] → (∀ c, c ∈ plan_changes plan → raw_path c ≠ raw p) → nodes d' !! p = nodes (disk (work s)) !! p.
Proof.
  intros RF Hplan Hes Hpol Hlinks. pose proof RF as [R1 R2 R3 R4 R5 R6].
  destruct (apply_views_run fuel depth link_name (store (work s)) protected current target f g (disk (work s)) plan entries pol R1 R2) as (d' & Hrun & Hok & Hsh & Hrest & Hroot);
    [by apply returnable_rewindable | done | done |].
  exists d'. split.
  - unfold RewindVerb.apply_plan_with. rewrite get_bind, Hpol, lift_ok_bind. apply (on_work_run _ s _ (mkWork (store (work s)) d')).
    destruct s as [[st d] ? ? ? ? ?]. cbn in *. rewrite <- Hrun. destruct links as [snapshot|]; [| done]. unfold apply_plan, restore_links. rewrite (Hlinks snapshot eq_refl). done.
  - split; [| done]. split; [done |]. split; [| done]. destruct (rt_root _ _ _ _ R6) as (i & Hi & Ho).
    destruct (core_lookup _ _ i Hroot Hi) as (j & Hj & Ec). exists j. split; [done | by eapply core_open].
Qed.

Lemma brought_checks protected f g current target plan entries w w' :
  ready_for protected f g current target w → planned_for protected f g plan → entries_of protected f g g entries →
  brought protected g w' → extends (store w) (store w') →
  ∀ c, c ∈ plan_changes plan → ∃ p, raw_path c = raw p ∧ checks false (store w') (disk w') entries p.
Proof.
  intros [R1 R2 R3 R4 R5 R6] Hplan Hes (Hok & Hroot & Hsh) He c (p & Hne & -> & Hch & Hseen)%Hplan. exists p. split; [done |].
  apply (checks_shown fuel depth false (store w') (disk w') protected target g); try done.
  - by eapply holds_extends.
  - by eapply kept_extends.
  - intros q e Hq Hk. apply (rt_search _ _ _ _ R6 q); auto.
  - intros a e Ha Hap. by apply (link_above fuel depth (store w) current target f g protected (disk w) p a).
  - by apply (changed_valid fuel depth (store w) (Some current) (Some target) f g).
  - by apply Hes.
Qed.
Lemma check_brought_run protected f g current target plan entries (s : Session St L) w :
  ready_for protected f g current target w → planned_for protected f g plan → entries_of protected f g g entries →
  brought protected g (work s) → extends (store w) (store (work s)) →
  ∃ w', on_work (verify_plan_state reading wall entries plan []) s = (Ok (), with_work w' s)
    ∧ extends (store (work s)) (store w') ∧ healed (disk (work s)) (disk w') ∧ brought protected g w'.
Proof.
  intros RF Hplan Hes HB He. destruct (verify_run reading wall Hstill false (store (work s)) (disk (work s)) entries plan) as (st & d & Hrun & He' & Hh & _).
  - apply HB.
  - by eapply brought_checks.
  - exists (mkWork st d). split_and!; try done.
    + apply on_work_run. rewrite <- Hrun. by destruct (work s).
    + destruct HB as (Hok & (i & Hi & [Hib Him] & Hiw) & Hsh). split; [by eapply healed_ok |]. split.
      * destruct (healed_fwd _ _ _ _ Hh Hi) as (j & Hj & (Eb & _ & Em & _)%healed_inode_fields). exists j. split; [done |].
        unfold open_folder, searchable. by rewrite Eb, Em.
      * intros p Hne Hseen. cbn. eapply shows_extends; [exact He' |]. eapply healed_shows; [exact Hh | by apply Hsh].
Qed.

(** Before anything is written the check agrees and changes nothing. *)
Lemma check_before_run protected f g current target plan entries (s : Session St L) :
  ready_for protected f g current target (work s) → planned_for protected f g plan → entries_of protected f g f entries →
  (∀ q e, f q = Some e → ∃ i, nodes (disk (work s)) !! q = Some i ∧ noted (store (work s)) q i e) →
  ∃ st, on_work (verify_plan_state reading wall entries plan []) s = (Ok (), with_work (mkWork st (disk (work s))) s) ∧ extends (store (work s)) st.
Proof.
  intros [R1 R2 R3 R4 R5 R6] Hplan Hes Hn.
  destruct (verify_run reading wall Hstill true (store (work s)) (disk (work s)) entries plan) as (st & d & Hrun & He & Hh & Hsame).
  - apply R6.
  - intros c (p & Hne & -> & Hch & Hseen)%Hplan. exists p. split; [done |].
    apply (checks_shown fuel depth true (store (work s)) (disk (work s)) protected current f); try done.
    + intros q e Hq. destruct (Hn q e Hq) as (i & _ & Hi). by exists i.
    + apply R6.
    + intros q e Hq Hk. apply (rt_search _ _ _ _ R6 q); auto.
    + intros a e Ha Hap. by apply (link_above fuel depth (store (work s)) current target f g protected (disk (work s)) p a).
    + by apply (changed_valid fuel depth (store (work s)) (Some current) (Some target) f g).
    + by apply Hes.
    + intros _ i e Hi He'. destruct (Hn p e He') as (i' & Hi' & Hnn). rewrite Hi in Hi'. injection Hi' as <-. by exists p.
  - rewrite (Hsame eq_refl) in Hrun. exists st. split; [| done]. apply on_work_run. rewrite <- Hrun. by destruct (work s).
Qed.

(** ** The parts of the verb *)

Lemma changed_entries_run s root f changes : holds fuel depth s root f →
  (∀ c, c ∈ changes → ∃ p, raw_path c = raw p ∧ valid_place p ∧ p ≠ []) → ∀ entries,
  ∃ es, entries_for_changed_paths fuel s root changes entries = Ok es
    ∧ ∀ p, valid_place p → p ≠ [] → entries !! raw p = None ∨ entries !! raw p = f p → (∃ c, c ∈ changes ∧ raw_path c = raw p) ∨ entries !! raw p = f p → es !! raw p = f p.
Proof.
  intros Hf. induction changes as [|c changes IH]; intros Hc entries.
  { exists entries. split; [done |]. intros p _ _ _ [(c & []%elem_of_nil & _)|]; done. }
  destruct (Hc c ltac:(left)) as (q & Hq & Hv & Hne). cbn [entries_for_changed_paths].
  rewrite Hq, (lookup_tree_path_ok fuel depth s root f q Hf Hv Hne). cbn [mbind Res_bind].
  destruct (IH (λ c Hin, Hc c (list_elem_of_further _ _ _ Hin)) (match f q with Some e => <[raw q := e]> entries | None => entries end)) as (es & -> & Hes).
  exists es. split; [done |]. intros p Hvp Hnp Hold Hnew. destruct (decide (p = q)) as [->|Hpq].
  - apply Hes; [done.. | |]; destruct (f q) as [e|]; rewrite ?lookup_insert_eq; auto; right; by destruct Hold.
  - assert ((match f q with Some e => <[raw q := e]> entries | None => entries end) !! raw p = entries !! raw p) as E.
    { destruct (f q); [| done]. apply lookup_insert_ne. intros E. apply Hpq. by apply raw_inj. }
    apply Hes; rewrite ?E; [done.. |]. destruct Hnew as [(c' & [->|Hin]%elem_of_cons & E')|?]; [| left; eauto | by right].
    rewrite Hq in E'. by apply raw_inj in E' as ->.
Qed.
Lemma plan_changed_entries_run s protected current target f g plan :
  holds fuel depth s current f → holds fuel depth s target g → planned_for protected f g plan →
  ∃ entries, entries_for_changed_paths fuel s current (plan_changes plan) ∅ = Ok entries ∧ entries_of protected f g f entries.
Proof.
  intros Hf Hg Hplan. pose proof (λ p, changed_valid fuel depth s (Some current) (Some target) f g p Hf Hg) as Hval.
  destruct (changed_entries_run s current f (plan_changes plan) Hf) with (entries := ∅ : gmap bytes TreeEntry) as (es & Hrun & Hes).
  { intros c (p & Hne & -> & Hch & _)%Hplan. exists p. split_and!; [done | by apply Hval | done]. }
  exists es. split; [done |]. intros p Hne Hch Hseen. apply Hes; [by apply Hval | done | left; apply lookup_empty |].
  left. eexists. split; [apply Hplan; exists p; split_and!; done | done].
Qed.

Lemma invalidate_run (s : Session St L) : is_Some (index s) → idle s → ∃ x, invalidate s
  = (Ok (), mkSession (work s) (Some x) (catalog s) (policy s) (Some (b_ "invalid" ++ [Byte.x0a])) (ref_log s)).
Proof.
  intros [x Hx] Hi. specialize (Hi x Hx). exists (PathIndex.mkIndex PathIndex.no_tables None).
  unfold invalidate_path_index. rewrite (M_bind_run _ _ _ () (mkSession (work s) (index s) (catalog s) (policy s) (Some (b_ "invalid" ++ [Byte.x0a])) (ref_log s))) by done.
  rewrite (M_bind_run _ _ _ () (mkSession (work s) (index s) (catalog s) (policy s) (Some (b_ "invalid" ++ [Byte.x0a])) (ref_log s)))
    by (unfold open_path_index; rewrite get_bind; cbn [index]; by rewrite Hx).
  destruct x as [t sv]. cbn in Hi. subst sv. unfold on_index. cbn. rewrite Hx. done.
Qed.

(** Nothing on the disk the program does not record. *)
Definition recordable (d : Disk) : Prop := ∀ p i, nodes d !! p = Some i → body i ≠ Device.
Lemma ready_run (s : Session St L) s0 pol root target snapshot tpol g st :
  names_ok (disk (work s)) → in_reach s0 pol (disk (work s)) root → gitignore pol = false → recordable (disk (work s)) →
  targets st target snapshot tpol g → holds fuel depth st root (view s0 pol (disk (work s))) →
  (∀ q e, view s0 pol (disk (work s)) q = Some e → ∃ i, nodes (disk (work s)) !! q = Some i ∧ noted st q i e) →
  returnable (union pol tpol) (disk (work s)) (view s0 pol (disk (work s))) g →
  ready_for (union pol tpol) (view s0 pol (disk (work s))) g root (root_tree snapshot) (mkWork st (disk (work s))).
Proof.
  intros Hnames [Hpol Htree Hread] Hgit Hdev TG Hh Hn RT. pose proof (policy_simple _ _ Hpol Hgit) as Hsp. pose proof (tg_simple _ _ _ _ _ TG) as Hst.
  constructor; try done; [apply TG | apply TG | by apply simple_union |].
  intros p Hne Hseen. cbn. pose proof (captured_of None rounds Hempty depth s0 pol (disk (work s)) root Htree) as Hcap.
  apply (disk_shows_view rounds depth pol (union pol tpol) (disk (work s)) _ root Hcap (rt_disk _ _ _ _ RT) Hnames Hsp); try done.
  - by apply simple_union.
  - intros q. by apply hidden_union.
Qed.

(** Where nothing is planned what is there may only have gained an attribute. *)
Definition left_alone (protected : CapturePolicy) (f g : View) (d d' : Disk) : Prop :=
  ∀ p, p ≠ [] → valid_place p → ¬ changed f g p ∨ hidden protected p → option_Forall2 healed_inode (nodes d !! p) (nodes d' !! p).
Lemma left_alone_run protected f g plan current target st d d1 d2 :
  holds fuel depth st current f → holds fuel depth st target g → planned_for protected f g plan →
  (∀ p, p ≠ [] → (∀ c, c ∈ plan_changes plan → raw_path c ≠ raw p) → nodes d1 !! p = nodes d !! p) → healed d1 d2 → left_alone protected f g d d2.
Proof.
  intros Hf Hg Hplan Hrest [Hh _] p Hne Hv Hp. rewrite <- Hrest; [apply Hh | done |].
  intros c (q & Hq & -> & Hch & Hseen)%Hplan E. apply raw_inj in E as ->; [by destruct Hp | | done].
  by apply (changed_valid fuel depth st (Some current) (Some target) f g).
Qed.

Lemma go_back_run turns check (s : Session St L) rs s0 pol root pre snapshot ppol g :
  says (ref_log s) rs → capturable s → in_reach s0 pol (disk (work s)) root → gitignore pol = false → recordable (disk (work s)) →
  targets (store (work s)) pre snapshot ppol g → exact_in turns (store (work s)) pre →
  let f := view s0 pol (disk (work s)) in returnable (union pol ppol) (disk (work s)) f g →
  ∃ s', go_back turns pre (root_tree snapshot) [] check s = (Ok (), s') ∧ extends (store (work s)) (store (work s')) ∧ says (ref_log s') rs
    ∧ brought (union pol ppol) g (work s') ∧ left_alone (union pol ppol) f g (disk (work s)) (disk (work s')).
Proof.
  intros Hlog Hc Hr Hgit Hdev TG Hex f RT.
  destruct (plan_rewind_run turns s rs s0 pol root pre snapshot ppol g Hlog Hc Hr Hgit TG Hex) as (plan & s1 & Hplan & Hd & He & Hc1 & Hl1 & _ & Hx1 & Hh1 & Hn & _ & Hfor).
  fold f in Hh1, Hn, Hfor. pose proof (targets_extends _ _ _ _ _ _ He TG) as TG1.
  destruct (plan_entries_run fuel depth (store (work s1)) (store (work s1)) (union pol ppol) root (root_tree snapshot) f g plan Hh1) as (entries & Hent & Hes); [apply TG1 | apply TG1 | done |].
  assert (names_ok (disk (work s))) as Hnm by by destruct Hc.
  pose proof (ready_run s s0 pol root pre snapshot ppol g (store (work s1)) Hnm Hr Hgit Hdev TG1 Hh1 Hn RT) as RF. fold f in RF.
  assert (mkWork (store (work s1)) (disk (work s)) = work s1) as Ew by (rewrite <- Hd; by destruct (work s1)). rewrite Ew in RF.
  destruct (applied_run (union pol ppol) f g root (root_tree snapshot) plan entries None pol s1 RF Hfor Hes) as (d2 & Happ & Hb2 & Hrest); [rewrite Hd; apply Hr | done |].
  set (s2 := with_disk d2 s1).
  assert (∃ w3, (if check then on_work (verify_plan_state reading wall entries plan []) else mret ()) s2 = (Ok (), with_work w3 s2)
    ∧ extends (store (work s1)) (store w3) ∧ healed d2 (disk w3) ∧ brought (union pol ppol) g w3) as (w3 & Hcheck & He3 & Hh3 & Hb3).
  { destruct check.
    - exact (check_brought_run (union pol ppol) f g root (root_tree snapshot) plan entries s2 (work s1) RF Hfor Hes Hb2 (extends_refl _)).
    - exists (work s2). split_and!; [by destruct s2 | apply extends_refl | apply healed_refl | done]. }
  destruct (invalidate_run (with_work w3 s2)) as (x & Hinv); [done | apply Hc1 |].
  eexists. split; [| split; [| split; [| split]]].
  - unfold RewindVerb.go_back. rewrite (M_bind_run _ _ _ _ _ Hplan), get_bind, Hent, lift_ok_bind.
    rewrite (M_bind_run _ _ _ _ _ Happ), (M_bind_run _ _ _ _ _ Hcheck). exact Hinv.
  - cbn. by eapply extends_trans.
  - exact Hl1.
  - exact Hb3.
  - cbn. rewrite <- Hd. eapply left_alone_run; [exact Hh1 | apply TG1 | done | exact Hrest | exact Hh3].
Qed.

(** ** Up to the note *)

Variable capture_sqlite_backups : M (Session St L) (list SqliteBackup).
Variable active_claims : Session St L → Res (list ClaimRecord).
Hypothesis claims_read : ∀ s, ∃ claims, active_claims s = Ok claims.
Variable leads : Place → Disk → bool.
Variables now later : Z * Z.
#[local] Abbreviation fits := (fits reading wall device linked_outside workspace_id None generation rounds fuel depth discover capture_sqlite_backups active_claims).
#[local] Abbreviation prepare_rewind turns := (prepare_rewind reading wall device linked_outside workspace_id None generation rounds fuel depth turns discover
  capture_sqlite_backups active_claims folding now).
#[local] Abbreviation rewind turns := (rewind reading wall device linked_outside workspace_id None generation rounds fuel depth turns discover
  capture_sqlite_backups active_claims folding link_name leads now later).
#[local] Abbreviation recover turns := (recover_interrupted_rewind reading wall device linked_outside workspace_id None generation rounds fuel depth turns discover folding link_name).
#[local] Abbreviation carry_out := (carry_out reading wall fuel discover link_name leads now).

Lemma sealed_extends rs f root (s : Session St L) st : extends (store (work s)) st → sealed rs f root s → sealed rs f root (with_work (mkWork st (disk (work s))) s).
Proof.
  intros He [[C1 C2 C3 C4] S2 S3 (r & snapshot & Hr & Hp & Hread & Hroot) S5 S6 S7]. constructor; try done.
  - constructor; try done. cbn. by eapply cache_right_extends.
  - exists r, snapshot. split_and!; try done. cbn. by eapply read_extends.
  - cbn. by eapply holds_extends.
  - intros Hx. destruct (S7 Hx) as [I1 I2 I3 I4]. constructor; try done. cbn. by eapply holds_extends.
Qed.
Lemma in_session_run {A} (m : M (Session St L) A) w r s : m (session w) = (r, s) → in_session m w = (r, mkWorkspace s (intent w)).
Proof. intros E. unfold in_session. by rewrite E. Qed.

Definition pre_label (target : ObjectId) : option bytes := Some (b_ "before rewind to " ++ take 12 (id_hex target)).
(** What a rewind to [target] needs of the session and its folder: the folder can
    be captured and brought to what the target holds. *)
Record can_rewind (rs : list Refs.RefRecord) (s0 : St) (pol : CapturePolicy) (root target : ObjectId) (snapshot : Snapshot) (tpol : CapturePolicy) (g : View)
    (s : Session St L) : Prop := {
  cr_capturable : capturable s;
  cr_idle : Catalog.is_idle (catalog s) = true;
  cr_head : head_ok rs s;
  cr_reach : in_reach s0 pol (disk (work s)) root;
  cr_rules : gitignore pol = false;
  cr_recordable : recordable (disk (work s));
  cr_backups : backups_ok capture_sqlite_backups;
  cr_target : targets (store (work s)) target snapshot tpol g;
  cr_returnable : returnable (union pol tpol) (disk (work s)) (view s0 pol (disk (work s))) g;
}.

(** The folder is sealed, the note is there, the disk is as it was. *)
Record prepared (rs : list Refs.RefRecord) (s0 : St) (pol : CapturePolicy) (root target : ObjectId) (snapshot : Snapshot) (tpol : CapturePolicy) (g : View)
    (s : Session St L) (p : Prepared) (w : Workspace St L) : Prop := {
  pr_disk : disk (work (session w)) = disk (work s);
  pr_extends : extends (store (work s)) (store (work (session w)));
  pr_note : intent w = Some (to_vec (mkIntent (p_pre p) target []));
  pr_sealed : ∃ rs' r, (rs' = rs ∨ rs' = rs ++ [r]) ∧ last rs' = Some r ∧ Refs.snapshot_id r = p_pre p
    ∧ sealed rs' (view s0 pol (disk (work s))) root (session w);
  pr_index : is_Some (index (session w));
  pr_pre : ∃ pre_snapshot, targets (store (work (session w))) (p_pre p) pre_snapshot (with_rules (excluded pol) false) (view s0 pol (disk (work s)))
    ∧ root_tree pre_snapshot = root;
  pr_root : p_pre_tree p = root;
  pr_target : p_target p = snapshot;
  pr_held : plan_held (p_plan p) = [];
  pr_plan : planned_for (union pol tpol) (view s0 pol (disk (work s))) g (p_plan p);
  pr_entries : entries_of (union pol tpol) (view s0 pol (disk (work s))) g g (p_entries p);
  pr_ready : ready_for (union pol tpol) (view s0 pol (disk (work s))) g root (root_tree snapshot) (work (session w));
}.

Lemma own_rules d pol : Seal.load_policy discover d = Ok pol → gitignore pol = false → from_rules (excluded pol) = Ok (with_rules (excluded pol) false).
Proof.
  unfold Seal.load_policy. intros (file & _ & (own & Hown & Hr)%Res_bind_ok)%Res_bind_ok Hg.
  assert (own = pol) as <-.
  { unfold resolve_gitignore in Hr. destruct (gitignore own) eqn:Eg; [| by injection Hr].
    apply Res_bind_ok in Hr as (m & _ & [= <-]). done. }
  apply load_ok in Hown as (Hwf & Hlen & _). by apply rules_read_back.
Qed.

Lemma prepare_run turns rs s0 pol root target snapshot tpol g (w : Workspace St L) :
  let s := session w in can_rewind rs s0 pol root target snapshot tpol g s → exact_in turns (store (work s)) target →
  fits now (pre_label target) PreRewind None [] rs (plan_rewind turns target [] s).2 →
  ∃ p w', prepare_rewind turns target [] w = (Ok p, w') ∧ prepared rs s0 pol root target snapshot tpol g s p w'.
Proof.
  intros s [Hc Hi [Hlog Hhead] Hr Hgit Hdev Hbk TG RT] Hex Hfits. pose proof Hr as [Hpol _ _]. set (f := view s0 pol (disk (work s))) in *.
  destruct (plan_rewind_run turns s rs s0 pol root target snapshot tpol g Hlog Hc Hr Hgit TG Hex) as (plan & s1 & Hplan & Hd1 & He1 & Hc1 & Hl1 & Hsv & Hx1 & Hh1 & Hn1 & Hheld & Hfor).
  fold f in Hh1, Hn1, Hfor. rewrite Hplan in Hfits. cbn [snd] in Hfits. pose proof (targets_extends _ _ _ _ _ _ He1 TG) as TG1.
  assert (in_reach s0 pol (disk (work s1)) root) as Hr1 by by rewrite Hd1.
  destruct (seal_run reading wall device linked_outside workspace_id None generation rounds fuel depth discover capture_sqlite_backups active_claims claims_read
      None now (pre_label target) PreRewind rs pol (view s0 pol (disk (work s1))) root s1 Hc1)
    as (pre_snapshot & pre & r & rs' & s2 & Hseal & Hd2 & He2 & Hread & Hroot & _ & Hrules & Hlast & Hid & Hrs & Hx2 & Hsd & _); try done.
  { unfold Catalog.is_idle. rewrite Hsv. exact Hi. }
  { split; [done |]. intros r Hlast. destruct (Hhead r Hlast) as (sn & Hsn). exists sn. by eapply read_extends. }
  { by right. } { by destruct Hr1. } { by eapply captures_full. }
  assert (view s0 pol (disk (work s1)) = f) as Ef by (subst f; by rewrite Hd1). rewrite Ef in Hsd. clear Ef Hr1.
  pose proof (targets_extends _ _ _ _ _ _ He2 TG1) as TG2. assert (holds fuel depth (store (work s2)) root f) as Hh2 by by destruct Hsd.
  assert (∀ q e, f q = Some e → ∃ i, nodes (disk (work s)) !! q = Some i ∧ noted (store (work s2)) q i e) as Hn2.
  { intros q e Hq. destruct (Hn1 q e Hq) as (i & ? & ?). exists i. split; [done | by eapply noted_extends]. }
  assert (names_ok (disk (work s))) as Hnm by by destruct Hc.
  pose proof (ready_run s s0 pol root target snapshot tpol g (store (work s2)) Hnm Hr Hgit Hdev TG2 Hh2 Hn2 RT) as RF. fold f in RF.
  assert (mkWork (store (work s2)) (disk (work s)) = work s2) as Ew by (rewrite <- Hd1, <- Hd2; by destruct (work s2)). rewrite Ew in RF.
  destruct (plan_changed_entries_run (store (work s2)) (union pol tpol) root (root_tree snapshot) f g plan Hh2) as (es & Hpre & Hes); [apply TG2 | done |].
  destruct (plan_entries_run fuel depth (store (work s2)) (store (work s2)) (union pol tpol) root (root_tree snapshot) f g plan Hh2) as (es' & Htgt & Hes'); [apply TG2 | apply TG2 | done |].
  assert (disk (work s2) = disk (work s)) as Hd by congruence.
  destruct (check_before_run (union pol tpol) f g root (root_tree snapshot) plan es s2 RF Hfor Hes) as (st & Hcheck & He3); [by rewrite Hd |].
  set (s3 := with_work _ s2) in Hcheck.
  exists (mkPrepared pre root plan pol snapshot es'), (mkWorkspace s3 (Some (to_vec (mkIntent pre target [])))). split.
  - unfold RewindVerb.prepare_rewind. rewrite (M_bind_run _ _ _ _ _ (in_session_run _ _ _ _ Hplan)), get_bind. cbn [session].
    rewrite Hd1, Hpol, lift_ok_bind. cbn [intent].
    rewrite (M_bind_run _ _ _ pre (mkWorkspace s2 (intent w))) by (by exact (in_session_run _ (mkWorkspace s1 (intent w)) _ _ Hseal)).
    rewrite (M_bind_run _ _ _ pre_snapshot (mkWorkspace s2 (intent w))) by (apply (in_session_run _ (mkWorkspace s2 (intent w))); unfold read_snapshot; cbn [session]; by rewrite get_bind, Hread).
    rewrite (M_bind_run _ _ _ snapshot (mkWorkspace s2 (intent w))) by (apply (in_session_run _ (mkWorkspace s2 (intent w))); unfold read_snapshot; cbn [session]; by rewrite get_bind, (tg_read _ _ _ _ _ TG2)).
    rewrite get_bind. cbn [session]. rewrite Hroot, Hpre, lift_ok_bind, Htgt, lift_ok_bind.
    rewrite (M_bind_run _ _ _ () (mkWorkspace s3 (intent w))) by exact (in_session_run _ (mkWorkspace s2 (intent w)) _ _ Hcheck). done.
  - constructor; cbn; try done.
    + by eapply extends_trans, extends_trans.
    + exists rs', r. split_and!; try done. by apply sealed_extends.
    + exists pre_snapshot. split; [| done]. eapply targets_extends; [exact He3 |]. constructor; [done | by rewrite Hroot | |].
      * intros q e Hq. destruct (Hn2 q e Hq) as (i & _ & ?). by exists i.
      * rewrite Hrules. eapply own_rules; [apply Hr | done].
    + eapply ready_extends; [exact He3 | done].
Qed.

(** ** A rewind that ends *)

(** Turns enough for the target and for what is sealed. *)
Lemma turns_enough rs s0 pol root target snapshot tpol g s : can_rewind rs s0 pol root target snapshot tpol g s →
  ∃ m, ∀ turns, (m ≤ turns)%nat → exact_in turns (store (work s)) target
    ∧ ∀ s' id' snapshot' pol', targets s' id' snapshot' pol' (view s0 pol (disk (work s))) → exact_in turns s' id'.
Proof using Type* reading linked_outside generation folding Hstill Hfold HX.
  intros [Hc Hi [Hlog _] Hr Hgit _ _ TG _]. destruct (holds_exact _ _ _ (tg_holds _ _ _ _ _ TG)) as (m1 & Hm1).
  destruct (plan_rewind_run m1 s rs s0 pol root target snapshot tpol g Hlog Hc Hr Hgit TG) as (_ & s1 & _ & _ & _ & _ & _ & _ & _ & Hh & _); [by eapply Hm1 |].
  destruct (holds_exact _ _ _ Hh) as (m2 & Hm2). exists (m1 + m2)%nat. intros turns Hle. split; [eapply Hm1; [lia | done] |].
  intros s' id' snapshot' pol' TG'. eapply Hm2; [lia | done].
Qed.

(** The sqlite backups of the target are not asked for, or there are none; no
    places of it are links of one inode. *)
Definition plain (snapshot : Snapshot) (sqlite_consistent : bool) : Prop :=
  hardlinks snapshot = [] ∧ (sqlite_consistent = true → sqlite_backups snapshot = []).

Lemma carry_out_run rs s0 pol root target snapshot tpol g (s : Session St L) p w consistent :
  prepared rs s0 pol root target snapshot tpol g s p w → in_reach s0 pol (disk (work s)) root → plain snapshot consistent →
  ∃ w', carry_out (p_entries p) (p_plan p) [] (p_target p) consistent (p_policy p) (session w) = (Ok (), with_work w' (session w))
    ∧ extends (store (work (session w))) (store w') ∧ brought (union pol tpol) g w'
    ∧ left_alone (union pol tpol) (view s0 pol (disk (work s))) g (disk (work s)) (disk w').
Proof.
  intros [P1 P2 P3 P4 P5 P6 P7 P8 P9 P10 P11 RF] [Hpol _ _] [Hlinks Hback]. set (f := view s0 pol (disk (work s))) in *.
  destruct (applied_run (union pol tpol) f g root (root_tree snapshot) (p_plan p) (p_entries p) (Some snapshot) pol (session w) RF P10 P11)
    as (d1 & Happ & Hb & Hrest); [by rewrite P1 | by intros ? [= <-] |].
  destruct (check_brought_run (union pol tpol) f g root (root_tree snapshot) (p_plan p) (p_entries p) (with_disk d1 (session w)) (work (session w)) RF P10 P11 Hb (extends_refl _))
    as (w' & Hcheck & He & Hh & Hb').
  exists w'. split; [| split; [done | split; [done |]]].
  - unfold RewindVerb.carry_out. rewrite P8, (M_bind_run _ _ _ _ _ Happ), (M_bind_run _ _ _ _ _ Hcheck). destruct consistent; [| by destruct w'].
    rewrite Hback by done. done.
  - rewrite <- P1. eapply left_alone_run; [apply RF | apply RF | done | exact Hrest | exact Hh].
Qed.

(** C1 A rewind of the whole folder succeeds when the store holds the target whole
    and the folder can be captured and brought to it ([can_rewind]: a still disk,
    no Git rules, names that do not fold), link groups and databases aside
    ([plain]): the folder was sealed as the head of the log first, then shows the
    target wherever the policies let it, what the plan does not name is left alone,
    and no note remains. *)
Theorem rewind_spec rs s0 pol root target snapshot tpol g consistent (w : Workspace St L) :
  let s := session w in let f := view s0 pol (disk (work s)) in
  can_rewind rs s0 pol root target snapshot tpol g s → plain snapshot consistent →
  ∃ m, ∀ turns, (m ≤ turns)%nat → fits now (pre_label target) PreRewind None [] rs (plan_rewind turns target [] s).2 →
  ∃ pre plan w', rewind turns target [] consistent w = (Ok (pre, plan), w')
    ∧ intent w' = None
    ∧ (∃ rs' r pre_snapshot, says (ref_log (session w')) rs' ∧ (rs' = rs ∨ rs' = rs ++ [r]) ∧ last rs' = Some r ∧ Refs.snapshot_id r = pre
         ∧ targets (store (work (session w'))) pre pre_snapshot (with_rules (excluded pol) false) f ∧ root_tree pre_snapshot = root)
    ∧ plan_held plan = [] ∧ planned_for (union pol tpol) f g plan
    ∧ (∀ p, p ≠ [] → ¬ hidden (union pol tpol) p → shows (store (work (session w'))) (nodes (disk (work (session w'))) !! p) (g p))
    ∧ left_alone (union pol tpol) f g (disk (work s)) (disk (work (session w'))).
Proof.
  intros s f CR Hplain. destruct (turns_enough _ _ _ _ _ _ _ _ _ CR) as (m & Hm). exists m. intros turns Hle Hfits.
  destruct (prepare_run turns rs s0 pol root target snapshot tpol g w CR (proj1 (Hm _ Hle)) Hfits) as (p & w1 & Hprep & PR).
  assert (in_reach s0 pol (disk (work s)) root) as Hr by apply CR.
  destruct (carry_out_run rs s0 pol root target snapshot tpol g s p w1 consistent PR Hr Hplain) as (w2 & Hrun & He & (Hok & Hroot & Hsh) & Hleft).
  destruct PR as [P1 P2 P3 (rs' & r & Hrs & Hlast & Hid & Hsd) P5 (pre_snapshot & Hpre & Hpr) P7 P8 P9 P10 P11 P12].
  destruct (invalidate_run (with_work w2 (session w1))) as (x & Hinv); [done | by destruct Hsd as [[_ _ _ Hi] _ _ _ _ _ _] |].
  exists (p_pre p), (p_plan p). eexists. split; [| split].
  - unfold RewindVerb.rewind. rewrite (M_bind_run _ _ _ _ _ Hprep).
    erewrite try_bind by (apply in_session_run; exact Hrun). cbn beta iota.
    rewrite (M_bind_run _ _ _ () _ (in_session_run _ (mkWorkspace (with_work w2 (session w1)) (intent w1)) _ _ Hinv)). done.
  - done.
  - split.
    + exists rs', r, pre_snapshot. split_and!; try done; [apply Hsd |]. by eapply targets_extends.
    + done.
Qed.

(** ** A rewind that fails, or is cut short *)

Hypothesis Hclose : wall_close wall.
(** What a process meets when a rewind from [s], prepared as [s1], stopped short:
    more may be stored, and the folder, changed, can be captured and brought back
    to what [s] saw. *)
Record stopped (s0 : St) (pol : CapturePolicy) (s1 : Session St L) (f : View) (s0' : St) (pol' : CapturePolicy) (root' : ObjectId) (w : Work St) : Prop := {
  st_store : extends (store (work s1)) (store w);
  st_honest : honest (disk (work s1)) (disk w);
  st_names : names_ok (disk w);
  st_inodes : one_inode (disk w);
  st_reach : in_reach s0' pol' (disk w) root';
  st_rules : gitignore pol' = false;
  st_recordable : recordable (disk w);
  st_returnable : returnable (union pol' (with_rules (excluded pol) false)) (disk w) (view s0' pol' (disk w)) f;
}.
Lemma capturable_stopped s0 pol s1 f s0' pol' root' w : stopped s0 pol s1 f s0' pol' root' w → capturable s1 → capturable (with_work w s1).
Proof.
  intros [He Hh Hn Ho _ _ _ _] Hc. pose proof (capturable_changed wall device workspace_id s1 (disk w) Hclose Hc Hh Hn Ho) as [C1 C2 C3 C4].
  constructor; try done. cbn. by eapply cache_right_extends.
Qed.
(** The folder shows [f] again, and the places that did before are left alone. *)
Definition restored (pol : CapturePolicy) (f : View) (s0' : St) (pol' : CapturePolicy) (w : Work St) (s : Session St L) : Prop :=
  let protected := union pol' (with_rules (excluded pol) false) in
  (∀ q, q ≠ [] → ¬ hidden protected q → shows (store (work s)) (nodes (disk (work s)) !! q) (f q))
  ∧ left_alone protected (view s0' pol' (disk w)) f (disk w) (disk (work s)).
Lemma stopped_back turns check s0 pol s1 f s0' pol' root' w pre pre_snapshot rs (s : Session St L) :
  stopped s0 pol s1 f s0' pol' root' w → says (ref_log s) rs → capturable s → disk (work s) = disk w → extends (store (work s1)) (store (work s)) →
  targets (store (work s1)) pre pre_snapshot (with_rules (excluded pol) false) f →
  (∀ s' id' snapshot' pol', targets s' id' snapshot' pol' f → exact_in turns s' id') →
  ∃ s', go_back turns pre (root_tree pre_snapshot) [] check s = (Ok (), s') ∧ restored pol f s0' pol' w s'.
Proof.
  intros [He Hh Hn Ho Hr Hgit Hdev RT] Hlog Hc Hd Hes TG Hm. pose proof (targets_extends _ _ _ _ _ _ Hes TG) as TG'.
  destruct (go_back_run turns check s rs s0' pol' root' pre pre_snapshot (with_rules (excluded pol) false) f) as (s3 & Hrun & _ & _ & (_ & _ & Hsh) & Hleft);
    rewrite ?Hd; try done; [by eapply Hm |]. exists s3. split; [done |]. split; [done |]. by rewrite Hd in Hleft.
Qed.

(** C2 Once the note is there a rewind can be cut short anywhere: whatever of the
    folder was changed by then, the next process to open the repository finds
    the note, brings back what was sealed before, and removes the note. The folder
    found may be any that can be captured and brought back ([stopped]). *)
Theorem interrupted_rewind_recovers rs s0 pol root target snapshot tpol g (w : Workspace St L) :
  let s := session w in let f := view s0 pol (disk (work s)) in
  can_rewind rs s0 pol root target snapshot tpol g s →
  ∃ m, ∀ turns, (m ≤ turns)%nat → fits now (pre_label target) PreRewind None [] rs (plan_rewind turns target [] s).2 →
  ∃ p w1, prepare_rewind turns target [] w = (Ok p, w1) ∧ disk (work (session w1)) = disk (work s) ∧ is_Some (intent w1)
    ∧ ∀ v s0' pol' root' w', 0 ≤ v → stopped s0 pol (session w1) f s0' pol' root' w' →
      ∃ w3, recover turns (mkWorkspace (restarted v (with_work w' (session w1))) (intent w1)) = (Ok (), w3)
        ∧ intent w3 = None ∧ restored pol f s0' pol' w' (session w3).
Proof.
  intros s f CR. destruct (turns_enough _ _ _ _ _ _ _ _ _ CR) as (m & Hm). exists m. intros turns Hle Hfits. destruct (Hm _ Hle) as [Hex Hback].
  destruct (prepare_run turns rs s0 pol root target snapshot tpol g w CR Hex Hfits) as (p & w1 & Hprep & PR).
  destruct PR as [P1 P2 P3 (rs' & r & _ & _ & _ & Hsd) _ (pre_snapshot & Hpre & Hpr) _ _ _ _ _ _].
  exists p, w1. split; [done |]. split; [done |]. split; [by rewrite P3 |]. intros v s0' pol' root' w' Hv HS.
  set (s2 := restarted v (with_work w' (session w1))).
  assert (capturable s2) as Hc2 by (apply capturable_restarted; [done |]; eapply capturable_stopped; [done | apply Hsd]).
  destruct (stopped_back turns false s0 pol (session w1) f s0' pol' root' w' (p_pre p) pre_snapshot rs' s2) as (s3 & Hrun & Hs3); [done | apply Hsd | done.. | apply HS | done | done |].
  exists (mkWorkspace s3 None). split; [| done]. set (note := mkIntent _ _ _) in P3. rewrite P3. set (w2 := mkWorkspace s2 (Some (to_vec note))).
  unfold RewindVerb.recover_interrupted_rewind. rewrite get_bind. cbn [RewindVerb.intent w2]. rewrite from_to. cbn [with_context]. rewrite lift_ok_bind.
  assert (read_snapshot (RewindVerb.pre_snapshot note) s2 = (Ok pre_snapshot, s2)) as Hread.
  { unfold read_snapshot. rewrite get_bind. change (RewindVerb.pre_snapshot note) with (p_pre p). change (store (work s2)) with (store w').
    by rewrite (tg_read _ _ _ _ _ (targets_extends _ _ _ _ _ _ (st_store _ _ _ _ _ _ _ _ HS) Hpre)). }
  by rewrite (M_bind_run _ _ _ _ _ (in_session_run _ w2 _ _ Hread)), (M_bind_run _ _ _ _ _ (in_session_run _ w2 _ _ Hrun)).
Qed.


End Runs.
