(* ===== verification/Compact.v ===== *)
(** * Compact: a codec whose size grows with the data

    [Concrete] encodes through [Countable], whose nested pairs double in size with
    every level. Examples that put ids into objects again and again use this
    codec instead: bytes and lists are terminated, not counted, so an encoding is
    a few times the size of what it holds. *)

From S2P Require Import Prelude Model Concrete.
#[local] Open Scope Z_scope.

Class Codec (A : Type) := { enc : A → bytes; dec : bytes → option (A * bytes) }.
Class CodecOk (A : Type) `{Codec A} := dec_enc (a : A) (r : bytes) : dec (enc a ++ r) = Some (a, r).

Definition compact_json (A : Type) `{Codec A} : Json A := {|
  to_vec := enc;
  from_slice b := match dec b with Some (a, []) => Some a | _ => None end;
|}.
Lemma compact_json_ok (A : Type) `{CodecOk A} : @JsonOk A (compact_json A).
Proof. intros a. cbn. pose proof (dec_enc a []) as E. rewrite app_nil_r in E. by rewrite E. Qed.

(** ** Lists: each element after a one, a zero at the end *)

Section Lists.
Context `{CodecOk A}.
Fixpoint enc_list (l : list A) : bytes :=
  match l with [] => [Byte.x00] | x :: l => Byte.x01 :: enc x ++ enc_list l end.
Fixpoint dec_list (fuel : nat) (b : bytes) : option (list A * bytes) :=
  match fuel, b with
  | S fuel, Byte.x01 :: b => '(x, b) ← dec b; '(l, b) ← dec_list fuel b; Some (x :: l, b)
  | S _, Byte.x00 :: b => Some ([], b)
  | _, _ => None
  end.
Lemma dec_enc_list l : ∀ fuel r, (length l < fuel)%nat → dec_list fuel (enc_list l ++ r) = Some (l, r).
Proof.
  induction l as [|x l IH]; intros [|fuel] r Hf; cbn in *; try lia; [done |].
  rewrite <- app_assoc, dec_enc. cbn. by rewrite IH by lia.
Qed.
Lemma enc_list_length l : (length l < length (enc_list l))%nat.
Proof. induction l as [|x l IH]; cbn; [lia |]. rewrite length_app. lia. Qed.
End Lists.
#[export] Instance list_codec {A} `{Codec A} : Codec (list A) := {| enc := enc_list; dec b := dec_list (length b) b |}.
#[export] Instance list_codec_ok {A} `{CodecOk A} : CodecOk (list A).
Proof. intros l r. cbn. apply dec_enc_list. rewrite length_app. pose proof (enc_list_length l). lia. Qed.

#[export] Instance byte_codec : Codec Byte.byte := {| enc x := [x]; dec b := match b with x :: b => Some (x, b) | [] => None end |}.
#[export] Instance byte_codec_ok : CodecOk Byte.byte.
Proof. by intros x r. Qed.

(** ** The rest, through what is there *)

Definition iso_codec {A B} `{Codec B} (f : A → B) (g : B → A) : Codec A := {|
  enc a := enc (f a); dec b := '(x, b) ← dec b; Some (g x, b) |}.
Lemma iso_codec_ok {A B} `{CodecOk B} (f : A → B) (g : B → A) : (∀ a, g (f a) = a) → @CodecOk A (iso_codec f g).
Proof. intros Hg a r. cbn. rewrite dec_enc. cbn. by rewrite Hg. Qed.
#[export] Instance pair_codec {A B} `{Codec A, Codec B} : Codec (A * B) := {|
  enc '(a, b) := enc a ++ enc b; dec r := '(a, r) ← dec r; '(b, r) ← dec r; Some ((a, b), r) |}.
#[export] Instance pair_codec_ok {A B} `{CodecOk A, CodecOk B} : CodecOk (A * B).
Proof. intros [a b] r. cbn. rewrite <- app_assoc, dec_enc. cbn. by rewrite dec_enc. Qed.
#[export] Instance option_codec {A} `{Codec A} : Codec (option A) := iso_codec option_list head.
#[export] Instance option_codec_ok {A} `{CodecOk A} : CodecOk (option A).
Proof. apply iso_codec_ok. by intros []. Qed.
(** A number, a kind: by its code. *)
Definition code_codec {A} `{Countable A} (d : A) : Codec A := iso_codec toy_to_vec (λ b, default d (toy_from_slice b)).
Lemma code_codec_ok {A} `{Countable A} (d : A) : @CodecOk A (code_codec d).
Proof. apply iso_codec_ok. intros a. by rewrite toy_codec. Qed.

#[export] Instance Z_codec : Codec Z := code_codec 0.
#[export] Instance Z_codec_ok : CodecOk Z := code_codec_ok 0.
#[export] Instance kind_codec : Codec EntryKind := code_codec File.
#[export] Instance kind_codec_ok : CodecOk EntryKind := code_codec_ok File.
#[export] Instance class_codec : Codec ContentClass := code_codec Source.
#[export] Instance class_codec_ok : CodecOk ContentClass := code_codec_ok Source.

(** ** The objects of the program *)

#[export] Instance TreeEntry_codec : Codec TreeEntry := iso_codec
  (λ e, (name e, kind e, target e, link_target e, (mode e, size e, mtime_secs e, mtime_nanos e), xattrs e, class e))
  (λ '(n, k, t, l, (m, s, ms, mn), x, c), mkTreeEntry n k t l m s ms mn x c).
#[export] Instance TreeEntry_codec_ok : CodecOk TreeEntry.
Proof. apply iso_codec_ok. by intros []. Qed.
#[export] Instance TreePage_codec : Codec TreePage := iso_codec
  (λ p, (first_name p, last_name p, entry_count p, page_target p)) (λ '(f, l, c, t), mkTreePage f l c t).
#[export] Instance TreePage_codec_ok : CodecOk TreePage.
Proof. apply iso_codec_ok. by intros []. Qed.
#[export] Instance Tree_codec : Codec Tree := iso_codec (λ t, (entries t, pages t)) (λ '(e, p), mkTree e p).
#[export] Instance Tree_codec_ok : CodecOk Tree.
Proof. apply iso_codec_ok. by intros []. Qed.
#[export] Instance ChunkRef_codec : Codec ChunkRef := iso_codec (λ c, (cr_id c, cr_len c)) (λ '(i, l), mkChunkRef i l).
#[export] Instance ChunkRef_codec_ok : CodecOk ChunkRef.
Proof. apply iso_codec_ok. by intros []. Qed.
#[export] Instance Blob_codec : Codec Blob := iso_codec (λ b, (chunks b, total_len b)) (λ '(c, l), mkBlob c l).
#[export] Instance Blob_codec_ok : CodecOk Blob.
Proof. apply iso_codec_ok. by intros []. Qed.
#[export] Instance Xattr_codec : Codec XattrEntry := iso_codec (λ x, (xattr_name x, xattr_value x)) (λ '(n, v), mkXattr n v).
#[export] Instance Xattr_codec_ok : CodecOk XattrEntry.
Proof. apply iso_codec_ok. by intros []. Qed.
#[export] Instance Xattrs_codec : Codec Xattrs := iso_codec xattr_entries mkXattrs.
#[export] Instance Xattrs_codec_ok : CodecOk Xattrs.
Proof. apply iso_codec_ok. by intros []. Qed.
#[export] Instance SealQuality_eq_dec : EqDecision SealQuality.
Proof. solve_decision. Defined.
#[export] Instance SealQuality_countable : Countable SealQuality.
Proof. refine (inj_countable' (λ q, match q with Quiescent => true | Turbulent => false end) (λ b, if b : bool then Quiescent else Turbulent) _). by intros []. Defined.
#[export] Instance bool_codec : Codec bool := code_codec true.
#[export] Instance bool_codec_ok : CodecOk bool := code_codec_ok true.
#[export] Instance quality_codec : Codec SealQuality := code_codec Quiescent.
#[export] Instance quality_codec_ok : CodecOk SealQuality := code_codec_ok Quiescent.
#[export] Instance trigger_codec : Codec SnapshotTrigger := code_codec Manual.
#[export] Instance trigger_codec_ok : CodecOk SnapshotTrigger := code_codec_ok Manual.
#[export] Instance claim_codec : Codec ClaimRecord := iso_codec
  (λ c, (claim_id c, pattern c, owner c, workspace_id c, created_at c, expires_at c)) (λ '(i, p, o, w, c, e), mkClaim i p o w c e).
#[export] Instance claim_codec_ok : CodecOk ClaimRecord.
Proof. apply iso_codec_ok. by intros []. Qed.
#[export] Instance backup_codec : Codec SqliteBackup := iso_codec (λ b, (backup_path b, backup_blob b, integrity_ok b)) (λ '(p, b, i), mkBackup p b i).
#[export] Instance backup_codec_ok : CodecOk SqliteBackup.
Proof. apply iso_codec_ok. by intros []. Qed.
#[export] Instance group_codec : Codec LinkGroup := iso_codec link_paths mkLinkGroup.
#[export] Instance group_codec_ok : CodecOk LinkGroup.
Proof. apply iso_codec_ok. by intros []. Qed.
#[export] Instance ignored_codec : Codec IgnoredSummary := iso_codec (λ i, (ignored_paths i, ignored_more i)) (λ '(p, m), mkIgnored p m).
#[export] Instance ignored_codec_ok : CodecOk IgnoredSummary.
Proof. apply iso_codec_ok. by intros []. Qed.
#[export] Instance Snapshot_codec : Codec Snapshot := iso_codec
  (λ s, (root_tree s, parent s, merge_parents s, (sealed_at_secs s, sealed_at_nanos s), (quality s, snap_trigger s), snap_label s,
         (sqlite_backups s, claims s), (excluded_paths s, hardlinks s, ignored s)))
  (λ '(t, p, ps, (ss, ns), (q, tr), l, (b, c), (e, h, i)), mkSnapshot t p ps ss ns q tr l b c e h i).
#[export] Instance Snapshot_codec_ok : CodecOk Snapshot.
Proof. apply iso_codec_ok. by intros []. Qed.
