(* ===== verification/CaptureExample.v ===== *)
(** * CaptureExample: captures of a small disk

    A store in memory, a disk of five places and what a program may do to it: the
    theorems of the captures apply, and what an incremental capture cannot do. *)

From S2P Require Import Prelude Model Concrete Compact Objects Tree TreeTheory Bundle Chunker ChunkerTheory Paths Disk Files Policy PolicyTheory DiskTheory PlanTheory RewindTheory Capture.
From S2P Require Import PathIndexTheory CaptureSpec CaptureTheory CaptureWalk RefStore CaptureLog CaptureFull DeltaPaths CaptureDelta CaptureReload Seal SealTheory.
From S2P Require PathIndex Catalog CatalogTheory Refs.
#[local] Open Scope Z_scope.

Module CaptureExample.
(** An ideal address: the object itself. *)
#[local] Instance ideal : Blake3 := λ b, b.
#[local] Instance ideal_collision_free : CollisionFree.
Proof. intros [] b [] b' Heq; unfold object_id, blake3, ideal in Heq; cbn in Heq; by simplify_eq. Qed.
#[local] Existing Instances compact_json compact_json_ok toy_hex.
#[local] Instance owner : Platform := {
  clock n := (1000 + Z.of_nat n, 0); umask := 0x12;
  may_write m := Z.testbit m 7 && Z.testbit m 6; may_search m := Z.testbit m 6;
}.
Definition wall (n : nat) : Z := Z.min i64_max ((1000 + Z.of_nat n) * 1000000000).
Definition quiet : Place → Disk → list (Res bytes) * Disk := λ p d,
  (match nodes d !! p with
   | Some i => match body i with Regular [] => [] | Regular data => [Ok data] | _ => [Err EISDIR] end
   | None => [Err ENOENT]
   end, d).
Definition no_names (n : Z) : bool := false.
Definition ws : bytes := b_ "folder".
Definition gen : bytes := b_ "1".

Definition inode (n : Z) (b : Body) (m secs : Z) : Inode := mkInode n b m (secs, 0) (secs, 0) ∅.
Definition disk0 : Disk := mkDisk (list_to_map [
  ([], inode 1 Folder 0x41ed 1); ([b_ "a"], inode 2 Folder 0x41ed 60); ([b_ "a"; b_ "b"], inode 3 Folder 0x41ed 61);
  ([b_ "a"; b_ "b"; b_ "c"], inode 4 (Regular (b_ "old")) 0x81a4 62); ([b_ "k"], inode 5 (Regular (b_ "kept")) 0x81a4 50)]) 6 0.
(** Later: [a/b/c] is gone and [k] was written again. *)
Definition disk1 : Disk := mkDisk (list_to_map [
  ([], inode 1 Folder 0x41ed 1); ([b_ "a"], inode 2 Folder 0x41ed 60); ([b_ "a"; b_ "b"], inode 3 Folder 0x41ed 1002);
  ([b_ "k"], inode 5 (Regular (b_ "new")) 0x81a4 1003)]) 6 5.

Definition catalog0 : Catalog.Catalog := CatalogTheory.opened (Catalog.set_workspaces (λ _, {[ws := (b_ "/w", None)]}) Catalog.empty_tables) 0.

(** A log in memory. *)
#[local] Instance list_log : RefStore (list Refs.RefRecord) := {|
  ref_head := gets last;
  ref_append id at_ lab trg rs :=
    match last rs with
    | Some r => if decide (Refs.snapshot_id r = id) then (Ok r, rs)
                else let r := Refs.mkRefRecord (Z.of_nat (length rs) + 1) id at_ lab trg zero_id in (Ok r, rs ++ [r])
    | None => let r := Refs.mkRefRecord 1 id at_ lab trg zero_id in (Ok r, rs ++ [r])
    end;
|}.
#[local] Program Instance list_log_ok : RefStoreOk (list Refs.RefRecord) := {| says l rs := l = rs; room _ _ _ _ _ := True |}.
Next Obligation. intros l rs ->. by eexists. Qed.
Next Obligation.
  intros l rs id at_ lab trg -> _ Hnew. cbn. destruct (last rs) as [r|]; [rewrite decide_False by by apply Hnew |]; by eexists _, _.
Qed.
Next Obligation. intros l rs r at_ lab trg -> Hr _. cbn. rewrite Hr, decide_True by done. by eexists. Qed.

Definition session0 : Session Objects (list Refs.RefRecord) :=
  mkSession (mkWork (mkObjects _ ∅ (map_Forall_empty _)) disk0) None catalog0 no_policy None [].
#[local] Abbreviation capture := (capture_root_retry quiet wall 7 no_names ws None gen 3 40 4).
#[local] Abbreviation incremental h := (capture_tree quiet wall 7 no_names ws None gen 3 40 4 (Some h)).
#[local] Abbreviation tree pol d := (tree_of None 3 4 (store (work session0)) pol d []).
#[local] Abbreviation seen pol d := (view_of None 3 4 (store (work session0)) pol d).
(** The policy in use once the whole folder was walked. *)
Definition walked : CapturePolicy := mkPolicy [] false None ∅ true None.
Definition no_backups : M (Session Objects (list Refs.RefRecord)) (list SqliteBackup) := mret [].
Definition no_claims : Session Objects (list Refs.RefRecord) → Res (list ClaimRecord) := λ _, Ok [].
Lemma no_claims_read s : ∃ claims, no_claims s = Ok claims.
Proof. by eexists. Qed.
#[local] Abbreviation seal now label trigger changed :=
  (snapshot_internal quiet wall 7 no_names ws None gen 3 40 4 (λ _, Ok None) no_backups no_claims now label trigger changed []).


(** ** What the theorems ask for *)

Lemma quiet_still : still quiet.
Proof.
  intros p d i data Hi Hb. unfold quiet. rewrite Hi, Hb. eexists. split; [done |].
  destruct data as [|x data]; [by split |]. split; [apply Forall_singleton; by eexists | cbn; by rewrite app_nil_r].
Qed.
Lemma wall_is_close : wall_close wall.
Proof.
  split; [intros n; unfold wall; lia |]. intros n m Hle. cbn. unfold wall, Catalog.RACY_WINDOW_NANOS. split; [done |]. lia.
Qed.
Lemma empty_is_small : empty_fits (JT := compact_json Tree).
Proof. by vm_compute. Qed.

(** What can be decided is computed. *)
Ltac decided := lazymatch goal with |- ?P => refine (bool_decide_eq_true_1 P _); by vm_compute end.

(** What holds of the inodes of a small disk is checked one by one. *)
Lemma each_node (P : Place → Inode → Prop) `{∀ p i, Decision (P p i)} d :
  forallb (λ '(p, i), bool_decide (P p i)) (map_to_list (nodes d)) = true → ∀ p i, nodes d !! p = Some i → P p i.
Proof.
  intros Hall p i Hi. rewrite forallb_forall in Hall. apply elem_of_map_to_list, list_elem_of_In in Hi. by apply Hall in Hi as ?%bool_decide_eq_true.
Qed.
Lemma names_fine d : forallb (λ '(p, i), bool_decide (valid_place p ∧ 0 ≤ (mtime i).2)) (map_to_list (nodes d)) = true → names_ok d.
Proof. exact (each_node (λ p i, valid_place p ∧ 0 ≤ (mtime i).2) d). Qed.
#[local] Instance inode_eq_dec : EqDecision Inode.
Proof. solve_decision. Defined.
Lemma inodes_fine d :
  forallb (λ '(_, i), bool_decide (Forall (λ x : Place * Inode, ino i = ino x.2 → i = x.2) (map_to_list (nodes d)))) (map_to_list (nodes d)) = true → one_inode d.
Proof.
  intros Hall p q i j Hi Hj. apply (each_node (λ _ i, Forall (λ x : Place * Inode, ino i = ino x.2 → i = x.2) (map_to_list (nodes d))) d Hall) in Hi. rewrite Forall_forall in Hi. by apply (Hi (q, j)), elem_of_map_to_list.
Qed.

Definition views (pol : CapturePolicy) (d : Disk) : Prop := is_ok (tree pol d) = true.
Definition root_of (pol : CapturePolicy) (d : Disk) : ObjectId := match tree pol d with Ok r => r | Err _ => [] end.
Lemma tree_root pol d : views pol d → tree pol d = Ok (root_of pol d).
Proof. unfold views, root_of. by destruct (tree pol d). Qed.
Lemma seen_there pol d q : views pol d → is_Some (seen pol d q) → q ∈ map fst (map_to_list (nodes d)).
Proof.
  intros Hv [e He]. pose proof (captured_of None 3 empty_is_small 4 _ pol d _ (tree_root pol d Hv)) as Hc.
  destruct (cp_some _ _ _ _ _ _ _ Hc q e He) as (_ & i & _ & Hi & _). apply list_elem_of_fmap. exists (q, i). split; [done |]. by apply elem_of_map_to_list.
Qed.
Lemma reads_back pol d : views pol d →
  forallb (λ p, bool_decide (2 * (3 + length (entries_in None pol d (seen pol d) p)) + 3 < 40)%nat) ([] :: map fst (map_to_list (nodes d))) = true →
  readable None 3 40 pol d (seen pol d).
Proof.
  intros Hv Hall p Hp. rewrite forallb_forall in Hall. apply (bool_decide_eq_true_1 (2 * (3 + length (entries_in None pol d (seen pol d) p)) + 3 < 40)%nat), Hall, list_elem_of_In.
  destruct Hp as [->|(e & He & _)]; [left | right]. apply (seen_there pol); [done | by exists e].
Qed.
Lemma covered pol pol' d d' ps : views pol d → views pol' d' →
  forallb (λ q, bool_decide (seen pol d q = seen pol' d' q ∨ Exists (λ p, p `prefix_of` q ∨ q `prefix_of` p) ps)) (map fst (map_to_list (nodes d)) ++ map fst (map_to_list (nodes d'))) = true →
  covers (seen pol' d') (seen pol d) ps.
Proof.
  intros Hv Hv' Hall q Hq. rewrite forallb_forall in Hall. specialize (Hall q).
  assert (q ∈ map fst (map_to_list (nodes d)) ++ map fst (map_to_list (nodes d'))) as Hin%list_elem_of_In.
  { apply elem_of_app. destruct (seen pol d q) as [e|] eqn:E; [left; apply (seen_there pol); [done | by rewrite E] |].
    right. apply (seen_there pol'); [done |]. destruct (seen pol' d' q); [by eexists | done]. }
  apply Hall in Hin as [?|Hex]%bool_decide_eq_true; [done |]. by apply Exists_exists in Hex.
Qed.

Lemma views0 : views no_policy disk0. Proof. by vm_compute. Qed.
Lemma views1 : views no_policy disk1. Proof. by vm_compute. Qed.
Lemma views2 : views walked disk1. Proof. by vm_compute. Qed.
Lemma session0_capturable : capturable wall 7 ws session0.
Proof.
  constructor; [apply names_fine; by vm_compute | apply inodes_fine; by vm_compute | | done].
  assert (Catalog.stat_cache (Catalog.tables catalog0) = ∅) as E by done.
  split; [| intros key row Hl; change (catalog session0) with catalog0 in Hl; by rewrite E, lookup_empty in Hl]. split; cbn; [done | lia |]. intros _. by apply CatalogTheory.coherent_empty.
Qed.

Lemma time_passes d d' : (ticks d ≤ ticks d')%nat →
  forallb (λ '(_, j), bool_decide (j ∈ map snd (map_to_list (nodes d)) ∨ ctime j ∈ map clock (seq (ticks d) (ticks d' - ticks d)))) (map_to_list (nodes d')) = true →
  honest d d'.
Proof.
  intros Hle Hall. split; [done |]. intros q j Hj. set (P := λ (_ : Place) j, j ∈ map snd (map_to_list (nodes d)) ∨ ctime j ∈ map clock (seq (ticks d) (ticks d' - ticks d))).
  destruct (each_node P d' Hall q j Hj) as [Hin|Hin].
  - left. apply list_elem_of_fmap in Hin as ([p j'] & -> & Hp). exists p. by apply elem_of_map_to_list.
  - right. apply list_elem_of_fmap in Hin as (n & -> & Hn). apply elem_of_seq in Hn. exists n. split; [lia | done].
Qed.
Lemma moved_on : honest disk0 disk1.
Proof. apply time_passes; [cbn; lia | by vm_compute]. Qed.
Lemma names1 : names_ok disk1. Proof. apply names_fine. by vm_compute. Qed.
Lemma inodes1 : one_inode disk1. Proof. apply inodes_fine. by vm_compute. Qed.
Lemma readable0 : readable None 3 40 no_policy disk0 (seen no_policy disk0). Proof. apply (reads_back _ _ views0). by vm_compute. Qed.
Lemma readable1 : readable None 3 40 no_policy disk1 (seen no_policy disk1). Proof. apply (reads_back _ _ views1). by vm_compute. Qed.
Lemma readable2 : readable None 3 40 walked disk1 (seen walked disk1). Proof. apply (reads_back _ _ views2). by vm_compute. Qed.

(** What is said to have changed: [k], and [a/b/c], which is gone. *)
Definition hints : list Hint := [Inside (b_ "k"); Inside (b_ "a/b/c")].
Lemma dir_seen pol d p : match seen pol d p with Some e => kind e = Directory | None => False end → dir_of (seen pol d) p.
Proof. destruct (seen pol d p) as [e|] eqn:E; [| done]. intros Hk. right. by exists e. Qed.
Lemma above_hint (p a : Place) : p ∈ [[b_ "k"]; [b_ "a"; b_ "b"; b_ "c"]] → a `prefix_of` p → a ≠ p → a ∈ [[]; [b_ "a"]; [b_ "a"; b_ "b"]].
Proof.
  intros Hp [u ->] Hne. destruct a as [|x [|y [|z [|]]]], u; cbn in Hp; set_solver.
Qed.
Lemma hints_cover pol : views pol disk1 → (pol = no_policy ∨ pol = walked) → hints_ok pol disk1 (seen pol disk1) (seen no_policy disk0) hints.
Proof.
  intros Hv Hpol. exists (Some [b_ "k"; b_ "a/b/c"]). split; [by vm_compute |]. intros paths [= <-]. exists [[b_ "k"]; [b_ "a"; b_ "b"; b_ "c"]]. split; [done |].
  split; [| split].
  - apply Forall_cons. split; [| apply Forall_singleton].
    + split; [decided |]. split; [done |]. left. destruct Hpol as [->| ->]; decided.
    + split; [decided |]. split; [done |]. right. right. by vm_compute.
  - intros p a Hp Ha Hne. pose proof (above_hint p a Hp Ha Hne) as Hin.
    split; [apply elem_of_cons in Hin as [->|[->|[->|?%not_elem_of_nil]%elem_of_cons]%elem_of_cons]; [decided.. | done] |].
    left. apply elem_of_cons in Hin as [->|[->|[->|?%not_elem_of_nil]%elem_of_cons]%elem_of_cons]; [by left | apply dir_seen.. | done]; destruct Hpol as [->| ->]; by vm_compute.
  - apply (covered no_policy pol disk0 disk1); [exact views0 | exact Hv | destruct Hpol as [->| ->]; by vm_compute].
Qed.

#[local] Strategy 1000 [tree_of view_of capture_root_retry capture_tree snapshot_internal fits drafted].

(** ** The theorems applied *)

Lemma capture_full_spec_witness : ∃ s', capture session0 = (Ok (root_of no_policy disk0), s')
  ∧ indexed gen 3 40 4 (seen no_policy disk0) (root_of no_policy disk0) s'.
Proof.
  destruct (capture_full_spec quiet wall 7 no_names ws None gen 3 40 4 session0 [] (store (work session0)) (root_of no_policy disk0)) as (s' & Hrun & _ & _ & Hix & _).
  - done.
  - exact quiet_still.
  - exact empty_is_small.
  - exact session0_capturable.
  - exact (tree_root _ _ views0).
  - exact readable0.
  - exists s'. split; [exact Hrun | exact Hix].
Defined.

(** The session after the first capture. *)
Definition captured_once : {s : Session Objects (list Refs.RefRecord) |
  capture session0 = (Ok (root_of no_policy disk0), s) ∧ disk (work s) = disk0 ∧ policy s = walked
  ∧ indexed gen 3 40 4 (seen no_policy disk0) (root_of no_policy disk0) s ∧ capturable wall 7 ws s ∧ ref_log s = nil }.
Proof.
  exists (capture session0).2. assert (policy (capture session0).2 = walked) as Hpol by by vm_compute.
  destruct (capture_full_run quiet wall 7 no_names ws None gen 3 40 4 session0 [] (store (work session0)) (root_of no_policy disk0))
    as (s1 & Hrun & Hd & _ & Hix & _ & Hc & Hlog & _);
    [done | exact quiet_still | exact empty_is_small | exact session0_capturable | exact (tree_root _ _ views0) | exact readable0 |].
  rewrite Hrun in Hpol |- *. cbn [snd] in *. split; [reflexivity |]. split; [exact Hd |]. split; [exact Hpol |]. split; [exact Hix |]. split; [exact Hc | exact Hlog].
Qed.
Definition session1 := proj1_sig captured_once.
#[local] Abbreviation session1_run := (proj2_sig captured_once).
Lemma recapture_spec_witness : ∃ s', capture (with_disk disk1 session1) = (Ok (root_of walked disk1), s').
Proof.
  destruct session1_run as (_ & Hd & Hpol & _ & Hc & Hlog). fold session1 in *.
  destruct (recapture_spec quiet wall 7 no_names ws None gen 3 40 4 session1 [] (store (work session0)) (root_of walked disk1) disk1) as (s' & Hrun & _).
  - exact Hlog.
  - exact wall_is_close.
  - rewrite Hd. exact moved_on.
  - exact names1.
  - exact inodes1.
  - exact quiet_still.
  - exact empty_is_small.
  - exact Hc.
  - cbn [policy work disk]. rewrite Hpol. exact (tree_root _ _ views2).
  - rewrite Hpol. exact readable2.
  - exists s'. exact Hrun.
Defined.
Lemma capture_delta_spec_witness : ∃ s', incremental hints (with_disk disk1 session1) = (Ok (root_of walked disk1), s')
  ∧ indexed gen 3 40 4 (seen walked disk1) (root_of walked disk1) s'.
Proof.
  destruct session1_run as (_ & Hd & Hpol & Hix & Hc & Hlog). fold session1 in *.
  destruct (capture_delta_spec quiet wall 7 no_names ws None gen 3 40 4 (with_disk disk1 session1) [] (store (work session0))
              (seen no_policy disk0) (root_of no_policy disk0) (root_of walked disk1) hints) as (s' & Hrun & _ & _ & Hix' & _).
  - exact quiet_still.
  - exact empty_is_small.
  - apply capturable_changed; [exact wall_is_close | exact Hc | rewrite Hd; exact moved_on | exact names1 | exact inodes1].
  - destruct Hix as [I1 I2 I3 I4]. constructor; [exact I1 | exact I2 | exact I3 | exact I4].
  - split; [exact Hlog | done].
  - cbn [policy work disk with_disk]. rewrite Hpol. exact (tree_root _ _ views2).
  - cbn [policy work disk with_disk]. rewrite Hpol. exact readable2.
  - cbn [policy work disk with_disk]. rewrite Hpol. by vm_compute.
  - cbn [policy work disk with_disk]. rewrite Hpol. apply hints_cover; [exact views2 | by right].
  - exists s'. cbn [policy work disk with_disk] in Hix'. rewrite Hpol in Hix'. split; [exact Hrun | exact Hix'].
Defined.

(** ** A timeline *)

#[local] Abbreviation fitting now label trigger changed rs s :=
  (fits quiet wall 7 no_names ws None gen 3 40 4 (λ _, Ok None) no_backups no_claims now label trigger changed [] rs s).
Lemma reach0 : in_reach None 3 40 4 (λ _, Ok None) (store (work session0)) no_policy disk0 (root_of no_policy disk0).
Proof. constructor; [by vm_compute | exact (tree_root _ _ views0) | exact readable0]. Qed.
Lemma reach1 : in_reach None 3 40 4 (λ _, Ok None) (store (work session0)) no_policy disk1 (root_of no_policy disk1).
Proof. constructor; [by vm_compute | exact (tree_root _ _ views1) | exact readable1]. Qed.
Lemma fits0 : fitting (5, 0) (Some (b_ "first")) Manual None [] session0.
Proof. vm_compute. by split. Qed.
Lemma no_backups_ok : backups_ok no_backups.
Proof. intros [[] ? ? ? ? ?]. eexists [], _. split; [done | by intros ???]. Qed.

Lemma seal_spec_witness :
  seals quiet wall 7 no_names ws None gen 3 40 4 (λ _, Ok None) no_backups no_claims None (5, 0) (Some (b_ "first")) Manual [] no_policy
    (seen no_policy disk0) (root_of no_policy disk0) session0.
Proof.
  apply (seal_spec quiet wall 7 no_names ws None gen 3 40 4 (λ _, Ok None) no_backups no_claims no_claims_read quiet_still empty_is_small [] session0
           (store (work session0)) no_policy (root_of no_policy disk0) (5, 0) (Some (b_ "first")) Manual).
  - exact session0_capturable.
  - done.
  - by split.
  - exact reach0.
  - right. exact no_backups_ok.
  - exact fits0.
Defined.

(** The session after the first seal; the next one, of a new process and of the
    changed disk, will fit. *)
#[local] Abbreviation settled := (sealed wall 7 ws gen 3 40 4).
Definition sealed_once : {x : ObjectId * Session Objects (list Refs.RefRecord) |
  seal (5, 0) (Some (b_ "first")) Manual None session0 = (Ok x.1, x.2) ∧ disk (work x.2) = disk0
  ∧ (∃ rs, settled rs (seen no_policy disk0) (root_of no_policy disk0) x.2)
  ∧ ∀ rs, fitting (6, 0) None Watcher (Some hints) rs (with_disk disk1 (restarted 0 x.2)) }.
Proof.
  assert (∀ rs, fitting (6, 0) None Watcher (Some hints) rs (with_disk disk1 (restarted 0 (seal (5, 0) (Some (b_ "first")) Manual None session0).2))) as Hfits.
  { intros rs. vm_compute. by split. }
  set (r := seal (5, 0) (Some (b_ "first")) Manual None session0) in *.
  exists (match r.1 with Ok id => id | Err _ => [] end, r.2).
  destruct (seal_run quiet wall 7 no_names ws None gen 3 40 4 (λ _, Ok None) no_backups no_claims no_claims_read None (5, 0) (Some (b_ "first")) Manual [] no_policy
              (seen no_policy disk0) (root_of no_policy disk0) session0)
    as (snapshot & id & r' & rs & s1 & Hrun & Hd & _ & _ & _ & _ & _ & _ & _ & _ & _ & Hsd & _);
    [exact session0_capturable | done | by split | right; exact no_backups_ok | by vm_compute | | exact fits0 |].
  { exact (captures_full quiet wall 7 no_names ws None gen 3 40 4 (λ _, Ok None) no_backups no_claims no_claims_read quiet_still empty_is_small [] session0
             (store (work session0)) no_policy (root_of no_policy disk0) session0_capturable reach0). }
  fold r in Hrun. rewrite Hrun in Hfits |- *. cbn [fst snd] in *. split; [reflexivity |]. split; [exact Hd |]. split; [exists rs; exact Hsd | exact Hfits].
Qed.
Definition id2 := (proj1_sig sealed_once).1.
Definition session2 := (proj1_sig sealed_once).2.
(** A new process finds the changed disk. *)
Definition session3 : Session Objects (list Refs.RefRecord) := with_disk disk1 (restarted 0 session2).

Lemma session3_sealed rs : settled rs (seen no_policy disk0) (root_of no_policy disk0) session2 → settled rs (seen no_policy disk0) (root_of no_policy disk0) session3.
Proof.
  intros Hs. destruct (proj2_sig sealed_once) as (_ & Hd & _). fold session2 in Hd. pose proof (sd_capturable _ _ _ _ _ _ _ _ _ _ _ Hs) as Hc.
  eapply (sealed_moved wall 7 ws gen 3 40 4); [exact Hs | | reflexivity | reflexivity | reflexivity | reflexivity | by right].
  apply capturable_changed; [exact wall_is_close | apply capturable_restarted; [done | exact Hc] | change (honest (disk (work session2)) disk1); rewrite Hd; exact moved_on | exact names1 | exact inodes1].
Qed.

Lemma capture_resumed_spec_witness : ∃ s', incremental hints session3 = (Ok (root_of no_policy disk1), s')
  ∧ indexed gen 3 40 4 (seen no_policy disk1) (root_of no_policy disk1) s'.
Proof.
  destruct (proj2_sig sealed_once) as (_ & _ & (rs & Hs) & _). apply session3_sealed in Hs.
  destruct (capture_resumed_spec quiet wall 7 no_names ws None gen 3 40 4 session3 rs (store (work session0))
              (seen no_policy disk0) (root_of no_policy disk0) (root_of no_policy disk1) hints) as (s' & Hrun & _ & Hix & _).
  - exact quiet_still.
  - exact empty_is_small.
  - apply Hs.
  - constructor; [reflexivity | apply Hs..].
  - exact (tree_root _ _ views1).
  - exact readable1.
  - by vm_compute.
  - apply hints_cover; [exact views1 | by left].
  - exists s'. split; [exact Hrun | exact Hix].
Defined.

Lemma timeline_follows_folder_witness : ∃ s' rs' r (snapshot : Snapshot),
  says (ref_log s') rs' ∧ last rs' = Some r
  ∧ read_struct_at SnapshotKind (Refs.snapshot_id r) (store (work s')) = Ok snapshot ∧ root_tree snapshot = root_of no_policy disk1.
Proof.
  destruct (proj2_sig sealed_once) as (Hseal & Hd & (rs & Hs) & Hfits). fold id2 session2 session3 in *.
  pose proof (session3_sealed rs Hs) as Hs3.
  destruct (seal_run quiet wall 7 no_names ws None gen 3 40 4 (λ _, Ok None) no_backups no_claims no_claims_read (Some hints) (6, 0) None Watcher rs no_policy
              (seen no_policy disk1) (root_of no_policy disk1) session3)
    as (_ & id & _ & _ & s' & Hrun & _);
    [apply Hs3 | reflexivity | exact (sealed_head wall 7 ws gen 3 40 4 rs _ _ _ Hs3) | by left | by vm_compute | | exact (Hfits rs) |].
  { exact (captures_hints quiet wall 7 no_names ws None gen 3 40 4 (λ _, Ok None) no_backups no_claims no_claims_read quiet_still empty_is_small rs session3
             (store (work session0)) no_policy (root_of no_policy disk1) (seen no_policy disk0) (root_of no_policy disk0) hints Hs3 reach1 eq_refl
             (hints_cover no_policy views1 (or_introl eq_refl))). }
  destruct (timeline_follows_folder quiet wall 7 no_names ws None gen 3 40 4 (λ _, Ok None) no_backups no_claims no_claims_read quiet_still empty_is_small wall_is_close
              [] session0 s' (seen no_policy disk1) (root_of no_policy disk1)) as (rs' & r & snapshot & _ & H1 & H2 & H3 & H4 & _).
  - split; [exact session0_capturable |]. split; [reflexivity |]. split; [by split | exact I].
  - eapply rtc_l; [eapply life_full; [exact reach0 | split; [right; exact no_backups_ok | intros rs0 <-; exact fits0] | exact Hseal] |].
    eapply rtc_l; [apply (life_restart) with (v := 0); done |].
    eapply (rtc_l _ _ (session3, _)); [apply (life_change) with (d := disk1); [change (honest (disk (work session2)) disk1); rewrite Hd; exact moved_on | exact names1 | exact inodes1] |].
    apply rtc_once. eapply life_hints; [exact reach1 | split; [by left | intros rs0 _; exact (Hfits rs0)] | by vm_compute | apply hints_cover; [exact views1 | by left] | exact Hrun].
  - exists s', rs', r, snapshot. split; [exact H1 |]. split; [exact H2 |]. split; [exact H3 | exact H4].
Defined.

(** ** A directory that became a file

    The folder [a] of the sealed tree is removed and a file put in its place; its
    removal is reported down to [a/b/c]. Later [k] is written. *)
Definition disk2 : Disk := mkDisk (list_to_map [
  ([], inode 1 Folder 0x41ed 1002); ([b_ "a"], inode 6 (Regular (b_ "plain")) 0x81a4 1002);
  ([b_ "k"], inode 5 (Regular (b_ "kept")) 0x81a4 50)]) 7 5.
Definition disk3 : Disk := mkDisk (list_to_map [
  ([], inode 1 Folder 0x41ed 1002); ([b_ "a"], inode 6 (Regular (b_ "plain")) 0x81a4 1002);
  ([b_ "k"], inode 5 (Regular (b_ "new")) 0x81a4 1006)]) 7 8.
(** Only [k] differs from the first disk. *)
Definition disk3_unseen : Disk := mkDisk (<[[b_ "k"] := inode 5 (Regular (b_ "new")) 0x81a4 1006]> (nodes disk0)) 7 8.

Definition replaced := incremental [Inside (b_ "a"); Inside (b_ "a/b"); Inside (b_ "a/b/c")] (with_disk disk2 (seal (5, 0) None Manual None session0).2).
Definition and_then := incremental [Inside (b_ "k")] (with_disk disk3 replaced.2).
#[local] Existing Instance PathIndex.Row_eq_dec.
#[local] Instance res_eq_dec : EqDecision (Res ObjectId).
Proof. solve_decision. Defined.
(** What the directories above a reported path have become is looked up before
    they are rebuilt, and only a missing one is passed over: with a file in the
    way the capture fails and nothing of it is kept. The next capture, which is
    told of [k] alone, succeeds; its tree still has the folder and not the file. *)
Example replaced_directory_is_lost :
  replaced.1 = Err ENOTDIR
  ∧ PathIndex.rows <$> (PathIndex.tables <$> index replaced.2) = PathIndex.rows <$> (PathIndex.tables <$> index (seal (5, 0) None Manual None session0).2)
  ∧ and_then.1 = tree no_policy disk3_unseen ∧ is_ok and_then.1 = true ∧ tree no_policy disk3 ≠ and_then.1.
Proof. decided. Qed.
End CaptureExample.
