(* ===== verification/RewindVerbExample.v ===== *)
(** * RewindVerbExample: rewinds of a small disk

    The folder of [CaptureExample] is sealed, changed and brought back: by a rewind
    that ends, by one whose process dies, and by one that fails. *)

From S2P Require Import Prelude Model Concrete Compact Objects Tree TreeTheory Bundle Chunker ChunkerTheory Paths Disk Files Policy PolicyTheory Rewind DiskTheory PlanTheory RewindTheory RewindRestores Capture.
From S2P Require Import PathIndexTheory CaptureSpec CaptureTheory CaptureWalk RefStore CaptureLog CaptureFull CaptureDelta Seal SealTheory CaptureExample VerifyTheory RewindVerb RewindVerbTheory RewindRuns.
From S2P Require PathIndex Catalog CatalogTheory Refs Exchange ExchangeTheory.
#[local] Open Scope Z_scope.

Module RewindVerbExample.
Import CaptureExample.
#[local] Existing Instances ideal ideal_collision_free compact_json compact_json_ok toy_hex owner list_log list_log_ok ExchangeTheory.Objects_index ExchangeTheory.Objects_index_ok.
#[local] Instance laws : PlatformLaws owner := RewindExample.owner_laws.
#[export] Instance RestoreIntent_codec : Codec RestoreIntent := iso_codec
  (λ i, (pre_snapshot i, target_snapshot i, intent_paths i)) (λ '(p, t, ps), mkIntent p t ps).
#[export] Instance RestoreIntent_codec_ok : CodecOk RestoreIntent.
Proof. apply iso_codec_ok. by intros []. Qed.

(** ** More turns do no harm *)

Section Turns.
Context `{Platform} {St : Type} `{ObjectStore St, Exchange.ObjectIndex St, Json Blob, Json Xattrs, Json TreeEntry, Json TreePage, Json Tree, Json Snapshot, Hex}.
Context `{Json RestoreIntent} {L : Type} `{RefStore L}.
Variable fuel k turns : nat.
Lemma materialize_more (s : St) : ∀ n w r, materialize fuel n s w = Ok r → materialize fuel (k + n) s w = Ok r.
Proof.
  induction n as [|n IH]; intros w r; [done |]. rewrite Nat.add_succ_r. cbn [materialize]. destruct w as [[stack missing] classes].
  destruct stack as [|[id prefix] stack]; [done |]. intros (w' & -> & Hrun)%Res_bind_ok. cbn [mbind Res_bind]. by apply IH.
Qed.
Lemma materialization_more (s : St) id r : derive_materialization turns fuel s id = Ok r → derive_materialization (k + turns) fuel s id = Ok r.
Proof.
  unfold derive_materialization. intros (snapshot & -> & (x & Hx & Hr)%Res_bind_ok)%Res_bind_ok. cbn [mbind Res_bind].
  rewrite (materialize_more _ _ _ _ Hx). exact Hr.
Qed.
Variables (reading : Place → Disk → list (Res bytes) * Disk) (wall : nat → Z) (device : Z) (outside : Z → bool) (id generation : bytes) (root : option Place).
Variables (rounds depth : nat) (discover : Disk → Res (option Matcher)) (folding : NameFolding).
#[local] Abbreviation planning turns := (plan_rewind (L := L) reading wall device outside id root generation rounds fuel depth turns discover folding).
Lemma planning_same target paths s r : derive_materialization turns fuel (store (work s)) target = Ok r → planning (k + turns) target paths s = planning turns target paths s.
Proof. intros Hr. unfold plan_rewind. by rewrite !get_bind, (materialization_more _ _ _ Hr), Hr. Qed.
End Turns.

(** ** The target: the folder as it was sealed first *)

Definition discover : Disk → Res (option Matcher) := λ _, Ok None.
(** A database whose backup did not pass its check. *)
Definition bad_backups : M (Session Objects (list Refs.RefRecord)) (list SqliteBackup) := mret [mkBackup (b_ "k") (b_ "blob") false].
#[local] Abbreviation backing b := (if (b : bool) then bad_backups else no_backups).
Definition first (b : bool) : Res ObjectId * Session Objects (list Refs.RefRecord) :=
  snapshot_internal quiet wall 7 no_names ws None gen 3 40 4 discover (backing b) no_claims (5, 0) (Some (b_ "first")) Manual None [] session0.
Definition target (b : bool) : ObjectId := match (first b).1 with Ok id => id | Err _ => [] end.
(** A new process finds the changed folder. *)
Definition found (b : bool) : Session Objects (list Refs.RefRecord) := with_disk disk1 (restarted 0 (first b).2).
Definition tpol : CapturePolicy := with_rules [] false.
#[local] Abbreviation tree pol d := (tree_of None 3 4 (store (work session0)) pol d []).
#[local] Abbreviation seen pol d := (view_of None 3 4 (store (work session0)) pol d).
#[local] Strategy 1000 [tree_of view_of capture_root_retry capture_tree snapshot_internal fits drafted].
#[local] Abbreviation seen0 := (seen no_policy disk0).
#[local] Abbreviation seen1 := (seen no_policy disk1).
#[local] Abbreviation fitting now label trigger rs s := (fits quiet wall 7 no_names ws None gen 3 40 4 discover no_backups no_claims now label trigger None [] rs s).
#[local] Abbreviation planning turns b := (plan_rewind quiet wall 7 no_names ws None gen 3 40 4 turns discover RewindExample.no_folding (target b) [] (found b)).
Lemma bad_backups_ok : backups_ok bad_backups.
Proof. intros [[] ? ? ? ? ?]. eexists _, _. split; [done | by intros ???]. Qed.
Lemma backing_ok b : backups_ok (backing b).
Proof. destruct b; [exact bad_backups_ok | exact no_backups_ok]. Qed.
Lemma first_fits b : fits quiet wall 7 no_names ws None gen 3 40 4 discover (backing b) no_claims (5, 0) (Some (b_ "first")) Manual None [] [] session0.
Proof. destruct b; vm_compute; by split. Qed.
Lemma first_ran b : ∃ snapshot rs, first b = (Ok (target b), (first b).2)
  ∧ disk (work (first b).2) = disk0
  ∧ targets 40 4 (store (work (first b).2)) (target b) snapshot tpol seen0
  ∧ sealed wall 7 ws gen 3 40 4 rs seen0 (root_of no_policy disk0) (first b).2.
Proof.
  destruct (seal_run quiet wall 7 no_names ws None gen 3 40 4 discover (backing b) no_claims no_claims_read None (5, 0) (Some (b_ "first")) Manual [] no_policy
              seen0 (root_of no_policy disk0) session0)
    as (snapshot & id & r & rs & s1 & Hrun & Hd & _ & Hread & Hroot & _ & Hex & _ & _ & _ & _ & Hsd & Hk);
    [exact session0_capturable | reflexivity | by split | right; exact (backing_ok b) | reflexivity | | exact (first_fits b) |].
  { exact (captures_full quiet wall 7 no_names ws None gen 3 40 4 discover (backing b) no_claims no_claims_read quiet_still empty_is_small [] session0
             (store (work session0)) no_policy (root_of no_policy disk0) session0_capturable reach0). }
  exists snapshot, rs. unfold target. fold (first b) in Hrun. rewrite Hrun. cbn [fst snd]. split; [reflexivity |]. split; [exact Hd |].
  split; [| exact Hsd]. constructor; [exact Hread | | exact (Hk eq_refl) | by rewrite Hex].
  rewrite Hroot. apply Hsd.
Qed.
#[local] Strategy opaque [first].

(** ** What a rewind of it needs *)

Lemma each_seen (P : Place → TreeEntry → Prop) `{∀ p e, Decision (P p e)} pol d : views pol d →
  forallb (λ p, match seen pol d p with Some e => bool_decide (P p e) | None => true end) (map fst (map_to_list (nodes d))) = true →
  ∀ p e, seen pol d p = Some e → P p e.
Proof.
  intros Hv Hall p e He. rewrite forallb_forall in Hall. specialize (Hall p). rewrite He in Hall.
  apply (bool_decide_eq_true_1 (P p e)), Hall, list_elem_of_In, (seen_there pol); [done | by exists e].
Qed.
(** Files and directories one may change. *)
Definition ordinary (e : TreeEntry) : Prop :=
  (kind e = File ∨ kind e = Directory) ∧ well_moded e ∧ (kind e = Directory → may_search (mode e) = true ∧ may_write (mode e) = true).
#[local] Instance ordinary_dec e : Decision (ordinary e).
Proof. unfold ordinary, well_moded. apply _. Defined.
Lemma ordinary_returnable protected pol d f : RewindExample.disk_check d = true → (∃ i, nodes d !! [] = Some i ∧ open_folder i) →
  (∀ p e, seen pol d p = Some e → ordinary e) → (∀ p e, f p = Some e → ordinary e) → (∀ p i, nodes d !! p = Some i → ¬ hidden protected p) →
  returnable protected d (seen pol d) f.
Proof.
  intros Hd Hroot H0 H1 Hseen. constructor.
  - by apply RewindExample.disk_check_ok.
  - done.
  - intros p e [He|He] _; [by apply (H0 p) | by apply (H1 p)].
  - intros p e [He|He] Hk; [by apply (H0 p) | by apply (H1 p)].
  - intros p nm e [[_ He]|[_ He]]; [destruct (H1 _ _ He) as ([Hk|Hk] & _) | destruct (H0 _ _ He) as ([Hk|Hk] & _)]; by rewrite Hk.
  - intros p e _ He Hk _. by apply (H0 p).
  - intros p q _ _ _ _ _ Hh. destruct (nodes d !! q) as [i|] eqn:Hi; [| done]. by destruct (Hseen q i Hi).
  - intros p e _ He. destruct (H1 _ _ He) as ([Hk|Hk] & _); by rewrite Hk.
Qed.

Lemma ordinary0 p e : seen0 p = Some e → ordinary e.
Proof. apply (each_seen (λ _ e, ordinary e) no_policy disk0 views0). by vm_compute. Qed.
Lemma ordinary1 p e : seen1 p = Some e → ordinary e.
Proof. apply (each_seen (λ _ e, ordinary e) no_policy disk1 views1). by vm_compute. Qed.
Lemma open_root d i : nodes d !! [] = Some i → open_folder i → ∃ i, nodes d !! [] = Some i ∧ open_folder i.
Proof. intros ??. by exists i. Qed.
Lemma unhidden d : forallb (λ '(p, i), bool_decide (¬ hidden (union no_policy tpol) p ∧ body i ≠ Device)) (map_to_list (nodes d)) = true →
  (∀ p i, nodes d !! p = Some i → ¬ hidden (union no_policy tpol) p) ∧ recordable d.
Proof.
  intros Hall. pose proof (each_node (λ p i, ¬ hidden (union no_policy tpol) p ∧ body i ≠ Device) d Hall) as Hn. split; [intros p i Hi; by apply (Hn p i) |].
  intros p i Hi. by apply (Hn p i).
Qed.
#[local] Abbreviation able := (can_rewind wall 7 ws 3 40 4 discover no_backups).
Lemma able_from (s1 : Session Objects (list Refs.RefRecord)) rs id snapshot : disk (work s1) = disk0 →
  targets 40 4 (store (work s1)) id snapshot tpol seen0 → sealed wall 7 ws gen 3 40 4 rs seen0 (root_of no_policy disk0) s1 →
  able rs (store (work session0)) no_policy (root_of no_policy disk1) id snapshot tpol seen0 (with_disk disk1 (restarted 0 s1)).
Proof.
  intros Hd TG Hsd. set (s := with_disk disk1 (restarted 0 s1)).
  assert (sealed wall 7 ws gen 3 40 4 rs seen0 (root_of no_policy disk0) s) as Hs.
  { eapply (sealed_moved wall 7 ws gen 3 40 4); [exact Hsd | | reflexivity | reflexivity | reflexivity | reflexivity | by right].
    apply capturable_changed; [exact wall_is_close | apply capturable_restarted; [done | apply Hsd] | | exact names1 | exact inodes1].
    change (honest (disk (work s1)) disk1). rewrite Hd. exact moved_on. }
  destruct (unhidden disk1) as [Hseen Hrec]; [by vm_compute |]. constructor.
  - apply Hs.
  - reflexivity.
  - exact (sealed_head wall 7 ws gen 3 40 4 rs _ _ _ Hs).
  - exact reach1.
  - reflexivity.
  - exact Hrec.
  - exact no_backups_ok.
  - exact TG.
  - apply ordinary_returnable; [by vm_compute | eapply open_root; by vm_compute | exact ordinary1 | exact ordinary0 | exact Hseen].
Qed.
Lemma found_able b : ∃ snapshot rs, able rs (store (work session0)) no_policy (root_of no_policy disk1) (target b) snapshot tpol seen0 (found b)
  ∧ read_struct_at SnapshotKind (target b) (store (work (first b).2)) = Ok snapshot.
Proof.
  destruct (first_ran b) as (snapshot & rs & _ & Hd & TG & Hsd). exists snapshot, rs. split; [exact (able_from (first b).2 rs (target b) snapshot Hd TG Hsd) | apply TG].
Qed.

(** Ten turns are as good as more. *)
Lemma ten_turns b : ∃ r, derive_materialization 10 40 (store (work (found b))) (target b) = Ok r.
Proof.
  assert (is_ok (derive_materialization 10 40 (store (work (found b))) (target b)) = true) as Hok by (destruct b; by vm_compute).
  destruct (derive_materialization 10 40 (store (work (found b))) (target b)) as [r|]; [by exists r | done].
Qed.
Lemma planning_more k b : planning (k + 10) b = planning 10 b.
Proof. destruct (ten_turns b) as (r & Hr). exact (planning_same 40 k 10 _ _ _ _ _ _ _ _ _ _ _ _ _ _ r Hr). Qed.
Lemma planned_fits b rs : fitting (6, 0) (pre_label (target b)) PreRewind rs (planning 10 b).2.
Proof. destruct b; vm_compute; by split. Qed.
Lemma turns_fit k b rs : fitting (6, 0) (pre_label (target b)) PreRewind rs (planning (k + 10) b).2.
Proof. rewrite planning_more. apply planned_fits. Qed.

(** ** The theorems applied *)

Definition link (n : nat) : bytes := b_ "link".
Definition leads (p : Place) (d : Disk) : bool := false.
Definition workspace (b : bool) : Workspace Objects (list Refs.RefRecord) := mkWorkspace (found b) None.
#[local] Abbreviation rewinding turns b consistent := (rewind quiet wall 7 no_names ws None gen 3 40 4 turns discover no_backups no_claims
  RewindExample.no_folding link leads (6, 0) (7, 0) (target b) [] consistent (workspace b)).
Lemma plain_target snapshot : read_struct_at SnapshotKind (target false) (store (work (first false).2)) = Ok snapshot → plain snapshot true.
Proof.
  assert (match read_struct_at SnapshotKind (target false) (store (work (first false).2)) with
          | Ok sn => bool_decide (hardlinks sn = [] ∧ sqlite_backups sn = []) | Err _ => false end = true) as Hp by by vm_compute.
  intros E. rewrite E in Hp. apply bool_decide_eq_true in Hp as [H1 H2]. by split.
Qed.
Lemma rewind_spec_witness : ∃ turns pre plan w', rewinding turns false true = (Ok (pre, plan), w') ∧ intent w' = None ∧ plan_held plan = [].
Proof.
  destruct (found_able false) as (snapshot & rs & CR & Hread).
  destruct (rewind_spec quiet wall 7 no_names ws gen 3 40 4 discover RewindExample.no_folding link quiet_still empty_is_small eq_refl
    no_backups no_claims no_claims_read leads (6, 0) (7, 0) rs (store (work session0)) no_policy (root_of no_policy disk1) (target false) snapshot tpol seen0 true (workspace false)
    CR (plain_target snapshot Hread)) as (m & Hm).
  destruct (Hm (m + 10)%nat (Nat.le_add_r m 10) (turns_fit m false rs)) as (pre & plan & w' & Hrun & Hi & _ & Hh & _).
  exists (m + 10)%nat, pre, plan, w'. split; [exact Hrun |]. split; [exact Hi | exact Hh].
Defined.

(** A process that died when [k] was back and [a/b/c] was not. *)
Definition disk2 : Disk := mkDisk (list_to_map [
  ([], inode 1 Folder 0x41ed 1); ([b_ "a"], inode 2 Folder 0x41ed 60); ([b_ "a"; b_ "b"], inode 3 Folder 0x41ed 1002);
  ([b_ "k"], mkInode 6 (Regular (b_ "kept")) 0x81a4 (50, 0) (1005, 0) ∅)]) 7 6.
Lemma views_half : views no_policy disk2. Proof. by vm_compute. Qed.
#[local] Abbreviation stops s1 w := (stopped 3 40 4 discover (store (work session0)) no_policy s1 seen1 (store (work session0)) no_policy (root_of no_policy (disk w)) w).
Lemma stops_at (s1 : Session Objects (list Refs.RefRecord)) st d : disk (work s1) = disk1 → Seal.load_policy discover d = Ok no_policy → views no_policy d → extends (store (work s1)) st →
  honest disk1 d → names_ok d → one_inode d → readable None 3 40 no_policy d (seen no_policy d) → RewindExample.disk_check d = true →
  (∃ i, nodes d !! [] = Some i ∧ open_folder i) → (∀ p e, seen no_policy d p = Some e → ordinary e) →
  forallb (λ '(p, i), bool_decide (¬ hidden (union no_policy tpol) p ∧ body i ≠ Device)) (map_to_list (nodes d)) = true →
  stops s1 (mkWork st d).
Proof.
  intros Hd Hpol Hv He Hh Hn Ho Hr Hck Hroot Hord Hun. destruct (unhidden d Hun) as [Hseen Hrec]. constructor; cbn [store disk]; try done.
  - rewrite Hd. exact Hh.
  - constructor; [exact Hpol | exact (tree_root _ _ Hv) | exact Hr].
  - by apply ordinary_returnable; [.. | exact ordinary1 |].
Qed.
Lemma stops_half (s1 : Session Objects (list Refs.RefRecord)) st : disk (work s1) = disk1 → extends (store (work s1)) st → stops s1 (mkWork st disk2).
Proof.
  intros Hd He. apply stops_at.
  - exact Hd.
  - by vm_compute.
  - exact views_half.
  - exact He.
  - apply time_passes; [cbn; lia | by vm_compute].
  - apply names_fine. by vm_compute.
  - apply inodes_fine. by vm_compute.
  - apply (reads_back _ _ views_half). by vm_compute.
  - by vm_compute.
  - eapply open_root; by vm_compute.
  - apply (each_seen (λ _ e, ordinary e) no_policy disk2 views_half). by vm_compute.
  - by vm_compute.
Qed.
Lemma interrupted_rewind_recovers_witness : ∃ turns (w1 w2 w3 : Workspace Objects (list Refs.RefRecord)),
  disk (work (session w1)) = disk1 ∧ is_Some (intent w1) ∧ disk (work (session w2)) = disk2 ∧ intent w2 = intent w1
  ∧ recover_interrupted_rewind quiet wall 7 no_names ws None gen 3 40 4 turns discover RewindExample.no_folding link w2 = (Ok (), w3) ∧ intent w3 = None.
Proof.
  destruct (found_able false) as (snapshot & rs & CR & Hread).
  destruct (interrupted_rewind_recovers quiet wall 7 no_names ws gen 3 40 4 discover RewindExample.no_folding link quiet_still empty_is_small eq_refl
    no_backups no_claims no_claims_read (6, 0) wall_is_close rs (store (work session0)) no_policy (root_of no_policy disk1) (target false) snapshot tpol seen0 (workspace false) CR) as (m & Hm).
  destruct (Hm (m + 10)%nat (Nat.le_add_r m 10) (turns_fit m false rs)) as (p & w1 & _ & Hd & Hi & Hrec).
  destruct (Hrec 0 (store (work session0)) no_policy (root_of no_policy disk2) (mkWork (store (work (session w1))) disk2)) as (w3 & Hrun & Hi3 & _); [done | |].
  - exact (stops_half (session w1) _ Hd (extends_refl _)).
  - eexists (m + 10)%nat, w1, _, w3. split; [exact Hd |]. split; [exact Hi |]. split; [| split; [| split; [exact Hrun | exact Hi3]]]; reflexivity.
Defined.

(** The database of the target fails its check when the rest is back. *)
#[local] Abbreviation preparing turns := (prepare_rewind quiet wall 7 no_names ws None gen 3 40 4 turns discover no_backups no_claims RewindExample.no_folding (6, 0) (target true) [] (workspace true)).
#[local] Abbreviation carrying p s := (carry_out quiet wall 40 discover link leads (6, 0) (p_entries p) (p_plan p) [] (p_target p) true (p_policy p) s).

End RewindVerbExample.
